(* ===== verification/_CoqProject ===== *)
-Q . S2P
Prelude.v
GoInt.v
Wire.v
Crc32.v
Meta.v
Dict.v
Aes.v
Crypt.v
Md5.v
Path.v
LockCalls.v
MemFile.v
Files.v
Flock.v
LockWorld.v
Store.v
StoreOps.v
StoreInv.v
StoreWrite.v
StoreRun.v
Handlers.v
Open.v
EncryptedRemove.v
Recovery.v
Api.v
Reader.v
Writer.v
ApiSpec.v
Refine.v
Typed.v
Import.v
Registry.v
RegistrySpec.v
BackupSpec.v
ProcessSpec.v
ReaderSpec.v
SharedSpec.v
SharedReader.v
LockedUpdate.v
FaultSpec.v
ReaderSafe.v
ReaderWorld.v
Samples.v
StoreTheorems.v
FormatTheorems.v
SystemTheorems.v
ReaderTheorems.v
ProcessTheorems.v
Divergences.v
