(* ===== verification/Prelude.v ===== *)
(** * mmkv-go: a verification of the on-disk format and the read/write store

    mmkv-go (src/) reads and writes the files of Tencent's MMKV key-value store
    without cgo.  An instance is two files: the data file, four bytes and a log
    of key-value pairs (the region), and the meta file, the same path with
    ".crc", which holds the size and the CRC of the region and is the file that
    processes lock with flock(2).  Both are mapped; the store appends to the log
    in place, and packs it again when it is full.

    ** How the Go code is represented

    - A byte is a [Byte.byte], a buffer a [list byte] ([bytes]), a string the
      same ([gostring]).  An integer is a [Z] with the wrap-around of its type
      written out (GoInt.v); floats are their IEEE 754 bits.
    - A function that can fail returns an [outcome]: a result, an error, [Panic]
      for a run-time panic or a fault, [NoFuel] for a loop that ran out of fuel
      (the theorems exclude it).  A method is a computation [M S A] over a state;
      what it changed before an error stays changed.
    - A system call ([syscall], MemFile.v) fails when the list [faults] of the
      environment says so.  A theorem about a run without failures has the
      hypothesis [healthy]; the theorems about types, panics, locks and refusals
      hold for every list.
    - A []byte value of the dictionary is a [gslice]: a buffer of its own, or a
      view of a numbered mapping, which faults once that mapping is gone.

    ** The files of the development

    Data.  GoInt (integers, little endian), Wire (wire.go, encode.go: cursor,
    varints, value blobs; the class [CodecLaws] is what a value type promises),
    Crc32 (hash/crc32), Meta (meta.go), Dict (reader.go parseDict and
    parseDictGreedy, encode.go encodeRegion: the log), Aes and Crypt (crypto/aes
    from FIPS 197; crypt.go), Md5 and Path (crypto/md5 from RFC 1321,
    path/filepath; path.go, namespace.go, registryKey of mmkv.go).

    The system.  LockCalls (the classes of what the package asks of its platform,
    and the stubs of lock_other.go), MemFile (memfile.go; the environment), Files (a file system of
    names and inodes; backup.go, and the file halves of mmkv_backup.go and
    mmkv_ns.go), Flock (flock.go for one process, over what the kernel holds),
    LockWorld (the same methods as programs of flock calls, interleaved by any
    number of processes).

    The store.  Store (the MMKV struct, loading, freshness: mmkv.go), StoreOps
    (mmkv_io.go, mmkv_expire.go, mmkv_crypt.go, mmkv_compare.go, open and Close),
    Api (typed methods, listing, mmkv_lock.go), Import (ImportFrom: two
    instances), Registry (mmkv.go: options, MMKVWithID, Close in its two halves;
    RemoveStorage, RestoreOneFromDirectory, the namespace methods: a process with
    its instances and its files).  Reader (reader.go, lock_unix.go) and Writer
    (writer.go) stand beside the store and share its formats.

    Proofs.  StoreInv has the invariant [store_ok m b] (the struct and both files
    stand for the map [b]) and loading, StoreWrite the three ways to write a
    pair, StoreRun the frame of a method ([running s b]: an open, writable store
    under an idle lock), Handlers the operations, Open and Recovery opening,
    rollback, salvaging and the writes of others, ApiSpec the getters against the
    class [Accessors], EncryptedRemove what a RemoveValueForKey leaves in the files
    of an encrypted store, Refine the abstract store ([model], [step],
    [represents]) and the refinement, Typed the types of the struct on every path, RegistrySpec
    the registry's invariant over interleavings, BackupSpec validity, restoring
    and removal, ProcessSpec the stores of a process ([serves]: an instance open
    on the files of a path represents a model; [disk]: the files of a closed one
    do), SharedSpec the processes that share the files of one path ([share]: the
    one map they all see, what each has of its own, and who holds the lock of Lock),
    LockedUpdate the program Lock, get, set, Unlock run by any number of them
    ([ustep]: the use that the comment of Lock describes, a specification), FaultSpec the writes that
    fail ([resilient] compares a run under failures with the one without; [finds]:
    who opens the files serves a model), ReaderSpec and
    ReaderSafe the Reader, SharedReader a Reader beside the processes that share a
    path ([follows]: its snapshot is of a version they have moved on from, and the
    words it watches tell), ReaderWorld the goroutines of one Reader, a step for
    each word, pointer or lock they touch, interleaved with a writer.  Samples
    has concrete stores, on pages of 128 bytes.

    ** The theorems

    - StoreTheorems: every sequence of sets, removals, clears, trims, key changes
      and expiration changes refines a map with expiry times, under
      conditions that are computed from the operations ([feasible]: no empty key
      or value, no single RemoveValueForKey under a key, sizes below 4 GiB);
      whatever system call of a run fails, the files hold the model before or after
      the failed operation; getters and listings answer from it, a value until its
      expiry; reopening, a torn append, corruption, the
      write of another process and a full write-back keep what they promise; the
      fast paths agree with the write-back; refusals change nothing.
    - ProcessTheorems: a session (open, any feasible operations, close, open again
      under the last key) serves the model it should and leaves every other store
      and file alone; processes that open one path with WithMultiProcess and take
      turns share one map, whatever each of them missed, and lose no update made
      between Lock and Unlock, and a Reader beside them reads that map, of whatever
      version its snapshot was; the struct keeps its types on every path, failing
      calls and panics included; one open instance per path in every interleaving;
      flock excludes and makes progress among any number of processes; loops
      end; ImportFrom merges; a backup restores under an open instance;
      IsFileValid predicts the load; RemoveStorage removes; paths identify files
      up to MD5 collisions.
    - FormatTheorems: round trips of the values of all nine types, of varints,
      regions, the meta file and AES-CFB; the parsers are total and safe, and
      salvage what precedes a tear;
      the CRC sees every corrupted byte.
    - SystemTheorems: the counted lock, the mapped file.  ReaderTheorems: the
      Reader agrees with the store, keeps its snapshot on bad files, answers
      whatever becomes of the files unless the ".crc" it mapped is cut to nothing,
      and does not open where there is no flock; what a Writer flushed it reads,
      and so does a store opened on the Writer's files; in every interleaving of its
      goroutines with a writer a read returns a committed version, and a recent
      one but for the case that [recalled] names.
    - Divergences: where the code does not do what it means to.  A
      RemoveValueForKey corrupts every encrypted store it appends to; the others
      are concrete runs.

    ** Fuel and bounds

    - A varint has at most ten bytes, and its loop that many steps; the parsers
      have a step for each byte of the region and one more (each step reads a
      byte); copying a file has a round for each of its bytes and one more.
    - The growth loop has 64 doublings, more than an int has digits
      ([growLoop_ok]); the trim loop one halving for each binary digit of the
      size ([trimLoop_spec]).
    - The sizes of the format are uint32: theorems that write assume that what is
      written stays below 4 GiB; the wrap-around of uint32 sizes is in the model.
    - A single RemoveValueForKey is refined for plaintext stores only, and keys
      are not empty ([admissible], in [feasible] and, for the processes that share
      a path, in [fits]): Divergences shows what happens otherwise.

    ** Not modelled

    - The thread lock of an instance: a method runs alone on it.  Interleavings
      are modelled where they matter between locks: the halves of Close around
      gInstanceMu (RegistrySpec), and flock calls between processes (LockWorld,
      where calls wait or are refused but are not interrupted; Flock has
      interrupted and failing calls), and the goroutines of one Reader
      (ReaderWorld, where a data file is read in one step: the writer is kept out
      by the flock).  Processes that share a path take turns at whole methods,
      which the exclusive lock of LockWorld enforces for those that write, and a
      method is called when the lock is granted; an open takes no lock, and is a
      turn too.  Their sequence number is assumed not to wrap.
    - The fault of a store's mapping whose file another process cut (SIGBUS): a
      mapping shows the bytes its file has, and one beyond its end is only reached
      after a remap.  The Reader's mapping of the ".crc" file is modelled: it stays
      with the file it was made of ([dk_gone]), reads zeros behind that file's end
      up to its page's, and faults when the file has no byte left ([crcBytes]).
    - Which of MS_SYNC and MS_ASYNC a flush passes to the kernel ([msync]): a mapped
      byte is in the file once it is written, and nothing loses power.  A flock
      call on a closed descriptor: after Close, Lock and its companions drop the
      EBADF that the kernel answers; here the call succeeds, with as little effect
      on the store.  Directories: mkdir succeeds or fails.
    - A content-changed handler is counted, not run; a custom Decryptor is a
      function that returns the plaintext or an error.
    - The order in which Go visits a map is a parameter where it can be seen
      ([MapOrder]).
    - src/tools/gen, src/harness and the C++ programs (test data made with the
      official library). *)

From stdpp Require Export base list gmap sorting strings.
From Stdlib Require Export ZArith Lia.
From Stdlib Require Strings.Byte.

#[global] Open Scope Z_scope.

(** ** Outcomes of Go code *)

(** The errors the package returns, and the errno of a failed system call. *)
Inductive error :=
  | ErrUnexpectedEOF                 (* io.ErrUnexpectedEOF *)
  | ErrVarintOverflow                (* wire.go errVarintOverflow *)
  | ErrMetaTooShort                  (* meta.go parseMeta *)
  | ErrUnsupportedVersion            (* reader.go ErrUnsupportedVersion *)
  | ErrCRCMismatch                   (* reader.go ErrCRCMismatch *)
  | ErrActualSize                    (* reader.go: actualSize + 4 > file size *)
  | ErrShortIV                       (* crypt.go errShortIV *)
  | ErrClosed                        (* mmkv.go ErrClosed *)
  | ErrReadOnly                      (* mmkv.go ErrReadOnly *)
  | ErrEmptyFile                     (* memfile.go: empty file *)
  | ErrNotExist                      (* os.ErrNotExist *)
  | ErrCRCTooSmall                   (* lock_unix.go: .crc smaller than meta struct *)
  | ErrNeedsFlock                    (* lock_other.go: only supported on POSIX (needs flock) *)
  | ErrNeedsMmap                     (* lock_other.go: only supported on POSIX (needs mmap) *)
  | ErrUnlockShared                  (* flock.go: unlock shared without holding it *)
  | ErrUnlockExclusive               (* flock.go: unlock exclusive without holding it *)
  | ErrSys (errno : Z).              (* a failed system call *)

#[global] Instance error_eq_dec : EqDecision error.
Proof. solve_decision. Defined.

(** What running a piece of Go code ends in: a result, a returned error, a
    run-time panic (slice bounds, access to an unmapped page), or the fuel of
    a loop running out, which the termination lemmas exclude. *)
Inductive outcome (A : Type) :=
  | Ok (a : A)
  | Err (e : error)
  | Panic
  | NoFuel.
Arguments Ok {A} a.
Arguments Err {A} e.
Arguments Panic {A}.
Arguments NoFuel {A}.

#[global] Instance outcome_ret : MRet outcome := fun A a => Ok a.
#[global] Instance outcome_bind : MBind outcome := fun A B k o =>
  match o with
  | Ok a => k a
  | Err e => Err e
  | Panic => Panic
  | NoFuel => NoFuel
  end.
#[global] Instance outcome_map : FMap outcome := fun A B f o =>
  match o with
  | Ok a => Ok (f a)
  | Err e => Err e
  | Panic => Panic
  | NoFuel => NoFuel
  end.

(** A value the code returns normally: a result or an error, not a panic. *)
Definition returns {A} (o : outcome A) : Prop :=
  match o with Ok _ | Err _ => True | _ => False end.

(** Go code over a state [S]: mutations made before an error stay made. *)
Definition M (S A : Type) : Type := S → outcome A * S.

#[global] Instance M_ret {S} : MRet (M S) := fun A a s => (Ok a, s).
#[global] Instance M_bind {S} : MBind (M S) := fun A B k c s =>
  match c s with
  | (Ok a, s') => k a s'
  | (Err e, s') => (Err e, s')
  | (Panic, s') => (Panic, s')
  | (NoFuel, s') => (NoFuel, s')
  end.

Definition get {S} : M S S := fun s => (Ok s, s).
Definition modify {S} (f : S → S) : M S unit := fun s => (Ok tt, f s).
Definition fail {S A} (e : error) : M S A := fun s => (Err e, s).
Definition lift {S A} (o : outcome A) : M S A := fun s => (o, s).

(** [_ = f()]: the error of [c] is dropped, its effects are kept. *)
Definition ignore {S A} (c : M S A) : M S unit := fun s =>
  match c s with
  | (Ok _, s') | (Err _, s') => (Ok tt, s')
  | (Panic, s') => (Panic, s')
  | (NoFuel, s') => (NoFuel, s')
  end.

(** [defer d()] around the rest [c] of a function: [d] runs when [c] returns,
    with a result or with an error, and its own error is dropped. *)
Definition deferring {S A} (d : M S unit) (c : M S A) : M S A := fun s =>
  match c s with
  | (Ok a, s') => match d s' with
                  | (Panic, s'') => (Panic, s'') | (NoFuel, s'') => (NoFuel, s'')
                  | (_, s'') => (Ok a, s'') end
  | (Err e, s') => match d s' with
                   | (Panic, s'') => (Panic, s'') | (NoFuel, s'') => (NoFuel, s'')
                   | (_, s'') => (Err e, s'') end
  | r => r
  end.

(** Running a computation over a part of the state. *)
Definition zoom {S T A} (pr : S → T) (upd : T → S → S) (c : M T A) : M S A :=
  fun s => let '(o, t) := c (pr s) in (o, upd t s).

Lemma bind_ok {S A B} (c : M S A) (k : A → M S B) s a s' :
  c s = (Ok a, s') → (c ≫= k) s = k a s'.
Proof. intros H. unfold mbind, M_bind. by rewrite H. Qed.

Lemma bind_err {S A B} (c : M S A) (k : A → M S B) s e s' :
  c s = (Err e, s') → (c ≫= k) s = (Err e, s').
Proof. intros H. unfold mbind, M_bind. by rewrite H. Qed.

Lemma deferring_ok {S A} (d : M S unit) (c : M S A) s a s' s'' :
  c s = (Ok a, s') → d s' = (Ok tt, s'') → deferring d c s = (Ok a, s'').
Proof. intros Hc Hd. unfold deferring. by rewrite Hc, Hd. Qed.

Lemma bind_inv_ok {S A B} (c : M S A) (k : A → M S B) s b s' :
  (c ≫= k) s = (Ok b, s') → ∃ a s1, c s = (Ok a, s1) ∧ k a s1 = (Ok b, s').
Proof.
  unfold mbind, M_bind. destruct (c s) as [[a| | |] s1]; naive_solver.
Qed.

(** ** What a computation leaves alone *)

(** [c] does not change [pr] of the state, however it ends. *)
Definition preserves {S A T} (pr : S → T) (c : M S A) : Prop := ∀ s, pr (c s).2 = pr s.

Create HintDb preserves.

Section preserves.
Context {S T : Type} (pr : S → T).

Lemma preserves_ret {A} (a : A) : preserves pr (mret a).
Proof. done. Qed.
Lemma preserves_get : preserves pr (get (S := S)).
Proof. done. Qed.
Lemma preserves_fail {A} e : preserves pr (fail (A := A) e).
Proof. done. Qed.
Lemma preserves_lift {A} (o : outcome A) : preserves pr (lift o).
Proof. done. Qed.
Lemma preserves_modify f : (∀ s, pr (f s) = pr s) → preserves pr (modify f).
Proof. done. Qed.
Lemma preserves_bind {A B} (c : M S A) (k : A → M S B) :
  preserves pr c → (∀ a, preserves pr (k a)) → preserves pr (c ≫= k).
Proof.
  intros Hc Hk s. specialize (Hc s). unfold mbind, M_bind.
  destruct (c s) as [[a| | |] s']; cbn [snd] in *; [|done..]. by rewrite Hk.
Qed.
Lemma preserves_ignore {A} (c : M S A) : preserves pr c → preserves pr (ignore c).
Proof. intros Hc s. specialize (Hc s). unfold ignore. by destruct (c s) as [[]]. Qed.
Lemma preserves_deferring {A} (d : M S unit) (c : M S A) :
  preserves pr d → preserves pr c → preserves pr (deferring d c).
Proof.
  intros Hd Hc s. specialize (Hc s). unfold deferring. destruct (c s) as [[a|e| |] s']; cbn [snd] in *; try done.
  all: specialize (Hd s'); destruct (d s') as [[] s'']; cbn [snd] in *; congruence.
Qed.
Lemma preserves_zoom {U A} (get : S → U) (put : U → S → S) (c : M U A) :
  (∀ u s, pr (put u s) = pr s) → preserves pr (zoom get put c).
Proof. intros Hp s. unfold zoom. destruct (c (get s)) as [o u]. apply Hp. Qed.

End preserves.

#[export] Hint Resolve preserves_ret preserves_get preserves_fail preserves_lift preserves_bind
  preserves_ignore preserves_deferring : preserves.
#[export] Hint Resolve preserves_modify preserves_zoom : preserves.

(** Case analysis on the conditions of a computation, then its parts. *)
Ltac preserves :=
  repeat first
    [ progress intros
    | progress cbv zeta
    | solve [auto 4 with preserves]
    | apply preserves_bind
    | apply preserves_ignore
    | apply preserves_deferring
    | match goal with
      | |- preserves _ (if ?b then _ else _) => destruct b
      | |- preserves _ (match ?x with _ => _ end) => destruct x
      end ].

(** ** Development tactics *)

(** Run the monadic code of a goal: the primitive steps reduce, and a bind of
    a computation whose result is known in the context is replaced by it. *)
Ltac mrun :=
  repeat (cbn beta iota delta [mbind M_bind mret M_ret get modify fail lift ignore zoom
            outcome_bind outcome_ret fst snd] in *;
          try match goal with
          | H : ?c ?s = (_, _) |- context [?c ?s] => rewrite H
          | H : ?o = Ok _ |- context [match ?o with Ok _ => _ | _ => _ end] => rewrite H
          end).

(** Case analysis on the conditions of the goal, with arithmetic for the
    impossible branches. *)
Ltac bsplit :=
  repeat match goal with
  | H : (_ && _) = true |- _ => apply andb_true_iff in H as [? ?]
  | H : (_ || _) = false |- _ => apply orb_false_iff in H as [? ?]
  | H : (_ <? _) = true |- _ => apply Z.ltb_lt in H
  | H : (_ <? _) = false |- _ => apply Z.ltb_ge in H
  | H : (_ <=? _) = true |- _ => apply Z.leb_le in H
  | H : (_ <=? _) = false |- _ => apply Z.leb_gt in H
  | H : (_ =? _) = true |- _ => apply Z.eqb_eq in H
  | H : (_ =? _) = false |- _ => apply Z.eqb_neq in H
  | H : negb _ = true |- _ => apply negb_true_iff in H
  | H : negb _ = false |- _ => apply negb_false_iff in H
  end.

(** Resolve a boolean comparison of the goal by [lia]. *)
Ltac btrue :=
  match goal with
  | |- context [?a <? ?b] => rewrite (proj2 (Z.ltb_lt a b)) by lia
  | |- context [?a <=? ?b] => rewrite (proj2 (Z.leb_le a b)) by lia
  | |- context [?a =? ?b] => rewrite (proj2 (Z.eqb_eq a b)) by lia
  end.
Ltac bfalse :=
  match goal with
  | |- context [?a <? ?b] => rewrite (proj2 (Z.ltb_ge a b)) by lia
  | |- context [?a <=? ?b] => rewrite (proj2 (Z.leb_gt a b)) by lia
  | |- context [?a =? ?b] => rewrite (proj2 (Z.eqb_neq a b)) by lia
  end.

(** Hints that close the side conditions of the list and width lemmas. *)
Create HintDb mmkv.
Create Rewrite HintDb mmkv.
#[export] Hint Extern 1 (_ ≤ _) => lia : mmkv.
#[export] Hint Extern 1 (_ < _) => lia : mmkv.
#[export] Hint Extern 1 (_ ≤ _ < _) => lia : mmkv.
#[export] Hint Extern 1 (_ ≤ _)%nat => lia : mmkv.
#[export] Hint Extern 1 (_ < _)%nat => lia : mmkv.

(** ** Bytes *)

Abbreviation byte := Byte.byte.
Abbreviation bytes := (list Byte.byte).

(** A Go string is a sequence of bytes: keys and values have the same type. *)
Abbreviation gostring := (list Byte.byte).

Definition b2z (b : byte) : Z := Z.of_N (Byte.to_N b).
Definition z2b (z : Z) : byte :=
  match Byte.of_N (Z.to_N (z mod 256)) with Some b => b | None => Byte.x00 end.

Lemma b2z_range b : 0 ≤ b2z b < 256.
Proof. unfold b2z. pose proof (Byte.to_N_bounded b). lia. Qed.

Lemma b2z_z2b z : b2z (z2b z) = z mod 256.
Proof.
  unfold b2z, z2b.
  pose proof (Z.mod_pos_bound z 256 ltac:(lia)).
  destruct (Byte.of_N (Z.to_N (z mod 256))) as [b|] eqn:E.
  - apply Byte.to_of_N in E. rewrite E. lia.
  - apply Byte.of_N_None_iff in E. lia.
Qed.

Lemma z2b_b2z b : z2b (b2z b) = b.
Proof.
  unfold z2b, b2z. rewrite Z.mod_small by (apply (b2z_range b)).
  rewrite N2Z.id. by rewrite Byte.of_to_N.
Qed.

Lemma b2z_inj a b : b2z a = b2z b → a = b.
Proof. intros H. by rewrite <-(z2b_b2z a), H, z2b_b2z. Qed.

#[global] Instance byte_eq_dec : EqDecision byte.
Proof.
  refine (fun a b => cast_if (decide (b2z a = b2z b))); [by apply b2z_inj|congruence].
Defined.

#[global] Instance byte_countable : Countable byte :=
  inj_countable' b2z z2b z2b_b2z.

(** Go maps keyed by strings. *)
Abbreviation kmap := (@gmap (list Byte.byte) (@list_eq_dec Byte.byte byte_eq_dec)
  (@list_countable Byte.byte byte_eq_dec byte_countable)).

Abbreviation len l := (Z.of_nat (length l)).

(** [l[off : off+n]] of an in-range request. *)
Definition sub {A} (l : list A) (off n : nat) : list A := take n (drop off l).

#[global] Arguments sub : simpl never.

(** Go slicing [l[lo:hi]] of a slice whose capacity is its length. *)
Definition slice {A} (l : list A) (lo hi : Z) : outcome (list A) :=
  if (0 <=? lo) && (lo <=? hi) && (hi <=? len l)
  then Ok (sub l (Z.to_nat lo) (Z.to_nat (hi - lo)))
  else Panic.

(** [copy(l[off:], bs)] with [bs] inside [l]. *)
Definition splice {A} (l : list A) (off : nat) (bs : list A) : list A :=
  take off l ++ bs ++ drop (off + length bs) l.

#[global] Arguments splice : simpl never.

Definition zeros (n : nat) : bytes := replicate n Byte.x00.

(** ** Lists *)

Lemma length_sub {A} (l : list A) off n :
  (off + n ≤ length l)%nat → length (sub l off n) = n.
Proof. intros. unfold sub. rewrite length_take, length_drop. lia. Qed.

Lemma sub_0 {A} (l : list A) off : sub l off 0 = [].
Proof. done. Qed.

Lemma sub_all {A} (l : list A) : sub l 0 (length l) = l.
Proof. unfold sub. by rewrite drop_0, firstn_all. Qed.

Lemma sub_app_l {A} (l k : list A) off n :
  (off + n ≤ length l)%nat → sub (l ++ k) off n = sub l off n.
Proof.
  intros. unfold sub. rewrite drop_app_le by lia.
  rewrite take_app_le; [done|]. rewrite length_drop. lia.
Qed.

Lemma sub_app_r {A} (l k : list A) off n :
  (length l ≤ off)%nat → sub (l ++ k) off n = sub k (off - length l) n.
Proof. intros. unfold sub. by rewrite drop_app_ge by lia. Qed.

Lemma sub_prefix {A} (l k : list A) : sub (l ++ k) 0 (length l) = l.
Proof. rewrite sub_app_l by lia. apply sub_all. Qed.

Lemma sub_middle {A} (p l k : list A) : sub (p ++ l ++ k) (length p) (length l) = l.
Proof. rewrite sub_app_r by lia. rewrite Nat.sub_diag. apply sub_prefix. Qed.

Lemma sub_middle' {A} (p l k : list A) off n :
  off = length p → n = length l → sub (p ++ l ++ k) off n = l.
Proof. intros -> ->. apply sub_middle. Qed.

Lemma sub_sub {A} (l : list A) off n off' n' :
  (off' + n' ≤ n)%nat → sub (sub l off n) off' n' = sub l (off + off') n'.
Proof.
  intros. unfold sub. rewrite skipn_firstn_comm, take_take, drop_drop.
  f_equal. lia.
Qed.

Lemma sub_split {A} (l : list A) off n k :
  sub l off (n + k) = sub l off n ++ sub l (off + n) k.
Proof.
  unfold sub. rewrite <-(drop_drop l n off).
  generalize (drop off l). clear l off. intros l.
  rewrite <-(take_drop n l) at 1.
  destruct (decide (n ≤ length l)%nat).
  - rewrite take_app_ge; rewrite length_take_le by lia; [|lia].
    by replace (n + k - n)%nat with k by lia.
  - rewrite drop_ge by lia. rewrite (take_ge l n) by lia.
    rewrite app_nil_r, take_ge by lia. by destruct k; rewrite app_nil_r.
Qed.

Lemma slice_ok {A} (l : list A) lo hi :
  0 ≤ lo ≤ hi → hi ≤ len l →
  slice l lo hi = Ok (sub l (Z.to_nat lo) (Z.to_nat (hi - lo))).
Proof.
  intros. unfold slice.
  rewrite (proj2 (Z.leb_le 0 lo)), (proj2 (Z.leb_le lo hi)),
    (proj2 (Z.leb_le hi (len l))); [done|lia..].
Qed.

Lemma slice_inv {A} (l r : list A) lo hi :
  slice l lo hi = Ok r →
  0 ≤ lo ∧ lo ≤ hi ∧ hi ≤ len l ∧ r = sub l (Z.to_nat lo) (Z.to_nat (hi - lo)).
Proof.
  unfold slice. destruct (_ && _) eqn:E; [|done]. intros [= <-]. bsplit. done.
Qed.

Lemma slice_panics {A} (l : list A) lo hi :
  lo < 0 ∨ hi < lo ∨ len l < hi → slice l lo hi = Panic.
Proof.
  intros. unfold slice.
  destruct (0 <=? lo) eqn:?, (lo <=? hi) eqn:?, (hi <=? len l) eqn:?;
    simpl; try done; lia.
Qed.

Lemma length_splice {A} (l : list A) off bs :
  (off + length bs ≤ length l)%nat → length (splice l off bs) = length l.
Proof.
  intros. unfold splice. rewrite !length_app, length_take, length_drop. lia.
Qed.

Lemma sub_splice_same {A} (l : list A) off bs n :
  n = length bs → (off + length bs ≤ length l)%nat → sub (splice l off bs) off n = bs.
Proof.
  intros ->. intros. unfold splice. apply sub_middle'; [|done]. rewrite length_take. lia.
Qed.

(** A read that ends before the written bytes, or starts after them, is not
    affected by the write. *)
Lemma sub_splice_before {A} (l : list A) off bs off' n :
  (off + length bs ≤ length l)%nat → (off' + n ≤ off)%nat →
  sub (splice l off bs) off' n = sub l off' n.
Proof.
  intros. unfold splice. rewrite sub_app_l by (rewrite length_take; lia).
  unfold sub. rewrite skipn_firstn_comm, take_take. f_equal. lia.
Qed.

Lemma sub_splice_after {A} (l : list A) off bs off' n :
  (off + length bs ≤ length l)%nat → (off + length bs ≤ off')%nat →
  sub (splice l off bs) off' n = sub l off' n.
Proof.
  intros. unfold splice.
  rewrite app_assoc, sub_app_r by (rewrite length_app, length_take; lia).
  rewrite length_app, length_take. unfold sub. rewrite drop_drop. f_equal. f_equal. lia.
Qed.

Lemma length_zeros n : length (zeros n) = n.
Proof. apply length_replicate. Qed.

#[export] Hint Rewrite @length_app @length_zeros : mmkv.
