(* ===== verification/GoInt.v ===== *)
(** * Go's fixed-width integers and encoding/binary's little-endian codecs

    A [uintN] or [intN] value is a [Z] in its range; a conversion or an
    arithmetic operation that can leave the range is followed by the wrapping
    function of the type ([u8], [u32], [u64], [i32], [i64]).  [le_bytes] and
    [le_val] model [binary.LittleEndian.PutUintN] and [binary.LittleEndian.UintN]. *)

From S2P Require Import Prelude.

(** ** Widths *)

Definition u8 (z : Z) : Z := z mod 2 ^ 8.
Definition u32 (z : Z) : Z := z mod 2 ^ 32.
Definition u64 (z : Z) : Z := z mod 2 ^ 64.

(** Two's complement: the signed value of the low 32 (64) bits. *)
Definition i32 (z : Z) : Z := (z + 2 ^ 31) mod 2 ^ 32 - 2 ^ 31.
Definition i64 (z : Z) : Z := (z + 2 ^ 63) mod 2 ^ 64 - 2 ^ 63.

Definition is_u32 (z : Z) : Prop := 0 ≤ z < 2 ^ 32.
Definition is_u64 (z : Z) : Prop := 0 ≤ z < 2 ^ 64.
Definition is_i32 (z : Z) : Prop := - 2 ^ 31 ≤ z < 2 ^ 31.
Definition is_i64 (z : Z) : Prop := - 2 ^ 63 ≤ z < 2 ^ 63.

Lemma u32_small z : is_u32 z → u32 z = z.
Proof. apply Z.mod_small. Qed.
Lemma u64_small z : is_u64 z → u64 z = z.
Proof. apply Z.mod_small. Qed.
Lemma u32_range z : is_u32 (u32 z).
Proof. apply Z.mod_pos_bound. lia. Qed.
Lemma u64_range z : is_u64 (u64 z).
Proof. apply Z.mod_pos_bound. lia. Qed.
Lemma is_u32_u64 z : is_u32 z → is_u64 z.
Proof. unfold is_u32, is_u64. lia. Qed.
Lemma i32_small z : is_i32 z → i32 z = z.
Proof. unfold is_i32, i32. intros. rewrite Z.mod_small; lia. Qed.
Lemma i64_small z : is_i64 z → i64 z = z.
Proof. unfold is_i64, i64. intros. rewrite Z.mod_small; lia. Qed.

(** Converting a negative [int32] through [uint64] and back keeps it. *)
Lemma i32_u64 z : i32 (u64 z) = i32 z.
Proof.
  unfold i32, u64. f_equal. change (2 ^ 64) with (2 ^ 32 * 2 ^ 32).
  rewrite <-Z.add_mod_idemp_l, <-(Z.add_mod_idemp_l z) by lia. f_equal. f_equal.
  rewrite Z.rem_mul_r by lia.
  rewrite Z.add_mod, Z.mul_comm, Z.mod_mul, Z.add_0_r, !Z.mod_mod by lia. done.
Qed.

Lemma i64_u64 z : i64 (u64 z) = i64 z.
Proof. unfold i64, u64. f_equal. by rewrite Z.add_mod_idemp_l by lia. Qed.

#[export] Hint Resolve u32_range u64_range is_u32_u64 : mmkv.

(** ** Bits *)

(** Or-ing a value below [2^s] with one shifted left by [s] adds them. *)
Lemma lor_shiftl_add x b s :
  0 ≤ s → 0 ≤ x < 2 ^ s → Z.lor x (Z.shiftl b s) = x + b * 2 ^ s.
Proof.
  intros Hs Hx. rewrite <-Z.shiftl_mul_pow2 by lia.
  assert (Z.land x (Z.shiftl b s) = 0) as Hl.
  { apply Z.bits_inj'. intros n Hn. rewrite Z.land_spec, Z.bits_0.
    destruct (decide (n < s)).
    - rewrite Z.shiftl_spec_low by lia. apply andb_false_r.
    - destruct (decide (x = 0)) as [->|]; [by rewrite Z.bits_0|].
      rewrite (Z.bits_above_log2 x n); [done|lia|].
      apply Z.log2_lt_pow2; [lia|]. eapply Z.lt_le_trans; [apply Hx|].
      apply Z.pow_le_mono_r; lia. }
  rewrite Z.add_nocarry_lxor by done. by rewrite Z.lxor_lor.
Qed.

(** [x | uint64(b)<<s] when nothing is shifted out. *)
Lemma lor_u64_shiftl x b s :
  0 ≤ s → 0 ≤ x < 2 ^ s → 0 ≤ b → x + b * 2 ^ s < 2 ^ 64 →
  Z.lor x (u64 (Z.shiftl b s)) = x + b * 2 ^ s.
Proof.
  intros. rewrite u64_small; [by apply lor_shiftl_add|].
  rewrite Z.shiftl_mul_pow2 by lia. unfold is_u64. nia.
Qed.

Lemma lor_bound n a b : 0 ≤ n → 0 ≤ a < 2 ^ n → 0 ≤ b < 2 ^ n → 0 ≤ Z.lor a b < 2 ^ n.
Proof.
  intros Hn Ha Hb. split; [apply Z.lor_nonneg; lia|].
  destruct (decide (Z.lor a b = 0)) as [->|]; [lia|].
  assert (0 ≤ Z.lor a b) by (apply Z.lor_nonneg; lia).
  destruct (decide (n = 0)) as [->|].
  { assert (a = 0) by lia. assert (b = 0) by lia. by subst. }
  apply Z.log2_lt_pow2; [lia|]. rewrite Z.log2_lor by lia.
  apply Z.max_lub_lt.
  - destruct (decide (a = 0)) as [->|]; [simpl; lia|]. apply Z.log2_lt_pow2; lia.
  - destruct (decide (b = 0)) as [->|]; [simpl; lia|]. apply Z.log2_lt_pow2; lia.
Qed.

Lemma lxor_bound n a b : 0 ≤ n → 0 ≤ a < 2 ^ n → 0 ≤ b < 2 ^ n → 0 ≤ Z.lxor a b < 2 ^ n.
Proof.
  intros Hn Ha Hb.
  assert (0 ≤ Z.lxor a b) by (apply Z.lxor_nonneg; lia).
  split; [done|]. destruct (decide (Z.lxor a b = 0)) as [->|]; [lia|].
  destruct (decide (n = 0)) as [->|].
  { assert (a = 0) by lia. assert (b = 0) by lia. by subst. }
  apply Z.log2_lt_pow2; [lia|]. eapply Z.le_lt_trans; [apply Z.log2_lxor; lia|].
  apply Z.max_lub_lt.
  - destruct (decide (a = 0)) as [->|]; [simpl; lia|]. apply Z.log2_lt_pow2; lia.
  - destruct (decide (b = 0)) as [->|]; [simpl; lia|]. apply Z.log2_lt_pow2; lia.
Qed.

(** Exclusive or of bytes, the operation of the CFB stream. *)
Definition bxor (a b : byte) : byte := z2b (Z.lxor (b2z a) (b2z b)).

Lemma bxor_involutive a b : bxor (bxor a b) b = a.
Proof.
  unfold bxor. pose proof (b2z_range a). pose proof (b2z_range b).
  pose proof (lxor_bound 8 (b2z a) (b2z b) ltac:(lia) ltac:(lia) ltac:(lia)).
  rewrite b2z_z2b, (Z.mod_small (Z.lxor _ _)) by lia.
  by rewrite Z.lxor_assoc, Z.lxor_nilpotent, Z.lxor_0_r, z2b_b2z.
Qed.

Lemma bxor_fixed a b : bxor a b = a ↔ b = Byte.x00.
Proof.
  unfold bxor. pose proof (b2z_range a). pose proof (b2z_range b).
  pose proof (lxor_bound 8 (b2z a) (b2z b) ltac:(lia) ltac:(lia) ltac:(lia)).
  split; [|intros ->; by rewrite Z.lxor_0_r, z2b_b2z]. intros E%(f_equal b2z).
  rewrite b2z_z2b, (Z.mod_small (Z.lxor _ _)) in E by lia.
  apply (f_equal (Z.lxor (b2z a))) in E. rewrite <-Z.lxor_assoc, Z.lxor_nilpotent, Z.lxor_0_l in E.
  by rewrite <-(z2b_b2z b), E.
Qed.

(** ** Little endian *)

(** The [n] bytes of [z], low byte first: byte [i] is [byte(v >> (8*i))]. *)
Fixpoint le_bytes (n : nat) (z : Z) : bytes :=
  match n with
  | O => []
  | S n => z2b z :: le_bytes n (Z.shiftr z 8)
  end.

Fixpoint le_val (bs : bytes) : Z :=
  match bs with
  | [] => 0
  | b :: bs => b2z b + 256 * le_val bs
  end.

Lemma length_le_bytes n z : length (le_bytes n z) = n.
Proof. revert z. induction n; intros; simpl; [done|]. by rewrite IHn. Qed.

Lemma le_val_bytes n z : le_val (le_bytes n z) = z mod 2 ^ (8 * Z.of_nat n).
Proof.
  revert z. induction n as [|n IH]; intros z; cbn [le_bytes le_val].
  { by rewrite Z.mul_0_r, Z.mod_1_r. }
  rewrite IH, b2z_z2b, Z.shiftr_div_pow2 by lia.
  replace (8 * Z.of_nat (S n)) with (8 + 8 * Z.of_nat n) by lia.
  rewrite Z.pow_add_r by lia. by rewrite Z.rem_mul_r by lia.
Qed.

Lemma le_val_range bs : 0 ≤ le_val bs < 2 ^ (8 * len bs).
Proof.
  induction bs as [|b bs IH]; cbn [le_val length]; [simpl; lia|].
  pose proof (b2z_range b).
  replace (8 * Z.of_nat (S (length bs))) with (8 + 8 * len bs) by lia.
  rewrite Z.pow_add_r by lia. lia.
Qed.

Lemma le_bytes_val bs n : n = length bs → le_bytes n (le_val bs) = bs.
Proof.
  intros ->. induction bs as [|b bs IH]; cbn [le_val le_bytes length]; [done|].
  pose proof (b2z_range b).
  f_equal.
  - apply b2z_inj. rewrite b2z_z2b, (Z.mul_comm 256), Z.mod_add by lia.
    apply Z.mod_small. lia.
  - rewrite Z.shiftr_div_pow2 by lia. change (2 ^ 8) with 256.
    rewrite (Z.mul_comm 256), Z.div_add by lia.
    by rewrite (Z.div_small (b2z b)) by lia.
Qed.

Lemma le_val_bytes4 z : is_u32 z → le_val (le_bytes 4 z) = z.
Proof. intros. rewrite le_val_bytes. by apply Z.mod_small. Qed.
Lemma le_val_bytes8 z : is_u64 z → le_val (le_bytes 8 z) = z.
Proof. intros. rewrite le_val_bytes. by apply Z.mod_small. Qed.
Lemma le_val_u32 bs : length bs = 4%nat → is_u32 (le_val bs).
Proof. intros H. pose proof (le_val_range bs) as Hr. rewrite H in Hr. exact Hr. Qed.
Lemma le_val_u64 bs : length bs = 8%nat → is_u64 (le_val bs).
Proof. intros H. pose proof (le_val_range bs) as Hr. rewrite H in Hr. exact Hr. Qed.
