(* ===== verification/Wire.v ===== *)
(** * The wire format: codedInput (wire.go), codedOutput and value blobs (encode.go)

    [codedInput] is the cursor the decoders advance: a buffer and a position.
    [readBytes] returns a view of the buffer, as an offset and a length.
    [codedOutput] is the buffer the encoders append to. *)

From S2P Require Import Prelude GoInt.

(** ** codedInput *)

Record codedInput := mkInput { ibuf : bytes; ipos : nat }.

Definition newCodedInput (b : bytes) : codedInput := mkInput b 0.

Definition atEnd (c : codedInput) : bool := len (ibuf c) <=? Z.of_nat (ipos c).

Definition advance (n : nat) (c : codedInput) : codedInput :=
  mkInput (ibuf c) (ipos c + n).

(** The body of the loop [for i := 0; i < 10; i++]: [i] counts the rounds left. *)
Fixpoint readVarint64_loop (i : nat) (x s : Z) : M codedInput Z :=
  match i with
  | O => fail ErrVarintOverflow
  | S i =>
      c ← get;
      if len (ibuf c) <=? Z.of_nat (ipos c) then fail ErrUnexpectedEOF
      else
        match ibuf c !! ipos c with
        | None => lift Panic
        | Some b =>
            _ ← modify (advance 1);
            if b2z b <? 0x80 then mret (Z.lor x (u64 (Z.shiftl (b2z b) s)))
            else readVarint64_loop i (Z.lor x (u64 (Z.shiftl (Z.land (b2z b) 0x7f) s))) (s + 7)
        end
  end.

Definition readVarint64 : M codedInput Z := readVarint64_loop 10 0 0.

(** The view [c.buf[start:c.pos]] is returned as [(start, n)].  The cursor
    never passes the end of the buffer ([readVarint64_spec]), so the conversion
    [uint64(len(c.buf)-c.pos)] is exact. *)
Definition readBytes : M codedInput (nat * nat) :=
  n ← readVarint64;
  c ← get;
  if len (ibuf c) - Z.of_nat (ipos c) <? n then fail ErrUnexpectedEOF
  else
    _ ← modify (advance (Z.to_nat n));
    mret (ipos c, Z.to_nat n).

(** The bytes a view returned by [readBytes] shows. *)
Definition readData : M codedInput bytes :=
  v ← readBytes; c ← get; mret (sub (ibuf c) v.1 v.2).

Definition readFixed (w : nat) : M codedInput Z :=
  c ← get;
  if len (ibuf c) <? Z.of_nat (ipos c) + Z.of_nat w then fail ErrUnexpectedEOF
  else
    _ ← modify (advance w);
    mret (le_val (sub (ibuf c) (ipos c) w)).

Definition readFixed32 : M codedInput Z := readFixed 4.
Definition readFixed64 : M codedInput Z := readFixed 8.

Definition readInt32 : M codedInput Z := v ← readVarint64; mret (i32 v).
Definition readUInt32 : M codedInput Z := v ← readVarint64; mret (u32 v).
Definition readBool : M codedInput bool := v ← readVarint64; mret (negb (v =? 0)).

(** [newCodedInput(v).read...()]: decoding a whole value. *)
Definition decode {A} (r : M codedInput A) (v : bytes) : outcome A := (r (newCodedInput v)).1.

(** ** codedOutput *)

Record codedOutput := mkOutput { obuf : bytes }.

Definition emptyOutput : codedOutput := mkOutput [].

Definition writeRawByte (o : codedOutput) (b : byte) : codedOutput := mkOutput (obuf o ++ [b]).
Definition writeRawData (o : codedOutput) (b : bytes) : codedOutput := mkOutput (obuf o ++ b).

(** [for v >= 0x80 { append(byte(v)|0x80); v >>= 7 }; append(byte(v))].  The
    fuel bounds the rounds: 9 are enough for 64 bits (see [varint_fuel]). *)
Fixpoint varint_loop (fuel : nat) (v : Z) (buf : bytes) : bytes :=
  if 0x80 <=? v then
    match fuel with
    | O => buf
    | S fuel => varint_loop fuel (Z.shiftr v 7) (buf ++ [z2b (Z.lor (u8 v) 0x80)])
    end
  else buf ++ [z2b v].

Definition writeRawVarint32 (o : codedOutput) (v : Z) : codedOutput :=
  mkOutput (varint_loop 9 v (obuf o)).
Definition writeRawVarint64 (o : codedOutput) (v : Z) : codedOutput :=
  mkOutput (varint_loop 9 v (obuf o)).
Definition writeRawLittleEndian32 (o : codedOutput) (v : Z) : codedOutput :=
  mkOutput (obuf o ++ le_bytes 4 v).
Definition writeRawLittleEndian64 (o : codedOutput) (v : Z) : codedOutput :=
  mkOutput (obuf o ++ le_bytes 8 v).

Definition writeData (o : codedOutput) (b : bytes) : codedOutput :=
  writeRawData (writeRawVarint32 o (u32 (len b))) b.

Definition writeBool (o : codedOutput) (v : bool) : codedOutput :=
  if v then writeRawByte o (z2b 1) else writeRawByte o (z2b 0).

Definition writeInt32 (o : codedOutput) (v : Z) : codedOutput :=
  if 0 <=? v then writeRawVarint32 o (u32 v) else writeRawVarint64 o (u64 v).
Definition writeUInt32 (o : codedOutput) (v : Z) : codedOutput := writeRawVarint32 o v.
Definition writeInt64 (o : codedOutput) (v : Z) : codedOutput := writeRawVarint64 o (u64 v).
Definition writeUInt64 (o : codedOutput) (v : Z) : codedOutput := writeRawVarint64 o v.

(** A float is its IEEE 754 bit pattern, what [math.Float32bits] returns. *)
Definition writeFloat32 (o : codedOutput) (bits : Z) : codedOutput := writeRawLittleEndian32 o bits.
Definition writeFloat64 (o : codedOutput) (bits : Z) : codedOutput := writeRawLittleEndian64 o bits.

(** ** Value blobs *)

Definition boolBlob (v : bool) : bytes := obuf (writeBool emptyOutput v).
Definition int32Blob (v : Z) : bytes := obuf (writeInt32 emptyOutput v).
Definition int64Blob (v : Z) : bytes := obuf (writeInt64 emptyOutput v).
Definition uint32Blob (v : Z) : bytes := obuf (writeUInt32 emptyOutput v).
Definition uint64Blob (v : Z) : bytes := obuf (writeUInt64 emptyOutput v).
Definition float32Blob (v : Z) : bytes := obuf (writeFloat32 emptyOutput v).
Definition float64Blob (v : Z) : bytes := obuf (writeFloat64 emptyOutput v).
Definition bytesBlob (b : bytes) : bytes := obuf (writeData emptyOutput b).
Definition stringBlob (s : gostring) : bytes := bytesBlob s.

Definition itemSizeHolder : Z := 0x200000.
Definition itemSizeHolderBytes : bytes := obuf (writeUInt32 emptyOutput itemSizeHolder).

Definition stringSliceBlob (v : list gostring) : bytes :=
  bytesBlob (obuf (foldl writeData emptyOutput v)).

(** [for !ci.atEnd() { s, err := ci.readBytes(); if err != nil { break }; ... }].
    Every round reads at least one byte, so the length of the buffer bounds
    the rounds. *)
Fixpoint decodeStringSlice_loop (fuel : nat) (ci : codedInput) (out : list gostring) : list gostring :=
  match fuel with
  | O => out
  | S fuel =>
      if atEnd ci then out
      else
        match readData ci with
        | (Ok s, ci') => decodeStringSlice_loop fuel ci' (out ++ [s])
        | _ => out
        end
  end.

Definition decodeStringSlice (items : bytes) : list gostring :=
  decodeStringSlice_loop (S (length items)) (newCodedInput items) [].

(** ** The varint loops *)

(** The bytes the varint loop appends to an empty buffer. *)
Definition varint (v : Z) : bytes := varint_loop 9 v [].

Lemma varint_loop_S fuel v buf :
  varint_loop (S fuel) v buf =
  if 0x80 <=? v then varint_loop fuel (Z.shiftr v 7) (buf ++ [z2b (Z.lor (u8 v) 0x80)])
  else buf ++ [z2b v].
Proof. done. Qed.

Lemma varint_loop_app fuel v buf : varint_loop fuel v buf = buf ++ varint_loop fuel v [].
Proof.
  revert v buf. induction fuel as [|fuel IH]; intros v buf; simpl;
    (destruct (0x80 <=? v); [|done]).
  - by rewrite app_nil_r.
  - rewrite IH, (IH _ [_]). by rewrite <-app_assoc.
Qed.

Lemma shiftr7_bound n v : 0 ≤ v < 2 ^ (7 * (n + 1)) → 0 ≤ n → 0 ≤ Z.shiftr v 7 < 2 ^ (7 * n).
Proof.
  intros Hv Hn. rewrite Z.shiftr_div_pow2 by lia.
  replace (7 * (n + 1)) with (7 * n + 7) in Hv by lia.
  rewrite Z.pow_add_r in Hv by lia. split; [apply Z.div_pos; lia|].
  apply Z.div_lt_upper_bound; lia.
Qed.

(** More fuel than the width needs changes nothing. *)
Lemma varint_loop_fuel n m v buf :
  0 ≤ v < 2 ^ (7 * (Z.of_nat n + 1)) → (n ≤ m)%nat →
  varint_loop m v buf = varint_loop n v buf.
Proof.
  revert m v buf. induction n as [|n IH]; intros m v buf Hv Hm.
  { destruct m; simpl; bfalse; done. }
  destruct m as [|m]; [lia|]. simpl. destruct (0x80 <=? v); [|done].
  apply IH; [|lia].
  replace (Z.of_nat n + 1) with (Z.of_nat (S n)) by lia.
  apply shiftr7_bound; [|lia]. exact Hv.
Qed.

(** Or-ing the continuation bit into a byte, and taking it off again. *)
Lemma cont_byte v : 0 ≤ v → b2z (z2b (Z.lor (u8 v) 0x80)) = 128 + v mod 128.
Proof.
  intros Hv. rewrite b2z_z2b. unfold u8. change 0x80 with (2 ^ 7).
  replace (v mod 2 ^ 8) with (v mod 2 ^ 7 + (v / 2 ^ 7) mod 2 * 2 ^ 7)
    by (change (2 ^ 8) with (2 ^ 7 * 2); rewrite Z.rem_mul_r by lia; lia).
  pose proof (Z.mod_pos_bound v (2 ^ 7) ltac:(lia)).
  rewrite <-lor_shiftl_add by lia. rewrite <-Z.lor_assoc.
  replace (Z.lor (Z.shiftl ((v / 2 ^ 7) mod 2) 7) (2 ^ 7)) with (Z.shiftl 1 7).
  - rewrite lor_shiftl_add by lia. rewrite Z.mod_small by lia. lia.
  - pose proof (Z.mod_pos_bound (v / 2 ^ 7) 2 ltac:(lia)).
    destruct (decide ((v / 2 ^ 7) mod 2 = 0)) as [->|]; [done|].
    by replace ((v / 2 ^ 7) mod 2) with 1 by lia.
Qed.

(** [r], started where [enc] begins inside a buffer, returns [a] and stops
    where [enc] ends, whatever surrounds it. *)
Definition reads {A} (r : M codedInput A) (enc : bytes) (a : A) : Prop :=
  ∀ pre post, r (mkInput (pre ++ enc ++ post) (length pre))
            = (Ok a, mkInput (pre ++ enc ++ post) (length pre + length enc)).

Lemma reads_bind {A B} (r : M codedInput A) (k : A → M codedInput B) e1 e2 a b :
  reads r e1 a → reads (k a) e2 b → reads (r ≫= k) (e1 ++ e2) b.
Proof.
  intros H1 H2 pre post. specialize (H1 pre (e2 ++ post)). specialize (H2 (pre ++ e1) post).
  rewrite <-!app_assoc in *. erewrite bind_ok by exact H1.
  rewrite !length_app, <-Nat.add_assoc in *. exact H2.
Qed.

Lemma reads_map {A B} (r : M codedInput A) (f : A → B) e a :
  reads r e a → reads (v ← r; mret (f v)) e (f a).
Proof. intros H pre post. by rewrite (bind_ok _ _ _ _ _ (H pre post)). Qed.

Lemma reads_decode {A} (r : M codedInput A) enc a : reads r enc a → decode r enc = Ok a.
Proof.
  intros H. unfold decode, newCodedInput. specialize (H [] []).
  rewrite app_nil_r in H. simpl in H. by rewrite H.
Qed.

(** One round of the reading loop on the byte at the cursor. *)
Lemma readVarint64_step i x s pre b post :
  readVarint64_loop (S i) x s (mkInput (pre ++ b :: post) (length pre)) =
  (if b2z b <? 0x80 then mret (Z.lor x (u64 (Z.shiftl (b2z b) s)))
   else readVarint64_loop i (Z.lor x (u64 (Z.shiftl (Z.land (b2z b) 0x7f) s))) (s + 7))
    (mkInput (pre ++ b :: post) (length pre + 1)).
Proof.
  cbn [readVarint64_loop]. unfold mbind, M_bind, get. cbn [ibuf ipos].
  rewrite length_app. cbn [length]. bfalse.
  rewrite list_lookup_middle by done. done.
Qed.

Lemma varint_reads_loop f i v x s :
  0 ≤ v < 2 ^ (7 * (Z.of_nat f + 1)) → (f < i)%nat →
  0 ≤ s → 0 ≤ x < 2 ^ s → x + v * 2 ^ s < 2 ^ 64 →
  reads (readVarint64_loop i x s) (varint_loop f v []) (x + v * 2 ^ s).
Proof.
  revert i v x s. induction f as [|f IH]; intros i v x s Hv Hi Hs Hx Hb pre post;
    (destruct i as [|i]; [lia|]).
  all: assert (0 < 2 ^ s) by lia.
  all: destruct (decide (v < 128)) as [Hlt|Hge].
  1,3: cbn [varint_loop]; bfalse; cbn [app]; rewrite readVarint64_step, b2z_z2b;
       rewrite Z.mod_small by lia; btrue;
       rewrite lor_u64_shiftl by lia; done.
  { exfalso. change (2 ^ (7 * (Z.of_nat 0 + 1))) with 128 in Hv. lia. }
  cbn [varint_loop]. btrue. rewrite app_nil_l, varint_loop_app. cbn [app].
  rewrite readVarint64_step, cont_byte by lia.
  pose proof (Z.mod_pos_bound v 128 ltac:(lia)). bfalse.
  rewrite (Z.land_ones _ 7) by lia. change (2 ^ 7) with 128.
  replace ((128 + v mod 128) mod 128) with (v mod 128)
    by (rewrite Z.add_mod, Z.mod_same, Z.add_0_l, !Z.mod_mod by lia; done).
  pose proof (Z.div_mod v 128 ltac:(lia)).
  rewrite lor_u64_shiftl by nia.
  assert (2 ^ (s + 7) = 2 ^ s * 128) as Hp by (rewrite Z.pow_add_r by lia; done).
  rewrite Z.shiftr_div_pow2 by lia. change (2 ^ 7) with 128.
  specialize (IH i (v / 128) (x + v mod 128 * 2 ^ s) (s + 7)).
  replace (x + v * 2 ^ s) with (x + v mod 128 * 2 ^ s + v / 128 * 2 ^ (s + 7)) by nia.
  rewrite cons_middle, app_assoc.
  replace (length pre + 1)%nat with (length (pre ++ [z2b (Z.lor (u8 v) 128)]))
    by (rewrite length_app; done).
  rewrite IH; [|..|lia| |nia].
  - rewrite !length_app. cbn [length]. do 2 f_equal. lia.
  - replace (Z.of_nat f + 1) with (Z.of_nat (S f)) by lia.
    pose proof (shiftr7_bound (Z.of_nat (S f)) v Hv ltac:(lia)) as Hs7.
    rewrite Z.shiftr_div_pow2 in Hs7 by lia. exact Hs7.
  - lia.
  - nia.
Qed.

Lemma varint_reads v : is_u64 v → reads readVarint64 (varint v) v.
Proof.
  intros Hv. unfold is_u64 in Hv.
  pose proof (varint_reads_loop 9 10 v 0 0) as H. unfold readVarint64, varint.
  replace (0 + v * 2 ^ 0) with v in H by lia.
  apply H; [|lia..]. change (7 * (Z.of_nat 9 + 1)) with 70. lia.
Qed.

(** A varint has at least one byte and at most ten, five for 32 bits. *)
Lemma varint_length_pos v : (0 < length (varint v))%nat.
Proof.
  unfold varint. rewrite varint_loop_S. destruct (0x80 <=? v); [|cbn; lia].
  rewrite varint_loop_app, length_app. cbn. lia.
Qed.

Lemma varint_loop_length n v buf :
  (length (varint_loop n v buf) ≤ length buf + n + 1)%nat.
Proof.
  revert v buf. induction n as [|n IH]; intros v buf; simpl;
    (destruct (0x80 <=? v); [|rewrite length_app; simpl; lia]).
  - lia.
  - rewrite IH, length_app. simpl. lia.
Qed.

Lemma varint_length_le10 v : (length (varint v) ≤ 10)%nat.
Proof. apply (varint_loop_length 9 v []). Qed.

Lemma varint_length_le5 v : is_u32 v → (length (varint v) ≤ 5)%nat.
Proof.
  intros Hv. unfold varint. rewrite (varint_loop_fuel 4) by (unfold is_u32 in Hv; simpl; lia).
  apply (varint_loop_length 4 v []).
Qed.

(** ** What the encoders append *)

(** A length-delimited field. *)
Definition field (b : bytes) : bytes := varint (u32 (len b)) ++ b.

Lemma obuf_writeRawVarint32 o v : obuf (writeRawVarint32 o v) = obuf o ++ varint v.
Proof. unfold writeRawVarint32, varint. cbn [obuf]. apply varint_loop_app. Qed.
Lemma obuf_writeRawVarint64 o v : obuf (writeRawVarint64 o v) = obuf o ++ varint v.
Proof. unfold writeRawVarint64, varint. cbn [obuf]. apply varint_loop_app. Qed.
Lemma obuf_writeData o b : obuf (writeData o b) = obuf o ++ field b.
Proof.
  unfold writeData, field, writeRawData. cbn [obuf].
  by rewrite obuf_writeRawVarint32, app_assoc.
Qed.
Lemma fields_cons b (l : list bytes) :
  mjoin (field <$> (b :: l)) = field b ++ mjoin (field <$> l).
Proof. done. Qed.
Lemma obuf_foldl_writeData o l : obuf (foldl writeData o l) = obuf o ++ mjoin (field <$> l).
Proof.
  revert o. induction l as [|b l IH]; intros o; simpl; [by rewrite app_nil_r|].
  rewrite IH, obuf_writeData. by rewrite app_assoc.
Qed.
Lemma bytesBlob_field b : bytesBlob b = field b.
Proof. apply obuf_writeData. Qed.

Lemma field_length b : (0 < length (field b))%nat.
Proof. unfold field. rewrite length_app. pose proof (varint_length_pos (u32 (len b))). lia. Qed.

(** Reading a field returns the view of its payload, just after the length. *)
Lemma readBytes_field b pre post :
  is_u32 (len b) →
  readBytes (mkInput (pre ++ field b ++ post) (length pre)) =
  (Ok ((length pre + length (varint (len b)))%nat, length b),
   mkInput (pre ++ field b ++ post) (length pre + length (field b))).
Proof.
  intros Hb. unfold readBytes, field. rewrite u32_small by done. rewrite <-app_assoc.
  erewrite bind_ok by (apply varint_reads, is_u32_u64, Hb).
  unfold mbind, M_bind, get. cbn [ibuf ipos].
  rewrite !length_app. bfalse. unfold modify, advance, mret, M_ret. cbn [ibuf ipos].
  rewrite Nat2Z.id. by rewrite Nat.add_assoc.
Qed.

Lemma readData_field b : is_u32 (len b) → reads readData (field b) b.
Proof.
  intros Hb pre post. unfold readData.
  erewrite bind_ok by (by apply readBytes_field).
  unfold mbind, M_bind, get, mret, M_ret. cbn [ibuf fst snd]. do 2 f_equal.
  unfold field. rewrite u32_small by done. rewrite <-app_assoc.
  rewrite (app_assoc pre). apply sub_middle'; [by rewrite length_app|done].
Qed.

(** ** The readers are total *)

(** From any cursor, reading a varint returns a value or an error, leaves the
    buffer alone, and a value costs at least one byte of the buffer. *)
Lemma readVarint64_loop_spec i x s c :
  is_u64 x → 0 ≤ s →
  match readVarint64_loop i x s c with
  | (Ok v, c') => is_u64 v ∧ ibuf c' = ibuf c ∧ (ipos c < ipos c' ≤ length (ibuf c))%nat
  | (Err _, c') => ibuf c' = ibuf c ∧ (ipos c ≤ ipos c')%nat
  | _ => False
  end.
Proof.
  revert x s c. induction i as [|i IH]; intros x s c Hx Hs; [done|].
  cbn [readVarint64_loop]. unfold mbind, M_bind, get.
  destruct (len (ibuf c) <=? Z.of_nat (ipos c)) eqn:E; bsplit; [done|].
  destruct (lookup_lt_is_Some_2 (ibuf c) (ipos c) ltac:(lia)) as [b Hb]. rewrite Hb.
  unfold modify. pose proof (b2z_range b).
  destruct (b2z b <? 0x80) eqn:E'.
  - cbn [mret M_ret ibuf ipos advance]. split; [|split; [done|lia]].
    apply (lor_bound 64); [lia|done|apply u64_range].
  - specialize (IH (Z.lor x (u64 (Z.shiftl (Z.land (b2z b) 127) s))) (s + 7) (advance 1 c)).
    destruct (readVarint64_loop i _ _ (advance 1 c)) as [[v|e| |] c'].
    all: cbn [advance ibuf ipos] in IH.
    all: assert (is_u64 (Z.lor x (u64 (Z.shiftl (Z.land (b2z b) 127) s))))
      by (apply (lor_bound 64); [lia|done|apply u64_range]).
    all: specialize (IH ltac:(done) ltac:(lia)).
    + destruct IH as (?&?&?). split_and!; [done..|lia|lia].
    + destruct IH. split; [done|lia].
    + done.
    + done.
Qed.

Lemma readVarint64_spec c :
  match readVarint64 c with
  | (Ok v, c') => is_u64 v ∧ ibuf c' = ibuf c ∧ (ipos c < ipos c' ≤ length (ibuf c))%nat
  | (Err _, c') => ibuf c' = ibuf c ∧ (ipos c ≤ ipos c')%nat
  | _ => False
  end.
Proof. apply readVarint64_loop_spec; unfold is_u64; lia. Qed.

(** The view [readBytes] returns lies inside the buffer, ends where the cursor
    stops, and the cursor has moved. *)
Lemma readBytes_spec c :
  match readBytes c with
  | (Ok (st, n), c') => ibuf c' = ibuf c ∧ (ipos c < st)%nat ∧ ipos c' = (st + n)%nat
                        ∧ (st + n ≤ length (ibuf c))%nat
  | (Err _, c') => ibuf c' = ibuf c
  | _ => False
  end.
Proof.
  unfold readBytes, mbind, M_bind. pose proof (readVarint64_spec c) as H.
  destruct (readVarint64 c) as [[n|e| |] c']; [|by destruct H|done..].
  destruct H as (Hn&Hb&Hp). unfold get.
  destruct (len (ibuf c') - Z.of_nat (ipos c') <? n) eqn:E; [done|]. bsplit.
  cbn [modify mret M_ret advance ibuf ipos]. unfold is_u64 in Hn.
  rewrite Hb in *. split_and!; [done|lia|lia|lia].
Qed.

(** ** Typed values *)

(** An encoder of a Go type into a value blob, the decoder a getter runs on the
    blob, and the values of the type. *)
Record codec (A : Type) := Codec {
  c_enc : A → bytes;
  c_dec : M codedInput A;
  c_ok : A → Prop;
}.
Arguments Codec {A}.
Arguments c_enc {A}.
Arguments c_dec {A}.
Arguments c_ok {A}.

(** What the store relies on: a blob decodes to the value it was made from,
    and a blob is never empty (an empty value marks a deletion). *)
Class CodecLaws {A} (c : codec A) : Prop := {
  codec_reads : ∀ a, c_ok c a → reads (c_dec c) (c_enc c a) a;
  codec_nonempty : ∀ a, c_enc c a ≠ [];
}.

Definition bool_codec : codec bool := Codec boolBlob readBool (fun _ => True).
Definition int32_codec : codec Z := Codec int32Blob readInt32 is_i32.
Definition int64_codec : codec Z := Codec int64Blob (v ← readVarint64; mret (i64 v)) is_i64.
Definition uint32_codec : codec Z := Codec uint32Blob readUInt32 is_u32.
Definition uint64_codec : codec Z := Codec uint64Blob readVarint64 is_u64.
Definition float32_codec : codec Z := Codec float32Blob readFixed32 is_u32.
Definition float64_codec : codec Z := Codec float64Blob readFixed64 is_u64.
Definition bytes_codec : codec bytes := Codec bytesBlob readData (fun b => is_u32 (len b)).
Definition stringSlice_codec : codec (list gostring) :=
  Codec stringSliceBlob (items ← readData; mret (decodeStringSlice items))
    (fun v => is_u32 (len (mjoin (field <$> v)))).

Lemma varint_nonempty v : varint v ≠ [].
Proof. intros H. pose proof (varint_length_pos v) as Hp. rewrite H in Hp. simpl in Hp. lia. Qed.
Lemma field_nonempty b : field b ≠ [].
Proof. intros H. pose proof (field_length b) as Hp. rewrite H in Hp. simpl in Hp. lia. Qed.

Lemma uint64Blob_varint v : uint64Blob v = varint v.
Proof. apply obuf_writeRawVarint64. Qed.
Lemma uint32Blob_varint v : uint32Blob v = varint v.
Proof. apply obuf_writeRawVarint32. Qed.
Lemma int64Blob_varint v : int64Blob v = varint (u64 v).
Proof. apply obuf_writeRawVarint64. Qed.

(** A non-negative int32 and a negative one, sign-extended to 64 bits, are the
    same varint of the 64-bit pattern. *)
Lemma int32Blob_varint v : is_i32 v → int32Blob v = varint (u64 v).
Proof.
  unfold is_i32, int32Blob, writeInt32. intros Hv. destruct (0 <=? v) eqn:E; bsplit.
  - rewrite obuf_writeRawVarint32, u32_small, u64_small; [done|split; lia..].
  - apply obuf_writeRawVarint64.
Qed.

#[global] Instance bool_laws : CodecLaws bool_codec.
Proof.
  split; [|by intros []]. intros b _.
  replace (c_enc bool_codec b) with (varint (if b then 1 else 0)) by by destruct b.
  replace b with (negb ((if b then 1 else 0) =? 0)) at 2 by by destruct b.
  apply (reads_map readVarint64 (fun v => negb (v =? 0))), varint_reads.
  unfold is_u64. destruct b; lia.
Qed.

#[global] Instance uint64_laws : CodecLaws uint64_codec.
Proof.
  split; intros v; simpl; rewrite uint64Blob_varint; [apply varint_reads|apply varint_nonempty].
Qed.

#[global] Instance uint32_laws : CodecLaws uint32_codec.
Proof.
  split; intros v; simpl; rewrite uint32Blob_varint; [|apply varint_nonempty].
  intros Hv. rewrite <-(u32_small v) at 2 by done.
  apply (reads_map readVarint64 u32), varint_reads. by apply is_u32_u64.
Qed.

#[global] Instance int64_laws : CodecLaws int64_codec.
Proof.
  split; intros v; simpl; rewrite int64Blob_varint; [|apply varint_nonempty].
  intros Hv. replace v with (i64 (u64 v)) at 2 by (rewrite i64_u64; by apply i64_small).
  apply (reads_map readVarint64 i64), varint_reads, u64_range.
Qed.

#[global] Instance int32_laws : CodecLaws int32_codec.
Proof.
  split; intros v; simpl.
  - intros Hv. rewrite int32Blob_varint by done.
    replace v with (i32 (u64 v)) at 2 by (rewrite i32_u64; by apply i32_small).
    apply (reads_map readVarint64 i32), varint_reads, u64_range.
  - unfold int32Blob, writeInt32. destruct (0 <=? v);
      [rewrite obuf_writeRawVarint32|rewrite obuf_writeRawVarint64]; apply varint_nonempty.
Qed.

Lemma readFixed_reads w z :
  0 ≤ z < 2 ^ (8 * Z.of_nat w) → reads (readFixed w) (le_bytes w z) z.
Proof.
  intros Hz pre post. unfold readFixed, mbind, M_bind, get. cbn [ibuf ipos].
  rewrite !length_app, length_le_bytes. bfalse.
  cbn [modify ibuf ipos].
  rewrite sub_middle' by (rewrite ?length_le_bytes; done).
  by rewrite le_val_bytes, Z.mod_small.
Qed.

#[global] Instance float32_laws : CodecLaws float32_codec.
Proof. split; [intros v; apply (readFixed_reads 4)|done]. Qed.
#[global] Instance float64_laws : CodecLaws float64_codec.
Proof. split; [intros v; apply (readFixed_reads 8)|done]. Qed.

#[global] Instance bytes_laws : CodecLaws bytes_codec.
Proof.
  split; intros b; simpl; rewrite bytesBlob_field; [apply readData_field|apply field_nonempty].
Qed.

(** Decoding concatenated fields gives the list back. *)
Lemma decodeStringSlice_loop_fields l fuel pre out :
  Forall (fun s => is_u32 (len s)) l → (length l < fuel)%nat →
  decodeStringSlice_loop fuel (mkInput (pre ++ mjoin (field <$> l)) (length pre)) out = out ++ l.
Proof.
  revert fuel pre out. induction l as [|s l IH]; intros fuel pre out Hl Hf;
    (destruct fuel as [|fuel]; [simpl in Hf; lia|]); cbn [decodeStringSlice_loop].
  - unfold atEnd. simpl. rewrite !app_nil_r. btrue. done.
  - apply Forall_cons in Hl as [Hs Hl].
    pose proof (field_length s). rewrite fields_cons. unfold atEnd. cbn [ibuf ipos].
    rewrite !length_app. bfalse.
    rewrite (readData_field s Hs). rewrite app_assoc, <-length_app.
    rewrite IH; [by rewrite <-app_assoc|done|simpl in Hf; lia].
Qed.

Lemma mjoin_field_length l : (length l ≤ length (mjoin (field <$> l)))%nat.
Proof.
  induction l as [|s l IH]; [done|]. rewrite fields_cons, length_app. cbn [length]. pose proof (field_length s). lia.
Qed.

Lemma decodeStringSlice_fields l :
  Forall (fun s => is_u32 (len s)) l → decodeStringSlice (mjoin (field <$> l)) = l.
Proof.
  intros Hl. apply (decodeStringSlice_loop_fields l _ [] []); [done|].
  pose proof (mjoin_field_length l). lia.
Qed.

Lemma mjoin_field_items l :
  is_u32 (len (mjoin (field <$> l))) → Forall (fun s => is_u32 (len s)) l.
Proof.
  induction l as [|s l IH]; intros H; [done|].
  rewrite fields_cons, length_app in H.
  unfold field in H at 1. rewrite length_app in H. unfold is_u32 in *.
  constructor; [lia|]. apply IH. lia.
Qed.

#[global] Instance stringSlice_laws : CodecLaws stringSlice_codec.
Proof.
  split; intros l; simpl; unfold stringSliceBlob; rewrite bytesBlob_field, obuf_foldl_writeData;
    cbn [obuf emptyOutput app]; [|apply field_nonempty].
  intros Hl. rewrite <-(decodeStringSlice_fields l) at 2 by by apply mjoin_field_items.
  by apply (reads_map readData decodeStringSlice), readData_field.
Qed.

#[global] Opaque varint.

(** What the typed methods need of an encoder and a decoder at a value: the value is
    read back wherever its blob lies in a buffer, the cursor stops at the end of the
    blob, and the blob is not empty. *)
Definition round_trips {A} (dec : M codedInput A) (enc : A → bytes) (a : A) : Prop :=
  enc a ≠ [] ∧ ∀ pre post,
    dec (mkInput (pre ++ enc a ++ post) (length pre))
    = (Ok a, mkInput (pre ++ enc a ++ post) (length pre + length (enc a))).

Lemma laws_round_trip {A} (c : codec A) `{!CodecLaws c} a : c_ok c a → round_trips (c_dec c) (c_enc c) a.
Proof. intros Ha. split; [apply codec_nonempty|intros; by apply codec_reads]. Qed.
