(* ===== verification/Crc32.v ===== *)
(** * CRC-32 (hash/crc32 with the IEEE polynomial)

    The store checks its data region with [crc32.ChecksumIEEE] and extends the
    digest of an append with [crc32.Update].  The table entry of a byte is
    computed instead of looked up. *)

From S2P Require Import Prelude GoInt.

Definition IEEE : Z := 0xedb88320.

(** One bit of [simpleMakeTable]. *)
Definition crc_bit (c : Z) : Z :=
  if Z.odd c then Z.lxor (Z.shiftr c 1) IEEE else Z.shiftr c 1.

(** [tab[i]]: eight bits of division. *)
Definition crc_table (i : Z) : Z := Nat.iter 8 crc_bit i.

(** [crc = tab[byte(crc)^v] ^ (crc >> 8)]. *)
Definition crc_step (crc : Z) (v : byte) : Z :=
  Z.lxor (crc_table (Z.lxor (u8 crc) (b2z v))) (Z.shiftr crc 8).

(** [^crc] on a uint32. *)
Definition not32 (z : Z) : Z := Z.lxor z 0xffffffff.

Definition crc32_Update (crc : Z) (p : bytes) : Z := not32 (foldl crc_step (not32 crc) p).
Definition crc32_ChecksumIEEE (p : bytes) : Z := crc32_Update 0 p.

Lemma not32_involutive z : not32 (not32 z) = z.
Proof. unfold not32. by rewrite Z.lxor_assoc, Z.lxor_nilpotent, Z.lxor_0_r. Qed.

Lemma crc32_Update_app crc a b : crc32_Update (crc32_Update crc a) b = crc32_Update crc (a ++ b).
Proof. unfold crc32_Update. by rewrite not32_involutive, foldl_app. Qed.

Lemma crc_bit_range c : is_u32 c → is_u32 (crc_bit c).
Proof.
  intros Hc. assert (is_u32 (Z.shiftr c 1)).
  { unfold is_u32 in *. rewrite Z.shiftr_div_pow2 by lia. change (2 ^ 1) with 2.
    pose proof (Z.div_mod c 2 ltac:(lia)). pose proof (Z.mod_pos_bound c 2 ltac:(lia)). lia. }
  unfold crc_bit. destruct (Z.odd c); [|done].
  apply (lxor_bound 32); [lia|done|unfold IEEE; lia].
Qed.

Lemma crc_table_range i : is_u32 i → is_u32 (crc_table i).
Proof. intros. unfold crc_table. simpl. do 8 apply crc_bit_range. done. Qed.

Lemma crc_step_range c v : is_u32 c → is_u32 (crc_step c v).
Proof.
  intros Hc. apply (lxor_bound 32); [lia| |].
  - apply crc_table_range. pose proof (b2z_range v).
    pose proof (lxor_bound 8 (u8 c) (b2z v) ltac:(lia)) as H8.
    unfold u8 in *. pose proof (Z.mod_pos_bound c (2 ^ 8) ltac:(lia)). unfold is_u32. lia.
  - unfold is_u32 in *. rewrite Z.shiftr_div_pow2 by lia. change (2 ^ 8) with 256.
    pose proof (Z.div_mod c 256 ltac:(lia)). pose proof (Z.mod_pos_bound c 256 ltac:(lia)). lia.
Qed.

Lemma crc32_Update_range crc p : is_u32 crc → is_u32 (crc32_Update crc p).
Proof.
  intros Hc. unfold crc32_Update.
  assert (∀ z, is_u32 z → is_u32 (not32 z)) as Hn.
  { intros z Hz. apply (lxor_bound 32); [lia|done|lia]. }
  apply Hn. apply Hn in Hc. revert Hc. generalize (not32 crc). clear Hn crc.
  induction p as [|v p IH]; intros c Hc; simpl; [done|]. by apply IH, crc_step_range.
Qed.

Lemma crc32_ChecksumIEEE_range p : is_u32 (crc32_ChecksumIEEE p).
Proof. apply crc32_Update_range. unfold is_u32. lia. Qed.
#[export] Hint Resolve crc32_ChecksumIEEE_range : mmkv.

(** ** Detecting a corrupted byte

    The top bytes of the table entries are all different, so a step of the
    division loses nothing: it is injective in the register and in the byte. *)
Lemma crc_table_top i j :
  0 ≤ i < 256 → 0 ≤ j < 256 → Z.shiftr (crc_table i) 24 = Z.shiftr (crc_table j) 24 → i = j.
Proof.
  intros Hi Hj He.
  assert (NoDup ((fun n => Z.shiftr (crc_table (Z.of_nat n)) 24) <$> seq 0 256)) as Hnd.
  { apply (bool_decide_unpack _). vm_compute. exact I. }
  assert (∀ x, 0 ≤ x < 256 →
    ((fun n => Z.shiftr (crc_table (Z.of_nat n)) 24) <$> seq 0 256) !! Z.to_nat x
    = Some (Z.shiftr (crc_table x) 24)) as Hl.
  { intros x Hx. rewrite list_lookup_fmap, lookup_seq_lt by lia. cbn. by rewrite Z2Nat.id by lia. }
  apply Z2Nat.inj; [lia..|]. eapply (NoDup_lookup _ _ _ (Z.shiftr (crc_table i) 24) Hnd).
  - by apply Hl.
  - rewrite He. by apply Hl.
Qed.

Lemma byte_xor_range c v : 0 ≤ Z.lxor (u8 c) (b2z v) < 256.
Proof.
  apply (lxor_bound 8); [lia|apply Z.mod_pos_bound; lia|]. pose proof (b2z_range v). lia.
Qed.

Lemma crc_step_inj c1 c2 v w :
  is_u32 c1 → is_u32 c2 → crc_step c1 v = crc_step c2 w →
  Z.lxor (u8 c1) (b2z v) = Z.lxor (u8 c2) (b2z w) ∧ Z.shiftr c1 8 = Z.shiftr c2 8.
Proof.
  intros H1 H2 He. unfold crc_step in He.
  assert (∀ c, is_u32 c → Z.shiftr (Z.shiftr c 8) 24 = 0) as Hz.
  { intros c Hc. rewrite Z.shiftr_shiftr by lia. rewrite Z.shiftr_div_pow2 by lia.
    unfold is_u32 in Hc. apply Z.div_small. done. }
  assert (Z.lxor (u8 c1) (b2z v) = Z.lxor (u8 c2) (b2z w)) as Hi.
  { apply crc_table_top; [apply byte_xor_range..|].
    apply (f_equal (fun z => Z.shiftr z 24)) in He. rewrite !Z.shiftr_lxor, !Hz, !Z.lxor_0_r in He by done.
    done. }
  split; [done|]. rewrite Hi in He. apply (f_equal (Z.lxor (crc_table (Z.lxor (u8 c2) (b2z w))))) in He.
  by rewrite <-!Z.lxor_assoc, !Z.lxor_nilpotent, !Z.lxor_0_l in He.
Qed.

Lemma lxor_cancel_r a b c : Z.lxor a c = Z.lxor b c → a = b.
Proof.
  intros H. apply (f_equal (fun z => Z.lxor z c)) in H.
  by rewrite !Z.lxor_assoc, !Z.lxor_nilpotent, !Z.lxor_0_r in H.
Qed.

Lemma crc_fold_range c p : is_u32 c → is_u32 (foldl crc_step c p).
Proof. revert c. induction p as [|v p IH]; intros c Hc; simpl; [done|]. by apply IH, crc_step_range. Qed.

Lemma crc_fold_inj p c1 c2 :
  is_u32 c1 → is_u32 c2 → foldl crc_step c1 p = foldl crc_step c2 p → c1 = c2.
Proof.
  revert c1 c2. induction p as [|v p IH]; intros c1 c2 H1 H2; simpl; [done|].
  intros H. apply IH in H; [|by apply crc_step_range..].
  apply crc_step_inj in H as [Hl Hh]; [|done..]. apply lxor_cancel_r in Hl. unfold u8 in Hl.
  rewrite !Z.shiftr_div_pow2 in Hh by lia.
  rewrite (Z.div_mod c1 (2 ^ 8)), (Z.div_mod c2 (2 ^ 8)) by lia. congruence.
Qed.

Lemma not32_inj x y : not32 x = not32 y → x = y.
Proof. intros H. by apply lxor_cancel_r in H. Qed.

(** Two inputs that differ in one byte have different digests. *)
Lemma crc32_one_byte a x y b :
  crc32_ChecksumIEEE (a ++ x :: b) = crc32_ChecksumIEEE (a ++ y :: b) → x = y.
Proof.
  unfold crc32_ChecksumIEEE, crc32_Update. rewrite !foldl_app. cbn [foldl].
  intros H%not32_inj. assert (is_u32 (foldl crc_step (not32 0) a)) as Hu.
  { apply crc_fold_range. unfold is_u32. vm_compute. split; congruence. }
  apply crc_fold_inj in H; [|by apply crc_step_range..].
  apply crc_step_inj in H as [Hl _]; [|done..]. rewrite !(Z.lxor_comm (u8 _)) in Hl.
  apply lxor_cancel_r in Hl. by apply b2z_inj.
Qed.

Lemma crc32_insert l i (x y : byte) :
  l !! i = Some y → x ≠ y → crc32_ChecksumIEEE (<[i := x]> l) ≠ crc32_ChecksumIEEE l.
Proof.
  intros Hy Hne He. apply Hne. rewrite <-(take_drop_middle l i y Hy) in He.
  pose proof (lookup_lt_Some _ _ _ Hy). 
  rewrite insert_app_r_alt in He by (rewrite length_take; lia).
  rewrite length_take, Nat.min_l, Nat.sub_diag in He by lia. cbn [insert list_insert] in He.
  by apply crc32_one_byte in He.
Qed.

(** The check value of the CRC catalogue: the digest of ["123456789"]. *)
Example crc32_check :
  crc32_ChecksumIEEE (z2b <$> [0x31; 0x32; 0x33; 0x34; 0x35; 0x36; 0x37; 0x38; 0x39]) = 0xcbf43926.
Proof. vm_compute. reflexivity. Qed.
