(* ===== verification/Meta.v ===== *)
(** * The meta file: metaInfo, parseMeta and marshal (meta.go) *)

From S2P Require Import Prelude GoInt.

Record metaInfo := mkMeta {
  mi_crcDigest : Z;
  mi_version : Z;
  mi_sequence : Z;
  mi_iv : bytes;
  mi_actualSize : Z;
  mi_lastActualSize : Z;
  mi_lastCRCDigest : Z;
  mi_flags : Z;
}.

Definition offCRC : nat := 0.
Definition offVersion : nat := 4.
Definition offSequence : nat := 8.
Definition offIV : nat := 12.
Definition offActualSize : nat := 28.
Definition offLastActualSize : nat := 32.
Definition offLastCRCDigest : nat := 36.
Definition offFlags : nat := 104.
Definition metaSize : nat := 112.

Definition versionActualSize : Z := 3.
Definition versionFlag : Z := 4.
Definition maxSupportedVersion : Z := versionFlag.

Definition flagEnableExpire : Z := Z.shiftl 1 0.

(** The zero value of the struct. *)
Definition zeroMeta : metaInfo := mkMeta 0 0 0 (zeros 16) 0 0 0 0.

Definition parseMeta (buf : bytes) : outcome metaInfo :=
  if len buf <? Z.of_nat metaSize then Err ErrMetaTooShort
  else Ok {|
    mi_crcDigest := le_val (sub buf offCRC 4);
    mi_version := le_val (sub buf offVersion 4);
    mi_sequence := le_val (sub buf offSequence 4);
    mi_iv := sub buf offIV 16;
    mi_actualSize := le_val (sub buf offActualSize 4);
    mi_lastActualSize := le_val (sub buf offLastActualSize 4);
    mi_lastCRCDigest := le_val (sub buf offLastCRCDigest 4);
    mi_flags := le_val (sub buf offFlags 8);
  |}.

Definition marshal (m : metaInfo) : bytes :=
  let buf := zeros metaSize in
  let buf := splice buf offCRC (le_bytes 4 (mi_crcDigest m)) in
  let buf := splice buf offVersion (le_bytes 4 (mi_version m)) in
  let buf := splice buf offSequence (le_bytes 4 (mi_sequence m)) in
  let buf := splice buf offIV (mi_iv m) in
  let buf := splice buf offActualSize (le_bytes 4 (mi_actualSize m)) in
  let buf := splice buf offLastActualSize (le_bytes 4 (mi_lastActualSize m)) in
  let buf := splice buf offLastCRCDigest (le_bytes 4 (mi_lastCRCDigest m)) in
  splice buf offFlags (le_bytes 8 (mi_flags m)).

Definition expireEnabled (m : metaInfo) : bool := negb (Z.land (mi_flags m) flagEnableExpire =? 0).

(** Every field is in the range of its Go type. *)
Record meta_wf (m : metaInfo) : Prop := {
  wf_crc : is_u32 (mi_crcDigest m);
  wf_version : is_u32 (mi_version m);
  wf_sequence : is_u32 (mi_sequence m);
  wf_iv : length (mi_iv m) = 16%nat;
  wf_actual : is_u32 (mi_actualSize m);
  wf_lastActual : is_u32 (mi_lastActualSize m);
  wf_lastCRC : is_u32 (mi_lastCRCDigest m);
  wf_flags : is_u64 (mi_flags m);
}.

(** The bytes of the struct in their order. *)
Definition meta_layout (m : metaInfo) : bytes :=
  le_bytes 4 (mi_crcDigest m) ++ le_bytes 4 (mi_version m) ++ le_bytes 4 (mi_sequence m) ++
  mi_iv m ++ le_bytes 4 (mi_actualSize m) ++ le_bytes 4 (mi_lastActualSize m) ++
  le_bytes 4 (mi_lastCRCDigest m) ++ zeros 64 ++ le_bytes 8 (mi_flags m).

Ltac explode l :=
  do 16 (destruct l as [|? l]; [discriminate|]); destruct l; [|discriminate].

Lemma marshal_layout m : length (mi_iv m) = 16%nat → marshal m = meta_layout m.
Proof.
  destruct m as [c v q iv a la lc fl]. simpl. intros Hiv. explode iv. reflexivity.
Qed.

Lemma length_meta_layout m : length (mi_iv m) = 16%nat → length (meta_layout m) = metaSize.
Proof.
  intros Hiv. unfold meta_layout. rewrite !length_app, Hiv, !length_le_bytes, length_zeros. done.
Qed.

Lemma length_marshal m : length (mi_iv m) = 16%nat → length (marshal m) = metaSize.
Proof. intros. rewrite marshal_layout by done. by apply length_meta_layout. Qed.

(** parseMeta of a buffer that starts with the layout of [m], e.g. the mapped
    page that holds it. *)
Lemma parseMeta_layout m rest : meta_wf m → parseMeta (meta_layout m ++ rest) = Ok m.
Proof.
  intros [? ? ? Hiv ? ? ? ?]. unfold parseMeta.
  rewrite length_app, length_meta_layout by done. bfalse.
  destruct m as [c v q iv a la lc fl]. simpl in *. explode iv.
  unfold meta_layout, sub, offCRC, offVersion, offSequence, offIV, offActualSize,
    offLastActualSize, offLastCRCDigest, offFlags. cbn -[le_val z2b Z.shiftr].
  do 2 f_equal; (apply le_val_bytes4 || apply le_val_bytes8 || done); done.
Qed.

Lemma parseMeta_marshal_app m rest : meta_wf m → parseMeta (marshal m ++ rest) = Ok m.
Proof. intros Hm. rewrite marshal_layout by apply Hm. by apply parseMeta_layout. Qed.

Lemma parseMeta_wf buf m : parseMeta buf = Ok m → meta_wf m.
Proof.
  unfold parseMeta. destruct (len buf <? _) eqn:E; [done|]. bsplit.
  unfold metaSize in E. intros [= <-]. split; simpl.
  all: first [apply le_val_u32|apply le_val_u64|idtac]; apply length_sub;
    unfold offCRC, offVersion, offSequence, offIV, offActualSize,
      offLastActualSize, offLastCRCDigest, offFlags; lia.
Qed.

(** An append rewrites only the digest and the size in place. *)
Definition set_crc_actual (c a : Z) (m : metaInfo) : metaInfo :=
  mkMeta c (mi_version m) (mi_sequence m) (mi_iv m) a (mi_lastActualSize m)
    (mi_lastCRCDigest m) (mi_flags m).

Lemma parseMeta_update buf m c a :
  parseMeta buf = Ok m → is_u32 c → is_u32 a →
  parseMeta (splice (splice buf offCRC (le_bytes 4 c)) offActualSize (le_bytes 4 a))
  = Ok (set_crc_actual c a m).
Proof.
  unfold parseMeta. destruct (len buf <? Z.of_nat metaSize) eqn:E; [done|]. bsplit.
  unfold metaSize in E. intros [= <-] Hc Ha.
  assert (length (splice buf offCRC (le_bytes 4 c)) = length buf) as L1.
  { apply length_splice. rewrite length_le_bytes. unfold offCRC. lia. }
  rewrite length_splice, L1 by (rewrite length_le_bytes, L1; unfold offActualSize; lia).
  unfold metaSize. bfalse. unfold set_crc_actual.
  cbn [mi_version mi_sequence mi_iv mi_lastActualSize mi_lastCRCDigest mi_flags]. f_equal.
  unfold offCRC, offVersion, offSequence, offIV, offActualSize,
    offLastActualSize, offLastCRCDigest, offFlags in *.
  assert (∀ off n, (off + n ≤ 28 ∨ 32 ≤ off)%nat → (4 ≤ off)%nat →
    sub (splice (splice buf 0 (le_bytes 4 c)) 28 (le_bytes 4 a)) off n = sub buf off n) as Hsub.
  { intros off n [H|H] H4; [rewrite sub_splice_before|rewrite sub_splice_after];
      rewrite ?length_le_bytes, ?L1; try lia;
      by rewrite sub_splice_after by (rewrite length_le_bytes; lia). }
  f_equal; try (by rewrite Hsub by lia).
  - rewrite sub_splice_before by (rewrite ?length_le_bytes, ?L1; lia).
    rewrite sub_splice_same by (rewrite length_le_bytes; lia). by apply le_val_bytes4.
  - rewrite sub_splice_same by (rewrite length_le_bytes, ?L1; lia). by apply le_val_bytes4.
Qed.
