(* ===== verification/Dict.v ===== *)
(** * The KV log: encodeRegion (encode.go), parseDict and parseDictGreedy (reader.go)

    A region is one varint, discarded by the readers, and then a log of pairs.
    Replaying the log gives the dictionary: the last pair of a key wins, and a
    pair with an empty value deletes the key.  The readers return the values as
    views of the region, here an offset and a length. *)

From S2P Require Import Prelude GoInt Wire.

Abbreviation view := (nat * nat)%type.
Abbreviation vdict := (kmap view).
Abbreviation bdict := (kmap bytes).

(** ** The code *)

Definition encodeRegion (order : list gostring) (blob : bdict) : bytes :=
  obuf (foldl (fun o k => writeData (writeData o k) (default [] (blob !! k)))
          (writeUInt32 emptyOutput itemSizeHolder) order).

(** [for !ci.atEnd() { ... }] of parseDict.  A round reads at least one byte,
    so the length of the region bounds the rounds ([parseDict_returns]). *)
Fixpoint parseDict_loop (fuel : nat) (m : vdict) : M codedInput vdict :=
  match fuel with
  | O => lift NoFuel
  | S fuel =>
      ci ← get;
      if atEnd ci then mret m
      else
        key ← readBytes;
        if (key.2 =? 0)%nat then parseDict_loop fuel m
        else
          val ← readBytes;
          if (0 <? val.2)%nat then parseDict_loop fuel (<[sub (ibuf ci) key.1 key.2 := val]> m)
          else parseDict_loop fuel (delete (sub (ibuf ci) key.1 key.2) m)
  end.

Definition parseDict (plain : bytes) : outcome vdict :=
  let ci := newCodedInput plain in
  if atEnd ci then Ok ∅
  else ((_ ← readVarint64; parseDict_loop (S (length plain)) ∅) ci).1.

Fixpoint parseDictGreedy_loop (fuel : nat) (m : vdict) (ci : codedInput) : vdict :=
  match fuel with
  | O => m
  | S fuel =>
      if atEnd ci then m
      else
        match readBytes ci with
        | (Ok key, ci1) =>
            if (key.2 =? 0)%nat then parseDictGreedy_loop fuel m ci1
            else
              match readBytes ci1 with
              | (Ok val, ci2) =>
                  if (0 <? val.2)%nat
                  then parseDictGreedy_loop fuel (<[sub (ibuf ci) key.1 key.2 := val]> m) ci2
                  else parseDictGreedy_loop fuel (delete (sub (ibuf ci) key.1 key.2) m) ci2
              | _ => m
              end
        | _ => m
        end
  end.

Definition parseDictGreedy (plain : bytes) : vdict :=
  let ci := newCodedInput plain in
  if atEnd ci then ∅
  else
    match readVarint64 ci with
    | (Ok _, ci') => parseDictGreedy_loop (S (length plain)) ∅ ci'
    | _ => ∅
    end.

(** ** The log *)

(** The bytes the views of a dictionary show. *)
Definition view_bytes (plain : bytes) (v : view) : bytes := sub plain v.1 v.2.
Definition show (plain : bytes) (m : vdict) : bdict := view_bytes plain <$> m.

Definition pair_bytes (e : gostring * bytes) : bytes := field e.1 ++ field e.2.
Definition log_bytes (es : list (gostring * bytes)) : bytes := mjoin (pair_bytes <$> es).

Definition apply_entry (m : bdict) (e : gostring * bytes) : bdict :=
  if decide (e.2 = []) then delete e.1 m else <[e.1 := e.2]> m.
Definition replay (es : list (gostring * bytes)) : bdict := foldl apply_entry ∅ es.

(** A pair the format can carry. *)
Definition entry_ok (e : gostring * bytes) : Prop :=
  e.1 ≠ [] ∧ is_u32 (len e.1) ∧ is_u32 (len e.2).

(** What parseDict returns: non-empty keys, and non-empty views inside the region. *)
Definition vdict_ok (plain : bytes) (m : vdict) : Prop :=
  map_Forall (fun k v => k ≠ [] ∧ (0 < v.2)%nat ∧ (v.1 + v.2 ≤ length plain)%nat) m.

(** ** Reading a prefix of a longer buffer *)

Lemma readVarint64_loop_ext i x s buf p v c' tail :
  readVarint64_loop i x s (mkInput buf p) = (Ok v, c') →
  readVarint64_loop i x s (mkInput (buf ++ tail) p) = (Ok v, mkInput (buf ++ tail) (ipos c')).
Proof.
  revert x s p. induction i as [|i IH]; intros x s p; [done|].
  cbn [readVarint64_loop]. unfold mbind, M_bind, get. cbn [ibuf ipos].
  destruct (len buf <=? Z.of_nat p) eqn:E; bsplit; [done|].
  rewrite length_app. bfalse. rewrite lookup_app_l by lia.
  destruct (buf !! p) as [b|]; [|done]. cbn [modify advance ibuf ipos].
  destruct (b2z b <? 0x80); [by intros [= <- <-]|]. apply IH.
Qed.

Lemma readVarint64_ext buf p v c' tail :
  readVarint64 (mkInput buf p) = (Ok v, c') →
  readVarint64 (mkInput (buf ++ tail) p) = (Ok v, mkInput (buf ++ tail) (ipos c')).
Proof. apply readVarint64_loop_ext. Qed.

Lemma readBytes_ext buf p v c' tail :
  readBytes (mkInput buf p) = (Ok v, c') →
  readBytes (mkInput (buf ++ tail) p) = (Ok v, mkInput (buf ++ tail) (ipos c')).
Proof.
  unfold readBytes. intros H. apply bind_inv_ok in H as (n&c1&Hn&H).
  pose proof (readVarint64_spec (mkInput buf p)) as Hs. rewrite Hn in Hs.
  destruct Hs as (Hu&Hb&Hp). cbn [ibuf ipos] in *.
  erewrite bind_ok by by apply readVarint64_ext.
  unfold mbind, M_bind, get in *. cbn [ibuf ipos]. rewrite Hb in H.
  destruct (len buf - Z.of_nat (ipos c1) <? n) eqn:E; [done|]. bsplit.
  rewrite length_app. bfalse. by injection H as <- <-.
Qed.

(** ** Dictionaries of views *)

Lemma show_app plain tail m : vdict_ok plain m → show (plain ++ tail) m = show plain m.
Proof.
  intros Hm. apply map_fmap_ext. intros k v Hv. apply Hm in Hv as (_&_&?).
  unfold view_bytes. by rewrite sub_app_l.
Qed.

Lemma vdict_ok_app plain tail m : vdict_ok plain m → vdict_ok (plain ++ tail) m.
Proof.
  intros Hm k v Hv. apply Hm in Hv as (?&?&?). rewrite length_app. split_and!; [done..|lia].
Qed.

Lemma show_insert plain m k v : show plain (<[k:=v]> m) = <[k:=view_bytes plain v]> (show plain m).
Proof. apply fmap_insert. Qed.
Lemma show_delete plain m k : show plain (delete k m) = delete k (show plain m).
Proof. apply fmap_delete. Qed.

Lemma vdict_ok_insert plain m k v :
  vdict_ok plain m → k ≠ [] → (0 < v.2)%nat → (v.1 + v.2 ≤ length plain)%nat →
  vdict_ok plain (<[k:=v]> m).
Proof. intros. by apply map_Forall_insert_2. Qed.
Lemma vdict_ok_delete plain m k : vdict_ok plain m → vdict_ok plain (delete k m).
Proof. intros. by apply map_Forall_delete. Qed.
#[export] Hint Resolve vdict_ok_insert vdict_ok_delete vdict_ok_app : mmkv.

(** A view read from the cursor lies after it and inside the buffer. *)
Lemma readBytes_ok c v c' :
  readBytes c = (Ok v, c') →
  ibuf c' = ibuf c ∧ (ipos c < ipos c')%nat ∧ (v.1 + v.2 ≤ length (ibuf c))%nat
  ∧ (ipos c' ≤ length (ibuf c))%nat.
Proof.
  intros H. pose proof (readBytes_spec c) as Hs. rewrite H in Hs. destruct v as [st n].
  destruct Hs as (?&?&?&?). simpl. split_and!; [done|lia..].
Qed.

Lemma readBytes_returns c : ∃ c', (∃ v, readBytes c = (Ok v, c')) ∨ (∃ e, readBytes c = (Err e, c')).
Proof.
  pose proof (readBytes_spec c) as Hs. destruct (readBytes c) as [[v|e| |] c']; eauto; done.
Qed.

Lemma sub_key_nonempty (l : bytes) (v : view) :
  (v.1 + v.2 ≤ length l)%nat → (v.2 =? 0)%nat = false → sub l v.1 v.2 ≠ [].
Proof.
  intros Hb Hv Hs. apply Nat.eqb_neq in Hv. apply (f_equal length) in Hs.
  rewrite length_sub in Hs by done. simpl in Hs. lia.
Qed.

Lemma parseDict_loop_S fuel m ci :
  parseDict_loop (S fuel) m ci =
  if atEnd ci then (Ok m, ci)
  else match readBytes ci with
  | (Ok key, ci1) =>
      if (key.2 =? 0)%nat then parseDict_loop fuel m ci1
      else match readBytes ci1 with
      | (Ok val, ci2) =>
          if (0 <? val.2)%nat then parseDict_loop fuel (<[sub (ibuf ci) key.1 key.2 := val]> m) ci2
          else parseDict_loop fuel (delete (sub (ibuf ci) key.1 key.2) m) ci2
      | (Err e, ci2) => (Err e, ci2)
      | (Panic, ci2) => (Panic, ci2)
      | (NoFuel, ci2) => (NoFuel, ci2)
      end
  | (Err e, ci1) => (Err e, ci1)
  | (Panic, ci1) => (Panic, ci1)
  | (NoFuel, ci1) => (NoFuel, ci1)
  end.
Proof.
  cbn [parseDict_loop]. unfold mbind, M_bind, get.
  destruct (atEnd ci); [done|]. destruct (readBytes ci) as [[key| | |] ci1]; [|done..].
  destruct (key.2 =? 0)%nat; [done|]. destruct (readBytes ci1) as [[val| | |] ci2]; [|done..].
  by destruct (0 <? val.2)%nat.
Qed.

(** With fuel for the bytes left, the loop returns, and what it returns is well formed. *)
Lemma parseDict_loop_spec fuel m c :
  vdict_ok (ibuf c) m → (length (ibuf c) - ipos c < fuel)%nat →
  match parseDict_loop fuel m c with
  | (Ok m', _) => vdict_ok (ibuf c) m'
  | (Err _, _) => True
  | _ => False
  end.
Proof.
  revert m c. induction fuel as [|fuel IH]; intros m c Hm Hf; [lia|].
  rewrite parseDict_loop_S. unfold atEnd.
  destruct (len (ibuf c) <=? Z.of_nat (ipos c)) eqn:E; bsplit; [done|].
  destruct (readBytes_returns c) as (c1&[[key Hk]|[e He]]); [|by rewrite He].
  rewrite Hk. apply readBytes_ok in Hk as (B1&P1&V1&?).
  destruct (key.2 =? 0)%nat eqn:K.
  { rewrite <-B1. apply IH; rewrite ?B1; [done|lia]. }
  destruct (readBytes_returns c1) as (c2&[[val Hv]|[e He]]); [|by rewrite He].
  rewrite Hv. apply readBytes_ok in Hv as (B2&P2&V2&?). rewrite B1 in *.
  destruct (0 <? val.2)%nat eqn:V; rewrite <-B2; (apply IH; rewrite ?B2; [|lia]).
  - apply Nat.ltb_lt in V. apply vdict_ok_insert; [done| |done..].
    by apply sub_key_nonempty.
  - by apply vdict_ok_delete.
Qed.

(** Reading a well-formed log followed by more bytes replays the log and then
    goes on where it ended. *)
Lemma parseDict_loop_ext fuel fuel' m m' buf p c' tail :
  parseDict_loop fuel m (mkInput buf p) = (Ok m', c') → (p ≤ length buf)%nat →
  ∃ fuel'', (fuel' ≤ fuel'')%nat ∧
    parseDict_loop (fuel + fuel') m (mkInput (buf ++ tail) p) =
    parseDict_loop fuel'' m' (mkInput (buf ++ tail) (length buf)).
Proof.
  revert m p. induction fuel as [|fuel IH]; intros m p H Hp; [done|].
  rewrite parseDict_loop_S in H. unfold atEnd in H. cbn [ibuf ipos] in H.
  destruct (len buf <=? Z.of_nat p) eqn:E; bsplit.
  { injection H as <- <-. exists (S fuel + fuel')%nat. split; [lia|].
    by replace p with (length buf) by lia. }
  destruct (readBytes (mkInput buf p)) as [[key| | |] c1] eqn:Hk; [|done..].
  pose proof (readBytes_ok _ _ _ Hk) as (B1&P1&V1&Q1). apply (readBytes_ext _ _ _ _ tail) in Hk.
  cbn [ibuf ipos] in *. destruct c1 as [buf1 p1]. cbn [ibuf ipos] in *. subst.
  rewrite Nat.add_succ_l, parseDict_loop_S. unfold atEnd. cbn [ibuf ipos].
  rewrite length_app. bfalse. rewrite Hk.
  destruct (key.2 =? 0)%nat; [by apply IH|].
  destruct (readBytes (mkInput buf p1)) as [[val| | |] c2] eqn:Hv; [|done..].
  pose proof (readBytes_ok _ _ _ Hv) as (B2&P2&V2&Q2). apply (readBytes_ext _ _ _ _ tail) in Hv.
  cbn [ibuf ipos] in *. destruct c2 as [buf2 p2]. cbn [ibuf ipos] in *. subst.
  rewrite Hv, sub_app_l by done.
  destruct (0 <? val.2)%nat; by apply IH.
Qed.

(** ** parseDict *)

Lemma parseDict_nil : parseDict [] = Ok ∅.
Proof. done. Qed.

Lemma parseDict_spec plain :
  match parseDict plain with Ok m => vdict_ok plain m | Err _ => True | _ => False end.
Proof.
  unfold parseDict. unfold atEnd. cbn [newCodedInput ibuf ipos].
  destruct (len plain <=? Z.of_nat 0); [apply map_Forall_empty|].
  unfold mbind, M_bind. pose proof (readVarint64_spec (newCodedInput plain)) as Hs.
  destruct (readVarint64 (newCodedInput plain)) as [[x| | |] c]; [|done..].
  destruct Hs as (_&Hb&Hp). cbn [newCodedInput ibuf ipos] in *.
  pose proof (parseDict_loop_spec (S (length plain)) ∅ c) as H. rewrite Hb in H.
  specialize (H (map_Forall_empty _) ltac:(lia)).
  by destruct (parseDict_loop _ _ _) as [[]].
Qed.

Lemma parseDict_ok plain m : parseDict plain = Ok m → vdict_ok plain m.
Proof. intros H. pose proof (parseDict_spec plain) as Hs. by rewrite H in Hs. Qed.

(** One pair at the end of a buffer, read from where it starts. *)
Lemma parseDict_loop_pair fuel m pre k v :
  (2 ≤ fuel)%nat → entry_ok (k, v) → vdict_ok pre m →
  ∃ m' c', parseDict_loop fuel m (mkInput (pre ++ pair_bytes (k, v)) (length pre)) = (Ok m', c')
    ∧ show (pre ++ pair_bytes (k, v)) m' = apply_entry (show pre m) (k, v).
Proof.
  intros Hf (Hk&Lk&Lv) Hm. simpl in *.
  destruct fuel as [|[|fuel]]; [lia..|]. rewrite parseDict_loop_S. unfold atEnd, pair_bytes.
  cbn [ibuf ipos fst snd]. pose proof (field_length k).
  rewrite !length_app. bfalse. rewrite readBytes_field by done. cbn [fst snd].
  destruct (length k =? 0)%nat eqn:K.
  { apply Nat.eqb_eq, length_zero_iff_nil in K. done. }
  assert (sub (pre ++ field k ++ field v) (length pre + length (varint (len k))) (length k) = k) as Hkey.
  { unfold field at 1. rewrite u32_small by done. rewrite <-app_assoc, (app_assoc pre).
    apply sub_middle'; [by rewrite length_app|done]. }
  pose proof (readBytes_field v (pre ++ field k) [] Lv) as Hv.
  rewrite app_nil_r, <-app_assoc, !length_app in Hv. rewrite Hv, Hkey. cbn [fst snd].
  assert (view_bytes (pre ++ field k ++ field v)
    (length pre + length (field k) + length (varint (len v)), length v)%nat = v) as Hval.
  { unfold view_bytes. cbn [fst snd]. unfold field at 2. rewrite u32_small by done.
    rewrite !app_assoc, <-(app_nil_r (_ ++ v)), <-app_assoc.
    apply sub_middle'; [|done]. by rewrite !length_app. }
  rewrite !parseDict_loop_S. unfold atEnd. cbn [ibuf ipos].
  rewrite !length_app, Nat.add_assoc. btrue. unfold apply_entry. cbn [fst snd].
  destruct (decide (v = [])) as [->|Hne].
  - do 2 eexists. split; [done|]. by rewrite show_delete, show_app.
  - rewrite (proj2 (Nat.ltb_lt 0 (length v))) by (destruct v; [done|simpl; lia]).
    do 2 eexists. split; [done|]. by rewrite show_insert, show_app, Hval.
Qed.

(** Appending a pair to a region applies it to the region's dictionary. *)
Lemma parseDict_append plain m k v :
  plain ≠ [] → parseDict plain = Ok m → entry_ok (k, v) →
  ∃ m', parseDict (plain ++ pair_bytes (k, v)) = Ok m'
    ∧ show (plain ++ pair_bytes (k, v)) m' = apply_entry (show plain m) (k, v).
Proof.
  intros Hne Hm He. pose proof (parseDict_ok _ _ Hm) as Hok.
  assert (0 < length plain)%nat by (destruct plain; [done|simpl; lia]).
  unfold parseDict, atEnd in *. cbn [newCodedInput ibuf ipos] in *. revert Hm.
  rewrite length_app. do 2 bfalse. unfold mbind, M_bind.
  pose proof (readVarint64_spec (newCodedInput plain)) as Hs.
  destruct (readVarint64 (newCodedInput plain)) as [[x| | |] c] eqn:Hx; [|done..].
  destruct Hs as (_&Hb&Hp). destruct c as [buf1 p]. cbn [newCodedInput ibuf ipos] in *. subst.
  apply (readVarint64_ext _ _ _ _ (pair_bytes (k, v))) in Hx. unfold newCodedInput. rewrite Hx.
  cbn [ipos]. destruct (parseDict_loop _ _ _) as [o c'] eqn:Hl. cbn [fst]. intros ->.
  apply (parseDict_loop_ext _ (length (pair_bytes (k, v))) _ _ _ _ _ (pair_bytes (k, v)))
    in Hl as (f''&Hf&Hl); [|lia].
  rewrite Nat.add_succ_l in Hl. rewrite Hl.
  assert (2 ≤ f'')%nat.
  { unfold pair_bytes in Hf. cbn [fst snd] in Hf. rewrite length_app in Hf.
    pose proof (field_length k). pose proof (field_length v). lia. }
  destruct (parseDict_loop_pair f'' m plain k v) as (m'&c2&Hr&Hshow); [done..|].
  rewrite Hr. eauto.
Qed.

Lemma parseDict_varint h : is_u64 h → parseDict (varint h) = Ok ∅.
Proof.
  intros Hh. unfold parseDict, atEnd. cbn [newCodedInput ibuf ipos].
  pose proof (varint_length_pos h). bfalse.
  pose proof (varint_reads h Hh [] []) as Hr. rewrite app_nil_r in Hr. cbn [app length] in Hr.
  unfold newCodedInput. erewrite bind_ok by exact Hr.
  rewrite parseDict_loop_S. unfold atEnd. cbn [ibuf ipos]. btrue. done.
Qed.

Lemma log_bytes_app es1 es2 : log_bytes (es1 ++ es2) = log_bytes es1 ++ log_bytes es2.
Proof. unfold log_bytes. by rewrite fmap_app, join_app. Qed.
Lemma log_bytes_snoc es e : log_bytes (es ++ [e]) = log_bytes es ++ pair_bytes e.
Proof. rewrite log_bytes_app. unfold log_bytes at 2. simpl. by rewrite app_nil_r. Qed.
Lemma replay_snoc es e : replay (es ++ [e]) = apply_entry (replay es) e.
Proof. unfold replay. by rewrite foldl_app. Qed.

(** Reading a region replays its log. *)
Lemma parseDict_log h es :
  is_u64 h → Forall entry_ok es →
  ∃ m, parseDict (varint h ++ log_bytes es) = Ok m
    ∧ show (varint h ++ log_bytes es) m = replay es.
Proof.
  intros Hh. induction es as [|[k v] es IH] using rev_ind; intros Hes.
  { unfold log_bytes. simpl. rewrite app_nil_r. exists ∅. split; [by apply parseDict_varint|].
    apply fmap_empty. }
  apply Forall_app in Hes as [Hes He]. apply Forall_inv in He.
  destruct (IH Hes) as (m&Hm&Hs).
  rewrite log_bytes_snoc, app_assoc, replay_snoc, <-Hs.
  apply parseDict_append; [|done..].
  intros Hnil. apply app_nil in Hnil as [Hnil _]. by apply varint_nonempty in Hnil.
Qed.

(** ** encodeRegion *)

Definition entries (order : list gostring) (blob : bdict) : list (gostring * bytes) :=
  (fun k => (k, default [] (blob !! k))) <$> order.

Lemma itemSizeHolder_u64 : is_u64 itemSizeHolder.
Proof. unfold is_u64, itemSizeHolder. lia. Qed.

Lemma itemSizeHolderBytes_varint : itemSizeHolderBytes = varint itemSizeHolder.
Proof. apply obuf_writeRawVarint32. Qed.

Lemma encodeRegion_log order blob :
  encodeRegion order blob = itemSizeHolderBytes ++ log_bytes (entries order blob).
Proof.
  rewrite itemSizeHolderBytes_varint. unfold encodeRegion.
  induction order as [|k order IH] using rev_ind.
  { rewrite app_nil_r. apply obuf_writeRawVarint32. }
  rewrite foldl_app. cbn [foldl]. rewrite !obuf_writeData, IH.
  unfold entries. rewrite fmap_app. cbn [fmap list_fmap]. rewrite log_bytes_snoc.
  unfold pair_bytes. cbn [fst snd]. by rewrite !app_assoc.
Qed.

Lemma encodeRegion_nonempty order blob : encodeRegion order blob ≠ [].
Proof.
  rewrite encodeRegion_log, itemSizeHolderBytes_varint. intros [Hv _]%app_nil.
  by apply varint_nonempty in Hv.
Qed.

Lemma replay_lookup es k :
  replay es !! k =
  foldl (fun o e => if decide (e.1 = k) then (if decide (e.2 = []) then None else Some e.2) else o)
    None es.
Proof.
  induction es as [|[k' v] es IH] using rev_ind; [apply lookup_empty|].
  rewrite replay_snoc, foldl_app, <-IH. cbn [foldl fst snd]. unfold apply_entry. cbn [fst snd].
  destruct (decide (k' = k)) as [->|]; destruct (decide (v = [])).
  - by rewrite lookup_delete_eq.
  - by rewrite lookup_insert_eq.
  - by rewrite lookup_delete_ne.
  - by rewrite lookup_insert_ne.
Qed.

(** A dictionary the store keeps: no empty key, no empty value. *)
Definition bdict_ok (m : bdict) : Prop :=
  map_Forall (fun k v => k ≠ [] ∧ v ≠ []) m.
Definition sizes_ok (m : bdict) : Prop :=
  map_Forall (fun k v => is_u32 (len k) ∧ is_u32 (len v)) m.

Lemma replay_entries (order : list gostring) (blob : bdict) :
  (∀ k, k ∈ order ↔ is_Some (blob !! k)) → bdict_ok blob → replay (entries order blob) = blob.
Proof.
  intros Hdom Hok. apply map_eq. intros k. rewrite replay_lookup.
  assert (∀ ks o, (∀ j, j ∈ ks → is_Some (blob !! j)) →
    foldl (fun o e => if decide (e.1 = k) then (if decide (e.2 = []) then None else Some e.2) else o)
      o (entries ks blob) = if decide (k ∈ ks) then blob !! k else o) as Hf.
  { clear Hdom order. induction ks as [|j ks IH]; intros o Hks; [done|].
    unfold entries. cbn [fmap list_fmap foldl fst snd]. fold (entries ks blob).
    rewrite IH by (intros i Hi; apply Hks; by right).
    destruct (decide (k ∈ ks)); [rewrite decide_True by (by right); done|].
    destruct (decide (j = k)) as [->|]; 
      [|rewrite decide_False by (by intros [->|]%elem_of_cons); done].
    rewrite (decide_True (P := k ∈ k :: ks)) by (by left).
    destruct (Hks k) as [v Hv]; [by left|]. rewrite Hv. cbn [default].
    apply Hok in Hv as [_ Hv]. by rewrite decide_False. }
  rewrite Hf by (intros j; by apply Hdom).
  destruct (decide (k ∈ order)) as [|Hn]; [done|]. rewrite Hdom in Hn.
  by apply eq_None_not_Some in Hn.
Qed.

Lemma entries_ok (order : list gostring) (blob : bdict) :
  (∀ k, k ∈ order → is_Some (blob !! k)) → bdict_ok blob → sizes_ok blob →
  Forall entry_ok (entries order blob).
Proof.
  intros Hdom Hok Hsz. apply Forall_forall. intros e He.
  apply list_elem_of_fmap in He as (k&->&Hk). destruct (Hdom k Hk) as [v Hv].
  rewrite Hv. split_and!; [by apply Hok in Hv as []|by apply Hsz in Hv as []..].
Qed.

(** Reading an encoded region gives the dictionary it was made from. *)
Lemma parseDict_encodeRegion (order : list gostring) (blob : bdict) :
  (∀ k, k ∈ order ↔ is_Some (blob !! k)) → bdict_ok blob → sizes_ok blob →
  ∃ m, parseDict (encodeRegion order blob) = Ok m ∧ show (encodeRegion order blob) m = blob.
Proof.
  intros Hdom Hok Hsz. rewrite encodeRegion_log, itemSizeHolderBytes_varint.
  destruct (parseDict_log itemSizeHolder (entries order blob)) as (m&Hm&Hs).
  - apply itemSizeHolder_u64.
  - apply entries_ok; [|done..]. intros k. apply Hdom.
  - exists m. split; [done|]. rewrite Hs. by apply replay_entries.
Qed.

(** ** parseDictGreedy *)

Lemma sub_take {A} (l : list A) q off n : (off + n ≤ q)%nat → sub (take q l) off n = sub l off n.
Proof.
  intros. unfold sub. rewrite skipn_firstn_comm, take_take. f_equal. lia.
Qed.

Lemma readVarint64_loop_mono i x s c v c' :
  readVarint64_loop i x s c = (Ok v, c') → (ipos c ≤ ipos c')%nat.
Proof.
  revert x s c. induction i as [|i IH]; intros x s c; [done|].
  cbn [readVarint64_loop]. unfold mbind, M_bind, get.
  destruct (_ <=? _); [done|]. destruct (ibuf c !! ipos c) as [b|]; [|done].
  cbn [modify]. destruct (b2z b <? 0x80).
  - intros [= _ <-]. cbn [advance ipos]. lia.
  - intros H%IH. cbn [advance ipos] in H. lia.
Qed.

(** What a read returned depends only on the bytes up to where it stopped. *)
Lemma readVarint64_loop_take i x s buf p v c' q :
  readVarint64_loop i x s (mkInput buf p) = (Ok v, c') → (ipos c' ≤ q)%nat →
  readVarint64_loop i x s (mkInput (take q buf) p) = (Ok v, mkInput (take q buf) (ipos c')).
Proof.
  revert x s p. induction i as [|i IH]; intros x s p H Hq; [done|].
  assert (is_Some (buf !! p) ∧ (p < q)%nat) as [[b Hb] Hpq].
  { cbn [readVarint64_loop] in H. unfold mbind, M_bind, get in H. cbn [ibuf ipos] in H.
    destruct (len buf <=? Z.of_nat p) eqn:E; bsplit; [done|].
    destruct (buf !! p) as [b|]; [|done]. cbn [modify advance ibuf ipos] in H. split; [done|].
    destruct (b2z b <? 0x80); [injection H as _ <-; cbn [advance ipos] in Hq; lia|].
    apply readVarint64_loop_mono in H. cbn [advance ipos] in H. lia. }
  revert H. cbn [readVarint64_loop]. unfold mbind, M_bind, get. cbn [ibuf ipos].
  apply lookup_lt_Some in Hb as Hl. rewrite length_take.
  rewrite Hb, lookup_take_lt, Hb by lia. do 2 bfalse.
  cbn [modify advance ibuf ipos]. destruct (b2z b <? 0x80); [by intros [= <- <-]|].
  intros H. by apply IH.
Qed.

Lemma readBytes_take buf p v c' q :
  readBytes (mkInput buf p) = (Ok v, c') → (ipos c' ≤ q)%nat →
  readBytes (mkInput (take q buf) p) = (Ok v, mkInput (take q buf) (ipos c')).
Proof.
  intros H Hq. pose proof (readBytes_ok _ _ _ H) as (_&_&_&Hl). cbn [ibuf] in Hl. revert H.
  unfold readBytes. intros H. apply bind_inv_ok in H as (n&c1&Hn&H).
  pose proof (readVarint64_spec (mkInput buf p)) as Hs. rewrite Hn in Hs.
  destruct Hs as (Hu&Hb&Hp). cbn [ibuf ipos] in *. unfold is_u64 in Hu.
  unfold mbind at 1, M_bind at 1, get at 1 in H. cbn [ibuf ipos] in H. rewrite Hb in H.
  destruct (len buf - Z.of_nat (ipos c1) <? n) eqn:E; [done|]. bsplit.
  cbn in H. injection H as <- <-. cbn [advance ipos] in *.
  assert (readVarint64 (mkInput (take q buf) p) = (Ok n, mkInput (take q buf) (ipos c1))) as Hr.
  { apply (readVarint64_loop_take 10 0 0 buf p n c1 q Hn). lia. }
  rewrite (bind_ok _ _ _ _ _ Hr). unfold mbind, M_bind, get. cbn [ibuf ipos].
  rewrite length_take. bfalse. done.
Qed.

Lemma parseDictGreedy_loop_agrees fuel m m' c c' :
  parseDict_loop fuel m c = (Ok m', c') → parseDictGreedy_loop fuel m c = m'.
Proof.
  revert m c. induction fuel as [|fuel IH]; intros m c; [done|].
  rewrite parseDict_loop_S. cbn [parseDictGreedy_loop]. destruct (atEnd c); [by intros [= <- <-]|].
  destruct (readBytes c) as [[key| | |] c1]; [|done..].
  destruct (key.2 =? 0)%nat; [apply IH|].
  destruct (readBytes c1) as [[val| | |] c2]; [|done..].
  destruct (0 <? val.2)%nat; apply IH.
Qed.

(** The greedy loop stops at a point [q] such that the bytes up to [q] are a
    well-formed log, and returns the dictionary of that log. *)
Lemma parseDictGreedy_loop_prefix fuel m buf p :
  (p ≤ length buf)%nat → (length buf - p < fuel)%nat →
  ∃ q c', (p ≤ q ≤ length buf)%nat ∧
    parseDict_loop fuel m (mkInput (take q buf) p)
    = (Ok (parseDictGreedy_loop fuel m (mkInput buf p)), c').
Proof.
  revert m p. induction fuel as [|fuel IH]; intros m p Hp Hf; [lia|].
  cbn [parseDictGreedy_loop].
  assert (∃ q c', (p ≤ q ≤ length buf)%nat ∧
    parseDict_loop (S fuel) m (mkInput (take q buf) p) = (Ok m, c')) as Hstop.
  { exists p. eexists. split; [lia|]. rewrite parseDict_loop_S. unfold atEnd. cbn [ibuf ipos].
    rewrite length_take. btrue. done. }
  unfold atEnd at 1. cbn [ibuf ipos].
  destruct (len buf <=? Z.of_nat p) eqn:E; bsplit; [done|].
  destruct (readBytes (mkInput buf p)) as [[key| | |] c1] eqn:Hk; [|done..].
  pose proof (readBytes_ok _ _ _ Hk) as (B1&P1&V1&Q1). cbn [ibuf ipos] in *.
  destruct c1 as [buf1 p1]. cbn [ibuf ipos] in *. subst buf1.
  destruct (key.2 =? 0)%nat eqn:K.
  { destruct (IH m p1) as (q&c'&Hq&H); [lia..|]. exists q, c'. split; [lia|].
    rewrite parseDict_loop_S. unfold atEnd. cbn [ibuf ipos]. rewrite length_take. bfalse.
    by rewrite (readBytes_take _ _ _ _ q Hk), K by (cbn; lia). }
  destruct (readBytes (mkInput buf p1)) as [[val| | |] c2] eqn:Hv; [|done..].
  pose proof (readBytes_spec (mkInput buf p)) as Hs1. rewrite Hk in Hs1.
  pose proof (readBytes_ok _ _ _ Hv) as (B2&P2&V2&Q2). cbn [ibuf ipos] in *.
  destruct c2 as [buf2 p2]. cbn [ibuf ipos] in *. subst buf2.
  destruct key as [st n]. destruct Hs1 as (_&_&Hp1&_). cbn [fst snd] in *.
  assert (∀ m', ∃ q c', (p ≤ q ≤ length buf)%nat ∧ (p2 ≤ q)%nat ∧
    parseDict_loop fuel m' (mkInput (take q buf) p2)
    = (Ok (parseDictGreedy_loop fuel m' (mkInput buf p2)), c')) as Hrec.
  { intros m'. destruct (IH m' p2) as (q&c'&Hq&H); [lia..|]. exists q, c'. split_and!; [lia..|done]. }
  destruct (0 <? val.2)%nat eqn:V;
    [destruct (Hrec (<[sub buf st n:=val]> m)) as (q&c'&Hq&Hq2&H)
    |destruct (Hrec (delete (sub buf st n) m)) as (q&c'&Hq&Hq2&H)].
  all: exists q, c'; split; [lia|]; rewrite parseDict_loop_S; unfold atEnd; cbn [ibuf ipos];
    rewrite length_take; bfalse;
    rewrite (readBytes_take _ _ _ _ q Hk) by (cbn; lia); cbn [ipos fst snd]; rewrite K;
    rewrite (readBytes_take _ _ _ _ q Hv) by (cbn; lia); cbn [ipos fst snd];
    rewrite V, sub_take by lia; done.
Qed.

(** Any fuel above the number of bytes left gives the same result. *)
Lemma parseDict_loop_fuel f f' m c :
  (length (ibuf c) - ipos c < f)%nat → (length (ibuf c) - ipos c < f')%nat →
  parseDict_loop f m c = parseDict_loop f' m c.
Proof.
  revert f' m c. induction f as [|f IH]; intros f' m c Hf Hf'; [lia|].
  destruct f' as [|f']; [lia|]. rewrite !parseDict_loop_S. unfold atEnd.
  destruct (len (ibuf c) <=? Z.of_nat (ipos c)) eqn:E; bsplit; [done|].
  destruct (readBytes c) as [[key| | |] c1] eqn:Hk; [|done..].
  apply readBytes_ok in Hk as (B1&P1&V1&Q1).
  destruct (key.2 =? 0)%nat; [apply IH; rewrite B1; lia|].
  destruct (readBytes c1) as [[val| | |] c2] eqn:Hv; [|done..].
  apply readBytes_ok in Hv as (B2&P2&V2&Q2).
  destruct (0 <? val.2)%nat; apply IH; rewrite B2, B1; lia.
Qed.

Lemma parseDictGreedy_agrees plain m : parseDict plain = Ok m → parseDictGreedy plain = m.
Proof.
  unfold parseDict, parseDictGreedy. destruct (atEnd _); [by intros [= ->]|].
  unfold mbind, M_bind. destruct (readVarint64 _) as [[x| | |] c]; [|done..].
  destruct (parseDict_loop _ _ c) as [o c'] eqn:H. cbn [fst]. intros ->.
  by eapply parseDictGreedy_loop_agrees.
Qed.

Lemma parseDictGreedy_prefix plain :
  ∃ q, (q ≤ length plain)%nat ∧ parseDict (take q plain) = Ok (parseDictGreedy plain).
Proof.
  assert (∃ q, (q ≤ length plain)%nat ∧ parseDict (take q plain) = Ok ∅) as Hnil.
  { exists 0%nat. split; [lia|done]. }
  unfold parseDictGreedy, atEnd at 1. cbn [newCodedInput ibuf ipos].
  destruct (len plain <=? Z.of_nat 0) eqn:E; bsplit; [done|].
  pose proof (readVarint64_spec (newCodedInput plain)) as Hs.
  destruct (readVarint64 (newCodedInput plain)) as [[x| | |] c] eqn:Hx; [|done..].
  destruct Hs as (_&Hb&Hp). destruct c as [buf1 p]. cbn [newCodedInput ibuf ipos] in *. subst buf1.
  destruct (parseDictGreedy_loop_prefix (S (length plain)) ∅ plain p) as (q&c'&Hq&H); [lia..|].
  exists q. split; [lia|]. unfold parseDict, atEnd. cbn [newCodedInput ibuf ipos].
  rewrite length_take. bfalse. unfold newCodedInput.
  rewrite (bind_ok _ _ _ _ _ (readVarint64_loop_take _ _ _ _ _ _ _ q Hx ltac:(cbn; lia))).
  cbn [ipos]. erewrite parseDict_loop_fuel, H; [done|..]; cbn [ibuf ipos]; rewrite length_take; lia.
Qed.

(** ** A torn tail *)

(** A field cut short is not read. *)
Lemma readBytes_torn pre b t rest v c' :
  is_u32 (len b) → field b = t ++ rest → rest ≠ [] →
  readBytes (mkInput (pre ++ t) (length pre)) ≠ (Ok v, c').
Proof.
  intros Hb Hf Hr H. pose proof (readBytes_ok _ _ _ H) as (_&_&_&Hp). cbn [ibuf] in Hp.
  apply (readBytes_ext _ _ _ _ rest) in H. rewrite <-app_assoc, <-Hf in H.
  pose proof (readBytes_field b pre [] Hb) as Hx. rewrite app_nil_r in Hx. rewrite Hx in H.
  injection H as _ Hpos. rewrite <-Hpos, Hf, !length_app in Hp.
  assert (0 < length rest)%nat by (destruct rest; [done|simpl; lia]). lia.
Qed.

(** The tolerant loop on a well-formed log followed by more bytes. *)
Lemma parseDictGreedy_loop_ext fuel fuel' m m' buf p c' tail :
  parseDict_loop fuel m (mkInput buf p) = (Ok m', c') → (p ≤ length buf)%nat →
  ∃ fuel'', (fuel' ≤ fuel'')%nat ∧
    parseDictGreedy_loop (fuel + fuel') m (mkInput (buf ++ tail) p) =
    parseDictGreedy_loop fuel'' m' (mkInput (buf ++ tail) (length buf)).
Proof.
  revert m p. induction fuel as [|fuel IH]; intros m p H Hp; [done|].
  rewrite parseDict_loop_S in H. unfold atEnd in H. cbn [ibuf ipos] in H.
  destruct (len buf <=? Z.of_nat p) eqn:E; bsplit.
  { injection H as <- <-. exists (S fuel + fuel')%nat. split; [lia|].
    by replace p with (length buf) by lia. }
  destruct (readBytes (mkInput buf p)) as [[key| | |] c1] eqn:Hk; [|done..].
  pose proof (readBytes_ok _ _ _ Hk) as (B1&P1&V1&Q1). apply (readBytes_ext _ _ _ _ tail) in Hk.
  cbn [ibuf ipos] in *. destruct c1 as [buf1 p1]. cbn [ibuf ipos] in *. subst.
  rewrite Nat.add_succ_l. cbn [parseDictGreedy_loop]. unfold atEnd at 1. cbn [ibuf ipos].
  rewrite length_app. bfalse. rewrite Hk.
  destruct (key.2 =? 0)%nat; [by apply IH|].
  destruct (readBytes (mkInput buf p1)) as [[val| | |] c2] eqn:Hv; [|done..].
  pose proof (readBytes_ok _ _ _ Hv) as (B2&P2&V2&Q2). apply (readBytes_ext _ _ _ _ tail) in Hv.
  cbn [ibuf ipos] in *. destruct c2 as [buf2 p2]. cbn [ibuf ipos] in *. subst.
  rewrite Hv, sub_app_l by done.
  destruct (0 <? val.2)%nat; by apply IH.
Qed.

(** The tolerant loop stops at a torn pair. *)
Lemma parseDictGreedy_loop_torn fuel m pre k v t rest :
  entry_ok (k, v) → pair_bytes (k, v) = t ++ rest → rest ≠ [] →
  parseDictGreedy_loop fuel m (mkInput (pre ++ t) (length pre)) = m.
Proof.
  intros (Hk&Lk&Lv) Hp Hr. destruct fuel as [|fuel]; [done|]. unfold pair_bytes in Hp. cbn [fst snd] in *.
  cbn [parseDictGreedy_loop]. destruct (atEnd _); [done|].
  assert ((∃ t2, t = field k ++ t2 ∧ field v = t2 ++ rest) ∨ (∃ r, field k = t ++ r ∧ r ≠ []))
    as [(t2&->&Hf)|(r&Hf&Hr2)].
  { apply app_eq_inv in Hp as [(r&Hf&Hv)|(t2&Ht&Hf)]; [|eauto].
    destruct r as [|x r]; [|right; by exists (x :: r)]. left. exists [].
    rewrite app_nil_r in *. by rewrite Hf, Hv. }
  - rewrite (readBytes_field k pre t2 Lk). cbn [fst snd].
    destruct (length k =? 0)%nat eqn:K; [apply Nat.eqb_eq, length_zero_iff_nil in K; done|].
    destruct (readBytes _) as [[w| | |] c2] eqn:Hw; [|done..]. exfalso.
    rewrite app_assoc, <-length_app in Hw. by eapply readBytes_torn in Hw.
  - destruct (readBytes _) as [[w| | |] c2] eqn:Hw; [|done..]. exfalso.
    by eapply (readBytes_torn pre k t r) in Hw.
Qed.

(** Whatever is left of a pair that was being appended, the tolerant parser
    finds the dictionary before it. *)
Lemma parseDictGreedy_torn plain m k v t rest :
  plain ≠ [] → parseDict plain = Ok m → entry_ok (k, v) → pair_bytes (k, v) = t ++ rest → rest ≠ [] →
  parseDictGreedy (plain ++ t) = m.
Proof.
  intros Hne Hm He Hp Hr.
  assert (0 < length plain)%nat by (destruct plain; [done|simpl; lia]).
  unfold parseDict, parseDictGreedy, atEnd in *. cbn [newCodedInput ibuf ipos] in *. revert Hm.
  rewrite length_app. do 2 bfalse. unfold mbind, M_bind.
  pose proof (readVarint64_spec (newCodedInput plain)) as Hs.
  destruct (readVarint64 (newCodedInput plain)) as [[x| | |] c] eqn:Hx; [|done..].
  destruct Hs as (_&Hb&Hpos). destruct c as [buf1 p]. cbn [newCodedInput ibuf ipos] in *. subst.
  apply (readVarint64_ext _ _ _ _ t) in Hx. unfold newCodedInput. rewrite Hx.
  cbn [ipos]. destruct (parseDict_loop _ _ _) as [o c'] eqn:Hl. cbn [fst]. intros ->.
  apply (parseDictGreedy_loop_ext _ (length t) _ _ _ _ _ t) in Hl as (f''&_&Hl); [|lia].
  rewrite Nat.add_succ_l in Hl. rewrite Hl. by eapply parseDictGreedy_loop_torn.
Qed.

(** Behind a prefix that parses, both parsers go on where it ended. *)
Lemma parsers_extend buf tail m :
  buf ≠ [] → parseDict buf = Ok m →
  (∃ f, (length tail < f)%nat
     ∧ parseDict (buf ++ tail) = (parseDict_loop f m (mkInput (buf ++ tail) (length buf))).1)
  ∧ ∃ f, (length tail < f)%nat
     ∧ parseDictGreedy (buf ++ tail) = parseDictGreedy_loop f m (mkInput (buf ++ tail) (length buf)).
Proof.
  intros Hne Hm. assert (0 < length buf)%nat by (destruct buf; [done|simpl; lia]).
  unfold parseDict, parseDictGreedy, atEnd in *. cbn [newCodedInput ibuf ipos] in *. revert Hm.
  rewrite length_app. do 2 bfalse. unfold mbind, M_bind.
  pose proof (readVarint64_spec (newCodedInput buf)) as Hs.
  destruct (readVarint64 (newCodedInput buf)) as [[x| | |] c] eqn:Hx; [|done..].
  destruct Hs as (_&Hb&Hpos). destruct c as [buf1 p]. cbn [newCodedInput ibuf ipos] in *. subst.
  apply (readVarint64_ext _ _ _ _ tail) in Hx. unfold newCodedInput. rewrite Hx. cbn [ipos].
  rewrite (parseDict_loop_fuel _ (length buf)) by (cbn; lia).
  destruct (parseDict_loop _ _ _) as [o c'] eqn:Hl. cbn [fst]. intros ->.
  replace (S (length buf + length tail)) with (length buf + S (length tail))%nat by lia. split.
  - destruct (parseDict_loop_ext _ (S (length tail)) _ _ _ _ _ tail Hl) as (f&?&E); [lia|].
    exists f. split; [lia|]. by rewrite E.
  - destruct (parseDictGreedy_loop_ext _ (S (length tail)) _ _ _ _ _ tail Hl) as (f&?&E); [lia|].
    exists f. split; [lia|]. by rewrite E.
Qed.

(** The prefix the tolerant parser stands for reaches at least as far as any
    prefix that parses. *)
Lemma parseDictGreedy_reaches buf tail m :
  parseDict buf = Ok m →
  ∃ q, (length buf ≤ q ≤ length (buf ++ tail))%nat
    ∧ parseDict (take q (buf ++ tail)) = Ok (parseDictGreedy (buf ++ tail)).
Proof.
  intros Hm. destruct (decide (buf = [])) as [->|Hne].
  { destruct (parseDictGreedy_prefix tail) as (q&?&?). exists q. split; [cbn; lia|done]. }
  destruct (parsers_extend buf tail m Hne Hm) as (_&f&Hf&->).
  destruct (parseDictGreedy_loop_prefix f m (buf ++ tail) (length buf)) as (q&c'&Hb&Hr);
    [rewrite length_app; lia..|].
  exists q. split; [done|]. rewrite take_app_ge in Hr |- * by lia.
  destruct (parsers_extend buf (take (q - length buf) tail) m Hne Hm) as ((f'&Hf'&->)&_).
  rewrite (parseDict_loop_fuel _ f), Hr; [done|..]; cbn [ibuf ipos]; rewrite length_app, ?length_take in *; lia.
Qed.

(** It stands for the longest prefix that parses. *)
Definition parses (b : bytes) : Prop := ∃ m, parseDict b = Ok m.
#[global] Instance parses_dec b : Decision (parses b).
Proof.
  destruct (parseDict b) as [m|e| |] eqn:E; [left; by exists m|right; intros [? ?]; congruence..].
Defined.

Lemma longest_parsing_prefix plain n :
  (n ≤ length plain)%nat →
  ∃ q, (q ≤ n)%nat ∧ parses (take q plain) ∧ ∀ q', (q < q' ≤ n)%nat → ¬ parses (take q' plain).
Proof.
  induction n as [|n IH]; intros Hn.
  - exists 0%nat. split; [done|]. split; [by exists ∅|lia].
  - destruct (decide (parses (take (S n) plain))) as [Hp|Hp].
    + exists (S n). split; [done|]. split; [done|lia].
    + destruct IH as (q&?&?&Hmax); [lia|]. exists q. split; [lia|]. split; [done|].
      intros q' Hq'. destruct (decide (q' = S n)) as [->|]; [done|apply Hmax; lia].
Qed.

Lemma parseDictGreedy_longest plain :
  ∃ q, (q ≤ length plain)%nat ∧ parseDict (take q plain) = Ok (parseDictGreedy plain)
    ∧ ∀ q', (q < q' ≤ length plain)%nat → ¬ parses (take q' plain).
Proof.
  destruct (longest_parsing_prefix plain (length plain) (le_n _)) as (q&Hq&[m Hm]&Hmax).
  destruct (parseDictGreedy_reaches _ (drop q plain) m Hm) as (q1&Hq1&H1).
  rewrite take_drop, length_take in *. exists q. split; [done|]. split; [|done].
  destruct (decide (q1 = q)) as [->|]; [done|]. exfalso. apply (Hmax q1); [lia|by eexists].
Qed.

(** Pairs appended one after the other. *)
Lemma parseDict_append_log plain m es :
  plain ≠ [] → parseDict plain = Ok m → Forall entry_ok es →
  ∃ m', parseDict (plain ++ log_bytes es) = Ok m'
    ∧ show (plain ++ log_bytes es) m' = foldl apply_entry (show plain m) es.
Proof.
  intros Hne Hm. induction es as [|[k v] es IH] using rev_ind; intros Hes.
  { unfold log_bytes. cbn. rewrite app_nil_r. eauto. }
  apply Forall_app in Hes as [Hes He]. apply Forall_inv in He.
  destruct (IH Hes) as (m1&Hm1&Hs1). rewrite log_bytes_snoc, app_assoc, foldl_app. cbn [foldl].
  rewrite <-Hs1. apply parseDict_append; [|done..]. by intros [? _]%app_nil.
Qed.

(** ** The empty key *)

(** A pair with an empty key is skipped without its value, which is then read as
    the key of a pair that is not there. *)
Lemma parseDict_empty_key plain m v :
  plain ≠ [] → parseDict plain = Ok m → v ≠ [] → is_u32 (len v) →
  parseDict (plain ++ pair_bytes ([], v)) = Err ErrUnexpectedEOF.
Proof.
  intros Hne Hm Hv Hl. assert (0 < length plain)%nat by (destruct plain; [done|simpl; lia]).
  assert (0 < length v)%nat by (destruct v; [done|simpl; lia]).
  unfold parseDict, atEnd in *. cbn [newCodedInput ibuf ipos] in *. revert Hm.
  rewrite length_app. do 2 bfalse. unfold mbind, M_bind.
  pose proof (readVarint64_spec (newCodedInput plain)) as Hs.
  destruct (readVarint64 (newCodedInput plain)) as [[x| | |] c] eqn:Hx; [|done..].
  destruct Hs as (_&Hb&Hpos). destruct c as [buf1 p]. cbn [newCodedInput ibuf ipos] in *. subst.
  apply (readVarint64_ext _ _ _ _ (pair_bytes ([], v))) in Hx. unfold newCodedInput. rewrite Hx.
  cbn [ipos]. destruct (parseDict_loop _ _ _) as [o c'] eqn:Hlp. cbn [fst]. intros ->.
  apply (parseDict_loop_ext _ (length (pair_bytes ([], v))) _ _ _ _ _ (pair_bytes ([], v)))
    in Hlp as (f''&Hf&Hlp); [|lia].
  rewrite Nat.add_succ_l in Hlp. rewrite Hlp. clear Hlp Hx.
  unfold pair_bytes in *. cbn [fst snd] in *. rewrite length_app in Hf.
  pose proof (field_length []). pose proof (field_length v).
  destruct f'' as [|[|f'']]; [lia..|]. rewrite !parseDict_loop_S. unfold atEnd. cbn [ibuf ipos].
  rewrite !length_app. bfalse. rewrite (readBytes_field [] plain (field v)) by (unfold is_u32; simpl; lia).
  cbn [fst snd length Nat.eqb]. rewrite parseDict_loop_S. unfold atEnd. cbn [ibuf ipos].
  rewrite !length_app. bfalse.
  pose proof (readBytes_field v (plain ++ field []) [] Hl) as Hr.
  rewrite app_nil_r, <-app_assoc, !length_app in Hr. rewrite Hr. cbn [fst snd].
  rewrite (proj2 (Nat.eqb_neq _ _)) by lia.
  unfold readBytes, readVarint64. cbn [readVarint64_loop]. unfold mbind, M_bind, get. cbn [ibuf ipos].
  rewrite !length_app. btrue. done.
Qed.
