(* ===== verification/Aes.v ===== *)
(** * The AES block cipher (crypto/aes), from FIPS 197

    crypt.go uses [aes.NewCipher] and [Block.Encrypt] of the standard library.
    A block is 16 bytes in the order of the input, column after column.  The
    examples at the end check the model against the vectors of FIPS 197. *)

From S2P Require Import Prelude GoInt.

(** ** The field GF(2^8) and the S-box *)

Definition xtime (a : Z) : Z :=
  Z.lxor (u8 (Z.shiftl a 1)) (if Z.testbit a 7 then 0x1b else 0).

Fixpoint gmul_loop (n : nat) (a b : Z) : Z :=
  match n with
  | O => 0
  | S n => Z.lxor (if Z.odd b then a else 0) (gmul_loop n (xtime a) (Z.shiftr b 1))
  end.
Definition gmul (a b : Z) : Z := gmul_loop 8 a b.

(** The inverse of [a] is [a^254]; 0 is its own. *)
Definition ginv (a : Z) : Z := Nat.iter 253 (gmul a) a.

Definition rotl8 (a : Z) (n : Z) : Z := u8 (Z.lor (Z.shiftl a n) (Z.shiftr a (8 - n))).

Definition sbox_entry (a : Z) : Z :=
  let b := ginv a in
  Z.lxor b (Z.lxor (rotl8 b 1) (Z.lxor (rotl8 b 2) (Z.lxor (rotl8 b 3) (Z.lxor (rotl8 b 4) 0x63)))).

Definition sbox : list Z :=
  Eval vm_compute in ((fun n => sbox_entry (Z.of_nat n)) <$> seq 0 256).

Definition SubByte (a : Z) : Z := default 0 (sbox !! Z.to_nat a).

(** ** Key expansion *)

Definition xorw (a b : list Z) : list Z := zip_with Z.lxor a b.
Definition RotWord (w : list Z) : list Z := drop 1 w ++ take 1 w.
Definition SubWord (w : list Z) : list Z := SubByte <$> w.
Definition Rcon (i : nat) : list Z := [Nat.iter (i - 1) xtime 1; 0; 0; 0].

(** The words [w[i..]], with [ws] the words before [i]. *)
Fixpoint expand_loop (n i nk : nat) (ws : list (list Z)) : list (list Z) :=
  match n with
  | O => ws
  | S n =>
      let temp := default [] (ws !! (i - 1)%nat) in
      let temp :=
        if (i mod nk =? 0)%nat then xorw (SubWord (RotWord temp)) (Rcon (i / nk))
        else if (6 <? nk)%nat && (i mod nk =? 4)%nat then SubWord temp
        else temp in
      expand_loop n (S i) nk (ws ++ [xorw (default [] (ws !! (i - nk)%nat)) temp])
  end.

Fixpoint chunks (n k : nat) (l : list Z) : list (list Z) :=
  match n with
  | O => []
  | S n => take k l :: chunks n k (drop k l)
  end.

(** The round keys, 16 bytes each: 11 for a 16-byte key, 15 for a 32-byte key. *)
Definition aes_NewCipher (key : bytes) : list (list Z) :=
  let nk := (length key / 4)%nat in
  let ws := chunks nk 4 (b2z <$> key) in
  chunks (nk + 7) 16 (mjoin (expand_loop (4 * (nk + 7) - nk) nk nk ws)).

(** ** The cipher *)

Definition SubBytes (s : list Z) : list Z := SubByte <$> s.

(** Row [r] of the state is rotated left by [r]; byte [i] is row [i mod 4] of
    column [i / 4]. *)
Definition ShiftRows (s : list Z) : list Z :=
  (fun i => default 0 (s !! ((i + 4 * (i mod 4)) mod 16)%nat)) <$> seq 0 16.

Definition MixColumn (c : list Z) : list Z :=
  match c with
  | [a; b; c; d] =>
      let x := Z.lxor in
      [ x (gmul a 2) (x (gmul b 3) (x c d));
        x a (x (gmul b 2) (x (gmul c 3) d));
        x a (x b (x (gmul c 2) (gmul d 3)));
        x (gmul a 3) (x b (x c (gmul d 2))) ]
  | _ => c
  end.
Definition MixColumns (s : list Z) : list Z := mjoin (MixColumn <$> chunks 4 4 s).

Fixpoint rounds (rks : list (list Z)) (s : list Z) : list Z :=
  match rks with
  | [] => s
  | [rk] => xorw (ShiftRows (SubBytes s)) rk
  | rk :: rks => rounds rks (xorw (MixColumns (ShiftRows (SubBytes s))) rk)
  end.

(** [Block.Encrypt(dst, src)]: the 16 bytes written to [dst]. *)
Definition aes_Encrypt (rks : list (list Z)) (src : bytes) : bytes :=
  match rks with
  | [] => src
  | rk :: rks => z2b <$> rounds rks (xorw (b2z <$> src) rk)
  end.

(** FIPS 197, appendices C.1 and C.3. *)
Example aes128_vector :
  b2z <$> aes_Encrypt (aes_NewCipher (z2b <$> (Z.of_nat <$> seq 0 16)))
    (z2b <$> [0x00; 0x11; 0x22; 0x33; 0x44; 0x55; 0x66; 0x77;
              0x88; 0x99; 0xaa; 0xbb; 0xcc; 0xdd; 0xee; 0xff])
  = [0x69; 0xc4; 0xe0; 0xd8; 0x6a; 0x7b; 0x04; 0x30;
     0xd8; 0xcd; 0xb7; 0x80; 0x70; 0xb4; 0xc5; 0x5a].
Proof. vm_compute. reflexivity. Qed.

Example aes256_vector :
  b2z <$> aes_Encrypt (aes_NewCipher (z2b <$> (Z.of_nat <$> seq 0 32)))
    (z2b <$> [0x00; 0x11; 0x22; 0x33; 0x44; 0x55; 0x66; 0x77;
              0x88; 0x99; 0xaa; 0xbb; 0xcc; 0xdd; 0xee; 0xff])
  = [0x8e; 0xa2; 0xb7; 0xca; 0x51; 0x67; 0x45; 0xbf;
     0xea; 0xfc; 0x49; 0x90; 0x4b; 0x49; 0x60; 0x89].
Proof. vm_compute. reflexivity. Qed.
