(* ===== verification/Crypt.v ===== *)
(** * AES-CFB-128 (crypt.go): newAESCFB, Encrypt, Decrypt *)

From S2P Require Import Prelude GoInt Aes.

(** The Decryptor interface: the plaintext of a region under an IV, or an error. *)
Definition Decryptor : Type := bytes → bytes → outcome bytes.

(** The struct's [block] field: the expanded key. *)
Record aesCFB := mkCFB { block : list (list Z) }.

(** [n] bytes of zero with [b] copied to the front: truncated or padded. *)
Definition fit (n : nat) (b : bytes) : bytes := take n b ++ zeros (n - length b).

Definition newAESCFB (userKey : bytes) : aesCFB :=
  let n := if 16 <? len userKey then 32%nat else 16%nat in
  mkCFB (aes_NewCipher (fit n userKey)).

(** The loop over the bytes: [reg] is the shift register, [ks] the key stream
    of the current block, [n] the position in it. *)
Fixpoint cfb_decrypt (a : aesCFB) (reg ks : bytes) (n : nat) (ct : bytes) : bytes :=
  match ct with
  | [] => []
  | c :: ct =>
      let ks := if (n =? 0)%nat then aes_Encrypt (block a) reg else ks in
      bxor c (default Byte.x00 (ks !! n)) ::
      cfb_decrypt a (<[n := c]> reg) ks (Nat.land (n + 1) 15) ct
  end.

Fixpoint cfb_encrypt (a : aesCFB) (reg ks : bytes) (n : nat) (pt : bytes) : bytes :=
  match pt with
  | [] => []
  | p :: pt =>
      let ks := if (n =? 0)%nat then aes_Encrypt (block a) reg else ks in
      let c := bxor p (default Byte.x00 (ks !! n)) in
      c :: cfb_encrypt a (<[n := c]> reg) ks (Nat.land (n + 1) 15) pt
  end.

Definition Decrypt (a : aesCFB) (ct iv : bytes) : outcome bytes :=
  if len iv <? 16 then Err ErrShortIV
  else Ok (cfb_decrypt a (take 16 iv) (zeros 16) 0 ct).

Definition Encrypt (a : aesCFB) (pt iv : bytes) : outcome bytes :=
  if len iv <? 16 then Err ErrShortIV
  else Ok (cfb_encrypt a (take 16 iv) (zeros 16) 0 pt).

Lemma length_cfb_encrypt a reg ks n pt : length (cfb_encrypt a reg ks n pt) = length pt.
Proof. revert reg ks n. induction pt as [|p pt IH]; intros; simpl; [done|]. by rewrite IH. Qed.

Lemma length_cfb_decrypt a reg ks n ct : length (cfb_decrypt a reg ks n ct) = length ct.
Proof. revert reg ks n. induction ct as [|c ct IH]; intros; simpl; [done|]. by rewrite IH. Qed.

(** The decryption feeds back the bytes the encryption produced. *)
Lemma cfb_decrypt_encrypt a reg ks n pt :
  cfb_decrypt a reg ks n (cfb_encrypt a reg ks n pt) = pt.
Proof.
  revert reg ks n. induction pt as [|p pt IH]; intros; cbn [cfb_encrypt cfb_decrypt]; [done|].
  by rewrite bxor_involutive, IH.
Qed.

(** A stream cipher: decrypting a prefix gives the prefix of the plaintext. *)
Lemma cfb_decrypt_app a reg ks n c1 c2 :
  take (length c1) (cfb_decrypt a reg ks n (c1 ++ c2)) = cfb_decrypt a reg ks n c1.
Proof.
  revert reg ks n. induction c1 as [|c c1 IH]; intros; [done|].
  cbn [app length cfb_decrypt take firstn]. by rewrite IH.
Qed.

Lemma Encrypt_ok a pt iv : length iv = 16%nat → ∃ ct, Encrypt a pt iv = Ok ct ∧ length ct = length pt.
Proof.
  intros Hiv. unfold Encrypt. rewrite Hiv. bfalse. eexists. split; [done|].
  apply length_cfb_encrypt.
Qed.

Lemma Decrypt_Encrypt a pt iv ct : Encrypt a pt iv = Ok ct → Decrypt a ct iv = Ok pt.
Proof.
  unfold Encrypt, Decrypt. destruct (len iv <? 16); [done|]. intros [= <-].
  by rewrite cfb_decrypt_encrypt.
Qed.

Lemma Decrypt_ok a ct iv : length iv = 16%nat → ∃ pt, Decrypt a ct iv = Ok pt ∧ length pt = length ct.
Proof.
  intros Hiv. unfold Decrypt. rewrite Hiv. bfalse. eexists. split; [done|].
  apply length_cfb_decrypt.
Qed.

(** ** The key stream *)

(** The bytes a decryption of [ct] adds to it. *)
Fixpoint cfb_stream (a : aesCFB) (reg ks : bytes) (n : nat) (ct : bytes) : bytes :=
  match ct with
  | [] => []
  | c :: ct =>
      let ks := if (n =? 0)%nat then aes_Encrypt (block a) reg else ks in
      default Byte.x00 (ks !! n) :: cfb_stream a (<[n := c]> reg) ks (Nat.land (n + 1) 15) ct
  end.

Lemma cfb_decrypt_stream a reg ks n ct :
  cfb_decrypt a reg ks n ct = zip_with bxor ct (cfb_stream a reg ks n ct).
Proof. revert reg ks n. induction ct as [|c ct IH]; intros; cbn; [done|]. by rewrite IH. Qed.

Lemma length_cfb_stream a reg ks n ct : length (cfb_stream a reg ks n ct) = length ct.
Proof. revert reg ks n. induction ct as [|c ct IH]; intros; cbn; [done|]. by rewrite IH. Qed.

Lemma cfb_stream_app a reg ks n c1 c2 :
  take (length c1) (cfb_stream a reg ks n (c1 ++ c2)) = cfb_stream a reg ks n c1.
Proof.
  revert reg ks n. induction c1 as [|c c1 IH]; intros; [done|].
  cbn [app length cfb_stream take firstn]. by rewrite IH.
Qed.

Lemma xor_fixed (t ks : bytes) : length ks = length t → zip_with bxor t ks = t ↔ ks = zeros (length t).
Proof.
  revert ks. induction t as [|x t IH]; intros [|k ks] Hl; try done.
  injection Hl as Hl. cbn. specialize (IH ks Hl). split.
  - intros [= E1%bxor_fixed E2]. rewrite E1. f_equal. by apply IH.
  - intros [= -> E]. f_equal; [by apply bxor_fixed|by apply IH].
Qed.

(** What bytes that were appended to a ciphertext in plaintext decrypt to. *)
Definition streamAfter (a : aesCFB) (iv ct tail : bytes) : bytes :=
  drop (length ct) (cfb_stream a (take 16 iv) (zeros 16) 0 (ct ++ tail)).
Definition garbled (a : aesCFB) (iv ct tail : bytes) : bytes := zip_with bxor tail (streamAfter a iv ct tail).

Lemma length_streamAfter a iv ct tail : length (streamAfter a iv ct tail) = length tail.
Proof. unfold streamAfter. rewrite length_drop, length_cfb_stream, length_app. lia. Qed.

Lemma Decrypt_append a ct tail iv plain :
  Decrypt a ct iv = Ok plain → Decrypt a (ct ++ tail) iv = Ok (plain ++ garbled a iv ct tail).
Proof.
  unfold Decrypt. destruct (len iv <? 16); [done|]. intros [= <-]. f_equal.
  rewrite !cfb_decrypt_stream. rewrite <-(cfb_stream_app a _ _ _ ct tail).
  unfold garbled, streamAfter.
  rewrite <-(take_drop (length ct) (cfb_stream a (take 16 iv) (zeros 16) 0 (ct ++ tail))) at 1.
  rewrite zip_with_app; [done|]. rewrite length_take, length_cfb_stream, length_app. lia.
Qed.

Lemma garbled_same a iv ct tail :
  garbled a iv ct tail = tail ↔ streamAfter a iv ct tail = zeros (length tail).
Proof. apply xor_fixed, length_streamAfter. Qed.

(** ** The known answers of NIST SP 800-38A, F.3.13 and F.3.17 (crypt_test.go) *)

(** The [n] bytes of a number written in hexadecimal. *)
Definition hexBytes (n : nat) (z : Z) : bytes := reverse (le_bytes n z).

Definition nist_iv : bytes := hexBytes 16 0x000102030405060708090a0b0c0d0e0f.
Definition nist_plaintext : bytes :=
  hexBytes 16 0x6bc1bee22e409f96e93d7e117393172a ++ hexBytes 16 0xae2d8a571e03ac9c9eb76fac45af8e51 ++
  hexBytes 16 0x30c81c46a35ce411e5fbc1191a0a52ef ++ hexBytes 16 0xf69f2445df4f9b17ad2b417be66c3710.

Example nist_aes128 :
  Decrypt (newAESCFB (hexBytes 16 0x2b7e151628aed2a6abf7158809cf4f3c))
    (hexBytes 16 0x3b3fd92eb72dad20333449f8e83cfb4a ++ hexBytes 16 0xc8a64537a0b3a93fcde3cdad9f1ce58b ++
     hexBytes 16 0x26751f67a3cbb140b1808cf187a4f4df ++ hexBytes 16 0xc04b05357c5d1c0eeac4c66f9ff7f2e6)
    nist_iv = Ok nist_plaintext.
Proof. vm_compute. reflexivity. Qed.

Example nist_aes256 :
  Decrypt (newAESCFB (hexBytes 32 0x603deb1015ca71be2b73aef0857d77811f352c073b6108d72d9810a30914dff4))
    (hexBytes 16 0xdc7e84bfda79164b7ecd8486985d3860 ++ hexBytes 16 0x39ffed143b28b1c832113c6331e5407b ++
     hexBytes 16 0xdf10132415e54b92a13ed0a8267ae2f9 ++ hexBytes 16 0x75a385741ab9cef82031623d55b1e471)
    nist_iv = Ok nist_plaintext.
Proof. vm_compute. reflexivity. Qed.
