(* ===== verification/Md5.v ===== *)
(** * MD5 and hexadecimal (crypto/md5, encoding/hex), from RFC 1321

    path.go uses [md5.Sum] and [hex.EncodeToString] of the standard library.  The
    examples check the model against the vectors of RFC 1321. *)

From S2P Require Import Prelude GoInt.

(** ** The tables *)

(** floor(2^32 * |sin(i + 1)|). *)
Definition md5_T : list Z :=
  [0xd76aa478; 0xe8c7b756; 0x242070db; 0xc1bdceee;
   0xf57c0faf; 0x4787c62a; 0xa8304613; 0xfd469501;
   0x698098d8; 0x8b44f7af; 0xffff5bb1; 0x895cd7be;
   0x6b901122; 0xfd987193; 0xa679438e; 0x49b40821;
   0xf61e2562; 0xc040b340; 0x265e5a51; 0xe9b6c7aa;
   0xd62f105d; 0x02441453; 0xd8a1e681; 0xe7d3fbc8;
   0x21e1cde6; 0xc33707d6; 0xf4d50d87; 0x455a14ed;
   0xa9e3e905; 0xfcefa3f8; 0x676f02d9; 0x8d2a4c8a;
   0xfffa3942; 0x8771f681; 0x6d9d6122; 0xfde5380c;
   0xa4beea44; 0x4bdecfa9; 0xf6bb4b60; 0xbebfbc70;
   0x289b7ec6; 0xeaa127fa; 0xd4ef3085; 0x04881d05;
   0xd9d4d039; 0xe6db99e5; 0x1fa27cf8; 0xc4ac5665;
   0xf4292244; 0x432aff97; 0xab9423a7; 0xfc93a039;
   0x655b59c3; 0x8f0ccc92; 0xffeff47d; 0x85845dd1;
   0x6fa87e4f; 0xfe2ce6e0; 0xa3014314; 0x4e0811a1;
   0xf7537e82; 0xbd3af235; 0x2ad7d2bb; 0xeb86d391].

(** The rotations of the four rounds. *)
Definition md5_S : list Z :=
  mjoin ((fun r => r ++ r ++ r ++ r) <$> [[7; 12; 17; 22]; [5; 9; 14; 20]; [4; 11; 16; 23]; [6; 10; 15; 21]]).

(** ** A block *)

Record digest := mkDigest { dg_a : Z; dg_b : Z; dg_c : Z; dg_d : Z }.

Definition not32 (x : Z) : Z := Z.lxor x (Z.ones 32).
Definition rotl32 (x n : Z) : Z := Z.lor (u32 (Z.shiftl x n)) (Z.shiftr x (32 - n)).

(** The auxiliary function and the word of step [i]. *)
Definition md5_aux (i : nat) (b c d : Z) : Z * nat :=
  match (i / 16)%nat with
  | 0%nat => (Z.lor (Z.land b c) (Z.land (not32 b) d), i)
  | 1%nat => (Z.lor (Z.land d b) (Z.land (not32 d) c), ((5 * i + 1) mod 16)%nat)
  | 2%nat => (Z.lxor b (Z.lxor c d), ((3 * i + 5) mod 16)%nat)
  | _ => (Z.lxor c (Z.lor b (not32 d)), ((7 * i) mod 16)%nat)
  end.

Definition md5_step (X : list Z) (g : digest) (i : nat) : digest :=
  let '(f, k) := md5_aux i (dg_b g) (dg_c g) (dg_d g) in
  let sum := u32 (dg_a g + f + default 0 (X !! k) + default 0 (md5_T !! i)) in
  mkDigest (dg_d g) (u32 (dg_b g + rotl32 sum (default 0 (md5_S !! i)))) (dg_b g) (dg_c g).

Definition md5_block (g : digest) (blk : bytes) : digest :=
  let X := (fun j => le_val (sub blk (4 * j) 4)) <$> seq 0 16 in
  let h := foldl (md5_step X) g (seq 0 64) in
  mkDigest (u32 (dg_a g + dg_a h)) (u32 (dg_b g + dg_b h)) (u32 (dg_c g + dg_c h)) (u32 (dg_d g + dg_d h)).

(** ** A message *)

(** A one bit, zeros up to 56 modulo 64, and the length in bits. *)
Definition md5_pad (msg : bytes) : bytes :=
  let n := length msg in
  msg ++ [Byte.x80] ++ zeros ((119 - n mod 64) mod 64) ++ le_bytes 8 (u64 (8 * Z.of_nat n)).

Definition md5_init : digest := mkDigest 0x67452301 0xefcdab89 0x98badcfe 0x10325476.

Definition md5_Sum (msg : bytes) : bytes :=
  let p := md5_pad msg in
  let g := foldl (fun g i => md5_block g (sub p (64 * i) 64)) md5_init (seq 0 (length p / 64)) in
  le_bytes 4 (dg_a g) ++ le_bytes 4 (dg_b g) ++ le_bytes 4 (dg_c g) ++ le_bytes 4 (dg_d g).

(** ** Hexadecimal *)

Definition hexDigit (z : Z) : byte := z2b (if z <? 10 then 48 + z else 87 + z).
Definition hex_EncodeToString (bs : bytes) : gostring :=
  mjoin ((fun b => [hexDigit (b2z b / 16); hexDigit (b2z b mod 16)]) <$> bs).

Definition lit (s : String.string) : gostring := String.list_byte_of_string s.

Example md5_empty : hex_EncodeToString (md5_Sum []) = lit "d41d8cd98f00b204e9800998ecf8427e".
Proof. vm_compute. reflexivity. Qed.
Example md5_abc : hex_EncodeToString (md5_Sum (lit "abc")) = lit "900150983cd24fb0d6963f7d28e17f72".
Proof. vm_compute. reflexivity. Qed.
Example md5_digits :
  hex_EncodeToString (md5_Sum (lit "12345678901234567890123456789012345678901234567890123456789012345678901234567890"))
  = lit "57edf4a22be3c955ac49da2e2107b67a".
Proof. vm_compute. reflexivity. Qed.

(** ** Lemmas *)

Lemma length_md5_Sum msg : length (md5_Sum msg) = 16%nat.
Proof. unfold md5_Sum. by rewrite !length_app, !length_le_bytes. Qed.

Lemma hex_cons b bs :
  hex_EncodeToString (b :: bs) = hexDigit (b2z b / 16) :: hexDigit (b2z b mod 16) :: hex_EncodeToString bs.
Proof. done. Qed.

Lemma length_hex_EncodeToString bs : length (hex_EncodeToString bs) = (2 * length bs)%nat.
Proof. induction bs as [|b bs IH]; [done|]. rewrite hex_cons. cbn [length]. lia. Qed.

Lemma hexDigit_val z : 0 ≤ z < 16 → b2z (hexDigit z) = if z <? 10 then 48 + z else 87 + z.
Proof. intros Hz. unfold hexDigit. rewrite b2z_z2b. apply Z.mod_small. destruct (z <? 10) eqn:E; bsplit; lia. Qed.

Lemma hexDigit_inj x y : 0 ≤ x < 16 → 0 ≤ y < 16 → hexDigit x = hexDigit y → x = y.
Proof.
  intros Hx Hy E. apply (f_equal b2z) in E. rewrite !hexDigit_val in E by done.
  destruct (x <? 10) eqn:E1, (y <? 10) eqn:E2; bsplit; lia.
Qed.

Lemma hex_EncodeToString_inj a b : hex_EncodeToString a = hex_EncodeToString b → a = b.
Proof.
  revert b. induction a as [|x a IH]; intros [|y b]; rewrite ?hex_cons; try done. intros [= E1 E2 E].
  f_equal; [|by apply IH]. pose proof (b2z_range x). pose proof (b2z_range y).
  apply hexDigit_inj in E1; [|split; [apply Z.div_pos; lia|apply Z.div_lt_upper_bound; lia]..].
  apply hexDigit_inj in E2; [|apply Z.mod_pos_bound; lia..].
  apply b2z_inj. rewrite (Z.div_mod (b2z x) 16), (Z.div_mod (b2z y) 16) by lia. congruence.
Qed.

(** A hexadecimal digit is a digit or a letter from a to f. *)
Lemma hex_EncodeToString_bytes bs b :
  b ∈ hex_EncodeToString bs → 48 ≤ b2z b ≤ 57 ∨ 97 ≤ b2z b ≤ 102.
Proof.
  unfold hex_EncodeToString. intros (l&Hb&(x&->&Hx)%list_elem_of_fmap)%list_elem_of_join. pose proof (b2z_range x).
  assert (∀ z, 0 ≤ z < 16 → 48 ≤ b2z (hexDigit z) ≤ 57 ∨ 97 ≤ b2z (hexDigit z) ≤ 102) as Hd.
  { intros z Hz. rewrite hexDigit_val by done. destruct (z <? 10) eqn:E; bsplit; lia. }
  apply elem_of_cons in Hb as [->|Hb]; [|apply elem_of_cons in Hb as [->|Hb]; [|by apply elem_of_nil in Hb]].
  - apply Hd. split; [apply Z.div_pos; lia|apply Z.div_lt_upper_bound; lia].
  - apply Hd, Z.mod_pos_bound. lia.
Qed.
