(* ===== verification/Path.v ===== *)
(** * File names (path.go, namespace.go, mmkv.go: registryKey) and path/filepath

    [Clean], [Join] and [Abs] are lexical in Go: a path is split at its slashes
    and the elements are kept on a stack, from which [..] takes the last one. *)

From S2P Require Import Prelude GoInt Md5.

#[local] Abbreviation slash := Byte.x2f.
Definition dot : gostring := [Byte.x2e].
Definition dotdot : gostring := [Byte.x2e; Byte.x2e].

(** ** path/filepath *)

(** The elements between the slashes. *)
Fixpoint elements (p : gostring) : list gostring :=
  match p with
  | [] => [[]]
  | c :: p =>
      let es := elements p in
      if decide (c = slash) then [] :: es else (c :: default [] (head es)) :: tail es
  end.

Definition IsAbs (p : gostring) : bool :=
  match p with c :: _ => bool_decide (c = slash) | [] => false end.

(** One element, onto the stack of those before it (the last one on top). *)
Definition cleanStep (rooted : bool) (stack : list gostring) (e : gostring) : list gostring :=
  if decide (e = [] ∨ e = dot) then stack
  else if decide (e = dotdot) then
    match stack with
    | top :: rest => if decide (top = dotdot) then e :: stack else rest
    | [] => if rooted then [] else [e]
    end
  else e :: stack.
Definition cleanFrom (rooted : bool) (stack : list gostring) (es : list gostring) : list gostring :=
  foldl (cleanStep rooted) stack es.

(** [strings.Join(es, slash)]. *)
Fixpoint joinSlash (es : list gostring) : gostring :=
  match es with
  | [] => []
  | [e] => e
  | e :: es => e ++ slash :: joinSlash es
  end.

Definition render (rooted : bool) (stack : list gostring) : gostring :=
  let body := joinSlash (rev stack) in
  if rooted then slash :: body else match stack with [] => dot | _ => body end.

Definition Clean (p : gostring) : gostring :=
  match p with
  | [] => dot
  | _ => render (IsAbs p) (cleanFrom (IsAbs p) [] (elements p))
  end.

(** Empty elements before the first other one are dropped. *)
Fixpoint Join (es : list gostring) : gostring :=
  match es with
  | [] => []
  | [] :: es => Join es
  | es => Clean (joinSlash es)
  end.

(** [filepath.Abs], given what os.Getwd returns. *)
Definition Abs (wd : option gostring) (p : gostring) : option gostring :=
  if IsAbs p then Some (Clean p)
  else match wd with Some wd => Some (Join [wd; p]) | None => None end.

Example Clean_doc : Clean (lit "a//b/./c/../d/") = lit "a/b/d".
Proof. reflexivity. Qed.
Example Clean_up : Clean (lit "../a/../../b") = lit "../../b".
Proof. reflexivity. Qed.
Example Clean_root : Clean (lit "/../a") = lit "/a".
Proof. reflexivity. Qed.
Example Clean_empty : Clean (lit "a/..") = dot.
Proof. reflexivity. Qed.

(** ** path.go *)

Definition specialCharDir : gostring := lit "specialCharacter".
(* the backslash, slash, colon, star, question mark, double quote, angle
   brackets and bar *)
Definition specialChars : list byte :=
  [Byte.x5c; Byte.x2f; Byte.x3a; Byte.x2a; Byte.x3f; Byte.x22; Byte.x3c; Byte.x3e; Byte.x7c].
Definition crcSuffix : gostring := lit ".crc".

Definition ContainsAny (s : gostring) (chars : list byte) : bool :=
  existsb (fun c => bool_decide (c ∈ chars)) s.

Definition encodeFilePath (mmapID : gostring) : gostring :=
  if ContainsAny mmapID specialChars
  then Join [specialCharDir; hex_EncodeToString (md5_Sum mmapID)]
  else mmapID.

Definition dataPathFor (rootDir mmapID : gostring) : gostring :=
  Join [rootDir; encodeFilePath mmapID].
(** [r.dataPath() + crcSuffix]. *)
Definition metaPathFor (rootDir mmapID : gostring) : gostring :=
  dataPathFor rootDir mmapID ++ crcSuffix.

(** ** mmkv.go *)

Definition registryKey (wd : option gostring) (rootDir mmapID : gostring) : gostring :=
  let p := dataPathFor rootDir mmapID in
  match Abs wd p with Some abs => abs | None => Clean p end.

(** ** namespace.go *)

Record NameSpace := mkNameSpace { ns_rootDir : gostring }.
Definition OpenNameSpace (rootDir : gostring) : NameSpace := mkNameSpace rootDir.
Definition RootDir (ns : NameSpace) : gostring := ns_rootDir ns.

Example plain_name : dataPathFor (lit "/tmp/kv/") (lit "normal_id") = lit "/tmp/kv/normal_id".
Proof. vm_compute. reflexivity. Qed.
Example special_name :
  dataPathFor (lit "kv") (lit "a/b") = lit "kv/specialCharacter/a7e86136543b019d72468ceebf71fb8e".
Proof. vm_compute. reflexivity. Qed.

(** ** Elements of a path *)

(** A file name: not empty, no slash, not the directory itself or its parent. *)
Definition is_name (e : gostring) : Prop := e ≠ [] ∧ e ≠ dot ∧ e ≠ dotdot ∧ slash ∉ e.

(** An element that [Clean] keeps. *)
Definition kept (e : gostring) : Prop := e ≠ [] ∧ e ≠ dot ∧ slash ∉ e.

Lemma name_kept e : is_name e → kept e.
Proof. intros (?&?&_&?). done. Qed.

Lemma elements_ne p : elements p ≠ [].
Proof. induction p as [|c p IH]; cbn; [done|]. by case_decide. Qed.

Lemma elements_cons_slash p : elements (slash :: p) = [] :: elements p.
Proof. cbn. by rewrite decide_True. Qed.

Lemma elements_name e : slash ∉ e → elements e = [e].
Proof.
  induction e as [|c e IH]; [done|]. intros [Hc He]%not_elem_of_cons. cbn.
  rewrite decide_False by done. by rewrite IH.
Qed.

Lemma elements_app_slash a b : elements (a ++ slash :: b) = elements a ++ elements b.
Proof.
  induction a as [|c a IH]; cbn [app]; [by rewrite elements_cons_slash|]. cbn [elements]. rewrite IH.
  case_decide; [done|]. pose proof (elements_ne a). by destruct (elements a).
Qed.

Lemma elements_join es :
  es ≠ [] → Forall (fun e => slash ∉ e) es → elements (joinSlash es) = es.
Proof.
  intros Hne Hes. induction Hes as [|e es He Hes IH]; [done|]. destruct es as [|e' es]; cbn [joinSlash].
  - by apply elements_name.
  - change (match es with [] => e' | _ => e' ++ slash :: joinSlash es end) with (joinSlash (e' :: es)).
    rewrite elements_app_slash, elements_name, IH by done. done.
Qed.

(** ** Cleaning *)

Lemma cleanStep_Forall (P : gostring → Prop) rooted st e :
  Forall P st → (e ≠ [] → e ≠ dot → P e) → Forall P (cleanStep rooted st e).
Proof.
  intros Hst He. unfold cleanStep. case_decide as H1; [done|]. assert (P e) as Hk by (apply He; naive_solver).
  case_decide as H3; [|by constructor]. destruct Hst as [|top rest Ht Hr].
  - destruct rooted; [done|]. by constructor.
  - case_decide; [|done]. constructor; [done|]. by constructor.
Qed.

Lemma elements_slashless p : Forall (fun e => slash ∉ e) (elements p).
Proof.
  induction p as [|c p IH]; cbn.
  { constructor; [by intros ?%elem_of_nil|done]. }
  case_decide as Hc.
  - constructor; [by intros ?%elem_of_nil|done].
  - destruct IH as [|e es He Hes]; cbn; (constructor; [|done]); intros [E|Hin]%elem_of_cons; try done.
    by apply elem_of_nil in Hin.
Qed.

Lemma cleanFrom_Forall (P : gostring → Prop) rooted st es :
  Forall P st → Forall (fun e => e ≠ [] → e ≠ dot → P e) es → Forall P (cleanFrom rooted st es).
Proof.
  intros Hst Hes. revert st Hst. induction Hes as [|e es He _ IH]; intros st Hst; [done|].
  by apply IH, cleanStep_Forall.
Qed.

Lemma cleanFrom_kept rooted st p : Forall kept st → Forall kept (cleanFrom rooted st (elements p)).
Proof.
  intros Hst. apply cleanFrom_Forall; [done|].
  eapply Forall_impl; [apply elements_slashless|]. by intros e ???.
Qed.

(** The stack of a path, and its own directory's: what [Clean] prints. *)
Definition stackOf (p : gostring) : list gostring := cleanFrom (IsAbs p) [] (elements p).

Lemma stackOf_kept p : Forall kept (stackOf p).
Proof. by apply cleanFrom_kept. Qed.

Lemma Clean_render p : Clean p = render (IsAbs p) (stackOf p).
Proof. destruct p; [|done]. reflexivity. Qed.

Lemma joinSlash_inj es es' :
  Forall kept es → Forall kept es' → joinSlash es = joinSlash es' → es = es'.
Proof.
  intros H1 H2 E.
  assert (∀ l, Forall kept l → Forall (fun e => slash ∉ e) l) as Hk
    by (intros l Hl; by eapply Forall_impl; [exact Hl|intros e (?&?&?)]).
  assert (∀ l, Forall kept l → joinSlash l = [] → l = []) as Hn.
  { intros l Hl Hj. destruct l as [|e l]; [done|]. exfalso. apply Forall_cons in Hl as [(He&_) _].
    destruct l; cbn in Hj; [done|]. by apply app_nil in Hj as [? _]. }
  destruct es as [|e es]; [symmetry; by apply Hn|]. destruct es' as [|e' es']; [by apply Hn|].
  rewrite <-(elements_join (e :: es)), <-(elements_join (e' :: es')) by (done || by apply Hk). by rewrite E.
Qed.

Lemma render_inj rooted st st' :
  Forall kept st → Forall kept st' → render rooted st = render rooted st' → st = st'.
Proof.
  intros H1 H2 E. assert (joinSlash (rev st) = joinSlash (rev st')) as Ej.
  { unfold render in E. destruct rooted; [by injection E|].
    assert (∀ l, Forall kept l → l ≠ [] → dot ≠ joinSlash (rev l)) as Hd.
    { intros l Hl Hne Ed. change dot with (joinSlash [dot]) in Ed.
      destruct (rev l) as [|e es] eqn:Er; [by apply (f_equal (@length byte)) in Ed|].
      assert (kept e) as (He1&He2&_).
      { eapply Forall_forall; [exact Hl|]. rewrite <-(rev_involutive l), Er. cbn [rev].
        apply elem_of_app. right. by apply list_elem_of_singleton. }
      destruct es as [|e' es]; cbn [joinSlash] in Ed; [done|].
      destruct e as [|c e]; [done|]. injection Ed as <- Ed. by destruct e. }
    destruct st as [|e st], st' as [|e' st']; [done| | |done].
    - by apply Hd in E.
    - symmetry in E. by apply Hd in E. }
  apply joinSlash_inj in Ej; [|by apply Forall_rev..].
  rewrite <-(rev_involutive st), Ej. apply rev_involutive.
Qed.

(** Cleaning a joined path continues from the first part's stack. *)
Lemma cleanFrom_app rooted st es es' : cleanFrom rooted st (es ++ es') = cleanFrom rooted (cleanFrom rooted st es) es'.
Proof. apply foldl_app. Qed.

Lemma cleanStep_skip rooted st e : e = [] ∨ e = dot → cleanStep rooted st e = st.
Proof. intros He. unfold cleanStep. by rewrite decide_True. Qed.
Lemma cleanStep_push rooted st e : e ≠ [] → e ≠ dot → e ≠ dotdot → cleanStep rooted st e = e :: st.
Proof. intros H1 H2 H3. unfold cleanStep. rewrite decide_False by (by intros []). by rewrite decide_False. Qed.
Lemma cleanStep_up rooted top st : top ≠ dotdot → cleanStep rooted (top :: st) dotdot = st.
Proof. intros Ht. unfold cleanStep. rewrite decide_False by (by intros []). by rewrite decide_True, decide_False. Qed.
Lemma cleanStep_upup rooted st : cleanStep rooted (dotdot :: st) dotdot = dotdot :: dotdot :: st.
Proof. done. Qed.

Lemma cleanFrom_name rooted st e : is_name e → cleanFrom rooted st [e] = e :: st.
Proof. intros (?&?&?&_). by apply cleanStep_push. Qed.

Lemma IsAbs_app a b : a ≠ [] → IsAbs (a ++ b) = IsAbs a.
Proof. by destruct a. Qed.

Lemma stackOf_join a b :
  a ≠ [] → stackOf (a ++ slash :: b) = cleanFrom (IsAbs a) (stackOf a) (elements b).
Proof.
  intros Ha. unfold stackOf. rewrite elements_app_slash, cleanFrom_app. by rewrite !IsAbs_app.
Qed.

Lemma cleanFrom_one rooted st e : cleanFrom rooted st [e] = cleanStep rooted st e.
Proof. done. Qed.

(** Cleaning twice: the elements of a clean relative path have the same effect
    as those it was cleaned from. *)
Lemma cleanFrom_clean rooted st es :
  cleanFrom rooted st (rev (cleanFrom false [] es)) = cleanFrom rooted st es.
Proof.
  induction es as [|e es IH] using rev_ind; [done|]. rewrite !cleanFrom_app, !cleanFrom_one, <-IH.
  assert (Forall (fun e => e ≠ [] ∧ e ≠ dot) (cleanFrom false [] es)) as HT
    by (apply cleanFrom_Forall; [done|]; by apply Forall_forall).
  destruct (decide (e = [] ∨ e = dot)) as [H1|H1]; [by rewrite !cleanStep_skip|].
  destruct (decide (e = dotdot)) as [->|H2]; [|rewrite !(cleanStep_push _ _ e) by naive_solver;
    cbn [rev]; by rewrite cleanFrom_app, cleanFrom_one, cleanStep_push by naive_solver].
  destruct HT as [|top T [Ht1 Ht2] _]; [done|].
  destruct (decide (top = dotdot)) as [->|Ht3].
  - rewrite cleanStep_upup. cbn [rev]. by rewrite !cleanFrom_app.
  - rewrite cleanStep_up by done. cbn [rev]. rewrite cleanFrom_app, cleanFrom_one.
    rewrite (cleanStep_push _ _ top) by done. by rewrite cleanStep_up.
Qed.

(** ** The data path *)

(** An identifier that names a file: not empty, not the directory or its parent. *)
Definition usable (mmapID : gostring) : Prop := mmapID ≠ [] ∧ mmapID ≠ dot ∧ mmapID ≠ dotdot.

Definition special (mmapID : gostring) : bool := ContainsAny mmapID specialChars.

(** The elements [encodeFilePath] adds to the root. *)
Definition fileElements (mmapID : gostring) : list gostring :=
  if special mmapID then [specialCharDir; hex_EncodeToString (md5_Sum mmapID)] else [mmapID].

Lemma ContainsAny_false s chars c : ContainsAny s chars = false → c ∈ chars → c ∉ s.
Proof.
  intros Hs Hc Hin. assert (ContainsAny s chars = true) as E; [|congruence].
  unfold ContainsAny. apply existsb_exists. exists c.
  split; [by apply list_elem_of_In|]. by apply bool_decide_eq_true_2.
Qed.

Lemma specialCharDir_name : is_name specialCharDir.
Proof.
  split_and!; try done. apply (ContainsAny_false _ [slash]); [done|]. by apply list_elem_of_singleton.
Qed.

Lemma hex_name id : is_name (hex_EncodeToString (md5_Sum id)).
Proof.
  pose proof (length_hex_EncodeToString (md5_Sum id)) as Hl. rewrite length_md5_Sum in Hl.
  split_and!; [intros E|intros E|intros E|]; try (rewrite E in Hl; done).
  intros [H|H]%hex_EncodeToString_bytes; change (b2z slash) with 47 in H; lia.
Qed.

Lemma fileElements_names id : usable id → Forall is_name (fileElements id).
Proof.
  intros (?&?&?). unfold fileElements, special. destruct (ContainsAny id specialChars) eqn:E.
  - constructor; [apply specialCharDir_name|]. constructor; [apply hex_name|done].
  - constructor; [|done]. split_and!; try done. apply (ContainsAny_false _ _ _ E), list_elem_of_In. cbn. tauto.
Qed.

Lemma cleanFrom_names rooted st es : Forall is_name es → cleanFrom rooted st es = rev es ++ st.
Proof.
  intros Hes. revert st. induction Hes as [|e es (?&?&?&_) _ IH]; intros st; [done|].
  cbn [rev]. rewrite <-app_assoc. cbn [app].
  change (cleanFrom rooted st (e :: es)) with (cleanFrom rooted (cleanStep rooted st e) es).
  by rewrite cleanStep_push, IH.
Qed.

Lemma Join_two a b : a ≠ [] → Join [a; b] = Clean (a ++ slash :: b).
Proof. by destruct a. Qed.
Lemma Clean_join a b :
  a ≠ [] → Clean (a ++ slash :: b) = render (IsAbs a) (cleanFrom (IsAbs a) (stackOf a) (elements b)).
Proof. intros Ha. by rewrite Clean_render, stackOf_join, IsAbs_app by done. Qed.

Lemma names_slashless es : Forall is_name es → Forall (fun e => slash ∉ e) es.
Proof. intros H. eapply Forall_impl; [exact H|]. by intros e (?&?&?&?). Qed.

Lemma encodeFilePath_elements id : usable id → encodeFilePath id = joinSlash (fileElements id).
Proof.
  intros Hu. unfold encodeFilePath, fileElements. fold (special id). destruct (special id); [|done].
  destruct specialCharDir_name as (Hne&_). rewrite Join_two, Clean_join by done.
  rewrite elements_name by apply hex_name. rewrite cleanFrom_name by apply hex_name. done.
Qed.

(** The data path: the root's stack with the file's elements on top. *)
Lemma dataPathFor_render root id :
  usable id → dataPathFor root id = render (IsAbs root) (rev (fileElements id) ++ stackOf root).
Proof.
  intros Hu. pose proof (fileElements_names id Hu) as Hn. unfold dataPathFor.
  rewrite encodeFilePath_elements by done.
  assert (fileElements id ≠ []) as Hne by (unfold fileElements; by destruct (special id)).
  pose proof (elements_join _ Hne (names_slashless _ Hn)) as He.
  destruct (decide (root = [])) as [->|Hr].
  - cbn [Join]. change (stackOf []) with (@nil gostring). rewrite app_nil_r.
    assert (∃ c p, joinSlash (fileElements id) = c :: p ∧ c ≠ slash) as (c&p&E&Hc).
    { destruct Hn as [|e es (He1&_&_&He2) _]; [done|]. destruct e as [|c e]; [done|].
      apply not_elem_of_cons in He2 as [? _]. exists c. destruct es; cbn; eauto. }
    rewrite E in *. change (joinSlash [c :: p]) with (c :: p).
    assert (IsAbs (c :: p) = false) as Ha by (by apply bool_decide_eq_false_2).
    rewrite Clean_render. unfold stackOf. rewrite Ha, He.
    by rewrite cleanFrom_names, app_nil_r by done.
  - rewrite Join_two, Clean_join, He by done. by rewrite cleanFrom_names.
Qed.

Lemma names_kept es : Forall is_name es → Forall kept es.
Proof. intros H. eapply Forall_impl; [exact H|]. apply name_kept. Qed.

Lemma file_stack_kept root id : usable id → Forall kept (rev (fileElements id) ++ stackOf root).
Proof.
  intros Hu. apply Forall_app. split; [|apply stackOf_kept].
  by apply Forall_rev, names_kept, fileElements_names.
Qed.

(** Different identifiers have different files, unless both are hashed and MD5
    collides on them. *)
Definition md5_collision (id1 id2 : gostring) : Prop :=
  id1 ≠ id2 ∧ special id1 = true ∧ special id2 = true ∧ md5_Sum id1 = md5_Sum id2.

Lemma fileElements_inj id1 id2 :
  fileElements id1 = fileElements id2 → id1 = id2 ∨ md5_collision id1 id2.
Proof.
  unfold fileElements. destruct (special id1) eqn:E1, (special id2) eqn:E2; try done.
  - intros E. apply (f_equal (fun l => nth 1 l [])) in E. cbn [nth] in E.
    apply hex_EncodeToString_inj in E. destruct (decide (id1 = id2)); [by left|].
    right. by split_and!.
  - intros [= E]. by left.
Qed.

Lemma dataPathFor_inj root id1 id2 :
  usable id1 → usable id2 → dataPathFor root id1 = dataPathFor root id2 →
  id1 = id2 ∨ md5_collision id1 id2.
Proof.
  intros H1 H2. rewrite !dataPathFor_render by done. intros E.
  apply render_inj in E; [|by apply file_stack_kept..]. apply app_inv_tail in E.
  apply fileElements_inj. rewrite <-(rev_involutive (fileElements id1)), E. apply rev_involutive.
Qed.

(** ** The registry key *)

(** The stack of the absolute directory. *)
Definition absStack (wd root : gostring) : list gostring :=
  if IsAbs root then stackOf root else cleanFrom true (stackOf wd) (elements root).

Lemma rooted_ne p : IsAbs p = true → p ≠ [].
Proof. by destruct p. Qed.

Lemma Abs_render wd root :
  IsAbs wd = true → Abs (Some wd) root = Some (render true (absStack wd root)).
Proof.
  intros Hw. unfold Abs, absStack. destruct (IsAbs root) eqn:Hr; f_equal.
  - by rewrite Clean_render, Hr.
  - by rewrite Join_two, Clean_join, Hw by (by apply rooted_ne).
Qed.

Lemma absStack_kept wd root : Forall kept (absStack wd root).
Proof. unfold absStack. destruct (IsAbs root); [apply stackOf_kept|apply cleanFrom_kept, stackOf_kept]. Qed.

(** A rendered relative stack, read back onto another stack. *)
Lemma elements_render st :
  Forall kept st → st ≠ [] → elements (render false st) = rev st.
Proof.
  intros Hk Hne. unfold render. destruct st as [|e st]; [done|]. apply elements_join.
  - cbn [rev]. by intros [_ ?]%app_nil.
  - apply Forall_rev. eapply Forall_impl; [exact Hk|]. by intros x (?&?&?).
Qed.

Lemma IsAbs_render st : Forall kept st → IsAbs (render false st) = false.
Proof.
  intros Hk. unfold render. destruct st as [|e st]; [done|]. apply Forall_rev in Hk.
  destruct (rev (e :: st)) as [|x l]; [done|]. apply Forall_cons in Hk as [(Hx&_&Hs) _].
  destruct x as [|c x]; [done|]. apply not_elem_of_cons in Hs as [Hs _].
  destruct l; cbn; by apply bool_decide_eq_false_2.
Qed.

(** No parent directories are left on a rooted stack. *)
Lemma cleanStep_rooted st e : Forall (fun x => x ≠ dotdot) st → Forall (fun x => x ≠ dotdot) (cleanStep true st e).
Proof.
  intros Hst. unfold cleanStep. case_decide; [done|]. case_decide; [|by constructor].
  destruct Hst as [|top rest Ht Hr]; [done|]. by rewrite decide_False.
Qed.
Lemma cleanFrom_rooted st es :
  Forall (fun x => x ≠ dotdot) st → Forall (fun x => x ≠ dotdot) (cleanFrom true st es).
Proof. revert st. induction es as [|e es IH]; intros st Hst; [done|]. by apply IH, cleanStep_rooted. Qed.

Lemma kept_names st : Forall kept st → Forall (fun x => x ≠ dotdot) st → Forall is_name st.
Proof.
  intros Hk Hd. apply Forall_forall. intros e He.
  destruct (proj1 (Forall_forall _ _) Hk e He) as (?&?&?). pose proof (proj1 (Forall_forall _ _) Hd e He). done.
Qed.

Lemma stackOf_names p : IsAbs p = true → Forall is_name (stackOf p).
Proof.
  intros Hp. apply kept_names; [apply stackOf_kept|]. unfold stackOf. rewrite Hp. by apply cleanFrom_rooted.
Qed.

(** A clean absolute path is its own. *)
Lemma stackOf_render st : Forall is_name st → stackOf (render true st) = st.
Proof.
  intros Hn. unfold render, stackOf. cbn [IsAbs]. rewrite bool_decide_eq_true_2 by done.
  rewrite elements_cons_slash. change (cleanFrom true [] ([] :: ?es)) with (cleanFrom true [] es).
  destruct (decide (st = [])) as [->|Hne]; [done|].
  rewrite elements_join.
  - rewrite cleanFrom_names by (by apply Forall_rev). by rewrite rev_involutive, app_nil_r.
  - intros E. apply Hne. by rewrite <-(rev_involutive st), E.
  - by apply names_slashless, Forall_rev.
Qed.

Lemma absStack_data wd root id :
  usable id → absStack wd (dataPathFor root id) = rev (fileElements id) ++ absStack wd root.
Proof.
  intros Hu. pose proof (fileElements_names id Hu) as Hn. pose proof (file_stack_kept root id Hu) as Hk.
  rewrite dataPathFor_render by done. unfold absStack. destruct (IsAbs root) eqn:Hr.
  - change (IsAbs (render true _)) with (bool_decide (slash = slash)).
    rewrite bool_decide_eq_true_2 by done. apply stackOf_render, Forall_app.
    split; [by apply Forall_rev|by apply stackOf_names].
  - rewrite IsAbs_render, elements_render by (done || (intros [E _]%app_nil;
      assert (fileElements id ≠ []) as Hne by (unfold fileElements; by destruct (special id));
      apply Hne; by rewrite <-(rev_involutive (fileElements id)), E)).
    rewrite rev_app_distr, rev_involutive, cleanFrom_app. unfold stackOf at 2. rewrite Hr, cleanFrom_clean.
    by apply cleanFrom_names.
Qed.

Lemma registryKey_render wd root id :
  IsAbs wd = true → usable id →
  registryKey (Some wd) root id = render true (rev (fileElements id) ++ absStack wd root).
Proof.
  intros Hw Hu. unfold registryKey. by rewrite Abs_render, absStack_data.
Qed.

(** Two identifiers of the same directory, however it is written, have the same
    key exactly when they have the same file name. *)
Lemma registryKey_same wd root1 root2 id1 id2 :
  IsAbs wd = true → usable id1 → usable id2 → Abs (Some wd) root1 = Abs (Some wd) root2 →
  registryKey (Some wd) root1 id1 = registryKey (Some wd) root2 id2
  ↔ encodeFilePath id1 = encodeFilePath id2.
Proof.
  intros Hw H1 H2. rewrite !Abs_render by done. intros [= Ea].
  apply joinSlash_inj in Ea; [|apply Forall_rev, absStack_kept..].
  assert (absStack wd root1 = absStack wd root2) as Es
    by (by rewrite <-(rev_involutive (absStack wd root1)), Ea, rev_involutive).
  rewrite !registryKey_render, Es, !encodeFilePath_elements by done. split; intros E.
  - apply render_inj in E; [|apply Forall_app; (split; [|apply absStack_kept]);
      by apply Forall_rev, names_kept, fileElements_names..].
    apply app_inv_tail in E. f_equal. by rewrite <-(rev_involutive (fileElements id1)), E, rev_involutive.
  - apply joinSlash_inj in E; [by rewrite E|by apply names_kept, fileElements_names..].
Qed.

Lemma encodeFilePath_inj id1 id2 :
  usable id1 → usable id2 → encodeFilePath id1 = encodeFilePath id2 → id1 = id2 ∨ md5_collision id1 id2.
Proof.
  intros H1 H2. rewrite !encodeFilePath_elements by done. intros E.
  apply joinSlash_inj in E; [|by apply names_kept, fileElements_names..]. by apply fileElements_inj.
Qed.

(** The name of the meta file of an identifier is the data file of another. *)
Lemma metaPath_is_dataPath root id :
  usable id → special id = false → dataPathFor root (id ++ crcSuffix) = metaPathFor root id.
Proof.
  intros Hu Hs. assert (special (id ++ crcSuffix) = false) as Hs'.
  { unfold special, ContainsAny in *. rewrite existsb_app, Hs. done. }
  assert (usable (id ++ crcSuffix)) as Hu'.
  { destruct Hu as (Hne&_). split_and!; intros E; apply (f_equal length) in E;
      rewrite length_app in E; cbn in E; lia. }
  unfold metaPathFor. rewrite !dataPathFor_render by done. unfold fileElements. rewrite Hs, Hs'. cbn [rev app].
  unfold render. cbn [rev].
  assert (∀ es e, joinSlash (es ++ [e ++ crcSuffix]) = joinSlash (es ++ [e]) ++ crcSuffix) as Hj.
  { induction es as [|e es IH]; intros x; [done|]. cbn [app].
    assert (∀ l y, joinSlash (e :: l ++ [y]) = e ++ slash :: joinSlash (l ++ [y])) as Hc by (by intros []).
    rewrite !Hc, IH, <-app_assoc. done. }
  rewrite Hj. by destruct (IsAbs root).
Qed.

(** ** The last element *)

Definition baseName (id : gostring) : gostring :=
  if special id then hex_EncodeToString (md5_Sum id) else id.

Lemma dataPathFor_last root id : usable id → last (elements (dataPathFor root id)) = Some (baseName id).
Proof.
  intros Hu. pose proof (file_stack_kept root id Hu) as Hk. rewrite dataPathFor_render by done.
  assert (∃ st, rev (fileElements id) ++ stackOf root = baseName id :: st) as [st E].
  { unfold fileElements, baseName. destruct (special id); cbn [rev app]; eauto. }
  rewrite E in *. destruct (IsAbs root).
  - unfold render. rewrite elements_cons_slash. cbn [rev]. rewrite elements_join.
    + rewrite last_cons, last_snoc. done.
    + by intros [_ ?]%app_nil.
    + change (Forall (fun e => slash ∉ e) (rev (baseName id :: st))). apply Forall_rev.
      eapply Forall_impl; [exact Hk|]. by intros x (?&?&?).
  - rewrite elements_render by done. cbn [rev]. apply last_snoc.
Qed.

(** A suffix without a slash goes to the last element. *)
Lemma last_element p : ∃ l, (slash ∉ l) ∧ (p = l ∨ ∃ q, p = q ++ slash :: l).
Proof.
  induction p as [|c p (l & Hl & Hp)]; [by exists []; split; [intros ?%elem_of_nil|left]|].
  destruct Hp as [->|[q ->]]; [|exists l; split; [done|right; by exists (c :: q)]].
  destruct (decide (c = slash)) as [->|Hc]; [exists l; split; [done|right; by exists []]|].
  exists (c :: l). split; [by apply not_elem_of_cons|by left].
Qed.

Lemma elements_suffix p s : slash ∉ s → last (elements (p ++ s)) = (fun e => e ++ s) <$> last (elements p).
Proof.
  intros Hs. destruct (last_element p) as (l & Hl & Hp).
  assert (slash ∉ l ++ s) as Hls by (by rewrite elem_of_app; intros [|]).
  destruct Hp as [->|[q ->]]; [by rewrite !elements_name|].
  rewrite <-app_assoc. cbn [app]. rewrite !elements_app_slash, (elements_name l), (elements_name (l ++ s)) by done. by rewrite !last_snoc.
Qed.
