(* ===== verification/LockCalls.v ===== *)
(** * What the package asks of the platform (lock_unix.go, lock_other.go)

    Five functions come in two versions, chosen when the package is built: on a
    POSIX system they call flock and mmap, elsewhere they are stubs.  A function
    that uses them is written against these classes; Files and Reader have the
    POSIX instances, over their own states, and the stubs are here. *)

From S2P Require Import Prelude.

Class FileLocks (S : Type) := {
  takeShared : M S unit;              (* flockShared *)
  takeExclusive : M S unit;           (* flockExclusive *)
  giveBack : M S unit;                (* flockUnlock, which returns no error *)
}.

Class FileMaps (S : Type) := {
  mapReadonly : Z → M S unit;         (* mmapReadonly, by the size of the file *)
  unmap : Z → M S unit;               (* munmap, by the length of the mapping *)
}.

Section stubs.
Context {S : Type}.

Definition noFlockShared : M S unit := fail ErrNeedsFlock.
Definition noFlockExclusive : M S unit := fail ErrNeedsFlock.
Definition noFlockUnlock : M S unit := mret tt.
Definition noMmapReadonly (size : Z) : M S unit := fail ErrNeedsMmap.
Definition noMunmap (n : Z) : M S unit := mret tt.

Definition otherLocks : FileLocks S :=
  {| takeShared := noFlockShared; takeExclusive := noFlockExclusive; giveBack := noFlockUnlock |}.
Definition otherMaps : FileMaps S := {| mapReadonly := noMmapReadonly; unmap := noMunmap |}.

End stubs.
