(* ===== verification/MemFile.v ===== *)
(** * System calls and the mapped file: memoryFile (memfile.go)

    The environment of an instance is [sys]: the results of the system calls to
    come (an empty list: every call succeeds), the clock, the random source and
    what the kernel holds for the instance's lock file.

    A [memoryFile] is an open file with a MAP_SHARED mapping: the mapping shows
    the bytes of the file, so the model keeps the bytes once, in [mf_file].
    Each mapping has a number; a slice of a mapping that is not the current one
    faults when it is read. *)

From S2P Require Import Prelude GoInt.

(** ** The environment *)

(** What flock(2) holds for the open file description. *)
Inductive lmode := Unheld | HeldShared | HeldExclusive.

#[local] Set Primitive Projections.

Record sys := mkSys {
  faults : list (option Z);   (* the errno of each system call to come *)
  now : Z;                    (* uint32(time.Now().Unix()) *)
  entropy : list bytes;       (* what crypto/rand returns *)
  held : lmode;
  changes : nat;              (* calls of the content-changed handler *)
}.

Definition set_faults (f : list (option Z)) (s : sys) : sys :=
  mkSys f (now s) (entropy s) (held s) (changes s).
Definition set_entropy (e : list bytes) (s : sys) : sys :=
  mkSys (faults s) (now s) e (held s) (changes s).
Definition set_held (h : lmode) (s : sys) : sys :=
  mkSys (faults s) (now s) (entropy s) h (changes s).
Definition set_now (t : Z) (s : sys) : sys := mkSys (faults s) t (entropy s) (held s) (changes s).
Definition set_changes (n : nat) (s : sys) : sys :=
  mkSys (faults s) (now s) (entropy s) (held s) n.

(** A system call that succeeds or fails with the next errno. *)
Definition syscall : M sys unit := fun s =>
  match faults s with
  | [] => (Ok tt, s)
  | None :: fs => (Ok tt, set_faults fs s)
  | Some e :: fs => (Err (ErrSys e), set_faults fs s)
  end.

(** No system call will fail. *)
Definition healthy (s : sys) : Prop := faults s = [].

Lemma syscall_healthy s : healthy s → syscall s = (Ok tt, s).
Proof. unfold healthy, syscall. by intros ->. Qed.

(** ** Mapped files *)

Record mapping := mkMapping { map_gen : nat; map_len : Z }.

Record memoryFile := mkMemFile {
  mf_open : bool;               (* f != nil *)
  mf_file : bytes;              (* the bytes of the file *)
  mf_data : option mapping;     (* data; None is nil *)
  mf_size : Z;
  mf_readOnly : bool;
  mf_gen : nat;                 (* the number of the next mapping *)
}.

#[local] Unset Primitive Projections.

Definition set_mf_file (f : bytes) (mf : memoryFile) : memoryFile :=
  mkMemFile (mf_open mf) f (mf_data mf) (mf_size mf) (mf_readOnly mf) (mf_gen mf).
Definition set_mf_data (d : option mapping) (mf : memoryFile) : memoryFile :=
  mkMemFile (mf_open mf) (mf_file mf) d (mf_size mf) (mf_readOnly mf) (mf_gen mf).
Definition set_mf_open (o : bool) (mf : memoryFile) : memoryFile :=
  mkMemFile o (mf_file mf) (mf_data mf) (mf_size mf) (mf_readOnly mf) (mf_gen mf).

(** [mf.data = data; mf.size = size] after a successful mmap of [size] bytes. *)
Definition install (size : Z) (mf : memoryFile) : memoryFile :=
  mkMemFile (mf_open mf) (mf_file mf) (Some (mkMapping (mf_gen mf) size)) size
    (mf_readOnly mf) (S (mf_gen mf)).

Definition memory (mf : memoryFile) : bytes :=
  match mf_data mf with
  | None => []
  | Some mp => take (Z.to_nat (map_len mp)) (mf_file mf)
  end.
Definition fileSize (mf : memoryFile) : Z := mf_size mf.

(** ftruncate(2): cut, or extend with zeros. *)
Definition resize (n : nat) (l : bytes) : bytes := take n l ++ zeros (n - length l).

Class Platform := {
  pagesize : Z;                 (* unix.Getpagesize() *)
  pagesize_ge : 8 ≤ pagesize;
}.

(** The state of a memoryFile method: the struct and the environment. *)
Abbreviation MF := (M (memoryFile * sys)).

Definition mfSys {A} (c : M sys A) : MF A := zoom snd (fun s p => (p.1, s)) c.
Definition mfSet (f : memoryFile → memoryFile) : MF unit := modify (fun p => (f p.1, p.2)).

Section memfile.
Context `{Platform}.

Definition pageRoundUp (n : Z) : Z :=
  let p := pagesize in
  if n <=? p then p else (n + p - 1) / p * p.

(** The state is the file at the path, [None] when there is none, and the
    environment. *)
Definition openMemoryFile (minSize : Z) : M (option bytes * sys) memoryFile :=
  let call := zoom snd (fun s p => (p.1, s)) syscall in
  _ ← call;                                                     (* open *)
  _ ← modify (fun p => (Some (default [] p.1), p.2));           (* O_CREATE *)
  _ ← call;                                                     (* fstat *)
  p ← get;
  let file := default [] p.1 in
  let size := len file in
  let want := pageRoundUp minSize in
  size ← (if size <? want then
            _ ← call;                                           (* ftruncate *)
            _ ← modify (fun p => (Some (resize (Z.to_nat want) file), p.2));
            mret want
          else mret size);
  _ ← call;                                                     (* mmap *)
  p ← get;
  mret (mkMemFile true (default [] p.1) (Some (mkMapping 0 size)) size false 1).

Definition openMemoryFileReadOnly : M (option bytes * sys) memoryFile :=
  let call := zoom snd (fun s p => (p.1, s)) syscall in
  _ ← call;                                                     (* open *)
  p ← get;
  match p.1 with
  | None => fail ErrNotExist
  | Some file =>
      _ ← call;                                                 (* fstat *)
      if len file <=? 0 then fail ErrEmptyFile
      else
        _ ← call;                                               (* mmap *)
        mret (mkMemFile true file (Some (mkMapping 0 (len file))) (len file) true 1)
  end.

Definition truncate (newSize : Z) : MF unit :=
  p ← get;
  let want := pageRoundUp newSize in
  if want =? mf_size p.1 then mret tt
  else
    _ ← mfSys syscall;                                          (* ftruncate *)
    _ ← mfSet (fun mf => set_mf_file (resize (Z.to_nat want) (mf_file mf)) mf);
    _ ← (match mf_data p.1 with
         | None => mret tt
         | Some _ => _ ← mfSys syscall; mfSet (set_mf_data None) (* munmap *)
         end);
    _ ← mfSys syscall;                                          (* mmap *)
    mfSet (install want).

(** mmap(2) refuses a length of 0. *)
Definition EINVAL : Z := 22.

Definition remap : MF unit :=
  _ ← mfSys syscall;                                            (* fstat *)
  p ← get;
  let size := len (mf_file p.1) in
  if (size =? mf_size p.1) && (match mf_data p.1 with Some _ => true | None => false end)
  then mret tt
  else
    _ ← (match mf_data p.1 with
         | None => mret tt
         | Some _ => _ ← mfSys syscall; mfSet (set_mf_data None) (* munmap *)
         end);
    _ ← (if size =? 0 then fail (ErrSys EINVAL) else mfSys syscall); (* mmap *)
    mfSet (install size).

(** MS_SYNC and MS_ASYNC differ in what a crash of the machine leaves on the disk,
    which is not modelled: a file holds what was written to its mapping. *)
Definition msync (sync : bool) : MF unit := mfSys syscall.

(** Both releases are tried; the first error is returned. *)
Definition mf_close : MF unit :=
  p ← get;
  let step (c : bool) (f : memoryFile → memoryFile) : MF (option error) :=
    if c then fun q => match mfSys syscall q with
                       | (Err e, q') => (Ok (Some e), (f q'.1, q'.2))
                       | (_, q') => (Ok None, (f q'.1, q'.2))
                       end
    else mret None in
  e1 ← step (match mf_data p.1 with Some _ => true | None => false end) (set_mf_data None);
  e2 ← step (mf_open p.1) (set_mf_open false);
  match e1, e2 with
  | Some e, _ => fail e
  | None, Some e => fail e
  | None, None => mret tt
  end.

End memfile.

(** ** Reading and writing the mapping *)

(** [copy(mem[off:off+len(bs)], bs)]; a write to a read-only mapping faults. *)
Definition poke (mf : memoryFile) (off : Z) (bs : bytes) : outcome memoryFile :=
  if mf_readOnly mf then Panic
  else
    _ ← slice (memory mf) off (off + len bs);
    Ok (set_mf_file (splice (mf_file mf) (Z.to_nat off) bs) mf).

(** [copy(mem[off:], bs)]: as many bytes as fit. *)
Definition copyAt (mf : memoryFile) (off : Z) (bs : bytes) : outcome (memoryFile * Z) :=
  _ ← slice (memory mf) off (len (memory mf));
  let n := Z.min (len (memory mf) - off) (len bs) in
  mf' ← poke mf off (take (Z.to_nat n) bs);
  Ok (mf', n).

(** A []byte value of the dictionary: its own buffer, or a view of a mapping. *)
Inductive gslice :=
  | Heap (bs : bytes)
  | Mapped (gen off n : nat).

Definition slice_len (s : gslice) : Z :=
  match s with Heap bs => len bs | Mapped _ _ n => Z.of_nat n end.

(** [s[lo:hi]] inside [s]. *)
Definition subslice (s : gslice) (lo hi : nat) : gslice :=
  match s with
  | Heap bs => Heap (sub bs lo (hi - lo))
  | Mapped g off _ => Mapped g (off + lo) (hi - lo)
  end.

(** Reading the bytes of a slice: a view of an unmapped mapping faults. *)
Definition deref (mf : memoryFile) (s : gslice) : outcome bytes :=
  match s with
  | Heap bs => Ok bs
  | Mapped g off n =>
      match mf_data mf with
      | Some mp =>
          if (g =? map_gen mp)%nat
          then slice (memory mf) (Z.of_nat off) (Z.of_nat off + Z.of_nat n)
          else Panic
      | None => Panic
      end
  end.

(** ** The mapped file invariant *)

(** The file is mapped, and as a whole. *)
Record mf_ok (mf : memoryFile) : Prop := {
  mf_ok_data : ∃ g, mf_data mf = Some (mkMapping g (mf_size mf));
  mf_ok_size : mf_size mf = len (mf_file mf);
}.

Lemma memory_ok mf : mf_ok mf → memory mf = mf_file mf.
Proof.
  intros [[g Hd] Hs]. unfold memory. rewrite Hd. cbn [map_len]. rewrite Hs, Nat2Z.id.
  apply firstn_all.
Qed.

Lemma mf_ok_set_file mf f : mf_ok mf → length f = length (mf_file mf) → mf_ok (set_mf_file f mf).
Proof. intros [Hd Hs] Hl. split; [done|]. cbn. by rewrite Hl. Qed.

Lemma poke_ok mf off bs :
  mf_ok mf → mf_readOnly mf = false → 0 ≤ off → off + len bs ≤ len (mf_file mf) →
  poke mf off bs = Ok (set_mf_file (splice (mf_file mf) (Z.to_nat off) bs) mf).
Proof.
  intros Hok Hr H0 Hl. unfold poke. rewrite Hr, memory_ok by done.
  by rewrite slice_ok by lia.
Qed.

Lemma poke_mf_ok mf off bs :
  mf_ok mf → 0 ≤ off → off + len bs ≤ len (mf_file mf) →
  mf_ok (set_mf_file (splice (mf_file mf) (Z.to_nat off) bs) mf).
Proof. intros Hok H0 Hl. apply mf_ok_set_file; [done|]. apply length_splice. lia. Qed.

(** A copy that fits is a whole copy. *)
Lemma copyAt_ok mf off bs :
  mf_ok mf → mf_readOnly mf = false → 0 ≤ off → off + len bs ≤ len (mf_file mf) →
  copyAt mf off bs = Ok (set_mf_file (splice (mf_file mf) (Z.to_nat off) bs) mf, len bs).
Proof.
  intros Hok Hr H0 Hl. unfold copyAt. rewrite memory_ok by done.
  rewrite slice_ok by lia. cbn [mbind outcome_bind].
  rewrite Z.min_r by lia. rewrite Nat2Z.id, firstn_all.
  by rewrite poke_ok.
Qed.

Lemma deref_mapped mf g off n :
  mf_data mf = Some (mkMapping g (mf_size mf)) → mf_ok mf →
  (off + n ≤ length (mf_file mf))%nat → deref mf (Mapped g off n) = Ok (sub (mf_file mf) off n).
Proof.
  intros Hd Hok Hl. unfold deref. rewrite Hd, memory_ok by done. cbn [map_gen].
  rewrite Nat.eqb_refl, slice_ok by lia. do 2 f_equal; lia.
Qed.

Lemma length_resize n l : length (resize n l) = n.
Proof. unfold resize. rewrite length_app, length_take, length_zeros. lia. Qed.

Lemma resize_same l : resize (length l) l = l.
Proof. unfold resize. rewrite firstn_all, Nat.sub_diag. apply app_nil_r. Qed.

(** A resized file shows its old bytes, then zeros. *)
Lemma lookup_resize n l i : (i < n)%nat → resize n l !! i = Some (default Byte.x00 (l !! i)).
Proof.
  intros Hi. unfold resize. destruct (decide (i < length l)%nat) as [Hl|Hl].
  - destruct (lookup_lt_is_Some_2 l i Hl) as [x Hx].
    rewrite lookup_app_l by (rewrite length_take; lia). rewrite lookup_take_lt, Hx by done. done.
  - rewrite lookup_app_r by (rewrite length_take; lia). rewrite (lookup_ge_None_2 l i) by lia.
    unfold zeros. rewrite lookup_replicate_2; [done|]. rewrite length_take. lia.
Qed.

Lemma syscall_returns s : ∃ s', syscall s = (Ok tt, s') ∨ ∃ e, syscall s = (Err (ErrSys e), s').
Proof. unfold syscall. destruct (faults s) as [|[e|] fs]; eauto. Qed.

(** Closing releases the mapping and the descriptor, whatever fails. *)
Lemma mf_close_releases mf s :
  ∃ o mf' s', mf_close (mf, s) = (o, (mf', s')) ∧ mf_data mf' = None ∧ mf_open mf' = false
    ∧ (o = Ok tt ∨ ∃ e, o = Err (ErrSys e)) ∧ (healthy s → o = Ok tt).
Proof.
  unfold mf_close, mbind, M_bind, get, mret, M_ret, mfSys, zoom. cbn [fst snd].
  destruct mf as [op f [d|] sz ro g]; destruct op; cbn [mf_data mf_open fst snd set_mf_data set_mf_open].
  all: destruct (syscall_returns s) as (s1&[H1|[e1 H1]]); rewrite ?H1; cbn [fst snd].
  all: try destruct (syscall_returns s1) as (s2&[H2|[e2 H2]]); rewrite ?H2; cbn [fst snd].
  all: do 3 eexists; split; [reflexivity|]; split_and!; try done; eauto.
  all: intros Hs; rewrite syscall_healthy in H1 by done; simplify_eq; rewrite ?syscall_healthy in H2 by done; done.
Qed.

Section memfile_lemmas.
Context `{Platform}.

Lemma pageRoundUp_ge n : n ≤ pageRoundUp n.
Proof.
  unfold pageRoundUp. pose proof pagesize_ge as Hp. revert Hp. generalize pagesize. intros p Hp.
  destruct (n <=? p) eqn:E; bsplit; [done|].
  pose proof (Z.div_mod (n + p - 1) p ltac:(lia)).
  pose proof (Z.mod_pos_bound (n + p - 1) p ltac:(lia)). lia.
Qed.

Lemma pageRoundUp_min n : pagesize ≤ pageRoundUp n.
Proof.
  pose proof (pageRoundUp_ge n). unfold pageRoundUp in *.
  destruct (n <=? pagesize) eqn:E; bsplit; lia.
Qed.

Lemma pageRoundUp_divide n : (pagesize | pageRoundUp n).
Proof.
  unfold pageRoundUp. destruct (n <=? pagesize); [apply Z.divide_refl|apply Z.divide_factor_r].
Qed.

(** The least multiple of the page that holds [n] bytes. *)
Lemma pageRoundUp_least n k : 0 < k → n ≤ k * pagesize → pageRoundUp n ≤ k * pagesize.
Proof.
  intros Hk Hn. pose proof pagesize_ge. unfold pageRoundUp.
  destruct (n <=? pagesize) eqn:E; bsplit; [nia|].
  apply Z.mul_le_mono_nonneg_r; [lia|].
  apply Z.lt_succ_r. apply Z.div_lt_upper_bound; lia.
Qed.

Lemma pageRoundUp_mono x y : x ≤ y → pageRoundUp x ≤ pageRoundUp y.
Proof.
  intros Hxy. pose proof (pageRoundUp_min y) as Hmin. pose proof (pageRoundUp_ge y) as Hge.
  pose proof pagesize_ge. destruct (pageRoundUp_divide y) as [k Hk]. rewrite Hk in *.
  apply pageRoundUp_least; nia.
Qed.

(** With no system call failing, [truncate] resizes the file to whole pages
    and maps it again. *)
Lemma truncate_ok mf s n :
  mf_ok mf → healthy s →
  ∃ mf', truncate n (mf, s) = (Ok tt, (mf', s)) ∧ mf_ok mf'
    ∧ mf_file mf' = resize (Z.to_nat (pageRoundUp n)) (mf_file mf)
    ∧ mf_size mf' = pageRoundUp n ∧ mf_readOnly mf' = mf_readOnly mf.
Proof.
  intros Hok Hs. pose proof Hok as [[g Hd] Hsz].
  pose proof (pageRoundUp_min n). pose proof pagesize_ge.
  unfold truncate, mbind, M_bind, get. cbn [fst snd].
  destruct (pageRoundUp n =? mf_size mf) eqn:E; bsplit.
  - exists mf. split_and!; [done|done| |done|done]. rewrite E, Hsz, Nat2Z.id.
    by rewrite resize_same.
  - unfold mfSys, zoom, mfSet, modify. cbn [fst snd]. rewrite Hd, syscall_healthy by done.
    cbn [fst snd]. rewrite syscall_healthy by done. cbn [fst snd]. rewrite syscall_healthy by done.
    eexists. split; [done|]. split; [|done]. cbn [fst snd]. split; cbn; [eauto|].
    rewrite length_resize. lia.
Qed.

(** The file as [openMemoryFile] leaves it: at least [n] bytes, in whole pages
    when it had to grow. *)
Definition padded (n : Z) (file : bytes) : bytes :=
  if len file <? pageRoundUp n then resize (Z.to_nat (pageRoundUp n)) file else file.

Lemma padded_len n file : pageRoundUp n ≤ len (padded n file).
Proof.
  unfold padded. pose proof (pageRoundUp_min n). pose proof pagesize_ge.
  destruct (_ <? _) eqn:E; bsplit; [|done]. rewrite length_resize. lia.
Qed.

Lemma padded_id n file : pageRoundUp n ≤ len file → padded n file = file.
Proof. intros Hl. unfold padded. by bfalse. Qed.

Lemma openMemoryFile_ok n f s :
  healthy s →
  ∃ mf, openMemoryFile n (f, s) = (Ok mf, (Some (padded n (default [] f)), s))
    ∧ mf_ok mf ∧ mf_file mf = padded n (default [] f) ∧ mf_readOnly mf = false.
Proof.
  intros Hs. unfold openMemoryFile, mbind, M_bind, zoom, modify, get, mret, M_ret. cbn [fst snd].
  rewrite syscall_healthy by done. cbn [fst snd]. rewrite syscall_healthy by done.
  cbn [fst snd default id].
  unfold padded. pose proof (pageRoundUp_min n). pose proof pagesize_ge.
  destruct (len (default [] f) <? pageRoundUp n) eqn:E; bsplit.
  - repeat (rewrite syscall_healthy by done; cbn [fst snd default id]).
    eexists. split; [done|]. split; [|done]. split; cbn; [eauto|]. rewrite length_resize. lia.
  - repeat (rewrite syscall_healthy by done; cbn [fst snd default id]).
    eexists. split; [done|]. split; [|done]. split; cbn; eauto.
Qed.

Lemma msync_ok mf s b : healthy s → msync b (mf, s) = (Ok tt, (mf, s)).
Proof. intros Hs. unfold msync, mfSys, zoom. cbn [fst snd]. by rewrite syscall_healthy. Qed.

End memfile_lemmas.
