(* ===== verification/Files.v ===== *)
(** * Files by name (backup.go, mmkv_ns.go)

    The file system as these functions use it: names, the inodes they refer to,
    and the bytes of the inodes.  A name refers to at most one inode and an inode
    has at most one name; an inode without a name lives on, as an open file does.
    Directories are not modelled: making one is a system call that may fail.

    Flock on a descriptor of the meta file is a system call that may fail and
    otherwise returns when the lock is granted. *)

From S2P Require Import Prelude GoInt Wire Crc32 Meta Dict Md5 Path LockCalls MemFile.

Record fs := mkFs {
  names : kmap nat;
  inodes : gmap nat bytes;
  nextIno : nat;
}.

Record fs_ok (f : fs) : Prop := {
  fs_named p i : names f !! p = Some i → is_Some (inodes f !! i) ∧ (i < nextIno f)%nat;
  fs_single p q i : names f !! p = Some i → names f !! q = Some i → p = q;
  fs_fresh i : (nextIno f ≤ i)%nat → inodes f !! i = None;
}.

(** What reading the file at a path gives. *)
Definition content (f : fs) (p : gostring) : option bytes :=
  match names f !! p with Some i => inodes f !! i | None => None end.

Definition set_inode (i : nat) (b : bytes) (f : fs) : fs := mkFs (names f) (<[i := b]> (inodes f)) (nextIno f).
Definition link (p : gostring) (b : bytes) (f : fs) : fs :=
  mkFs (<[p := nextIno f]> (names f)) (<[nextIno f := b]> (inodes f)) (S (nextIno f)).
Definition unlink (p : gostring) (f : fs) : fs := mkFs (delete p (names f)) (inodes f) (nextIno f).

Abbreviation FS := (M (fs * sys)).
Definition fsCall : FS unit := zoom snd (fun e q => (q.1, e)) syscall.
Definition fsSet (g : fs → fs) : FS unit := modify (fun q => (g q.1, q.2)).

(** ** os *)

(** os.Open, and os.Stat, which only asks. *)
Definition Open (p : gostring) : FS nat :=
  _ ← fsCall;
  q ← get;
  match names q.1 !! p with None => fail ErrNotExist | Some i => mret i end.
Definition Stat (p : gostring) : FS unit := _ ← Open p; mret tt.

(** O_CREATE: the file at the path, an empty one when there is none; and with
    O_TRUNC (os.Create), which keeps the inode. *)
Definition OpenCreate (p : gostring) : FS nat :=
  _ ← fsCall;
  q ← get;
  match names q.1 !! p with
  | Some i => mret i
  | None => _ ← fsSet (link p []); mret (nextIno q.1)
  end.
Definition Create (p : gostring) : FS nat :=
  i ← OpenCreate p;
  _ ← fsSet (set_inode i []);
  mret i.

Definition inodeBytes (i : nat) : FS bytes := q ← get; mret (default [] (inodes q.1 !! i)).

Definition ReadFile (p : gostring) : FS bytes := i ← Open p; inodeBytes i.

Definition Remove (p : gostring) : FS unit :=
  _ ← fsCall;
  q ← get;
  match names q.1 !! p with None => fail ErrNotExist | Some _ => fsSet (unlink p) end.

(** io.Copy of a file into another: rounds of a read and a write of at most
    [copyBuffer] bytes, until a read returns none.  The fuel is the size of the
    source and one ([copyLoop_ok]). *)
Definition copyBuffer : nat := Z.to_nat 32768.

Fixpoint copyLoop (fuel : nat) (out inp : nat) (off : nat) : FS unit :=
  match fuel with
  | O => lift NoFuel
  | S fuel =>
      _ ← fsCall;                                                 (* read *)
      b ← inodeBytes inp;
      let chunk := sub b off copyBuffer in
      if decide (chunk = []) then mret tt
      else
        _ ← fsCall;                                               (* write *)
        o ← inodeBytes out;
        _ ← fsSet (set_inode out (take off o ++ chunk ++ drop (off + length chunk) o));
        copyLoop fuel out inp (off + length chunk)
  end.

Definition Copy (out inp : nat) : FS unit :=
  b ← inodeBytes inp; copyLoop (S (length b)) out inp 0.

(** A deferred or ignored Close. *)
Definition closeQuiet : FS unit := ignore fsCall.

(** ** backup.go *)

(** [if err := c(); err != nil { out.Close(); return err }; return out.Close()]. *)
Definition thenClose (c : FS unit) : FS unit := fun q =>
  match c q with
  | (Ok _, q') => fsCall q'
  | (Err e, q') => (_ ← closeQuiet; fail e) q'
  | r => r
  end.

Definition copyFile (src dst : gostring) : FS unit :=
  inp ← Open src;
  deferring closeQuiet (
    out ← Create dst;
    thenClose (Copy out inp)).

(** flockShared and flockExclusive; the deferred flockUnlock; os.MkdirAll. *)
Definition flockFile : FS unit := fsCall.
Definition unlockFile : FS unit := closeQuiet.
#[global] Instance unixFileLocks : FileLocks (fs * sys) :=
  {| takeShared := flockFile; takeExclusive := flockFile; giveBack := unlockFile |}.
Definition MkdirAll : FS unit := fsCall.

(** Data first, then the meta file. *)
Definition copyPair (src dst : gostring) : FS unit :=
  _ ← copyFile src dst;
  copyFile (src ++ crcSuffix) (dst ++ crcSuffix).

Section backup.
Context `{FileLocks (fs * sys)}.

Definition BackupOne (rootDir mmapID dstDir : gostring) : FS unit :=
  let src := dataPathFor rootDir mmapID in
  let dst := dataPathFor dstDir mmapID in
  _ ← Open (src ++ crcSuffix);
  deferring closeQuiet (
    _ ← takeShared;
    deferring giveBack (
      _ ← MkdirAll;
      copyPair src dst)).

End backup.

(** The files' half of RestoreOneFromDirectory; the instance is told afterwards. *)
Definition restoreFiles (rootDir mmapID srcDir : gostring) : FS unit :=
  let src := dataPathFor srcDir mmapID in
  let dst := dataPathFor rootDir mmapID in
  _ ← Stat src;
  _ ← MkdirAll;
  _ ← OpenCreate (dst ++ crcSuffix);
  deferring closeQuiet (
    _ ← flockFile;
    deferring unlockFile (copyPair src dst)).

(** ** mmkv_ns.go *)

(** An error is only looked at. *)
Definition succeeds {A} (c : FS A) : FS bool := fun q =>
  match c q with
  | (Ok _, q') => (Ok true, q')
  | (Err _, q') => (Ok false, q')
  | (Panic, q') => (Panic, q')
  | (NoFuel, q') => (NoFuel, q')
  end.

Definition CheckExist (rootDir mmapID : gostring) : FS bool :=
  let dp := dataPathFor rootDir mmapID in
  ok ← succeeds (Stat dp);
  if (ok : bool) then succeeds (Stat (dp ++ crcSuffix)) else mret false.

(** The checks of IsFileValid on what it read: [data[4 : 4+actual]] is bounded by
    a uint32. *)
Definition metaUsable (metaBuf : bytes) : option metaInfo :=
  match parseMeta metaBuf with
  | Ok mi => if maxSupportedVersion <? mi_version mi then None else Some mi
  | _ => None
  end.
Definition dataValid (mi : metaInfo) (data : bytes) : outcome bool :=
  let actual :=
    if versionActualSize <=? mi_version mi then mi_actualSize mi
    else if 4 <=? len data then le_val (sub data 0 4) else 0 in
  if len data <? actual + 4 then Ok false
  else
    region ← slice data 4 (u32 (4 + actual));
    Ok (crc32_ChecksumIEEE region =? mi_crcDigest mi).

(** The bytes of a file, [None] when it cannot be read. *)
Definition tryRead (p : gostring) : FS (option bytes) := fun q =>
  match ReadFile p q with
  | (Ok b, q') => (Ok (Some b), q')
  | (Err _, q') => (Ok None, q')
  | (Panic, q') => (Panic, q')
  | (NoFuel, q') => (NoFuel, q')
  end.

Definition IsFileValid (rootDir mmapID : gostring) : FS bool :=
  let dp := dataPathFor rootDir mmapID in
  metaBuf ← tryRead (dp ++ crcSuffix);
  match metaBuf ≫= metaUsable with
  | None => mret false
  | Some mi =>
      data ← tryRead dp;
      match data with
      | None => mret false
      | Some data => lift (dataValid mi data)
      end
  end.

(** The unlinking half of RemoveStorage: both are tried; a missing file is no
    error. *)
Definition IsNotExist (e : error) : bool := bool_decide (e = ErrNotExist ∨ e = ErrSys 2).   (* ENOENT *)
Definition removeErr (c : FS unit) : FS (option error) := fun q =>
  match c q with
  | (Ok _, q') => (Ok None, q')
  | (Err e, q') => (Ok (if IsNotExist e then None else Some e), q')
  | (Panic, q') => (Panic, q')
  | (NoFuel, q') => (NoFuel, q')
  end.
Definition removeFiles (rootDir mmapID : gostring) : FS unit :=
  let dp := dataPathFor rootDir mmapID in
  e1 ← removeErr (Remove dp);
  e2 ← removeErr (Remove (dp ++ crcSuffix));
  match e1, e2 with
  | Some e, _ => fail e
  | None, Some e => fail e
  | None, None => mret tt
  end.

(** ** What a function may change *)

(** Only the files at [ps] differ; every name keeps its inode. *)
Record updated (ps : list gostring) (f f' : fs) : Prop := {
  up_ok : fs_ok f';
  up_names p i : names f !! p = Some i → names f' !! p = Some i;
  up_other p : p ∉ ps → names f' !! p = names f !! p;
  up_inodes i : (∀ p, p ∈ ps → names f' !! p ≠ Some i) → inodes f' !! i = inodes f !! i;
}.

Lemma updated_refl ps f : fs_ok f → updated ps f f.
Proof. by split. Qed.

Lemma updated_trans ps f1 f2 f3 : updated ps f1 f2 → updated ps f2 f3 → updated ps f1 f3.
Proof.
  intros [H1 N1 O1 I1] [H2 N2 O2 I2]. split; [done|by auto| |].
  - intros p Hp. by rewrite O2, O1.
  - intros i Hi. rewrite I2, I1; [done| |done]. intros p Hp Hn. by apply (Hi p Hp), N2.
Qed.

Lemma updated_weaken ps qs f f' : ps ⊆ qs → updated ps f f' → updated qs f f'.
Proof. intros Hs [H N O I]. split; auto. Qed.

Lemma updated_content ps f f' p : updated ps f f' → p ∉ ps → content f' p = content f p.
Proof.
  intros [H N O I] Hp. unfold content. rewrite O by done. destruct (names f !! p) as [i|] eqn:E; [|done].
  apply I. intros q Hq Hn. apply N in E. pose proof (fs_single _ H _ _ _ E Hn). by subst.
Qed.

(** The file at [p] gets the bytes [b], in its inode or in a new one. *)
Definition written (p : gostring) (b : bytes) (f : fs) : fs :=
  match names f !! p with Some i => set_inode i b f | None => link p b f end.

Lemma written_updated p b f : fs_ok f → updated [p] f (written p b f).
Proof.
  intros [Hn Hs Hf]. unfold written. destruct (names f !! p) as [i|] eqn:E; split; cbn [names inodes set_inode link].
  - split; cbn [names inodes set_inode nextIno]; [|done|].
    + intros q j Hq. destruct (Hn q j Hq) as [H1 H2]. split; [|done].
      destruct (decide (i = j)) as [->|Hij]; [by rewrite lookup_insert_eq|by rewrite lookup_insert_ne].
    + intros j Hj. destruct (Hn p i E) as [_ Hi]. rewrite lookup_insert_ne by lia. by apply Hf.
  - done.
  - done.
  - intros j Hj. rewrite lookup_insert_ne; [done|]. intros <-. apply (Hj p); [by apply list_elem_of_singleton|done].
  - split; cbn [names inodes link nextIno].
    + intros q j Hq. destruct (decide (p = q)) as [->|Hpq].
      * rewrite lookup_insert_eq in Hq. injection Hq as <-. rewrite lookup_insert_eq. split; [eauto|lia].
      * rewrite lookup_insert_ne in Hq by done. destruct (Hn q j Hq) as [H1 H2].
        rewrite lookup_insert_ne by lia. split; [done|lia].
    + intros q r j Hq Hr. destruct (decide (p = q)) as [<-|Hpq], (decide (p = r)) as [<-|Hpr]; try done.
      all: rewrite ?lookup_insert_eq in *; rewrite ?lookup_insert_ne in * by done.
      * injection Hq as <-. apply Hn in Hr as [_ Hr]. lia.
      * injection Hr as <-. apply Hn in Hq as [_ Hq]. lia.
      * by eapply Hs.
    + intros j Hj. rewrite lookup_insert_ne by lia. apply Hf. lia.
  - intros q j Hq. rewrite lookup_insert_ne; [done|]. intros ->. congruence.
  - intros q Hq. rewrite lookup_insert_ne; [done|]. intros ->. apply Hq. by apply list_elem_of_singleton.
  - intros j Hj. rewrite lookup_insert_ne; [done|]. intros <-.
    apply (Hj p); [by apply list_elem_of_singleton|apply lookup_insert_eq].
Qed.

Lemma content_written p b f : fs_ok f → content (written p b f) p = Some b.
Proof.
  intros Hf. unfold written, content. destruct (names f !! p) as [i|] eqn:E; cbn.
  - by rewrite E, lookup_insert_eq.
  - by rewrite !lookup_insert_eq.
Qed.

(** ** The primitive steps, no system call failing *)

Lemma fsCall_ok f e : healthy e → fsCall (f, e) = (Ok tt, (f, e)).
Proof. intros He. unfold fsCall, zoom. cbn [snd]. by rewrite syscall_healthy. Qed.

Lemma closeQuiet_ok f e : healthy e → closeQuiet (f, e) = (Ok tt, (f, e)).
Proof. intros He. unfold closeQuiet, ignore. by rewrite fsCall_ok. Qed.

Lemma Open_ok p f e b :
  healthy e → content f p = Some b →
  ∃ i, Open p (f, e) = (Ok i, (f, e)) ∧ names f !! p = Some i ∧ inodes f !! i = Some b.
Proof.
  intros He Hc. unfold content in Hc. destruct (names f !! p) as [i|] eqn:E; [|done].
  exists i. split; [|done]. unfold Open. erewrite bind_ok by (by apply fsCall_ok).
  erewrite bind_ok by reflexivity. cbn [fst]. by rewrite E.
Qed.

Lemma Open_missing p f e : healthy e → content f p = None → fs_ok f → Open p (f, e) = (Err ErrNotExist, (f, e)).
Proof.
  intros He Hc Hf. unfold content in Hc. unfold Open. erewrite bind_ok by (by apply fsCall_ok).
  erewrite bind_ok by reflexivity. cbn [fst]. destruct (names f !! p) as [i|] eqn:E; [|done].
  destruct (fs_named _ Hf _ _ E) as [[b Hb] _]. congruence.
Qed.

Lemma OpenCreate_ok p f e :
  healthy e → fs_ok f →
  ∃ i f', OpenCreate p (f, e) = (Ok i, (f', e)) ∧ names f' !! p = Some i ∧ updated [p] f f'
    ∧ (content f p = None → content f' p = Some []) ∧ (∀ b, content f p = Some b → f' = f)
    ∧ ∀ b, set_inode i b f' = written p b f.
Proof.
  intros He Hf. unfold OpenCreate, written. destruct (names f !! p) as [i|] eqn:E.
  - exists i, f. split; [|split; [done|split; [by apply updated_refl|split; [|done]]]].
    + erewrite bind_ok by (by apply fsCall_ok). erewrite bind_ok by reflexivity. cbn [fst]. by rewrite E.
    + unfold content. rewrite E. destruct (fs_named _ Hf _ _ E) as [[b Hb] _]. congruence.
  - exists (nextIno f), (link p [] f). pose proof (written_updated p [] f Hf) as Hu.
    unfold written in Hu. rewrite E in Hu.
    split; [|split; [by cbn; rewrite lookup_insert_eq|split; [done|split; [|split]]]].
    + erewrite bind_ok by (by apply fsCall_ok). erewrite bind_ok by reflexivity. cbn [fst]. by rewrite E.
    + intros _. unfold content. cbn. by rewrite !lookup_insert_eq.
    + intros b Hb. unfold content in Hb. by rewrite E in Hb.
    + intros b. unfold set_inode, link. cbn [names inodes nextIno]. by rewrite insert_insert_eq.
Qed.

Lemma Create_ok p f e :
  healthy e → fs_ok f →
  ∃ i, Create p (f, e) = (Ok i, (written p [] f, e)) ∧ names (written p [] f) !! p = Some i
    ∧ ∀ b, set_inode i b (written p [] f) = written p b f.
Proof.
  intros He Hf. destruct (OpenCreate_ok p f e He Hf) as (i&f'&Ho&Hn&Hu&_&_&Hw).
  exists i. split; [|rewrite <-(Hw []); split; [done|]].
  - unfold Create. erewrite bind_ok by exact Ho. erewrite bind_ok by reflexivity. cbn. by rewrite Hw.
  - intros b. rewrite <-(Hw b). unfold set_inode. cbn [names inodes nextIno]. by rewrite insert_insert_eq.
Qed.

(** ** Copying *)

Lemma copyBuffer_pos : (0 < copyBuffer)%nat.
Proof. unfold copyBuffer. lia. Qed.
#[local] Opaque copyBuffer.

Lemma copyLoop_ok fuel out inp off f e b :
  healthy e → out ≠ inp → inodes f !! inp = Some b → (off ≤ length b)%nat → (length b - off < fuel)%nat →
  copyLoop fuel out inp off (set_inode out (take off b) f, e) = (Ok tt, (set_inode out b f, e)).
Proof.
  intros He Hne Hb. revert off. induction fuel as [|fuel IH]; intros off Ho Hf; [lia|]. cbn [copyLoop].
  erewrite bind_ok by (by apply fsCall_ok). erewrite bind_ok by reflexivity.
  cbn [fst set_inode inodes]. rewrite lookup_insert_ne, Hb by done. cbn [default id].
  pose proof copyBuffer_pos as Hcb.
  assert (length (sub b off copyBuffer) = (Nat.min copyBuffer (length b - off))%nat) as Hl
    by (unfold sub; rewrite length_take, length_drop; lia).
  case_decide as Hc.
  - rewrite Hc in Hl. cbn [length] in Hl. assert (off = length b) as -> by lia. by rewrite firstn_all.
  - erewrite bind_ok by (by apply fsCall_ok). erewrite bind_ok by reflexivity.
    erewrite bind_ok by reflexivity. cbn [fst snd set_inode inodes]. rewrite lookup_insert_eq. cbn [default id].
    assert (0 < length (sub b off copyBuffer))%nat as Hpos by (destruct (sub b off copyBuffer); [done|cbn; lia]).
    assert (take off (take off b) ++ sub b off copyBuffer ++ drop (off + length (sub b off copyBuffer)) (take off b)
      = take (off + length (sub b off copyBuffer)) b) as ->.
    { rewrite (drop_ge (take off b)), app_nil_r by (rewrite length_take; lia).
      rewrite take_take, Nat.min_id. symmetry. etransitivity; [exact (sub_split b 0 off _)|].
      change (sub b 0 off) with (take off b). f_equal. cbn [Nat.add]. unfold sub at 1. rewrite Hl.
      destruct (decide (copyBuffer ≤ length b - off)%nat); [by rewrite Nat.min_l|].
      rewrite Nat.min_r by lia. unfold sub. by rewrite !take_ge by (rewrite length_drop; lia). }
    assert (∀ l l', set_inode out l (set_inode out l' f) = set_inode out l f) as Hss
      by (intros; unfold set_inode; cbn [names inodes nextIno]; by rewrite insert_insert_eq).
    change (mkFs (names f) (<[out:=take off b]> (inodes f)) (nextIno f)) with (set_inode out (take off b) f).
    rewrite Hss. apply IH; lia.
Qed.

(** A copy to another name. *)
Lemma copyFile_ok src dst f e b :
  healthy e → fs_ok f → content f src = Some b → src ≠ dst →
  copyFile src dst (f, e) = (Ok tt, (written dst b f, e)).
Proof.
  intros He Hf Hc Hne. destruct (Open_ok src f e b He Hc) as (i&Ho&Hni&Hi).
  destruct (Create_ok dst f e He Hf) as (j&Hcr&Hnj&Hw).
  pose proof (written_updated dst [] f Hf) as Hu.
  assert (j ≠ i) as Hij.
  { intros ->. pose proof (up_names _ _ _ Hu _ _ Hni) as Hni'. apply Hne.
    by apply (fs_single _ (up_ok _ _ _ Hu) _ _ _ Hni' Hnj). }
  assert (inodes (written dst [] f) !! i = Some b) as Hi'.
  { rewrite (up_inodes _ _ _ Hu); [done|]. intros p ->%list_elem_of_singleton Hn. congruence. }
  unfold copyFile. erewrite bind_ok by exact Ho.
  eapply deferring_ok; [|by apply closeQuiet_ok]. erewrite bind_ok by exact Hcr.
  unfold thenClose, Copy. erewrite bind_ok by reflexivity. cbn [fst]. rewrite Hi'. cbn [default id].
  pose proof (copyLoop_ok (S (length b)) j i 0 (written dst [] f) e b He Hij Hi') as Hl.
  rewrite (Hw b), (Hw (take 0 b)) in Hl. change (take 0 b) with (@nil byte) in Hl.
  rewrite Hl by lia. by apply fsCall_ok.
Qed.

(** A copy of a file onto itself: it is truncated before it is read. *)
Lemma copyFile_self p f e b :
  healthy e → fs_ok f → content f p = Some b →
  copyFile p p (f, e) = (Ok tt, (written p [] f, e)).
Proof.
  intros He Hf Hc. destruct (Open_ok p f e b He Hc) as (i&Ho&Hni&Hi).
  destruct (Create_ok p f e He Hf) as (j&Hcr&Hnj&Hw).
  assert (j = i) as ->.
  { pose proof (up_names _ _ _ (written_updated p [] f Hf) _ _ Hni) as Hn. congruence. }
  unfold copyFile. erewrite bind_ok by exact Ho.
  eapply deferring_ok; [|by apply closeQuiet_ok]. erewrite bind_ok by exact Hcr.
  pose proof (content_written p [] f Hf) as Hcw. unfold content in Hcw. rewrite Hnj in Hcw.
  assert (Copy i i (written p [] f, e) = (Ok tt, (written p [] f, e))) as Hcopy.
  { unfold Copy. erewrite bind_ok by reflexivity. cbn [fst]. rewrite Hcw. cbn [default id length copyLoop].
    erewrite bind_ok by (by apply fsCall_ok). erewrite bind_ok by reflexivity. cbn [fst]. rewrite Hcw.
    by rewrite decide_True by (unfold sub; apply take_nil). }
  unfold thenClose. rewrite Hcopy. by apply fsCall_ok.
Qed.

(** ** The files of an instance *)

(** The last element of the data path. *)
Lemma paths_differ r1 r2 id : usable id → dataPathFor r1 id ≠ metaPathFor r2 id.
Proof.
  intros Hu E. pose proof (dataPathFor_last r1 id Hu) as H1. rewrite E in H1. unfold metaPathFor in H1.
  rewrite (elements_suffix _ crcSuffix), (dataPathFor_last r2 id Hu) in H1 by
    (apply (ContainsAny_false _ [Byte.x2f]); [done|by apply list_elem_of_singleton]).
  cbn in H1. injection H1 as H1. apply (f_equal length) in H1. rewrite length_app in H1. cbn in H1. lia.
Qed.

(** Both files of an instance, copied. *)
Lemma copyPair_ok src dst f e b c :
  healthy e → fs_ok f → content f src = Some b → content f (src ++ crcSuffix) = Some c →
  src ≠ dst → src ++ crcSuffix ≠ dst → src ≠ dst ++ crcSuffix →
  ∃ f', copyPair src dst (f, e) = (Ok tt, (f', e)) ∧ updated [dst; dst ++ crcSuffix] f f'
    ∧ content f' dst = Some b ∧ content f' (dst ++ crcSuffix) = Some c.
Proof.
  intros He Hf Hb Hc H1 H2 H3. unfold copyPair.
  erewrite bind_ok by (by eapply copyFile_ok).
  pose proof (written_updated dst b f Hf) as Hu1. set (f1 := written dst b f) in *.
  pose proof (up_ok _ _ _ Hu1) as Hf1.
  assert (content f1 (src ++ crcSuffix) = Some c) as Hc1.
  { rewrite (updated_content _ _ _ _ Hu1); [done|]. intros E%list_elem_of_singleton. done. }
  assert (dst ≠ dst ++ crcSuffix) as Hd.
  { intros E. apply (f_equal length) in E. rewrite length_app in E. cbn in E. lia. }
  pose proof (written_updated (dst ++ crcSuffix) c f1 Hf1) as Hu2.
  rewrite (copyFile_ok _ _ f1 e c) by (done || (intros E; by apply app_inv_tail in E)).
  eexists. split; [done|]. split; [|split; [|by apply content_written]].
  - eapply updated_trans; (eapply updated_weaken; [|eassumption]); intros p ->%list_elem_of_singleton; set_solver.
  - rewrite (updated_content _ _ _ _ Hu2); [by apply content_written|].
    intros E%list_elem_of_singleton. done.
Qed.

(** A backup into another directory: both files are there, byte for byte, and no
    other file is touched. *)
Lemma BackupOne_ok rootDir mmapID dstDir f e b c :
  let src := dataPathFor rootDir mmapID in
  let dst := dataPathFor dstDir mmapID in
  usable mmapID → healthy e → fs_ok f → src ≠ dst →
  content f src = Some b → content f (src ++ crcSuffix) = Some c →
  ∃ f', BackupOne rootDir mmapID dstDir (f, e) = (Ok tt, (f', e))
    ∧ updated [dst; dst ++ crcSuffix] f f'
    ∧ content f' dst = Some b ∧ content f' (dst ++ crcSuffix) = Some c.
Proof.
  intros src dst Hu He Hf Hne Hb Hc.
  destruct (copyPair_ok src dst f e b c) as (f'&Hcp&Hrest); try done.
  { intros E. symmetry in E. by apply paths_differ in E. }
  { by apply paths_differ. }
  exists f'. split; [|exact Hrest]. unfold BackupOne. fold src dst.
  destruct (Open_ok (src ++ crcSuffix) f e c He Hc) as (i&Ho&_). erewrite bind_ok by exact Ho.
  eapply deferring_ok; [|by apply closeQuiet_ok]. erewrite bind_ok by (by apply fsCall_ok).
  eapply deferring_ok; [|by apply closeQuiet_ok]. erewrite bind_ok by (by apply fsCall_ok). exact Hcp.
Qed.

Lemma restoreFiles_ok rootDir mmapID srcDir f e b c :
  let src := dataPathFor srcDir mmapID in
  let dst := dataPathFor rootDir mmapID in
  usable mmapID → healthy e → fs_ok f → src ≠ dst →
  content f src = Some b → content f (src ++ crcSuffix) = Some c →
  ∃ f', restoreFiles rootDir mmapID srcDir (f, e) = (Ok tt, (f', e))
    ∧ updated [dst; dst ++ crcSuffix] f f'
    ∧ content f' dst = Some b ∧ content f' (dst ++ crcSuffix) = Some c.
Proof.
  intros src dst Hu He Hf Hne Hb Hc.
  assert (dst ++ crcSuffix ≠ src) as Hd1.
  { intros E. symmetry in E. by apply paths_differ in E. }
  destruct (OpenCreate_ok (dst ++ crcSuffix) f e He Hf) as (i&f1&Hoc&_&Hu1&_).
  pose proof (up_ok _ _ _ Hu1) as Hf1.
  destruct (copyPair_ok src dst f1 e b c) as (f'&Hcp&Hu2&Hb'&Hc'); try done.
  { rewrite (updated_content _ _ _ _ Hu1); [done|]. intros E%list_elem_of_singleton. done. }
  { rewrite (updated_content _ _ _ _ Hu1); [done|]. intros E%list_elem_of_singleton.
    by apply app_inv_tail in E. }
  { intros E. symmetry in E. by apply paths_differ in E. }
  exists f'. split; [|split; [|done]].
  - unfold restoreFiles. fold src dst. unfold Stat.
    destruct (Open_ok src f e b He Hb) as (j&Ho&_).
    erewrite bind_ok by (by erewrite bind_ok by exact Ho). erewrite bind_ok by (by apply fsCall_ok).
    erewrite bind_ok by exact Hoc.
    eapply deferring_ok; [|by apply closeQuiet_ok]. erewrite bind_ok by (by apply fsCall_ok).
    eapply deferring_ok; [|by apply closeQuiet_ok]. exact Hcp.
  - eapply updated_trans; [|exact Hu2]. eapply updated_weaken; [|exact Hu1].
    intros p ->%list_elem_of_singleton. set_solver.
Qed.

(** A backup onto the instance's own files empties both, and reports success. *)
Lemma BackupOne_self rootDir mmapID f e b c :
  let p := dataPathFor rootDir mmapID in
  healthy e → fs_ok f → content f p = Some b → content f (p ++ crcSuffix) = Some c →
  ∃ f', BackupOne rootDir mmapID rootDir (f, e) = (Ok tt, (f', e))
    ∧ content f' p = Some [] ∧ content f' (p ++ crcSuffix) = Some [].
Proof.
  intros p He Hf Hb Hc.
  assert (p ≠ p ++ crcSuffix) as Hd.
  { intros E. apply (f_equal length) in E. rewrite length_app in E. cbn in E. lia. }
  pose proof (written_updated p [] f Hf) as Hu1. pose proof (up_ok _ _ _ Hu1) as Hf1.
  assert (content (written p [] f) (p ++ crcSuffix) = Some c) as Hc1.
  { rewrite (updated_content _ _ _ _ Hu1); [done|]. intros E%list_elem_of_singleton. done. }
  exists (written (p ++ crcSuffix) [] (written p [] f)). split; [|split].
  - unfold BackupOne. fold p. destruct (Open_ok (p ++ crcSuffix) f e c He Hc) as (i&Ho&_).
    erewrite bind_ok by exact Ho.
    eapply deferring_ok; [|by apply closeQuiet_ok]. erewrite bind_ok by (by apply fsCall_ok).
    eapply deferring_ok; [|by apply closeQuiet_ok]. erewrite bind_ok by (by apply fsCall_ok).
    unfold copyPair. erewrite bind_ok by (by eapply copyFile_self). by eapply copyFile_self.
  - rewrite (updated_content [p ++ crcSuffix] _ _ p (written_updated _ _ _ Hf1)); [by apply content_written|].
    intros E%list_elem_of_singleton. done.
  - by apply content_written.
Qed.

(** ** Existence, validity, removal *)

Lemma ReadFile_ok p f e :
  healthy e → fs_ok f → tryRead p (f, e) = (Ok (content f p), (f, e)).
Proof.
  intros He Hf. unfold tryRead, ReadFile. destruct (content f p) as [b|] eqn:E.
  - destruct (Open_ok p f e b He E) as (i&Ho&_&Hi). erewrite bind_ok by exact Ho.
    unfold inodeBytes. erewrite bind_ok by reflexivity. cbn [fst]. by rewrite Hi.
  - unfold mbind, M_bind. by rewrite Open_missing.
Qed.

Lemma Stat_ok p f e :
  healthy e → fs_ok f → succeeds (Stat p) (f, e) = (Ok (bool_decide (is_Some (content f p))), (f, e)).
Proof.
  intros He Hf. unfold succeeds, Stat. destruct (content f p) as [b|] eqn:E.
  - destruct (Open_ok p f e b He E) as (i&Ho&_). erewrite bind_ok by exact Ho. done.
  - unfold mbind, M_bind. by rewrite Open_missing.
Qed.

(** CheckExist: both files are there. *)
Lemma CheckExist_ok rootDir mmapID f e :
  healthy e → fs_ok f →
  CheckExist rootDir mmapID (f, e)
  = (Ok (bool_decide (is_Some (content f (dataPathFor rootDir mmapID))
         ∧ is_Some (content f (metaPathFor rootDir mmapID)))), (f, e)).
Proof.
  intros He Hf. unfold CheckExist. erewrite bind_ok by (by apply Stat_ok).
  case_bool_decide as H1.
  - rewrite Stat_ok by done. do 2 f_equal. apply bool_decide_ext. tauto.
  - unfold mret, M_ret. do 2 f_equal. symmetry. apply bool_decide_eq_false_2. tauto.
Qed.

(** IsFileValid looks at the two files and nothing else. *)
Definition fileValid (data metaBuf : option bytes) : outcome bool :=
  match metaBuf ≫= metaUsable with
  | None => Ok false
  | Some mi => match data with None => Ok false | Some d => dataValid mi d end
  end.

Lemma IsFileValid_ok rootDir mmapID f e :
  healthy e → fs_ok f →
  IsFileValid rootDir mmapID (f, e)
  = (fileValid (content f (dataPathFor rootDir mmapID)) (content f (metaPathFor rootDir mmapID)), (f, e)).
Proof.
  intros He Hf. unfold IsFileValid, fileValid. erewrite bind_ok by (by apply ReadFile_ok).
  unfold metaPathFor. destruct (content f (_ ++ crcSuffix) ≫= metaUsable) as [mi|]; [|done].
  erewrite bind_ok by (by apply ReadFile_ok). by destruct (content f (dataPathFor rootDir mmapID)).
Qed.

(** Below 4 GiB the check does not panic. *)
Lemma dataValid_returns mi d : len d < 2 ^ 32 → 0 ≤ mi_actualSize mi → ∃ v, dataValid mi d = Ok v.
Proof.
  intros Hd Ha. unfold dataValid.
  set (a := if _ <=? _ then _ else _).
  assert (0 ≤ a) as H0.
  { unfold a. destruct (_ <=? _); [done|]. destruct (4 <=? len d); [|done].
    pose proof (le_val_range (sub d 0 4)). lia. }
  destruct (len d <? a + 4) eqn:E; bsplit; [by eexists|].
  rewrite u32_small by (unfold is_u32; lia). rewrite slice_ok by lia. by eexists.
Qed.

(** A file without its name. *)
Lemma unlink_updated p f : fs_ok f → fs_ok (unlink p f) ∧ content (unlink p f) p = None
  ∧ (∀ q, q ≠ p → content (unlink p f) q = content f q) ∧ inodes (unlink p f) = inodes f.
Proof.
  intros [Hn Hs Hf]. split; [|split; [|split; [|done]]].
  - split; cbn [names inodes unlink nextIno]; [| |done].
    + intros q i Hq. apply lookup_delete_Some in Hq as [_ Hq]. exact (Hn q i Hq).
    + intros q r i Hq Hr. apply lookup_delete_Some in Hq as [_ Hq], Hr as [_ Hr]. by eapply Hs.
  - unfold content. cbn. by rewrite lookup_delete_eq.
  - intros q Hq. unfold content. cbn. by rewrite lookup_delete_ne by done.
Qed.

Lemma Remove_ok p f e :
  healthy e → fs_ok f →
  ∃ f', removeErr (Remove p) (f, e) = (Ok None, (f', e)) ∧ fs_ok f' ∧ content f' p = None
    ∧ (∀ q, q ≠ p → content f' q = content f q) ∧ inodes f' = inodes f.
Proof.
  intros He Hf. unfold removeErr, Remove. erewrite bind_ok by (by apply fsCall_ok).
  erewrite bind_ok by reflexivity. cbn [fst]. destruct (names f !! p) as [i|] eqn:E.
  - exists (unlink p f). split; [done|]. by apply unlink_updated.
  - exists f. split; [done|]. split_and!; try done. unfold content. by rewrite E.
Qed.

(** Both files are gone, or were never there, and no other file is touched. *)
Lemma removeFiles_ok rootDir mmapID f e :
  healthy e → fs_ok f →
  ∃ f', removeFiles rootDir mmapID (f, e) = (Ok tt, (f', e)) ∧ fs_ok f'
    ∧ content f' (dataPathFor rootDir mmapID) = None ∧ content f' (metaPathFor rootDir mmapID) = None
    ∧ (∀ q, q ≠ dataPathFor rootDir mmapID → q ≠ metaPathFor rootDir mmapID → content f' q = content f q)
    ∧ inodes f' = inodes f.
Proof.
  intros He Hf. unfold metaPathFor. set (p := dataPathFor rootDir mmapID).
  assert (p ≠ p ++ crcSuffix) as Hd.
  { intros E. apply (f_equal length) in E. rewrite length_app in E. cbn in E. lia. }
  destruct (Remove_ok p f e He Hf) as (f1&H1&Hf1&Hn1&Ho1&Hi1).
  destruct (Remove_ok (p ++ crcSuffix) f1 e He Hf1) as (f2&H2&Hf2&Hn2&Ho2&Hi2).
  exists f2. split; [|split; [done|split; [|split; [done|split; [|congruence]]]]].
  - unfold removeFiles. fold p. erewrite bind_ok by exact H1. by erewrite bind_ok by exact H2.
  - by rewrite Ho2.
  - intros q Hq1 Hq2. by rewrite Ho2, Ho1.
Qed.
