(* ===== verification/Flock.v ===== *)
(** * The reference-counted file lock: fileLock (flock.go)

    [held] of the environment is what the kernel holds for the lock file's open
    file description.  A successful flock(2) sets it to the mode asked for; a
    conversion that fails loses the lock it was converting, as flock(2)
    documents. *)

From S2P Require Import Prelude GoInt MemFile.

Inductive lockType := sharedLock | exclusiveLock.

#[global] Instance lockType_eq_dec : EqDecision lockType.
Proof. solve_decision. Defined.
#[global] Instance lmode_eq_dec : EqDecision lmode.
Proof. solve_decision. Defined.

Record fileLock := mkFileLock { shared : Z; exclusive : Z }.

Definition newFileLock : fileLock := mkFileLock 0 0.

(** ** flock(2) *)

Inductive flockOp := LOCK_SH | LOCK_EX | LOCK_UN.

#[global] Instance flockOp_eq_dec : EqDecision flockOp.
Proof. solve_decision. Defined.

Definition mode_of (op : flockOp) : lmode :=
  match op with LOCK_SH => HeldShared | LOCK_EX => HeldExclusive | LOCK_UN => Unheld end.

(** [how] and the LOCK_NB flag; EWOULDBLOCK is 11, as EAGAIN. *)
Definition EWOULDBLOCK : Z := 11.

Abbreviation FL := (M (fileLock * sys)).

Definition flSys {A} (c : M sys A) : FL A := zoom snd (fun s p => (p.1, s)) c.
Definition flSet (f : fileLock → fileLock) : FL unit := modify (fun p => (f p.1, p.2)).

Definition Flock (op : flockOp) (nb : bool) : FL unit := flSys (fun s =>
  match syscall s with
  | (Ok _, s') => (Ok tt, set_held (mode_of op) s')
  | (Err e, s') =>
      (Err e, if decide (op ≠ LOCK_UN ∧ mode_of op ≠ held s) then set_held Unheld s' else s')
  | r => r
  end).

(** ** The methods *)

Definition addShared (d : Z) (l : fileLock) : fileLock := mkFileLock (shared l + d) (exclusive l).
Definition addExclusive (d : Z) (l : fileLock) : fileLock := mkFileLock (shared l) (exclusive l + d).

Definition platformLock (how : flockOp) (wait unlockFirst : bool) : FL unit := fun q =>
  let block : FL unit := fun q =>
    match Flock how (negb wait) q with
    | (Err e, q1) =>
        (_ ← (if unlockFirst then ignore (Flock LOCK_SH false) else mret tt); fail e) q1
    | r => r
    end in
  if unlockFirst then
    match Flock how true q with
    | (Ok _, q1) => (Ok tt, q1)
    | (Err _, q1) => (_ ← Flock LOCK_UN false; block) q1
    | r => r
    end
  else block q.

Definition platformTryLock (how : flockOp) (unlockFirst : bool) : FL bool := fun q =>
  match platformLock how false unlockFirst q with
  | (Ok _, q') => (Ok true, q')
  | (Err (ErrSys e), q') => if e =? EWOULDBLOCK then (Ok false, q') else (Err (ErrSys e), q')
  | (Err e, q') => (Err e, q')
  | (Panic, q') => (Panic, q')
  | (NoFuel, q') => (NoFuel, q')
  end.

Definition platformUnlock (downgradeToShared : bool) : FL unit :=
  Flock (if downgradeToShared then LOCK_SH else LOCK_UN) false.

Definition lock (t : lockType) : FL unit :=
  p ← get;
  let l := p.1 in
  match t with
  | sharedLock =>
      if (0 <? shared l) || (0 <? exclusive l) then flSet (addShared 1)
      else
        _ ← platformLock LOCK_SH true false;
        flSet (addShared 1)
  | exclusiveLock =>
      if 0 <? exclusive l then flSet (addExclusive 1)
      else
        let unlockFirst := 0 <? shared l in
        _ ← platformLock LOCK_EX true unlockFirst;
        flSet (addExclusive 1)
  end.

Definition tryLock (t : lockType) : FL bool :=
  p ← get;
  let l := p.1 in
  match t with
  | sharedLock =>
      if (0 <? shared l) || (0 <? exclusive l) then _ ← flSet (addShared 1); mret true
      else
        ok ← platformTryLock LOCK_SH false;
        _ ← (if ok : bool then flSet (addShared 1) else mret tt);
        mret ok
  | exclusiveLock =>
      if 0 <? exclusive l then _ ← flSet (addExclusive 1); mret true
      else
        let unlockFirst := 0 <? shared l in
        ok ← platformTryLock LOCK_EX unlockFirst;
        _ ← (if ok : bool then flSet (addExclusive 1) else mret tt);
        mret ok
  end.

Definition unlock (t : lockType) : FL unit :=
  p ← get;
  let l := p.1 in
  match t with
  | sharedLock =>
      if shared l =? 0 then fail ErrUnlockShared
      else if (1 <? shared l) || (0 <? exclusive l) then flSet (addShared (-1))
      else
        _ ← platformUnlock false;
        flSet (addShared (-1))
  | exclusiveLock =>
      if exclusive l =? 0 then fail ErrUnlockExclusive
      else if 1 <? exclusive l then flSet (addExclusive (-1))
      else
        let downgrade := 0 <? shared l in
        _ ← platformUnlock downgrade;
        flSet (addExclusive (-1))
  end.

(** ** The specification *)

(** What the counters say the process holds. *)
Definition wanted (l : fileLock) : lmode :=
  if 0 <? exclusive l then HeldExclusive
  else if 0 <? shared l then HeldShared
  else Unheld.

(** The counters are counts and the kernel holds what they say. *)
Definition lock_ok (q : fileLock * sys) : Prop :=
  0 ≤ shared q.1 ∧ 0 ≤ exclusive q.1 ∧ held q.2 = wanted q.1.

(** The operations of the specification: counting references. *)
Definition spec_lock (t : lockType) (l : fileLock) : fileLock :=
  match t with sharedLock => addShared 1 l | exclusiveLock => addExclusive 1 l end.
Definition spec_unlock (t : lockType) (l : fileLock) : fileLock :=
  match t with sharedLock => addShared (-1) l | exclusiveLock => addExclusive (-1) l end.

Lemma Flock_ok op nb q q' :
  Flock op nb q = (Ok tt, q') → q'.1 = q.1 ∧ held q'.2 = mode_of op.
Proof.
  unfold Flock, flSys, zoom, syscall. destruct q as [l s]. cbn [fst snd].
  destruct (faults s) as [|[e|] fs]; [intros [= <-]; done|done|intros [= <-]; done].
Qed.

Lemma Flock_counters op nb q : (Flock op nb q).2.1 = q.1.
Proof.
  unfold Flock, flSys, zoom, syscall. destruct q as [l s]. cbn [fst snd].
  by destruct (faults s) as [|[e|] fs]; [|case_decide|].
Qed.

Lemma Flock_returns op nb q : ∃ q', Flock op nb q = (Ok tt, q') ∨ ∃ e, Flock op nb q = (Err e, q').
Proof.
  unfold Flock, flSys, zoom, syscall. destruct q as [l s]. cbn [fst snd].
  destruct (faults s) as [|[e|] fs]; eauto.
Qed.

(** platformLock never touches the counters, and when it succeeds the kernel
    holds the mode asked for, whichever of its calls succeeded. *)
Lemma platformLock_spec how wait uf q :
  match platformLock how wait uf q with
  | (Ok _, q') => q'.1 = q.1 ∧ held q'.2 = mode_of how
  | (Err _, q') => q'.1 = q.1
  | _ => False
  end.
Proof.
  assert (∀ q0, q0.1 = q.1 →
    match (match Flock how (negb wait) q0 with
           | (Err e, q1) =>
               (_ ← (if uf then ignore (Flock LOCK_SH false) else mret tt); fail e) q1
           | r => r
           end) : outcome unit * (fileLock * sys) with
    | (Ok _, q') => q'.1 = q.1 ∧ held q'.2 = mode_of how
    | (Err _, q') => q'.1 = q.1
    | _ => False
    end) as Hblock.
  { intros q0 E0. destruct (Flock_returns how (negb wait) q0) as (q1&[H1|[e H1]]); rewrite H1.
    - apply Flock_ok in H1 as [-> ?]. done.
    - pose proof (Flock_counters how (negb wait) q0) as C. rewrite H1 in C. cbn [snd] in C.
      unfold mbind, M_bind, fail. destruct uf; [|cbn; congruence]. unfold ignore.
      destruct (Flock_returns LOCK_SH false q1) as (q2&H2).
      pose proof (Flock_counters LOCK_SH false q1) as C2.
      destruct H2 as [H2|[e2 H2]]; rewrite H2 in *; cbn [snd] in *; congruence. }
  unfold platformLock. destruct uf; [|by apply Hblock].
  destruct (Flock_returns how true q) as (q1&[H1|[e H1]]); rewrite H1.
  { by apply Flock_ok in H1. }
  pose proof (Flock_counters how true q) as C. rewrite H1 in C. cbn [snd] in C.
  unfold mbind at 1, M_bind at 1.
  pose proof (Flock_counters LOCK_UN false q1) as C2.
  destruct (Flock_returns LOCK_UN false q1) as (q2&[H2|[e2 H2]]); rewrite H2 in *; cbn [snd] in *;
    [apply Hblock; congruence|congruence].
Qed.

Lemma wanted_lock_held t l :
  0 ≤ shared l → 0 ≤ exclusive l →
  wanted (spec_lock t l) =
  match t with
  | exclusiveLock => HeldExclusive
  | sharedLock => if 0 <? exclusive l then HeldExclusive else HeldShared
  end.
Proof.
  intros. unfold wanted, spec_lock, addShared, addExclusive. destruct t; cbn [shared exclusive].
  - destruct (0 <? exclusive l); [done|]. btrue. done.
  - btrue. done.
Qed.

Lemma lock_refines t q :
  lock_ok q →
  match lock t q with
  | (Ok _, q') => q'.1 = spec_lock t q.1 ∧ lock_ok q'
  | (Err _, q') => q'.1 = q.1
  | _ => False
  end.
Proof.
  intros (Hs&He&Hh). unfold lock, mbind, M_bind, get.
  assert (∀ q', q'.1 = q.1 → held q'.2 = wanted (spec_lock t q.1) →
    lock_ok (spec_lock t q'.1, q'.2)) as Hok.
  { intros q' E Hw. rewrite E. split_and!; [..|done]; destruct t; cbn; lia. }
  rewrite wanted_lock_held in Hok by done.
  destruct t.
  - destruct ((0 <? shared q.1) || (0 <? exclusive q.1)) eqn:E.
    + split; [done|]. apply (Hok q); [done|]. rewrite Hh. unfold wanted.
      apply orb_true_iff in E as [E|E]; rewrite E; by destruct (0 <? exclusive q.1).
    + apply orb_false_iff in E as [_ E]. rewrite E in Hok.
      pose proof (platformLock_spec LOCK_SH true false q) as Hp.
      destruct (platformLock LOCK_SH true false q) as [[u| | |] q']; [|done..].
      destruct Hp as [E1 E2]. split; [cbn; by rewrite E1|]. by apply Hok.
  - destruct (0 <? exclusive q.1) eqn:E.
    + split; [done|]. apply (Hok q); [done|]. rewrite Hh. unfold wanted. by rewrite E.
    + pose proof (platformLock_spec LOCK_EX true (0 <? shared q.1) q) as Hp.
      destruct (platformLock LOCK_EX true _ q) as [[u| | |] q']; [|done..].
      destruct Hp as [E1 E2]. split; [cbn; by rewrite E1|]. by apply Hok.
Qed.

Lemma platformTryLock_spec how uf q :
  match platformTryLock how uf q with
  | (Ok true, q') => q'.1 = q.1 ∧ held q'.2 = mode_of how
  | (Ok false, q') | (Err _, q') => q'.1 = q.1
  | _ => False
  end.
Proof.
  unfold platformTryLock. pose proof (platformLock_spec how false uf q) as Hp.
  destruct (platformLock how false uf q) as [[u|e| |] q']; [done| |done..].
  destruct e; try done. by destruct (errno =? EWOULDBLOCK).
Qed.

Lemma tryLock_refines t q :
  lock_ok q →
  match tryLock t q with
  | (Ok true, q') => q'.1 = spec_lock t q.1 ∧ lock_ok q'
  | (Ok false, q') | (Err _, q') => q'.1 = q.1
  | _ => False
  end.
Proof.
  intros (Hs&He&Hh). unfold tryLock, mbind, M_bind, get.
  assert (∀ q', q'.1 = q.1 → held q'.2 = wanted (spec_lock t q.1) →
    lock_ok (spec_lock t q'.1, q'.2)) as Hok.
  { intros q' E Hw. rewrite E. split_and!; [..|done]; destruct t; cbn; lia. }
  rewrite wanted_lock_held in Hok by done.
  destruct t.
  - destruct ((0 <? shared q.1) || (0 <? exclusive q.1)) eqn:E.
    + split; [done|]. apply (Hok q); [done|]. rewrite Hh. unfold wanted.
      apply orb_true_iff in E as [E|E]; rewrite E; by destruct (0 <? exclusive q.1).
    + apply orb_false_iff in E as [_ E]. rewrite E in Hok.
      pose proof (platformTryLock_spec LOCK_SH false q) as Hp.
      destruct (platformTryLock LOCK_SH false q) as [[[]| | |] q']; [|done..].
      destruct Hp as [E1 E2]. split; [cbn; by rewrite E1|]. by apply Hok.
  - destruct (0 <? exclusive q.1) eqn:E.
    + split; [done|]. apply (Hok q); [done|]. rewrite Hh. unfold wanted. by rewrite E.
    + pose proof (platformTryLock_spec LOCK_EX (0 <? shared q.1) q) as Hp.
      destruct (platformTryLock LOCK_EX _ q) as [[[]| | |] q']; [|done..].
      destruct Hp as [E1 E2]. split; [cbn; by rewrite E1|]. by apply Hok.
Qed.

(** The references of a kind. *)
Definition count (t : lockType) (l : fileLock) : Z :=
  match t with sharedLock => shared l | exclusiveLock => exclusive l end.

Lemma unlock_refines t q :
  lock_ok q →
  match unlock t q with
  | (Ok _, q') => 0 < count t q.1 ∧ q'.1 = spec_unlock t q.1 ∧ lock_ok q'
  | (Err _, q') => q'.1 = q.1 ∧ (count t q.1 = 0 → q' = q)
  | _ => False
  end.
Proof.
  intros (Hs&He&Hh). unfold unlock, mbind, M_bind, get, platformUnlock. unfold wanted in Hh.
  assert (∀ q', q'.1 = q.1 → 0 < count t q.1 → held q'.2 = wanted (spec_unlock t q.1) →
    lock_ok (spec_unlock t q'.1, q'.2)) as Hok.
  { intros q' E Hc Hw. rewrite E. split_and!; [..|done]; destruct t; cbn in *; lia. }
  unfold wanted in Hok.
  destruct t; cbn [count spec_unlock addShared addExclusive shared exclusive] in *.
  - destruct (shared q.1 =? 0) eqn:E0; bsplit; [done|].
    destruct ((1 <? shared q.1) || (0 <? exclusive q.1)) eqn:E1.
    + split_and!; [lia|done|]. apply (Hok q); [done|lia|]. rewrite Hh.
      apply orb_true_iff in E1 as [E1|E1]; bsplit; destruct (0 <? exclusive q.1) eqn:?; bsplit;
        first [done|lia|by do 2 btrue].
    + apply orb_false_iff in E1 as [E1 E2]; rewrite E2 in *; bsplit.
      destruct (Flock_returns LOCK_UN false q) as (q'&[H|[e H]]); rewrite H.
      * apply Flock_ok in H as [E3 E4]. split_and!; [lia|cbn; by rewrite E3|].
        apply Hok; [done|lia|]. rewrite E4. bfalse. done.
      * pose proof (Flock_counters LOCK_UN false q) as C. rewrite H in C. split; [done|lia].
  - destruct (exclusive q.1 =? 0) eqn:E0; bsplit; [done|].
    destruct (1 <? exclusive q.1) eqn:E1; bsplit.
    + split_and!; [lia|done|]. apply (Hok q); [done|lia|]. rewrite Hh. by do 2 btrue.
    + destruct (Flock_returns (if 0 <? shared q.1 then LOCK_SH else LOCK_UN) false q)
        as (q'&[H|[e H]]); rewrite H.
      * apply Flock_ok in H as [E3 E4]. split_and!; [lia|cbn; by rewrite E3|].
        apply Hok; [done|lia|]. rewrite E4. rewrite (proj2 (Z.ltb_ge 0 (exclusive q.1 + -1))) by lia.
        by destruct (0 <? shared q.1).
      * pose proof (Flock_counters (if 0 <? shared q.1 then LOCK_SH else LOCK_UN) false q) as C.
        rewrite H in C. split; [done|lia].
Qed.

(** ** With no system call failing *)

Lemma Flock_healthy op nb l e : healthy e → Flock op nb (l, e) = (Ok tt, (l, set_held (mode_of op) e)).
Proof. intros He. unfold Flock, flSys, zoom. cbn [fst snd]. by rewrite syscall_healthy. Qed.

Lemma platformLock_healthy how wait uf l e :
  healthy e → platformLock how wait uf (l, e) = (Ok tt, (l, set_held (mode_of how) e)).
Proof. intros He. unfold platformLock. by destruct uf; rewrite Flock_healthy. Qed.

(** Taking a reference makes the kernel hold what the counters then ask for. *)
Lemma lock_healthy t l e :
  lock_ok (l, e) → healthy e →
  lock t (l, e) = (Ok tt, (spec_lock t l, set_held (wanted (spec_lock t l)) e)).
Proof.
  intros (Hs&Hx&Hh) He. cbn [fst snd] in *. rewrite wanted_lock_held by done.
  assert (set_held (held e) e = e) as Heta by done.
  unfold lock, mbind, M_bind, get. cbn [fst]. unfold wanted in Hh. destruct t.
  - destruct (0 <? exclusive l) eqn:E; [rewrite orb_true_r; by rewrite <-Hh, Heta|].
    rewrite orb_false_r. destruct (0 <? shared l); [by rewrite <-Hh, Heta|].
    by rewrite platformLock_healthy.
  - destruct (0 <? exclusive l) eqn:E; [by rewrite <-Hh, Heta|]. by rewrite platformLock_healthy.
Qed.

(** Returning it gives back exactly what was held before. *)
Lemma unlock_healthy t l e :
  lock_ok (l, e) → healthy e →
  ∀ e', held e' = wanted (spec_lock t l) → faults e' = faults e →
  unlock t (spec_lock t l, e') = (Ok tt, (l, set_held (held e) e')).
Proof.
  intros (Hs&Hx&Hh) He e' Hw Hf. cbn [fst snd] in *. rewrite Hh.
  assert (healthy e') as He' by (unfold healthy in *; congruence).
  assert (set_held (held e') e' = e') as Heta by done.
  rewrite wanted_lock_held in Hw by done.
  unfold unlock, mbind, M_bind, get, platformUnlock. cbn [fst]. unfold wanted.
  destruct l as [sh ex]. destruct t; cbn [spec_lock addShared addExclusive shared exclusive] in *.
  - bfalse. destruct (0 <? ex) eqn:E; [rewrite orb_true_r|rewrite orb_false_r].
    + unfold flSet, modify, addShared. cbn. rewrite <-Hw, Heta. by replace (sh + 1 + -1) with sh by lia.
    + destruct (0 <? sh) eqn:E2; bsplit; [btrue|bfalse; rewrite Flock_healthy by done];
        unfold flSet, modify, addShared; cbn [fst snd shared exclusive].
      * rewrite <-Hw, Heta. by replace (sh + 1 + -1) with sh by lia.
      * by replace (sh + 1 + -1) with sh by lia.
  - bfalse. destruct (0 <? ex) eqn:E; bsplit; [btrue|bfalse; rewrite Flock_healthy by done];
      unfold flSet, modify, addExclusive; cbn [fst snd shared exclusive].
    + rewrite <-Hw, Heta. by replace (ex + 1 + -1) with ex by lia.
    + replace (ex + 1 + -1) with ex by lia. by destruct (0 <? sh).
Qed.

(** A lock and its unlock leave everything as it was. *)
Lemma lock_then_unlock t q :
  lock_ok q → healthy q.2 →
  ∃ q1, lock t q = (Ok tt, q1) ∧ lock_ok q1 ∧ unlock t q1 = (Ok tt, q).
Proof.
  destruct q as [l e]. intros Hok He. cbn [snd] in He. pose proof (lock_refines t (l, e) Hok) as Hr.
  rewrite (lock_healthy t l e Hok He) in *. destruct Hr as [_ Hok1].
  eexists. split; [done|]. split; [done|].
  by rewrite (unlock_healthy t l e Hok He).
Qed.

(** A lock another process holds is not an error of tryLock. *)
Lemma platformTryLock_reports how uf q e q' :
  platformTryLock how uf q = (Err e, q') → e ≠ ErrSys EWOULDBLOCK.
Proof.
  unfold platformTryLock. destruct (platformLock how false uf q) as [[u|e'| |] q0]; try done.
  destruct e'; try (intros [= <- _]; done).
  destruct (errno =? EWOULDBLOCK) eqn:E; [done|]. intros [= <- _] [= He]. bsplit. done.
Qed.

Lemma tryLock_reports t q e q' : tryLock t q = (Err e, q') → e ≠ ErrSys EWOULDBLOCK.
Proof.
  unfold tryLock, mbind, M_bind, get. destruct t.
  - destruct (_ || _); [done|].
    destruct (platformTryLock LOCK_SH false q) as [[[]| | |] q0] eqn:H; try done.
    intros [= <- _]. by eapply platformTryLock_reports.
  - destruct (_ <? _); [done|].
    destruct (platformTryLock LOCK_EX _ q) as [[[]| | |] q0] eqn:H; try done.
    intros [= <- _]. by eapply platformTryLock_reports.
Qed.
