(* ===== verification/LockWorld.v ===== *)
(** * Several processes over one lock file (flock.go)

    The methods of [fileLock] as programs that make flock(2) calls one at a time
    ([act]), run against a kernel that grants a call, refuses it at once when it
    does not wait, or keeps it waiting.  [runA] ties the programs to the functions
    of Flock.v; the step relation interleaves the calls of any number of
    descriptors of the same file. *)

From S2P Require Import Prelude GoInt MemFile Flock.

(** ** Programs of flock calls *)

Inductive act :=
  | Ret (l : fileLock) (o : outcome bool)
  | Flk (op : flockOp) (nb : bool) (k : option error → act).

Definition platformLockA (how : flockOp) (wait unlockFirst : bool) (k : option error → act) : act :=
  let block :=
    Flk how (negb wait) (fun r =>
      match r with
      | None => k None
      | Some e => if unlockFirst then Flk LOCK_SH false (fun _ => k (Some e)) else k (Some e)
      end) in
  if unlockFirst then
    Flk how true (fun r =>
      match r with
      | None => k None
      | Some _ => Flk LOCK_UN false (fun r => match r with None => block | Some e => k (Some e) end)
      end)
  else block.

(** The counter is raised when the lock was granted. *)
Definition counted (f : fileLock → fileLock) (l : fileLock) (r : option error) : act :=
  match r with None => Ret (f l) (Ok true) | Some e => Ret l (Err e) end.

Definition lockA (t : lockType) (l : fileLock) : act :=
  match t with
  | sharedLock =>
      if (0 <? shared l) || (0 <? exclusive l) then Ret (addShared 1 l) (Ok true)
      else platformLockA LOCK_SH true false (counted (addShared 1) l)
  | exclusiveLock =>
      if 0 <? exclusive l then Ret (addExclusive 1 l) (Ok true)
      else platformLockA LOCK_EX true (0 <? shared l) (counted (addExclusive 1) l)
  end.

(** EWOULDBLOCK is not an error of tryLock. *)
Definition tried (f : fileLock → fileLock) (l : fileLock) (r : option error) : act :=
  match r with
  | None => Ret (f l) (Ok true)
  | Some (ErrSys e) => if e =? EWOULDBLOCK then Ret l (Ok false) else Ret l (Err (ErrSys e))
  | Some e => Ret l (Err e)
  end.

Definition tryLockA (t : lockType) (l : fileLock) : act :=
  match t with
  | sharedLock =>
      if (0 <? shared l) || (0 <? exclusive l) then Ret (addShared 1 l) (Ok true)
      else platformLockA LOCK_SH false false (tried (addShared 1) l)
  | exclusiveLock =>
      if 0 <? exclusive l then Ret (addExclusive 1 l) (Ok true)
      else platformLockA LOCK_EX false (0 <? shared l) (tried (addExclusive 1) l)
  end.

Definition unlockA (t : lockType) (l : fileLock) : act :=
  match t with
  | sharedLock =>
      if shared l =? 0 then Ret l (Err ErrUnlockShared)
      else if (1 <? shared l) || (0 <? exclusive l) then Ret (addShared (-1) l) (Ok true)
      else Flk LOCK_UN false (counted (addShared (-1)) l)
  | exclusiveLock =>
      if exclusive l =? 0 then Ret l (Err ErrUnlockExclusive)
      else if 1 <? exclusive l then Ret (addExclusive (-1) l) (Ok true)
      else Flk (if 0 <? shared l then LOCK_SH else LOCK_UN) false (counted (addExclusive (-1)) l)
  end.

(** A program, its calls made one after the other. *)
Fixpoint runA (a : act) (l0 : fileLock) (e : sys) : outcome bool * (fileLock * sys) :=
  match a with
  | Ret l o => (o, (l, e))
  | Flk op nb k =>
      match Flock op nb (l0, e) with
      | (Ok _, q) => runA (k None) l0 q.2
      | (Err er, q) => runA (k (Some er)) l0 q.2
      | (Panic, q) => (Panic, q)
      | (NoFuel, q) => (NoFuel, q)
      end
  end.

Definition granted (r : outcome unit * (fileLock * sys)) : outcome bool * (fileLock * sys) :=
  ((fun _ => true) <$> r.1, r.2).

(** What running a method gives, and its continuation with a result. *)
Lemma runA_platformLock how wait uf k l e :
  runA (platformLockA how wait uf k) l e =
  match platformLock how wait uf (l, e) with
  | (Ok _, q) => runA (k None) l q.2
  | (Err er, q) => runA (k (Some er)) l q.2
  | (Panic, q) => (Panic, q)
  | (NoFuel, q) => (NoFuel, q)
  end.
Proof.
  unfold platformLock, platformLockA.
  assert (∀ op nb e0, (∃ e1, Flock op nb (l, e0) = (Ok tt, (l, e1)))
    ∨ ∃ er e1, Flock op nb (l, e0) = (Err er, (l, e1))) as Hf.
  { intros op nb e0. pose proof (Flock_counters op nb (l, e0)) as Hc.
    destruct (Flock_returns op nb (l, e0)) as ([l1 e1]&[H|[er H]]); rewrite H in Hc; cbn in Hc; subst; eauto. }
  assert (∀ e0, runA (Flk how (negb wait) (fun r => match r with None => k None | Some er =>
      if uf then Flk LOCK_SH false (fun _ => k (Some er)) else k (Some er) end)) l e0 =
    match (match Flock how (negb wait) (l, e0) with
           | (Err er, q1) => (_ ← (if uf then ignore (Flock LOCK_SH false) else mret tt); fail er) q1
           | r => r end) : outcome unit * (fileLock * sys) with
    | (Ok _, q) => runA (k None) l q.2 | (Err er, q) => runA (k (Some er)) l q.2
    | (Panic, q) => (Panic, q) | (NoFuel, q) => (NoFuel, q) end) as Hblock.
  { intros e0. cbn [runA]. destruct (Hf how (negb wait) e0) as [[e1 H1]|(er&e1&H1)]; rewrite H1; [done|].
    destruct uf; [|done]. cbn [runA snd]. unfold mbind, M_bind, ignore, fail.
    destruct (Hf LOCK_SH false e1) as [[e2 H2]|(er2&e2&H2)]; by rewrite H2. }
  destruct uf; [|by rewrite Hblock].
  cbn [runA]. destruct (Hf how true e) as [[e1 H1]|(er&e1&H1)]; rewrite H1; [done|]. cbn [runA snd].
  unfold mbind at 1, M_bind at 1.
  destruct (Hf LOCK_UN false e1) as [[e2 H2]|(er2&e2&H2)]; rewrite H2; [|done]. apply Hblock.
Qed.

Lemma platformLock_counters how wait uf q : (platformLock how wait uf q).2.1 = q.1.
Proof.
  pose proof (platformLock_spec how wait uf q) as Hp.
  destruct (platformLock how wait uf q) as [[u|e| |] q']; [by destruct Hp|done..].
Qed.

(** The programs are the methods. *)
Lemma lockA_ok t l e : runA (lockA t l) l e = granted (lock t (l, e)).
Proof.
  unfold lockA, lock, granted. unfold mbind, M_bind, get. cbn [fst].
  destruct t.
  - destruct (_ || _); [done|]. rewrite runA_platformLock.
    pose proof (platformLock_counters LOCK_SH true false (l, e)) as Hc.
    destruct (platformLock LOCK_SH true false (l, e)) as [[u|er| |] [l1 e1]]; cbn in *; by subst.
  - destruct (0 <? exclusive l); [done|]. rewrite runA_platformLock.
    pose proof (platformLock_counters LOCK_EX true (0 <? shared l) (l, e)) as Hc.
    destruct (platformLock LOCK_EX true (0 <? shared l) (l, e)) as [[u|er| |] [l1 e1]]; cbn in *; by subst.
Qed.

Lemma tryLockA_ok t l e : runA (tryLockA t l) l e = tryLock t (l, e).
Proof.
  unfold tryLockA, tryLock, platformTryLock. unfold mbind, M_bind, get. cbn [fst].
  destruct t.
  - destruct (_ || _); [done|]. rewrite runA_platformLock.
    pose proof (platformLock_counters LOCK_SH false false (l, e)) as Hc.
    destruct (platformLock LOCK_SH false false (l, e)) as [[u|er| |] [l1 e1]]; cbn in *; subst; try done.
    destruct er; try done. cbn. by destruct (errno =? EWOULDBLOCK).
  - destruct (0 <? exclusive l); [done|]. rewrite runA_platformLock.
    pose proof (platformLock_counters LOCK_EX false (0 <? shared l) (l, e)) as Hc.
    destruct (platformLock LOCK_EX false (0 <? shared l) (l, e)) as [[u|er| |] [l1 e1]]; cbn in *; subst; try done.
    destruct er; try done. cbn. by destruct (errno =? EWOULDBLOCK).
Qed.

Lemma unlockA_ok t l e : runA (unlockA t l) l e = granted (unlock t (l, e)).
Proof.
  unfold unlockA, unlock, granted, platformUnlock. unfold mbind, M_bind, get. cbn [fst].
  assert (∀ op nb f, runA (Flk op nb (counted f l)) l e = granted ((_ ← Flock op nb; flSet f) (l, e))) as Hf.
  { intros op nb f. cbn [runA]. unfold granted, mbind, M_bind.
    pose proof (Flock_counters op nb (l, e)) as Hc.
    destruct (Flock_returns op nb (l, e)) as ([l1 e1]&[H1|[er H1]]); rewrite H1 in *; cbn in *; by subst. }
  destruct t.
  - destruct (shared l =? 0); [done|]. destruct (_ || _); [done|]. exact (Hf _ _ _).
  - destruct (exclusive l =? 0); [done|]. destruct (1 <? exclusive l); [done|]. exact (Hf _ _ _).
Qed.

(** ** The kernel and the processes *)

(** A descriptor of the lock file: the counters its fileLock keeps, what the
    kernel holds for it, and the method it is in, if any.  The instance's thread
    lock keeps it in one at a time. *)
Record peer := mkPeer { pe_lock : fileLock; pe_held : lmode; pe_act : option act }.

Abbreviation world := (gmap nat peer).

(** Shared locks go together; an exclusive one goes with none. *)
Definition compatible (want other : lmode) : bool :=
  match want, other with
  | Unheld, _ | _, Unheld => true
  | HeldShared, HeldShared => true
  | _, _ => false
  end.
Definition grantable (w : world) (p : nat) (op : flockOp) : Prop :=
  ∀ q s, w !! q = Some s → q ≠ p → compatible (mode_of op) (pe_held s) = true.

(** A refused conversion has given up the lock it was converting. *)
Definition refused (op : flockOp) (h : lmode) : lmode :=
  if decide (op ≠ LOCK_UN ∧ mode_of op ≠ h) then Unheld else h.

Inductive wstep (w : world) : nat → world → Prop :=
  | ws_lock p l h t :
      w !! p = Some (mkPeer l h None) → wstep w p (<[p := mkPeer l h (Some (lockA t l))]> w)
  | ws_tryLock p l h t :
      w !! p = Some (mkPeer l h None) → wstep w p (<[p := mkPeer l h (Some (tryLockA t l))]> w)
  | ws_unlock p l h t :
      w !! p = Some (mkPeer l h None) → wstep w p (<[p := mkPeer l h (Some (unlockA t l))]> w)
  | ws_grant p l h op nb k :
      w !! p = Some (mkPeer l h (Some (Flk op nb k))) → grantable w p op →
      wstep w p (<[p := mkPeer l (mode_of op) (Some (k None))]> w)
  | ws_refuse p l h op k :
      w !! p = Some (mkPeer l h (Some (Flk op true k))) → ¬ grantable w p op →
      wstep w p (<[p := mkPeer l (refused op h) (Some (k (Some (ErrSys EWOULDBLOCK))))]> w)
  | ws_return p l h l' o :
      w !! p = Some (mkPeer l h (Some (Ret l' o))) → wstep w p (<[p := mkPeer l' h None]> w).

Definition wsteps : relation world := rtc (fun w w' => ∃ p, wstep w p w').

(** Every descriptor is new. *)
Definition world_new (w : world) : Prop := map_Forall (fun _ s => s = mkPeer newFileLock Unheld None) w.

(** ** The invariant *)

(** However the calls of the program are answered: it ends with the kernel
    holding what the counters say, and it never waits while it holds a shared
    lock. *)
Fixpoint sound (a : act) (h : lmode) : Prop :=
  match a with
  | Ret l _ => 0 ≤ shared l ∧ 0 ≤ exclusive l ∧ h = wanted l
  | Flk op nb k =>
      (nb = false → op = LOCK_UN ∨ h ≠ HeldShared)
      ∧ sound (k None) (mode_of op)
      ∧ (nb = true → sound (k (Some (ErrSys EWOULDBLOCK))) (refused op h))
  end.

Definition peer_ok (s : peer) : Prop :=
  match pe_act s with
  | None => 0 ≤ shared (pe_lock s) ∧ 0 ≤ exclusive (pe_lock s) ∧ pe_held s = wanted (pe_lock s)
  | Some a => sound a (pe_held s)
  end.

Lemma wanted_exclusive l : 0 < exclusive l → wanted l = HeldExclusive.
Proof. intros He. unfold wanted. by rewrite (proj2 (Z.ltb_lt _ _) He). Qed.
Lemma wanted_shared l : exclusive l = 0 → 0 < shared l → wanted l = HeldShared.
Proof. intros He Hs. unfold wanted. rewrite He. by rewrite (proj2 (Z.ltb_lt _ _) Hs). Qed.
Lemma wanted_none l : exclusive l = 0 → shared l = 0 → wanted l = Unheld.
Proof. intros He Hs. unfold wanted. by rewrite He, Hs. Qed.

Ltac counters l := destruct l as [s x]; cbn [shared exclusive addShared addExclusive] in *.

Lemma lockA_sound t l : 0 ≤ shared l → 0 ≤ exclusive l → sound (lockA t l) (wanted l).
Proof.
  intros Hs He. unfold lockA. destruct t.
  - destruct (0 <? shared l) eqn:E1; bsplit; cbn [orb]; [|destruct (0 <? exclusive l) eqn:E2; bsplit].
    + cbn. split_and!; [lia..|]. destruct (Z.eq_dec (exclusive l) 0).
      * rewrite !wanted_shared; cbn; lia || done.
      * rewrite !wanted_exclusive; cbn; lia || done.
    + cbn. split_and!; [lia..|]. rewrite !wanted_exclusive; cbn; lia || done.
    + rewrite wanted_none by lia. cbn. split_and!; [by right|lia..| |done].
      rewrite wanted_shared; cbn; lia || done.
  - destruct (0 <? exclusive l) eqn:E2; bsplit.
    + cbn. split_and!; [lia..|]. rewrite !wanted_exclusive; cbn; lia || done.
    + destruct (0 <? shared l) eqn:E1; bsplit.
      * rewrite wanted_shared by lia. cbn.
        assert (HeldExclusive = wanted (addExclusive 1 l)) by (rewrite wanted_exclusive; cbn; lia || done).
        split_and!; try done; try lia. intros _. split_and!; try done; try lia; first [by left|by right].
      * rewrite wanted_none by lia. cbn.
        assert (HeldExclusive = wanted (addExclusive 1 l)) by (rewrite wanted_exclusive; cbn; lia || done).
        split_and!; try done; try lia. by right.
Qed.

Lemma tryLockA_sound t l : 0 ≤ shared l → 0 ≤ exclusive l → sound (tryLockA t l) (wanted l).
Proof.
  intros Hs He. unfold tryLockA. destruct t.
  - destruct (0 <? shared l) eqn:E1; bsplit; cbn [orb]; [|destruct (0 <? exclusive l) eqn:E2; bsplit].
    + cbn. split_and!; [lia..|]. destruct (Z.eq_dec (exclusive l) 0).
      * rewrite !wanted_shared; cbn; lia || done.
      * rewrite !wanted_exclusive; cbn; lia || done.
    + cbn. split_and!; [lia..|]. rewrite !wanted_exclusive; cbn; lia || done.
    + assert (Unheld = wanted l) as Hw by (by rewrite wanted_none by lia). rewrite <-Hw. cbn.
      assert (HeldShared = wanted (addShared 1 l)) by (rewrite wanted_shared; cbn; lia || done).
      split_and!; try done; try lia.
  - destruct (0 <? exclusive l) eqn:E2; bsplit.
    + cbn. split_and!; [lia..|]. rewrite !wanted_exclusive; cbn; lia || done.
    + assert (HeldExclusive = wanted (addExclusive 1 l)) by (rewrite wanted_exclusive; cbn; lia || done).
      destruct (0 <? shared l) eqn:E1; bsplit.
      * assert (HeldShared = wanted l) as Hw by (by rewrite wanted_shared by lia). rewrite <-Hw. cbn.
        split_and!; try done; try lia. intros _. split_and!; try done; try lia; try (first [by left|by right]).
        intros _. split_and!; try done; try lia. by right.
      * assert (Unheld = wanted l) as Hw by (by rewrite wanted_none by lia). rewrite <-Hw. cbn.
        split_and!; try done; try lia.
Qed.

Lemma unlockA_sound t l : 0 ≤ shared l → 0 ≤ exclusive l → sound (unlockA t l) (wanted l).
Proof.
  intros Hs He. unfold unlockA. destruct t.
  - destruct (shared l =? 0) eqn:E0; bsplit; [by cbn|].
    destruct (1 <? shared l) eqn:E1; bsplit; cbn [orb]; [|destruct (0 <? exclusive l) eqn:E2; bsplit].
    + cbn. split_and!; [lia..|]. destruct (Z.eq_dec (exclusive l) 0).
      * rewrite !wanted_shared; cbn; lia || done.
      * rewrite !wanted_exclusive; cbn; lia || done.
    + cbn. split_and!; [lia..|]. rewrite !wanted_exclusive; cbn; lia || done.
    + cbn. split_and!; try done; try lia; [by left|]. rewrite wanted_none; cbn; lia || done.
  - destruct (exclusive l =? 0) eqn:E0; bsplit; [by cbn|].
    destruct (1 <? exclusive l) eqn:E1; bsplit.
    + cbn. split_and!; [lia..|]. rewrite !wanted_exclusive; cbn; lia || done.
    + rewrite wanted_exclusive by lia. destruct (0 <? shared l) eqn:E2; bsplit; cbn.
      * split_and!; try done; try lia; [by right|]. rewrite wanted_shared; cbn; lia || done.
      * split_and!; try done; try lia; [by left|]. rewrite wanted_none; cbn; lia || done.
Qed.

(** Mutual exclusion in the kernel, and every descriptor in order. *)
Record world_ok (w : world) : Prop := {
  wo_kernel p q s r : w !! p = Some s → w !! q = Some r → p ≠ q → compatible (pe_held s) (pe_held r) = true;
  wo_peers p s : w !! p = Some s → peer_ok s;
}.

Lemma compatible_sym a b : compatible a b = compatible b a.
Proof. by destruct a, b. Qed.

(** A step that changes what the kernel holds for [p] to something that goes
    with the others. *)
Lemma world_ok_update w p s :
  world_ok w → (∀ q r, w !! q = Some r → q ≠ p → compatible (pe_held s) (pe_held r) = true) → peer_ok s →
  world_ok (<[p := s]> w).
Proof.
  intros [Hk Hp] Hc Hs. split.
  - intros q r x y Hx Hy Hne. destruct (decide (p = q)) as [<-|Hpq], (decide (p = r)) as [<-|Hpr]; try done.
    all: rewrite ?lookup_insert_eq, ?lookup_insert_ne in * by done; simplify_eq.
    + by apply (Hc r).
    + rewrite compatible_sym. by apply (Hc q).
    + by apply (Hk q r).
  - intros q x Hx. destruct (decide (p = q)) as [<-|Hpq].
    + rewrite lookup_insert_eq in Hx. by injection Hx as <-.
    + rewrite lookup_insert_ne in Hx by done. by apply (Hp q).
Qed.

Lemma wstep_ok w p w' : wstep w p w' → world_ok w → world_ok w'.
Proof.
  intros Hs Hw. pose proof Hw as [Hk Hp]. destruct Hs as
    [p l h t Hl|p l h t Hl|p l h t Hl|p l h op nb k Hl Hg|p l h op k Hl Hg|p l h l' o Hl];
    pose proof (Hp p _ Hl) as Hpeer; unfold peer_ok in Hpeer; cbn [pe_act pe_lock pe_held] in Hpeer;
    (apply world_ok_update; [done| |unfold peer_ok; cbn [pe_act pe_lock pe_held]]).
  - intros q r Hr Hne. apply (Hk p q (mkPeer l h None) r); done.
  - destruct Hpeer as (?&?&->). by apply lockA_sound.
  - intros q r Hr Hne. apply (Hk p q (mkPeer l h None) r); done.
  - destruct Hpeer as (?&?&->). by apply tryLockA_sound.
  - intros q r Hr Hne. apply (Hk p q (mkPeer l h None) r); done.
  - destruct Hpeer as (?&?&->). by apply unlockA_sound.
  - intros q r Hr Hne. by apply (Hg q).
  - by destruct Hpeer as (_&?&_).
  - intros q r Hr Hne. unfold refused. cbn [pe_held]. case_decide; [done|].
    apply (Hk p q (mkPeer l h (Some (Flk op true k))) r); done.
  - destruct Hpeer as (_&_&Hx). by apply Hx.
  - intros q r Hr Hne. apply (Hk p q (mkPeer l h (Some (Ret l' o))) r); done.
  - exact Hpeer.
Qed.

Lemma wsteps_ok w0 w : world_new w0 → wsteps w0 w → world_ok w.
Proof.
  intros Hn Hr. assert (world_ok w0) as H0.
  { split.
    - intros p q s r Hs Hq _. rewrite (Hn p s Hs), (Hn q r Hq). done.
    - intros p s Hs. rewrite (Hn p s Hs). by split_and!. }
  clear Hn. induction Hr as [w|w w1 w2 [p Hs] _ IH]; [done|]. apply IH. by eapply wstep_ok.
Qed.

(** ** What the invariant gives *)

(** An exclusive count, between methods, excludes what any other descriptor may
    hold, and the counts of the others that are between methods. *)
Lemma exclusion w p q l h s :
  world_ok w → w !! p = Some (mkPeer l h None) → 0 < exclusive l → w !! q = Some s → p ≠ q →
  pe_held s = Unheld
  ∧ (pe_act s = None → shared (pe_lock s) = 0 ∧ exclusive (pe_lock s) = 0).
Proof.
  intros [Hk Hp] Hl He Hs Hne. pose proof (Hk p q _ _ Hl Hs Hne) as Hc. cbn in Hc.
  destruct (Hp p _ Hl) as (_&_&Hh). cbn in Hh. rewrite wanted_exclusive in Hh by done. subst h.
  assert (pe_held s = Unheld) as Hu by (by destruct (pe_held s)). split; [done|]. intros Ha.
  pose proof (Hp q s Hs) as Hq. unfold peer_ok in Hq. rewrite Ha, Hu in Hq. destruct Hq as (H0&H1&Hw).
  unfold wanted in Hw. destruct (0 <? exclusive (pe_lock s)) eqn:E1; [done|].
  destruct (0 <? shared (pe_lock s)) eqn:E2; [done|]. bsplit. lia.
Qed.

(** A call that cannot be granted is in the way of a descriptor that holds the
    lock. *)
Lemma not_grantable w p op :
  ¬ grantable w p op →
  ∃ q s, w !! q = Some s ∧ q ≠ p ∧ compatible (mode_of op) (pe_held s) = false.
Proof.
  intros Hn.
  destruct (decide (map_Forall (fun q s => q ≠ p → compatible (mode_of op) (pe_held s) = true) w)) as [Hf|Hf].
  - destruct Hn. intros q s Hq Hne. by apply (Hf q s Hq).
  - apply map_not_Forall in Hf as (q&s&Hq&Hc); [|apply _]. exists q, s. split; [done|].
    destruct (decide (q = p)) as [->|Hne]; [by destruct Hc|]. split; [done|].
    destruct (compatible _ _); [by destruct Hc|done].
Qed.

Lemma grantable_dec w p op : grantable w p op ∨ ¬ grantable w p op.
Proof.
  destruct (decide (map_Forall (fun q s => q ≠ p → compatible (mode_of op) (pe_held s) = true) w)) as [Hf|Hf].
  - left. intros q s Hq Hne. by apply (Hf q s Hq).
  - right. intros Hg. apply Hf. intros q s Hq Hne. by apply (Hg q).
Qed.

(** A descriptor inside a method that holds the lock is not waiting. *)
Lemma holder_steps w p l h a :
  world_ok w → w !! p = Some (mkPeer l h (Some a)) → h ≠ Unheld → ∃ w', wstep w p w'.
Proof.
  intros [Hk Hp] Hl Hh. pose proof (Hp p _ Hl) as Hs. unfold peer_ok in Hs. cbn [pe_act pe_held] in Hs.
  destruct a as [l' o|op nb k]; [eexists; by eapply ws_return|].
  destruct (grantable_dec w p op) as [Hg|Hg]; [eexists; by eapply ws_grant|].
  destruct nb; [eexists; by eapply ws_refuse|]. exfalso. apply Hg. intros q s Hq Hne.
  destruct Hs as (Hw&_). destruct (Hw eq_refl) as [->|Hns]; [done|].
  assert (h = HeldExclusive) as -> by (by destruct h).
  pose proof (Hk p q _ _ Hl Hq ltac:(done)) as Hc. cbn in Hc. destruct (pe_held s); try done.
  by destruct op.
Qed.

(** A descriptor inside a method can go on, or waits for one that can, or that is
    between methods and holds the lock. *)
Lemma progress w p l h a :
  world_ok w → w !! p = Some (mkPeer l h (Some a)) →
  (∃ w', wstep w p w')
  ∨ ∃ q s, w !! q = Some s ∧ q ≠ p ∧ pe_held s ≠ Unheld ∧ (pe_act s = None ∨ ∃ w', wstep w q w').
Proof.
  intros Hw Hl. destruct a as [l' o|op nb k]; [left; eexists; by eapply ws_return|].
  destruct (grantable_dec w p op) as [Hg|Hg]; [left; eexists; by eapply ws_grant|].
  destruct nb; [left; eexists; by eapply ws_refuse|]. right.
  destruct (not_grantable w p op Hg) as (q&[l' h' a']&Hq&Hne&Hc). exists q, (mkPeer l' h' a').
  cbn [pe_held pe_act] in *. assert (h' ≠ Unheld) as Hh by (intros ->; by destruct op).
  do 3 (split; [done|]). destruct a' as [a'|]; [right|by left]. by eapply holder_steps.
Qed.

(** The calls that are left, whichever way they are answered. *)
Fixpoint calls (a : act) : nat :=
  match a with
  | Ret _ _ => 1
  | Flk _ _ k => S (Nat.max (calls (k None)) (calls (k (Some (ErrSys EWOULDBLOCK)))))
  end.
Definition left_to_do (s : peer) : nat := match pe_act s with None => 0 | Some a => calls a end.

Lemma calls_bound t l :
  (calls (lockA t l) ≤ 5 ∧ calls (tryLockA t l) ≤ 5 ∧ calls (unlockA t l) ≤ 5)%nat.
Proof.
  unfold lockA, tryLockA, unlockA. destruct t.
  - split_and!; repeat (case_match; cbn; try lia).
  - split_and!; repeat (case_match; cbn; try lia); destruct (0 <? shared l); cbn; lia.
Qed.

Lemma wstep_calls w p w' l h a :
  wstep w p w' → w !! p = Some (mkPeer l h (Some a)) →
  ∃ s', w' !! p = Some s' ∧ (left_to_do s' < calls a)%nat.
Proof.
  intros Hs Hl. destruct Hs as
    [p l0 h0 t Hl0|p l0 h0 t Hl0|p l0 h0 t Hl0|p l0 h0 op nb k Hl0 Hg|p l0 h0 op k Hl0 Hg|p l0 h0 l' o Hl0];
    rewrite Hl in Hl0; simplify_eq; eexists; (split; [apply lookup_insert_eq|]); unfold left_to_do; cbn; lia.
Qed.
