(* ===== verification/Store.v ===== *)
(** * The live store: the MMKV struct, its locking and its loading (mmkv.go)

    A method of MMKV is a computation over [St]: the struct and the environment.
    The thread lock [mu] is not modelled: a method runs alone on its instance.
    The dictionary maps a key to a slice, a view of the data mapping for a
    plaintext store and of a decrypted buffer for an encrypted one. *)

From S2P Require Import Prelude GoInt Wire Crc32 Meta Dict Crypt MemFile Flock.

#[local] Set Primitive Projections.

Record MMKV := mkMMKV {
  rootDir : gostring;
  mmapID : gostring;
  key : gostring;
  multiProcess : bool;
  readOnly : bool;
  fl : fileLock;
  data : memoryFile;
  meta : memoryFile;
  crypt : option aesCFB;   (* None = plaintext *)
  info : metaInfo;
  dict : kmap gslice;
  actualSize : Z;
  crcDigest : Z;
  needLoad : bool;
  closed : bool;
  lastErr : option error;
  needFullWriteback : bool;
  enableExpire : bool;
  expiredSeconds : Z;
  compareBeforeSet : bool;
  onContentChanged : bool;   (* a handler is registered *)
  recover : bool;
}.

Definition set_fl (x : fileLock) (m : MMKV) : MMKV :=
  mkMMKV (rootDir m) (mmapID m) (key m) (multiProcess m) (readOnly m) x (data m) (meta m)
    (crypt m) (info m) (dict m) (actualSize m) (crcDigest m) (needLoad m) (closed m) (lastErr m)
    (needFullWriteback m) (enableExpire m) (expiredSeconds m) (compareBeforeSet m)
    (onContentChanged m) (recover m).
Definition set_data (x : memoryFile) (m : MMKV) : MMKV :=
  mkMMKV (rootDir m) (mmapID m) (key m) (multiProcess m) (readOnly m) (fl m) x (meta m)
    (crypt m) (info m) (dict m) (actualSize m) (crcDigest m) (needLoad m) (closed m) (lastErr m)
    (needFullWriteback m) (enableExpire m) (expiredSeconds m) (compareBeforeSet m)
    (onContentChanged m) (recover m).
Definition set_meta (x : memoryFile) (m : MMKV) : MMKV :=
  mkMMKV (rootDir m) (mmapID m) (key m) (multiProcess m) (readOnly m) (fl m) (data m) x
    (crypt m) (info m) (dict m) (actualSize m) (crcDigest m) (needLoad m) (closed m) (lastErr m)
    (needFullWriteback m) (enableExpire m) (expiredSeconds m) (compareBeforeSet m)
    (onContentChanged m) (recover m).
Definition set_crypt (x : option aesCFB) (m : MMKV) : MMKV :=
  mkMMKV (rootDir m) (mmapID m) (key m) (multiProcess m) (readOnly m) (fl m) (data m) (meta m) x
    (info m) (dict m) (actualSize m) (crcDigest m) (needLoad m) (closed m) (lastErr m)
    (needFullWriteback m) (enableExpire m) (expiredSeconds m) (compareBeforeSet m)
    (onContentChanged m) (recover m).
Definition set_info (x : metaInfo) (m : MMKV) : MMKV :=
  mkMMKV (rootDir m) (mmapID m) (key m) (multiProcess m) (readOnly m) (fl m) (data m) (meta m)
    (crypt m) x (dict m) (actualSize m) (crcDigest m) (needLoad m) (closed m) (lastErr m)
    (needFullWriteback m) (enableExpire m) (expiredSeconds m) (compareBeforeSet m)
    (onContentChanged m) (recover m).
Definition set_dict (x : kmap gslice) (m : MMKV) : MMKV :=
  mkMMKV (rootDir m) (mmapID m) (key m) (multiProcess m) (readOnly m) (fl m) (data m) (meta m)
    (crypt m) (info m) x (actualSize m) (crcDigest m) (needLoad m) (closed m) (lastErr m)
    (needFullWriteback m) (enableExpire m) (expiredSeconds m) (compareBeforeSet m)
    (onContentChanged m) (recover m).
Definition set_actualSize (x : Z) (m : MMKV) : MMKV :=
  mkMMKV (rootDir m) (mmapID m) (key m) (multiProcess m) (readOnly m) (fl m) (data m) (meta m)
    (crypt m) (info m) (dict m) x (crcDigest m) (needLoad m) (closed m) (lastErr m)
    (needFullWriteback m) (enableExpire m) (expiredSeconds m) (compareBeforeSet m)
    (onContentChanged m) (recover m).
Definition set_crcDigest (x : Z) (m : MMKV) : MMKV :=
  mkMMKV (rootDir m) (mmapID m) (key m) (multiProcess m) (readOnly m) (fl m) (data m) (meta m)
    (crypt m) (info m) (dict m) (actualSize m) x (needLoad m) (closed m) (lastErr m)
    (needFullWriteback m) (enableExpire m) (expiredSeconds m) (compareBeforeSet m)
    (onContentChanged m) (recover m).
Definition set_needLoad (x : bool) (m : MMKV) : MMKV :=
  mkMMKV (rootDir m) (mmapID m) (key m) (multiProcess m) (readOnly m) (fl m) (data m) (meta m)
    (crypt m) (info m) (dict m) (actualSize m) (crcDigest m) x (closed m) (lastErr m)
    (needFullWriteback m) (enableExpire m) (expiredSeconds m) (compareBeforeSet m)
    (onContentChanged m) (recover m).
Definition set_closed (x : bool) (m : MMKV) : MMKV :=
  mkMMKV (rootDir m) (mmapID m) (key m) (multiProcess m) (readOnly m) (fl m) (data m) (meta m)
    (crypt m) (info m) (dict m) (actualSize m) (crcDigest m) (needLoad m) x (lastErr m)
    (needFullWriteback m) (enableExpire m) (expiredSeconds m) (compareBeforeSet m)
    (onContentChanged m) (recover m).
Definition set_lastErr (x : option error) (m : MMKV) : MMKV :=
  mkMMKV (rootDir m) (mmapID m) (key m) (multiProcess m) (readOnly m) (fl m) (data m) (meta m)
    (crypt m) (info m) (dict m) (actualSize m) (crcDigest m) (needLoad m) (closed m) x
    (needFullWriteback m) (enableExpire m) (expiredSeconds m) (compareBeforeSet m)
    (onContentChanged m) (recover m).
Definition set_needFullWriteback (x : bool) (m : MMKV) : MMKV :=
  mkMMKV (rootDir m) (mmapID m) (key m) (multiProcess m) (readOnly m) (fl m) (data m) (meta m)
    (crypt m) (info m) (dict m) (actualSize m) (crcDigest m) (needLoad m) (closed m)
    (lastErr m) x (enableExpire m) (expiredSeconds m) (compareBeforeSet m) (onContentChanged m)
    (recover m).
Definition set_enableExpire (x : bool) (m : MMKV) : MMKV :=
  mkMMKV (rootDir m) (mmapID m) (key m) (multiProcess m) (readOnly m) (fl m) (data m) (meta m)
    (crypt m) (info m) (dict m) (actualSize m) (crcDigest m) (needLoad m) (closed m) (lastErr m)
    (needFullWriteback m) x (expiredSeconds m) (compareBeforeSet m) (onContentChanged m)
    (recover m).
Definition set_expiredSeconds (x : Z) (m : MMKV) : MMKV :=
  mkMMKV (rootDir m) (mmapID m) (key m) (multiProcess m) (readOnly m) (fl m) (data m) (meta m)
    (crypt m) (info m) (dict m) (actualSize m) (crcDigest m) (needLoad m) (closed m) (lastErr m)
    (needFullWriteback m) (enableExpire m) x (compareBeforeSet m) (onContentChanged m) (recover m).
Definition set_compareBeforeSet (x : bool) (m : MMKV) : MMKV :=
  mkMMKV (rootDir m) (mmapID m) (key m) (multiProcess m) (readOnly m) (fl m) (data m) (meta m)
    (crypt m) (info m) (dict m) (actualSize m) (crcDigest m) (needLoad m) (closed m) (lastErr m)
    (needFullWriteback m) (enableExpire m) (expiredSeconds m) x (onContentChanged m) (recover m).

(** A method's state. *)
Record St := mkSt { st : MMKV; env : sys }.

#[local] Unset Primitive Projections.

Definition set_st (m : MMKV) (s : St) : St := mkSt m (env s).
Definition set_env (e : sys) (s : St) : St := mkSt (st s) e.

(** Reading and writing the struct's fields. *)
Definition this : M St MMKV := fun s => (Ok (st s), s).
Definition upd (f : MMKV → MMKV) : M St unit := modify (fun s => set_st (f (st s)) s).

(** Calling a method of a component. *)
Definition onStore {A} (c : M MMKV A) : M St A := zoom st set_st c.
Definition onSys {A} (c : M sys A) : M St A := zoom env set_env c.
Definition onLock {A} (c : FL A) : M St A :=
  zoom (fun s => (fl (st s), env s)) (fun p s => mkSt (set_fl p.1 (st s)) p.2) c.
Definition onData {A} (c : MF A) : M St A :=
  zoom (fun s => (data (st s), env s)) (fun p s => mkSt (set_data p.1 (st s)) p.2) c.
Definition onMeta {A} (c : MF A) : M St A :=
  zoom (fun s => (meta (st s), env s)) (fun p s => mkSt (set_meta p.1 (st s)) p.2) c.

(** ** Locking *)

Definition whenMulti (c : FL unit) : M St unit :=
  m ← this; if multiProcess m then ignore (onLock c) else mret tt.

Definition lockShared : M St unit := whenMulti (lock sharedLock).
Definition unlockShared : M St unit := whenMulti (unlock sharedLock).
Definition lockExclusive : M St unit := whenMulti (lock exclusiveLock).
Definition unlockExclusive : M St unit := whenMulti (unlock exclusiveLock).

(** ** Loading *)

Definition readActualSize (m : MMKV) : Z :=
  if versionActualSize <=? mi_version (info m) then mi_actualSize (info m)
  else
    let mem := memory (data m) in
    if 4 <=? len mem then le_val (sub mem 0 4) else 0.

(** [m.data.memory()[4 : 4+actual]]: the bound is a uint32. *)
Definition regionOf (m : MMKV) (actual : Z) : outcome bytes :=
  slice (memory (data m)) 4 (u32 (4 + actual)).

Definition crcValid (m : MMKV) (actual want : Z) : outcome bool :=
  region ← regionOf m actual;
  Ok (crc32_ChecksumIEEE region =? want).

(** The dictionary of the views parseDict returned: views of the mapping from
    offset 4 on, or of the decrypted buffer. *)
Definition mappedDict (gen : nat) (vd : vdict) : kmap gslice :=
  (fun v => Mapped gen (4 + v.1) v.2) <$> vd.
Definition heapDict (plain : bytes) (vd : vdict) : kmap gslice :=
  (fun v => Heap (view_bytes plain v)) <$> vd.

(** The number of the current data mapping. *)
Definition dataGen (m : MMKV) : nat :=
  match mf_data (data m) with Some mp => map_gen mp | None => 0 end.

Definition decodeRegion (actual crc : Z) : M MMKV unit :=
  m ← get;
  region ← lift (regionOf m actual);
  plain ← lift (match crypt m with
                | None => Ok region
                | Some a => Decrypt a region (mi_iv (info m))
                end);
  vd ← lift (parseDict plain);
  _ ← modify (set_dict (match crypt m with
                        | None => mappedDict (dataGen m) vd
                        | Some _ => heapDict plain vd
                        end));
  _ ← modify (set_actualSize actual);
  modify (set_crcDigest crc).

Definition salvage : M MMKV unit :=
  m ← get;
  let fileSize := len (memory (data m)) in
  let actual := mi_actualSize (info m) in
  let actual :=
    if fileSize <? actual + 4 then
      if 4 <=? fileSize then u32 (fileSize - 4) else 0
    else actual in
  region ← lift (regionOf m actual);
  let dict' :=
    match crypt m with
    | None => mappedDict (dataGen m) (parseDictGreedy region)
    | Some a =>
        match Decrypt a region (mi_iv (info m)) with
        | Ok p => heapDict p (parseDictGreedy p)
        | _ => mappedDict (dataGen m) (parseDictGreedy region)
        end
    end in
  _ ← modify (set_dict dict');
  _ ← modify (set_actualSize (mi_actualSize (info m)));
  _ ← modify (set_crcDigest (mi_crcDigest (info m)));
  modify (set_needFullWriteback true).

(** [int(a) < fileSize && int(a)+4 <= fileSize && m.crcValid(a, crc)]. *)
Definition acceptable (m : MMKV) (a crc : Z) : outcome bool :=
  let fileSize := len (memory (data m)) in
  if (a <? fileSize) && (a + 4 <=? fileSize) then crcValid m a crc else Ok false.

Definition loadData : M MMKV unit :=
  m ← get;
  mi ← lift (parseMeta (memory (meta m)));
  _ ← modify (set_info mi);
  if maxSupportedVersion <? mi_version mi then fail ErrUnsupportedVersion
  else
    _ ← modify (set_enableExpire ((versionFlag <=? mi_version mi) && expireEnabled mi));
    m ← get;
    let actual := readActualSize m in
    good ← lift (acceptable m actual (mi_crcDigest mi));
    if (good : bool) then decodeRegion actual (mi_crcDigest mi)
    else
      let la := mi_lastActualSize mi in
      rollback ← lift (acceptable m la (mi_lastCRCDigest mi));
      if (rollback : bool) then
        _ ← modify (set_info (set_crc_actual (mi_lastCRCDigest mi) la mi));
        decodeRegion la (mi_lastCRCDigest mi)
      else if recover m then salvage
      else
        _ ← modify (set_dict ∅);
        _ ← modify (set_actualSize 0);
        modify (set_crcDigest 0).

(** ** Freshness *)

Definition notifyChanged : M St unit :=
  m ← this;
  if onContentChanged m then onSys (modify (fun s => set_changes (S (changes s)) s)) else mret tt.

(** An error is recorded, not returned. *)
Definition recordErr (c : M St unit) : M St unit := fun s =>
  match c s with
  | (Err e, s') => (Ok tt, set_st (set_lastErr (Some e) (st s')) s')
  | r => r
  end.

Definition reloadBestEffort (remapFirst : bool) : M St unit :=
  recordErr (_ ← (if remapFirst then onData remap else mret tt); onStore loadData).

Definition checkLoadData : M St unit :=
  m ← this;
  if needLoad m then
    _ ← upd (set_needLoad false);
    reloadBestEffort true
  else if negb (multiProcess m) then mret tt
  else
    match parseMeta (memory (meta m)) with
    | Ok live =>
        if negb (mi_sequence live =? mi_sequence (info m)) then
          _ ← reloadBestEffort true; notifyChanged
        else if negb (mi_crcDigest live =? crcDigest m) || negb (mi_actualSize live =? actualSize m) then
          _ ← reloadBestEffort false; notifyChanged
        else mret tt
    | Err e => upd (set_lastErr (Some e))
    | Panic => lift Panic
    | NoFuel => lift NoFuel
    end.
