(* ===== verification/StoreOps.v ===== *)
(** * The write side of the store (mmkv_io.go, mmkv_expire.go, mmkv_crypt.go, mmkv_compare.go)

    [setBlob] chooses between the three ways to write a pair: [overrideRaw]
    rewrites the region in place, [appendRaw] appends to it, and
    [fullWritebackGrow] packs the whole dictionary again. *)

From S2P Require Import Prelude GoInt Wire Crc32 Meta Dict Crypt MemFile Flock Store.

(** ** Helpers *)

(** Go compares strings byte by byte. *)
Fixpoint bytes_leb (a b : gostring) : bool :=
  match a, b with
  | [], _ => true
  | _ :: _, [] => false
  | x :: a, y :: b => (b2z x <? b2z y) || ((b2z x =? b2z y) && bytes_leb a b)
  end.
Definition bytes_le (a b : gostring) : Prop := bytes_leb a b = true.
#[global] Instance bytes_le_dec a b : Decision (bytes_le a b).
Proof. unfold bytes_le. apply _. Defined.

(** The keys of the dictionary, after sort.Strings. *)
Definition sortedKeys {A} (d : kmap A) : list gostring :=
  merge_sort bytes_le (map_to_list d).*1.

(** The bytes of every value; reading a slice of an old mapping faults. *)
Definition derefDict (mf : memoryFile) (d : kmap gslice) : outcome bdict :=
  l ← mapM (fun e : gostring * gslice => b ← deref mf e.2; mret (e.1, b)) (map_to_list d);
  mret (list_to_map l).

Definition randomIV : M sys bytes :=
  _ ← syscall;
  s ← get;
  _ ← modify (set_entropy (tail (entropy s)));
  mret (fit 16 (default [] (head (entropy s)))).

Definition set_iv (iv : bytes) (mi : metaInfo) : metaInfo :=
  mkMeta (mi_crcDigest mi) (mi_version mi) (mi_sequence mi) iv (mi_actualSize mi)
    (mi_lastActualSize mi) (mi_lastCRCDigest mi) (mi_flags mi).
Definition set_flags (f : Z) (mi : metaInfo) : metaInfo :=
  mkMeta (mi_crcDigest mi) (mi_version mi) (mi_sequence mi) (mi_iv mi) (mi_actualSize mi)
    (mi_lastActualSize mi) (mi_lastCRCDigest mi) f.

(** A sequence-bumping rewrite: version, size and digest, and the
    last-confirmed point with them. *)
Definition bump_confirm (crc actual : Z) (mi : metaInfo) : metaInfo :=
  mkMeta crc versionFlag (u32 (mi_sequence mi + 1)) (mi_iv mi) actual actual crc (mi_flags mi).

(** ** In-place writes *)

(** The two words an in-place write updates in the meta mapping. *)
Definition writeMetaWords : M MMKV unit :=
  m ← get;
  mf ← lift (poke (meta m) (Z.of_nat offCRC) (le_bytes 4 (crcDigest m)));
  mf ← lift (poke mf (Z.of_nat offActualSize) (le_bytes 4 (actualSize m)));
  modify (set_meta mf).

Definition appendRaw (pair : bytes) : M MMKV unit :=
  m ← get;
  let p := 4 + actualSize m in
  d ← lift (poke (data m) p pair);
  _ ← modify (set_data d);
  _ ← modify (set_actualSize (u32 (actualSize m + u32 (len pair))));
  _ ← modify (set_crcDigest (crc32_Update (crcDigest m) pair));
  _ ← modify (fun m => set_info (set_crc_actual (crcDigest m) (actualSize m) (info m)) m);
  writeMetaWords.

(** [mem[lo:lo+n]] of the data mapping, as a dictionary value. *)
Definition dataView (m : MMKV) (lo n : Z) : outcome gslice :=
  _ ← slice (memory (data m)) lo (lo + n);
  Ok (Mapped (dataGen m) (Z.to_nat lo) (Z.to_nat n)).

Definition overrideRaw (key : gostring) (pair : bytes) (blobLen : Z) : M MMKV unit :=
  m ← get;
  dn ← lift (copyAt (data m) 4 itemSizeHolderBytes);
  let p := 4 + dn.2 in
  dn ← lift (copyAt dn.1 p pair);
  _ ← modify (set_data dn.1);
  _ ← modify (set_actualSize (u32 (len itemSizeHolderBytes + len pair)));
  m ← get;
  region ← lift (slice (memory (data m)) 4 (4 + actualSize m));
  _ ← modify (set_crcDigest (crc32_ChecksumIEEE region));
  _ ← modify (fun m => set_info (set_crc_actual (crcDigest m) (actualSize m) (info m)) m);
  _ ← writeMetaWords;
  m ← get;
  v ← lift (dataView m (p + (len pair - blobLen)) blobLen);
  modify (fun m => set_dict (<[key := v]> (dict m)) m).

(** ** The full write-back *)

(** [for target >= newSize { newSize *= 2 }].  64 doublings pass every size an
    int holds ([growLoop_ok]). *)
Fixpoint growLoop (fuel : nat) (target newSize : Z) : outcome Z :=
  if newSize <=? target then
    match fuel with
    | O => NoFuel
    | S fuel => growLoop fuel target (newSize * 2)
    end
  else Ok newSize.

(** The growth decision: the size aimed at, and whether the file grows. *)
Definition growth (needSync : bool) (incoming payloadLen dictLen fileSize : Z) : Z * bool :=
  let lenNeeded := 4 + payloadLen + incoming in
  let grow := fileSize <=? lenNeeded in
  if 0 <? incoming then
    let laterDicCount := Z.max 1 (dictLen + 1) in
    let avgItemSize := (lenNeeded + laterDicCount - 1) / laterDicCount in
    let futureUsage := avgItemSize * Z.max 8 (laterDicCount / 2) in
    let target := lenNeeded + futureUsage in
    (target, grow || (needSync && (fileSize <=? target)))
  else (lenNeeded, grow).

Section ops.
Context `{Platform}.

(** What lands on disk: the region, or its ciphertext under a fresh IV. *)
Definition makePayload (region : bytes) : M St bytes :=
  m ← this;
  match crypt m with
  | None => mret region
  | Some a =>
      iv ← onSys randomIV;
      ct ← lift (Encrypt a region iv);
      _ ← upd (fun m => set_info (set_iv iv (info m)) m);
      mret ct
  end.

(** The growth of the file, with headroom for the pairs to come. *)
Definition ensureRoom (needSync : bool) (incoming payloadLen : Z) : M St unit :=
  m ← this;
  let fs := fileSize (data m) in
  let g := growth needSync incoming payloadLen (Z.of_nat (size (dict m))) fs in
  if g.2 then
    newSize ← lift (growLoop 64 g.1 (if fs <? 1 then 1 else fs));
    onData (truncate newSize)
  else mret tt.

(** The payload and the whole meta are written, and the views built again:
    from the region when encrypted, else from the mapping. *)
Definition writeRegion (region payload : bytes) : M MMKV unit :=
  m ← get;
  d ← lift (poke (data m) 0 (zeros 4));
  d ← lift (poke d 4 payload);
  _ ← modify (set_data d);
  _ ← modify (set_actualSize (u32 (len payload)));
  m ← get;
  ondisk ← lift (slice (memory (data m)) 4 (4 + len payload));
  _ ← modify (set_crcDigest (crc32_ChecksumIEEE ondisk));
  _ ← modify (fun m => set_info (bump_confirm (crcDigest m) (actualSize m) (info m)) m);
  m ← get;
  mf ← lift (copyAt (meta m) 0 (marshal (info m)));
  _ ← modify (set_meta mf.1);
  m ← get;
  src ← lift (match crypt m with
              | None => slice (memory (data m)) 4 (4 + len region)
              | Some _ => Ok region
              end);
  vd ← lift (parseDict src);
  _ ← modify (set_dict (match crypt m with
                        | None => mappedDict (dataGen m) vd
                        | Some _ => heapDict region vd
                        end));
  modify (set_needFullWriteback false).

Definition fullWritebackGrow (needSync : bool) (incoming : Z) : M St unit :=
  m ← this;
  blobs ← lift (derefDict (data m) (dict m));
  let region := encodeRegion (sortedKeys (dict m)) blobs in
  payload ← makePayload region;
  _ ← ensureRoom needSync incoming (len payload);
  _ ← onStore (writeRegion region payload);
  if negb needSync then mret tt
  else
    _ ← onData (msync true);
    onMeta (msync true).

Definition fullWriteback : M St unit := fullWritebackGrow true 0.

(** ** Setting a value *)

Definition setBlob (key : gostring) (blob : bytes) : M St unit :=
  m ← this;
  let wasEmpty := (size (dict m) =? 0)%nat in
  let pair := obuf (writeData (writeData emptyOutput key) blob) in
  let fastOK := (match crypt m with None => true | Some _ => false end)
                && negb (needFullWriteback m) && (versionFlag <=? mi_version (info m)) in
  let only := (match dict m !! key with Some _ => true | None => false end)
              && (size (dict m) =? 1)%nat in
  if fastOK && negb (multiProcess m)
     && (4 + len itemSizeHolderBytes + len pair <=? fileSize (data m))
     && (only || (wasEmpty && (0 <? actualSize m)))
  then onStore (overrideRaw key pair (len blob))
  else
    let spaceLeft := fileSize (data m) - 4 - actualSize m in
    if fastOK && (len pair <=? spaceLeft) && negb wasEmpty then
      let p := 4 + actualSize m in
      _ ← onStore (appendRaw pair);
      let blobStart := p + (len pair - len blob) in
      m ← this;
      v ← lift (dataView m blobStart (len blob));
      upd (fun m => set_dict (<[key := v]> (dict m)) m)
    else
      _ ← upd (fun m => set_dict (<[key := Heap blob]> (dict m)) m);
      fullWritebackGrow (negb wasEmpty) (len pair).

Definition appendExpire (nowUnix : Z) (blob : bytes) (seconds : Z) : bytes :=
  let ts := if seconds =? 0 then 0 else u32 (nowUnix + seconds) in
  blob ++ le_bytes 4 ts.

Definition setValueLocked (key : gostring) (blob : bytes) : M St unit :=
  m ← this;
  same ← lift (if compareBeforeSet m && negb (enableExpire m) then
                 match dict m !! key with
                 | Some old => b ← deref (data m) old; Ok (bool_decide (b = blob))
                 | None => Ok false
                 end
               else Ok false);
  if (same : bool) then mret tt
  else
    s ← get;
    let blob := if enableExpire m then appendExpire (now (env s)) blob (expiredSeconds m) else blob in
    setBlob key blob.

(** The frame of the writing methods: the exclusive lock around the body, and
    the checks before it. *)
Definition exclusively {A} (c : M St A) : M St A :=
  _ ← lockExclusive; deferring unlockExclusive c.
Definition sharedly {A} (c : M St A) : M St A :=
  _ ← lockShared; deferring unlockShared c.

(** [c] on an open, writable instance; what a closed and a read-only one answer
    is given. *)
Definition writingElse {A} (onClosed onReadOnly : M St A) (c : M St A) : M St A :=
  exclusively (
    m ← this;
    if closed m then onClosed
    else if readOnly m then onReadOnly
    else _ ← checkLoadData; c).
Definition writing {A} (c : M St A) : M St A := writingElse (fail ErrClosed) (fail ErrReadOnly) c.

Definition setValue (key : gostring) (blob : bytes) : M St unit :=
  writing (setValueLocked key blob).

(** ** Removing *)

Definition RemoveValueForKey (key : gostring) : M St unit :=
  writing (
    m ← this;
    match dict m !! key with
    | None => mret tt
    | Some _ =>
        _ ← upd (fun m => set_dict (delete key (dict m)) m);
        let tomb := obuf (writeData (writeData emptyOutput key) []) in
        let spaceLeft := fileSize (data m) - 4 - actualSize m in
        if (len tomb <=? spaceLeft) && (versionFlag <=? mi_version (info m)) && (0 <? actualSize m)
           && negb (needFullWriteback m)
        then onStore (appendRaw tomb)
        else fullWriteback
    end).

(** The keys of the list that the dictionary has are deleted; was there one? *)
Fixpoint deleteKeys (keys : list gostring) (removed : bool) (d : kmap gslice)
    : bool * kmap gslice :=
  match keys with
  | [] => (removed, d)
  | k :: keys =>
      match d !! k with
      | Some _ => deleteKeys keys true (delete k d)
      | None => deleteKeys keys removed d
      end
  end.

Definition RemoveValuesForKeys (keys : list gostring) : M St unit :=
  writing (
    m ← this;
    let r := deleteKeys keys false (dict m) in
    _ ← upd (set_dict r.2);
    if negb r.1 then mret tt else fullWriteback).

(** ** Clearing, trimming, flushing *)

Definition clearAllLocked : M St unit :=
  _ ← onData (truncate 0);
  m ← this;
  d ← lift (poke (data m) 0 (zeros 4));
  _ ← upd (set_data d);
  _ ← upd (set_dict ∅);
  _ ← upd (set_actualSize 0);
  _ ← upd (set_crcDigest 0);
  _ ← upd (fun m => set_info (bump_confirm 0 0 (info m)) m);
  m ← this;
  mf ← lift (copyAt (meta m) 0 (marshal (info m)));
  _ ← upd (set_meta mf.1);
  _ ← upd (set_needFullWriteback false);
  _ ← onData (msync true);
  onMeta (msync true).

Definition ClearAll : M St unit := writing clearAllLocked.

(** [for target > (actualSize+4)*2 { target /= 2 }].  The loop runs at most once
    for each binary digit of the size. *)
Fixpoint trimLoop (fuel : nat) (bound target : Z) : outcome Z :=
  if bound <? target then
    match fuel with
    | O => NoFuel
    | S fuel => trimLoop fuel bound (target / 2)
    end
  else Ok target.

(** The shrinking half of Trim: toward twice the live size, at least a page. *)
Definition shrink : M St unit :=
  m ← this;
  let floor := pageRoundUp 0 in
  let size := fileSize (data m) in
  target ← lift (trimLoop (S (Z.to_nat (Z.log2 size))) ((actualSize m + 4) * 2) size);
  let target := if target <? floor then floor else target in
  if fileSize (data m) <=? target then mret tt
  else
    _ ← onData (truncate target);
    m ← this;
    _ ← onStore (decodeRegion (actualSize m) (crcDigest m));
    onMeta (msync true).

Definition Trim : M St unit :=
  writing (
    m ← this;
    if actualSize m =? 0 then clearAllLocked
    else
      _ ← fullWriteback;
      shrink).

Definition syncFlush (sync : bool) : M St unit :=
  exclusively (
    m ← this;
    if closed m then fail ErrClosed
    else if readOnly m then mret tt
    else
      _ ← onData (msync sync);
      onMeta (msync sync)).
Definition Sync : M St unit := syncFlush true.
Definition Async : M St unit := syncFlush false.

(** ** Values *)

(** The value of a key: with expiration on, the trailing timestamp is checked
    and cut off. *)
Definition value (m : MMKV) (nowUnix : Z) (key : gostring) : outcome (option gslice) :=
  match dict m !! key with
  | None => Ok None
  | Some v =>
      if enableExpire m && (4 <=? slice_len v) then
        let n := Z.to_nat (slice_len v) in
        ts ← deref (data m) (subslice v (n - 4) n);
        let t := le_val ts in
        if negb (t =? 0) && (t <=? nowUnix) then Ok None
        else Ok (Some (subslice v 0 (n - 4)))
      else Ok (Some v)
  end.

(** ** Expiration *)

(** Every value gains four zero bytes: never expires. *)
Definition addNever (mf : memoryFile) (d : kmap gslice) : outcome (kmap gslice) :=
  derefDict mf d ≫= fun blobs : bdict => Ok ((fun v : bytes => Heap (v ++ zeros 4)) <$> blobs).

Definition EnableAutoKeyExpire (seconds : Z) : M St unit :=
  writing (
    m ← this;
    let wasEnabled := enableExpire m in
    _ ← upd (set_expiredSeconds seconds);
    _ ← upd (set_enableExpire true);
    _ ← upd (set_compareBeforeSet false);
    _ ← upd (fun m => set_info (set_flags (Z.lor (mi_flags (info m)) flagEnableExpire) (info m)) m);
    _ ← (if negb wasEnabled then
           d ← lift (addNever (data m) (dict m)); upd (set_dict d)
         else mret tt);
    fullWriteback).

(** The live values without their timestamps, copied. *)
Definition stripAll (m : MMKV) (nowUnix : Z) : outcome (kmap gslice) :=
  l ← mapM (fun e : gostring * gslice =>
              v ← value m nowUnix e.1;
              match v with
              | None => mret (e.1, None)
              | Some s => b ← deref (data m) s; mret (e.1, Some (Heap b))
              end) (map_to_list (dict m));
  Ok (omap id (list_to_map l : kmap (option gslice))).

Definition DisableAutoKeyExpire : M St unit :=
  writing (
    m ← this;
    if negb (enableExpire m) then mret tt
    else
      s ← get;
      stripped ← lift (stripAll m (now (env s)));
      _ ← upd (set_dict stripped);
      _ ← upd (set_enableExpire false);
      _ ← upd (set_expiredSeconds 0);
      _ ← upd (fun m =>
        set_info (set_flags (Z.ldiff (mi_flags (info m)) flagEnableExpire) (info m)) m);
      fullWriteback).

Definition IsExpirationEnabled : M St bool := sharedly (m ← this; mret (enableExpire m)).

(** ** Keys and comparison *)

(** [if err := c(); err != nil { undo; return err }]. *)
Definition onErr {A} (undo : MMKV → MMKV) (c : M St A) : M St A := fun s =>
  match c s with
  | (Err e, s') => (Err e, set_st (undo (st s')) s')
  | r => r
  end.

Definition ReKey (newKey : bytes) : M St unit :=
  writing (
    m ← this;
    let prev := crypt m in
    _ ← upd (set_crypt (if len newKey =? 0 then None else Some (newAESCFB newKey)));
    onErr (set_crypt prev) fullWriteback).

Definition IsEncryptionEnabled : M St bool :=
  sharedly (m ← this; mret (match crypt m with Some _ => true | None => false end)).

Definition EnableCompareBeforeSet : M St unit :=
  exclusively (
    m ← this;
    if enableExpire m then mret tt else upd (set_compareBeforeSet true)).
Definition DisableCompareBeforeSet : M St unit := exclusively (upd (set_compareBeforeSet false)).
Definition IsCompareBeforeSetEnabled : M St bool := sharedly (m ← this; mret (compareBeforeSet m)).

(** ** Opening and closing *)

(** The state of [open]: the instance, and what the data path and the meta path
    hold ([None]: no file). *)
Record Opening := mkOpening { op_st : St; op_data : option bytes; op_meta : option bytes }.

Definition onSt {A} (c : M St A) : M Opening A :=
  zoom op_st (fun s o => mkOpening s (op_data o) (op_meta o)) c.
Definition openData (c : M (option bytes * sys) memoryFile) : M Opening memoryFile := fun o =>
  let '(r, (f, e)) := c (op_data o, env (op_st o)) in
  (r, mkOpening (set_env e (op_st o)) f (op_meta o)).
Definition openMeta (c : M (option bytes * sys) memoryFile) : M Opening memoryFile := fun o =>
  let '(r, (f, e)) := c (op_meta o, env (op_st o)) in
  (r, mkOpening (set_env e (op_st o)) (op_data o) f).

(** [_ = f.close()] of a file that is not in the struct yet. *)
Definition closeFile (f : memoryFile) : M St unit := fun s =>
  let '(_, (_, e)) := mf_close (f, env s) in (Ok tt, set_env e s).

(** Opening the second file; the first is closed when it fails. *)
Definition openSecond (d : memoryFile) (c : M Opening memoryFile) : M Opening memoryFile := fun s =>
  match c s with
  | (Err e, s') => (_ ← onSt (closeFile d); fail e) s'
  | r => r
  end.

(** [m.data, m.meta = data, meta; m.fl = newFileLock(meta.f)]. *)
Definition adopt (d mt : memoryFile) : M St unit :=
  _ ← upd (set_data d);
  _ ← upd (set_meta mt);
  upd (set_fl newFileLock).

(** The repair of a salvaged store. *)
Definition repair : M St unit :=
  m ← this;
  if needFullWriteback m then
    if multiProcess m then
      _ ← ignore (onLock (lock exclusiveLock));
      deferring (ignore (onLock (unlock exclusiveLock))) fullWriteback
    else fullWriteback
  else mret tt.

Definition openFiles : M Opening unit :=
  m ← onSt this;
  if readOnly m then
    d ← openData openMemoryFileReadOnly;
    mt ← openSecond d (openMeta openMemoryFileReadOnly);
    _ ← onSt (adopt d mt);
    onSt (onStore loadData)
  else
    _ ← onSt (onSys syscall);                                     (* mkdir *)
    d ← openData (openMemoryFile 0);
    mt ← openSecond d (openMeta (openMemoryFile (Z.of_nat metaSize)));
    _ ← onSt (adopt d mt);
    _ ← onSt (onStore loadData);
    onSt repair.

(** [open] on files with the given contents. *)
Definition open (dataDisk metaDisk : option bytes) : M St unit := fun s =>
  let '(r, o) := openFiles (mkOpening s dataDisk metaDisk) in (r, op_st o).

(** The struct MMKVWithID hands to [open]. *)
Definition nilFile : memoryFile := mkMemFile false [] None 0 false 0.
Definition newMMKV (root id key : gostring) (multi ro : bool) (cryptKey : bytes)
    (handler recov : bool) : MMKV :=
  mkMMKV root id key multi ro newFileLock nilFile nilFile
    (if 0 <? len cryptKey then Some (newAESCFB cryptKey) else None)
    zeroMeta ∅ 0 0 false false None false false 0 false handler recov.

(** Both run; the first error is returned. *)
Definition firstErr (c d : M St unit) : M St unit := fun s =>
  match c s with
  | (Err e, s1) => let '(_, s2) := d s1 in (Err e, s2)
  | (_, s1) => d s1
  end.

(** Closing the descriptor of the meta file gives its flock back, and the kernel
    closes it even when it reports an error. *)
Definition closeMeta : M St unit := fun s =>
  let '(o, s') := onMeta mf_close s in
  (o, if mf_open (meta (st s)) then set_env (set_held Unheld (env s')) s' else s').

Definition Close : M St unit :=
  m ← this;
  if closed m then mret tt
  else
    _ ← upd (set_closed true);
    firstErr (onData mf_close) closeMeta.

Definition ClearMemoryCache : M St unit :=
  m ← this;
  if closed m then mret tt
  else
    _ ← upd (set_dict ∅);
    _ ← upd (set_actualSize 0);
    _ ← upd (set_crcDigest 0);
    upd (set_needLoad true).

End ops.
