(* ===== verification/StoreInv.v ===== *)
(** * The invariant of the store

    [store_ok m b] ties the three copies of a store together: the dictionary in
    memory, the bytes of the data file and the meta file all stand for the same
    finite map [b].  The lemmas show what the pieces of the write side do to it. *)

From S2P Require Import Prelude GoInt Wire Crc32 Meta Dict Crypt MemFile Flock Store StoreOps.

(** ** Sorted keys *)

Lemma bytes_leb_refl a : bytes_leb a a = true.
Proof. induction a as [|x a IH]; [done|]. cbn. rewrite IH, Z.eqb_refl. apply orb_true_r. Qed.

#[global] Instance bytes_le_trans : Transitive bytes_le.
Proof.
  unfold bytes_le. intros a. induction a as [|x a IH]; intros [|y b] [|z c]; cbn; try done.
  intros H1 H2. apply orb_true_iff in H1 as [H1|H1]; apply orb_true_iff in H2 as [H2|H2]; bsplit;
    apply orb_true_iff; [left; lia..|].
  right. apply andb_true_iff. split; [lia|]. by apply (IH b c).
Qed.

#[global] Instance bytes_le_total : Total bytes_le.
Proof.
  unfold bytes_le. intros a. induction a as [|x a IH]; intros [|y b]; cbn; auto.
  destruct (IH b) as [H|H]; destruct (Z.lt_trichotomy (b2z x) (b2z y)) as [|[|]];
    [left|left|right|left|right|right]; apply orb_true_iff; try (left; lia);
    right; apply andb_true_iff; (split; [lia|done]).
Qed.

#[global] Instance bytes_le_antisymm : AntiSymm (=) bytes_le.
Proof.
  unfold bytes_le. intros a. induction a as [|x a IH]; intros [|y b]; cbn; try done.
  intros H1 H2. apply orb_true_iff in H1 as [H1|H1]; apply orb_true_iff in H2 as [H2|H2]; bsplit;
    try lia. f_equal; [by apply b2z_inj|]. by apply IH.
Qed.

Lemma sortedKeys_perm {A : Type} (d : kmap A) : sortedKeys d ≡ₚ (map_to_list d).*1.
Proof. apply merge_sort_Permutation. Qed.

Lemma elem_of_sortedKeys {A : Type} (d : kmap A) k : k ∈ sortedKeys d ↔ is_Some (d !! k).
Proof.
  rewrite sortedKeys_perm, list_elem_of_fmap. split.
  - intros ([k' x]&->&Hx). apply elem_of_map_to_list in Hx. eauto.
  - intros [x Hx]. exists (k, x). split; [done|]. by apply elem_of_map_to_list.
Qed.

Lemma NoDup_sortedKeys {A : Type} (d : kmap A) : NoDup (sortedKeys d).
Proof. rewrite sortedKeys_perm. apply NoDup_fst_map_to_list. Qed.

Lemma length_sortedKeys {A : Type} (d : kmap A) : length (sortedKeys d) = size d.
Proof. rewrite sortedKeys_perm, length_fmap. apply length_map_to_list. Qed.

(** The order of the keys is a function of the set of keys. *)
Lemma sortedKeys_dom {A B : Type} (d : kmap A) (e : kmap B) :
  (∀ k, is_Some (d !! k) ↔ is_Some (e !! k)) → sortedKeys d = sortedKeys e.
Proof.
  intros Hd. apply (Sorted_unique bytes_le); [apply Sorted_merge_sort, _..|].
  apply NoDup_Permutation; [apply NoDup_sortedKeys..|].
  intros k. by rewrite !elem_of_sortedKeys.
Qed.

(** ** Dictionaries of slices *)

(** Reading the slices of [d] gives the bytes of [b]. *)
Definition dict_shows (mf : memoryFile) (d : kmap gslice) (b : bdict) : Prop :=
  ∀ k, match d !! k, b !! k with
       | Some s, Some v => deref mf s = Ok v
       | None, None => True
       | _, _ => False
       end.

Lemma dict_shows_dom mf d b k : dict_shows mf d b → is_Some (d !! k) ↔ is_Some (b !! k).
Proof.
  intros Hd. specialize (Hd k). destruct (d !! k), (b !! k); try done; by split; intros [].
Qed.

Lemma dict_shows_size mf d b : dict_shows mf d b → size d = size b.
Proof.
  intros Hd. rewrite <-(length_sortedKeys d), <-(length_sortedKeys b).
  f_equal. apply sortedKeys_dom. intros k. by eapply dict_shows_dom.
Qed.

Lemma dict_shows_keys mf d b : dict_shows mf d b → sortedKeys d = sortedKeys b.
Proof. intros Hd. apply sortedKeys_dom. intros k. by eapply dict_shows_dom. Qed.

Lemma dict_shows_insert mf d b k s v :
  dict_shows mf d b → deref mf s = Ok v → dict_shows mf (<[k:=s]> d) (<[k:=v]> b).
Proof.
  intros Hd Hs j. destruct (decide (k = j)) as [->|].
  - by rewrite !lookup_insert_eq.
  - rewrite !lookup_insert_ne by done. apply Hd.
Qed.

Lemma dict_shows_delete mf d b k : dict_shows mf d b → dict_shows mf (delete k d) (delete k b).
Proof.
  intros Hd j. destruct (decide (k = j)) as [->|].
  - by rewrite !lookup_delete_eq.
  - rewrite !lookup_delete_ne by done. apply Hd.
Qed.

Lemma dict_shows_empty mf : dict_shows mf ∅ ∅.
Proof. intros k. by rewrite !lookup_empty. Qed.

(** A change of the file that no slice sees. *)
Lemma dict_shows_change mf mf' d b :
  dict_shows mf d b → map_Forall (fun _ s => deref mf' s = deref mf s) d → dict_shows mf' d b.
Proof.
  intros Hd Hs k. specialize (Hd k). destruct (d !! k) as [s|] eqn:E; [|done].
  destruct (b !! k); [|done]. apply Hs in E. congruence.
Qed.

Lemma dict_shows_fmap (mf : memoryFile) (vd : vdict) (f : view → gslice) (g : view → bytes) :
  map_Forall (fun _ v => deref mf (f v) = Ok (g v)) vd → dict_shows mf (f <$> vd) (g <$> vd).
Proof.
  intros Hv k. rewrite !lookup_fmap. destruct (vd !! k) as [v|] eqn:E; [|done]. cbn. by apply Hv in E.
Qed.

Lemma mapM_ok {A B} (f : A → outcome B) (g : A → B) l :
  Forall (fun x => f x = Ok (g x)) l → mapM f l = Ok (g <$> l).
Proof.
  induction 1 as [|x l Hx _ IH]; [done|]. cbn. rewrite Hx. cbn. by rewrite IH.
Qed.

(** A map rebuilt from its own keys. *)
Lemma lookup_rebuild {A B : Type} (f : gostring → B) (d : kmap A) k :
  (list_to_map ((fun e => (e.1, f e.1)) <$> map_to_list d) : kmap B) !! k = (fun _ => f k) <$> d !! k.
Proof.
  apply option_eq. intros v. rewrite <-elem_of_list_to_map.
  - rewrite list_elem_of_fmap. split.
    + intros ([k' s]&[= -> ->]&Hs). apply elem_of_map_to_list in Hs. by rewrite Hs.
    + destruct (d !! k) as [s|] eqn:Hs; [|done]. intros [= <-].
      exists (k, s). split; [done|]. by apply elem_of_map_to_list.
  - rewrite <-list_fmap_compose. apply (NoDup_fst_map_to_list d).
Qed.

Lemma derefDict_ok mf d b : dict_shows mf d b → derefDict mf d = Ok b.
Proof.
  intros Hd. unfold derefDict.
  rewrite (mapM_ok _ (fun e => (e.1, default [] (b !! e.1)))).
  - cbn [mbind outcome_bind mret outcome_ret]. f_equal. apply map_eq. intros k.
    rewrite (lookup_rebuild (fun k => default [] (b !! k))). specialize (Hd k).
    by destruct (d !! k), (b !! k).
  - apply Forall_forall. intros [k s] Hs. apply elem_of_map_to_list in Hs. specialize (Hd k).
    rewrite Hs in Hd. cbn. destruct (b !! k); [|done]. by rewrite Hd.
Qed.

(** ** The region in the file *)

Definition region (m : MMKV) : bytes := sub (mf_file (data m)) 4 (Z.to_nat (actualSize m)).

Lemma regionOf_ok m a :
  mf_ok (data m) → 0 ≤ a → 4 + a ≤ len (mf_file (data m)) → 4 + a < 2 ^ 32 →
  regionOf m a = Ok (sub (mf_file (data m)) 4 (Z.to_nat a)).
Proof.
  intros Hok H0 Hl Hw. unfold regionOf. rewrite memory_ok by done.
  rewrite u32_small by (unfold is_u32; lia). rewrite slice_ok by lia.
  do 2 f_equal. lia.
Qed.

(** The plaintext of the bytes on disk, under the store's key and IV. *)
Definition decrypts (m : MMKV) (ct plain : bytes) : Prop :=
  match crypt m with
  | None => plain = ct
  | Some a => Decrypt a ct (mi_iv (info m)) = Ok plain
  end.

(** The slices of the dictionary end inside the region. *)
Definition slice_in (bound : Z) (s : gslice) : Prop :=
  match s with Heap _ => True | Mapped _ off n => Z.of_nat (off + n) ≤ bound end.

(** ** The invariant *)

Section invariant.
Context `{Platform}.

(** Both files are mapped read-write, and at least a page long: the data file has
    room for the header and the meta file for the struct. *)
Record files_ok (m : MMKV) : Prop := {
  fo_data : mf_ok (data m);
  fo_meta : mf_ok (meta m);
  fo_data_rw : mf_readOnly (data m) = false;
  fo_meta_rw : mf_readOnly (meta m) = false;
  fo_data_page : pageRoundUp 0 ≤ len (mf_file (data m));
  fo_meta_page : pageRoundUp (Z.of_nat metaSize) ≤ len (mf_file (meta m));
  fo_info : meta_wf (info m);
}.

Lemma page_header n : pageRoundUp 0 ≤ n → 4 ≤ n.
Proof. pose proof (pageRoundUp_min 0). pose proof pagesize_ge. lia. Qed.
Lemma fo_data_len m : files_ok m → 4 ≤ len (mf_file (data m)).
Proof. intros Hf. apply page_header, Hf. Qed.
Lemma fo_meta_len m : files_ok m → Z.of_nat metaSize ≤ len (mf_file (meta m)).
Proof. intros Hf. pose proof (fo_meta_page m Hf). pose proof (pageRoundUp_ge (Z.of_nat metaSize)). lia. Qed.

(** The dictionary in memory stands for [b]. *)
Record dict_is (m : MMKV) (b : bdict) : Prop := {
  di_shows : dict_shows (data m) (dict m) b;
  di_ok : bdict_ok b;
}.

(** The size and digest of the meta file, as a later load will read them: the
    current pair describes the region, or it is not acceptable and the
    last-confirmed pair does (a rolled-back store). *)
Definition load_point (m : MMKV) (live : metaInfo) (a c : Z) : Prop :=
  let cur := readActualSize (set_info live m) in
  (acceptable m cur (mi_crcDigest live) = Ok true ∧ a = cur ∧ c = mi_crcDigest live
     ∧ info m = live) ∨
  (acceptable m cur (mi_crcDigest live) = Ok false ∧
   acceptable m (mi_lastActualSize live) (mi_lastCRCDigest live) = Ok true ∧
   a = mi_lastActualSize live ∧ c = mi_lastCRCDigest live ∧ info m = set_crc_actual c a live).

Record store_ok (m : MMKV) (b : bdict) : Prop := {
  so_files : files_ok m;
  so_dict : dict_is m b;
  so_actual : 0 ≤ actualSize m;
  so_fits : 4 + actualSize m ≤ len (mf_file (data m));
  so_nowrap : 4 + actualSize m < 2 ^ 32;
  so_crc : crcDigest m = crc32_ChecksumIEEE (region m);
  so_views : map_Forall (fun _ s => slice_in (4 + actualSize m) s) (dict m);
  so_plain : ∃ plain vd, decrypts m (region m) plain ∧ parseDict plain = Ok vd ∧ show plain vd = b;
  so_version : mi_version (info m) ≤ maxSupportedVersion;
  so_expire : enableExpire m = (versionFlag <=? mi_version (info m)) && expireEnabled (info m);
  so_meta : ∃ live, parseMeta (mf_file (meta m)) = Ok live
              ∧ load_point m live (actualSize m) (crcDigest m);
  so_loaded : needLoad m = false;
}.

(** The meta file holds the meta in memory, which describes the region.  It is so
    after every write; it is not after a load that rolled back. *)
Record settled (m : MMKV) : Prop := {
  se_meta : parseMeta (mf_file (meta m)) = Ok (info m);
  se_version : versionActualSize ≤ mi_version (info m);
  se_actual : mi_actualSize (info m) = actualSize m;
  se_crc : mi_crcDigest (info m) = crcDigest m;
}.

(** What a later load would settle on: the current size and digest. *)
Definition published (m : MMKV) (live : metaInfo) : Prop :=
  parseMeta (mf_file (meta m)) = Ok live
  ∧ acceptable m (readActualSize (set_info live m)) (mi_crcDigest live) = Ok true.

(** What a write leaves alone. *)
Record same_config (m m' : MMKV) : Prop := {
  sc_multi : multiProcess m' = multiProcess m;
  sc_ro : readOnly m' = readOnly m;
  sc_fl : fl m' = fl m;
  sc_crypt : crypt m' = crypt m;
  sc_closed : closed m' = closed m;
  sc_expire : enableExpire m' = enableExpire m;
  sc_seconds : expiredSeconds m' = expiredSeconds m;
  sc_compare : compareBeforeSet m' = compareBeforeSet m;
  sc_recover : recover m' = recover m;
  sc_handler : onContentChanged m' = onContentChanged m;
  sc_lastErr : lastErr m' = lastErr m;
  sc_flags : mi_flags (info m') = mi_flags (info m);
}.

#[global] Instance same_config_refl : Reflexive same_config.
Proof. by split. Qed.
#[global] Instance same_config_trans : Transitive same_config.
Proof. intros m1 m2 m3 [] []. split; congruence. Qed.

(** ** Loading what the meta file describes *)

(** The size a load takes from the meta or, before version 3, from the header of
    the data file. *)
Definition sizeOf (meta : metaInfo) (data : bytes) : Z :=
  if versionActualSize <=? mi_version meta then mi_actualSize meta
  else if 4 <=? len data then le_val (sub data 0 4) else 0.

Lemma sizeOf_readActualSize m live :
  mf_ok (data m) → sizeOf live (mf_file (data m)) = readActualSize (set_info live m).
Proof. intros Hok. unfold sizeOf, readActualSize. cbn [info data set_info]. by rewrite memory_ok. Qed.

Lemma sizeOf_u32 meta data : meta_wf meta → is_u32 (sizeOf meta data).
Proof.
  intros Hm. unfold sizeOf. destruct (_ <=? _); [apply Hm|].
  destruct (4 <=? len data) eqn:E; bsplit; [|unfold is_u32; lia].
  pose proof (le_val_range (sub data 0 4)) as Hr. rewrite length_sub in Hr by lia. exact Hr.
Qed.

Lemma acceptable_true m a c :
  mf_ok (data m) → 0 ≤ a → 4 + a ≤ len (mf_file (data m)) → 4 + a < 2 ^ 32 →
  c = crc32_ChecksumIEEE (sub (mf_file (data m)) 4 (Z.to_nat a)) → acceptable m a c = Ok true.
Proof.
  intros Hok H0 Hl Hw ->. unfold acceptable. rewrite memory_ok by done. do 2 btrue. cbn [andb].
  unfold crcValid. rewrite regionOf_ok by done. cbn [mbind outcome_bind]. by rewrite Z.eqb_refl.
Qed.

Lemma settled_published m b : store_ok m b → settled m → published m (info m).
Proof.
  intros Hs [Hm Hv Ha Hc]. split; [done|]. unfold readActualSize. cbn [info set_info]. btrue.
  rewrite Ha, Hc. by apply acceptable_true; [apply Hs..|apply (so_crc _ _ Hs)].
Qed.

(** The meta file holds [info m], and [info m] describes the region. *)
Lemma load_point_current m :
  mf_ok (data m) → versionActualSize ≤ mi_version (info m) →
  mi_actualSize (info m) = actualSize m → mi_crcDigest (info m) = crcDigest m →
  0 ≤ actualSize m → 4 + actualSize m ≤ len (mf_file (data m)) → 4 + actualSize m < 2 ^ 32 →
  crcDigest m = crc32_ChecksumIEEE (region m) →
  load_point m (info m) (actualSize m) (crcDigest m).
Proof.
  intros Hok Hv Ha Hc H0 Hl Hw Hr. left. unfold readActualSize. cbn [set_info info].
  rewrite (proj2 (Z.leb_le _ _) Hv), Ha, Hc. split_and!; [|done..].
  by apply acceptable_true.
Qed.

Lemma decrypts_total m ct : meta_wf (info m) → ∃ plain, decrypts m ct plain.
Proof.
  intros Hm. unfold decrypts. destruct (crypt m) as [a|]; [|eauto].
  destruct (Decrypt_ok a ct (mi_iv (info m))) as (p&Hp&_); [apply Hm|eauto].
Qed.

(** The mapped views of a parsed region. *)
Lemma mappedDict_shows m (vd : vdict) n :
  mf_ok (data m) → (4 + n ≤ length (mf_file (data m)))%nat →
  vdict_ok (sub (mf_file (data m)) 4 n) vd →
  dict_shows (data m) (mappedDict (dataGen m) vd) (show (sub (mf_file (data m)) 4 n) vd).
Proof.
  intros Hok Hl Hvd. apply dict_shows_fmap. intros k v Hv.
  apply Hvd in Hv as (_&_&Hb). rewrite length_sub in Hb by lia.
  destruct Hok as [[g Hd] Hs]. unfold dataGen. rewrite Hd. cbn [map_gen].
  rewrite deref_mapped; [|done|by split; eauto|lia].
  unfold view_bytes. rewrite sub_sub by lia. done.
Qed.

Lemma heapDict_shows mf plain (vd : vdict) : dict_shows mf (heapDict plain vd) (show plain vd).
Proof. by apply dict_shows_fmap. Qed.

Lemma mappedDict_in gen (vd : vdict) n plain :
  vdict_ok plain vd → len plain ≤ n → map_Forall (fun _ s => slice_in (4 + n) s) (mappedDict gen vd).
Proof.
  intros Hvd Hn k s Hs. unfold mappedDict in Hs. rewrite lookup_fmap in Hs.
  destruct (vd !! k) as [v|] eqn:E; [|done]. injection Hs as <-. apply Hvd in E as (_&_&?). cbn. lia.
Qed.

Lemma heapDict_in bound plain (vd : vdict) :
  map_Forall (fun _ s => slice_in bound s) (heapDict plain vd).
Proof.
  intros k s Hs. unfold heapDict in Hs. rewrite lookup_fmap in Hs.
  destruct (vd !! k); [|done]. by injection Hs as <-.
Qed.

Lemma show_ok plain (vd : vdict) : vdict_ok plain vd → bdict_ok (show plain vd).
Proof.
  intros Hvd k v Hv. unfold show in Hv. rewrite lookup_fmap in Hv.
  destruct (vd !! k) as [w|] eqn:E; [|done]. injection Hv as <-.
  apply Hvd in E as (?&?&?). split; [done|]. unfold view_bytes. intros Hn.
  apply (f_equal length) in Hn. rewrite length_sub in Hn by lia. cbn in Hn. lia.
Qed.

(** What decodeRegion installs in memory. *)
Definition decoded (m : MMKV) (plain : bytes) (vd : vdict) (a c : Z) : MMKV :=
  set_crcDigest c (set_actualSize a
    (set_dict (match crypt m with
               | None => mappedDict (dataGen m) vd
               | Some _ => heapDict plain vd
               end) m)).

Lemma decodeRegion_ok m a c plain vd :
  mf_ok (data m) → 0 ≤ a → 4 + a ≤ len (mf_file (data m)) → 4 + a < 2 ^ 32 →
  decrypts m (sub (mf_file (data m)) 4 (Z.to_nat a)) plain → parseDict plain = Ok vd →
  decodeRegion a c m = (Ok tt, decoded m plain vd a c).
Proof.
  intros Hok H0 Hl Hw Hd Hp. unfold decodeRegion, mbind, M_bind, get, lift.
  rewrite regionOf_ok by done. unfold decrypts in Hd. unfold decoded.
  destruct (crypt m) as [k|]; [rewrite Hd|subst plain]; by rewrite Hp.
Qed.

(** The decoded dictionary shows the parsed region. *)
Lemma decoded_shows m a c plain vd :
  mf_ok (data m) → 0 ≤ a → 4 + a ≤ len (mf_file (data m)) →
  decrypts m (sub (mf_file (data m)) 4 (Z.to_nat a)) plain → parseDict plain = Ok vd →
  dict_shows (data m) (dict (decoded m plain vd a c)) (show plain vd)
  ∧ map_Forall (fun _ s => slice_in (4 + a) s) (dict (decoded m plain vd a c)).
Proof.
  intros Hok H0 Hl Hd Hp. apply parseDict_ok in Hp. cbn [decoded dict set_crcDigest set_actualSize set_dict].
  unfold decrypts in Hd. destruct (crypt m) as [k|]; [|subst plain].
  - split; [apply heapDict_shows|apply heapDict_in].
  - split; [apply mappedDict_shows; [done|lia|done]|].
    eapply mappedDict_in; [done|]. rewrite length_sub; lia.
Qed.

(** A store's own load point loads back the dictionary it stands for. *)
Lemma decrypts_info m m' ct plain :
  crypt m' = crypt m → mi_iv (info m') = mi_iv (info m) → decrypts m ct plain → decrypts m' ct plain.
Proof. unfold decrypts. by intros -> ->. Qed.

(** What loadData installs from the meta [live] when it settles on size [a] and
    digest [c]. *)
Definition loaded (m : MMKV) (live inf : metaInfo) (plain : bytes) (vd : vdict) (a c : Z) : MMKV :=
  decoded (set_info inf (set_enableExpire ((versionFlag <=? mi_version live) && expireEnabled live) m))
    plain vd a c.

Lemma loadData_ok m live inf a c plain vd :
  mf_ok (data m) → mf_ok (meta m) → parseMeta (mf_file (meta m)) = Ok live →
  mi_version live ≤ maxSupportedVersion → load_point (set_info inf m) live a c →
  0 ≤ a → 4 + a ≤ len (mf_file (data m)) → 4 + a < 2 ^ 32 →
  decrypts (set_info live m) (sub (mf_file (data m)) 4 (Z.to_nat a)) plain →
  parseDict plain = Ok vd →
  loadData m = (Ok tt, loaded m live inf plain vd a c).
Proof.
  intros Hd Hm Hp Hv Hl H0 Ha Hw Hdec Hparse. unfold loadData, mbind, M_bind, get, lift, modify.
  rewrite (memory_ok (meta m)), Hp by done. bfalse.
  change (acceptable (set_enableExpire _ (set_info live m)) ?a ?c) with (acceptable m a c).
  change (readActualSize (set_enableExpire _ (set_info live m)))
    with (readActualSize (set_info live m)).
  destruct Hl as [(H1&->&->&Hi)|(H1&H2&->&->&Hi)]; cbn [set_info info] in Hi; subst inf.
  - change (acceptable (set_info live m) ?a ?c) with (acceptable m a c) in H1.
    change (readActualSize (set_info live (set_info live m)))
      with (readActualSize (set_info live m)) in *.
    rewrite H1. by rewrite (decodeRegion_ok _ _ _ plain vd).
  - change (acceptable (set_info _ m) ?a ?c) with (acceptable m a c) in H1, H2.
    change (readActualSize (set_info live (set_info _ m)))
      with (readActualSize (set_info live m)) in H1.
    rewrite H1, H2. cbv beta iota. by rewrite (decodeRegion_ok _ _ _ plain vd).
Qed.

(** Loading a store's files into an instance with the store's key gives the
    store: the loaded instance satisfies the invariant for the same map. *)
Lemma loads_store m b m0 :
  store_ok m b → mf_ok (data m0) → mf_ok (meta m0) →
  mf_readOnly (data m0) = false → mf_readOnly (meta m0) = false →
  mf_file (data m0) = mf_file (data m) → mf_file (meta m0) = mf_file (meta m) →
  crypt m0 = crypt m → needLoad m0 = false →
  ∃ m', loadData m0 = (Ok tt, m') ∧ store_ok m' b
    ∧ enableExpire m' = enableExpire m ∧ actualSize m' = actualSize m ∧ info m' = info m
    ∧ (settled m → settled m') ∧ data m' = data m0 ∧ meta m' = meta m0
    ∧ needFullWriteback m' = needFullWriteback m0
    ∧ same_config (set_enableExpire (enableExpire m) (set_info (info m) m0)) m'.
Proof.
  intros Hs Hd0 Hm0 Hrd Hrm Ed Em Ec Hn.
  destruct (so_meta _ _ Hs) as (live&Hlive&Hl). destruct (so_plain _ _ Hs) as (plain&vd&Hdec&Hp&Hb).
  pose proof (so_files _ _ Hs) as Hf.
  assert (mi_version live = mi_version (info m) ∧ mi_iv live = mi_iv (info m)
    ∧ expireEnabled live = expireEnabled (info m)) as (Ev&Ei&Ex).
  { destruct Hl as [(_&_&_&->)|(_&_&_&_&->)]; done. }
  assert (∀ m1 a c, data m1 = data m0 → acceptable m1 a c = acceptable m a c) as Eacc.
  { intros m1 a c E1. unfold acceptable, crcValid, regionOf.
    rewrite E1. by rewrite !memory_ok, Ed by apply Hf || done. }
  assert (∀ m1, data m1 = data m0 → readActualSize (set_info live m1) = readActualSize (set_info live m)) as Eact.
  { intros m1 E1. unfold readActualSize. cbn [set_info info data]. rewrite E1.
    by rewrite !memory_ok, Ed by apply Hf || done. }
  assert (∀ m1, data m1 = data m0 → info m1 = info m → load_point m1 live (actualSize m) (crcDigest m)) as Hlp.
  { intros m1 E1 E2. unfold load_point in *. by rewrite !(Eacc m1), !(Eact m1), E2 by done. }
  assert (∀ m1, crypt m1 = crypt m → mi_iv (info m1) = mi_iv (info m) →
    decrypts m1 (sub (mf_file (data m0)) 4 (Z.to_nat (actualSize m))) plain) as Hdec0.
  { intros m1 E1 E2. rewrite Ed. eapply decrypts_info; [exact E1|exact E2|exact Hdec]. }
  set (x := (versionFlag <=? mi_version live) && expireEnabled live).
  assert (x = enableExpire m) as Hx by (unfold x; rewrite Ev, Ex; symmetry; apply Hs).
  destruct (decoded_shows (set_info (info m) (set_enableExpire x m0)) (actualSize m) (crcDigest m) plain vd)
    as [Hsh Hin]; [done|apply Hs|cbn; rewrite Ed; apply Hs|by apply Hdec0|done|].
  exists (loaded m0 live (info m) plain vd (actualSize m) (crcDigest m)). split.
  { apply loadData_ok; [done|done|by rewrite Em|rewrite Ev; apply Hs|by apply Hlp|apply Hs
      |rewrite Ed; apply Hs|apply Hs|by apply Hdec0|done]. }
  split; [|split_and!; try done; first [intros []; split; try done; cbn; by rewrite Em|by split]].
  destruct Hf as [? ? ? ? F5 F6 ?], Hs as [? Hdi ? Hfit ? Hcrc ? ? ? ? ? ?].
  split; try done.
  - split; try done; cbn; [by rewrite Ed|by rewrite Em].
  - split; [by rewrite <-Hb|apply Hdi].
  - cbn. by rewrite Ed.
  - change (crcDigest m = crc32_ChecksumIEEE (sub (mf_file (data m0)) 4 (Z.to_nat (actualSize m)))).
    by rewrite Ed.
  - exists plain, vd. split; [|done]. by apply (Hdec0 (loaded m0 live (info m) plain vd (actualSize m) (crcDigest m))).
  - change (x = (versionFlag <=? mi_version (info m)) && expireEnabled (info m)).
    by rewrite Hx.
  - exists live. split; [cbn; by rewrite Em|]. by apply Hlp.
Qed.

(** ** In-place writes *)

(** The meta mapping after its digest and size words are rewritten. *)
Definition metaWords (mf : memoryFile) (c a : Z) : memoryFile :=
  set_mf_file (splice (splice (mf_file mf) offCRC (le_bytes 4 c)) offActualSize (le_bytes 4 a)) mf.

Lemma writeMetaWords_ok m :
  mf_ok (meta m) → mf_readOnly (meta m) = false → Z.of_nat metaSize ≤ len (mf_file (meta m)) →
  writeMetaWords m = (Ok tt, set_meta (metaWords (meta m) (crcDigest m) (actualSize m)) m).
Proof.
  intros Hok Hr Hl. unfold writeMetaWords, metaWords, mbind, M_bind, get, lift.
  unfold metaSize in Hl. unfold offCRC, offActualSize.
  assert (0 + len (le_bytes 4 (crcDigest m)) ≤ len (mf_file (meta m))) as L1
    by (rewrite length_le_bytes; lia).
  rewrite poke_ok; [|done|done|done|exact L1].
  pose proof (poke_mf_ok (meta m) 0 (le_bytes 4 (crcDigest m)) Hok ltac:(lia) L1) as Hok1.
  rewrite poke_ok; [|exact Hok1|done|done|].
  - done.
  - cbn [set_mf_file mf_file]. rewrite length_splice by (rewrite length_le_bytes; lia). rewrite length_le_bytes. lia.
Qed.

Lemma metaWords_ok mf c a :
  mf_ok mf → Z.of_nat metaSize ≤ len (mf_file mf) →
  mf_ok (metaWords mf c a) ∧ length (mf_file (metaWords mf c a)) = length (mf_file mf).
Proof.
  intros Hok Hl. unfold metaSize in Hl.
  assert (length (splice (splice (mf_file mf) offCRC (le_bytes 4 c)) offActualSize (le_bytes 4 a))
    = length (mf_file mf)) as L.
  { assert (length (splice (mf_file mf) offCRC (le_bytes 4 c)) = length (mf_file mf)) as L1.
    { apply length_splice. rewrite length_le_bytes. unfold offCRC. lia. }
    rewrite length_splice; [done|]. rewrite L1, length_le_bytes. unfold offActualSize. lia. }
  split; [by apply mf_ok_set_file|done].
Qed.

(** The state after a write inside the file: the bytes [f] in the data file, the
    size [a] and digest [c] in memory and in the meta words. *)
Definition inplace (f : bytes) (a c : Z) (d : kmap gslice) (m : MMKV) : MMKV :=
  set_dict d (set_meta (metaWords (meta m) c a)
    (set_info (set_crc_actual c a (info m))
      (set_crcDigest c (set_actualSize a (set_data (set_mf_file f (data m)) m))))).

Lemma inplace_config f a c d m : same_config m (inplace f a c d m).
Proof. by split. Qed.

Lemma files_ok_inplace f a c d m :
  files_ok m → is_u32 c → is_u32 a → length f = length (mf_file (data m)) →
  files_ok (inplace f a c d m).
Proof.
  intros Hf Hc Ha Hl. destruct (metaWords_ok (meta m) c a (fo_meta _ Hf) (fo_meta_len _ Hf)) as [M1 M2].
  destruct Hf as [F1 F2 F3 F4 F5 F6 [? ? ? ? ? ? ? ?]].
  split; cbn [inplace data meta info set_dict set_meta set_info set_crcDigest set_actualSize set_data];
    try done.
  - by apply mf_ok_set_file.
  - cbn [set_mf_file mf_file]. by rewrite Hl.
  - by rewrite M2.
Qed.

(** A plaintext write inside the file keeps the invariant when the new bytes
    parse to the new dictionary: the meta words make the size and the digest a
    load point at once. *)
Lemma inplace_store f a c d m b b' vd :
  store_ok m b → crypt m = None → versionActualSize ≤ mi_version (info m) →
  length f = length (mf_file (data m)) → 0 ≤ a → 4 + a ≤ len f → 4 + a < 2 ^ 32 →
  c = crc32_ChecksumIEEE (sub f 4 (Z.to_nat a)) →
  parseDict (sub f 4 (Z.to_nat a)) = Ok vd → show (sub f 4 (Z.to_nat a)) vd = b' →
  dict_shows (set_mf_file f (data m)) d b' →
  map_Forall (fun _ s => slice_in (4 + a) s) d →
  store_ok (inplace f a c d m) b'.
Proof.
  intros Hs Hc Hv Hl H0 Ha Hw Ec Hp Hb Hd Hin.
  assert (is_u32 c) as Hcu by (subst c; auto with mmkv).
  assert (is_u32 a) as Hau by (unfold is_u32; lia).
  pose proof (files_ok_inplace f a c d m (so_files _ _ Hs) Hcu Hau Hl) as Hf'.
  destruct (so_meta _ _ Hs) as (live&Hlive&Hlp).
  assert (set_crc_actual c a (info m) = set_crc_actual c a live) as Einfo.
  { destruct Hlp as [(_&_&_&->)|(_&_&_&_&->)]; done. }
  split; try done.
  - split; [done|]. rewrite <-Hb. by eapply show_ok, parseDict_ok.
  - eexists (sub f 4 (Z.to_nat a)), vd. split_and!; [|done..]. unfold decrypts. cbn. by rewrite Hc.
  - apply Hs.
  - apply Hs.
  - exists (set_crc_actual c a live). split; [by apply parseMeta_update|].
    rewrite <-Einfo. by apply (load_point_current (inplace f a c d m)); [apply Hf'|..].
  - apply Hs.
Qed.

Lemma inplace_settled f a c d m b :
  store_ok m b → versionActualSize ≤ mi_version (info m) → is_u32 c → is_u32 a →
  settled (inplace f a c d m).
Proof.
  intros Hs Hv Hc Ha. destruct (so_meta _ _ Hs) as (live&Hlive&Hlp). split; try done.
  assert (info (inplace f a c d m) = set_crc_actual c a live) as ->
    by (destruct Hlp as [(_&_&_&Hi)|(_&_&_&_&Hi)]; cbn; by rewrite Hi).
  by apply parseMeta_update.
Qed.

Lemma inplace_meta_len f a c d m :
  files_ok m → length (mf_file (meta (inplace f a c d m))) = length (mf_file (meta m)).
Proof. intros Hf. apply metaWords_ok; [apply Hf|by apply fo_meta_len]. Qed.

(** Slices that end before the written bytes read the same. *)
Lemma deref_splice mf off bs s :
  mf_ok mf → 0 ≤ off → off + len bs ≤ len (mf_file mf) → slice_in off s →
  deref (set_mf_file (splice (mf_file mf) (Z.to_nat off) bs) mf) s = deref mf s.
Proof.
  intros Hok H0 Hl Hs. destruct s as [|g o n]; [done|]. cbn [deref].
  pose proof (poke_mf_ok mf off bs Hok H0 Hl) as Hok'.
  change (mf_data (set_mf_file ?f mf)) with (mf_data mf).
  destruct (mf_data mf) as [mp|]; [|done]. destruct (g =? map_gen mp)%nat; [|done].
  rewrite !memory_ok by done. cbn in Hs. cbn [set_mf_file mf_file].
  rewrite !slice_ok; [|lia|lia|lia|rewrite length_splice; lia].
  f_equal. rewrite sub_splice_before by lia. done.
Qed.

Lemma slice_in_mono x y s : x ≤ y → slice_in x s → slice_in y s.
Proof. destruct s; cbn; [done|lia]. Qed.

(** A view of the data mapping reads the bytes of the file. *)
Lemma deref_view f m off n :
  mf_ok (data m) → length f = length (mf_file (data m)) → (off + n ≤ length f)%nat →
  deref (set_mf_file f (data m)) (Mapped (dataGen m) off n) = Ok (sub f off n).
Proof.
  intros Hok Hl Hn. pose proof (mf_ok_set_file (data m) f Hok Hl) as Hok'.
  destruct Hok as [[g Hd] _]. unfold dataGen. rewrite Hd. cbn [map_gen].
  by rewrite (deref_mapped (set_mf_file f (data m))).
Qed.

Lemma store_crc_u32 m b : store_ok m b → is_u32 (crcDigest m).
Proof. intros Hs. rewrite (so_crc _ _ Hs). auto with mmkv. Qed.

Lemma region_nonempty m b : store_ok m b → 0 < actualSize m → region m ≠ [].
Proof.
  intros Hs Ha Hr. apply (f_equal length) in Hr. unfold region in Hr.
  pose proof (so_fits _ _ Hs). rewrite length_sub in Hr by lia. cbn in Hr. lia.
Qed.

(** The file and the region with [pair] appended. *)
Definition appendFile (m : MMKV) (pair : bytes) : bytes :=
  splice (mf_file (data m)) (Z.to_nat (4 + actualSize m)) pair.

Lemma appendFile_region m pair :
  0 ≤ actualSize m → 4 + actualSize m + len pair ≤ len (mf_file (data m)) →
  sub (appendFile m pair) 4 (Z.to_nat (actualSize m + len pair)) = region m ++ pair.
Proof.
  intros H0 Hl. unfold appendFile, region.
  replace (Z.to_nat (actualSize m + len pair)) with (Z.to_nat (actualSize m) + length pair)%nat by lia.
  rewrite sub_split. f_equal.
  - by rewrite sub_splice_before by lia.
  - replace (4 + Z.to_nat (actualSize m))%nat with (Z.to_nat (4 + actualSize m)) by lia.
    by rewrite sub_splice_same by lia.
Qed.

(** The state after an append. *)
Definition appended (pair : bytes) (d : kmap gslice) (m : MMKV) : MMKV :=
  inplace (appendFile m pair) (actualSize m + len pair) (crc32_Update (crcDigest m) pair) d m.

Lemma appendRaw_ok m pair :
  files_ok m → 0 ≤ actualSize m → 4 + actualSize m + len pair ≤ len (mf_file (data m)) →
  4 + actualSize m + len pair < 2 ^ 32 →
  appendRaw pair m = (Ok tt, appended pair (dict m) m).
Proof.
  intros Hf H0 Hl Hw. unfold appendRaw, mbind, M_bind, get, lift, modify.
  rewrite poke_ok by (apply Hf || lia).
  rewrite (u32_small (len pair)) by (unfold is_u32; lia).
  rewrite u32_small by (unfold is_u32; lia).
  by rewrite writeMetaWords_ok by (exact (fo_meta_len _ Hf) || apply Hf).
Qed.

(** Appending a pair to a plaintext store keeps the invariant: the incremental
    digest is the digest of the longer region, whose log has one more pair. *)
Lemma append_store m b k v d' :
  store_ok m b → crypt m = None → versionFlag ≤ mi_version (info m) → 0 < actualSize m →
  entry_ok (k, v) →
  4 + actualSize m + len (pair_bytes (k, v)) ≤ len (mf_file (data m)) →
  4 + actualSize m + len (pair_bytes (k, v)) < 2 ^ 32 →
  dict_shows (set_mf_file (appendFile m (pair_bytes (k, v))) (data m)) d' (apply_entry b (k, v)) →
  map_Forall (fun _ s => slice_in (4 + (actualSize m + len (pair_bytes (k, v)))) s) d' →
  store_ok (appended (pair_bytes (k, v)) d' m) (apply_entry b (k, v)).
Proof.
  intros Hs Hc Hv Ha He Hl Hw Hsh Hin. set (pair := pair_bytes (k, v)) in *.
  destruct (so_plain _ _ Hs) as (plain&vd&Hdec&Hp&Hb).
  unfold decrypts in Hdec. rewrite Hc in Hdec. subst plain.
  destruct (parseDict_append (region m) vd k v) as (vd'&Hp'&Hsh'); [by eapply region_nonempty|done..|].
  fold pair in Hp', Hsh'. rewrite Hb in Hsh'.
  pose proof (appendFile_region m pair ltac:(lia) Hl) as Hreg.
  assert (length (appendFile m pair) = length (mf_file (data m))) as Hlen
    by (apply length_splice; lia).
  unfold appended. eapply inplace_store; try done; try rewrite Hreg; try done;
    rewrite ?Hlen; try lia.
  - unfold versionActualSize, versionFlag in *. lia.
  - rewrite (so_crc _ _ Hs). apply crc32_Update_app.
Qed.

End invariant.
