(* ===== verification/StoreWrite.v ===== *)
(** * What the write paths do

    Each of the three ways to write a pair, the clearing of a store and its
    trimming, run on a store that satisfies the invariant: the result, and the
    invariant for the new dictionary. *)

From S2P Require Import Prelude GoInt Wire Crc32 Meta Dict Crypt MemFile Flock Store StoreOps StoreInv.

Section writes.
Context `{Platform}.

(** ** Overriding a single key *)

(** The file with the region rewritten from its start. *)
Definition overrideFile (m : MMKV) (pair : bytes) : bytes :=
  splice (splice (mf_file (data m)) 4 itemSizeHolderBytes)
    (Z.to_nat (4 + len itemSizeHolderBytes)) pair.

Lemma length_overrideFile m pair :
  4 + len itemSizeHolderBytes + len pair ≤ len (mf_file (data m)) →
  length (overrideFile m pair) = length (mf_file (data m)).
Proof.
  intros Hl. unfold overrideFile.
  assert (length (splice (mf_file (data m)) 4 itemSizeHolderBytes) = length (mf_file (data m))) as L
    by (apply length_splice; lia).
  rewrite length_splice; [done|]. rewrite L. lia.
Qed.

Lemma overrideFile_region m pair :
  4 + len itemSizeHolderBytes + len pair ≤ len (mf_file (data m)) →
  sub (overrideFile m pair) 4 (Z.to_nat (len itemSizeHolderBytes + len pair))
  = itemSizeHolderBytes ++ pair.
Proof.
  intros Hl. unfold overrideFile.
  assert (length (splice (mf_file (data m)) 4 itemSizeHolderBytes) = length (mf_file (data m))) as L
    by (apply length_splice; lia).
  replace (Z.to_nat (len itemSizeHolderBytes + len pair))
    with (length itemSizeHolderBytes + length pair)%nat by lia.
  rewrite sub_split. f_equal.
  - rewrite sub_splice_before by lia. by rewrite sub_splice_same by lia.
  - replace (Z.to_nat (4 + len itemSizeHolderBytes)) with (4 + length itemSizeHolderBytes)%nat by lia.
    by rewrite sub_splice_same by lia.
Qed.

(** The state after an override. *)
Definition overridden (pair : bytes) (d : kmap gslice) (m : MMKV) : MMKV :=
  inplace (overrideFile m pair) (len itemSizeHolderBytes + len pair)
    (crc32_ChecksumIEEE (itemSizeHolderBytes ++ pair)) d m.

(** The view of a blob that ends at [4 + a] in the data file. *)
Definition tailView (m : MMKV) (a : Z) (blob : bytes) : gslice :=
  Mapped (dataGen m) (Z.to_nat (4 + a - len blob)) (length blob).

Lemma overrideRaw_ok m key pair blob :
  files_ok m → 4 + len itemSizeHolderBytes + len pair ≤ len (mf_file (data m)) →
  4 + len itemSizeHolderBytes + len pair < 2 ^ 32 → len blob ≤ len pair →
  overrideRaw key pair (len blob) m = (Ok tt,
    overridden pair (<[key := tailView m (len itemSizeHolderBytes + len pair) blob]> (dict m)) m).
Proof.
  intros Hf Hl Hw Hb. unfold overrideRaw, mbind, M_bind, get, lift, modify.
  set (h := itemSizeHolderBytes) in *.
  rewrite copyAt_ok by (apply Hf || lia). cbn [fst snd].
  pose proof (poke_mf_ok (data m) 4 h (fo_data _ Hf) ltac:(lia) ltac:(lia)) as Hok1.
  assert (length (splice (mf_file (data m)) 4 h) = length (mf_file (data m))) as L1
    by (apply length_splice; lia).
  rewrite copyAt_ok; [|done|apply Hf|lia|cbn [set_mf_file mf_file]; change (Z.to_nat 4) with 4%nat; lia].
  cbn [fst snd data set_data set_actualSize actualSize mf_file set_mf_file].
  rewrite u32_small by (unfold is_u32; lia).
  fold (overrideFile m pair).
  pose proof (length_overrideFile m pair Hl) as L2.
  pose proof (mf_ok_set_file (data m) (overrideFile m pair) (fo_data _ Hf) L2) as Hok2.
  change (set_mf_file (splice (splice (mf_file (data m)) (Z.to_nat 4) h) (Z.to_nat (4 + len h)) pair)
    (set_mf_file (splice (mf_file (data m)) (Z.to_nat 4) h) (data m)))
    with (set_mf_file (overrideFile m pair) (data m)).
  rewrite memory_ok by done. rewrite slice_ok by (cbn [set_mf_file mf_file]; lia).
  cbn [set_mf_file mf_file].
  replace (Z.to_nat (4 + (len h + len pair) - 4)) with (Z.to_nat (len h + len pair)) by lia.
  change (Z.to_nat 4) with 4%nat. rewrite overrideFile_region by done.
  rewrite writeMetaWords_ok by (exact (fo_meta_len _ Hf) || apply Hf). unfold dataView.
  cbn [data set_meta set_info set_crcDigest set_actualSize set_data].
  rewrite memory_ok by done. rewrite slice_ok by (cbn [set_mf_file mf_file]; lia).
  cbn [mbind outcome_bind]. unfold overridden, inplace, tailView. fold h.
  change (dataGen (set_meta ?a ?b)) with (dataGen m).
  rewrite Nat2Z.id.
  by replace (4 + len h + (len pair - len blob)) with (4 + (len h + len pair) - len blob) by lia.
Qed.

(** The blob at the end of a region reads back. *)
Lemma tailView_reads m f a pre blob :
  mf_ok (data m) → length f = length (mf_file (data m)) → 0 ≤ a → 4 + a ≤ len f →
  sub f 4 (Z.to_nat a) = pre ++ blob →
  deref (set_mf_file f (data m)) (tailView m a blob) = Ok blob.
Proof.
  intros Hok Hl H0 Ha Hr. pose proof (f_equal length Hr) as Hlen.
  rewrite length_sub, length_app in Hlen by lia. unfold tailView. rewrite deref_view by (done || lia).
  f_equal. replace (Z.to_nat (4 + a - len blob)) with (4 + length pre)%nat by lia.
  rewrite <-(sub_sub f 4 (Z.to_nat a)) by lia. rewrite Hr.
  rewrite sub_app_r by lia. rewrite Nat.sub_diag. apply sub_all.
Qed.

Lemma tailView_in m a blob : len blob ≤ 4 + a → slice_in (4 + a) (tailView m a blob).
Proof. intros Hl. unfold tailView, slice_in. lia. Qed.

Lemma pair_bytes_split k v : ∃ pre, pair_bytes (k, v) = pre ++ v.
Proof. unfold pair_bytes, field. cbn [fst snd]. eexists. by rewrite !app_assoc. Qed.

Lemma pair_bytes_len k v : len v ≤ len (pair_bytes (k, v)).
Proof. destruct (pair_bytes_split k v) as [pre ->]. rewrite length_app. lia. Qed.

Lemma pair_bytes_key k v : len k ≤ len (pair_bytes (k, v)).
Proof. unfold pair_bytes, field. cbn [fst snd]. rewrite !length_app. lia. Qed.

Lemma pair_bytes_pos k v : 0 < len (pair_bytes (k, v)).
Proof.
  unfold pair_bytes. cbn [fst snd]. rewrite length_app. pose proof (field_nonempty k) as Hn.
  destruct (field k); [done|cbn [length]; lia].
Qed.

Lemma apply_entry_set (b : bdict) k v : v ≠ [] → apply_entry b (k, v) = <[k:=v]> b.
Proof. intros Hv. unfold apply_entry. by rewrite decide_False. Qed.

Lemma apply_entry_del (b : bdict) k : apply_entry b (k, []) = delete k b.
Proof. unfold apply_entry. by rewrite decide_True. Qed.

(** Overriding the only key of a plaintext store, or filling one whose keys were
    all removed, keeps the invariant. *)
Lemma override_store m b k v :
  store_ok m b → crypt m = None → versionFlag ≤ mi_version (info m) →
  entry_ok (k, v) → v ≠ [] → (∀ j, j ≠ k → b !! j = None) →
  4 + len itemSizeHolderBytes + len (pair_bytes (k, v)) ≤ len (mf_file (data m)) →
  4 + len itemSizeHolderBytes + len (pair_bytes (k, v)) < 2 ^ 32 →
  store_ok (overridden (pair_bytes (k, v))
    (<[k := tailView m (len itemSizeHolderBytes + len (pair_bytes (k, v))) v]> (dict m)) m)
    (<[k:=v]> b).
Proof.
  intros Hs Hc Hv He Hne Hb Hl Hw. pose proof (so_files _ _ Hs) as Hf.
  pose proof (length_overrideFile m _ Hl) as Hlen.
  pose proof (overrideFile_region m _ Hl) as Hreg.
  assert (∀ j, j ≠ k → dict m !! j = None) as Hd.
  { intros j Hj. apply eq_None_not_Some.
    rewrite (dict_shows_dom (data m) _ b) by apply Hs. rewrite Hb by done. by intros []. }
  destruct (parseDict_append itemSizeHolderBytes ∅ k v) as (vd&Hp&Hsh).
  { rewrite itemSizeHolderBytes_varint. intros Hn. by vm_compute in Hn. }
  { rewrite itemSizeHolderBytes_varint. apply parseDict_varint, itemSizeHolder_u64. }
  { done. }
  unfold overridden. eapply (inplace_store _ _ _ _ m b _ vd); try done; try rewrite Hreg; try done;
    rewrite ?Hlen; try lia.
  - unfold versionActualSize, versionFlag in *. lia.
  - rewrite Hsh, apply_entry_set by done. apply map_eq. intros j.
    destruct (decide (j = k)) as [->|]; [by rewrite !lookup_insert_eq|].
    rewrite !lookup_insert_ne, Hb by done. unfold show. by rewrite lookup_fmap, lookup_empty.
  - intros j. destruct (decide (j = k)) as [->|]; [rewrite !lookup_insert_eq|].
    + destruct (pair_bytes_split k v) as [pre Hpre]. apply (tailView_reads m _ _ (itemSizeHolderBytes ++ pre));
        [apply Hf|done|lia|lia|]. by rewrite Hreg, Hpre, app_assoc.
    + by rewrite !lookup_insert_ne, Hd, Hb by done.
  - intros j s Hj. destruct (decide (j = k)) as [->|].
    + rewrite lookup_insert_eq in Hj. injection Hj as <-. apply tailView_in.
      pose proof (pair_bytes_len k v). lia.
    + by rewrite lookup_insert_ne, Hd in Hj by done.
Qed.

(** Views into the old region read the same after an append. *)
Lemma append_shows m b pair :
  store_ok m b → 4 + actualSize m + len pair ≤ len (mf_file (data m)) →
  dict_shows (set_mf_file (appendFile m pair) (data m)) (dict m) b.
Proof.
  intros Hs Hl. pose proof (so_actual _ _ Hs). eapply dict_shows_change; [apply Hs|].
  intros j s Hj. apply deref_splice; [apply Hs|lia|lia|]. by apply (so_views _ _ Hs) in Hj.
Qed.

Lemma append_views m b n :
  store_ok m b → 0 ≤ n → map_Forall (fun _ s => slice_in (4 + (actualSize m + n)) s) (dict m).
Proof. intros Hs Hn j s Hj. apply (so_views _ _ Hs) in Hj. eapply slice_in_mono; [|done]. lia. Qed.

(** Appending a set, and appending a tombstone. *)
Lemma append_set_store m b k v :
  store_ok m b → crypt m = None → versionFlag ≤ mi_version (info m) → 0 < actualSize m →
  entry_ok (k, v) → v ≠ [] →
  4 + actualSize m + len (pair_bytes (k, v)) ≤ len (mf_file (data m)) →
  4 + actualSize m + len (pair_bytes (k, v)) < 2 ^ 32 →
  store_ok (appended (pair_bytes (k, v))
    (<[k := tailView m (actualSize m + len (pair_bytes (k, v))) v]> (dict m)) m) (<[k:=v]> b).
Proof.
  intros Hs Hc Hv Ha He Hne Hl Hw. rewrite <-apply_entry_set by done.
  pose proof (pair_bytes_len k v) as Hpl.
  apply append_store; try done.
  - rewrite apply_entry_set by done. apply dict_shows_insert; [by apply append_shows|].
    destruct (pair_bytes_split k v) as [pre Hpre].
    apply (tailView_reads m _ _ (region m ++ pre)); [apply Hs|apply length_splice; lia|lia| |].
    + unfold appendFile. rewrite length_splice; lia.
    + rewrite appendFile_region by lia. by rewrite Hpre, app_assoc.
  - apply map_Forall_insert_2; [apply tailView_in; lia|by eapply append_views; [|lia]].
Qed.

Lemma append_del_store m b k :
  store_ok m b → crypt m = None → versionFlag ≤ mi_version (info m) → 0 < actualSize m →
  entry_ok (k, []) →
  4 + actualSize m + len (pair_bytes (k, [])) ≤ len (mf_file (data m)) →
  4 + actualSize m + len (pair_bytes (k, [])) < 2 ^ 32 →
  store_ok (appended (pair_bytes (k, [])) (delete k (dict m)) m) (delete k b).
Proof.
  intros Hs Hc Hv Ha He Hl Hw. rewrite <-apply_entry_del.
  apply append_store; try done.
  - rewrite apply_entry_del. apply dict_shows_delete. by apply append_shows.
  - apply map_Forall_delete. by eapply append_views; [|lia].
Qed.

(** ** Growing the file *)

Lemma growLoop_spec fuel target n :
  1 ≤ n → target < n * 2 ^ Z.of_nat fuel →
  ∃ r, growLoop fuel target n = Ok r ∧ target < r ∧ n ≤ r ∧ r ≤ Z.max n (2 * target).
Proof.
  revert n. induction fuel as [|fuel IH]; intros n Hn Ht; cbn [growLoop].
  - rewrite Z.mul_1_r in Ht. bfalse. exists n. split_and!; [done|lia..].
  - destruct (n <=? target) eqn:E; bsplit.
    + destruct (IH (n * 2)) as (r&->&?&?&?); [lia| |exists r; split_and!; [done|lia..]].
      rewrite Nat2Z.inj_succ, Z.pow_succ_r in Ht by lia. lia.
    + exists n. split_and!; [done|lia..].
Qed.

(** 64 doublings pass every size an int can hold. *)
Lemma growLoop_ok target n :
  1 ≤ n → target < 2 ^ 63 →
  ∃ r, growLoop 64 target n = Ok r ∧ target < r ∧ n ≤ r ∧ r ≤ Z.max n (2 * target).
Proof. intros Hn Ht. apply growLoop_spec; [done|]. change (2 ^ Z.of_nat 64) with (2 ^ 64). lia. Qed.

(** The aimed size holds the payload and the incoming pair, and is linear in
    what is needed; when the file does not grow, they fit already. *)
Lemma growth_ok needSync incoming p n fs :
  0 ≤ incoming → 0 ≤ p → 0 ≤ n →
  let g := growth needSync incoming p n fs in
  4 + p + incoming ≤ g.1 ≤ 10 * (4 + p + incoming) + n
  ∧ (g.2 = false → 4 + p + incoming < fs).
Proof.
  intros Hi Hp Hn. unfold growth. set (L := 4 + p + incoming).
  destruct (0 <? incoming) eqn:E; bsplit; cbn [fst snd].
  - rewrite Z.max_r by lia. set (c := n + 1). split.
    + pose proof (Z.div_mod (L + c - 1) c ltac:(lia)) as D1.
      pose proof (Z.mod_pos_bound (L + c - 1) c ltac:(lia)).
      pose proof (Z.div_mod c 2 ltac:(lia)). pose proof (Z.mod_pos_bound c 2 ltac:(lia)).
      set (avg := (L + c - 1) / c) in *. set (half := c / 2) in *.
      assert (0 ≤ avg ≤ L) by nia.
      destruct (Z.max_spec 8 half) as [[_ ->]|[_ ->]]; nia.
    + intros Hg. bsplit. lia.
  - split; [lia|]. intros Hg. bsplit. lia.
Qed.

(** The region of a dictionary has at least one byte for each key. *)
Lemma log_bytes_count es : (length es ≤ length (log_bytes es))%nat.
Proof.
  induction es as [|e es IH]; [done|].
  change (log_bytes (e :: es)) with (pair_bytes e ++ log_bytes es). rewrite length_app.
  unfold pair_bytes, field. rewrite !length_app.
  pose proof (varint_length_pos (u32 (len e.1))). cbn [length]. lia.
Qed.

(** The plaintext region a full write-back packs. *)
Definition packed (b : bdict) : bytes := encodeRegion (sortedKeys b) b.

Lemma packed_count b : Z.of_nat (size b) ≤ len (packed b).
Proof.
  unfold packed. rewrite encodeRegion_log, length_app.
  pose proof (log_bytes_count (entries (sortedKeys b) b)) as Hc.
  unfold entries in Hc at 1. rewrite length_fmap, length_sortedKeys in Hc. lia.
Qed.

Lemma packed_parses b : bdict_ok b → sizes_ok b →
  ∃ vd, parseDict (packed b) = Ok vd ∧ show (packed b) vd = b.
Proof. intros Hb Hs. apply parseDict_encodeRegion; [|done..]. apply elem_of_sortedKeys. Qed.

Lemma log_bytes_elem es e : e ∈ es → len e.1 + len e.2 ≤ len (log_bytes es).
Proof.
  induction es as [|e' es IH]; [by intros ?%elem_of_nil|].
  change (log_bytes (e' :: es)) with (pair_bytes e' ++ log_bytes es). rewrite length_app.
  unfold pair_bytes, field. rewrite !length_app. intros [->|He]%elem_of_cons; [lia|].
  specialize (IH He). lia.
Qed.

(** A region below 4 GiB has keys and values the format can carry. *)
Lemma packed_sizes b : len (packed b) < 2 ^ 32 → sizes_ok b.
Proof.
  unfold packed. rewrite encodeRegion_log, length_app. intros Hl k v Hv.
  pose proof (log_bytes_elem (entries (sortedKeys b) b) (k, v)) as He. cbn [fst snd] in He.
  unfold is_u32. enough (len k + len v ≤ len (log_bytes (entries (sortedKeys b) b))) by lia.
  apply He. unfold entries. apply list_elem_of_fmap. exists k. rewrite Hv. split; [done|].
  apply elem_of_sortedKeys. eauto.
Qed.

Lemma packed_nonempty b : 0 < len (packed b).
Proof.
  unfold packed. rewrite encodeRegion_log, length_app, itemSizeHolderBytes_varint.
  pose proof (varint_length_pos itemSizeHolder). lia.
Qed.

(** How long a packed region is. *)
Lemma log_bytes_cons e es : log_bytes (e :: es) = pair_bytes e ++ log_bytes es.
Proof. done. Qed.

Lemma log_bytes_perm es es' : es ≡ₚ es' → length (log_bytes es) = length (log_bytes es').
Proof.
  induction 1; rewrite ?log_bytes_cons, ?length_app in *; lia.
Qed.

Lemma packed_size b : len (packed b) = len itemSizeHolderBytes + len (log_bytes (map_to_list b)).
Proof.
  unfold packed. rewrite encodeRegion_log, length_app.
  assert (entries (sortedKeys b) b ≡ₚ map_to_list b) as Hp; [|rewrite (log_bytes_perm _ _ Hp); lia].
  unfold entries. rewrite sortedKeys_perm, <-list_fmap_compose.
  rewrite <-(list_fmap_id (map_to_list b)) at 2. apply reflexive_eq, list_fmap_ext.
  intros i [k v] Hi%list_elem_of_lookup_2%elem_of_map_to_list. cbn. by rewrite Hi.
Qed.

(** A set adds at most its pair to the packed region, and a removal adds
    nothing. *)
Lemma packed_delete b k : len (packed (delete k b)) ≤ len (packed b).
Proof.
  rewrite !packed_size. destruct (b !! k) as [w|] eqn:E; [|by rewrite delete_id].
  rewrite <-(insert_delete_id b k w) at 2 by done.
  rewrite (log_bytes_perm _ _ (map_to_list_insert (delete k b) k w (lookup_delete_eq b k))).
  rewrite log_bytes_cons, length_app. lia.
Qed.
Lemma packed_insert b k v : len (packed (<[k:=v]> b)) ≤ len (packed b) + len (pair_bytes (k, v)).
Proof.
  pose proof (packed_delete b k) as Hd. rewrite !packed_size in *. rewrite <-insert_delete_eq.
  rewrite (log_bytes_perm _ _ (map_to_list_insert (delete k b) k v (lookup_delete_eq b k))).
  rewrite log_bytes_cons, length_app. lia.
Qed.

(** ** The full write-back *)

(** The data file with the header cleared and the payload after it. *)
Definition packFile (m : MMKV) (payload : bytes) : bytes :=
  splice (splice (mf_file (data m)) 0 (zeros 4)) 4 payload.

Lemma length_packFile m payload :
  4 + len payload ≤ len (mf_file (data m)) → length (packFile m payload) = length (mf_file (data m)).
Proof.
  intros Hl. unfold packFile.
  assert (length (splice (mf_file (data m)) 0 (zeros 4)) = length (mf_file (data m))) as L
    by (apply length_splice; rewrite length_zeros; lia).
  rewrite length_splice; [done|]. rewrite L. lia.
Qed.

Lemma packFile_region m payload :
  4 + len payload ≤ len (mf_file (data m)) →
  sub (packFile m payload) 4 (length payload) = payload.
Proof.
  intros Hl. unfold packFile. rewrite sub_splice_same; [done|done|].
  rewrite length_splice by (rewrite length_zeros; lia). lia.
Qed.

(** The state after a payload is written. *)
Definition written (region payload : bytes) (vd : vdict) (m : MMKV) : MMKV :=
  let a := len payload in
  let c := crc32_ChecksumIEEE payload in
  let inf := bump_confirm c a (info m) in
  set_needFullWriteback false
    (set_dict (match crypt m with
               | None => mappedDict (dataGen m) vd
               | Some _ => heapDict region vd
               end)
      (set_meta (set_mf_file (splice (mf_file (meta m)) 0 (marshal inf)) (meta m))
        (set_info inf (set_crcDigest c (set_actualSize a
          (set_data (set_mf_file (packFile m payload) (data m)) m)))))).

Lemma bump_confirm_wf c a mi : meta_wf mi → is_u32 c → is_u32 a → meta_wf (bump_confirm c a mi).
Proof.
  intros [] Hc Ha. by split; cbn; auto with mmkv.
Qed.

Lemma writeRegion_ok m region payload vd :
  files_ok m → decrypts m payload region → 4 + len payload ≤ len (mf_file (data m)) →
  4 + len payload < 2 ^ 32 → parseDict region = Ok vd →
  writeRegion region payload m = (Ok tt, written region payload vd m).
Proof.
  intros Hf Hd Hl Hw Hp. unfold writeRegion, mbind, M_bind, get, lift, modify.
  rewrite poke_ok by (apply Hf || (rewrite ?length_zeros; lia)).
  pose proof (poke_mf_ok (data m) 0 (zeros 4) (fo_data _ Hf) ltac:(lia)
    ltac:(rewrite length_zeros; lia)) as Hok1.
  assert (length (splice (mf_file (data m)) 0 (zeros 4)) = length (mf_file (data m))) as L1
    by (apply length_splice; rewrite length_zeros; lia).
  rewrite poke_ok; [|done|apply Hf|lia|cbn [set_mf_file mf_file]; change (Z.to_nat 0) with 0%nat; lia].
  cbn [set_mf_file mf_file].
  pose proof (length_packFile m payload Hl) as L2.
  pose proof (mf_ok_set_file (data m) (packFile m payload) (fo_data _ Hf) L2) as Hok2.
  change (set_mf_file (splice (splice (mf_file (data m)) (Z.to_nat 0) (zeros 4)) (Z.to_nat 4) payload)
    (set_mf_file (splice (mf_file (data m)) (Z.to_nat 0) (zeros 4)) (data m)))
    with (set_mf_file (packFile m payload) (data m)).
  cbn [data set_data set_actualSize]. rewrite u32_small by (unfold is_u32; lia).
  rewrite (memory_ok (set_mf_file (packFile m payload) (data m))) by done.
  rewrite slice_ok by (cbn [set_mf_file mf_file]; lia). cbn [set_mf_file mf_file].
  replace (Z.to_nat (4 + len payload - 4)) with (length payload) by lia.
  change (Z.to_nat 4) with 4%nat. rewrite packFile_region by done.
  cbn [info meta crcDigest actualSize set_info set_crcDigest set_actualSize set_data].
  rewrite copyAt_ok; [|apply Hf|apply Hf|lia|].
  2:{ rewrite length_marshal; [|apply Hf]. pose proof (fo_meta_len _ Hf). lia. }
  cbn [fst crypt data set_meta set_info set_crcDigest set_actualSize set_data].
  unfold written, decrypts in *. destruct (crypt m) as [k|]; [by rewrite Hp|].
  subst region. rewrite (memory_ok (set_mf_file (packFile m payload) (data m))) by done.
  rewrite slice_ok by (cbn [set_mf_file mf_file]; lia). cbn [set_mf_file mf_file].
  replace (Z.to_nat (4 + len payload - 4)) with (length payload) by lia.
  change (Z.to_nat 4) with 4%nat. rewrite packFile_region by done. by rewrite Hp.
Qed.

Lemma written_meta_len m region payload vd :
  files_ok m → length (mf_file (meta (written region payload vd m))) = length (mf_file (meta m)).
Proof.
  intros Hf. apply length_splice. pose proof (fo_meta_len _ Hf). rewrite length_marshal by apply Hf. lia.
Qed.

Lemma written_files m region payload vd :
  files_ok m → 4 + len payload ≤ len (mf_file (data m)) → 4 + len payload < 2 ^ 32 →
  files_ok (written region payload vd m)
  ∧ parseMeta (mf_file (meta (written region payload vd m))) = Ok (info (written region payload vd m)).
Proof.
  intros Hf Hl Hw. pose proof (fo_meta_len _ Hf) as Hml. destruct Hf as [F1 F2 F3 F4 F5 F6 F7].
  assert (meta_wf (bump_confirm (crc32_ChecksumIEEE payload) (len payload) (info m))) as Hwf
    by (apply bump_confirm_wf; [done|auto with mmkv|unfold is_u32; lia]).
  pose proof (length_packFile m payload Hl) as L.
  pose proof (length_marshal _ (wf_iv _ Hwf)) as Lm.
  assert (length (splice (mf_file (meta m)) 0 (marshal
    (bump_confirm (crc32_ChecksumIEEE payload) (len payload) (info m)))) = length (mf_file (meta m))) as L2
    by (apply length_splice; lia).
  split.
  - split; cbn [written data meta info set_needFullWriteback set_dict set_meta set_info set_crcDigest
      set_actualSize set_data]; try done.
    + by apply mf_ok_set_file.
    + by apply mf_ok_set_file.
    + cbn [set_mf_file mf_file]. by rewrite L.
    + cbn [set_mf_file mf_file]. by rewrite L2.
  - cbn [written meta info set_needFullWriteback set_dict set_meta set_info set_mf_file mf_file].
    unfold splice. cbn [take app]. by apply parseMeta_marshal_app.
Qed.

(** Writing the packed dictionary establishes the invariant, whatever the files
    held before. *)
Lemma written_store m b region payload vd :
  files_ok m → decrypts m payload region → 4 + len payload ≤ len (mf_file (data m)) →
  4 + len payload < 2 ^ 32 → parseDict region = Ok vd → show region vd = b →
  enableExpire m = expireEnabled (info m) → needLoad m = false →
  store_ok (written region payload vd m) b.
Proof.
  intros Hf Hd Hl Hw Hp Hb He Hn.
  destruct (written_files m region payload vd Hf Hl Hw) as [Hf' Hm'].
  pose proof (length_packFile m payload Hl) as L.
  assert (StoreInv.region (written region payload vd m) = payload) as Hreg.
  { unfold StoreInv.region. cbn. rewrite Nat2Z.id. by apply packFile_region. }
  pose proof (parseDict_ok _ _ Hp) as Hvd.
  split; try done.
  - split; [|rewrite <-Hb; by apply show_ok].
    unfold decrypts in Hd. cbn [written dict data set_needFullWriteback set_dict set_meta set_info
      set_crcDigest set_actualSize set_data]. rewrite <-Hb.
    destruct (crypt m) as [k|]; [apply heapDict_shows|]. subst region.
    pose proof (mappedDict_shows (written payload payload vd m) vd (length payload)) as Hsh.
    cbn [written data mf_file set_needFullWriteback set_dict set_meta set_info
      set_crcDigest set_actualSize set_data set_mf_file] in Hsh.
    rewrite packFile_region in Hsh by done. apply Hsh; [apply Hf'|rewrite L; lia|done].
  - cbn. lia.
  - cbn. rewrite L. lia.
  - by rewrite Hreg.
  - cbn [written dict actualSize set_needFullWriteback set_dict set_meta set_info
      set_crcDigest set_actualSize set_data].
    unfold decrypts in Hd. destruct (crypt m) as [k|]; [apply heapDict_in|]. subst region.
    by eapply mappedDict_in.
  - exists region, vd. split_and!; [|done..]. rewrite Hreg.
    eapply decrypts_info; [| |exact Hd]; done.
  - eexists. split; [exact Hm'|]. apply load_point_current; try done; try (by rewrite Hreg).
    + apply Hf'.
    + cbn. lia.
    + cbn. rewrite L. lia.
Qed.

(** A computation leaves the environment as it was, but for the random source
    and the calls of the handler. *)
Definition quiet (e e' : sys) : Prop := faults e' = faults e ∧ now e' = now e ∧ held e' = held e.

#[global] Instance quiet_refl : Reflexive quiet.
Proof. intros e. unfold quiet. by split_and!. Qed.
#[global] Instance quiet_trans : Transitive quiet.
Proof. intros ? ? ? (?&?&?) (?&?&?). unfold quiet. split_and!; congruence. Qed.
Lemma quiet_healthy e e' : quiet e e' → healthy e → healthy e'.
Proof. intros (Hq&_) He. unfold healthy. congruence. Qed.

Lemma length_fit n b : length (fit n b) = n.
Proof. unfold fit. rewrite length_app, length_take, length_zeros. lia. Qed.

(** What makePayload may change in the struct: the IV. *)
Lemma makePayload_ok s region :
  meta_wf (info (st s)) → healthy (env s) →
  ∃ payload iv e', makePayload region s
      = (Ok payload, mkSt (set_info (set_iv iv (info (st s))) (st s)) e')
    ∧ length iv = 16%nat ∧ len payload = len region ∧ quiet (env s) e'
    ∧ decrypts (set_info (set_iv iv (info (st s))) (st s)) payload region.
Proof.
  intros Hm He. destruct s as [m e]. cbn [st env] in *. unfold makePayload, mbind, M_bind, this.
  unfold decrypts. cbn [st crypt set_info info set_iv mi_iv]. destruct (crypt m) as [a|] eqn:Ec.
  - unfold onSys, zoom, randomIV, mbind, M_bind, get, modify. cbn [env].
    rewrite syscall_healthy by done. cbn [mret M_ret]. set (iv := fit 16 _).
    destruct (Encrypt_ok a region iv (length_fit _ _)) as (ct&Hct&Hl).
    unfold lift. rewrite Hct. exists ct, iv. eexists. split; [done|].
    split_and!; [apply length_fit|lia|by split_and!|by eapply Decrypt_Encrypt].
  - exists region, (mi_iv (info m)), e. split_and!; try done; [|by apply Hm].
    assert (set_iv (mi_iv (info m)) (info m) = info m) as -> by (by destruct (info m)). done.
Qed.

(** Room for the payload and the pair: the file grows to whole pages, never
    shrinks, and keeps its bytes. *)
Lemma ensureRoom_ok s needSync incoming p :
  mf_ok (data (st s)) → healthy (env s) → 0 ≤ incoming → 0 ≤ p →
  10 * (4 + p + incoming) + Z.of_nat (size (dict (st s))) < 2 ^ 63 →
  ∃ mf, ensureRoom needSync incoming p s = (Ok tt, mkSt (set_data mf (st s)) (env s))
    ∧ mf_ok mf ∧ mf_readOnly mf = mf_readOnly (data (st s))
    ∧ 4 + p + incoming < len (mf_file mf) ∧ len (mf_file (data (st s))) ≤ len (mf_file mf).
Proof.
  intros Hok He Hi Hp Hb. destruct s as [m e]. cbn [st env] in *.
  unfold ensureRoom, mbind, M_bind, this. cbn [st].
  destruct (growth_ok needSync incoming p (Z.of_nat (size (dict m))) (fileSize (data m)))
    as [Ht Hg]; [done|done|lia|].
  set (g := growth _ _ _ _ _) in *. unfold fileSize in *. destruct g.2.
  - destruct (growLoop_ok g.1 (if mf_size (data m) <? 1 then 1 else mf_size (data m))) as (r&Hr&?&?&?);
      [destruct (mf_size (data m) <? 1) eqn:E; bsplit; lia|lia|].
    unfold lift. rewrite Hr. unfold onData, zoom. cbn [st env].
    destruct (truncate_ok (data m) e r Hok He) as (mf&->&Hok'&Hf&_&Hro).
    exists mf. split; [done|]. split_and!; [done|done|rewrite Hf, length_resize..].
    + pose proof (pageRoundUp_ge r). lia.
    + pose proof (pageRoundUp_ge r). rewrite <-(mf_ok_size _ Hok).
      destruct (mf_size (data m) <? 1) eqn:E; bsplit; lia.
  - exists (data m). split_and!; try done. rewrite <-(mf_ok_size _ Hok). auto.
Qed.

Lemma onStore_ok {A} (c : M MMKV A) s a m' :
  c (st s) = (Ok a, m') → onStore c s = (Ok a, mkSt m' (env s)).
Proof. destruct s as [m e]. intros Hc. unfold onStore, zoom. cbn [st] in *. by rewrite Hc. Qed.

Lemma onData_msync s b : healthy (env s) → onData (msync b) s = (Ok tt, s).
Proof. destruct s as [m e]. intros He. unfold onData, zoom. cbn [st env] in *. by rewrite msync_ok. Qed.
Lemma onMeta_msync s b : healthy (env s) → onMeta (msync b) s = (Ok tt, s).
Proof. destruct s as [m e]. intros He. unfold onMeta, zoom. cbn [st env] in *. by rewrite msync_ok. Qed.

(** What a full write-back needs: mapped files and a dictionary that can be
    read and whose sizes the format can carry.  The bytes of the files and the
    digest in memory do not matter, so a salvaged store qualifies. *)
Record packable (m : MMKV) (b : bdict) (incoming : Z) : Prop := {
  pk_files : files_ok m;
  pk_dict : dict_is m b;
  pk_incoming : 0 ≤ incoming;
  pk_nowrap : 4 + len (packed b) + incoming < 2 ^ 32;
  pk_expire : enableExpire m = expireEnabled (info m);
  pk_loaded : needLoad m = false;
}.

(** What it gives: a store that stands for the same dictionary, packed, with
    the last-confirmed point at its end. *)
Record packed_store (m m' : MMKV) (b : bdict) (incoming : Z) : Prop := {
  ps_store : store_ok m' b;
  ps_config : same_config m m';
  ps_size : actualSize m' = len (packed b);
  ps_plain : decrypts m' (region m') (packed b);
  ps_room : 4 + actualSize m' + incoming < len (mf_file (data m'));
  ps_version : mi_version (info m') = versionFlag;
  ps_seq : mi_sequence (info m') = u32 (mi_sequence (info m) + 1);
  ps_confirmed : mi_lastActualSize (info m') = actualSize m' ∧ mi_lastCRCDigest (info m') = crcDigest m';
  ps_current : mi_actualSize (info m') = actualSize m' ∧ mi_crcDigest (info m') = crcDigest m';
  ps_meta : parseMeta (mf_file (meta m')) = Ok (info m');
  ps_clean : needFullWriteback m' = false;
  ps_meta_len : length (mf_file (meta m')) = length (mf_file (meta m));
}.

Lemma fullWritebackGrow_ok s b needSync incoming :
  packable (st s) b incoming → healthy (env s) →
  ∃ s', fullWritebackGrow needSync incoming s = (Ok tt, s')
    ∧ packed_store (st s) (st s') b incoming ∧ quiet (env s) (env s').
Proof.
  intros [Hf Hd Hi Hw Hx Hn] He.
  destruct (packed_parses b) as (vd&Hp&Hb); [apply Hd|apply packed_sizes; lia|].
  unfold fullWritebackGrow. erewrite bind_ok by reflexivity.
  erewrite bind_ok by (unfold lift; rewrite (derefDict_ok _ _ b) by apply Hd; reflexivity).
  rewrite (dict_shows_keys (data (st s)) (dict (st s)) b) by apply Hd. fold (packed b).
  destruct (makePayload_ok s (packed b)) as (payload&iv&e'&Hmp&Hiv&Hl&Hq&Hdec); [apply Hf|done|].
  erewrite bind_ok by exact Hmp.
  set (m1 := set_info (set_iv iv (info (st s))) (st s)) in *.
  pose proof (quiet_healthy _ _ Hq He) as He'.
  assert (Z.of_nat (size (dict (st s))) ≤ len (packed b)) as Hcount.
  { rewrite (dict_shows_size (data (st s)) _ b) by apply Hd. apply packed_count. }
  destruct (ensureRoom_ok (mkSt m1 e') needSync incoming (len payload)) as (mf&Her&Hok&Hro&Hroom&Hgrow);
    cbn [st env] in *; [apply Hf|done|done|lia|cbn [m1 dict set_info]; lia|].
  erewrite bind_ok by exact Her. set (m2 := set_data mf m1) in *.
  assert (files_ok m2) as Hf2.
  { destruct Hf as [F1 F2 F3 F4 F5 F6 []].
    split; cbn [m2 m1 data meta info set_data set_info]; try done; [|etransitivity; [exact F5|exact Hgrow]].
    exact (eq_trans Hro F3). }
  erewrite bind_ok by (apply onStore_ok, (writeRegion_ok m2); [done|exact Hdec|cbn; lia|lia|done]).
  assert (packed_store (st s) (written (packed b) payload vd m2) b incoming) as Hps.
  { assert (decrypts m2 payload (packed b)) as Hdec2 by exact Hdec.
    pose proof (written_store m2 b (packed b) payload vd Hf2 Hdec2 ltac:(cbn; lia) ltac:(lia)
      Hp Hb Hx Hn) as Hst.
    assert (region (written (packed b) payload vd m2) = payload) as Hreg.
    { unfold region. cbn. rewrite Nat2Z.id. apply packFile_region. cbn. lia. }
    split; try done.
    - rewrite Hreg. eapply decrypts_info; [| |exact Hdec2]; done.
    - cbn. rewrite length_packFile; cbn; lia.
    - apply written_files; [done|cbn; lia|lia].
    - exact (written_meta_len m2 _ _ _ Hf2). }
  exists (mkSt (written (packed b) payload vd m2) e'). split; [|by split].
  destruct needSync; cbn [negb]; [|done].
  erewrite bind_ok by (by apply onData_msync). by rewrite onMeta_msync.
Qed.

(** The flag on disk is the flag in memory, as before. *)
Lemma packed_flags m m' b incoming :
  packed_store m m' b incoming → enableExpire m' = expireEnabled (info m').
Proof.
  intros Hp. rewrite (so_expire _ _ (ps_store _ _ _ _ Hp)), (ps_version _ _ _ _ Hp). by btrue.
Qed.

Lemma packed_settled m m' b incoming : packed_store m m' b incoming → settled m'.
Proof.
  intros Hp. split; [apply Hp| |apply (ps_current _ _ _ _ Hp)..].
  rewrite (ps_version _ _ _ _ Hp). by unfold versionActualSize, versionFlag.
Qed.

End writes.
