(* ===== verification/StoreRun.v ===== *)
(** * The bodies of the writing methods

    What a write does between the lock and the unlock, on a store that satisfies
    the invariant and with no system call failing: it returns, and leaves the
    store that stands for the updated map. *)

From S2P Require Import Prelude GoInt Wire Crc32 Meta Dict Crypt MemFile Flock Store StoreOps.
From S2P Require Import StoreInv StoreWrite.

Section run.
Context `{Platform}.

(** ** What a write leaves *)

(** What a write does to the words other instances look at: nothing; an append
    keeps the sequence, the length of the file and the rest of the meta, and the
    size goes up; a full write-back or a clear counts the sequence up; only an
    instance that has the files for itself may override. *)
Inductive advances (m m' : MMKV) : Prop :=
  | adv_same :
      info m' = info m → mf_file (data m') = mf_file (data m) → mf_file (meta m') = mf_file (meta m) →
      actualSize m' = actualSize m → crcDigest m' = crcDigest m → advances m m'
  | adv_append c a :
      settled m' → info m' = set_crc_actual c a (info m) → actualSize m < a →
      length (mf_file (data m')) = length (mf_file (data m)) → advances m m'
  | adv_pack :
      settled m' → mi_sequence (info m') = u32 (mi_sequence (info m) + 1) → advances m m'
  | adv_alone :
      settled m' → multiProcess m = false → advances m m'.

(** What a write leaves: the region grows by the pair at most, over the old
    region or the bare dictionary; the words advance; the meta file keeps its
    length. *)
Record grows (m m' : MMKV) (b' : bdict) (n : Z) : Prop := {
  gr_size : actualSize m' ≤ Z.max (actualSize m) (len (packed b')) + n;
  gr_adv : advances m m';
  gr_meta : length (mf_file (meta m')) = length (mf_file (meta m));
}.

Lemma grows_refl m b n : 0 ≤ n → grows m m b n.
Proof. intros Hn. split; [lia|by apply adv_same|done]. Qed.

Lemma packed_grows m0 m m' b inc n :
  packed_store m m' b inc → mi_sequence (info m) = mi_sequence (info m0) →
  length (mf_file (meta m)) = length (mf_file (meta m0)) → 0 ≤ n → grows m0 m' b n.
Proof.
  intros Hps Hi Hl Hn. split; [rewrite (ps_size _ _ _ _ Hps); lia| |by rewrite (ps_meta_len _ _ _ _ Hps)].
  apply adv_pack; [by eapply packed_settled|]. by rewrite (ps_seq _ _ _ _ Hps), Hi.
Qed.

Lemma settled_ext m m' :
  info m' = info m → mf_file (meta m') = mf_file (meta m) → actualSize m' = actualSize m →
  crcDigest m' = crcDigest m → settled m → settled m'.
Proof. intros Ei Em Ea Ec []. split; congruence. Qed.

(** A settled store stays settled. *)
Lemma gr_settled m m' b n : grows m m' b n → settled m → settled m'.
Proof. by intros [_ [] _]; [apply settled_ext|..]. Qed.

(** Two structs of the same store: what a reload of its own files leaves. *)
Record unmoved (m m' : MMKV) : Prop := {
  um_actual : actualSize m' = actualSize m;
  um_info : info m' = info m;
  um_data : data m' = data m;
  um_meta : meta m' = meta m;
  um_crc : crcDigest m' = crcDigest m;
  um_clean : needFullWriteback m' = needFullWriteback m;
}.

Lemma unmoved_settled m m' : unmoved m m' → settled m → settled m'.
Proof. intros [Ea Ei _ Em Ec _]. apply settled_ext; congruence. Qed.

(** Only the words, the sizes and the bytes matter. *)
Lemma advances_before m1 m2 m :
  unmoved m1 m2 → multiProcess m2 = multiProcess m1 → advances m2 m → advances m1 m.
Proof.
  intros [Ea Ei Ed Em Ec _] Ex []; rewrite ?Ea, ?Ei, ?Ed, ?Em, ?Ec, ?Ex in *.
  - by apply adv_same.
  - by eapply adv_append.
  - by apply adv_pack.
  - by apply adv_alone.
Qed.

Lemma grows_set_fl l m m' b n : grows m m' b n → grows m (set_fl l m') b n.
Proof.
  intros [Hs Ha Hl]. split; [exact Hs| |exact Hl].
  assert (settled m' → settled (set_fl l m')) as Hse by (by apply settled_ext).
  destruct Ha; [by apply adv_same|by apply (adv_append _ _ c a); auto|by apply adv_pack; auto|by apply adv_alone; auto].
Qed.

(** ** Clearing *)

(** The state after [clearAllLocked], with the data file [mf]. *)
Definition cleared (mf : memoryFile) (m : MMKV) : MMKV :=
  let inf := bump_confirm 0 0 (info m) in
  set_needFullWriteback false
    (set_meta (set_mf_file (splice (mf_file (meta m)) 0 (marshal inf)) (meta m))
      (set_info inf (set_crcDigest 0 (set_actualSize 0 (set_dict ∅ (set_data mf m)))))).

Lemma cleared_store mf m :
  files_ok m → mf_ok mf → mf_readOnly mf = false → pageRoundUp 0 ≤ len (mf_file mf) →
  enableExpire m = expireEnabled (info m) → needLoad m = false → store_ok (cleared mf m) ∅.
Proof.
  intros Hf Hok Hro Hl Hx Hn. pose proof (fo_meta_len _ Hf) as Hml.
  pose proof (page_header _ Hl) as Hh. destruct Hf as [F1 F2 F3 F4 F5 F6 F7].
  assert (meta_wf (bump_confirm 0 0 (info m))) as Hwf by (by apply bump_confirm_wf).
  pose proof (length_marshal _ (wf_iv _ Hwf)) as Lm.
  assert (length (splice (mf_file (meta m)) 0 (marshal (bump_confirm 0 0 (info m))))
    = length (mf_file (meta m))) as L by (apply length_splice; lia).
  assert (files_ok (cleared mf m)) as Hf'.
  { split; cbn [cleared data meta info set_needFullWriteback set_dict set_meta set_info set_crcDigest
      set_actualSize set_data]; try done; [by apply mf_ok_set_file|].
    cbn [set_mf_file mf_file]. by rewrite L. }
  assert (region (cleared mf m) = []) as Hreg by apply sub_0.
  split; try done.
  - exists [], ∅. rewrite Hreg. split_and!; [|done|by apply fmap_empty].
    unfold decrypts in *. destruct (crypt (cleared mf m)) as [a|]; [|done].
    destruct (Decrypt_ok a [] (mi_iv (info (cleared mf m)))) as (p&Hp'&Hl'); [apply Hf'|].
    rewrite Hp'. by destruct p.
  - exists (info (cleared mf m)). split.
    + cbn [cleared meta info set_needFullWriteback set_dict set_meta set_info set_mf_file mf_file].
      unfold splice. cbn [take app]. by apply parseMeta_marshal_app.
    + by apply load_point_current; [apply Hf'|..]; rewrite ?Hreg.
Qed.

Lemma cleared_settled mf m : files_ok m → settled (cleared mf m).
Proof.
  intros Hf. assert (meta_wf (bump_confirm 0 0 (info m))) as Hwf by (apply bump_confirm_wf; [apply Hf|done..]).
  split; try done. cbn [cleared meta info set_needFullWriteback set_dict set_meta set_info set_mf_file mf_file].
  unfold splice. cbn [take app]. by apply parseMeta_marshal_app.
Qed.

Lemma clearAllLocked_ok s :
  files_ok (st s) → healthy (env s) →
  enableExpire (st s) = expireEnabled (info (st s)) → needLoad (st s) = false →
  ∃ s', clearAllLocked s = (Ok tt, s') ∧ store_ok (st s') ∅ ∧ same_config (st s) (st s')
    ∧ env s' = env s ∧ actualSize (st s') = 0 ∧ len (mf_file (data (st s'))) = pagesize
    ∧ mi_version (info (st s')) = versionFlag ∧ needFullWriteback (st s') = false
    ∧ grows (st s) (st s') ∅ 0 ∧ settled (st s').
Proof.
  intros Hf He Hx Hn. destruct s as [m e]. cbn [st env] in *. unfold clearAllLocked.
  destruct (truncate_ok (data m) e 0 (fo_data _ Hf) He) as (mf&Ht&Hok&Hfile&_&Hro).
  assert (pageRoundUp 0 = pagesize) as Hpg.
  { unfold pageRoundUp. pose proof pagesize_ge. by btrue. }
  pose proof pagesize_ge as Hge.
  assert (len (mf_file mf) = pagesize) as Hlen by (rewrite Hfile, length_resize, Hpg; lia).
  erewrite bind_ok by (unfold onData, zoom; cbn [st env]; rewrite Ht; reflexivity).
  cbn [fst snd]. erewrite bind_ok by reflexivity. cbn [st data set_data].
  pose proof (fo_data_rw _ Hf) as Hrw.
  erewrite bind_ok by (unfold lift; rewrite poke_ok by (done || congruence || (rewrite ?length_zeros; lia));
    reflexivity).
  set (mf1 := set_mf_file _ mf).
  assert (mf_ok mf1) as Hok1 by (apply poke_mf_ok; [done|lia|rewrite length_zeros; lia]).
  assert (len (mf_file mf1) = pagesize) as Hlen1.
  { cbn [mf1 set_mf_file mf_file]. rewrite length_splice by (rewrite length_zeros; lia). done. }
  do 6 (erewrite bind_ok by reflexivity).
  cbn [st set_st info meta set_info set_crcDigest set_actualSize set_dict set_data].
  assert (meta_wf (bump_confirm 0 0 (info m))) as Hwf by (apply bump_confirm_wf; [apply Hf|done..]).
  erewrite bind_ok by (unfold lift; rewrite copyAt_ok by (apply Hf || (rewrite ?length_marshal by apply Hwf;
    pose proof (fo_meta_len _ Hf); lia)); reflexivity).
  do 2 (erewrite bind_ok by reflexivity). cbn [fst].
  erewrite bind_ok by (by apply onData_msync). rewrite onMeta_msync by done.
  exists (mkSt (cleared mf1 m) e). split; [done|].
  split; [apply cleared_store; try done; [exact (eq_trans Hro Hrw)|rewrite Hlen1, Hpg; lia]|].
  split_and!; try done; [|by apply cleared_settled].
  split; [change (0 ≤ Z.max (actualSize m) (len (packed ∅)) + 0); lia| |].
  - apply adv_pack; [by apply cleared_settled|done].
  - apply length_splice. rewrite length_marshal by apply Hwf. pose proof (fo_meta_len _ Hf). lia.
Qed.

(** ** Setting a value *)

Lemma setBlob_pair k v : obuf (writeData (writeData emptyOutput k) v) = pair_bytes (k, v).
Proof. by rewrite !obuf_writeData. Qed.

(** A store whose dictionary is not empty has a region. *)
Lemma store_actual_pos m b : store_ok m b → size (dict m) ≠ 0%nat → 0 < actualSize m.
Proof.
  intros Hs Hn. destruct (Z.lt_trichotomy 0 (actualSize m)) as [|[Ha|Ha]]; [done| |].
  2: { pose proof (so_actual _ _ Hs). lia. }
  exfalso. apply Hn. rewrite (dict_shows_size (data m) _ b) by apply Hs.
  destruct (so_plain _ _ Hs) as (plain&vd&Hd&Hp&<-).
  unfold region in Hd. rewrite <-Ha, sub_0 in Hd.
  assert (plain = []) as ->.
  { unfold decrypts in Hd. destruct (crypt m) as [a|]; [|done].
    destruct (Decrypt_ok a [] (mi_iv (info m))) as (p&Hp'&Hl); [apply Hs|].
    rewrite Hp' in Hd. injection Hd as ->. by destruct plain. }
  rewrite parseDict_nil in Hp. injection Hp as <-. unfold show. by rewrite fmap_empty, map_size_empty.
Qed.

(** One without a region is empty. *)
Lemma store_actual_zero m b : store_ok m b → actualSize m = 0 → b = ∅.
Proof.
  intros Hs Ha. apply map_size_empty_inv. destruct (decide (size b = 0%nat)) as [|Hn]; [done|].
  rewrite <-(dict_shows_size (data m) (dict m) b) in Hn by apply Hs. pose proof (store_actual_pos _ _ Hs Hn). lia.
Qed.

(** The pair can be carried by the format, and the region stays below 4 GiB,
    appended to or packed again. *)
Record can_set (m : MMKV) (b : bdict) (k : gostring) (v : bytes) : Prop := {
  cs_entry : entry_ok (k, v);
  cs_value : v ≠ [];
  cs_append : 4 + actualSize m + len (pair_bytes (k, v)) < 2 ^ 32;
  cs_pack : 4 + len (packed (<[k:=v]> b)) + len (pair_bytes (k, v)) < 2 ^ 32;
  cs_flags : enableExpire m = expireEnabled (info m);
}.

Lemma holder_le_packed b : len itemSizeHolderBytes ≤ len (packed b).
Proof. unfold packed. rewrite encodeRegion_log, length_app. lia. Qed.

(** The write-back path of a set. *)
Lemma set_packable m b k v :
  store_ok m b → can_set m b k v →
  packable (set_dict (<[k:=Heap v]> (dict m)) m) (<[k:=v]> b) (len (pair_bytes (k, v))).
Proof.
  intros Hs [He Hv _ Hp Hx]. destruct (so_files _ _ Hs).
  split; try done; try lia; [|apply Hs].
  split; [by apply dict_shows_insert; [apply Hs|]|].
  apply map_Forall_insert_2; [split; [apply He|done]|apply Hs].
Qed.

(** The dictionary an override may start from. *)
Lemma override_alone m b k :
  store_ok m b → (is_Some (dict m !! k) ∧ size (dict m) = 1%nat) ∨ size (dict m) = 0%nat →
  ∀ j, j ≠ k → b !! j = None.
Proof.
  intros Hs Hc j Hj. assert (dict_shows (data m) (dict m) b) as Hd by apply Hs.
  rewrite (dict_shows_dom _ _ _ k Hd), (dict_shows_size _ _ _ Hd) in Hc. destruct Hc as [[[v Hk] H1]|H0].
  - assert (size (delete k b) = 0%nat) as Hd0 by (rewrite map_size_delete_Some; [lia|eauto]).
    apply map_size_empty_inv in Hd0. rewrite <-(lookup_delete_ne b k j) by done.
    rewrite Hd0. apply lookup_empty.
  - apply map_size_empty_inv in H0 as ->. apply lookup_empty.
Qed.

Lemma setBlob_pack m e b k v needSync :
  store_ok m b → can_set m b k v → healthy e →
  ∃ s', (_ ← upd (fun m => set_dict (<[k:=Heap v]> (dict m)) m);
         fullWritebackGrow needSync (len (pair_bytes (k, v)))) (mkSt m e) = (Ok tt, s')
    ∧ store_ok (st s') (<[k:=v]> b) ∧ same_config m (st s') ∧ quiet e (env s') ∧ settled (st s')
    ∧ grows m (st s') (<[k:=v]> b) (len (pair_bytes (k, v))).
Proof.
  intros Hs Hcan He. erewrite bind_ok by reflexivity.
  destruct (fullWritebackGrow_ok (mkSt (set_dict (<[k:=Heap v]> (dict m)) m) e) (<[k:=v]> b)
    needSync (len (pair_bytes (k, v)))) as (s'&Hr&Hps&Hq); [by apply set_packable|done|].
  exists s'. split_and!; [exact Hr|apply Hps| |exact Hq|by eapply packed_settled|].
  2: { eapply packed_grows; [exact Hps|done..|lia]. }
  etransitivity; [|exact (ps_config _ _ _ _ Hps)]. by split.
Qed.

Lemma setBlob_override m e b k v :
  store_ok m b → can_set m b k v → crypt m = None → versionFlag ≤ mi_version (info m) →
  4 + len itemSizeHolderBytes + len (pair_bytes (k, v)) ≤ len (mf_file (data m)) →
  (is_Some (dict m !! k) ∧ size (dict m) = 1%nat) ∨ size (dict m) = 0%nat → multiProcess m = false →
  ∃ s', onStore (overrideRaw k (pair_bytes (k, v)) (len v)) (mkSt m e) = (Ok tt, s')
    ∧ store_ok (st s') (<[k:=v]> b) ∧ same_config m (st s') ∧ quiet e (env s') ∧ settled (st s')
    ∧ grows m (st s') (<[k:=v]> b) (len (pair_bytes (k, v))).
Proof.
  intros Hs [Hent Hne Hap Hpk Hx] Hc Hver Hl Hd Hal.
  pose proof (holder_le_packed (<[k:=v]> b)) as Hh. pose proof (pair_bytes_len k v) as Hpl.
  eexists. split.
  { eapply onStore_ok, (overrideRaw_ok m k _ v); [apply Hs|done|lia|lia]. }
  assert (versionActualSize ≤ mi_version (info m)) as Hva by (unfold versionActualSize, versionFlag in *; lia).
  assert (settled (st (mkSt (overridden (pair_bytes (k, v)) (<[k := tailView m (len itemSizeHolderBytes
    + len (pair_bytes (k, v))) v]> (dict m)) m) e))) as Hset.
  { unfold overridden. eapply inplace_settled; [done|done|auto with mmkv|unfold is_u32; lia]. }
  split; [|split; [unfold overridden; apply inplace_config|split; [by apply quiet_refl|split; [exact Hset|]]]].
  2: { split; [|by apply adv_alone|unfold overridden; apply inplace_meta_len, (so_files _ _ Hs)].
    change (len itemSizeHolderBytes + len (pair_bytes (k, v))
      ≤ Z.max (actualSize m) (len (packed (<[k:=v]> b))) + len (pair_bytes (k, v))). lia. }
  apply override_store; try done; [by eapply override_alone|lia].
Qed.

(** Appending keeps the store settled, and moves the size up only. *)
Lemma appended_settled m pair d b :
  store_ok m b → versionActualSize ≤ mi_version (info m) → is_u32 (actualSize m + len pair) →
  settled (appended pair d m).
Proof.
  intros Hs Hv Ha. unfold appended. eapply inplace_settled; [done|done| |done].
  apply crc32_Update_range. by eapply store_crc_u32.
Qed.

Lemma appended_grows m pair d b' b :
  store_ok m b → versionActualSize ≤ mi_version (info m) → is_u32 (actualSize m + len pair) →
  0 < len pair → length (appendFile m pair) = length (mf_file (data m)) →
  grows m (appended pair d m) b' (len pair).
Proof.
  intros Hs Hv Ha Hp Hl. split; [| |unfold appended; apply inplace_meta_len, (so_files _ _ Hs)].
  - change (actualSize m + len pair ≤ Z.max (actualSize m) (len (packed b')) + len pair). lia.
  - eapply adv_append; [by eapply appended_settled|reflexivity|lia|exact Hl].
Qed.

Lemma setBlob_append m e b k v :
  store_ok m b → can_set m b k v → crypt m = None → versionFlag ≤ mi_version (info m) →
  4 + actualSize m + len (pair_bytes (k, v)) ≤ len (mf_file (data m)) → size (dict m) ≠ 0%nat →
  ∃ s', (_ ← onStore (appendRaw (pair_bytes (k, v)));
         m' ← this;
         x ← lift (dataView m' (4 + actualSize m + (len (pair_bytes (k, v)) - len v)) (len v));
         upd (fun m => set_dict (<[k := x]> (dict m)) m)) (mkSt m e) = (Ok tt, s')
    ∧ store_ok (st s') (<[k:=v]> b) ∧ same_config m (st s') ∧ quiet e (env s') ∧ settled (st s')
    ∧ grows m (st s') (<[k:=v]> b) (len (pair_bytes (k, v))).
Proof.
  intros Hs [Hent Hne Hap Hpk Hx] Hc Hver Hl Hd. pose proof (pair_bytes_len k v) as Hpl.
  pose proof (so_actual _ _ Hs) as Ha. pose proof (so_files _ _ Hs) as Hf.
  set (pair := pair_bytes (k, v)) in *.
  assert (length (appendFile m pair) = length (mf_file (data m))) as Hlen by (apply length_splice; lia).
  exists (mkSt (appended pair (<[k := tailView m (actualSize m + len pair) v]> (dict m)) m) e). split.
  { erewrite bind_ok by (eapply onStore_ok, (appendRaw_ok m pair); [done|done|lia|done]).
    erewrite bind_ok by reflexivity. cbn [st]. unfold dataView.
    change (data (appended pair (dict m) m)) with (set_mf_file (appendFile m pair) (data m)).
    rewrite memory_ok by (apply mf_ok_set_file; [apply Hf|done]).
    cbn [set_mf_file mf_file]. rewrite slice_ok by (rewrite ?Hlen; lia).
    cbn [mbind outcome_bind]. erewrite bind_ok by reflexivity.
    change (dataGen (appended pair (dict m) m)) with (dataGen m). unfold tailView. rewrite Nat2Z.id.
    by replace (4 + actualSize m + (len pair - len v)) with (4 + (actualSize m + len pair) - len v) by lia. }
  assert (versionActualSize ≤ mi_version (info m)) as Hva by (unfold versionActualSize, versionFlag in *; lia).
  split; [|split; [unfold appended; apply inplace_config|split; [by apply quiet_refl|split]]].
  2: by apply (appended_settled m pair _ b); [..|unfold is_u32; lia].
  2: { apply (appended_grows m pair _ _ b); [done..|unfold is_u32; lia|apply pair_bytes_pos|exact Hlen]. }
  apply append_set_store; try done. by eapply store_actual_pos.
Qed.

(** Whichever path it takes, [setBlob] leaves the store of the map with the
    value set. *)
Lemma setBlob_ok s b k v :
  store_ok (st s) b → can_set (st s) b k v → healthy (env s) →
  ∃ s', setBlob k v s = (Ok tt, s') ∧ store_ok (st s') (<[k:=v]> b)
    ∧ same_config (st s) (st s') ∧ quiet (env s) (env s') ∧ settled (st s')
    ∧ grows (st s) (st s') (<[k:=v]> b) (len (pair_bytes (k, v))).
Proof.
  intros Hs Hcan He. destruct s as [m e]. cbn [st env] in *. unfold setBlob.
  pose proof (so_files _ _ Hs) as Hf. pose proof Hcan as [Hent Hne Hap Hpk Hx].
  pose proof (holder_le_packed (<[k:=v]> b)) as Hh. pose proof (pair_bytes_len k v) as Hpl.
  erewrite bind_ok by reflexivity. cbn [st]. rewrite setBlob_pair.
  unfold fileSize. rewrite (mf_ok_size _ (fo_data _ Hf)).
  set (pair := pair_bytes (k, v)) in *.
  destruct (crypt m) as [a|] eqn:Hc; cbn [andb].
  2: destruct (needFullWriteback m) eqn:Hnf; cbn [andb negb].
  3: destruct (versionFlag <=? mi_version (info m)) eqn:Hver; cbn [andb].
  1, 2, 4: by apply setBlob_pack.
  bsplit. destruct (_ && (_ || _)) eqn:Hov.
  - bsplit. apply setBlob_override; try done.
    match goal with H : (_ || _) = true |- _ => apply orb_true_iff in H as [H'|H']; bsplit end.
    + left. destruct (dict m !! k); [|done]. split; [done|]. by apply Nat.eqb_eq.
    + right. by apply Nat.eqb_eq.
  - destruct (_ && negb _) eqn:Happ; bsplit.
    + apply setBlob_append; try done; [fold pair; lia|]. by apply Nat.eqb_neq.
    + by apply setBlob_pack.
Qed.

(** ** The frame of a writing method *)

(** Two structs that differ in nothing the invariant speaks of. *)
Lemma store_ok_ext m m' b :
  data m' = data m → meta m' = meta m → crypt m' = crypt m → info m' = info m → dict m' = dict m →
  actualSize m' = actualSize m → crcDigest m' = crcDigest m → needLoad m' = needLoad m →
  enableExpire m' = enableExpire m → store_ok m b → store_ok m' b.
Proof.
  destruct m, m'. cbn. intros -> -> -> -> -> -> -> -> -> [[] [] ? ? ? ? ? ? ? ? ? ?].
  by split.
Qed.

Lemma store_ok_set_fl l m b : store_ok m b → store_ok (set_fl l m) b.
Proof. by apply store_ok_ext. Qed.

(** A reload of a store's own files leaves the same store. *)
Lemma reload_store m b :
  store_ok m b →
  ∃ m', loadData m = (Ok tt, m') ∧ store_ok m' b ∧ same_config m m'
    ∧ unmoved m m'.
Proof.
  intros Hs. pose proof (so_files _ _ Hs) as Hf.
  destruct (loads_store m b m Hs) as (m'&Hl&Hs'&Hx&Ea&Ei&_&Ed&Em&?&Hcfg); try done; try apply Hf; [apply Hs|].
  exists m'. split_and!; [done..|]. split; try done.
  rewrite (so_crc _ _ Hs'), (so_crc _ _ Hs). unfold region. by rewrite Ed, Ea.
Qed.

Lemma remap_ok mf e : mf_ok mf → healthy e → remap (mf, e) = (Ok tt, (mf, e)).
Proof.
  intros [[g Hd] Hs] He. unfold remap, mfSys, zoom, mbind, M_bind, get. cbn [fst snd].
  rewrite syscall_healthy by done. cbn [fst snd]. by rewrite <-Hs, Z.eqb_refl, Hd.
Qed.

Lemma reloadBestEffort_ok s b r :
  store_ok (st s) b → healthy (env s) →
  ∃ m', reloadBestEffort r s = (Ok tt, mkSt m' (env s)) ∧ store_ok m' b ∧ same_config (st s) m'
    ∧ unmoved (st s) m'.
Proof.
  intros Hs He. destruct s as [m e]. cbn [st env] in *.
  destruct (reload_store m b Hs) as (m'&Hl&Hrest). exists m'. split; [|done].
  unfold reloadBestEffort, recordErr.
  assert ((if r then onData remap else mret tt) (mkSt m e) = (Ok tt, mkSt m e)) as Hr.
  { destruct r; [|done]. unfold onData, zoom. cbn [st env]. by rewrite remap_ok by apply Hs || done. }
  erewrite bind_ok by exact Hr. by erewrite onStore_ok by exact Hl.
Qed.

(** Checking for foreign changes keeps a store that is up to date. *)
Lemma checkLoadData_ok s b :
  store_ok (st s) b → healthy (env s) →
  ∃ s', checkLoadData s = (Ok tt, s') ∧ store_ok (st s') b ∧ same_config (st s) (st s')
    ∧ quiet (env s) (env s') ∧ unmoved (st s) (st s').
Proof.
  intros Hs He. destruct s as [m e]. cbn [st env] in *. unfold checkLoadData.
  erewrite bind_ok by reflexivity. cbn [st]. rewrite (so_loaded _ _ Hs).
  destruct (multiProcess m); cbn [negb]; [|by exists (mkSt m e)].
  destruct (so_meta _ _ Hs) as (live&Hlive&_). rewrite memory_ok, Hlive by apply Hs.
  assert (∀ r, ∃ s', (_ ← reloadBestEffort r; notifyChanged) (mkSt m e) = (Ok tt, s')
    ∧ store_ok (st s') b ∧ same_config m (st s') ∧ quiet e (env s') ∧ unmoved m (st s')) as Hre.
  { intros r. destruct (reloadBestEffort_ok (mkSt m e) b r Hs He) as (m'&Hr&Hrest).
    erewrite bind_ok by exact Hr. unfold notifyChanged. erewrite bind_ok by reflexivity. cbn [st env].
    destruct (onContentChanged m');
      [exists (mkSt m' (set_changes (S (changes e)) e))|exists (mkSt m' e)];
      (split; [done|]); by destruct Hrest as (?&?&?). }
  destruct (negb _); [apply Hre|]. destruct (_ || _); [apply Hre|]. by exists (mkSt m e).
Qed.

(** The state while the lock is taken. *)
Definition underLock (t : lockType) (s : St) : St :=
  if multiProcess (st s) then
    let l := spec_lock t (fl (st s)) in
    mkSt (set_fl l (st s)) (set_held (wanted l) (env s))
  else s.

(** What no method body changes: how the instance was opened, and its lock. *)
Record same_frame (m m' : MMKV) : Prop := {
  sf_multi : multiProcess m' = multiProcess m;
  sf_ro : readOnly m' = readOnly m;
  sf_fl : fl m' = fl m;
  sf_closed : closed m' = closed m;
}.

#[global] Instance same_frame_trans : Transitive same_frame.
Proof. intros m1 m2 m3 [] []. split; congruence. Qed.
Lemma config_frame m m' : same_config m m' → same_frame m m'.
Proof. intros []. by split. Qed.

(** A method body under the lock: the lock is returned to what it was. *)
Lemma bracket_ok {A} t (c : M St A) s o s' :
  lock_ok (fl (st s), env s) → healthy (env s) → returns o →
  c (underLock t s) = (o, s') → same_frame (st (underLock t s)) (st s') →
  quiet (env (underLock t s)) (env s') →
  (_ ← whenMulti (lock t); deferring (whenMulti (unlock t)) c) s
  = (o, mkSt (set_fl (fl (st s)) (st s')) (set_held (held (env s)) (env s'))).
Proof.
  intros Hl He Ho Hc Hcfg Hq. destruct s as [m e], s' as [m' e']. unfold underLock in *.
  cbn [st env] in *.
  assert (whenMulti (lock t) (mkSt m e) = (Ok tt, underLock t (mkSt m e))) as Hlock.
  { unfold whenMulti. erewrite bind_ok by reflexivity. unfold underLock. cbn [st env]. destruct (multiProcess m); [|done].
    unfold ignore, onLock, zoom. cbn [st env]. by rewrite lock_healthy. }
  erewrite bind_ok by exact Hlock. unfold deferring, underLock. cbn [st env]. rewrite Hc.
  assert (whenMulti (unlock t) (mkSt m' e')
    = (Ok tt, mkSt (set_fl (fl m) m') (set_held (held e) e'))) as Hun.
  { unfold whenMulti. erewrite bind_ok by reflexivity. cbn [st].
    pose proof (sf_multi _ _ Hcfg) as Em. pose proof (sf_fl _ _ Hcfg) as Ef.
    destruct Hq as (Hq1&_&Hq3). destruct (multiProcess m) eqn:Hm; cbn [st env] in *.
    - change (multiProcess m' = multiProcess m) in Em. rewrite Em, Hm. cbn in Ef, Hq3.
      unfold ignore, onLock, zoom. cbn [st env]. rewrite Ef.
      rewrite (unlock_healthy t (fl m) e Hl He e') by done. done.
    - rewrite Em, Hm. rewrite <-Ef, <-Hq3. done. }
  destruct o; try done; cbv beta iota; by rewrite Hun.
Qed.

(** A store in use: it satisfies the invariant, it is open for writing, the
    kernel holds what the counters of its lock say, and no system call fails. *)
Record running (s : St) (b : bdict) : Prop := {
  ru_store : store_ok (st s) b;
  ru_env : healthy (env s);
  ru_lock : lock_ok (fl (st s), env s);
  ru_open : closed (st s) = false;
  ru_rw : readOnly (st s) = false;
}.

(** A store under its lock and checked for foreign changes: the one a body sees
    when its method was called on [s]. *)
Record entered (s s1 : St) (b : bdict) : Prop := {
  en_store : store_ok (st s1) b;
  en_env : healthy (env s1);
  en_now : now (env s1) = now (env s);
  en_config : ∃ l, same_config (set_fl l (st s)) (st s1);
  en_same : unmoved (st s) (st s1);
}.

Lemma entered_grows s s1 b m b' n : entered s s1 b → grows (st s1) m b' n → grows (st s) m b' n.
Proof.
  intros [_ _ _ [l Hl] Hu] [Hs Hadv Hlen]. pose proof (um_actual _ _ Hu) as Ea. pose proof (um_meta _ _ Hu) as Em.
  split; [by rewrite <-Ea| |by rewrite <-Em]. apply (advances_before _ _ _ Hu); [apply (sc_multi _ _ Hl)|done].
Qed.

(** The frame around a body [c] that is right on the locked, checked store: the
    method is right.  What the body makes of the store is [Q]. *)
Lemma writingElse_frame {A} (Q : MMKV → Prop) (x y c : M St A) s b a :
  (∀ l m, Q m → Q (set_fl l m)) → running s b →
  (∀ s1, entered s s1 b →
     ∃ s2, c s1 = (Ok a, s2) ∧ Q (st s2) ∧ same_frame (st s1) (st s2) ∧ quiet (env s1) (env s2)) →
  ∃ s', writingElse x y c s = (Ok a, s') ∧ Q (st s') ∧ quiet (env s) (env s')
    ∧ same_frame (st s) (st s') ∧ ∀ b', store_ok (st s') b' → running s' b'.
Proof.
  intros HQ [Hs He Hl Hc Hr] Hbody.
  assert (∃ l, st (underLock exclusiveLock s) = set_fl l (st s)
    ∧ faults (env (underLock exclusiveLock s)) = faults (env s)
    ∧ now (env (underLock exclusiveLock s)) = now (env s)) as (l&El&Ef&En).
  { unfold underLock. destruct (multiProcess (st s)); eexists; split_and!; done. }
  set (s0 := underLock exclusiveLock s) in *.
  assert (store_ok (st s0) b) as Hs0 by (rewrite El; by apply store_ok_set_fl).
  assert (healthy (env s0)) as He0 by (unfold healthy; congruence).
  destruct (checkLoadData_ok s0 b Hs0 He0) as (s1&Hck&Hs1&Hcfg1&Hq1&Hu).
  destruct (Hbody s1) as (s2&Hrun&HQ2&Hfr2&Hq2).
  { split; try done; [by eapply quiet_healthy|destruct Hq1 as (_&->&_); done| |].
    - exists l. by rewrite El in Hcfg1.
    - rewrite El in Hu. destruct Hu. by split. }
  assert (same_frame (st s0) (st s2)) as Hfr by (etransitivity; [by apply config_frame|done]).
  assert (quiet (env s0) (env s2)) as Hq by (by etransitivity).
  eexists. split; [|split; [|split; [|split]]].
  - apply (bracket_ok exclusiveLock _ s (Ok a) s2); [done|done|done| |done|done].
    erewrite bind_ok by reflexivity. fold s0. rewrite El. cbn [closed readOnly set_fl]. rewrite Hc, Hr.
    erewrite bind_ok by exact Hck. exact Hrun.
  - by apply HQ.
  - destruct Hq as (?&?&?). unfold quiet. cbn. split_and!; congruence.
  - rewrite El in Hfr. destruct Hfr. by split.
  - intros b' Hb'. destruct Hfr as [? Hfro ? Hfrc]. rewrite El in *. destruct Hq as (Hqf&_). split; [done| |done|..].
    + cbn [env]. unfold healthy in *. cbn. congruence.
    + cbn. by rewrite Hfrc.
    + cbn. by rewrite Hfro.
Qed.

Lemma writingElse_gen {A} (Q : MMKV → Prop) (x y c : M St A) s b b' a :
  (∀ l m, Q m → Q (set_fl l m)) → running s b →
  (∀ s1, entered s s1 b →
     ∃ s2, c s1 = (Ok a, s2) ∧ store_ok (st s2) b' ∧ Q (st s2) ∧ same_frame (st s1) (st s2)
       ∧ quiet (env s1) (env s2)) →
  ∃ s', writingElse x y c s = (Ok a, s') ∧ running s' b' ∧ Q (st s') ∧ quiet (env s) (env s')
    ∧ same_frame (st s) (st s').
Proof.
  intros HQ Hr Hbody.
  destruct (writingElse_frame (λ m, store_ok m b' ∧ Q m) x y c s b a) as (s'&Hw&[Hs' HQ']&Hq&Hfr&Hrun); [|done| |].
  - intros l m [? ?]. split; [by apply store_ok_set_fl|by apply HQ].
  - intros s1 Hen. destruct (Hbody s1 Hen) as (s2&?&?&?&?&?). by exists s2.
  - exists s'. split; [done|]. split; [by apply Hrun|done].
Qed.

Lemma writing_gen {A} (Q : MMKV → Prop) (c : M St A) s b b' a :
  (∀ l m, Q m → Q (set_fl l m)) → running s b →
  (∀ s1, entered s s1 b →
     ∃ s2, c s1 = (Ok a, s2) ∧ store_ok (st s2) b' ∧ Q (st s2) ∧ same_frame (st s1) (st s2)
       ∧ quiet (env s1) (env s2)) →
  ∃ s', writing c s = (Ok a, s') ∧ running s' b' ∧ Q (st s') ∧ quiet (env s) (env s')
    ∧ same_frame (st s) (st s').
Proof. apply writingElse_gen. Qed.

(** The configuration is kept, and what is said of the store on entry and on
    return, whatever else that is. *)
Lemma writingElse_ok {A} (Q : MMKV → MMKV → Prop) (x y c : M St A) s b b' a :
  (∀ l m, Q (st s) m → Q (st s) (set_fl l m)) →
  (∀ s1 m, entered s s1 b → Q (st s1) m → Q (st s) m) →
  running s b →
  (∀ s1, entered s s1 b →
     ∃ s2, c s1 = (Ok a, s2) ∧ store_ok (st s2) b' ∧ same_config (st s1) (st s2)
       ∧ quiet (env s1) (env s2) ∧ (settled (st s1) → settled (st s2)) ∧ Q (st s1) (st s2)) →
  ∃ s', writingElse x y c s = (Ok a, s') ∧ running s' b' ∧ same_config (st s) (st s')
    ∧ quiet (env s) (env s') ∧ (settled (st s) → settled (st s')) ∧ Q (st s) (st s').
Proof.
  intros Hfl Hin Hr Hbody.
  destruct (writingElse_gen (fun m' => same_config (set_fl (fl m') (st s)) m'
    ∧ (settled (st s) → settled m') ∧ Q (st s) m') x y c s b b' a)
    as (s'&Hw&Hrun&(HQ&Hset&Hg)&Hq&Hfr).
  - intros l m ([]&Hset&Hg). split; [by split|]. split; [|by apply Hfl]. intros []%Hset. by split.
  - done.
  - intros s1 Hen. destruct (Hbody s1 Hen) as (s2&?&?&Hcfg&?&Hset&Hg). exists s2.
    split; [done|]. split; [done|]. split; [|split; [by apply config_frame|done]].
    split; [|split; [intros Hst; by apply Hset, (unmoved_settled _ _ (en_same _ _ _ Hen))|by apply (Hin s1)]].
    destruct (en_config _ _ _ Hen) as [l Hl]. destruct (same_config_trans _ _ _ Hl Hcfg). by split.
  - exists s'. split_and!; try done. rewrite (sf_fl _ _ Hfr) in HQ. destruct HQ. by split.
Qed.

Lemma writing_ok {A} (c : M St A) s b b' n a :
  running s b →
  (∀ s1, entered s s1 b →
     ∃ s2, c s1 = (Ok a, s2) ∧ store_ok (st s2) b' ∧ same_config (st s1) (st s2)
       ∧ quiet (env s1) (env s2) ∧ (settled (st s1) → settled (st s2)) ∧ grows (st s1) (st s2) b' n) →
  ∃ s', writing c s = (Ok a, s') ∧ running s' b' ∧ same_config (st s) (st s')
    ∧ quiet (env s) (env s') ∧ (settled (st s) → settled (st s')) ∧ grows (st s) (st s') b' n.
Proof.
  apply (writingElse_ok (fun m m' => grows m m' b' n) _ _ c s b); [intros; by apply grows_set_fl|].
  intros s1 m Hen. by eapply entered_grows.
Qed.

End run.
