(* ===== verification/Handlers.v ===== *)
(** * The writing methods

    Each method on a running store returns without an error and leaves a running
    store that stands for the updated map: the functional behaviour of the write
    side, across its in-place and write-back paths, with and without encryption. *)

From S2P Require Import Prelude GoInt Wire Crc32 Meta Dict Crypt MemFile Flock Store StoreOps.
From S2P Require Import StoreInv StoreWrite StoreRun.

Section handlers.
Context `{Platform}.

(** ** Setting *)

(** What a set stores: the blob, with its expiration time when that is on. *)
Definition stored (s : St) (blob : bytes) : bytes :=
  if enableExpire (st s) then appendExpire (now (env s)) blob (expiredSeconds (st s)) else blob.

(** The conditions of a set carry over to the store under the lock. *)
Lemma can_set_same m m1 b k v :
  can_set m b k v → actualSize m1 = actualSize m → enableExpire m1 = enableExpire m → info m1 = info m →
  can_set m1 b k v.
Proof. intros [] Ha Hx Hi. split; congruence || (rewrite ?Ha; done). Qed.

(** The stored value of a key, as compare-before-set sees it. *)
Lemma dict_value m b k :
  dict_shows (data m) (dict m) b →
  match dict m !! k with
  | Some old => ∃ v, b !! k = Some v ∧ deref (data m) old = Ok v
  | None => b !! k = None
  end.
Proof. intros Hd. specialize (Hd k). destruct (dict m !! k), (b !! k); naive_solver. Qed.

Lemma setValueLocked_ok s b k v :
  store_ok (st s) b → can_set (st s) b k (stored s v) → healthy (env s) →
  ∃ s', setValueLocked k v s = (Ok tt, s') ∧ store_ok (st s') (<[k := stored s v]> b)
    ∧ same_config (st s) (st s') ∧ quiet (env s) (env s') ∧ (settled (st s) → settled (st s'))
    ∧ grows (st s) (st s') (<[k := stored s v]> b) (len (pair_bytes (k, stored s v))).
Proof.
  intros Hs Hcan He. unfold setValueLocked. erewrite bind_ok by reflexivity.
  assert (∀ o, o = Ok false →
    ∃ s', (same ← lift o;
      if (same : bool) then mret tt
      else s0 ← get; setBlob k (if enableExpire (st s) then
             appendExpire (now (env s0)) v (expiredSeconds (st s)) else v)) s = (Ok tt, s')
    ∧ store_ok (st s') (<[k := stored s v]> b)
    ∧ same_config (st s) (st s') ∧ quiet (env s) (env s') ∧ (settled (st s) → settled (st s'))
    ∧ grows (st s) (st s') (<[k := stored s v]> b) (len (pair_bytes (k, stored s v)))) as Hset.
  { intros o ->. erewrite bind_ok by reflexivity. cbv beta iota. erewrite bind_ok by reflexivity.
    destruct (setBlob_ok s b k (stored s v) Hs Hcan He) as (s'&?&?&?&?&?&?).
    by exists s'; split_and!. }
  destruct (compareBeforeSet (st s) && negb (enableExpire (st s))) eqn:Hcmp; [|by apply Hset].
  pose proof (dict_value (st s) b k (di_shows _ _ (so_dict _ _ Hs))) as Hv.
  destruct (dict (st s) !! k) as [old|]; [|by apply Hset].
  destruct Hv as (w&Hw&Hd). rewrite Hd. cbn [mbind outcome_bind].
  case_bool_decide as E; [|by apply Hset]. subst w. bsplit.
  assert (stored s v = v) as -> by (unfold stored; by destruct (enableExpire (st s))).
  exists s. split; [done|]. rewrite insert_id by done.
  split_and!; try done. apply grows_refl. lia.
Qed.

Lemma setValue_ok s b k v :
  running s b → can_set (st s) b k (stored s v) →
  ∃ s', setValue k v s = (Ok tt, s') ∧ running s' (<[k := stored s v]> b)
    ∧ same_config (st s) (st s') ∧ quiet (env s) (env s') ∧ (settled (st s) → settled (st s'))
    ∧ grows (st s) (st s') (<[k := stored s v]> b) (len (pair_bytes (k, stored s v))).
Proof.
  intros Hr Hcan. apply (writing_ok _ s b _ (len (pair_bytes (k, stored s v)))); [done|].
  intros s1 [Hs1 He1 Hn1 [l Hcfg] [Ha Hi _ _ _ _]].
  assert (enableExpire (st s1) = enableExpire (st s)) as Hx by apply Hcfg.
  assert (expiredSeconds (st s1) = expiredSeconds (st s)) as Hsec by apply Hcfg.
  assert (stored s1 v = stored s v) as Hst by (unfold stored; by rewrite Hx, Hsec, Hn1).
  rewrite <-Hst. apply setValueLocked_ok; [done| |done].
  rewrite Hst. by eapply can_set_same.
Qed.

(** ** Removing *)

(** A full write-back on the store's own dictionary, or on one a method put in
    its place. *)
Lemma fullWriteback_ok s b :
  packable (st s) b 0 → healthy (env s) →
  ∃ s', fullWriteback s = (Ok tt, s') ∧ packed_store (st s) (st s') b 0 ∧ quiet (env s) (env s').
Proof. unfold fullWriteback. apply fullWritebackGrow_ok. Qed.

Lemma store_packable m b d' b' :
  store_ok m b → dict_shows (data m) d' b' → bdict_ok b' → 4 + len (packed b') < 2 ^ 32 →
  enableExpire m = expireEnabled (info m) → packable (set_dict d' m) b' 0.
Proof.
  intros Hs Hd Hb Hl Hx. destruct (so_files _ _ Hs). split; try done; [lia|apply Hs].
Qed.

Lemma appended_set_dict pair d d' m : appended pair d (set_dict d' m) = appended pair d m.
Proof. done. Qed.

(** The conditions of a removal from a plaintext store. *)
Record can_remove (m : MMKV) (b : bdict) (k : gostring) : Prop := {
  cr_plain : crypt m = None;
  cr_append : 4 + actualSize m + len (pair_bytes (k, [])) < 2 ^ 32;
  cr_pack : 4 + len (packed (delete k b)) < 2 ^ 32;
  cr_flags : enableExpire m = expireEnabled (info m);
}.

Lemma RemoveValueForKey_ok s b k :
  running s b → can_remove (st s) b k →
  ∃ s', RemoveValueForKey k s = (Ok tt, s') ∧ running s' (delete k b)
    ∧ same_config (st s) (st s') ∧ quiet (env s) (env s') ∧ (settled (st s) → settled (st s'))
    ∧ grows (st s) (st s') (delete k b) (len (pair_bytes (k, []))).
Proof.
  intros Hr [Hc Hap Hpk Hx]. apply (writing_ok _ s b _ (len (pair_bytes (k, [])))); [done|].
  intros s1 [Hs He Hn [l Hcfg] [Ha Hi Hdt _ _ _]]. destruct s1 as [m e]. cbn [st env] in *.
  erewrite bind_ok by reflexivity. cbn [st].
  pose proof (dict_value m b k (di_shows _ _ (so_dict _ _ Hs))) as Hv.
  destruct (dict m !! k) as [old|] eqn:Hk.
  2: { exists (mkSt m e). rewrite delete_id by done. split_and!; try done. apply grows_refl. lia. }
  destruct Hv as (v&Hv&_). erewrite bind_ok by reflexivity. cbn [set_st st env].
  rewrite setBlob_pair. unfold fileSize. rewrite (mf_ok_size (data m)) by apply Hs.
  assert (crypt m = None) as Hcm by (rewrite (sc_crypt _ _ Hcfg); done).
  assert (enableExpire m = expireEnabled (info m)) as Hxm
    by (rewrite Hi, <-Hx; apply (sc_expire _ _ Hcfg)).
  destruct (_ && negb _) eqn:Hfast; bsplit.
  - exists (mkSt (appended (pair_bytes (k, [])) (delete k (dict m)) m) e). split.
    + rewrite <-(appended_set_dict _ _ (delete k (dict m)) m).
      apply (onStore_ok _ (mkSt (set_dict (delete k (dict m)) m) e)).
      pose proof (appendRaw_ok (set_dict (delete k (dict m)) m) (pair_bytes (k, []))) as Hrun.
      cbn [dict actualSize data set_dict] in Hrun.
      apply Hrun; [by destruct (so_files _ _ Hs)|lia..].
    + assert (versionActualSize ≤ mi_version (info m)) as Hva by (unfold versionActualSize, versionFlag in *; lia).
      split; [|split; [unfold appended; apply inplace_config|split; [reflexivity|split; [intros _|]]]].
      2: by apply (appended_settled m _ _ b); [..|unfold is_u32; lia].
      2: { apply (appended_grows m _ _ _ b); [done..|unfold is_u32; lia|apply pair_bytes_pos|].
        apply length_splice. lia. }
      apply append_del_store; try done; [|lia|lia].
      destruct (di_ok _ _ (so_dict _ _ Hs) _ _ Hv) as [? _]. split_and!; [done| |done].
      pose proof (pair_bytes_key k []). cbn [fst]. unfold is_u32. lia.
  - destruct (fullWriteback_ok (mkSt (set_dict (delete k (dict m)) m) e) (delete k b))
      as (s'&Hrun&Hps&Hq); [|done|].
    { apply (store_packable m b); try done; [apply dict_shows_delete, Hs|].
      apply map_Forall_delete, Hs. }
    exists s'. split; [exact Hrun|]. split; [apply Hps|].
    split; [|split; [exact Hq|split; [intros _; by eapply packed_settled|eapply packed_grows; [exact Hps|done..|lia]]]].
    etransitivity; [|exact (ps_config _ _ _ _ Hps)]. by split.
Qed.

(** The map without the listed keys. *)
Definition without (keys : list gostring) {A} (b : kmap A) : kmap A :=
  foldl (fun b k => delete k b) b keys.

Lemma deleteKeys_spec keys r d :
  deleteKeys keys r d = (r || existsb (fun k => bool_decide (is_Some (d !! k))) keys, without keys d).
Proof.
  revert r d. induction keys as [|k keys IH]; intros r d; cbn; [by rewrite orb_false_r|].
  destruct (d !! k) as [v|] eqn:E; rewrite IH.
  - rewrite bool_decide_eq_true_2 by eauto. cbn. by rewrite orb_true_r.
  - rewrite bool_decide_eq_false_2 by (by intros []). cbn. rewrite delete_id by done. done.
Qed.

Lemma without_none keys {A} (b : kmap A) :
  existsb (fun k => bool_decide (is_Some (b !! k))) keys = false → without keys b = b.
Proof.
  unfold without. induction keys as [|k keys IH]; cbn; [done|]. intros [Hk Hks]%orb_false_iff.
  apply bool_decide_eq_false in Hk. rewrite delete_id by (by apply eq_None_not_Some). by apply IH.
Qed.

Lemma dict_shows_without mf d b keys :
  dict_shows mf d b → dict_shows mf (without keys d) (without keys b).
Proof.
  unfold without. revert d b. induction keys as [|k keys IH]; intros d b Hd; cbn; [done|].
  by apply IH, dict_shows_delete.
Qed.

Lemma without_Forall (P : gostring → bytes → Prop) keys (b : bdict) :
  map_Forall P b → map_Forall P (without keys b).
Proof.
  unfold without. revert b. induction keys as [|k keys IH]; intros b Hb; cbn; [done|].
  by apply IH, map_Forall_delete.
Qed.

(** The conditions of a method that writes the dictionary back as [b']. *)
Record can_pack (m : MMKV) (b' : bdict) : Prop := {
  cp_pack : 4 + len (packed b') < 2 ^ 32;
  cp_flags : enableExpire m = expireEnabled (info m);
}.

Lemma can_pack_same m m1 b :
  can_pack m b → enableExpire m1 = enableExpire m → info m1 = info m → can_pack m1 b.
Proof. intros [] Hx Hi. split; try done. congruence. Qed.

Lemma RemoveValuesForKeys_ok s b keys :
  running s b → can_pack (st s) (without keys b) →
  ∃ s', RemoveValuesForKeys keys s = (Ok tt, s') ∧ running s' (without keys b)
    ∧ same_config (st s) (st s') ∧ quiet (env s) (env s') ∧ (settled (st s) → settled (st s'))
    ∧ grows (st s) (st s') (without keys b) 0.
Proof.
  intros Hr [Hpk Hx]. apply (writing_ok _ s b _ 0); [done|].
  intros [m e] [Hs He _ [l Hcfg] [_ Hi _ _ _ _]]. cbn [st env] in *.
  do 2 (erewrite bind_ok by reflexivity). cbn [st set_st env].
  rewrite deleteKeys_spec. cbn [fst snd orb].
  pose proof (di_shows _ _ (so_dict _ _ Hs)) as Hd.
  destruct (existsb _ keys) eqn:Hex; cbn [negb].
  - destruct (fullWriteback_ok (mkSt (set_dict (without keys (dict m)) m) e) (without keys b))
      as (s'&Hrun&Hps&Hq); [|done|].
    { apply (store_packable m b); try done; [by apply dict_shows_without|apply without_Forall, Hs|].
      rewrite Hi, <-Hx. apply (sc_expire _ _ Hcfg). }
    exists s'. split; [exact Hrun|]. split; [apply Hps|].
    split; [|split; [exact Hq|split; [intros _; by eapply packed_settled|eapply packed_grows; [exact Hps|done..|lia]]]].
    etransitivity; [|exact (ps_config _ _ _ _ Hps)]. by split.
  - exists (mkSt m e). rewrite without_none by done. split; [done|].
    split; [|split_and!; try done; apply grows_refl; lia].
    rewrite without_none; [done|]. rewrite <-Hex. clear Hex Hpk.
    induction keys as [|k keys IH]; [done|]. cbn. rewrite IH. f_equal.
    apply bool_decide_ext. symmetry. by eapply dict_shows_dom.
Qed.

(** ** Clearing and trimming *)

Lemma ClearAll_ok s b :
  running s b → enableExpire (st s) = expireEnabled (info (st s)) →
  ∃ s', ClearAll s = (Ok tt, s') ∧ running s' ∅ ∧ same_config (st s) (st s') ∧ quiet (env s) (env s')
    ∧ actualSize (st s') = 0 ∧ len (mf_file (data (st s'))) = pagesize ∧ grows (st s) (st s') ∅ 0.
Proof.
  intros Hr Hx.
  destruct (writing_gen (fun m' => same_config (set_fl (fl m') (st s)) m' ∧ actualSize m' = 0
    ∧ len (mf_file (data m')) = pagesize ∧ grows (st s) m' ∅ 0) clearAllLocked s b ∅ tt)
    as (s'&Hw&Hrun&(HQ&Ha&Hl&Hg)&Hq&Hfr).
  - intros l m ([]&?&?&?). split; [by split|]. split_and!; try done. by apply grows_set_fl.
  - done.
  - intros s1 Hen. pose proof Hen as [Hs He _ [l Hcfg] [_ Hi _ _ _ _]].
    destruct (clearAllLocked_ok s1) as (s2&Hc&Hs2&Hcfg2&Eenv&Ha&Hl&_&_&Hg&_); [apply Hs|done| |apply Hs|].
    { rewrite Hi, <-Hx. apply (sc_expire _ _ Hcfg). }
    exists s2. split; [done|]. split; [done|]. split; [|split; [by apply config_frame|by rewrite Eenv]].
    split; [|split_and!; try done; by eapply entered_grows].
    destruct (same_config_trans _ _ _ Hcfg Hcfg2). by split.
  - exists s'. split_and!; try done. rewrite (sf_fl _ _ Hfr) in HQ. destruct HQ. by split.
Qed.

Lemma trimLoop_spec fuel a t :
  0 ≤ a → a ≤ t → t < 2 ^ Z.of_nat fuel → ∃ r, trimLoop fuel (a * 2) t = Ok r ∧ a ≤ r ≤ t ∧ r ≤ a * 2.
Proof.
  intros Ha. revert t. induction fuel as [|fuel IH]; intros t Ht Hf; cbn [trimLoop].
  - change (2 ^ Z.of_nat 0) with 1 in Hf. bfalse. exists t. split; [done|lia].
  - destruct (a * 2 <? t) eqn:E; bsplit; [|exists t; split; [done|lia]].
    destruct (IH (t / 2)) as (r&->&?&?).
    + apply Z.div_le_lower_bound; lia.
    + rewrite Nat2Z.inj_succ, Z.pow_succ_r in Hf by lia. apply Z.div_lt_upper_bound; lia.
    + exists r. split; [done|]. pose proof (Z.div_le_upper_bound t 2 t). lia.
Qed.

(** A store whose data file was cut or extended behind its region, with its
    views built again. *)
Lemma redecode_store m b mf :
  store_ok m b → parseMeta (mf_file (meta m)) = Ok (info m) → versionActualSize ≤ mi_version (info m) →
  mi_actualSize (info m) = actualSize m → mi_crcDigest (info m) = crcDigest m →
  mf_ok mf → mf_readOnly mf = false → pageRoundUp 0 ≤ len (mf_file mf) →
  4 + actualSize m ≤ len (mf_file mf) → sub (mf_file mf) 4 (Z.to_nat (actualSize m)) = region m →
  ∃ m', decodeRegion (actualSize m) (crcDigest m) (set_data mf m) = (Ok tt, m')
    ∧ store_ok m' b ∧ same_config m m' ∧ data m' = mf ∧ actualSize m' = actualSize m
    ∧ info m' = info m ∧ meta m' = meta m ∧ settled m'.
Proof.
  intros Hs Hm Hv Ha Hc Hok Hro Hpg Hl Hreg. destruct (so_plain _ _ Hs) as (plain&vd&Hd&Hp&Hb).
  assert (decrypts (set_data mf m) (sub (mf_file mf) 4 (Z.to_nat (actualSize m))) plain) as Hd'
    by (rewrite Hreg; exact Hd).
  pose proof (decodeRegion_ok (set_data mf m) (actualSize m) (crcDigest m) plain vd Hok
    (so_actual _ _ Hs) Hl (so_nowrap _ _ Hs) Hd' Hp) as Hrun.
  destruct (decoded_shows (set_data mf m) (actualSize m) (crcDigest m) plain vd Hok
    (so_actual _ _ Hs) Hl Hd' Hp) as [Hsh Hin].
  set (m' := decoded _ _ _ _ _) in *.
  exists m'. split; [exact Hrun|]. split; [|split; [by split|split_and!; try done; by split]].
  destruct Hs as [[] Hdi ? ? ? Hcrc ? ? ? ? ? ?].
  assert (region m' = region m) as Hr' by exact Hreg.
  split; try done.
  - split; [by rewrite <-Hb|apply Hdi].
  - rewrite Hr'. exact Hcrc.
  - exists plain, vd. split; [|done]. rewrite Hr'. exact Hd.
  - exists (info m). split; [exact Hm|].
    apply (load_point_current m'); try done. by rewrite Hr'.
Qed.

Lemma sub_resize n (l : bytes) off k :
  (off + k ≤ n)%nat → (off + k ≤ length l)%nat → sub (resize n l) off k = sub l off k.
Proof.
  intros Hn Hl. unfold resize. rewrite sub_app_l by (rewrite length_take; lia). by apply sub_take.
Qed.

Lemma shrink_ok m0 m e b :
  packed_store m0 m b 0 → healthy e →
  ∃ m', shrink (mkSt m e) = (Ok tt, mkSt m' e) ∧ store_ok m' b ∧ same_config m m'
    ∧ actualSize m' = actualSize m ∧ len (mf_file (data m')) ≤ pageRoundUp ((actualSize m + 4) * 2)
    ∧ info m' = info m ∧ meta m' = meta m ∧ settled m'.
Proof.
  intros Hps He. pose proof (ps_store _ _ _ _ Hps) as Hs. pose proof (so_files _ _ Hs) as Hf.
  unfold shrink. erewrite bind_ok by reflexivity. cbn [st].
  unfold fileSize. rewrite (mf_ok_size (data m)) by apply Hf.
  pose proof (so_fits _ _ Hs) as Hfit. pose proof (so_actual _ _ Hs) as Ha.
  destruct (trimLoop_spec (S (Z.to_nat (Z.log2 (len (mf_file (data m)))))) (actualSize m + 4)
    (len (mf_file (data m)))) as (r&Hr&Hr1&Hr2); [lia|lia| |].
  { pose proof (Z.log2_nonneg (len (mf_file (data m)))).
    rewrite Nat2Z.inj_succ, Z2Nat.id by done. apply Z.log2_spec. lia. }
  erewrite bind_ok by (unfold lift; rewrite Hr; reflexivity). cbv beta iota zeta.
  set (target := if r <? pageRoundUp 0 then _ else r).
  assert (r ≤ target) as Ht by (unfold target; destruct (r <? pageRoundUp 0) eqn:E; bsplit; lia).
  assert (pageRoundUp target ≤ pageRoundUp ((actualSize m + 4) * 2)) as Hle.
  { unfold target. destruct (r <? pageRoundUp 0); [|apply pageRoundUp_mono; lia].
    transitivity (1 * pagesize); [apply pageRoundUp_least; [lia|]|].
    - rewrite Z.mul_1_l. unfold pageRoundUp. pose proof pagesize_ge. by btrue.
    - rewrite Z.mul_1_l. apply pageRoundUp_min. }
  destruct (len (mf_file (data m)) <=? target) eqn:E; bsplit.
  { exists m. split_and!; try done; [pose proof (pageRoundUp_ge target); lia|by eapply packed_settled]. }
  destruct (truncate_ok (data m) e target (fo_data _ Hf) He) as (mf&Htr&Hok&Hfile&Hsz&Hro).
  erewrite bind_ok by (unfold onData, zoom; cbn [st env]; rewrite Htr; reflexivity).
  cbn [fst snd]. erewrite bind_ok by reflexivity. cbn [st].
  pose proof (pageRoundUp_ge target) as Hge.
  assert (len (mf_file mf) = pageRoundUp target) as Hl by (by rewrite <-(mf_ok_size _ Hok)).
  destruct (redecode_store m b mf) as (m'&Hrun&Hs'&Hcfg&Hdata&Hact&Hi&Hmt&Hset); try done.
  - apply Hps.
  - rewrite (ps_version _ _ _ _ Hps). by unfold versionActualSize, versionFlag.
  - apply (ps_current _ _ _ _ Hps).
  - apply (ps_current _ _ _ _ Hps).
  - rewrite Hro. apply Hf.
  - rewrite Hl. apply pageRoundUp_mono. lia.
  - lia.
  - rewrite Hfile. apply sub_resize; lia.
  - erewrite bind_ok by (apply onStore_ok; exact Hrun).
    exists m'. rewrite onMeta_msync by done. split; [done|]. split_and!; try done.
    by rewrite Hdata, Hl.
Qed.

(** [Trim] keeps the map, and leaves the file within twice the live size,
    rounded to pages. *)
Lemma Trim_ok s b :
  running s b → can_pack (st s) b → 
  ∃ s', Trim s = (Ok tt, s') ∧ running s' b ∧ same_config (st s) (st s') ∧ quiet (env s) (env s')
    ∧ len (mf_file (data (st s'))) ≤ pageRoundUp ((actualSize (st s') + 4) * 2)
    ∧ grows (st s) (st s') b 0.
Proof.
  intros Hr Hp.
  destruct (writing_gen (fun m' => same_config (set_fl (fl m') (st s)) m'
    ∧ len (mf_file (data m')) ≤ pageRoundUp ((actualSize m' + 4) * 2) ∧ grows (st s) m' b 0)
    (m ← this; if actualSize m =? 0 then clearAllLocked else _ ← fullWriteback; shrink)
    s b b tt) as (s'&Hw&Hrun&(HQ&Hl&Hg)&Hq&Hfr).
  - intros l m ([]&?&?). split; [by split|]. split; [done|by apply grows_set_fl].
  - done.
  - intros s1 Hen. pose proof Hen as [Hs He _ [l Hcfg] [_ Hi _ _ _ _]]. erewrite bind_ok by reflexivity.
    assert (can_pack (st s1) b) as [Hpk Hx]
      by (eapply can_pack_same; [done|apply (sc_expire _ _ Hcfg)|done]).
    destruct (actualSize (st s1) =? 0) eqn:E; bsplit.
    + destruct (clearAllLocked_ok s1) as (s2&Hc&Hs2&Hcfg2&Eenv&Ha&Hl&_&_&Hg&_); [apply Hs|done|done|apply Hs|].
      exists s2. pose proof (store_actual_zero _ _ Hs E) as ->.
      split; [done|]. split; [done|]. split; [|split; [by apply config_frame|by rewrite Eenv]].
      split; [destruct (same_config_trans _ _ _ Hcfg Hcfg2); by split|].
      rewrite Hl. split; [apply pageRoundUp_min|by eapply entered_grows].
    + destruct (fullWriteback_ok s1 b) as (s2&Hfw&Hps&Hq2); [|done|].
      { split; try done; [apply Hs|apply Hs|lia|apply Hs]. }
      destruct s2 as [m2 e2]. cbn [st env] in *.
      destruct (shrink_ok (st s1) m2 e2 b Hps) as (m3&Hsh&Hs3&Hcfg3&Ha3&Hl3&Hi3&Hm3&Hset3);
        [by eapply quiet_healthy|].
      exists (mkSt m3 e2). erewrite bind_ok by exact Hfw. split; [exact Hsh|]. split; [done|].
      assert (same_config (set_fl l (st s)) m3) as Hc3
        by (etransitivity; [exact Hcfg|]; etransitivity; [exact (ps_config _ _ _ _ Hps)|done]).
      split; [split|split; [|exact Hq2]]; cbn [st].
      * destruct Hc3. by split.
      * split; [by rewrite Ha3|]. eapply entered_grows; [exact Hen|].
        split; [rewrite Ha3, (ps_size _ _ _ _ Hps); lia| |by rewrite Hm3, (ps_meta_len _ _ _ _ Hps)].
        apply adv_pack; [done|]. rewrite Hi3. apply (ps_seq _ _ _ _ Hps).
      * apply config_frame. etransitivity; [exact (ps_config _ _ _ _ Hps)|done].
  - exists s'. split_and!; try done. rewrite (sf_fl _ _ Hfr) in HQ. destruct HQ. by split.
Qed.

(** ** Changing the key *)

Definition newCrypt (newKey : bytes) : option aesCFB :=
  if len newKey =? 0 then None else Some (newAESCFB newKey).

(** Everything is written again under the new key, or in plaintext when it is
    empty. *)
Lemma ReKey_ok s b newKey :
  running s b → can_pack (st s) b →
  ∃ s', ReKey newKey s = (Ok tt, s') ∧ running s' b ∧ crypt (st s') = newCrypt newKey
    ∧ (enableExpire (st s') = enableExpire (st s) ∧ expiredSeconds (st s') = expiredSeconds (st s)
       ∧ enableExpire (st s') = expireEnabled (info (st s')))
    ∧ quiet (env s) (env s') ∧ same_frame (st s) (st s') ∧ grows (st s) (st s') b 0.
Proof.
  intros Hr Hp. unfold ReKey.
  destruct (writing_gen (fun m' => grows (st s) m' b 0 ∧ crypt m' = newCrypt newKey ∧ (enableExpire m' = enableExpire (st s)
      ∧ expiredSeconds m' = expiredSeconds (st s) ∧ enableExpire m' = expireEnabled (info m')))
    (m ← this;
     _ ← upd (set_crypt (if len newKey =? 0 then None else Some (newAESCFB newKey)));
     onErr (set_crypt (crypt m)) fullWriteback) s b b tt) as (s'&Hw&Hrun&(Ha&HQ&Hx')&Hq&Hfr);
    [by intros l m' [? ?]; split; [apply grows_set_fl|]|done| |by exists s'].
  intros [m e] Hen. pose proof Hen as [Hs He _ [l Hcfg] [_ Hi _ _ _ _]]. cbn [st env] in *.
  do 2 (erewrite bind_ok by reflexivity). cbn [st set_st env].
  assert (can_pack m b) as [Hpk Hx]
    by (eapply can_pack_same; [done|apply (sc_expire _ _ Hcfg)|done]).
  destruct (fullWriteback_ok (mkSt (set_crypt (newCrypt newKey) m) e) b) as (s2&Hfw&Hps&Hq); [|done|].
  { destruct (so_files _ _ Hs), (so_dict _ _ Hs). split; try done; [lia|apply Hs]. }
  exists s2. unfold onErr, set_st. cbn [env]. fold (newCrypt newKey). rewrite Hfw.
  split; [done|]. split; [apply Hps|]. pose proof (ps_config _ _ _ _ Hps) as Hc2. cbn [st] in Hc2.
  split; [split; [|split; [apply (sc_crypt _ _ Hc2)|split_and!]]|split; [|exact Hq]].
  - eapply entered_grows; [exact Hen|]. by eapply packed_grows.
  - etransitivity; [apply (sc_expire _ _ Hc2)|]. apply (sc_expire _ _ Hcfg).
  - etransitivity; [apply (sc_seconds _ _ Hc2)|]. apply (sc_seconds _ _ Hcfg).
  - by eapply packed_flags.
  - destruct (config_frame _ _ Hc2). by split.
Qed.

(** ** Expiration *)

Lemma expireEnabled_set mi : expireEnabled (set_flags (Z.lor (mi_flags mi) flagEnableExpire) mi) = true.
Proof.
  unfold expireEnabled, flagEnableExpire. cbn [set_flags mi_flags].
  apply negb_true_iff, Z.eqb_neq. intros H0. apply (f_equal (fun z => Z.testbit z 0)) in H0.
  rewrite Z.land_spec, Z.lor_spec in H0. change (Z.testbit (Z.shiftl 1 0) 0) with true in H0.
  by rewrite orb_true_r in H0.
Qed.

Lemma expireEnabled_clear mi :
  expireEnabled (set_flags (Z.ldiff (mi_flags mi) flagEnableExpire) mi) = false.
Proof.
  unfold expireEnabled, flagEnableExpire. cbn [set_flags mi_flags].
  apply negb_false_iff, Z.eqb_eq, Z.bits_inj. intros n.
  rewrite Z.land_spec, Z.ldiff_spec, Z.bits_0. change (Z.shiftl 1 0) with 1.
  destruct (Z.testbit (mi_flags mi) n), (Z.testbit 1 n); done.
Qed.

Lemma ldiff_bound n a b : 0 ≤ n → 0 ≤ a < 2 ^ n → 0 ≤ b → 0 ≤ Z.ldiff a b < 2 ^ n.
Proof.
  intros Hn Ha Hb. assert (Z.ldiff a b = Z.ldiff a b mod 2 ^ n) as ->; [|apply Z.mod_pos_bound; lia].
  apply Z.bits_inj'. intros i Hi. destruct (Z.lt_ge_cases i n) as [Hlt|Hge].
  - by rewrite Z.mod_pow2_bits_low.
  - rewrite Z.mod_pow2_bits_high by lia. rewrite Z.ldiff_spec.
    rewrite <-(Z.mod_small a (2 ^ n)) by lia. by rewrite Z.mod_pow2_bits_high by lia.
Qed.

Lemma set_flags_files m f x y d :
  files_ok m → is_u64 f →
  files_ok (set_dict d (set_info (set_flags f (info m)) (set_enableExpire x (set_expiredSeconds y m)))).
Proof. intros [? ? ? ? ? ? []] Hf. by split. Qed.

(** Every value as it is stored once expiration is on: it never expires. *)
Definition stamped (b : bdict) : bdict := (fun v => v ++ zeros 4) <$> b.

Lemma addNever_ok mf d b :
  dict_shows mf d b → addNever mf d = Ok ((fun v => Heap (v ++ zeros 4)) <$> b).
Proof. intros Hd. unfold addNever. by rewrite (derefDict_ok _ _ b). Qed.

Lemma heap_shows {A} mf (f : A → bytes) (x : kmap A) : dict_shows mf ((fun v => Heap (f v)) <$> x) (f <$> x).
Proof. intros k. rewrite !lookup_fmap. by destruct (x !! k). Qed.

Lemma stamped_ok b : bdict_ok b → bdict_ok (stamped b).
Proof.
  intros Hb k v Hv. unfold stamped in Hv. rewrite lookup_fmap in Hv.
  destruct (b !! k) as [w|] eqn:E; [|done]. injection Hv as <-.
  split; [by apply Hb in E as []|]. by destruct w.
Qed.

(** The struct once expiration is on in memory, and once it is off with the
    dictionary [d']. *)
Definition expiring (seconds : Z) (m : MMKV) : MMKV :=
  let m := set_compareBeforeSet false (set_enableExpire true (set_expiredSeconds seconds m)) in
  set_info (set_flags (Z.lor (mi_flags (info m)) flagEnableExpire) (info m)) m.
Definition permanent (d' : kmap gslice) (m : MMKV) : MMKV :=
  let m := set_expiredSeconds 0 (set_enableExpire false (set_dict d' m)) in
  set_info (set_flags (Z.ldiff (mi_flags (info m)) flagEnableExpire) (info m)) m.

Lemma expiring_packable seconds m b d' b' :
  store_ok m b → dict_shows (data m) d' b' → bdict_ok b' → 4 + len (packed b') < 2 ^ 32 →
  packable (set_dict d' (expiring seconds m)) b' 0.
Proof.
  intros Hs Hd Hb Hl. split; try done; [|lia| |apply Hs].
  - destruct (so_files _ _ Hs) as [? ? ? ? ? ? []]. split; try done. split; try done.
    unfold is_u64. apply lor_bound; [lia|done|]. done.
  - cbn [enableExpire info set_dict expiring set_info]. by rewrite expireEnabled_set.
Qed.

Lemma permanent_packable m b d' b' :
  store_ok m b → dict_shows (data m) d' b' → bdict_ok b' → 4 + len (packed b') < 2 ^ 32 →
  packable (permanent d' m) b' 0.
Proof.
  intros Hs Hd Hb Hl. split; try done; [|lia| |apply Hs].
  - destruct (so_files _ _ Hs) as [? ? ? ? ? ? []]. split; try done. split; try done.
    unfold is_u64. by apply ldiff_bound.
  - cbn [enableExpire info permanent set_info set_expiredSeconds set_enableExpire]. by rewrite expireEnabled_clear.
Qed.

(** The values are stamped when expiration was off. *)
Lemma stamps_ok m m1 b :
  dict_shows (data m) (dict m) b → dict m1 = dict m →
  ∃ d', (∀ e, (if negb (enableExpire m) then d ← lift (addNever (data m) (dict m)); upd (set_dict d) else mret tt)
        (mkSt m1 e) = (Ok tt, mkSt (set_dict d' m1) e))
    ∧ dict_shows (data m) d' (if enableExpire m then b else stamped b).
Proof.
  intros Hd E. destruct (enableExpire m); cbn [negb].
  - exists (dict m). split; [|done]. intros e. rewrite <-E. by destruct m1.
  - eexists. split; [|apply heap_shows]. intros e.
    by erewrite bind_ok by (unfold lift; rewrite (addNever_ok _ _ b) by done; reflexivity).
Qed.

(** Turning expiration on stamps every value, once. *)
Lemma EnableAutoKeyExpire_ok s b seconds :
  running s b → let b' := if enableExpire (st s) then b else stamped b in
  4 + len (packed b') < 2 ^ 32 →
  ∃ s', EnableAutoKeyExpire seconds s = (Ok tt, s') ∧ running s' b'
    ∧ (enableExpire (st s') = true ∧ expiredSeconds (st s') = seconds
       ∧ compareBeforeSet (st s') = false ∧ crypt (st s') = crypt (st s)
       ∧ enableExpire (st s') = expireEnabled (info (st s')))
    ∧ quiet (env s) (env s') ∧ same_frame (st s) (st s') ∧ grows (st s) (st s') b' 0.
Proof.
  intros Hr b' Hpk. unfold EnableAutoKeyExpire.
  assert (bdict_ok b') as Hok.
  { pose proof (di_ok _ _ (so_dict _ _ (ru_store _ _ Hr))) as Hb. unfold b'.
    destruct (enableExpire (st s)); [done|by apply stamped_ok]. }
  match goal with |- context [writing ?c s] =>
    destruct (writing_gen (fun m' => grows (st s) m' b' 0 ∧ enableExpire m' = true ∧ expiredSeconds m' = seconds
      ∧ compareBeforeSet m' = false ∧ crypt m' = crypt (st s)
      ∧ enableExpire m' = expireEnabled (info m')) c s b b' tt)
      as (s'&Hw&Hrun&[Ha HQ]&Hq&Hfr); [by intros l m' [? ?]; split; [apply grows_set_fl|]|done| |by exists s'] end.
  intros [m e] Hen. pose proof Hen as [Hs He _ [l Hcfg] [_ Hi _ _ _ _]]. cbn [st env] in *.
  do 5 (erewrite bind_ok by reflexivity). cbn [st set_st env].
  pose proof (di_shows _ _ (so_dict _ _ Hs)) as Hd.
  change (set_info _ _) with (expiring seconds m).
  assert (enableExpire m = enableExpire (st s)) as Ex by apply (sc_expire _ _ Hcfg).
  destruct (stamps_ok m (expiring seconds m) b Hd eq_refl) as (d'&Hstep&Hd').
  erewrite bind_ok by exact (Hstep e). rewrite Ex in Hd'. fold b' in Hd'.
  destruct (fullWriteback_ok (mkSt (set_dict d' (expiring seconds m)) e) b') as (s2&Hfw&Hps&Hq); [|done|].
  { by eapply expiring_packable. }
  exists s2. split; [exact Hfw|]. split; [apply Hps|]. pose proof (ps_config _ _ _ _ Hps) as Hc2.
  cbn [st] in Hc2. split; [|split; [destruct (config_frame _ _ Hc2); by split|exact Hq]].
  split_and!; [eapply entered_grows; [exact Hen|by eapply packed_grows]|apply (sc_expire _ _ Hc2)|apply (sc_seconds _ _ Hc2)|apply (sc_compare _ _ Hc2)
    | |by eapply packed_flags].
  etransitivity; [apply (sc_crypt _ _ Hc2)|]. apply (sc_crypt _ _ Hcfg).
Qed.

(** A stored value as a reader sees it while expiration is on. *)
Definition strip (nowUnix : Z) (v : bytes) : option bytes :=
  if 4 <=? len v then
    let t := le_val (sub v (length v - 4) 4) in
    if negb (t =? 0) && (t <=? nowUnix) then None else Some (sub v 0 (length v - 4))
  else Some v.

Lemma deref_len mf s v : deref mf s = Ok v → slice_len s = len v.
Proof.
  destruct s as [bs|g off n]; cbn [deref slice_len]; [by intros [= ->]|].
  destruct (mf_data mf) as [mp|]; [|done]. destruct (g =? map_gen mp)%nat; [|done].
  intros Hs. apply slice_inv in Hs as (?&?&?&->). rewrite length_sub; lia.
Qed.

Lemma deref_subslice mf s v lo hi :
  deref mf s = Ok v → (lo ≤ hi ≤ length v)%nat → deref mf (subslice s lo hi) = Ok (sub v lo (hi - lo)).
Proof.
  destruct s as [bs|g off n]; cbn [deref subslice]; [by intros [= ->]|].
  destruct (mf_data mf) as [mp|]; [|done]. destruct (g =? map_gen mp)%nat; [|done].
  intros Hs Hl. apply slice_inv in Hs as (?&?&?&->). rewrite length_sub in Hl by lia.
  rewrite slice_ok by lia. f_equal. rewrite sub_sub by lia. f_equal; lia.
Qed.

(** What [value] returns for a key of the map. *)
Lemma value_spec m b nowUnix k :
  dict_shows (data m) (dict m) b → 
  match b !! k ≫= (fun v => if enableExpire m then strip nowUnix v else Some v) with
  | Some w => ∃ s, value m nowUnix k = Ok (Some s) ∧ deref (data m) s = Ok w
  | None => value m nowUnix k = Ok None
  end.
Proof.
  intros Hd. pose proof (dict_value m b k Hd) as Hv. unfold value.
  destruct (dict m !! k) as [s|]; [|by rewrite Hv].
  destruct Hv as (v&->&Hs). cbn [mbind option_bind].
  destruct (enableExpire m); cbn [andb]; [|by eauto].
  rewrite (deref_len _ _ _ Hs). unfold strip. destruct (4 <=? len v) eqn:E; bsplit; [|by eauto].
  rewrite Nat2Z.id. rewrite (deref_subslice _ _ v) by (done || lia). cbn [mbind outcome_bind].
  replace (length v - (length v - 4))%nat with 4%nat by lia.
  destruct (negb _ && _); [done|]. eexists. split; [done|].
  rewrite (deref_subslice _ _ v) by (done || lia). by rewrite Nat.sub_0_r.
Qed.

Lemma stripAll_ok m b nowUnix :
  dict_shows (data m) (dict m) b → enableExpire m = true →
  ∃ d', stripAll m nowUnix = Ok d' ∧ dict_shows (data m) d' (omap (strip nowUnix) b).
Proof.
  intros Hd Hx. unfold stripAll.
  set (g := fun e : gostring * gslice => (e.1, Heap <$> (b !! e.1 ≫= strip nowUnix))).
  rewrite (mapM_ok _ g).
  2: { apply Forall_forall. intros [k s] Hs. cbn [fst].
    pose proof (value_spec m b nowUnix k Hd) as Hv. rewrite Hx in Hv. unfold g. cbn [fst].
    destruct (b !! k ≫= strip nowUnix) as [w|]; [|by rewrite Hv].
    destruct Hv as (x&->&Hw). cbn [mbind outcome_bind]. by rewrite Hw. }
  eexists. split; [reflexivity|]. intros k. rewrite !lookup_omap.
  unfold g. rewrite (lookup_rebuild (fun k => Heap <$> (b !! k ≫= strip nowUnix))).
  pose proof (dict_value m b k Hd) as Hv. destruct (dict m !! k) as [s|].
  - destruct Hv as (v&->&_). cbn. by destruct (strip nowUnix v).
  - by rewrite Hv.
Qed.

(** Turning expiration off drops the expired values and unstamps the rest. *)
Lemma DisableAutoKeyExpire_ok s b :
  running s b → enableExpire (st s) = expireEnabled (info (st s)) → let b' := if enableExpire (st s) then omap (strip (now (env s))) b else b in
  bdict_ok b' → 4 + len (packed b') < 2 ^ 32 →
  ∃ s', DisableAutoKeyExpire s = (Ok tt, s') ∧ running s' b'
    ∧ (enableExpire (st s') = false ∧ crypt (st s') = crypt (st s)
       ∧ enableExpire (st s') = expireEnabled (info (st s'))
       ∧ expiredSeconds (st s') = if enableExpire (st s) then 0 else expiredSeconds (st s))
    ∧ quiet (env s) (env s') ∧ same_frame (st s) (st s') ∧ grows (st s) (st s') b' 0.
Proof.
  intros Hr Hfl b' Hok Hpk. unfold DisableAutoKeyExpire.
  match goal with |- context [writing ?c s] =>
    destruct (writing_gen (fun m' => grows (st s) m' b' 0 ∧ enableExpire m' = false ∧ crypt m' = crypt (st s)
      ∧ enableExpire m' = expireEnabled (info m')
      ∧ expiredSeconds m' = if enableExpire (st s) then 0 else expiredSeconds (st s)) c s b b' tt)
      as (s'&Hw&Hrun&[Hg HQ]&Hq&Hfr); [by intros l m' [? ?]; split; [apply grows_set_fl|]|done| |by exists s'] end.
  intros [m e] Hen. pose proof Hen as [Hs He Hn [l Hcfg] [Ha Hi _ _ _ _]]. cbn [st env] in *. erewrite bind_ok by reflexivity. cbn [st].
  pose proof (di_shows _ _ (so_dict _ _ Hs)) as Hd.
  assert (enableExpire m = enableExpire (st s)) as Ex by apply (sc_expire _ _ Hcfg).
  assert (crypt m = crypt (st s)) as Ec by apply (sc_crypt _ _ Hcfg).
  unfold b' in *. rewrite <-Ex in *. destruct (enableExpire m) eqn:Hx; cbn [negb].
  2: { exists (mkSt m e). split_and!; try done; cbn [st]; [|congruence|apply (sc_seconds _ _ Hcfg)].
    eapply entered_grows; [exact Hen|]. by apply grows_refl. }
  erewrite bind_ok by reflexivity. cbn [env].
  destruct (stripAll_ok m b (now e)) as (d'&Hstrip&Hd'); [done|done|]. rewrite Hn in Hd'.
  erewrite bind_ok by (unfold lift; rewrite Hstrip; reflexivity).
  do 4 (erewrite bind_ok by reflexivity). cbn [st set_st env].
  change (set_info _ _) with (permanent d' m).
  destruct (fullWriteback_ok (mkSt (permanent d' m) e) (omap (strip (now (env s))) b)) as (s2&Hfw&Hps&Hq); [|done|].
  { by eapply permanent_packable. }
  exists s2. split; [exact Hfw|]. split; [apply Hps|]. pose proof (ps_config _ _ _ _ Hps) as Hc2.
  cbn [st] in Hc2. split; [|split; [destruct (config_frame _ _ Hc2); by split|exact Hq]].
  split; [eapply entered_grows; [exact Hen|by eapply packed_grows]|]. split; [apply (sc_expire _ _ Hc2)|].
  split; [|split; [by eapply packed_flags|apply (sc_seconds _ _ Hc2)]].
  etransitivity; [apply (sc_crypt _ _ Hc2)|]. exact Ec.
Qed.

End handlers.
