(* ===== verification/Open.v ===== *)
(** * Opening a store

    A store that was written can be opened again, by this process or another:
    the map is the same.  A store without files starts empty. *)

From S2P Require Import Prelude GoInt Wire Crc32 Meta Dict Crypt MemFile Flock Store StoreOps.
From S2P Require Import StoreInv StoreWrite StoreRun Handlers.

Section open.
Context `{Platform}.

(** The instance MMKVWithID makes for a store with the given key. *)
Definition keyed (cryptKey : bytes) : option aesCFB :=
  if 0 <? len cryptKey then Some (newAESCFB cryptKey) else None.

(** [open] of a writable instance, with no system call failing: both files are
    mapped, padded to whole pages, loaded, and repaired if they were salvaged. *)
Lemma openFiles_runs m0 e dataDisk metaDisk :
  readOnly m0 = false → healthy e →
  ∃ d mt, mf_ok d ∧ mf_ok mt ∧ mf_readOnly d = false ∧ mf_readOnly mt = false
    ∧ mf_file d = padded 0 (default [] dataDisk)
    ∧ mf_file mt = padded (Z.of_nat metaSize) (default [] metaDisk)
    ∧ openFiles (mkOpening (mkSt m0 e) dataDisk metaDisk)
      = let '(o, s') := (_ ← onStore loadData; repair) (mkSt (set_fl newFileLock (set_meta mt (set_data d m0))) e) in
        (o, mkOpening s' (Some (mf_file d)) (Some (mf_file mt))).
Proof.
  intros Hr He.
  destruct (openMemoryFile_ok 0 dataDisk e He) as (d&Hd&Hdok&Hdf&Hdr).
  destruct (openMemoryFile_ok (Z.of_nat metaSize) metaDisk e He) as (mt&Hm&Hmok&Hmf&Hmr).
  exists d, mt. do 6 (split; [done|]).
  unfold openFiles. erewrite bind_ok by reflexivity. cbn [st op_st]. rewrite Hr.
  erewrite bind_ok by (unfold onSt, onSys, zoom; cbn [env op_st]; rewrite syscall_healthy by done; reflexivity).
  erewrite bind_ok by (unfold openData; cbn [env set_env st op_st op_data]; rewrite Hd; reflexivity).
  erewrite bind_ok by (unfold openSecond, openMeta; cbn [env set_env st op_st op_meta op_data]; rewrite Hm; reflexivity).
  erewrite bind_ok by reflexivity. rewrite Hdf, Hmf.
  unfold onSt, zoom, mbind, M_bind. cbn [op_st set_env set_st env st].
  destruct (onStore loadData _) as [[[]| | |] s1]; cbn [op_st]; [|done..]. by destruct (repair s1).
Qed.

Lemma openFiles_loads m0 e dataDisk metaDisk :
  readOnly m0 = false → healthy e →
  ∃ d mt, mf_ok d ∧ mf_ok mt ∧ mf_readOnly d = false ∧ mf_readOnly mt = false
    ∧ mf_file d = padded 0 (default [] dataDisk)
    ∧ mf_file mt = padded (Z.of_nat metaSize) (default [] metaDisk)
    ∧ ∀ m' o s', loadData (set_fl newFileLock (set_meta mt (set_data d m0))) = (Ok tt, m') →
        repair (mkSt m' e) = (o, s') →
        openFiles (mkOpening (mkSt m0 e) dataDisk metaDisk)
        = (o, mkOpening s' (Some (mf_file d)) (Some (mf_file mt))).
Proof.
  intros Hr He. destruct (openFiles_runs m0 e dataDisk metaDisk Hr He) as (d&mt&?&?&?&?&?&?&Ho).
  exists d, mt. do 6 (split; [done|]). intros m' o s' Hl Hrep.
  rewrite Ho. erewrite bind_ok by (apply onStore_ok; exact Hl). cbn [env]. by rewrite Hrep.
Qed.

Lemma repair_clean m e : needFullWriteback m = false → repair (mkSt m e) = (Ok tt, mkSt m e).
Proof. intros Hn. unfold repair. erewrite bind_ok by reflexivity. cbn [st]. by rewrite Hn. Qed.

(** An instance as MMKVWithID makes it. *)
Record brand_new (m0 : MMKV) : Prop := {
  bn_rw : readOnly m0 = false;
  bn_open : closed m0 = false;
  bn_load : needLoad m0 = false;
  bn_clean : needFullWriteback m0 = false;
}.

Lemma newMMKV_brand_new root id key multi cryptKey handler recov :
  brand_new (newMMKV root id key multi false cryptKey handler recov).
Proof. by split. Qed.

(** What an opening leaves: the store, and the files it stands on. *)
Record opened (m0 : MMKV) (e : sys) (dataDisk metaDisk : option bytes) (s' : St) : Prop := {
  od_files : openFiles (mkOpening (mkSt m0 e) dataDisk metaDisk)
    = (Ok tt, mkOpening s' (Some (mf_file (data (st s')))) (Some (mf_file (meta (st s')))));
  od_crypt : crypt (st s') = crypt m0;
  od_seconds : expiredSeconds (st s') = expiredSeconds m0;
  od_env : env s' = e;
  od_multi : multiProcess (st s') = multiProcess m0;
  od_lock : fl (st s') = newFileLock;
}.

Lemma opened_open m0 e dataDisk metaDisk s' :
  opened m0 e dataDisk metaDisk s' → open dataDisk metaDisk (mkSt m0 e) = (Ok tt, s').
Proof. intros [Ho _ _ _ _ _]. unfold open. by rewrite Ho. Qed.

(** Opening the files of a store, under its key, gives a running store with the
    same map, on the same bytes. *)
Lemma reopen_ok m b m0 e :
  store_ok m b → brand_new m0 → crypt m0 = crypt m → healthy e → held e = Unheld →
  ∃ s', opened m0 e (Some (mf_file (data m))) (Some (mf_file (meta m))) s'
    ∧ running s' b ∧ enableExpire (st s') = enableExpire m ∧ info (st s') = info m
    ∧ actualSize (st s') = actualSize m ∧ mf_file (data (st s')) = mf_file (data m)
    ∧ mf_file (meta (st s')) = mf_file (meta m).
Proof.
  intros Hs [Hr Hc Hn Hw] Hk He Hh.
  destruct (openFiles_loads m0 e (Some (mf_file (data m))) (Some (mf_file (meta m))) Hr He)
    as (d&mt&Hdok&Hmok&Hdr&Hmr&Hdf&Hmf&Hopen).
  cbn [default] in Hdf, Hmf. rewrite padded_id in Hdf, Hmf by apply Hs.
  destruct (loads_store m b (set_fl newFileLock (set_meta mt (set_data d m0))) Hs)
    as (m'&Hl&Hs'&Hx&Ha&Hi&Hset&Hd'&Hm'&Hn'&Hcfg); try done.
  cbn [data meta set_fl set_meta set_data] in Hd', Hm'.
  exists (mkSt m' e). split; [|split; [|cbn [st]; rewrite Hd', Hm'; by split_and!]].
  - split; [|exact (sc_crypt _ _ Hcfg)|exact (sc_seconds _ _ Hcfg)|done|exact (sc_multi _ _ Hcfg)|exact (sc_fl _ _ Hcfg)]. cbn [st]. rewrite Hd', Hm'.
    apply (Hopen m'); [done|apply repair_clean; by rewrite Hn'].
  - split; try done; cbn [st env].
    + rewrite (sc_fl _ _ Hcfg). by split_and!.
    + by rewrite (sc_closed _ _ Hcfg).
    + by rewrite (sc_ro _ _ Hcfg).
Qed.

(** ** A store without files *)

Lemma sub_zeros n off k : (off + k ≤ n)%nat → sub (zeros n) off k = zeros k.
Proof.
  intros Hl. unfold sub, zeros. rewrite drop_replicate, take_replicate. f_equal. lia.
Qed.

Lemma padded_nil n : padded n [] = zeros (Z.to_nat (pageRoundUp n)).
Proof.
  unfold padded, resize. pose proof (pageRoundUp_min n). pose proof pagesize_ge. cbn [length].
  rewrite (proj2 (Z.ltb_lt _ _)) by lia. by rewrite take_nil, Nat.sub_0_r.
Qed.

Lemma parseMeta_zeros n : (metaSize ≤ n)%nat → parseMeta (zeros n) = Ok zeroMeta.
Proof.
  intros Hn. unfold parseMeta. rewrite length_zeros. unfold metaSize in *. bfalse.
  unfold offCRC, offVersion, offSequence, offIV, offActualSize, offLastActualSize, offLastCRCDigest,
    offFlags. rewrite !sub_zeros by lia. done.
Qed.

(** Opening files, padded to whole pages, whose meta describes a region that can be
    read: the store is that region's. *)
Lemma opens_region m0 e dataDisk metaDisk live plain vd a :
  let f := padded 0 (default [] dataDisk) in
  let g := padded (Z.of_nat metaSize) (default [] metaDisk) in
  brand_new m0 → healthy e → held e = Unheld →
  parseMeta g = Ok live → mi_version live ≤ maxSupportedVersion →
  sizeOf live f = a → 0 ≤ a → 4 + a ≤ len f → 4 + a < 2 ^ 32 →
  mi_crcDigest live = crc32_ChecksumIEEE (sub f 4 (Z.to_nat a)) →
  decrypts (set_info live m0) (sub f 4 (Z.to_nat a)) plain → parseDict plain = Ok vd → bdict_ok (show plain vd) →
  ∃ s', opened m0 e dataDisk metaDisk s' ∧ running s' (show plain vd)
    ∧ enableExpire (st s') = (versionFlag <=? mi_version live) && expireEnabled live
    ∧ info (st s') = live ∧ actualSize (st s') = a ∧ crcDigest (st s') = mi_crcDigest live
    ∧ published (st s') live.
Proof.
  intros f g [Hr Hc Hn Hw] He Hh Hg Hver Hsz H0 Hfit Hwrap Hcrc Hdec Hp Hok.
  destruct (openFiles_loads m0 e dataDisk metaDisk Hr He) as (d&mt&Hdok&Hmok&Hdr&Hmr&Hdf&Hmf&Hopen).
  fold f in Hdf. fold g in Hmf. set (m1 := set_fl newFileLock (set_meta mt (set_data d m0))) in *.
  assert (∀ m2, data m2 = d → readActualSize (set_info live m2) = a) as Hact.
  { intros m2 E. rewrite <-(sizeOf_readActualSize m2 live) by (rewrite E; exact Hdok). by rewrite E, Hdf. }
  assert (∀ m2, data m2 = d → acceptable m2 a (mi_crcDigest live) = Ok true) as Hacc.
  { intros m2 E. apply acceptable_true; rewrite ?E, ?Hdf; done. }
  assert (∀ m2, data m2 = d → info m2 = live → load_point m2 live a (mi_crcDigest live)) as Hlp.
  { intros m2 E1 E2. left. rewrite Hact by done. split_and!; [by apply Hacc|done..]. }
  pose proof (padded_len 0 (default [] dataDisk)) as Pf. fold f in Pf.
  pose proof (padded_len (Z.of_nat metaSize) (default [] metaDisk)) as Pg. fold g in Pg.
  rewrite <-Hdf in *. rewrite <-Hmf in *.
  assert (∀ m2, crypt m2 = crypt m0 → info m2 = live → decrypts m2 (sub (mf_file d) 4 (Z.to_nat a)) plain) as Hdec1.
  { intros m2 E1 E2. apply (decrypts_info (set_info live m0)); [exact E1| |exact Hdec]. exact (f_equal mi_iv E2). }
  destruct (decoded_shows (set_info live (set_enableExpire ((versionFlag <=? mi_version live) && expireEnabled live) m1))
    a (mi_crcDigest live) plain vd) as [Hsh Hin]; [done..|by apply Hdec1|done|].
  pose proof (loadData_ok m1 live live a (mi_crcDigest live) plain vd Hdok Hmok Hg Hver
    (Hlp (set_info live m1) eq_refl eq_refl) H0 Hfit Hwrap (Hdec1 (set_info live m1) eq_refl eq_refl) Hp) as Hload.
  set (m' := loaded _ _ _ _ _ _ _) in Hload.
  assert (store_ok m' (show plain vd)) as Hs'.
  { split; try done.
    - split; try done. by eapply parseMeta_wf.
    - exists plain, vd. split; [by apply Hdec1|done].
    - exists live. split; [done|by apply Hlp]. }
  exists (mkSt m' e). split; [|split; [by split|split_and!; try done]].
  - split; [|done..]. by apply (Hopen m'); [|apply repair_clean].
  - split; [done|]. rewrite Hact by done. by apply Hacc.
Qed.

(** A store opened for the first time is empty, and running. *)
Lemma open_fresh m0 e :
  brand_new m0 → dict m0 = ∅ → healthy e → held e = Unheld →
  ∃ s', opened m0 e None None s' ∧ running s' ∅
    ∧ enableExpire (st s') = false ∧ info (st s') = zeroMeta ∧ actualSize (st s') = 0
    ∧ crcDigest (st s') = 0 ∧ published (st s') zeroMeta.
Proof.
  intros Hn _ He Hh.
  pose proof (pageRoundUp_min 0) as Hp0. pose proof pagesize_ge as Hpg.
  pose proof (pageRoundUp_ge (Z.of_nat metaSize)) as Hpm.
  destruct (opens_region m0 e None None zeroMeta [] ∅ 0) as (s'&Ho&Hr&Hx&Hi&Ha&Hc&Hp); try done; cbn [default];
    rewrite ?padded_nil; try rewrite sub_0; try done.
  - apply parseMeta_zeros. lia.
  - unfold sizeOf. change (versionActualSize <=? mi_version zeroMeta) with false. cbv iota.
    rewrite length_zeros. btrue. rewrite sub_zeros by lia. done.
  - rewrite length_zeros. lia.
  - unfold decrypts. cbn [crypt set_info info]. destruct (crypt m0) as [c|]; [|done].
    destruct (Decrypt_ok c [] (mi_iv zeroMeta)) as (p&Hp&Hl); [done|]. rewrite Hp. by destruct p.
  - exists s'. split; [done|]. split; [exact Hr|by split_and!].
Qed.

End open.
