(* ===== verification/EncryptedRemove.v ===== *)
(** * RemoveValueForKey on an encrypted store (mmkv_io.go)

    The method appends its tombstone without looking at the key: plaintext behind
    the ciphertext.  What that leaves, and what a later load makes of it. *)

From S2P Require Import Prelude GoInt Wire Crc32 Meta Dict Crypt MemFile Flock Store StoreOps.
From S2P Require Import StoreInv StoreWrite StoreRun Handlers Open.

Section remove.
Context `{Platform}.

(** The struct after the removal: it shows the map without the key, and the files
    describe a region that ends in the plaintext tombstone. *)
Record tombstoned (m m' : MMKV) (b : bdict) (k : gostring) : Prop := {
  tb_dict : dict_is m' (delete k b);
  tb_files : files_ok m';
  tb_settled : settled m';
  tb_region : region m' = region m ++ pair_bytes (k, []);
  tb_crc : crcDigest m' = crc32_ChecksumIEEE (region m');
  tb_actual : actualSize m' = actualSize m + len (pair_bytes (k, []));
  tb_fits : 4 + actualSize m' ≤ len (mf_file (data m'));
  tb_wrap : 4 + actualSize m' < 2 ^ 32;
  tb_iv : mi_iv (info m') = mi_iv (info m);
  tb_version : mi_version (info m') = mi_version (info m);
}.

Lemma tombstoned_set_fl l m m' b k : tombstoned m m' b k → tombstoned m (set_fl l m') b k.
Proof. intros [[] [] [] ? ? ? ? ? ? ?]. by split. Qed.

(** When the method appends: the key is there, and the file has room. *)
Record can_append (m : MMKV) (b : bdict) (k : gostring) : Prop := {
  ca_there : is_Some (b !! k);
  ca_clean : needFullWriteback m = false;
  ca_version : versionFlag ≤ mi_version (info m);
  ca_used : 0 < actualSize m;
  ca_room : 4 + actualSize m + len (pair_bytes (k, [])) ≤ len (mf_file (data m));
  ca_wrap : 4 + actualSize m + len (pair_bytes (k, [])) < 2 ^ 32;
}.

Lemma append_tombstoned m b k :
  store_ok m b → can_append m b k →
  tombstoned m (appended (pair_bytes (k, [])) (delete k (dict m)) m) b k.
Proof.
  intros Hs [Hk Hn Hv Ha Hroom Hw]. pose proof (so_files _ _ Hs) as Hf.
  set (t := pair_bytes (k, [])) in *.
  assert (length (appendFile m t) = length (mf_file (data m))) as Hl by (apply length_splice; lia).
  pose proof (appendFile_region m t ltac:(lia) Hroom) as Hreg.
  assert (versionActualSize ≤ mi_version (info m)) as Hva by (unfold versionActualSize, versionFlag in *; lia).
  assert (region (appended t (delete k (dict m)) m) = region m ++ t) as Hreg' by exact Hreg.
  split; try done.
  - split; [|by apply map_Forall_delete, Hs]. apply dict_shows_delete. by apply append_shows.
  - apply files_ok_inplace; [done| |unfold is_u32; lia|done].
    apply crc32_Update_range. by eapply store_crc_u32.
  - apply (appended_settled m t _ b); [done|done|unfold is_u32; lia].
  - rewrite Hreg'. cbn. rewrite (so_crc _ _ Hs). apply crc32_Update_app.
  - cbn. rewrite Hl. lia.
  - cbn. lia.
Qed.

(** The removal succeeds, whatever the key of the store. *)
Lemma remove_appends s b k :
  running s b → can_append (st s) b k →
  ∃ s', RemoveValueForKey k s = (Ok tt, s') ∧ tombstoned (st s) (st s') b k
    ∧ quiet (env s) (env s') ∧ same_frame (st s) (st s').
Proof.
  intros Hr Hc. destruct (writingElse_frame (λ m, tombstoned (st s) m b k) (fail ErrClosed) (fail ErrReadOnly)
    (m ← this;
     match dict m !! k with
     | None => mret tt
     | Some _ =>
         _ ← upd (fun m => set_dict (delete k (dict m)) m);
         let tomb := obuf (writeData (writeData emptyOutput k) []) in
         let spaceLeft := fileSize (data m) - 4 - actualSize m in
         if (len tomb <=? spaceLeft) && (versionFlag <=? mi_version (info m)) && (0 <? actualSize m)
            && negb (needFullWriteback m)
         then onStore (appendRaw tomb) else fullWriteback
     end) s b tt) as (s'&Hw&Ht&Hq&Hfr&_); [by intros l m; apply tombstoned_set_fl|done| |by exists s'].
  intros s1 [Hs He Hn [l Hcfg] [Ha Hi Hd Hm Hcr Hcl]]. destruct s1 as [m e]. cbn [st env] in *.
  assert (can_append m b k) as Hc1 by (destruct Hc; split; congruence).
  assert (tombstoned m (appended (pair_bytes (k, [])) (delete k (dict m)) m) b k) as [? ? ? Ereg ? Eact ? ? Eiv Ev]
    by (by apply append_tombstoned).
  pose proof Hc1 as [[w Hk] Hnf Hv Hpos Hroom Hw].
  pose proof (dict_value m b k (di_shows _ _ (so_dict _ _ Hs))) as Hval.
  exists (mkSt (appended (pair_bytes (k, [])) (delete k (dict m)) m) e). split; [|split; [|split; [|reflexivity]]].
  - erewrite bind_ok by reflexivity. cbn [st]. destruct (dict m !! k) as [old|] eqn:E; [|congruence].
    erewrite bind_ok by reflexivity. cbn [set_st st env]. rewrite setBlob_pair. unfold fileSize.
    rewrite (mf_ok_size (data m)), Hnf by apply Hs. do 3 btrue. cbn [andb negb].
    rewrite <-(appended_set_dict _ _ (delete k (dict m)) m).
    apply (onStore_ok _ (mkSt (set_dict (delete k (dict m)) m) e)).
    pose proof (appendRaw_ok (set_dict (delete k (dict m)) m) (pair_bytes (k, []))) as Hrun.
    cbn [dict actualSize data set_dict] in Hrun. apply Hrun; [by destruct (so_files _ _ Hs)|lia..].
  - cbn [st]. assert (region m = region (st s)) as Er by (unfold region; by rewrite Ha, Hd).
    split; [done|done|done|by rewrite Ereg, Er|done|by rewrite Eact, Ha|done|done|by rewrite Eiv, Hi|by rewrite Ev, Hi].
  - by apply config_frame, inplace_config.
Qed.

(** ** Opening what it left *)

Lemma decodeRegion_rejects m a c plain err :
  mf_ok (data m) → 0 ≤ a → 4 + a ≤ len (mf_file (data m)) → 4 + a < 2 ^ 32 →
  decrypts m (sub (mf_file (data m)) 4 (Z.to_nat a)) plain → parseDict plain = Err err →
  decodeRegion a c m = (Err err, m).
Proof.
  intros Hok H0 Hl Hw Hd Hp. unfold decodeRegion, mbind, M_bind, get, lift.
  rewrite regionOf_ok by done. unfold decrypts in Hd.
  destruct (crypt m) as [k|]; [rewrite Hd|subst plain]; by rewrite Hp.
Qed.

(** A load whose size and digest are right, but whose plaintext does not parse. *)
Lemma loadData_rejects m live a plain err :
  mf_ok (data m) → mf_ok (meta m) → parseMeta (mf_file (meta m)) = Ok live →
  mi_version live ≤ maxSupportedVersion → readActualSize (set_info live m) = a →
  acceptable m a (mi_crcDigest live) = Ok true →
  0 ≤ a → 4 + a ≤ len (mf_file (data m)) → 4 + a < 2 ^ 32 →
  decrypts (set_info live m) (sub (mf_file (data m)) 4 (Z.to_nat a)) plain → parseDict plain = Err err →
  (loadData m).1 = Err err.
Proof.
  intros Hd Hm Hp Hv Ea Hacc H0 Hl Hw Hdec Hparse. unfold loadData, mbind, M_bind, get, lift, modify.
  rewrite (memory_ok (meta m)), Hp by done. bfalse. cbv beta zeta iota.
  change (readActualSize (set_enableExpire _ (set_info live m))) with (readActualSize (set_info live m)).
  rewrite Ea. change (acceptable (set_enableExpire _ (set_info live m)) ?a ?c) with (acceptable m a c).
  rewrite Hacc. by rewrite (decodeRegion_rejects _ _ _ plain err).
Qed.

(** An instance that opens the files under the key decrypts the tombstone to
    something else: it finds the map of those bytes, or an error. *)
Lemma tombstoned_opens m m' b k a plain m0 e :
  tombstoned m m' b k → crypt m = Some a → decrypts m (region m) plain →
  mi_version (info m) ≤ maxSupportedVersion →
  brand_new m0 → crypt m0 = Some a → healthy e → held e = Unheld →
  let found := plain ++ garbled a (mi_iv (info m)) (region m) (pair_bytes (k, [])) in
  let opening := open (Some (mf_file (data m'))) (Some (mf_file (meta m'))) (mkSt m0 e) in
  match parseDict found with
  | Ok vd => ∃ s2, opening = (Ok tt, s2) ∧ running s2 (show found vd)
  | Err err => opening.1 = Err err
  | _ => False
  end.
Proof.
  intros [_ Hf [Hmeta Hva Hsa Hsc] Hreg Hcrc Hact Hfit Hwrap Hiv Hver] Hk Hdec Hmax Hn0 Hk0 He Hh found opening.
  pose proof (fo_data_page _ Hf) as Hdl. pose proof (fo_meta_page _ Hf) as Hml.
  pose proof (padded_id _ _ Hdl) as Ed. pose proof (padded_id _ _ Hml) as Em.
  assert (0 ≤ actualSize m') as H0.
  { rewrite <-Hsa. apply (wf_actual _ (parseMeta_wf _ _ Hmeta)). }
  assert (Decrypt a (sub (mf_file (data m')) 4 (Z.to_nat (actualSize m'))) (mi_iv (info m')) = Ok found) as Hdec'.
  { change (sub _ 4 _) with (region m'). rewrite Hreg, Hiv. apply Decrypt_append.
    unfold decrypts in Hdec. by rewrite Hk in Hdec. }
  assert (sizeOf (info m') (mf_file (data m')) = actualSize m') as Hsz.
  { unfold sizeOf. by btrue. }
  assert (mi_crcDigest (info m') = crc32_ChecksumIEEE (sub (mf_file (data m')) 4 (Z.to_nat (actualSize m')))) as Hc.
  { by rewrite Hsc, Hcrc. }
  pose proof (parseDict_spec found) as Hsp. destruct (parseDict found) as [vd|err| |] eqn:Hp; [| |done..].
  - destruct (opens_region m0 e (Some (mf_file (data m'))) (Some (mf_file (meta m'))) (info m') found vd (actualSize m'))
      as (s2&Ho&Hr&_); cbn [default id]; rewrite ?Ed, ?Em; try done.
    + by rewrite Hver.
    + unfold decrypts. cbn [crypt set_info info]. by rewrite Hk0.
    + by apply show_ok.
    + exists s2. split; [by apply opened_open|done].
  - destruct Hn0 as [Hr0 _ _ _].
    destruct (openFiles_runs m0 e (Some (mf_file (data m'))) (Some (mf_file (meta m'))) Hr0 He)
      as (d&mt&Hdok&Hmok&_&_&Hdf&Hmf&Ho).
    cbn [default id] in Hdf, Hmf. rewrite Ed in Hdf. rewrite Em in Hmf.
    set (m1 := set_fl newFileLock (set_meta mt (set_data d m0))) in *.
    unfold opening, open. rewrite Ho.
    assert ((loadData m1).1 = Err err) as Hl.
    { apply (loadData_rejects m1 (info m') (actualSize m') found); try done; cbn [m1 data meta set_fl set_meta set_data];
        rewrite ?Hdf, ?Hmf; try done.
      - by rewrite Hver.
      - rewrite <-(sizeOf_readActualSize m1 (info m')) by done. by change (mf_file (data m1)) with (mf_file d); rewrite Hdf.
      - apply acceptable_true; cbn [m1 data set_fl set_meta set_data]; rewrite ?Hdf; done.
      - unfold decrypts. cbn [crypt set_info info]. change (crypt m1) with (crypt m0). by rewrite Hk0. }
    unfold mbind, M_bind, onStore, zoom. cbn [st env]. by destruct (loadData m1) as [o m2]; cbn [fst] in Hl; subst.
Qed.

End remove.
