(* ===== verification/Recovery.v ===== *)
(** * Crashes, corruption and other processes

    What a load makes of files this instance did not leave as they are: a torn
    append, arbitrary bytes, and the writes of another process. *)

From S2P Require Import Prelude GoInt Wire Crc32 Meta Dict Crypt MemFile Flock Store StoreOps.
From S2P Require Import StoreInv StoreWrite StoreRun Handlers Open.

Section recovery.
Context `{Platform}.

(** ** A torn append *)

(** The last-confirmed point is the end of the region. *)
Definition confirmed (m : MMKV) : Prop :=
  mi_lastActualSize (info m) = actualSize m ∧ mi_lastCRCDigest (info m) = crcDigest m.

(** The store with other bytes behind its region and other words in its meta
    file. *)
Definition torn (f : bytes) (c a : Z) (m : MMKV) : MMKV :=
  set_meta (metaWords (meta m) c a) (set_data (set_mf_file f (data m)) m).

Lemma sub_of_take (f g : bytes) n off k :
  take n f = take n g → (off + k ≤ n)%nat → sub f off k = sub g off k.
Proof. intros Ht Hl. rewrite <-(sub_take f n), <-(sub_take g n) by done. by rewrite Ht. Qed.

(** Whatever was written behind the confirmed region, and whatever size and
    digest the meta file holds: when they do not describe the file, the files
    still stand for the confirmed map. *)
Lemma torn_store m b f c a :
  store_ok m b → settled m → confirmed m → is_u32 c → is_u32 a →
  length f = length (mf_file (data m)) →
  take (Z.to_nat (4 + actualSize m)) f = take (Z.to_nat (4 + actualSize m)) (mf_file (data m)) →
  acceptable (torn f c a m) a c = Ok false →
  store_ok (torn f c a m) b.
Proof.
  intros Hs [Hm Hv Ha Hc] [Hla Hlc] Hcu Hau Hlen Hpre Hno.
  pose proof (so_files _ _ Hs) as Hf. pose proof (so_actual _ _ Hs) as H0.
  pose proof (so_fits _ _ Hs) as Hfit. pose proof (so_nowrap _ _ Hs) as Hnw.
  assert (mf_ok (set_mf_file f (data m))) as Hdok by (apply mf_ok_set_file; [apply Hf|done]).
  destruct (metaWords_ok (meta m) c a (fo_meta _ Hf) (fo_meta_len _ Hf)) as [Hmok Hmlen].
  assert (region (torn f c a m) = region m) as Hreg
    by (apply (sub_of_take _ _ (Z.to_nat (4 + actualSize m))); [done|lia]).
  assert (parseMeta (mf_file (meta (torn f c a m))) = Ok (set_crc_actual c a (info m))) as Hm'
    by (by apply parseMeta_update).
  destruct (so_plain _ _ Hs) as (plain&vd&Hd&Hp&Hb). pose proof (so_dict _ _ Hs) as Hdi.
  split; try done; try apply Hs.
  - destruct Hf. split; try done; cbn [torn data meta set_meta set_data set_mf_file mf_file];
      by rewrite ?Hlen, ?Hmlen.
  - split; [|apply Hdi]. eapply dict_shows_change; [apply Hdi|]. intros k s Hk.
    apply (so_views _ _ Hs) in Hk. destruct s as [|g off n]; [done|]. cbn [slice_in] in Hk.
    cbn [torn data set_meta set_data deref]. change (mf_data (set_mf_file f (data m))) with (mf_data (data m)).
    destruct (mf_data (data m)) as [mp|]; [|done]. destruct (g =? map_gen mp)%nat; [|done].
    rewrite !memory_ok by (done || apply Hf). cbn [set_mf_file mf_file].
    rewrite !slice_ok by lia. f_equal. apply (sub_of_take _ _ (Z.to_nat (4 + actualSize m))); [done|lia].
  - change (4 + actualSize m ≤ len f). lia.
  - rewrite Hreg. apply Hs.
  - exists plain, vd. split; [|done]. rewrite Hreg. exact Hd.
  - eexists. split; [exact Hm'|]. right.
    assert (readActualSize (set_info (set_crc_actual c a (info m)) (torn f c a m)) = a) as ->.
    { unfold readActualSize. cbn [set_info info]. change (mi_version (set_crc_actual c a (info m)))
        with (mi_version (info m)). by btrue. }
    cbn [set_crc_actual mi_crcDigest mi_lastActualSize mi_lastCRCDigest]. rewrite Hla, Hlc.
    split_and!; [exact Hno| |done..|].
    + apply acceptable_true; try done; [change (4 + actualSize m ≤ len f); lia|].
      change (crcDigest m = crc32_ChecksumIEEE (region (torn f c a m))). rewrite Hreg. apply Hs.
    + assert (info m = set_crc_actual (mi_crcDigest (info m)) (mi_actualSize (info m)) (info m)) as Ei
        by (by destruct (info m)).
      rewrite Ha, Hc in Ei. exact Ei.
Qed.

(** ** Arbitrary files *)

Lemma acceptable_cases m a c :
  mf_ok (data m) → len (mf_file (data m)) < 2 ^ 32 → 0 ≤ a →
  acceptable m a c = Ok (bool_decide (a + 4 ≤ len (mf_file (data m))) &&
    (crc32_ChecksumIEEE (sub (mf_file (data m)) 4 (Z.to_nat a)) =? c)).
Proof.
  intros Hok Hl H0. unfold acceptable. rewrite memory_ok by done.
  case_bool_decide as E.
  - do 2 btrue. cbn [andb]. unfold crcValid. by rewrite regionOf_ok by (done || lia).
  - destruct (a <? _); [|done]. cbn [andb]. by bfalse.
Qed.

Lemma decodeRegion_returns a c m :
  mf_ok (data m) → 0 ≤ a → 4 + a ≤ len (mf_file (data m)) → 4 + a < 2 ^ 32 → meta_wf (info m) →
  returns (decodeRegion a c m).1.
Proof.
  intros Hok H0 Hl Hw Hm. unfold decodeRegion, mbind, M_bind, get, lift.
  rewrite regionOf_ok by done.
  destruct (decrypts_total m (sub (mf_file (data m)) 4 (Z.to_nat a)) Hm) as [plain Hd]. unfold decrypts in Hd.
  pose proof (parseDict_spec plain) as Hp.
  destruct (crypt m); [rewrite Hd|subst plain]; by destruct (parseDict _).
Qed.

(** Where salvaging looks for pairs: the recorded size, or the rest of the file
    when that is less. *)
Definition salvageSize (m : MMKV) : Z :=
  let n := len (mf_file (data m)) in
  if n <? mi_actualSize (info m) + 4 then n - 4 else mi_actualSize (info m).

(** The plaintext that is searched: a CFB stream always decrypts. *)
Definition salvagePlain (m : MMKV) : bytes :=
  let region := sub (mf_file (data m)) 4 (Z.to_nat (salvageSize m)) in
  match crypt m with
  | None => region
  | Some a => match Decrypt a region (mi_iv (info m)) with Ok p => p | _ => [] end
  end.

(** The struct after salvaging. *)
Definition salvaged (m : MMKV) : MMKV :=
  set_needFullWriteback true (set_crcDigest (mi_crcDigest (info m))
    (set_actualSize (mi_actualSize (info m))
      (set_dict (match crypt m with
                 | None => mappedDict (dataGen m) (parseDictGreedy (salvagePlain m))
                 | Some _ => heapDict (salvagePlain m) (parseDictGreedy (salvagePlain m))
                 end) m))).

Lemma salvage_ok m :
  mf_ok (data m) → 4 ≤ len (mf_file (data m)) < 2 ^ 32 → meta_wf (info m) →
  salvage m = (Ok tt, salvaged m).
Proof.
  intros Hok Hl Hm. unfold salvage, mbind, M_bind, get, lift. rewrite memory_ok by done.
  pose proof (wf_actual _ Hm) as Ha. unfold is_u32 in Ha.
  assert ((if len (mf_file (data m)) <? mi_actualSize (info m) + 4
    then if 4 <=? len (mf_file (data m)) then u32 (len (mf_file (data m)) - 4) else 0
    else mi_actualSize (info m)) = salvageSize m) as ->.
  { unfold salvageSize. destruct (_ <? _); [|done]. btrue. apply u32_small. unfold is_u32. lia. }
  assert (0 ≤ salvageSize m ∧ 4 + salvageSize m ≤ len (mf_file (data m))) as [Hs0 Hs1].
  { unfold salvageSize. destruct (_ <? _) eqn:E; bsplit; lia. }
  rewrite regionOf_ok by (done || lia). unfold salvaged, salvagePlain.
  destruct (crypt m) as [a|]; [|done].
  destruct (Decrypt_ok a (sub (mf_file (data m)) 4 (Z.to_nat (salvageSize m))) (mi_iv (info m)))
    as (p&Hp&_); [apply Hm|]. by rewrite Hp.
Qed.

(** Loading never panics, whatever the two files hold: it returns a dictionary
    or an error. *)
Lemma loadData_total m :
  mf_ok (data m) → mf_ok (meta m) → 4 ≤ len (mf_file (data m)) < 2 ^ 32 → returns (loadData m).1.
Proof.
  intros Hd Hm Hl. unfold loadData. erewrite bind_ok by reflexivity. rewrite (memory_ok (meta m)) by done.
  pose proof (parseMeta_wf (mf_file (meta m))) as Hwf.
  destruct (parseMeta (mf_file (meta m))) as [mi|e| |] eqn:Hp; [|done|by unfold parseMeta in Hp; destruct (_ <? _)..].
  specialize (Hwf mi eq_refl). do 2 (erewrite bind_ok by reflexivity).
  destruct (_ <? mi_version mi); [done|]. do 2 (erewrite bind_ok by reflexivity).
  set (m1 := set_enableExpire _ _).
  assert (0 ≤ readActualSize m1 < 2 ^ 32) as Hact.
  { unfold readActualSize. destruct (versionActualSize <=? mi_version (info m1)); [exact (wf_actual _ Hwf)|].
    rewrite (memory_ok (data m1)) by done. change (data m1) with (data m). btrue.
    pose proof (le_val_range (sub (mf_file (data m)) 0 4)) as Hr. rewrite length_sub in Hr by lia. exact Hr. }
  pose proof (wf_lastActual _ Hwf) as Hla. unfold is_u32 in Hla.
  assert (∀ a c m2, data m2 = data m → meta_wf (info m2) → 0 ≤ a →
    bool_decide (a + 4 ≤ len (mf_file (data m))) = true → returns (decodeRegion a c m2).1) as Hdec.
  { intros a c m2 E2 W2 Ha1 Ha2%bool_decide_eq_true. apply decodeRegion_returns; rewrite ?E2; done || lia. }
  assert (∀ a c, 0 ≤ a → acceptable m1 a c = Ok (bool_decide (a + 4 ≤ len (mf_file (data m))) &&
    (crc32_ChecksumIEEE (sub (mf_file (data m)) 4 (Z.to_nat a)) =? c))) as Hacc.
  { intros a c Ha. apply (acceptable_cases m1); [done|exact (proj2 Hl)|done]. }
  erewrite bind_ok by (unfold lift; rewrite Hacc by lia; reflexivity).
  destruct (bool_decide _ && _) eqn:E1.
  { bsplit. apply Hdec; done || lia. }
  cbv zeta. erewrite bind_ok by (unfold lift; rewrite Hacc by lia; reflexivity).
  match goal with |- context [if ?c then _ else _] => destruct c eqn:E2 end.
  { bsplit. cbv beta iota. erewrite bind_ok by reflexivity. apply Hdec; try done; [|lia].
    destruct Hwf. by split. }
  cbv beta iota. destruct (recover m1); [by rewrite (salvage_ok m1)|done].
Qed.

(** ** Salvaging *)

(** The pairs the tolerant parser found. *)
Definition salvagedMap (m : MMKV) : bdict :=
  show (salvagePlain m) (parseDictGreedy (salvagePlain m)).

Lemma greedy_ok plain : vdict_ok plain (parseDictGreedy plain).
Proof.
  destruct (parseDictGreedy_prefix plain) as (q&Hq&Hp). apply parseDict_ok in Hp.
  rewrite <-(take_drop q plain) at 1. by apply vdict_ok_app.
Qed.

Lemma salvageSize_bounds m :
  4 ≤ len (mf_file (data m)) → meta_wf (info m) →
  0 ≤ salvageSize m ∧ 4 + salvageSize m ≤ len (mf_file (data m)).
Proof.
  intros Hl Hm. pose proof (wf_actual _ Hm) as Ha. unfold is_u32 in Ha.
  unfold salvageSize. destruct (_ <? _) eqn:E; bsplit; lia.
Qed.

(** What was salvaged can be packed again. *)
Lemma salvaged_packable m :
  files_ok m → 4 + len (packed (salvagedMap m)) < 2 ^ 32 →
  enableExpire m = expireEnabled (info m) → needLoad m = false →
  packable (salvaged m) (salvagedMap m) 0.
Proof.
  intros Hf Hpk Hx Hn.
  destruct (salvageSize_bounds m (fo_data_len _ Hf) (fo_info _ Hf)) as [Hs0 Hs1].
  pose proof (greedy_ok (salvagePlain m)) as Hvd.
  split; try done; [by destruct Hf| |lia].
  split; [|by apply show_ok]. unfold salvagedMap.
  change (data (salvaged m)) with (data m). unfold salvaged.
  cbn [dict set_needFullWriteback set_crcDigest set_actualSize set_dict].
  unfold salvagePlain in *. destruct (crypt m) as [a|]; [apply heapDict_shows|].
  apply mappedDict_shows; [apply Hf|lia|done].
Qed.

Lemma set_info_files m mi x : files_ok m → meta_wf mi → files_ok (set_enableExpire x (set_info mi m)).
Proof. intros [] Hm. by split. Qed.

Lemma loadData_salvages m mi :
  mf_ok (data m) → mf_ok (meta m) → parseMeta (mf_file (meta m)) = Ok mi →
  mi_version mi ≤ maxSupportedVersion → recover m = true →
  4 ≤ len (mf_file (data m)) < 2 ^ 32 →
  (∀ m', data m' = data m →
    acceptable m' (readActualSize (set_info mi m')) (mi_crcDigest mi) = Ok false
    ∧ acceptable m' (mi_lastActualSize mi) (mi_lastCRCDigest mi) = Ok false) →
  loadData m = (Ok tt, salvaged
    (set_enableExpire ((versionFlag <=? mi_version mi) && expireEnabled mi) (set_info mi m))).
Proof.
  intros Hd Hm Hp Hv Hr Hl Hno. unfold loadData. erewrite bind_ok by reflexivity.
  rewrite (memory_ok (meta m)), Hp by done.
  do 2 (erewrite bind_ok by reflexivity). bfalse. do 2 (erewrite bind_ok by reflexivity).
  set (m1 := set_enableExpire _ _). destruct (Hno m1 eq_refl) as [H1 H2].
  change (readActualSize (set_info mi m1)) with (readActualSize m1) in H1.
  erewrite bind_ok by (unfold lift; rewrite H1; reflexivity). cbv beta iota zeta.
  erewrite bind_ok by (unfold lift; rewrite H2; reflexivity). cbv beta iota.
  change (recover m1) with (recover m). rewrite Hr. apply salvage_ok; [done|done|].
  exact (parseMeta_wf _ _ Hp).
Qed.

(** ** Another process *)

(** A mapping of the file that may be shorter or longer than the file is. *)
Definition mapped_once (mf : memoryFile) : Prop := ∃ g, mf_data mf = Some (mkMapping g (mf_size mf)).

Lemma remap_fresh mf e :
  mapped_once mf → healthy e → 0 < len (mf_file mf) →
  ∃ mf', remap (mf, e) = (Ok tt, (mf', e)) ∧ mf_ok mf' ∧ mf_file mf' = mf_file mf
    ∧ mf_readOnly mf' = mf_readOnly mf.
Proof.
  intros [g Hd] He Hpos. unfold remap, mfSys, zoom, mbind, M_bind, get, mfSet, modify. cbn [fst snd].
  rewrite syscall_healthy by done. cbn [fst snd]. rewrite Hd.
  destruct (len (mf_file mf) =? mf_size mf) eqn:E; cbn [andb]; bsplit.
  - exists mf. split; [done|]. split; [|done]. split; [eauto|done].
  - rewrite syscall_healthy by done. cbn [fst snd]. bfalse. rewrite syscall_healthy by done. cbn [fst snd].
    eexists. split; [done|]. split; [|done]. split; cbn; eauto.
Qed.

(** This instance has the files of the store [m2], mapped at a size of its own. *)
Record other_files (s : St) (m2 : MMKV) : Prop := {
  of_env : healthy (env s);
  of_crypt : crypt (st s) = crypt m2;
  of_data : mf_file (data (st s)) = mf_file (data m2);
  of_meta : mf_file (meta (st s)) = mf_file (meta m2);
  of_data_rw : mf_readOnly (data (st s)) = false;
  of_meta_rw : mf_readOnly (meta (st s)) = false;
  of_meta_ok : mf_ok (meta (st s));
  of_mapped : mapped_once (data (st s));
}.

(** Another process wrote them; the mapping of the data file is that of an
    earlier size when the sequence tells so. *)
Record foreign (s : St) (m2 : MMKV) (live : metaInfo) : Prop := {
  fg_files : other_files s m2;
  fg_multi : multiProcess (st s) = true;
  fg_loaded : needLoad (st s) = false;
  fg_live : parseMeta (mf_file (meta m2)) = Ok live;
  fg_changed :
    mi_sequence live ≠ mi_sequence (info (st s)) ∨
    (mf_ok (data (st s)) ∧
     (mi_crcDigest live ≠ crcDigest (st s) ∨ mi_actualSize live ≠ actualSize (st s)));
}.

(** What a reload makes of the files of [m2]. *)
Record reloaded (m m' m2 : MMKV) (b : bdict) : Prop := {
  rl_store : store_ok m' b;
  rl_settled : settled m2 → settled m';
  rl_info : info m' = info m2;
  rl_actual : actualSize m' = actualSize m2;
  rl_expire : enableExpire m' = enableExpire m2;
  rl_data : mf_file (data m') = mf_file (data m2);
  rl_meta : meta m' = meta m;
  rl_config : same_config (set_enableExpire (enableExpire m2) (set_info (info m2) m)) m';
}.

Lemma reloaded_frame m m' m2 b : reloaded m m' m2 b → same_frame m m'.
Proof. intros Hr. destruct (rl_config _ _ _ _ Hr). by split. Qed.

(** A reload, after a remap unless the mapping is that of the whole file. *)
Lemma reload_other m e m2 b r :
  other_files (mkSt m e) m2 → store_ok m2 b → needLoad m = false → (r = true ∨ mf_ok (data m)) →
  ∃ m', reloadBestEffort r (mkSt m e) = (Ok tt, mkSt m' e) ∧ reloaded m m' m2 b.
Proof.
  intros Hof Hs Hn Hr. destruct Hof. cbn [st env] in *.
  assert (∃ d, (if r then onData remap else mret tt) (mkSt m e) = (Ok tt, mkSt (set_data d m) e)
    ∧ mf_ok d ∧ mf_file d = mf_file (data m) ∧ mf_readOnly d = mf_readOnly (data m)) as (d&Hd&Hdok&Hdf&Hdr).
  { destruct r; [|exists (data m); destruct Hr as [|Hr]; by split_and!].
    assert (0 < len (mf_file (data m))) as Hpos
      by (rewrite of_data0; pose proof (so_actual _ _ Hs); pose proof (so_fits _ _ Hs); lia).
    destruct (remap_fresh (data m) e of_mapped0 of_env0 Hpos) as (d&Hd&?&?&?). exists d.
    split; [|done]. unfold onData, zoom. cbn [st env]. by rewrite Hd. }
  destruct (loads_store m2 b (set_data d m) Hs) as (m'&Hl&Hs'&Hx&Ha&Hi&Hset&Hd'&Hm'&_&Hcfg);
    try (cbn [data meta crypt needLoad set_data]; congruence).
  exists m'. split.
  - unfold reloadBestEffort, recordErr. erewrite bind_ok by exact Hd. by erewrite onStore_ok by exact Hl.
  - split; try done; [by rewrite Hd'; cbn [data set_data]; congruence|destruct Hcfg; by split].
Qed.

(** The environment after a reload: the handler was called. *)
Definition notified (s : St) : sys :=
  if onContentChanged (st s) then set_changes (S (changes (env s))) (env s) else env s.

(** The check reloads what the other process wrote, and calls the handler once. *)
Lemma checkLoadData_foreign s m2 live b :
  foreign s m2 live → store_ok m2 b →
  ∃ m', checkLoadData s = (Ok tt, mkSt m' (notified s)) ∧ reloaded (st s) m' m2 b.
Proof.
  intros Hg Hs. destruct s as [m e]. destruct Hg. cbn [st env] in *.
  assert (∀ r, (r = true ∨ mf_ok (data m)) →
    ∃ m', (_ ← reloadBestEffort r; notifyChanged) (mkSt m e) = (Ok tt, mkSt m' (notified (mkSt m e)))
    ∧ reloaded m m' m2 b) as Hfull.
  { intros r Hr. destruct (reload_other m e m2 b r fg_files0 Hs fg_loaded0 Hr) as (m'&Hrl&Hre).
    exists m'. split; [|done]. erewrite bind_ok by exact Hrl.
    unfold notifyChanged, notified. erewrite bind_ok by reflexivity. cbn [st env].
    assert (onContentChanged m' = onContentChanged m) as -> by apply (sc_handler _ _ (rl_config _ _ _ _ Hre)).
    by destruct (onContentChanged m). }
  unfold checkLoadData. erewrite bind_ok by reflexivity. cbn [st]. rewrite fg_loaded0, fg_multi0. cbn [negb].
  rewrite memory_ok by exact (of_meta_ok _ _ fg_files0).
  pose proof (of_meta _ _ fg_files0) as Em. cbn [st] in Em. rewrite Em, fg_live0.
  destruct (mi_sequence live =? mi_sequence (info m)) eqn:Eseq; bsplit; cbn [negb]; [|apply Hfull; auto].
  destruct fg_changed0 as [|[Hok Hne]]; [done|].
  assert (negb (mi_crcDigest live =? crcDigest m) || negb (mi_actualSize live =? actualSize m) = true) as ->.
  { apply orb_true_iff. rewrite !negb_true_iff, !Z.eqb_neq. done. }
  apply Hfull. auto.
Qed.

(** An instance told to load does, once, whatever it held before. *)
Lemma checkLoadData_told s m2 b :
  other_files s m2 → needLoad (st s) = true → store_ok m2 b →
  ∃ m', checkLoadData s = (Ok tt, mkSt m' (env s)) ∧ reloaded (set_needLoad false (st s)) m' m2 b.
Proof.
  intros Hof Hn Hs. destruct s as [m e]. cbn [st env] in *. unfold checkLoadData.
  erewrite bind_ok by reflexivity. cbn [st]. rewrite Hn. erewrite bind_ok by reflexivity. cbn [set_st st env].
  apply reload_other; try done; [|by left]. by destruct Hof.
Qed.

(** ** Opening a corrupt store with recovery on *)

(** The repair runs under the lock. *)
Lemma repair_ok m e s' :
  needFullWriteback m = true → lock_ok (fl m, e) → healthy e →
  let s0 := underLock exclusiveLock (mkSt m e) in
  fullWriteback s0 = (Ok tt, s') → same_frame (st s0) (st s') → quiet (env s0) (env s') →
  repair (mkSt m e) = (Ok tt, mkSt (set_fl (fl m) (st s')) (set_held (held e) (env s'))).
Proof.
  intros Hn Hl He s0 Hfw Hfr Hq.
  pose proof (bracket_ok exclusiveLock fullWriteback (mkSt m e) (Ok tt) s' Hl He I Hfw Hfr Hq) as Hb.
  unfold repair. erewrite bind_ok by reflexivity. cbn [st env] in *. rewrite Hn, <-Hb. clear Hb.
  unfold s0, underLock in *. cbn [st env] in *. unfold whenMulti, mbind, M_bind, this, get. cbn [st].
  destruct (multiProcess m) eqn:Hm; cbn [st env fst snd] in *.
  - unfold ignore, onLock, zoom. cbn [st env]. rewrite lock_healthy by done. cbn [fst snd].
    unfold deferring. rewrite Hfw. pose proof (sf_multi _ _ Hfr) as Em. cbn in Em. by rewrite Em, Hm.
  - unfold mret, M_ret, deferring. rewrite Hfw. pose proof (sf_multi _ _ Hfr) as Em. cbn in Em. by rewrite Em, Hm.
Qed.

(** Opening files whose sizes and digests describe nothing, with
    WithRecoverOnError: the store is rebuilt from the pairs that can be read. *)
Lemma open_recovers m0 e dfile mfile mi :
  brand_new m0 → recover m0 = true → healthy e → held e = Unheld →
  pageRoundUp 0 ≤ len dfile < 2 ^ 32 → pageRoundUp (Z.of_nat metaSize) ≤ len mfile →
  parseMeta mfile = Ok mi → versionFlag ≤ mi_version mi ≤ maxSupportedVersion →
  (∀ m, mf_ok (data m) → mf_file (data m) = dfile →
    acceptable m (mi_actualSize mi) (mi_crcDigest mi) = Ok false
    ∧ acceptable m (mi_lastActualSize mi) (mi_lastCRCDigest mi) = Ok false) →
  ∃ m1, mf_file (data m1) = dfile ∧ info m1 = mi ∧ crypt m1 = crypt m0 ∧
  (4 + len (packed (salvagedMap m1)) < 2 ^ 32 →
   ∃ s', open (Some dfile) (Some mfile) (mkSt m0 e) = (Ok tt, s')
    ∧ running s' (salvagedMap m1) ∧ settled (st s') ∧ crypt (st s') = crypt m0).
Proof.
  intros [Hr Hc Hn Hw] Hrec He Hh [Hdl Hdw] Hml Hp [Hv4 Hv] Hno.
  pose proof (pageRoundUp_min 0). pose proof pagesize_ge. pose proof (pageRoundUp_ge (Z.of_nat metaSize)).
  destruct (openFiles_loads m0 e (Some dfile) (Some mfile) Hr He) as (d&mt&Hdok&Hmok&Hdr&Hmr&Hdf&Hmf&Hopen).
  cbn [default id] in *. rewrite !padded_id in * by done.
  set (mo := set_fl newFileLock (set_meta mt (set_data d m0))).
  set (m1 := set_enableExpire ((versionFlag <=? mi_version mi) && expireEnabled mi) (set_info mi mo)).
  exists m1. split; [done|]. split; [done|]. split; [done|]. intros Hpk.
  assert (loadData mo = (Ok tt, salvaged m1)) as Hload.
  { apply loadData_salvages; try done; [by cbn; rewrite Hmf| |].
    { change (4 ≤ len (mf_file d) < 2 ^ 32). rewrite Hdf. lia. }
    intros m' Ed. assert (mf_ok (data m')) as Hok by (by rewrite Ed).
    assert (readActualSize (set_info mi m') = mi_actualSize mi) as ->.
    { unfold readActualSize. cbn [info set_info]. rewrite (proj2 (Z.leb_le _ _)); [done|].
      unfold versionActualSize, versionFlag in *. lia. }
    apply Hno; [done|by rewrite Ed]. }
  assert (files_ok m1) as Hf.
  { split; try done; [change (pageRoundUp 0 ≤ len (mf_file d)); by rewrite Hdf
      |change (pageRoundUp (Z.of_nat metaSize) ≤ len (mf_file mt)); by rewrite Hmf|exact (parseMeta_wf _ _ Hp)]. }
  set (s0 := underLock exclusiveLock (mkSt (salvaged m1) e)).
  assert (∃ l, st s0 = set_fl l (salvaged m1) ∧ healthy (env s0)) as (l&El&He0).
  { unfold s0, underLock. cbn [st env]. destruct (multiProcess _); [by eexists|by exists newFileLock]. }
  destruct (fullWriteback_ok s0 (salvagedMap m1)) as (s'&Hfw&Hps&Hq); [|done|].
  { rewrite El. apply (salvaged_packable (set_fl l m1)); try done; [by destruct Hf|].
    cbn. by rewrite (proj2 (Z.leb_le _ _) Hv4). }
  pose proof (ps_config _ _ _ _ Hps) as Hcfg.
  eexists. split; [|split; [|split]].
  - unfold open. erewrite Hopen; [reflexivity|exact Hload|].
    apply (repair_ok _ _ s'); [done|by split_and!|done|exact Hfw|by apply config_frame|done].
  - rewrite El in Hcfg. split; cbn [st env].
    + by apply store_ok_set_fl, Hps.
    + destruct Hq as (Hq1&_). unfold healthy in *. cbn. congruence.
    + by split_and!.
    + cbn. by rewrite (sc_closed _ _ Hcfg).
    + cbn. by rewrite (sc_ro _ _ Hcfg).
  - destruct (packed_settled _ _ _ _ Hps). by split.
  - rewrite El in Hcfg. exact (sc_crypt _ _ Hcfg).
Qed.

(** ** Refusals *)

(** A write under the lock that refuses leaves everything as it was. *)
Lemma writingElse_refuses {A} (x y c : M St A) s o :
  lock_ok (fl (st s), env s) → healthy (env s) → returns o →
  (closed (st s) = true ∧ ∀ s0, x s0 = (o, s0))
  ∨ (closed (st s) = false ∧ readOnly (st s) = true ∧ ∀ s0, y s0 = (o, s0)) →
  writingElse x y c s = (o, s).
Proof.
  intros Hl He Ho Hc. destruct s as [m ev]. cbn [st env] in *.
  set (s0 := underLock exclusiveLock (mkSt m ev)).
  assert ((m ← this; if closed m then x else if readOnly m then y
           else _ ← checkLoadData; c) s0 = (o, s0)) as Hbody.
  { erewrite bind_ok by reflexivity. unfold s0, underLock. cbn [st env].
    destruct Hc as [[Hc Hx]|(Hc&Hr&Hx)]; destruct (multiProcess m); cbn [st closed readOnly set_fl]; rewrite Hc;
      try rewrite Hr; apply Hx. }
  unfold writingElse, exclusively, lockExclusive, unlockExclusive.
  rewrite (bracket_ok exclusiveLock _ (mkSt m ev) o s0 Hl He Ho Hbody); [|by split|by apply quiet_refl].
  unfold s0, underLock. cbn [st env]. by destruct (multiProcess m).
Qed.

Lemma writing_refuses {A} (c : M St A) s e :
  lock_ok (fl (st s), env s) → healthy (env s) →
  (closed (st s) = true ∧ e = ErrClosed) ∨ (closed (st s) = false ∧ readOnly (st s) = true ∧ e = ErrReadOnly) →
  writing c s = (Err e, s).
Proof. intros Hl He Hc. apply writingElse_refuses; [done..|]. destruct Hc as [[? ->]|(?&?&->)]; eauto. Qed.

(** ** Comparing before setting *)

(** A set of the value that is there does nothing at all. *)
Lemma setValue_same s b k blob :
  running s b → multiProcess (st s) = false → compareBeforeSet (st s) = true →
  enableExpire (st s) = false → b !! k = Some blob → setValue k blob s = (Ok tt, s).
Proof.
  intros [Hs He Hl Hc Hr] Hm Hcmp Hx Hk.
  assert (underLock exclusiveLock s = s) as Eu by (unfold underLock; by rewrite Hm).
  unfold setValue, writing, writingElse, exclusively, lockExclusive, unlockExclusive.
  rewrite (bracket_ok exclusiveLock _ s (Ok tt) s); rewrite ?Eu; try done.
  erewrite bind_ok by reflexivity. rewrite Hc, Hr.
  erewrite bind_ok.
  2: { unfold checkLoadData. erewrite bind_ok by reflexivity. rewrite (so_loaded _ _ Hs), Hm. reflexivity. }
  unfold setValueLocked. erewrite bind_ok by reflexivity. rewrite Hcmp, Hx. cbn [andb negb].
  pose proof (dict_value (st s) b k (di_shows _ _ (so_dict _ _ Hs))) as Hv.
  destruct (dict (st s) !! k) as [old|]; [|congruence].
  destruct Hv as (w&Hw&Hd). rewrite Hd. cbn [mbind outcome_bind].
  rewrite bool_decide_eq_true_2 by congruence. done.
Qed.

End recovery.
