(* ===== verification/Api.v ===== *)
(** * The typed methods (mmkv.go, mmkv_io.go)

    The setters encode a value and call [setValue]; the getters run under the
    shared lock, look the value up and decodeValue it.  A getter's pair of results
    [(v, ok)] is an option.  Floats are their IEEE 754 bits. *)

From S2P Require Import Prelude GoInt Wire Crc32 Meta Dict Crypt MemFile Flock Store StoreOps.

Section api.
Context `{Platform}.

(** ** Setters *)

Definition SetBool (key : gostring) (v : bool) : M St unit := setValue key (boolBlob v).
Definition SetInt32 (key : gostring) (v : Z) : M St unit := setValue key (int32Blob v).
Definition SetInt64 (key : gostring) (v : Z) : M St unit := setValue key (int64Blob v).
Definition SetUInt32 (key : gostring) (v : Z) : M St unit := setValue key (uint32Blob v).
Definition SetUInt64 (key : gostring) (v : Z) : M St unit := setValue key (uint64Blob v).
Definition SetFloat32 (key : gostring) (v : Z) : M St unit := setValue key (float32Blob v).
Definition SetFloat64 (key : gostring) (v : Z) : M St unit := setValue key (float64Blob v).
Definition SetString (key v : gostring) : M St unit := setValue key (stringBlob v).
Definition SetBytes (key : gostring) (v : bytes) : M St unit := setValue key (bytesBlob v).
Definition SetStringSlice (key : gostring) (v : list gostring) : M St unit :=
  setValue key (stringSliceBlob v).

(** ** Getters *)

(** The frame of the reading methods: the shared lock, the answer of a closed
    store, the check for foreign changes. *)
Definition reading {A} (zero : A) (f : MMKV → Z → outcome A) : M St A :=
  sharedly (
    m ← this;
    if closed m then mret zero
    else
      _ ← checkLoadData;
      s ← get;
      lift (f (st s) (now (env s)))).

(** [x, err := dec(v); return x, err == nil]. *)
Definition decodeValue {A} (dec : M codedInput A) (b : bytes) : outcome (option A) :=
  match (dec (newCodedInput b)).1 with
  | Ok x => Ok (Some x)
  | Err _ => Ok None
  | Panic => Panic
  | NoFuel => NoFuel
  end.

Definition valueAs {A} (dec : M codedInput A) (key : gostring) (m : MMKV) (nowUnix : Z)
    : outcome (option A) :=
  v ← value m nowUnix key;
  match v with
  | None => Ok None
  | Some s => b ← deref (data m) s; decodeValue dec b
  end.

(** The value without its inner length, a view of the stored value. *)
Definition bytesValue (key : gostring) (m : MMKV) (nowUnix : Z) : outcome (option gslice) :=
  v ← value m nowUnix key;
  match v with
  | None => Ok None
  | Some s =>
      b ← deref (data m) s;
      w ← decodeValue readBytes b;
      Ok (match w with None => None | Some w => Some (subslice s w.1 (w.1 + w.2)) end)
  end.

(** The bytes of that view, copied. *)
Definition bytesCopy (key : gostring) (m : MMKV) (nowUnix : Z) : outcome (option bytes) :=
  v ← bytesValue key m nowUnix;
  match v with
  | None => Ok None
  | Some s => b ← deref (data m) s; Ok (Some b)
  end.

Definition GetBool (key : gostring) : M St (option bool) := reading None (valueAs readBool key).
Definition GetInt32 (key : gostring) : M St (option Z) := reading None (valueAs readInt32 key).
Definition GetInt64 (key : gostring) : M St (option Z) :=
  reading None (valueAs (v ← readVarint64; mret (i64 v)) key).
Definition GetUInt32 (key : gostring) : M St (option Z) := reading None (valueAs readUInt32 key).
Definition GetUInt64 (key : gostring) : M St (option Z) := reading None (valueAs readVarint64 key).
Definition GetFloat32 (key : gostring) : M St (option Z) := reading None (valueAs readFixed32 key).
Definition GetFloat64 (key : gostring) : M St (option Z) := reading None (valueAs readFixed64 key).
Definition GetBytes (key : gostring) : M St (option gslice) := reading None (bytesValue key).
Definition GetBytesCopy (key : gostring) : M St (option bytes) := reading None (bytesCopy key).
(* an unsafe string over the view; the view is what is returned *)
Definition GetString (key : gostring) : M St (option gslice) := reading None (bytesValue key).
Definition GetStringCopy (key : gostring) : M St (option gostring) := reading None (bytesCopy key).
Definition GetStringSlice (key : gostring) : M St (option (list gostring)) :=
  reading None (fun m nowUnix =>
    v ← bytesCopy key m nowUnix;
    Ok (match v with None => None | Some items => Some (decodeStringSlice items) end)).

Definition GetValueSize (key : gostring) : M St Z :=
  reading (-1) (fun m nowUnix =>
    v ← value m nowUnix key;
    Ok (match v with None => -1 | Some s => slice_len s end)).

(** The count and what [buf] then holds. *)
Definition WriteValueToBuffer (key : gostring) (buf : bytes) : M St (Z * bytes) :=
  reading (-1, buf) (fun m nowUnix =>
    v ← value m nowUnix key;
    match v with
    | None => Ok (-1, buf)
    | Some s =>
        if len buf <? slice_len s then Ok (-1, buf)
        else
          b ← deref (data m) s;
          Ok (len b, splice buf 0 b)
    end).

Definition isLive (m : MMKV) (nowUnix : Z) (key : gostring) : outcome bool :=
  v ← value m nowUnix key;
  Ok (match v with Some _ => true | None => false end).

Definition Contains (key : gostring) : M St bool :=
  reading false (fun m nowUnix => isLive m nowUnix key).

(** The live keys among [keys]. *)
Fixpoint liveKeys (m : MMKV) (nowUnix : Z) (keys : list gostring) : outcome (list gostring) :=
  match keys with
  | [] => Ok []
  | k :: keys =>
      ok ← isLive m nowUnix k;
      rest ← liveKeys m nowUnix keys;
      Ok (if ok : bool then k :: rest else rest)
  end.

Definition Count : M St Z :=
  reading 0 (fun m nowUnix =>
    if negb (enableExpire m) then Ok (Z.of_nat (size (dict m)))
    else l ← liveKeys m nowUnix (map_to_list (dict m)).*1; Ok (len l)).

Definition AllKeys : M St (list gostring) :=
  reading [] (fun m nowUnix =>
    l ← liveKeys m nowUnix (map_to_list (dict m)).*1;
    Ok (merge_sort bytes_le l)).

Definition TotalSize : M St Z :=
  sharedly (m ← this; if closed m then mret 0 else mret (fileSize (data m))).
Definition ActualSize : M St Z := reading 0 (fun m _ => Ok (actualSize m)).

(** [Err()]; the constructor of outcomes has the name. *)
Definition LastErr : M St (option error) := m ← this; mret (lastErr m).

(** [MmapID()] and [RootDir()]. *)
Definition MmapID (m : MMKV) : gostring := mmapID m.
Definition MMKV_RootDir (m : MMKV) : gostring := rootDir m.

(** ** Explicit locking (mmkv_lock.go) *)

Definition Lock : M St unit := whenMulti (lock exclusiveLock).
Definition Unlock : M St unit := whenMulti (unlock exclusiveLock).

(** [ok, _ := tryLock()]: an error reads as not acquired. *)
Definition TryLock : M St bool :=
  m ← this;
  if negb (multiProcess m) then mret true
  else fun s =>
    match onLock (tryLock exclusiveLock) s with
    | (Err _, s') => (Ok false, s')
    | r => r
    end.

End api.
