(* ===== verification/Reader.v ===== *)
(** * The reader (reader.go, lock_unix.go)

    A Reader keeps an immutable snapshot and a read-only mapping of the meta
    file; each read compares three words of the mapping with those of the
    snapshot and builds a new snapshot when they differ.  [Disk] is what the
    reader sees of the instance: the two files at its paths, the meta file it has
    mapped when that is no longer the one at the path, and the environment. *)

From S2P Require Import Prelude GoInt Wire Crc32 Meta Dict Crypt Path LockCalls MemFile Files Flock Store StoreOps Api.

Record snapshot := mkSnap {
  sn_meta : metaInfo;
  sn_backing : bytes;
  sn_m : bdict;          (* key -> the bytes its slice shows; the buffers never change *)
  sn_expire : bool;
}.

Record Reader := mkReader {
  rd_dec : option Decryptor;
  rd_snap : option snapshot;
  rd_crcMmap : option Z;         (* the length of the mapping; None is nil *)
  rd_crcFile : bool;             (* crcFile != nil *)
  rd_loadedCRC : Z;
  rd_loadedActual : Z;
  rd_loadedSeq : Z;
  rd_lastErr : option error;
}.

(** The options a caller gives; the last decryptor counts. *)
Inductive ReaderOption :=
  | WithDecryptor (d : Decryptor)
  | WithEncryption (key : bytes).

Definition set_dec (d : Decryptor) (r : Reader) : Reader :=
  mkReader (Some d) (rd_snap r) (rd_crcMmap r) (rd_crcFile r) (rd_loadedCRC r) (rd_loadedActual r)
    (rd_loadedSeq r) (rd_lastErr r).
Definition applyReaderOption (r : Reader) (o : ReaderOption) : Reader :=
  match o with
  | WithDecryptor d => set_dec d r
  | WithEncryption key => set_dec (Decrypt (newAESCFB key)) r
  end.
Definition newReader (opts : list ReaderOption) : Reader :=
  foldl applyReaderOption (mkReader None None None false 0 0 0 None) opts.

Record Disk := mkDisk {
  dk_data : option bytes;        (* the data file *)
  dk_meta : option bytes;        (* the ".crc" file *)
  dk_gone : option bytes;        (* the mapped ".crc" file, once it was removed or replaced *)
  dk_env : sys;
}.

Record RSt := mkRSt { rdr : Reader; disk : Disk }.

Definition set_rdr (r : Reader) (s : RSt) : RSt := mkRSt r (disk s).
Definition set_dk_env (e : sys) (s : RSt) : RSt :=
  mkRSt (rdr s) (mkDisk (dk_data (disk s)) (dk_meta (disk s)) (dk_gone (disk s)) e).
Definition rdSys {A} (c : M sys A) : M RSt A := zoom (fun s => dk_env (disk s)) set_dk_env c.

(** The file that is mapped: an open file outlives its name. *)
Definition mappedFile (s : RSt) : bytes :=
  match dk_gone (disk s) with Some f => f | None => default [] (dk_meta (disk s)) end.

(** The bytes of the mapping of the meta file.  Of a file that was cut the last page
    shows zeros behind the end, and the pages after it fault: the struct is in the
    first page, which is gone when the file is empty. *)
Definition crcBytes (s : RSt) : outcome bytes :=
  match rd_crcMmap (rdr s) with
  | None => Ok []
  | Some n =>
      if decide (mappedFile s = []) then Panic
      else Ok (take (Z.to_nat n) (mappedFile s ++ zeros (Z.to_nat n)))
  end.

(** syscall.Flock on the reader's descriptor of the meta file. *)
Definition flock (op : flockOp) : M sys unit := fun e =>
  let '(o, (_, e')) := Flock op false (newFileLock, e) in (o, e').
Definition flockShared : M RSt unit := rdSys (flock LOCK_SH).
Definition flockExclusive : M RSt unit := rdSys (flock LOCK_EX).
Definition flockUnlock : M RSt unit := ignore (rdSys (flock LOCK_UN)).

Definition mmapReadonly (size : Z) : M RSt unit :=
  if size <? Z.of_nat metaSize then fail ErrCRCTooSmall else rdSys syscall.
Definition munmap (n : Z) : M RSt unit :=
  if n =? 0 then mret tt else rdSys syscall.

#[global] Instance unixReaderLocks : FileLocks RSt :=
  {| takeShared := flockShared; takeExclusive := flockExclusive; giveBack := flockUnlock |}.
#[global] Instance unixReaderMaps : FileMaps RSt := {| mapReadonly := mmapReadonly; unmap := munmap |}.

(** ** Building a snapshot *)

(** [os.ReadFile(r.dataPath())]. *)
Definition readDataFile : M RSt bytes :=
  _ ← rdSys syscall;
  s ← get;
  match dk_data (disk s) with None => fail ErrNotExist | Some d => mret d end.

(** The part of buildSnapshot after the data file was read. *)
Definition snapshotOf (dec : option Decryptor) (meta : metaInfo) (data : bytes) : outcome snapshot :=
  let actual :=
    if versionActualSize <=? mi_version meta then mi_actualSize meta
    else if 4 <=? len data then le_val (sub data 0 4) else 0 in
  if len data <? actual + 4 then Err ErrActualSize
  else
    region ← slice data 4 (u32 (4 + actual));
    if negb (crc32_ChecksumIEEE region =? mi_crcDigest meta) then Err ErrCRCMismatch
    else
      plain ← (match dec with None => Ok region | Some d => d region (mi_iv meta) end);
      vd ← parseDict plain;
      Ok (mkSnap meta data (show plain vd)
            ((versionFlag <=? mi_version meta) && expireEnabled meta)).

Definition buildSnapshot (metaBuf : bytes) : M RSt snapshot :=
  meta ← lift (parseMeta metaBuf);
  if maxSupportedVersion <? mi_version meta then fail ErrUnsupportedVersion
  else
    data ← readDataFile;
    s ← get;
    lift (snapshotOf (rd_dec (rdr s)) meta data).

Definition publish (snap : snapshot) (r : Reader) : Reader :=
  mkReader (rd_dec r) (Some snap) (rd_crcMmap r) (rd_crcFile r) (mi_crcDigest (sn_meta snap))
    (mi_actualSize (sn_meta snap)) (mi_sequence (sn_meta snap)) (rd_lastErr r).

Definition reloadFrom (metaBuf : bytes) : M RSt unit :=
  snap ← buildSnapshot metaBuf;
  modify (fun s => set_rdr (publish snap (rdr s)) s).

Section platform.
Context {PL : FileLocks RSt} {PM : FileMaps RSt}.

Definition reloadLocked : M RSt unit :=
  _ ← takeShared;
  deferring giveBack (s ← get; buf ← lift (crcBytes s); reloadFrom buf).

(** ** Opening and closing *)

Definition set_crc (n : option Z) (f : bool) (r : Reader) : Reader :=
  mkReader (rd_dec r) (rd_snap r) n f (rd_loadedCRC r) (rd_loadedActual r) (rd_loadedSeq r) (rd_lastErr r).

(** [if err != nil { f.Close(); return err }]. *)
Definition orClose (c : M RSt unit) : M RSt unit := fun s =>
  match c s with
  | (Err e, s') => (_ ← ignore (rdSys syscall); fail e) s'
  | r => r
  end.

(** The file at the path is mapped. *)
Definition set_mapped (n : Z) (s : RSt) : RSt :=
  mkRSt (set_crc (Some n) true (rdr s)) (mkDisk (dk_data (disk s)) (dk_meta (disk s)) None (dk_env (disk s))).

Definition openLive : M RSt unit :=
  _ ← rdSys syscall;                                            (* open *)
  s ← get;
  match dk_meta (disk s) with
  | None => fail ErrNotExist
  | Some meta =>
      _ ← orClose (_ ← rdSys syscall; mapReadonly (len meta));  (* fstat, mmap *)
      _ ← modify (set_mapped (len meta));
      reloadLocked
  end.

(** [err := r.crcFile.Close(); r.crcFile = nil; return err]. *)
Definition closeCrcFile : M RSt unit := fun s =>
  let '(o, s') := rdSys syscall s in
  (o, set_rdr (set_crc (rd_crcMmap (rdr s')) false (rdr s')) s').

Definition Reader_Close : M RSt unit :=
  _ ← modify (fun s => set_rdr (mkReader (rd_dec (rdr s)) None (rd_crcMmap (rdr s)) (rd_crcFile (rdr s))
        (rd_loadedCRC (rdr s)) (rd_loadedActual (rdr s)) (rd_loadedSeq (rdr s)) (rd_lastErr (rdr s))) s);
  s ← get;
  _ ← (match rd_crcMmap (rdr s) with
       | None => mret tt
       | Some n =>
           _ ← ignore (unmap n);
           modify (fun s => set_rdr (set_crc None (rd_crcFile (rdr s)) (rdr s)) s)
       end);
  if rd_crcFile (rdr s) then closeCrcFile else mret tt.

End platform.

(** ** Freshness *)

(** The three words of the change canary; indexing a nil mapping panics. *)
Definition metaTuple (s : RSt) : outcome (Z * Z * Z) :=
  buf ← crcBytes s;
  let word off := b ← slice buf (Z.of_nat off) (Z.of_nat off + 4); Ok (le_val b) in
  crc ← word offCRC;
  actual ← word offActualSize;
  seq ← word offSequence;
  Ok (crc, actual, seq).

Definition tupleFresh (r : Reader) (t : Z * Z * Z) : bool :=
  (t.1.1 =? rd_loadedCRC r) && (t.1.2 =? rd_loadedActual r) && (t.2 =? rd_loadedSeq r).

Definition set_rd_lastErr (e : error) (r : Reader) : Reader :=
  mkReader (rd_dec r) (rd_snap r) (rd_crcMmap r) (rd_crcFile r) (rd_loadedCRC r) (rd_loadedActual r)
    (rd_loadedSeq r) (Some e).

(** [if err := r.reloadLocked(); err != nil { r.lastErr.Store(&err) }]. *)
Definition reloadRecording : M RSt unit := fun s =>
  match reloadLocked s with
  | (Err e, s') => (Ok tt, set_rdr (set_rd_lastErr e (rdr s')) s')
  | r => r
  end.

(** The second probe, after [reloadMu], is by the same thread: it sees what the
    first saw. *)
Definition ensureFresh : M RSt unit :=
  s ← get;
  t ← lift (metaTuple s);
  if tupleFresh (rdr s) t then mret tt
  else
    s ← get;
    t ← lift (metaTuple s);
    if tupleFresh (rdr s) t then mret tt else reloadRecording.

(** A nil snapshot panics when it is used. *)
Definition current : M RSt snapshot :=
  _ ← ensureFresh;
  s ← get;
  lift (match rd_snap (rdr s) with Some sn => Ok sn | None => Panic end).

(** ** Reading *)

Definition snapshot_value (sn : snapshot) (nowUnix : Z) (key : gostring) : option bytes :=
  match sn_m sn !! key with
  | None => None
  | Some v =>
      if sn_expire sn && (4 <=? len v) then
        let t := le_val (sub v (length v - 4) 4) in
        if negb (t =? 0) && (t <=? nowUnix) then None else Some (sub v 0 (length v - 4))
      else Some v
  end.

Definition withValue {A} (key : gostring) (f : option bytes → outcome A) : M RSt A :=
  sn ← current;
  s ← get;
  lift (f (snapshot_value sn (now (dk_env (disk s))) key)).

Definition snapshotAs {A} (dec : M codedInput A) (key : gostring) : M RSt (option A) :=
  withValue key (fun v => match v with None => Ok None | Some b => decodeValue dec b end).

Definition Reader_Keys : M RSt (list gostring) :=
  sn ← current;
  s ← get;
  let live k := match snapshot_value sn (now (dk_env (disk s))) k with Some _ => true | None => false end in
  mret (merge_sort bytes_le (List.filter live (map_to_list (sn_m sn)).*1)).

Definition Reader_Contains (key : gostring) : M RSt bool :=
  withValue key (fun v => Ok (match v with Some _ => true | None => false end)).
(* views of the snapshot's buffers: their bytes are those of the copies *)
(** The value without its inner length.  The buffers of a snapshot never change,
    so a view and a copy are the same bytes. *)
Definition snapshot_bytesValue (key : gostring) : M RSt (option bytes) := snapshotAs readData key.
Definition Reader_GetBytes (key : gostring) : M RSt (option bytes) := snapshot_bytesValue key.
Definition Reader_GetString (key : gostring) : M RSt (option gostring) := snapshot_bytesValue key.
Definition Reader_GetBytesCopy (key : gostring) : M RSt (option bytes) := snapshot_bytesValue key.
Definition Reader_GetStringCopy (key : gostring) : M RSt (option gostring) := snapshot_bytesValue key.
Definition Reader_GetBool (key : gostring) : M RSt (option bool) := snapshotAs readBool key.
Definition Reader_GetInt32 (key : gostring) : M RSt (option Z) := snapshotAs readInt32 key.
Definition Reader_GetInt64 (key : gostring) : M RSt (option Z) :=
  snapshotAs (v ← readVarint64; mret (i64 v)) key.
Definition Reader_GetUInt32 (key : gostring) : M RSt (option Z) := snapshotAs readUInt32 key.
Definition Reader_GetUInt64 (key : gostring) : M RSt (option Z) := snapshotAs readVarint64 key.
Definition Reader_GetFloat32 (key : gostring) : M RSt (option Z) := snapshotAs readFixed32 key.
Definition Reader_GetFloat64 (key : gostring) : M RSt (option Z) := snapshotAs readFixed64 key.

(** [Err()]. *)
Definition Reader_Err : M RSt (option error) := s ← get; mret (rd_lastErr (rdr s)).

(** ** Open

    A Reader of the files at the paths of an identifier. *)

Definition diskAt (rootDir mmapID : gostring) (f : fs) (e : sys) : Disk :=
  mkDisk (content f (dataPathFor rootDir mmapID)) (content f (metaPathFor rootDir mmapID)) None e.

Section opening.
Context {PL : FileLocks RSt} {PM : FileMaps RSt}.

Definition OpenReader (rootDir mmapID : gostring) (opts : list ReaderOption) : FS RSt := fun q =>
  match openLive (mkRSt (newReader opts) (diskAt rootDir mmapID q.1 q.2)) with
  | (Ok _, r) => (Ok r, (q.1, dk_env (disk r)))
  | (Err e, r) => (Err e, (q.1, dk_env (disk r)))
  | (Panic, r) => (Panic, (q.1, dk_env (disk r)))
  | (NoFuel, r) => (NoFuel, (q.1, dk_env (disk r)))
  end.
Definition ns_Open (ns : NameSpace) (mmapID : gostring) (opts : list ReaderOption) : FS RSt :=
  OpenReader (ns_rootDir ns) mmapID opts.

End opening.
