(* ===== verification/Writer.v ===== *)
(** * The offline writer (writer.go)

    A Writer collects pairs and writes both files at once.  Its files are those
    of [Disk]; the mappings it writes through show the bytes of the files. *)

From S2P Require Import Prelude GoInt Wire Crc32 Meta Dict Crypt MemFile Flock Store StoreOps Reader.

Record Writer := mkWriter { wr_order : list gostring; wr_blob : bdict }.

Definition NewWriter : Writer := mkWriter [] ∅.

Definition wr_set (key : gostring) (b : bytes) (w : Writer) : Writer :=
  mkWriter (match wr_blob w !! key with None => wr_order w ++ [key] | Some _ => wr_order w end)
    (<[key := b]> (wr_blob w)).

Definition wr_SetBool (key : gostring) (v : bool) : Writer → Writer := wr_set key (boolBlob v).
Definition wr_SetInt32 (key : gostring) (v : Z) : Writer → Writer := wr_set key (int32Blob v).
Definition wr_SetInt64 (key : gostring) (v : Z) : Writer → Writer := wr_set key (int64Blob v).
Definition wr_SetUInt32 (key : gostring) (v : Z) : Writer → Writer := wr_set key (uint32Blob v).
Definition wr_SetUInt64 (key : gostring) (v : Z) : Writer → Writer := wr_set key (uint64Blob v).
Definition wr_SetFloat32 (key : gostring) (v : Z) : Writer → Writer := wr_set key (float32Blob v).
Definition wr_SetFloat64 (key : gostring) (v : Z) : Writer → Writer := wr_set key (float64Blob v).
Definition wr_SetString (key v : gostring) : Writer → Writer := wr_set key (stringBlob v).
Definition wr_SetBytes (key : gostring) (v : bytes) : Writer → Writer := wr_set key (bytesBlob v).
Definition wr_SetStringSlice (key : gostring) (v : list gostring) : Writer → Writer :=
  wr_set key (stringSliceBlob v).

(** The two files as the state of the memoryFile operations. *)
Definition onDataFile {A} (c : M (option bytes * sys) A) : M Disk A :=
  zoom (fun d => (dk_data d, dk_env d)) (fun p d => mkDisk p.1 (dk_meta d) (dk_gone d) p.2) c.
Definition onMetaFile {A} (c : M (option bytes * sys) A) : M Disk A :=
  zoom (fun d => (dk_meta d, dk_env d)) (fun p d => mkDisk (dk_data d) p.1 (dk_gone d) p.2) c.
Definition onEnv {A} (c : M sys A) : M Disk A :=
  zoom dk_env (fun e d => mkDisk (dk_data d) (dk_meta d) (dk_gone d) e) c.

(** [mf.close()] of a file of the function, its error dropped. *)
Definition closing (mf : memoryFile) : M Disk unit :=
  onEnv (fun e => let '(o, (_, e')) := mf_close (mf, e) in (Ok tt, e')).

Section flush.
Context `{Platform}.

(** The meta of a fresh store. *)
Definition freshMeta (crc actual : Z) : metaInfo :=
  mkMeta crc versionFlag 1 (zeros 16) actual actual crc 0.

Definition Flush (w : Writer) : M Disk unit :=
  let region := encodeRegion (wr_order w) (wr_blob w) in
  let actual := u32 (len region) in
  let crc := crc32_ChecksumIEEE region in
  _ ← onEnv syscall;                                            (* mkdir *)
  df ← onDataFile (openMemoryFile (actual + 4));
  deferring (closing df) (
    df ← lift (poke df 0 (zeros 4));
    dst ← lift (slice (memory df) 4 (u32 (4 + actual)));
    df ← lift (poke df 4 (take (length dst) region));
    _ ← onDataFile (modify (fun p => (Some (mf_file df), p.2)));
    _ ← onEnv syscall;                                          (* msync *)
    mf ← onMetaFile (openMemoryFile (Z.of_nat metaSize));
    deferring (closing mf) (
      mfn ← lift (copyAt mf 0 (marshal (freshMeta crc actual)));
      _ ← onMetaFile (modify (fun p => (Some (mf_file mfn.1), p.2)));
      onEnv syscall)).                                          (* msync *)

End flush.
