(* ===== verification/ApiSpec.v ===== *)
(** * What the typed methods return

    A store in use answers every read from the finite map it stands for, and a
    value that was set is read back, whatever its type and whichever write path
    stored it. *)

From S2P Require Import Prelude GoInt Wire Crc32 Meta Dict Crypt MemFile Flock Store StoreOps.
From S2P Require Import StoreInv StoreWrite StoreRun Handlers Api.

Section spec.
Context `{Platform}.

(** What a reader sees of a stored value: with expiration on, the value without
    its timestamp, unless it has expired. *)
Definition visible (s : St) (v : bytes) : option bytes :=
  if enableExpire (st s) then strip (now (env s)) v else Some v.

(** The map a reader sees. *)
Definition seen (s : St) (b : bdict) : bdict := omap (visible s) b.

(** The check for foreign changes, under the lock, makes a store of the map [b]. *)
Record checked (t : lockType) (s s1 : St) (b : bdict) : Prop := {
  ck_run : checkLoadData (underLock t s) = (Ok tt, s1);
  ck_store : store_ok (st s1) b;
  ck_frame : same_frame (st (underLock t s)) (st s1);
  ck_quiet : quiet (env (underLock t s)) (env s1);
}.

Lemma underLock_fields t s :
  (∃ l, st (underLock t s) = set_fl l (st s)) ∧ faults (env (underLock t s)) = faults (env s)
  ∧ now (env (underLock t s)) = now (env s).
Proof. unfold underLock. destruct (multiProcess (st s)); split_and!; try done; by eexists. Qed.

(** The frame of a reading method: the answer is that of the checked store. *)
Lemma reading_checked {A} (zero : A) f s s1 b a :
  lock_ok (fl (st s), env s) → healthy (env s) → closed (st s) = false → checked sharedLock s s1 b →
  f (st s1) (now (env s)) = Ok a →
  reading zero f s = (Ok a, mkSt (set_fl (fl (st s)) (st s1)) (set_held (held (env s)) (env s1))).
Proof.
  intros Hl He Hc [Hck Hs1 Hfr Hq] Hf. destruct (underLock_fields sharedLock s) as ([l El]&Ef&En).
  apply (bracket_ok sharedLock _ s (Ok a) s1); [done|done|done| |done|done].
  erewrite bind_ok by reflexivity. rewrite El. cbn [closed set_fl]. rewrite Hc.
  erewrite bind_ok by exact Hck. erewrite bind_ok by reflexivity. unfold lift.
  destruct Hq as (_&->&_). by rewrite En, Hf.
Qed.

(** On a store in use, the store is the same afterwards. *)
Lemma reading_gen {A} (P : A → Prop) (zero : A) f s b :
  running s b →
  (∀ m, store_ok m b → enableExpire m = enableExpire (st s) → actualSize m = actualSize (st s) →
     ∃ a, f m (now (env s)) = Ok a ∧ P a) →
  ∃ a s', reading zero f s = (Ok a, s') ∧ P a ∧ running s' b ∧ same_config (st s) (st s')
    ∧ quiet (env s) (env s') ∧ actualSize (st s') = actualSize (st s) ∧ info (st s') = info (st s).
Proof.
  intros [Hs He Hl Hc Hr] Hf. destruct (underLock_fields sharedLock s) as ([l El]&Ef&En).
  destruct (checkLoadData_ok (underLock sharedLock s) b) as (s1&Hck&Hs1&Hcfg1&Hq1&[Ea Ei _ _ _ _]);
    [rewrite El; by apply store_ok_set_fl|unfold healthy; congruence|].
  destruct (Hf (st s1)) as (a&Hfa&HP); [done|by rewrite (sc_expire _ _ Hcfg1), El|by rewrite Ea, El|].
  exists a. eexists. split; [|split; [exact HP|]].
  { eapply (reading_checked zero f s s1 b); [done..| |exact Hfa]. split; try done. by apply config_frame. }
  rewrite El in *. destruct Hq1 as (Hqf&Hqn&_). split; [|split; [|split; [|split; [exact Ea|exact Ei]]]].
  - split.
    + by apply store_ok_set_fl.
    + cbn [env]. unfold healthy in *. cbn. congruence.
    + done.
    + cbn. by rewrite (sc_closed _ _ Hcfg1).
    + cbn. by rewrite (sc_ro _ _ Hcfg1).
  - destruct Hcfg1. by split.
  - unfold quiet. cbn. split_and!; congruence.
Qed.

Lemma reading_ok {A} (zero : A) f s b a :
  running s b →
  (∀ m, store_ok m b → enableExpire m = enableExpire (st s) → actualSize m = actualSize (st s) →
     f m (now (env s)) = Ok a) →
  ∃ s', reading zero f s = (Ok a, s') ∧ running s' b ∧ same_config (st s) (st s')
    ∧ quiet (env s) (env s') ∧ actualSize (st s') = actualSize (st s) ∧ info (st s') = info (st s).
Proof.
  intros Hr Hf. destruct (reading_gen (eq a) zero f s b Hr) as (a'&s'&Hread&<-&Hrest); [|by exists s'].
  intros m ???. exists a. split; [by apply Hf|done].
Qed.

(** Looking a key up in the map that is seen. *)
Lemma seen_value s b k m :
  store_ok m b → enableExpire m = enableExpire (st s) →
  match seen s b !! k with
  | Some w => ∃ x, value m (now (env s)) k = Ok (Some x) ∧ deref (data m) x = Ok w
  | None => value m (now (env s)) k = Ok None
  end.
Proof.
  intros Hs Hx. pose proof (value_spec m b (now (env s)) k) as Hv. unfold seen. rewrite lookup_omap.
  unfold visible. rewrite Hx in Hv. apply Hv. apply Hs.
Qed.

(** The decoder run on the seen value. *)
Definition decodes {A} (dec : M codedInput A) (o : option bytes) : outcome (option A) :=
  match o with None => Ok None | Some b => decodeValue dec b end.

Lemma valueAs_ok {A} (dec : M codedInput A) s b k m :
  store_ok m b → enableExpire m = enableExpire (st s) →
  valueAs dec k m (now (env s)) = decodes dec (seen s b !! k).
Proof.
  intros Hs Hx. pose proof (seen_value s b k m Hs Hx) as Hv. unfold valueAs.
  destruct (seen s b !! k) as [w|]; [|by rewrite Hv].
  destruct Hv as (x&->&Hd). cbn [mbind outcome_bind]. by rewrite Hd.
Qed.

Lemma decode_codec {A} (c : codec A) `{!CodecLaws c} v :
  c_ok c v → decodeValue (c_dec c) (c_enc c v) = Ok (Some v).
Proof.
  intros Hv. unfold decodeValue, newCodedInput. pose proof (codec_reads v Hv [] []) as Hr.
  cbn [app length] in Hr. rewrite app_nil_r in Hr. by rewrite Hr.
Qed.

(** The copy of a byte value decodes like [readData]. *)
Lemma bytesCopy_valueAs k m nowUnix :
  (∀ x, value m nowUnix k = Ok (Some x) → ∃ b, deref (data m) x = Ok b) →
  bytesCopy k m nowUnix = valueAs readData k m nowUnix.
Proof.
  intros Hd. unfold bytesCopy, bytesValue, valueAs, decodeValue.
  destruct (value m nowUnix k) as [[x|]| | |]; try done.
  destruct (Hd x) as [b Hb]; [done|]. cbn [mbind outcome_bind]. rewrite Hb. cbn [mbind outcome_bind].
  assert (readData (newCodedInput b) = match readBytes (newCodedInput b) with
    | (Ok v, c') => (Ok (sub (ibuf c') v.1 v.2), c') | (Err e, c') => (Err e, c')
    | (Panic, c') => (Panic, c') | (NoFuel, c') => (NoFuel, c') end) as -> by done.
  destruct (readBytes (newCodedInput b)) as [[v| | |] c'] eqn:Hr; try done.
  apply readBytes_ok in Hr as (Hi&_&Hv&_). cbn [newCodedInput ibuf] in *.
  cbn [fst mbind outcome_bind]. rewrite (deref_subslice _ _ b) by (done || lia).
  cbn [mbind outcome_bind]. rewrite Hi. by replace (v.1 + v.2 - v.1)%nat with v.2 by lia.
Qed.

(** ** Decoders never panic *)

Definition total_dec {A} (dec : M codedInput A) : Prop := ∀ c, returns (dec c).1.

Lemma total_map {A B} (dec : M codedInput A) (f : A → B) :
  total_dec dec → total_dec (v ← dec; mret (f v)).
Proof.
  intros Hd c. specialize (Hd c). unfold mbind, M_bind. by destruct (dec c) as [[]].
Qed.
Lemma total_varint : total_dec readVarint64.
Proof.
  intros c. pose proof (readVarint64_spec c) as Hs. by destruct (readVarint64 c) as [[]].
Qed.
Lemma total_data : total_dec readData.
Proof.
  intros c. pose proof (readBytes_spec c) as Hs. unfold readData, mbind, M_bind.
  by destruct (readBytes c) as [[]].
Qed.
Lemma total_fixed w : total_dec (readFixed w).
Proof. intros c. unfold readFixed, mbind, M_bind, get. by destruct (_ <? _). Qed.

Lemma decodes_total {A} (dec : M codedInput A) o : total_dec dec → ∃ a, decodes dec o = Ok a.
Proof.
  intros Hd. destruct o as [b|]; [|by eexists]. cbn. unfold decodeValue. specialize (Hd (newCodedInput b)).
  destruct (dec (newCodedInput b)).1; try done; by eexists.
Qed.

(** ** The accessors of a type *)

(** The setter stores the encoding, and the getter decodes what is seen. *)
Class Accessors {A} (c : codec A) (set : gostring → A → M St unit) (get : gostring → M St (option A))
    : Prop := {
  acc_laws :: CodecLaws c;
  acc_total : total_dec (c_dec c);
  acc_set : ∀ k v, set k v = setValue k (c_enc c v);
  acc_get : ∀ k, ∃ f, get k = reading None f ∧
    ∀ s b m, store_ok m b → enableExpire m = enableExpire (st s) →
      f m (now (env s)) = decodes (c_dec c) (seen s b !! k);
}.

Lemma plain_accessors {A} (c : codec A) `{!CodecLaws c} :
  total_dec (c_dec c) →
  Accessors c (fun k v => setValue k (c_enc c v)) (fun k => reading None (valueAs (c_dec c) k)).
Proof.
  intros Ht. split; [done..|]. intros k. eexists. split; [done|]. intros. by apply valueAs_ok.
Qed.

#[global] Instance bool_accessors : Accessors bool_codec SetBool GetBool.
Proof. apply (plain_accessors bool_codec), (total_map readVarint64), total_varint. Qed.
#[global] Instance int32_accessors : Accessors int32_codec SetInt32 GetInt32.
Proof. apply (plain_accessors int32_codec), (total_map readVarint64), total_varint. Qed.
#[global] Instance int64_accessors : Accessors int64_codec SetInt64 GetInt64.
Proof. apply (plain_accessors int64_codec), (total_map readVarint64), total_varint. Qed.
#[global] Instance uint32_accessors : Accessors uint32_codec SetUInt32 GetUInt32.
Proof. apply (plain_accessors uint32_codec), (total_map readVarint64), total_varint. Qed.
#[global] Instance uint64_accessors : Accessors uint64_codec SetUInt64 GetUInt64.
Proof. apply (plain_accessors uint64_codec), total_varint. Qed.
#[global] Instance float32_accessors : Accessors float32_codec SetFloat32 GetFloat32.
Proof. apply (plain_accessors float32_codec), total_fixed. Qed.
#[global] Instance float64_accessors : Accessors float64_codec SetFloat64 GetFloat64.
Proof. apply (plain_accessors float64_codec), total_fixed. Qed.

(** The copying getters of byte values. *)
Lemma bytesCopy_ok s b k m :
  store_ok m b → enableExpire m = enableExpire (st s) →
  bytesCopy k m (now (env s)) = decodes readData (seen s b !! k).
Proof.
  intros Hs Hx. rewrite bytesCopy_valueAs; [by apply valueAs_ok|].
  intros x Hv. pose proof (seen_value s b k m Hs Hx) as Hsv.
  destruct (seen s b !! k) as [w|]; [|congruence]. destruct Hsv as (y&Hy&Hd).
  exists w. congruence.
Qed.

#[global] Instance bytes_accessors : Accessors bytes_codec SetBytes GetBytesCopy.
Proof.
  split; [apply _|apply total_data|done|]. intros k. eexists. split; [done|].
  intros. by apply bytesCopy_ok.
Qed.
#[global] Instance string_accessors : Accessors bytes_codec SetString GetStringCopy.
Proof.
  split; [apply _|apply total_data|done|]. intros k. eexists. split; [done|].
  intros. by apply bytesCopy_ok.
Qed.
#[global] Instance stringSlice_accessors : Accessors stringSlice_codec SetStringSlice GetStringSlice.
Proof.
  split; [apply _|apply (total_map readData), total_data|done|]. intros k. eexists. split; [done|].
  intros s b m Hs Hx. cbv beta. rewrite (bytesCopy_ok s b) by done.
  destruct (seen s b !! k) as [w|]; [|done]. unfold decodes, decodeValue.
  change (c_dec stringSlice_codec) with (items ← readData; mret (decodeStringSlice items)).
  unfold mbind, M_bind. by destruct (readData (newCodedInput w)) as [[]].
Qed.

(** A getter answers from the map, without panicking, and leaves the store in
    use. *)
Lemma getter_ok {A} (c : codec A) set get `{!Accessors c set get} s b k :
  running s b →
  ∃ o s', get k s = (Ok o, s') ∧ decodes (c_dec c) (seen s b !! k) = Ok o
    ∧ running s' b ∧ same_config (st s) (st s') ∧ quiet (env s) (env s').
Proof.
  intros Hr. destruct (acc_get k) as (f&->&Hf).
  destruct (decodes_total (c_dec c) (seen s b !! k) acc_total) as [o Ho].
  destruct (reading_ok None f s b o Hr) as (s'&?&?&?&?&_).
  - intros m Hm Hx _. by rewrite (Hf s b).
  - by exists o, s'.
Qed.

(** ** A value that was set is read back *)

(** The value does not expire at once. *)
Definition unexpired (s : St) : Prop :=
  enableExpire (st s) = true → expiredSeconds (st s) = 0 ∨
    (0 ≤ now (env s) ∧ 0 < expiredSeconds (st s) ∧ now (env s) + expiredSeconds (st s) < 2 ^ 32).

Lemma strip_append nowUnix blob ts :
  is_u32 ts → ts = 0 ∨ nowUnix < ts → strip nowUnix (blob ++ le_bytes 4 ts) = Some blob.
Proof.
  intros Hts Hlt. unfold strip. rewrite length_app, length_le_bytes.
  replace (length blob + 4 - 4)%nat with (length blob) by lia. btrue.
  rewrite sub_app_r, Nat.sub_diag by lia.
  assert (sub (le_bytes 4 ts) 0 4 = le_bytes 4 ts) as ->
    by (rewrite <-(length_le_bytes 4 ts) at 1; apply sub_all).
  rewrite le_val_bytes4, sub_prefix by done.
  assert (negb (ts =? 0) && (ts <=? nowUnix) = false) as ->; [|done].
  destruct Hlt as [->|Hlt]; [done|]. apply andb_false_iff. right. lia.
Qed.

Lemma visible_stored s blob : unexpired s → visible s (stored s blob) = Some blob.
Proof.
  unfold unexpired, visible, stored, appendExpire. destruct (enableExpire (st s)); [|done].
  intros Hu. apply strip_append; destruct (expiredSeconds (st s) =? 0) eqn:E; bsplit; try done; auto with mmkv.
  - destruct Hu as [|(?&?&?)]; [done|lia|]. right. rewrite u32_small; [lia|]. unfold is_u32. lia.
Qed.

Lemma seen_config s s' b : same_config (st s) (st s') → quiet (env s) (env s') → seen s' b = seen s b.
Proof.
  intros Hc (_&Hn&_). unfold seen, visible. by rewrite (sc_expire _ _ Hc), Hn.
Qed.

Lemma set_get_ok {A} (c : codec A) set get `{!Accessors c set get} s b k v :
  running s b → c_ok c v → can_set (st s) b k (stored s (c_enc c v)) → unexpired s →
  ∃ s1 s2, set k v s = (Ok tt, s1) ∧ get k s1 = (Ok (Some v), s2)
    ∧ running s2 (<[k := stored s (c_enc c v)]> b).
Proof.
  intros Hr Hv Hcan Hu. rewrite acc_set.
  destruct (setValue_ok s b k (c_enc c v) Hr Hcan) as (s1&Hset&Hr1&Hcfg&Hq&_).
  destruct (getter_ok c set get s1 _ k Hr1) as (o&s2&Hget&Ho&Hr2&_&_).
  exists s1, s2. split; [done|]. split; [|done]. rewrite Hget. do 2 f_equal.
  rewrite (seen_config s s1) in Ho by done. unfold seen in Ho.
  rewrite lookup_omap, lookup_insert_eq in Ho. cbn [mbind option_bind] in Ho.
  rewrite visible_stored in Ho by done. cbn in Ho.
  rewrite (decode_codec c) in Ho by done. congruence.
Qed.

(** ** Listing *)

Definition shown (s : St) (b : bdict) (k : gostring) : Prop := is_Some (seen s b !! k).
#[global] Instance shown_dec s b k : Decision (shown s b k).
Proof. unfold shown. apply _. Defined.

Lemma isLive_ok s b k m :
  store_ok m b → enableExpire m = enableExpire (st s) →
  isLive m (now (env s)) k = Ok (bool_decide (shown s b k)).
Proof.
  intros Hs Hx. pose proof (seen_value s b k m Hs Hx) as Hv. unfold isLive.
  case_bool_decide as E; unfold shown in E; destruct (seen s b !! k) as [w|].
  - by destruct Hv as (x&->&_).
  - by destruct E.
  - destruct E. eauto.
  - by rewrite Hv.
Qed.

Lemma liveKeys_ok s b ks m :
  store_ok m b → enableExpire m = enableExpire (st s) →
  liveKeys m (now (env s)) ks = Ok (filter (shown s b) ks).
Proof.
  intros Hs Hx. induction ks as [|k ks IH]; [done|]. cbn [liveKeys].
  rewrite (isLive_ok s b) by done. cbn [mbind outcome_bind]. rewrite IH. cbn [mbind outcome_bind].
  rewrite filter_cons. by case_bool_decide; [rewrite decide_True|rewrite decide_False].
Qed.

Lemma filter_all {A} (P : A → Prop) `{!∀ x, Decision (P x)} (l : list A) : (∀ x, x ∈ l → P x) → filter P l = l.
Proof.
  induction l as [|x l IH]; intros Hl; [done|]. rewrite filter_cons_True by (apply Hl; by left).
  rewrite IH; [done|]. intros y Hy. apply Hl. by right.
Qed.

(** The keys of the dictionary that are shown are all the keys that are shown. *)
Lemma shown_keys s b m :
  store_ok m b → enableExpire m = enableExpire (st s) →
  NoDup (filter (shown s b) (map_to_list (dict m)).*1)
  ∧ ∀ k, k ∈ filter (shown s b) (map_to_list (dict m)).*1 ↔ shown s b k.
Proof.
  intros Hs Hx. split; [apply NoDup_filter, NoDup_fst_map_to_list|].
  intros k. rewrite list_elem_of_filter. split; [by intros []|]. intros Hk. split; [done|].
  pose proof (seen_value s b k m Hs Hx) as Hv. unfold shown in Hk.
  destruct (seen s b !! k) as [w|]; [|by destruct Hk]. destruct Hv as (x&Hv&_).
  unfold value in Hv. destruct (dict m !! k) as [y|] eqn:E; [|done].
  apply list_elem_of_fmap. exists (k, y). split; [done|]. by apply elem_of_map_to_list.
Qed.

Lemma Contains_ok s b k :
  running s b → ∃ s', Contains k s = (Ok (bool_decide (shown s b k)), s') ∧ running s' b.
Proof.
  intros Hr. destruct (reading_ok false (fun m t => isLive m t k) s b (bool_decide (shown s b k)) Hr)
    as (s'&?&?&_); [|by exists s'].
  intros m Hm Hx _. by apply isLive_ok.
Qed.

Lemma AllKeys_ok s b :
  running s b →
  ∃ l s', AllKeys s = (Ok l, s') ∧ running s' b ∧ Sorted bytes_le l ∧ NoDup l ∧ ∀ k, k ∈ l ↔ shown s b k.
Proof.
  intros Hr.
  assert (∃ l, Sorted bytes_le l ∧ NoDup l ∧ (∀ k, k ∈ l ↔ shown s b k)) as (l&Hl&Hnd&Hin).
  { destruct (shown_keys s b (st s)) as [Hnd Hin]; [apply Hr|done|].
    exists (merge_sort bytes_le (filter (shown s b) (map_to_list (dict (st s))).*1)).
    split; [apply Sorted_merge_sort, _|]. split; [by rewrite merge_sort_Permutation|].
    intros k. by rewrite merge_sort_Permutation. }
  destruct (reading_ok [] (fun m t => l ← liveKeys m t (map_to_list (dict m)).*1;
    Ok (merge_sort bytes_le l)) s b l Hr) as (s'&?&?&_); [|by exists l, s'].
  intros m Hm Hx _. rewrite (liveKeys_ok s b) by done. cbn [mbind outcome_bind]. f_equal.
  destruct (shown_keys s b m Hm Hx) as [Hnd' Hin'].
  apply (Sorted_unique bytes_le); [apply Sorted_merge_sort, _|done|].
  rewrite merge_sort_Permutation. apply NoDup_Permutation; [done..|]. intros k. by rewrite Hin, Hin'.
Qed.

Lemma Count_ok s b :
  running s b → ∃ s', Count s = (Ok (Z.of_nat (size (seen s b))), s') ∧ running s' b.
Proof.
  intros Hr. unfold Count.
  edestruct (reading_ok 0) as (s'&Hc&?&_); [exact Hr| |exists s'; split; [exact Hc|done]].
  intros m Hm Hx _. cbv beta. destruct (shown_keys s b m Hm Hx) as [Hnd Hin].
  assert (length (filter (shown s b) (map_to_list (dict m)).*1) = size (seen s b)) as Hlen.
  { rewrite <-(length_map_to_list (seen s b)), <-(length_fmap fst). apply Permutation_length, NoDup_Permutation;
      [done|apply NoDup_fst_map_to_list|]. intros k. rewrite Hin. unfold shown. rewrite list_elem_of_fmap. split.
    - intros [v Hv]. exists (k, v). split; [done|]. by apply elem_of_map_to_list.
    - intros ([k' v]&->&Hv). apply elem_of_map_to_list in Hv. eauto. }
  destruct (enableExpire m) eqn:Ex; cbn [negb].
  - rewrite (liveKeys_ok s b) by (done || congruence). cbn [mbind outcome_bind]. by rewrite Hlen.
  - f_equal. rewrite <-Hlen. f_equal. rewrite filter_all; [by rewrite length_fmap, length_map_to_list|].
    intros k ([k' x]&->&Hk)%list_elem_of_fmap. apply elem_of_map_to_list in Hk. cbn [fst].
    pose proof (seen_value s b k' m Hm ltac:(congruence)) as Hv. unfold shown. revert Hv.
    unfold value. rewrite Hk, Ex. cbn. destruct (seen s b !! k'); [eauto|done].
Qed.

(** The three listing methods agree. *)
Lemma listing_ok s b :
  running s b →
  ∃ l s1 s2, AllKeys s = (Ok l, s1) ∧ Count s = (Ok (len l), s2)
    ∧ Sorted bytes_le l ∧ NoDup l ∧ (∀ k, k ∈ l ↔ shown s b k)
    ∧ ∀ k, ∃ s3, Contains k s = (Ok (bool_decide (k ∈ l)), s3).
Proof.
  intros Hr. destruct (AllKeys_ok s b Hr) as (l&s1&Ha&_&Hl&Hnd&Hin).
  destruct (Count_ok s b Hr) as (s2&Hc&_). exists l, s1, s2. split; [done|]. split.
  - rewrite Hc. do 3 f_equal. rewrite <-(length_map_to_list (seen s b)), <-(length_fmap fst).
    apply Permutation_length, NoDup_Permutation; [apply NoDup_fst_map_to_list|done|].
    intros k. rewrite Hin. unfold shown. rewrite list_elem_of_fmap. split.
    + intros ([k' v]&->&Hv). apply elem_of_map_to_list in Hv. eauto.
    + intros [v Hv]. exists (k, v). split; [done|]. by apply elem_of_map_to_list.
  - split_and!; [done..|]. intros k. destruct (Contains_ok s b k Hr) as (s3&->&_). exists s3.
    by rewrite (bool_decide_ext (k ∈ l) (shown s b k)).
Qed.

End spec.
