(* ===== verification/Refine.v ===== *)
(** * The abstract store, and the refinement

    What a store promises to its caller: a map from keys to values, each with the
    time it expires at, and the expiration policy.  The operations of [MMKV]
    refine the operations of this model. *)

From S2P Require Import Prelude GoInt Wire Crc32 Meta Dict Crypt MemFile Flock Store StoreOps.
From S2P Require Import StoreInv StoreWrite StoreRun Handlers Api ApiSpec.

(** ** The model *)

Record model := mkModel {
  md_map : gmap gostring (bytes * Z);   (* the value, and when it expires: 0 is never *)
  md_expire : option Z;                 (* the default lifetime, when expiration is on *)
}.

(** The operations a caller has. *)
Inductive op :=
  | OSet (k : gostring) (v : bytes)
  | ORemove (k : gostring)
  | ORemoveMany (ks : list gostring)
  | OClear
  | OTrim
  | OReKey (newKey : bytes)
  | OEnableExpire (seconds : Z)
  | ODisableExpire.

(** When a value set at [t] expires. *)
Definition expiryAt (t : Z) (policy : option Z) : Z :=
  match policy with
  | None => 0
  | Some seconds => if seconds =? 0 then 0 else u32 (t + seconds)
  end.

(** A value that has not expired at [t]. *)
Definition liveAt (t : Z) (e : bytes * Z) : option bytes :=
  if negb (e.2 =? 0) && (e.2 <=? t) then None else Some e.1.

Definition step (t : Z) (o : op) (d : model) : model :=
  match o with
  | OSet k v => mkModel (<[k := (v, expiryAt t (md_expire d))]> (md_map d)) (md_expire d)
  | ORemove k => mkModel (delete k (md_map d)) (md_expire d)
  | ORemoveMany ks => mkModel (without ks (md_map d)) (md_expire d)
  | OClear => mkModel ∅ (md_expire d)
  | OTrim => d
  | OReKey _ => d
  | OEnableExpire seconds => mkModel (md_map d) (Some seconds)
  | ODisableExpire =>
      match md_expire d with
      | None => d
      | Some _ => mkModel (omap (fun e => (fun v => (v, 0)) <$> liveAt t e) (md_map d)) None
      end
  end.

(** Reading a key. *)
Definition ask (t : Z) (d : model) (k : gostring) : option bytes := md_map d !! k ≫= liveAt t.

(** ** The representation *)

(** How a value is stored: with expiration on, its time is appended. *)
Definition rep (policy : option Z) (e : bytes * Z) : bytes :=
  match policy with None => e.1 | Some _ => e.1 ++ le_bytes 4 e.2 end.
Definition repMap (d : model) : bdict := rep (md_expire d) <$> md_map d.

(** No value is empty, expiry times are words, and without expiration nothing
    expires. *)
Definition model_ok (d : model) : Prop :=
  map_Forall (fun _ e => e.1 ≠ [] ∧ is_u32 e.2 ∧ (md_expire d = None → e.2 = 0)) (md_map d).

Section refine.
Context `{Platform}.

(** The running store represents the model. *)
Record represents (s : St) (d : model) : Prop := {
  rp_running : running s (repMap d);
  rp_ok : model_ok d;
  rp_policy : enableExpire (st s) = bool_decide (is_Some (md_expire d));
  rp_seconds : ∀ n, md_expire d = Some n → expiredSeconds (st s) = n;
  rp_flags : enableExpire (st s) = expireEnabled (info (st s));
}.

Definition run (o : op) : M St unit :=
  match o with
  | OSet k v => setValue k v
  | ORemove k => RemoveValueForKey k
  | ORemoveMany ks => RemoveValuesForKeys ks
  | OClear => ClearAll
  | OTrim => Trim
  | OReKey newKey => ReKey newKey
  | OEnableExpire seconds => EnableAutoKeyExpire seconds
  | ODisableExpire => DisableAutoKeyExpire
  end.

(** The sizes of the result stay within what the format can carry; a value is
    not empty, as no encoding is; a single removal is for plaintext stores. *)
Definition allowed (s : St) (d : model) (o : op) : Prop :=
  match o with
  | OSet k v => v ≠ [] ∧ can_set (st s) (repMap d) k (stored s v)
  | ORemove k => can_remove (st s) (repMap d) k
  | OClear => True
  | _ => 4 + len (packed (repMap (step (now (env s)) o d))) < 2 ^ 32
  end.

(** What an operation may add to the region behind the old pairs, and how far
    the region may then reach. *)
Definition weight (t : Z) (o : op) (d : model) : Z :=
  match o with
  | OSet k v => len (pair_bytes (k, rep (md_expire d) (v, expiryAt t (md_expire d))))
  | ORemove k => len (pair_bytes (k, []))
  | _ => 0
  end.
Definition reach (t : Z) (o : op) (d : model) (a : Z) : Z :=
  Z.max a (len (packed (repMap (step t o d)))) + weight t o d.

Definition encrypted (m : MMKV) : bool := match crypt m with Some _ => true | None => false end.
Definition encrypts (o : op) (x : bool) : bool :=
  match o with OReKey newKey => negb (len newKey =? 0) | _ => x end.

(** The key after an operation, and after a sequence of them. *)
Definition rekeyed (o : op) (c : option aesCFB) : option aesCFB :=
  match o with OReKey newKey => newCrypt newKey | _ => c end.
Definition rekeys (os : list op) (c : option aesCFB) : option aesCFB := foldl (fun c o => rekeyed o c) c os.

(** The default lifetime after an operation, when expiration was on or off. *)
Definition lasts (o : op) (on : bool) (n : Z) : Z :=
  match o with
  | OEnableExpire seconds => seconds
  | ODisableExpire => if on then 0 else n
  | _ => n
  end.

(** What an operation on a store that represents [d] leaves. *)
Record refined (s s' : St) (o : op) (d : model) : Prop := {
  rf_represents : represents s' (step (now (env s)) o d);
  rf_quiet : quiet (env s) (env s');
  rf_grows : grows (st s) (st s') (repMap (step (now (env s)) o d)) (weight (now (env s)) o d);
  rf_crypt : crypt (st s') = rekeyed o (crypt (st s));
  rf_frame : same_frame (st s) (st s');
  rf_seconds : expiredSeconds (st s') = lasts o (enableExpire (st s)) (expiredSeconds (st s));
}.

(** ** Each operation *)

Lemma encrypted_rekeyed m m' o :
  crypt m' = rekeyed o (crypt m) → encrypted m' = encrypts o (encrypted m).
Proof. unfold encrypted. intros ->. destruct o; try done. cbn. unfold newCrypt. by destruct (_ =? 0). Qed.

Lemma stored_rep s d v :
  represents s d → stored s v = rep (md_expire d) (v, expiryAt (now (env s)) (md_expire d)).
Proof.
  intros [_ _ Hp Hsec _]. unfold stored, rep, expiryAt, appendExpire. rewrite Hp.
  destruct (md_expire d) as [n|] eqn:E.
  - rewrite bool_decide_eq_true_2 by eauto. by rewrite (Hsec n eq_refl).
  - rewrite bool_decide_eq_false_2; [done|]. by intros [].
Qed.

Lemma expiryAt_u32 t policy : is_u32 (expiryAt t policy).
Proof.
  unfold expiryAt. destruct policy as [n|]; [|done]. destruct (n =? 0); [done|auto with mmkv].
Qed.

Lemma repMap_insert d k v x :
  repMap (mkModel (<[k:=(v, x)]> (md_map d)) (md_expire d)) = <[k := rep (md_expire d) (v, x)]> (repMap d).
Proof. unfold repMap. cbn [md_map md_expire]. by rewrite fmap_insert. Qed.

Lemma repMap_delete d k : repMap (mkModel (delete k (md_map d)) (md_expire d)) = delete k (repMap d).
Proof. unfold repMap. cbn [md_map md_expire]. by rewrite fmap_delete. Qed.

Lemma fmap_without {A B} (f : A → B) ks (x : kmap A) : f <$> without ks x = without ks (f <$> x).
Proof.
  unfold without. revert x. induction ks as [|k ks IH]; intros x; cbn; [done|].
  by rewrite IH, fmap_delete.
Qed.

Lemma without_subseteq {A} ks (x : kmap A) : without ks x ⊆ x.
Proof.
  unfold without. revert x. induction ks as [|k ks IH]; intros x; cbn; [done|].
  etransitivity; [apply IH|]. apply delete_subseteq.
Qed.

(** A result that keeps the configuration represents the model with the new map. *)
Lemma represents_config s s' d mp :
  represents s d → running s' (repMap (mkModel mp (md_expire d))) →
  model_ok (mkModel mp (md_expire d)) → same_config (st s) (st s') →
  represents s' (mkModel mp (md_expire d)).
Proof.
  intros [_ _ Hp Hsec Hfl] Hr Hok Hc. split; try done; cbn [md_expire].
  - by rewrite (sc_expire _ _ Hc).
  - intros n Hn. rewrite (sc_seconds _ _ Hc). by apply Hsec.
  - rewrite (sc_expire _ _ Hc), Hfl. unfold expireEnabled. by rewrite (sc_flags _ _ Hc).
Qed.

Lemma model_ok_sub d mp :
  model_ok d → mp ⊆ md_map d → model_ok (mkModel mp (md_expire d)).
Proof. intros Hok Hsub k e Hk. apply (Hok k). by apply (lookup_weaken mp). Qed.

Lemma can_pack_of s d b :
  represents s d → 4 + len (packed b) < 2 ^ 32 → can_pack (st s) b.
Proof. intros [] ?. by split. Qed.

Lemma set_refines s d k v :
  represents s d → allowed s d (OSet k v) →
  ∃ s', run (OSet k v) s = (Ok tt, s') ∧ refined s s' (OSet k v) d.
Proof.
  intros Hr [Hne Ha].
  destruct (setValue_ok s (repMap d) k v (rp_running _ _ Hr) Ha) as (s'&Hs&Hrun&Hc&Hq&_&Hg).
  exists s'. split; [done|]. rewrite (stored_rep s d) in Hrun, Hg by done.
  split; [|done|cbn [step weight]; by rewrite <-repMap_insert in Hg|apply Hc|by apply config_frame|apply Hc].
  eapply represents_config; [exact Hr|by rewrite repMap_insert| |done].
  pose proof (rp_ok _ _ Hr) as Hok.
  apply map_Forall_insert_2; [|exact Hok]. cbn. split_and!; [done|apply expiryAt_u32|by intros ->].
Qed.

Lemma remove_refines s d k :
  represents s d → allowed s d (ORemove k) →
  ∃ s', run (ORemove k) s = (Ok tt, s') ∧ refined s s' (ORemove k) d.
Proof.
  intros Hr Ha.
  destruct (RemoveValueForKey_ok s (repMap d) k (rp_running _ _ Hr) Ha) as (s'&Hs&Hrun&Hc&Hq&_&Hg).
  exists s'. split; [done|].
  split; [|done|cbn [step weight]; by rewrite <-repMap_delete in Hg|apply Hc|by apply config_frame|apply Hc].
  eapply represents_config; [exact Hr|by rewrite repMap_delete| |done].
  apply model_ok_sub; [apply Hr|apply delete_subseteq].
Qed.

Lemma removeMany_refines s d ks :
  represents s d → allowed s d (ORemoveMany ks) →
  ∃ s', run (ORemoveMany ks) s = (Ok tt, s') ∧ refined s s' (ORemoveMany ks) d.
Proof.
  intros Hr Ha. cbn [allowed] in Ha. pose proof (can_pack_of _ _ _ Hr Ha) as Hp.
  assert (repMap (step (now (env s)) (ORemoveMany ks) d) = without ks (repMap d)) as E
    by (unfold repMap; cbn [step md_map md_expire]; by rewrite fmap_without).
  rewrite E in Hp.
  destruct (RemoveValuesForKeys_ok s (repMap d) ks (rp_running _ _ Hr) Hp) as (s'&Hs&Hrun&Hc&Hq&_&Hg).
  exists s'. split; [done|]. rewrite <-E in Hg. split; [|done|exact Hg|apply Hc|by apply config_frame|apply Hc].
  eapply represents_config; [exact Hr|by rewrite <-E in Hrun| |done].
  apply model_ok_sub; [apply Hr|apply without_subseteq].
Qed.

Lemma clear_refines s d :
  represents s d →
  ∃ s', run OClear s = (Ok tt, s') ∧ refined s s' OClear d.
Proof.
  intros Hr. destruct (ClearAll_ok s (repMap d) (rp_running _ _ Hr) (rp_flags _ _ Hr))
    as (s'&Hs&Hrun&Hc&Hq&_&_&Hg).
  assert (repMap (step (now (env s)) OClear d) = ∅) as E
    by (unfold repMap; cbn [step md_map md_expire]; by rewrite fmap_empty).
  exists s'. split; [done|]. split; [|done|by rewrite E|apply Hc|by apply config_frame|apply Hc].
  eapply represents_config; [exact Hr| |apply map_Forall_empty|done].
  unfold repMap. cbn [md_map md_expire]. by rewrite fmap_empty.
Qed.

Lemma trim_refines s d :
  represents s d → allowed s d OTrim →
  ∃ s', run OTrim s = (Ok tt, s') ∧ refined s s' OTrim d.
Proof.
  intros Hr Ha. destruct (Trim_ok s (repMap d) (rp_running _ _ Hr)) as (s'&Hs&Hrun&Hc&Hq&_&Hg);
    [by eapply can_pack_of|].
  exists s'. split; [done|]. split; [|done|exact Hg|apply Hc|by apply config_frame|apply Hc]. destruct d as [mp x].
  by apply (represents_config s s' (mkModel mp x)); [..|apply Hr|].
Qed.

Lemma rekey_refines s d newKey :
  represents s d → allowed s d (OReKey newKey) →
  ∃ s', run (OReKey newKey) s = (Ok tt, s') ∧ refined s s' (OReKey newKey) d.
Proof.
  intros Hr Ha. destruct (ReKey_ok s (repMap d) newKey (rp_running _ _ Hr))
    as (s'&Hs&Hrun&Hck&(Hx&Hsec&Hfl)&Hq&Hfr&Hg); [by eapply can_pack_of|].
  exists s'. split; [done|]. split; [|done|exact Hg|done..].
  cbn [step]. destruct Hr as [_ Hok Hp Hse _].
  split; try done; [by rewrite Hx|]. intros n Hn. rewrite Hsec. by apply Hse.
Qed.

(** The bytes once expiration is on. *)
Lemma enable_repMap s d t seconds :
  represents s d → repMap (step t (OEnableExpire seconds) d)
    = if enableExpire (st s) then repMap d else stamped (repMap d).
Proof.
  intros Hr. rewrite (rp_policy _ _ Hr). unfold repMap, stamped. cbn [step md_map md_expire].
  destruct (md_expire d) as [n|] eqn:Ex; [done|].
  rewrite bool_decide_eq_false_2 by (by intros []). rewrite <-map_fmap_compose.
  apply map_fmap_ext. intros k e Hk. destruct (rp_ok _ _ Hr k e Hk) as (_&_&H0).
  unfold rep, compose. by rewrite H0.
Qed.

Lemma enable_refines s d seconds :
  represents s d → allowed s d (OEnableExpire seconds) →
  ∃ s', run (OEnableExpire seconds) s = (Ok tt, s') ∧ refined s s' (OEnableExpire seconds) d.
Proof.
  intros Hr Hpk. cbn [allowed] in Hpk.
  pose proof (enable_repMap s d (now (env s)) seconds Hr) as E.
  rewrite E in Hpk.
  destruct (EnableAutoKeyExpire_ok s (repMap d) seconds (rp_running _ _ Hr) Hpk)
    as (s'&Hs&Hrun&(Hx&Hsec&_&Hck&Hfl)&Hq&Hfr&Hg).
  exists s'. split; [done|]. rewrite <-E in Hrun, Hg.
  split; [|done|exact Hg|done..]. split; try done.
  - intros k e Hk. destruct (rp_ok _ _ Hr k e Hk) as (?&?&_). by split_and!.
  - by intros n [= <-].
Qed.

(** A stored value as a reader sees it is the model's value. *)
Lemma strip_rep t n e : is_u32 e.2 → strip t (rep (Some n) e) = liveAt t e.
Proof.
  intros Hu. unfold strip, rep, liveAt. rewrite length_app, length_le_bytes.
  replace (length e.1 + 4 - 4)%nat with (length e.1) by lia. btrue.
  rewrite sub_app_r, Nat.sub_diag by lia.
  assert (sub (le_bytes 4 e.2) 0 4 = le_bytes 4 e.2) as ->
    by (rewrite <-(length_le_bytes 4 e.2) at 1; apply sub_all).
  by rewrite le_val_bytes4, sub_prefix.
Qed.

Lemma disable_step t d k e :
  md_map (step t ODisableExpire d) !! k = Some e → ∃ e0, md_map d !! k = Some e0 ∧ e.1 = e0.1.
Proof.
  cbn [step]. destruct (md_expire d); [|by eauto]. cbn [md_map]. rewrite lookup_omap.
  destruct (md_map d !! k) as [e0|]; [|done]. cbn [mbind option_bind]. unfold liveAt.
  destruct (_ && _); [done|]. intros [= <-]. by exists e0.
Qed.

Lemma disable_model_ok t d : model_ok d → model_ok (step t ODisableExpire d).
Proof.
  intros Hok k e Hk. destruct (disable_step t d k e Hk) as (e0&He0&E).
  destruct (Hok k e0 He0) as (Hne&_). cbn [step] in *. destruct (md_expire d) as [n|] eqn:Ex.
  - cbn [md_map] in Hk. rewrite lookup_omap, He0 in Hk. cbn [mbind option_bind] in Hk.
    destruct (liveAt t e0) as [v|]; [|done]. cbn in Hk. injection Hk as <-. by rewrite <-E in Hne.
  - destruct (Hok k e Hk) as (?&?&?). by split_and!; [|done|auto].
Qed.

(** The bytes once it is off. *)
Lemma disable_repMap s d t :
  represents s d → repMap (step t ODisableExpire d)
    = if enableExpire (st s) then omap (strip t) (repMap d) else repMap d.
Proof.
  intros Hr. rewrite (rp_policy _ _ Hr). unfold repMap. cbn [step].
  destruct (md_expire d) as [n|] eqn:Ex; [|by rewrite Ex].
  rewrite bool_decide_eq_true_2 by eauto. apply map_eq. intros k. cbn [md_map md_expire].
  rewrite lookup_fmap, !lookup_omap, lookup_fmap.
  destruct (md_map d !! k) as [e|] eqn:Ek; [|done]. cbn [fmap option_fmap option_map mbind option_bind].
  rewrite strip_rep by (by destruct (rp_ok _ _ Hr k e Ek) as (_&?&_)). by destruct (liveAt _ e).
Qed.

Lemma disable_expire t d : md_expire (step t ODisableExpire d) = None.
Proof. cbn [step]. by destruct (md_expire d) eqn:?. Qed.

Lemma disable_bdict_ok s d t : represents s d → bdict_ok (repMap (step t ODisableExpire d)).
Proof.
  intros Hr k w Hw. unfold repMap in Hw. rewrite lookup_fmap in Hw.
  destruct (md_map (step t _ d) !! k) as [e|] eqn:Ek; [|done]. injection Hw as <-.
  destruct (disable_step _ _ _ _ Ek) as (e0&He0&_).
  destruct (disable_model_ok t d (rp_ok _ _ Hr) k e Ek) as (Hne&_).
  assert (rep (md_expire (step t ODisableExpire d)) e ≠ []) as Hrep by (by rewrite disable_expire).
  split; [|exact Hrep].
  pose proof (di_ok _ _ (so_dict _ _ (ru_store _ _ (rp_running _ _ Hr)))) as Hdi.
  apply (Hdi k (rep (md_expire d) e0)). unfold repMap. by rewrite lookup_fmap, He0.
Qed.

Lemma disable_refines s d :
  represents s d → allowed s d ODisableExpire →
  ∃ s', run ODisableExpire s = (Ok tt, s') ∧ refined s s' ODisableExpire d.
Proof.
  intros Hr Hpk. cbn [allowed] in Hpk.
  pose proof (disable_repMap s d (now (env s)) Hr) as E. rewrite E in Hpk.
  pose proof (disable_model_ok (now (env s)) d (rp_ok _ _ Hr)) as Hok.
  pose proof (disable_expire (now (env s)) d) as En.
  destruct (DisableAutoKeyExpire_ok s (repMap d) (rp_running _ _ Hr) (rp_flags _ _ Hr))
    as (s'&Hs&Hrun&(Hx&Hck&Hfl&Hsec)&Hq&Hfr&Hg); [rewrite <-E; by eapply disable_bdict_ok|done|].
  exists s'. split; [done|]. rewrite <-E in Hrun, Hg.
  split; [|done|exact Hg|done..].
  split; try done; [by rewrite En|by intros n; rewrite En].
Qed.

(** ** The simulation *)

Lemma run_refines s d o :
  represents s d → allowed s d o →
  ∃ s', run o s = (Ok tt, s') ∧ refined s s' o d.
Proof.
  destruct o; intros Hr Ha.
  - by apply set_refines.
  - by apply remove_refines.
  - by apply removeMany_refines.
  - by apply clear_refines.
  - by apply trim_refines.
  - by apply rekey_refines.
  - by apply enable_refines.
  - by apply disable_refines.
Qed.

(** The values of the model, of those that are stored. *)
Lemma repMap_live t d k :
  model_ok d →
  repMap d !! k ≫= (λ v, if bool_decide (is_Some (md_expire d)) then strip t v else Some v) = ask t d k.
Proof.
  intros Hok. unfold repMap, ask. rewrite lookup_fmap.
  destruct (md_map d !! k) as [e|] eqn:Ek; [|done]. cbn [fmap option_fmap option_map mbind option_bind].
  destruct (Hok k e Ek) as (_&Hu&H0). destruct (md_expire d) as [n|].
  - rewrite bool_decide_eq_true_2 by eauto. by apply strip_rep.
  - rewrite bool_decide_eq_false_2 by (by intros []). unfold liveAt. by rewrite H0.
Qed.

(** A getter answers from the model. *)
(** The clock moves on: the store is the same. *)
Definition at_time (t : Z) (s : St) : St := mkSt (st s) (set_now t (env s)).

Lemma represents_at t s d : represents s d → represents (at_time t s) d.
Proof. intros [[] ? ? ? ?]. by split. Qed.

(** What is asked for after a set, while the lifetime lasts. *)
Lemma ask_set t0 t k v d n :
  md_expire d = Some n → 0 ≤ t0 → 0 ≤ n → t0 + n < 2 ^ 32 →
  ask t (step t0 (OSet k v) d) k = if (n =? 0) || (t <? t0 + n) then Some v else None.
Proof.
  intros Hx H0 Hn Hw. unfold ask. cbn [step md_map]. rewrite lookup_insert_eq, Hx. cbn [mbind option_bind].
  unfold liveAt, expiryAt. cbn [fst snd]. destruct (n =? 0) eqn:En; bsplit; [done|cbn [orb]].
  rewrite u32_small by (unfold is_u32; lia). rewrite (proj2 (Z.eqb_neq _ 0)) by lia. cbn [negb andb].
  destruct (t0 + n <=? t) eqn:E1, (t <? t0 + n) eqn:E2; bsplit; done || lia.
Qed.

Lemma seen_repMap s d k :
  represents s d → seen s (repMap d) !! k = ask (now (env s)) d k.
Proof.
  intros Hr. rewrite <-(repMap_live _ _ _ (rp_ok _ _ Hr)). unfold seen, visible.
  by rewrite lookup_omap, (rp_policy _ _ Hr).
Qed.

(** ** Runs *)

Fixpoint exec (os : list op) (s : St) : outcome unit * St :=
  match os with
  | [] => (Ok tt, s)
  | o :: os => match run o s with (Ok _, s') => exec os s' | r => r end
  end.

Definition steps (t : Z) (os : list op) (d : model) : model := foldl (fun d o => step t o d) d os.

(** The operations' conditions can be decided. *)
Definition dec_of_iff {P Q : Prop} `{Decision P} (H : P ↔ Q) : Decision Q :=
  match decide P with
  | left p => left (proj1 H p)
  | right n => right (fun q => n (proj2 H q))
  end.

Lemma can_set_iff m b k v :
  (((k ≠ [] ∧ (0 ≤ len k < 2 ^ 32) ∧ (0 ≤ len v < 2 ^ 32)) ∧ v ≠ []
    ∧ 4 + actualSize m + len (pair_bytes (k, v)) < 2 ^ 32
    ∧ 4 + len (packed (<[k:=v]> b)) + len (pair_bytes (k, v)) < 2 ^ 32)
   ∧ enableExpire m = expireEnabled (info m)) ↔ can_set m b k v.
Proof.
  split; [intros [(?&?&?&?) ?]; by split|].
  intros [(?&Hk&Hv) ? ? ? ?]. by repeat split; try apply Hk; try apply Hv.
Qed.
#[global] Instance can_set_dec m b k v : Decision (can_set m b k v).
Proof. exact (dec_of_iff (can_set_iff m b k v)). Defined.

Lemma can_remove_iff m b k :
  ((encrypted m = false
    ∧ 4 + actualSize m + len (pair_bytes (k, [])) < 2 ^ 32
    ∧ 4 + len (packed (delete k b)) < 2 ^ 32)
   ∧ enableExpire m = expireEnabled (info m)) ↔ can_remove m b k.
Proof.
  unfold encrypted. split.
  - intros [(Hc&?&?) ?]. split; try done. by destruct (crypt m).
  - intros [Hc ? ? ?]. rewrite Hc. by split_and!.
Qed.
#[global] Instance can_remove_dec m b k : Decision (can_remove m b k).
Proof. exact (dec_of_iff (can_remove_iff m b k)). Defined.

#[global] Instance allowed_dec s d o : Decision (allowed s d o).
Proof. destruct o; cbn [allowed]; apply _. Defined.

(** Every operation of the run is within the format's sizes when its turn comes:
    a condition on the model and on two numbers, the size of the region to begin
    with and whether the store has a key. *)
Definition admissible (x : bool) (o : op) : Prop :=
  match o with
  | OSet k v => k ≠ [] ∧ v ≠ []
  | ORemove _ => x = false
  | _ => True
  end.

Fixpoint feasible (t : Z) (os : list op) (d : model) (a : Z) (x : bool) : Prop :=
  match os with
  | [] => True
  | o :: os => (admissible x o ∧ 4 + reach t o d a < 2 ^ 32)
      ∧ feasible t os (step t o d) (reach t o d a) (encrypts o x)
  end.

#[global] Instance admissible_dec x o : Decision (admissible x o).
Proof. destruct o; cbn [admissible]; apply _. Defined.
#[global] Instance feasible_dec t os d a x : Decision (feasible t os d a x).
Proof. revert d a x. induction os; intros; cbn [feasible]; apply _. Defined.

Lemma reach_mono t o d a a' : a ≤ a' → reach t o d a ≤ reach t o d a'.
Proof. unfold reach. lia. Qed.

Lemma pair_entry_ok k v : k ≠ [] → len (pair_bytes (k, v)) < 2 ^ 32 → entry_ok (k, v).
Proof.
  intros Hk Hl. pose proof (pair_bytes_key k v). pose proof (pair_bytes_len k v).
  split; [done|]. cbn [fst snd]. unfold is_u32. lia.
Qed.

Lemma weight_nonneg t o d : 0 ≤ weight t o d.
Proof. unfold weight. destruct o; lia. Qed.

Lemma rep_nonempty policy e : e.1 ≠ [] → rep policy e ≠ [].
Proof. destruct e as [v x]. unfold rep. destruct policy; [by destruct v|done]. Qed.

(** The static condition gives the operation's own. *)
Lemma admissible_allowed s d o a :
  represents s d → actualSize (st s) ≤ a → admissible (encrypted (st s)) o →
  4 + reach (now (env s)) o d a < 2 ^ 32 → allowed s d o.
Proof.
  intros Hr Ha Had Hb. pose proof (rp_flags _ _ Hr) as Hfl.
  pose proof (weight_nonneg (now (env s)) o d) as Hw. unfold reach in Hb.
  destruct o as [k v|k| | | | | |]; cbn [allowed]; try lia; [|].
  - destruct Had as [Hk Hv]. split; [done|]. rewrite (stored_rep s d) by done.
    cbn [step] in Hb. rewrite repMap_insert in Hb. cbn [weight] in *.
    split; [apply pair_entry_ok; [done|lia]|by apply rep_nonempty|lia|lia|done].
  - cbn [step] in Hb. rewrite repMap_delete in Hb. cbn [weight] in *. split; [|lia|lia|done].
    unfold encrypted in Had. cbn [admissible] in Had. by destruct (crypt (st s)).
Qed.

Lemma exec_refines os s d a :
  represents s d → actualSize (st s) ≤ a → feasible (now (env s)) os d a (encrypted (st s)) →
  ∃ s', exec os s = (Ok tt, s') ∧ represents s' (steps (now (env s)) os d) ∧ quiet (env s) (env s')
    ∧ crypt (st s') = rekeys os (crypt (st s)).
Proof.
  revert s d a. induction os as [|o os IH]; intros s d a Hr Ha Hf; cbn [exec steps].
  - by exists s.
  - destruct Hf as [[Had Hb] Hf].
    destruct (run_refines s d o Hr (admissible_allowed s d o a Hr Ha Had Hb)) as (s1&Hrun&[Hr1 Hq1 [Hs1 _ _] Hx1 _ _]).
    rewrite Hrun. assert (now (env s1) = now (env s)) as En by (by destruct Hq1 as (_&->&_)).
    destruct (IH s1 _ (reach (now (env s)) o d a) Hr1) as (s2&Hex&Hr2&Hq2&Hc2).
    { etransitivity; [exact Hs1|]. by apply reach_mono. }
    { rewrite En. by rewrite (encrypted_rekeyed _ _ _ Hx1). }
    exists s2. split; [done|]. split; [by rewrite En in Hr2|]. split; [by etransitivity|].
    by rewrite Hc2, Hx1.
Qed.

End refine.
