(* ===== verification/Typed.v ===== *)
(** * Types and memory safety of the store's struct

    On every path of every operation, with any system call failing and whatever
    bytes the files hold: the machine-width fields stay in their ranges, and every
    value of the dictionary is a buffer of its own or a slice that lies inside the
    mapping it was cut from. *)

From S2P Require Import Prelude GoInt Wire Crc32 Meta Dict Crypt MemFile Flock Store StoreOps.
From S2P Require Import StoreInv StoreWrite Handlers Recovery Api Refine.

(** ** Mappings and slices *)

(** The number of the current mapping has been given out. *)
Definition gen_ok (mf : memoryFile) : Prop :=
  match mf_data mf with Some mp => (map_gen mp < mf_gen mf)%nat ∧ 0 ≤ map_len mp | None => True end.

(** A slice of a mapping that was made; of the current one, inside it. *)
Definition slice_typed (mf : memoryFile) (s : gslice) : Prop :=
  match s with
  | Heap _ => True
  | Mapped g off n =>
      (g < mf_gen mf)%nat ∧
      match mf_data mf with
      | Some mp => g = map_gen mp → Z.of_nat off + Z.of_nat n ≤ map_len mp
      | None => True
      end
  end.

Record mf_steps (mf mf' : memoryFile) : Prop := {
  ms_gen : gen_ok mf → gen_ok mf';
  ms_slice s : gen_ok mf → slice_typed mf s → slice_typed mf' s;
}.

Lemma mf_steps_refl mf : mf_steps mf mf.
Proof. by split. Qed.
Lemma mf_steps_trans mf1 mf2 mf3 : mf_steps mf1 mf2 → mf_steps mf2 mf3 → mf_steps mf1 mf3.
Proof. intros [] []. split; auto. Qed.

(** Writing bytes, unmapping and mapping anew. *)
Lemma mf_steps_same mf mf' : mf_data mf' = mf_data mf → mf_gen mf' = mf_gen mf → mf_steps mf mf'.
Proof. intros E1 E2. split; unfold gen_ok, slice_typed; rewrite E1, E2; done. Qed.
Lemma mf_steps_unmap mf : mf_steps mf (set_mf_data None mf).
Proof. split; [done|]. intros [bs|g off n] _; [done|]. cbn. by intros []. Qed.
Lemma mf_steps_install n mf : 0 ≤ n → mf_steps mf (install n mf).
Proof.
  intros Hn. split; unfold gen_ok, slice_typed, install; cbn [mf_data mf_gen map_gen map_len]; [lia|].
  intros [bs|g off k] _; [done|]. intros [Hg _]. split; lia.
Qed.

(** A property of the state that a computation keeps, however it ends. *)
Definition stable {S A} (I : S → Prop) (c : M S A) : Prop := ∀ s, I s → I (c s).2.

Lemma stable_bind {S A B} (I : S → Prop) (c : M S A) (k : A → M S B) :
  stable I c → (∀ a, stable I (k a)) → stable I (c ≫= k).
Proof.
  intros Hc Hk s Hs. specialize (Hc s Hs). unfold mbind, M_bind.
  destruct (c s) as [[a| | |] s']; try done. by apply Hk.
Qed.

(** The same, when the second part needs something of the result. *)
Lemma stable_bind_val {S A B} (I : S → Prop) (R : A → Prop) (c : M S A) (k : A → M S B) :
  stable I c → (∀ s a, I s → (c s).1 = Ok a → R a) → (∀ a, R a → stable I (k a)) → stable I (c ≫= k).
Proof.
  intros Hc HR Hk s Hs. pose proof (Hc s Hs) as H1. specialize (HR s). unfold mbind, M_bind.
  destruct (c s) as [[a| | |] s']; try done. apply Hk; [|done]. by apply HR.
Qed.

(** Reading the state first: the rest runs on the state that was read. *)
Lemma stable_get {S B} (I : S → Prop) (k : S → M S B) :
  (∀ s, I s → I (k s s).2) → stable I (get ≫= k).
Proof. intros Hk s Hs. by apply Hk. Qed.

Lemma stable_ignore {S A} (I : S → Prop) (c : M S A) : stable I c → stable I (ignore c).
Proof. intros Hc s Hs. specialize (Hc s Hs). unfold ignore. by destruct (c s) as [[]]. Qed.

Lemma stable_deferring {S A} (I : S → Prop) (d : M S unit) (c : M S A) :
  stable I d → stable I c → stable I (deferring d c).
Proof.
  intros Hd Hc s Hs. specialize (Hc s Hs). unfold deferring. destruct (c s) as [[a|e| |] s']; cbn [snd] in *; try done.
  all: specialize (Hd s' Hc); destruct (d s') as [[] s'']; done.
Qed.

Lemma stable_zoom {S T A} (I : S → Prop) (get : S → T) (put : T → S → S) (c : M T A) :
  (∀ s, I s → I (put (c (get s)).2 s)) → stable I (zoom get put c).
Proof. intros Hz s Hs. specialize (Hz s Hs). unfold zoom. by destruct (c (get s)). Qed.

(** One step of a computation whose first part is a primitive. *)
Lemma bind_get {S B} (k : S → M S B) s : (get ≫= k) s = k s s.
Proof. done. Qed.
Lemma bind_modify {S B} f (k : unit → M S B) s : (modify f ≫= k) s = k tt (f s).
Proof. done. Qed.
Lemma bind_lift {S A B} (o : outcome A) (k : A → M S B) s :
  (lift o ≫= k) s = match o with Ok a => k a s | Err e => (Err e, s) | Panic => (Panic, s) | NoFuel => (NoFuel, s) end.
Proof. by destruct o. Qed.

(** A failure ends the computation in the state it has reached. *)
Create HintDb typed.
Ltac evaluate :=
  repeat (rewrite ?bind_get, ?bind_modify;
    try match goal with
    | |- context [(lift ?o ≫= _) _] => rewrite bind_lift; destruct o eqn:?; [|solve [eauto 9 with typed]..]
    end).

(** ** memoryFile *)

(** What a method of memoryFile may do to the file. *)
Definition steps_mf {A} (c : MF A) : Prop := ∀ q, mf_steps q.1 (c q).2.1.

Lemma steps_bind {A B} (c : MF A) (k : A → MF B) : steps_mf c → (∀ a, steps_mf (k a)) → steps_mf (c ≫= k).
Proof.
  intros Hc Hk q. specialize (Hc q). unfold mbind, M_bind. destruct (c q) as [[a| | |] q']; try done.
  eapply mf_steps_trans; [exact Hc|apply Hk].
Qed.
Lemma steps_sys {A} (c : M sys A) : steps_mf (mfSys c).
Proof. intros q. unfold mfSys, zoom. destruct (c q.2). apply mf_steps_refl. Qed.
Lemma steps_set f : (∀ mf, mf_steps mf (f mf)) → steps_mf (mfSet f).
Proof. intros Hf q. apply Hf. Qed.
Lemma steps_ret {A} (a : A) : steps_mf (mret a).
Proof. intros q. apply mf_steps_refl. Qed.

Section memfile.
Context `{Platform}.

Lemma steps_unmap (d : option mapping) :
  steps_mf (match d with
            | None => mret tt
            | Some _ => _ ← mfSys syscall; mfSet (set_mf_data None)
            end).
Proof.
  destruct d; [|apply steps_ret].
  apply steps_bind; [apply steps_sys|intros _; apply steps_set, mf_steps_unmap].
Qed.

Lemma steps_map n (c : MF unit) : 0 ≤ n → steps_mf c → steps_mf (_ ← c; mfSet (install n)).
Proof. intros Hn Hc. apply steps_bind; [done|]. intros _. apply steps_set. intros mf. by apply mf_steps_install. Qed.

Lemma steps_truncate n : steps_mf (truncate n).
Proof.
  unfold truncate. intros q. rewrite bind_get. cbv zeta. destruct (_ =? _); [apply mf_steps_refl|].
  refine (steps_bind _ _ (steps_sys _) _ q). intros _.
  apply steps_bind; [apply steps_set; intros mf; by apply mf_steps_same|]. intros _.
  apply steps_bind; [apply steps_unmap|]. intros _. apply steps_map; [|apply steps_sys].
  pose proof (pageRoundUp_min n). pose proof pagesize_ge. lia.
Qed.

Lemma steps_remap : steps_mf remap.
Proof.
  unfold remap. apply steps_bind; [apply steps_sys|]. intros _ q. rewrite bind_get. cbv zeta.
  destruct (_ && _); [apply mf_steps_refl|].
  refine (steps_bind _ _ (steps_unmap _) _ q). intros _. apply steps_map; [lia|].
  destruct (_ =? 0); [intros ?; apply mf_steps_refl|apply steps_sys].
Qed.

Lemma steps_close : steps_mf mf_close.
Proof.
  intros q. unfold mf_close. rewrite bind_get. cbv zeta.
  assert (∀ (c : bool) f, (∀ mf, mf_steps mf (f mf)) → steps_mf
    (if c then fun q => match mfSys syscall q with
                        | (Err e, q') => (Ok (Some e), (f q'.1, q'.2))
                        | (_, q') => (Ok None, (f q'.1, q'.2))
                        end else mret None : MF (option error))) as Hstep.
  { intros c f Hf q'. destruct c; [|apply mf_steps_refl].
    pose proof (steps_sys syscall q') as Hs. destruct (mfSys syscall q') as [[] q2]; cbn [snd fst] in *;
      (eapply mf_steps_trans; [exact Hs|apply Hf]). }
  refine (steps_bind _ _ (Hstep _ _ _) _ q); [intros; apply mf_steps_unmap|]. intros e1.
  apply steps_bind; [apply Hstep; intros; by apply mf_steps_same|]. intros e2 q2.
  destruct e1, e2; apply mf_steps_refl.
Qed.

End memfile.

Lemma poke_steps mf off bs mf' : poke mf off bs = Ok mf' → mf_steps mf mf'.
Proof.
  unfold poke. destruct (mf_readOnly mf); [done|]. destruct (slice _ _ _); [|done..].
  intros [= <-]. by apply mf_steps_same.
Qed.
Lemma copyAt_steps mf off bs r : copyAt mf off bs = Ok r → mf_steps mf r.1.
Proof.
  unfold copyAt. destruct (slice _ _ _); [|done..]. cbv zeta.
  destruct (poke _ _ _) eqn:E; [|done..]. intros [= <-]. by eapply poke_steps.
Qed.

(** ** The struct *)

(** The words of the struct are in their ranges and its slices are sound. *)
Record typed (m : MMKV) : Prop := {
  ty_actual : is_u32 (actualSize m);
  ty_crc : is_u32 (crcDigest m);
  ty_info : meta_wf (info m);
  ty_seconds : is_u32 (expiredSeconds m);
  ty_data : gen_ok (data m);
  ty_dict : map_Forall (fun _ v => slice_typed (data m) v) (dict m);
}.

Lemma typed_data mf m : mf_steps (data m) mf → typed m → typed (set_data mf m).
Proof.
  intros [Hg Hs] []. split; try done; cbn [set_data data dict]; [by apply Hg|].
  intros k v Hv. apply Hs; [done|]. exact (ty_dict0 k v Hv).
Qed.
Lemma typed_dict d m : map_Forall (fun _ v => slice_typed (data m) v) d → typed m → typed (set_dict d m).
Proof. by intros Hd []. Qed.
Lemma typed_actual z m : is_u32 z → typed m → typed (set_actualSize z m).
Proof. by intros Hd []. Qed.
Lemma typed_crc z m : is_u32 z → typed m → typed (set_crcDigest z m).
Proof. by intros Hd []. Qed.
Lemma typed_info mi m : meta_wf mi → typed m → typed (set_info mi m).
Proof. by intros Hd []. Qed.
Lemma typed_full x m : typed m → typed (set_needFullWriteback x m).
Proof. by intros []. Qed.

Lemma u32_zero : is_u32 0.
Proof. done. Qed.

#[export] Hint Resolve u32_zero typed_data typed_dict typed_actual typed_crc typed_info typed_full
  u32_range crc32_Update_range crc32_ChecksumIEEE_range
  poke_steps copyAt_steps mf_steps_trans : typed.
#[export] Hint Extern 1 (typed (_, _).2) => progress cbn [snd] : typed.
#[export] Hint Resolve ty_actual ty_crc ty_info ty_seconds ty_data ty_dict : typed.

Lemma set_crc_actual_wf c a mi : is_u32 c → is_u32 a → meta_wf mi → meta_wf (set_crc_actual c a mi).
Proof. intros ?? []. by split. Qed.

(** The digest and the size, put in the meta struct as well. *)
Lemma typed_sync m :
  typed m → typed (set_info (set_crc_actual (crcDigest m) (actualSize m) (info m)) m).
Proof. intros Hm. apply typed_info; [|done]. apply set_crc_actual_wf; apply Hm. Qed.

Lemma typed_bump m :
  typed m → typed (set_info (bump_confirm (crcDigest m) (actualSize m) (info m)) m).
Proof. intros Hm. apply typed_info; [|done]. by apply bump_confirm_wf; apply Hm. Qed.

Lemma typed_meta mf m : typed m → typed (set_meta mf m).
Proof. by intros []. Qed.

#[export] Hint Resolve set_crc_actual_wf typed_sync bump_confirm_wf typed_bump typed_meta : typed.

(** Fields with no type of their own to keep. *)
Record alike (m m' : MMKV) : Prop := {
  al_actual : actualSize m' = actualSize m;
  al_crc : crcDigest m' = crcDigest m;
  al_info : info m' = info m;
  al_seconds : expiredSeconds m' = expiredSeconds m;
  al_data : data m' = data m;
  al_dict : dict m' = dict m;
}.
Lemma typed_alike m m' : alike m m' → typed m → typed m'.
Proof. intros [] []. split; congruence || (rewrite ?al_data0, ?al_dict0; assumption). Qed.

(** Views of the whole memory, and of a buffer. *)
Lemma mapped_typed mf mp (off n : nat) :
  mf_data mf = Some mp → gen_ok mf → Z.of_nat off + Z.of_nat n ≤ len (memory mf) →
  slice_typed mf (Mapped (map_gen mp) off n).
Proof.
  unfold gen_ok, memory. intros E Hg Hl. unfold slice_typed. rewrite E in *. split; [apply Hg|].
  intros _. rewrite length_take in Hl. lia.
Qed.

Lemma view_typed m (off n : nat) :
  gen_ok (data m) → 0 < Z.of_nat off + Z.of_nat n ≤ len (memory (data m)) →
  slice_typed (data m) (Mapped (dataGen m) off n).
Proof.
  intros Hg Hl. unfold dataGen. destruct (mf_data (data m)) as [mp|] eqn:E.
  - apply mapped_typed; [done..|lia].
  - unfold memory in Hl. rewrite E in Hl. cbn in Hl. lia.
Qed.

Lemma mappedDict_typed m plain vd :
  gen_ok (data m) → vdict_ok plain vd → 4 + len plain ≤ len (memory (data m)) →
  map_Forall (fun _ v => slice_typed (data m) v) (mappedDict (dataGen m) vd).
Proof.
  intros Hg Hv Hl k v Hk. unfold mappedDict in Hk. apply lookup_fmap_Some in Hk as (w&<-&Hw).
  destruct (Hv k w Hw) as (_&?&?). apply view_typed; [done|lia].
Qed.

Lemma heapDict_typed mf plain vd : map_Forall (fun _ v => slice_typed mf v) (heapDict plain vd).
Proof. intros k v Hk. unfold heapDict in Hk. by apply lookup_fmap_Some in Hk as (w&<-&_). Qed.
#[export] Hint Resolve heapDict_typed : typed.

Lemma slice_bounds (l : bytes) lo hi b :
  slice l lo hi = Ok b → 0 ≤ lo ≤ hi ∧ hi ≤ len l ∧ len b = hi - lo.
Proof. intros (?&?&?&->)%slice_inv. rewrite length_sub; lia. Qed.

(** ** Loading *)

Lemma regionOf_inv m a region : regionOf m a = Ok region → 4 + len region ≤ len (memory (data m)).
Proof. unfold regionOf. intros H%slice_bounds. lia. Qed.

Lemma decodeRegion_typed a crc : is_u32 a → is_u32 crc → stable typed (decodeRegion a crc).
Proof.
  intros Ha Hc m Hm. unfold decodeRegion. evaluate. cbn [modify snd].
  apply typed_crc; [done|]. apply typed_actual; [done|]. apply typed_dict; [|done].
  match goal with H : regionOf _ _ = Ok ?r, H2 : parseDict ?p = Ok ?vd |- _ =>
    apply regionOf_inv in H; apply parseDict_ok in H2 end.
  destruct (crypt m); [apply heapDict_typed|]. simplify_eq/=.
  eapply mappedDict_typed; eauto with typed.
Qed.

Lemma salvage_typed : stable typed salvage.
Proof.
  intros m Hm. unfold salvage. evaluate. cbn [modify snd].
  match goal with H : regionOf _ _ = Ok ?r |- _ => apply regionOf_inv in H end.
  apply typed_full, typed_crc; [apply Hm|]. apply typed_actual; [apply Hm|]. apply typed_dict; [|done].
  assert (∀ p, 4 + len p ≤ len (memory (data m)) → map_Forall (fun _ v => slice_typed (data m) v)
    (mappedDict (dataGen m) (parseDictGreedy p))) as Hmd.
  { intros p Hp. eapply mappedDict_typed; eauto using greedy_ok with typed. }
  destruct (crypt m); [destruct (Decrypt _ _ _)|]; auto using heapDict_typed.
Qed.

Lemma loadData_typed : stable typed loadData.
Proof.
  intros m Hm. unfold loadData. evaluate.
  match goal with H : parseMeta _ = Ok _ |- _ => apply parseMeta_wf in H as Hwf end.
  destruct (_ <? _); [by apply typed_info|]. evaluate. cbv zeta.
  set (m1 := set_enableExpire _ _).
  assert (typed m1) as H1 by (eapply (typed_alike (set_info _ m)); [by split|by apply typed_info]).
  assert (is_u32 (readActualSize m1)) as Hact.
  { clearbody m1. unfold readActualSize. destruct (_ <=? _); [apply H1|]. destruct (4 <=? _) eqn:E; [|done].
    bsplit. apply le_val_u32. rewrite length_sub; lia. }
  evaluate. destruct a0; [apply decodeRegion_typed; [done|apply Hwf|done]|].
  evaluate. destruct a0; [evaluate; apply decodeRegion_typed; [apply Hwf..|]|].
  - apply typed_info; [|done]. destruct Hwf. by split.
  - destruct (recover m1); [by apply salvage_typed|]. by destruct H1.
Qed.

(** ** Writing *)

Lemma writeMetaWords_typed : stable typed writeMetaWords.
Proof. intros m Hm. unfold writeMetaWords. evaluate. cbn [modify snd]. by destruct Hm. Qed.

Lemma appendRaw_typed pair : stable typed (appendRaw pair).
Proof.
  intros m Hm. unfold appendRaw. evaluate. apply writeMetaWords_typed, typed_sync.
  match goal with H : poke _ _ _ = Ok _ |- _ => apply poke_steps in H end.
  apply typed_crc; [apply crc32_Update_range, Hm|]. apply typed_actual; [apply u32_range|].
  by apply typed_data.
Qed.

Lemma dataView_inv m lo n v :
  dataView m lo n = Ok v → 0 < lo → gen_ok (data m) → slice_typed (data m) v.
Proof.
  unfold dataView. destruct (slice _ _ _) eqn:E; [|done..]. apply slice_bounds in E.
  intros [= <-] Hlo Hg. apply view_typed; [done|lia].
Qed.

Lemma typed_insert k v m :
  slice_typed (data m) v → typed m → typed (set_dict (<[k := v]> (dict m)) m).
Proof. intros Hv Hm. apply typed_dict; [|done]. apply map_Forall_insert_2; [done|apply Hm]. Qed.

Lemma copyAt_count mf off bs r : copyAt mf off bs = Ok r → 0 ≤ r.2.
Proof.
  unfold copyAt. destruct (slice _ _ _) eqn:E; [|done..]. apply slice_bounds in E. cbv zeta.
  destruct (poke _ _ _); [|done..]. intros [= <-]. cbn [snd]. lia.
Qed.

Lemma overrideRaw_typed k pair n : n ≤ len pair → stable typed (overrideRaw k pair n).
Proof.
  intros Hn m Hm. unfold overrideRaw. evaluate.
  match goal with H : copyAt (data m) _ _ = Ok ?r |- _ => pose proof (copyAt_count _ _ _ _ H) as Hc end.
  apply (stable_bind typed writeMetaWords); [apply writeMetaWords_typed| |].
  - intros _ m2 H2. evaluate. cbn [modify snd]. apply typed_insert; [|done].
    eapply dataView_inv; [done|lia|apply H2].
  - apply typed_sync. eauto 9 with typed.
Qed.

Lemma writeRegion_typed region payload : stable typed (writeRegion region payload).
Proof.
  intros m Hm. unfold writeRegion. evaluate. cbn [modify snd]. apply typed_full.
  repeat match goal with H : poke _ _ _ = Ok _ |- _ => apply poke_steps in H end.
  match goal with |- typed (set_dict _ ?m1) => assert (typed m1) as H1 end.
  { apply typed_meta, typed_bump, typed_crc; [apply crc32_ChecksumIEEE_range|].
    apply typed_actual; [apply u32_range|]. apply typed_data; [by eapply mf_steps_trans|done]. }
  apply typed_dict; [|done].
  match goal with H2 : parseDict ?p = Ok ?vd |- _ => apply parseDict_ok in H2 end.
  cbn [set_meta set_info set_crcDigest set_actualSize set_data crypt] in *.
  destruct (crypt m); [apply heapDict_typed|].
  match goal with H : slice _ 4 (4 + len region) = Ok _ |- _ => apply slice_bounds in H end.
  eapply mappedDict_typed; [apply H1|done|lia].
Qed.

(** ** The methods *)

Definition styped (s : St) : Prop := typed (st s).

Create HintDb stable.

Lemma stable_ret {A} (a : A) : stable styped (mret a).
Proof. by intros s. Qed.
Lemma stable_fail {A} e : stable styped (fail (A := A) e).
Proof. by intros s. Qed.
Lemma stable_lift {A} (o : outcome A) : stable styped (lift o).
Proof. by intros s. Qed.
Lemma stable_this {B} (k : MMKV → M St B) :
  (∀ m, typed m → stable styped (k m)) → stable styped (this ≫= k).
Proof. intros Hk s Hs. by apply Hk. Qed.
Lemma stable_read {B} (k : St → M St B) :
  (∀ s, stable styped (k s)) → stable styped (get ≫= k).
Proof. intros Hk s Hs. by apply Hk. Qed.
Lemma stable_lift_bind {A B} (o : outcome A) (k : A → M St B) :
  (∀ a, o = Ok a → stable styped (k a)) → stable styped (lift o ≫= k).
Proof. intros Hk s Hs. rewrite bind_lift. destruct o; [by apply Hk|done..]. Qed.
Lemma stable_upd f : (∀ m, typed m → typed (f m)) → stable styped (upd f).
Proof. intros Hf s Hs. by apply Hf. Qed.
Lemma stable_onStore {A} (c : M MMKV A) : stable typed c → stable styped (onStore c).
Proof. intros Hc. apply stable_zoom. intros s Hs. by apply Hc. Qed.
Lemma stable_onSys {A} (c : M sys A) : stable styped (onSys c).
Proof. by apply stable_zoom. Qed.
Lemma stable_onLock {A} (c : FL A) : stable styped (onLock c).
Proof. apply stable_zoom. intros s Hs. eapply typed_alike; [|exact Hs]. by split. Qed.
Lemma stable_onMeta {A} (c : MF A) : stable styped (onMeta c).
Proof. apply stable_zoom. intros s Hs. by apply typed_meta. Qed.
Lemma stable_onData {A} (c : MF A) : steps_mf c → stable styped (onData c).
Proof. intros Hc. apply stable_zoom. intros s Hs. apply typed_data; [apply (Hc (_, _))|done]. Qed.
Lemma stable_recordErr c : stable styped c → stable styped (recordErr c).
Proof.
  intros Hc s Hs. specialize (Hc s Hs). unfold recordErr. destruct (c s) as [[] s']; try done.
  eapply typed_alike; [|exact Hc]. by split.
Qed.

#[export] Hint Resolve stable_ret stable_fail stable_lift stable_ignore stable_deferring
  stable_onStore stable_onSys stable_onLock stable_onMeta stable_onData stable_recordErr
  stable_upd : stable.
#[export] Hint Resolve loadData_typed appendRaw_typed writeRegion_typed
  decodeRegion_typed steps_truncate steps_remap steps_sys steps_close : stable.

(** The parts of a method, and both branches of its conditions. *)
#[export] Hint Extern 3 (typed (_ _)) => (eapply typed_alike; [|eassumption]; by split) : stable.
Ltac stable :=
  repeat first
    [ progress intros
    | progress cbv zeta
    | match goal with
      | |- stable _ (this ≫= _) => apply stable_this
      | |- stable _ (get ≫= _) => apply stable_read
      | |- stable _ (lift _ ≫= _) => apply stable_lift_bind
      | |- stable _ (_ ≫= _) => apply stable_bind
      | |- stable _ (deferring _ _) => apply stable_deferring
      | |- stable _ (if ?b then _ else _) => destruct b
      | |- stable _ (match ?x with _ => _ end) => destruct x
      end
    | solve [eauto 8 with stable typed] ].

Section methods.
Context `{Platform}.

Lemma msync_typed b : steps_mf (msync b).
Proof. apply steps_sys. Qed.
#[local] Hint Resolve msync_typed : stable.

Lemma whenMulti_typed c : stable styped (whenMulti c).
Proof. unfold whenMulti. stable. Qed.

#[local] Hint Resolve whenMulti_typed : stable.

Lemma reloadBestEffort_typed b : stable styped (reloadBestEffort b).
Proof. unfold reloadBestEffort. apply stable_recordErr. stable. Qed.
Lemma notifyChanged_typed : stable styped notifyChanged.
Proof. unfold notifyChanged. stable. Qed.
#[local] Hint Resolve reloadBestEffort_typed notifyChanged_typed : stable.

Lemma checkLoadData_typed : stable styped checkLoadData.
Proof. unfold checkLoadData. stable. Qed.
#[local] Hint Resolve checkLoadData_typed : stable.

Lemma exclusively_typed {A} (c : M St A) : stable styped c → stable styped (exclusively c).
Proof. unfold exclusively, lockExclusive, unlockExclusive. intros. stable. Qed.
Lemma sharedly_typed {A} (c : M St A) : stable styped c → stable styped (sharedly c).
Proof. unfold sharedly, lockShared, unlockShared. intros. stable. Qed.
#[local] Hint Resolve exclusively_typed sharedly_typed : stable.

Lemma writing_typed {A} (c : M St A) : stable styped c → stable styped (writing c).
Proof. intros. unfold writing, writingElse. apply exclusively_typed. stable. Qed.

Lemma reading_typed {A} (z : A) f : stable styped (reading z f).
Proof. unfold reading. apply sharedly_typed. stable. Qed.

(** ** Packing *)

Lemma set_iv_wf iv mi : length iv = 16%nat → meta_wf mi → meta_wf (set_iv iv mi).
Proof. intros ? []. by split. Qed.

Lemma randomIV_length s iv : (onSys randomIV s).1 = Ok iv → length iv = 16%nat.
Proof.
  unfold onSys, randomIV, zoom, mbind, M_bind, get, modify, mret, M_ret.
  match goal with |- context [syscall ?e] => destruct (syscall e) as [[] e'] end;
    intros E; inversion E. apply length_fit.
Qed.

Lemma makePayload_typed region : stable styped (makePayload region).
Proof.
  unfold makePayload. apply stable_this. intros m Hm. destruct (crypt m); [|stable].
  apply (stable_bind_val styped (fun iv => length iv = 16%nat)); [stable|intros; by eapply randomIV_length|].
  intros iv Hiv. stable. apply stable_upd. intros m' Hm'. apply typed_info; [|done].
  apply set_iv_wf; [done|apply Hm'].
Qed.
#[local] Hint Resolve makePayload_typed : stable.

Lemma ensureRoom_typed needSync incoming n : stable styped (ensureRoom needSync incoming n).
Proof. unfold ensureRoom. stable. Qed.
#[local] Hint Resolve ensureRoom_typed : stable.

Lemma fullWritebackGrow_typed needSync incoming : stable styped (fullWritebackGrow needSync incoming).
Proof. unfold fullWritebackGrow. stable. Qed.
#[local] Hint Resolve fullWritebackGrow_typed : stable.
Lemma fullWriteback_typed : stable styped fullWriteback.
Proof. unfold fullWriteback. apply fullWritebackGrow_typed. Qed.
#[local] Hint Resolve fullWriteback_typed : stable.

Lemma bind_this {B} (k : MMKV → M St B) s : (this ≫= k) s = k (st s) s.
Proof. done. Qed.
Lemma bind_upd {B} f (k : unit → M St B) s : (upd f ≫= k) s = k tt (set_st (f (st s)) s).
Proof. done. Qed.

(** A value cut from the current mapping goes into the dictionary. *)
Lemma insertView_typed k lo n :
  0 < lo →
  stable styped (m ← this; v ← lift (dataView m lo n); upd (fun m => set_dict (<[k := v]> (dict m)) m)).
Proof.
  intros Hlo s Hs. rewrite bind_this, bind_lift. destruct (dataView _ _ _) eqn:E; [|done..].
  apply typed_insert; [|done]. eapply dataView_inv; [done|done|apply Hs].
Qed.

Lemma pair_len (k : gostring) (blob : bytes) :
  len blob ≤ len (obuf (writeData (writeData emptyOutput k) blob)).
Proof. rewrite obuf_writeData, length_app. unfold field. rewrite length_app. lia. Qed.

Lemma setBlob_typed k blob : stable styped (setBlob k blob).
Proof.
  unfold setBlob. apply stable_this. intros m Hm. cbv zeta.
  destruct (_ && _).
  { by apply stable_onStore, overrideRaw_typed, pair_len. }
  destruct (_ && _).
  - apply stable_bind; [stable|]. intros _. apply insertView_typed.
    pose proof (ty_actual _ Hm). pose proof (pair_len k blob). unfold is_u32 in *. lia.
  - apply stable_bind; [|stable]. apply stable_upd. intros m' Hm'. by apply typed_insert.
Qed.
#[local] Hint Resolve setBlob_typed writing_typed reading_typed : stable.

Lemma setValueLocked_typed k blob : stable styped (setValueLocked k blob).
Proof. unfold setValueLocked. stable. Qed.
#[local] Hint Resolve setValueLocked_typed : stable.

(** ** Removing, clearing, trimming *)

Lemma deleteKeys_sub ks b d : (deleteKeys ks b d).2 ⊆ d.
Proof.
  revert b d. induction ks as [|k ks IH]; intros b d; cbn [deleteKeys]; [done|].
  destruct (d !! k); [|apply IH]. etransitivity; [apply IH|]. apply delete_subseteq.
Qed.

Lemma typed_sub d m : d ⊆ dict m → typed m → typed (set_dict d m).
Proof.
  intros Hd Hm. apply typed_dict; [|done]. intros k v Hk. eapply ty_dict; [done|]. by eapply lookup_weaken.
Qed.
Lemma typed_delete k m : typed m → typed (set_dict (delete k (dict m)) m).
Proof. apply typed_sub, delete_subseteq. Qed.
Lemma typed_empty m : typed m → typed (set_dict ∅ m).
Proof. apply typed_sub, map_empty_subseteq. Qed.
#[local] Hint Resolve typed_delete typed_empty : stable.

Lemma RemoveValueForKey_typed k : stable styped (RemoveValueForKey k).
Proof. unfold RemoveValueForKey. apply writing_typed. stable. Qed.

Lemma RemoveValuesForKeys_typed ks : stable styped (RemoveValuesForKeys ks).
Proof.
  unfold RemoveValuesForKeys. apply writing_typed. intros s Hs. rewrite bind_this. cbv zeta.
  rewrite bind_upd. destruct (negb _).
  - apply typed_sub; [apply deleteKeys_sub|done].
  - apply fullWriteback_typed. apply typed_sub; [apply deleteKeys_sub|done].
Qed.

(** The rest of a method, from the state it has reached. *)
Ltac onward :=
  match goal with |- styped (?c _).2 => enough (stable styped c) as Hrest; [apply Hrest|] end.

Lemma clearAllLocked_typed : stable styped clearAllLocked.
Proof.
  unfold clearAllLocked. apply stable_bind; [stable|]. intros _ s Hs. rewrite bind_this, bind_lift.
  destruct (poke _ _ _) as [d| | |] eqn:E; [|done..]. rewrite bind_upd. onward.
  { eapply typed_data, Hs. by eapply poke_steps. }
  stable.
Qed.
#[local] Hint Resolve clearAllLocked_typed : stable.

Lemma ClearAll_typed : stable styped ClearAll.
Proof. unfold ClearAll. stable. Qed.

Lemma shrink_typed : stable styped shrink.
Proof.
  unfold shrink. stable.
Qed.
#[local] Hint Resolve shrink_typed : stable.

Lemma Trim_typed : stable styped Trim.
Proof. unfold Trim. apply writing_typed. stable. Qed.

Lemma syncFlush_typed b : stable styped (syncFlush b).
Proof. unfold syncFlush. apply exclusively_typed. stable. Qed.

(** ** Expiration and keys *)

Lemma heap_typed {A} mf (f : A → bytes) (d : kmap A) :
  map_Forall (fun _ v => slice_typed mf v) ((fun x => Heap (f x)) <$> d).
Proof. intros k v Hk. by apply lookup_fmap_Some in Hk as (x&<-&_). Qed.

Lemma addNever_typed mf d d' mf' : addNever mf d = Ok d' → map_Forall (fun _ v => slice_typed mf' v) d'.
Proof.
  unfold addNever. destruct (derefDict mf d); [|done..]. intros [= <-].
  apply (heap_typed _ (fun v => v ++ zeros 4)).
Qed.

Lemma mapM_Forall {A B} (f : A → outcome B) (P : B → Prop) l k :
  (∀ a b, f a = Ok b → P b) → mapM f l = Ok k → Forall P k.
Proof.
  intros Hf. revert k. induction l as [|a l IH]; cbn; intros k; [by intros [= <-]|].
  destruct (f a) as [b| | |] eqn:E; [|done..]. cbn. destruct (mapM f l) as [k'| | |]; [|done..].
  cbn. intros [= <-]. constructor; eauto.
Qed.

Lemma stripAll_typed m t mf d : stripAll m t = Ok d → map_Forall (fun _ v => slice_typed mf v) d.
Proof.
  unfold stripAll. intros E. destruct (mapM _ _) as [l| | |] eqn:El; [|done..]. injection E as <-.
  apply (mapM_Forall _ (fun e => from_option (slice_typed mf) True e.2)) in El.
  - intros k v. rewrite lookup_omap_Some. intros (x&Hx&Hk). unfold id in Hx. subst x.
    apply elem_of_list_to_map_2 in Hk. rewrite Forall_forall in El. exact (El _ Hk).
  - intros e b. cbn. destruct (value _ _ _) as [[w|]| | |]; cbn; [|by intros [= <-]|done..].
    destruct (deref _ _); [|done..]. by intros [= <-].
Qed.

Lemma set_flags_wf f mi : is_u64 f → meta_wf mi → meta_wf (set_flags f mi).
Proof. intros ? []. by split. Qed.

Lemma lor_flag f : is_u64 f → is_u64 (Z.lor f flagEnableExpire).
Proof. intros Hf. by apply lor_bound. Qed.

Lemma ldiff_flag f : is_u64 f → is_u64 (Z.ldiff f flagEnableExpire).
Proof. intros Hf. by apply ldiff_bound. Qed.

Lemma typed_seconds n m : is_u32 n → typed m → typed (set_expiredSeconds n m).
Proof. by intros ? []. Qed.
#[local] Hint Resolve set_flags_wf lor_flag ldiff_flag typed_seconds wf_flags : typed.

#[local] Hint Resolve addNever_typed stripAll_typed : typed.

Lemma EnableAutoKeyExpire_typed n : is_u32 n → stable styped (EnableAutoKeyExpire n).
Proof.
  intros Hn. unfold EnableAutoKeyExpire. apply writing_typed. stable.
Qed.

Lemma DisableAutoKeyExpire_typed : stable styped DisableAutoKeyExpire.
Proof. unfold DisableAutoKeyExpire. apply writing_typed. stable. Qed.

Lemma ReKey_typed newKey : stable styped (ReKey newKey).
Proof.
  unfold ReKey. apply writing_typed. stable. intros s Hs. unfold onErr.
  pose proof (fullWriteback_typed s Hs) as Hw. destruct (fullWriteback s) as [[] s']; try done.
  eapply typed_alike; [|exact Hw]. by split.
Qed.

(** ** Opening and closing *)

Lemma firstErr_typed c d : stable styped c → stable styped d → stable styped (firstErr c d).
Proof.
  intros Hc Hd s Hs. unfold firstErr. specialize (Hc s Hs).
  destruct (c s) as [[] s1]; cbn [snd] in Hc; specialize (Hd s1 Hc); try done.
  by destruct (d s1).
Qed.

Lemma closeMeta_typed : stable styped closeMeta.
Proof.
  intros s Hs. unfold closeMeta. pose proof (stable_onMeta mf_close s Hs) as Hc.
  destruct (onMeta mf_close s) as [o s']. by destruct (mf_open _).
Qed.

Lemma Close_typed : stable styped Close.
Proof.
  unfold Close. stable. apply firstErr_typed; [stable|apply closeMeta_typed].
Qed.

Lemma ClearMemoryCache_typed : stable styped ClearMemoryCache.
Proof. unfold ClearMemoryCache. stable. Qed.

(** A file that has just been mapped. *)
Lemma bind_inv_val {S A B} (c : M S A) (k : A → M S B) s b :
  ((c ≫= k) s).1 = Ok b → ∃ a s1, (k a s1).1 = Ok b ∧ c s = (Ok a, s1).
Proof. unfold mbind, M_bind. destruct (c s) as [[a| | |] s1]; naive_solver. Qed.

Lemma openMemoryFile_gen n q mf : (openMemoryFile n q).1 = Ok mf → gen_ok mf.
Proof.
  unfold openMemoryFile. intros E. cbv zeta in E.
  do 4 (apply bind_inv_val in E as (?&?&E&?)). apply bind_inv_val in E as (size&?&E&Hs).
  assert (0 ≤ size) as Hsize.
  { pose proof (pageRoundUp_min n). pose proof pagesize_ge.
    destruct (_ <? _) in Hs; [|injection Hs as <- <-; lia].
    do 2 (apply bind_inv_ok in Hs as (?&?&_&Hs)). injection Hs as <- <-. lia. }
  do 2 (apply bind_inv_val in E as (?&?&E&?)). injection E as <-. cbn. lia.
Qed.

Lemma openMemoryFileReadOnly_gen q mf : (openMemoryFileReadOnly q).1 = Ok mf → gen_ok mf.
Proof.
  unfold openMemoryFileReadOnly. intros E. cbv zeta in E.
  do 2 (apply bind_inv_val in E as (?&?&E&?)). match type of E with context [match ?x with _ => _ end] => destruct x as [file|] end; [|done].
  apply bind_inv_val in E as (?&?&E&?). destruct (_ <=? _) in E; [done|].
  apply bind_inv_val in E as (?&?&E&?). injection E as <-. cbn. lia.
Qed.

(** Before the files are in the struct, and with them. *)
Definition bare (o : Opening) : Prop := typed (st (op_st o)) ∧ dict (st (op_st o)) = ∅.
Definition otyped (o : Opening) : Prop := typed (st (op_st o)).

Lemma stable_onSt {A} (c : M St A) : stable styped c → stable otyped (onSt c).
Proof. intros Hc. apply stable_zoom. intros o Ho. by apply Hc. Qed.

Lemma adopt_typed d mt o : gen_ok d → bare o → otyped (onSt (adopt d mt) o).2.
Proof.
  intros Hd [Hm He]. unfold otyped. cbn. destruct Hm. split; try done.
  cbn. intros k v. change (dict (st (op_st o)) !! k = Some v → slice_typed d v). by rewrite He.
Qed.

(** [I] holds until the files are in the struct, then [J]. *)
Lemma stable_then {S A B} (I J : S → Prop) (c : M S A) (k : A → M S B) :
  (∀ s, I s → J s) → stable I c →
  (∀ s a, (c s).1 = Ok a → ∀ s', I s' → J (k a s').2) → ∀ s, I s → J ((c ≫= k) s).2.
Proof.
  intros HIJ Hc Hk s Hs. pose proof (Hc s Hs) as H1. specialize (Hk s). unfold mbind, M_bind.
  destruct (c s) as [[a| | |] s1]; cbn [snd] in *; eauto.
Qed.

Lemma bare_otyped o : bare o → otyped o.
Proof. by intros []. Qed.

Lemma openData_bare c : stable bare (openData c).
Proof. intros o Ho. unfold openData. by destruct (c _) as [r [f e]]. Qed.
Lemma openMeta_bare c : stable bare (openMeta c).
Proof. intros o Ho. unfold openMeta. by destruct (c _) as [r [f e]]. Qed.
Lemma openSecond_bare d c : stable bare c → stable bare (openSecond d c).
Proof.
  intros Hc o Ho. specialize (Hc o Ho). unfold openSecond. destruct (c o) as [[] o']; try done.
  cbn [snd] in Hc. unfold onSt, zoom, closeFile, mbind, M_bind. by destruct (mf_close _) as [? [? ?]].
Qed.

Lemma openData_result c o d : (openData c o).1 = Ok d → ∃ q, (c q).1 = Ok d.
Proof. unfold openData. intros E. eexists. destruct (c _) as [r [f e]] eqn:Ec. by rewrite Ec. Qed.

(** Both files opened, adopted and loaded. *)
Lemma openPair_typed od om (rest : M Opening unit) :
  (∀ q d, (od q).1 = Ok d → gen_ok d) → stable otyped rest →
  ∀ o, bare o → otyped ((d ← openData od; mt ← openSecond d (openMeta om);
                          _ ← onSt (adopt d mt); rest) o).2.
Proof.
  intros Hod Hrest o Ho. revert o Ho. apply stable_then; [apply bare_otyped|apply openData_bare|].
  intros s d (q&Hd%Hod)%openData_result.
  apply stable_then; [apply bare_otyped|apply openSecond_bare, openMeta_bare|].
  intros _ mt _ o Ho. pose proof (adopt_typed d mt o Hd Ho) as Ha.
  exact (Hrest _ Ha).
Qed.

Lemma repair_typed : stable styped repair.
Proof. unfold repair. stable. Qed.

Lemma openFiles_typed o : bare o → otyped (openFiles o).2.
Proof.
  revert o. unfold openFiles. apply stable_then; [apply bare_otyped| |].
  { apply stable_zoom. intros o [Ho He]. by split. }
  intros _ m _ o Ho.
  destruct (readOnly m).
  - apply openPair_typed; [apply openMemoryFileReadOnly_gen| |done]. apply stable_onSt. stable.
  - revert o Ho. apply stable_then; [apply bare_otyped| |].
    + apply stable_zoom. intros o [Ho He]. unfold onSys, zoom. by destruct (syscall _).
    + intros _ _ _. apply openPair_typed; [apply openMemoryFile_gen|].
      apply stable_bind; [apply stable_onSt; stable|]. intros _. apply stable_onSt, repair_typed.
Qed.

Lemma newMMKV_typed root id key multi ro cryptKey handler recov :
  typed (newMMKV root id key multi ro cryptKey handler recov).
Proof. split; done. Qed.

Lemma open_typed m0 e dfile mfile :
  typed m0 → dict m0 = ∅ → typed (st (open dfile mfile (mkSt m0 e)).2).
Proof.
  intros Hm He. pose proof (openFiles_typed (mkOpening (mkSt m0 e) dfile mfile)) as Ho.
  unfold open. destruct (openFiles _) as [r o]. apply Ho. by split.
Qed.

(** ** Every operation *)

Definition op_typed (o : op) : Prop :=
  match o with OEnableExpire seconds => is_u32 seconds | _ => True end.

Lemma run_typed o : op_typed o → stable styped (run o).
Proof.
  destruct o; cbn; intros Ho.
  - unfold setValue. apply writing_typed, setValueLocked_typed.
  - apply RemoveValueForKey_typed.
  - apply RemoveValuesForKeys_typed.
  - apply ClearAll_typed.
  - apply Trim_typed.
  - apply ReKey_typed.
  - by apply EnableAutoKeyExpire_typed.
  - apply DisableAutoKeyExpire_typed.
Qed.

(** A view of the current mapping reads, whatever was done. *)
Lemma typed_reads m k g off n :
  typed m → mf_ok (data m) → dict m !! k = Some (Mapped g off n) → dataGen m = g →
  ∃ b, deref (data m) (Mapped g off n) = Ok b.
Proof.
  intros Hm Hok Hk Hg. pose proof (ty_dict _ Hm _ _ Hk) as [_ Hs].
  destruct (mf_ok_data _ Hok) as [g' Hd]. unfold dataGen, deref in *. rewrite Hd in *. cbn [map_gen map_len] in *.
  subst g'. rewrite Nat.eqb_refl. specialize (Hs eq_refl). unfold slice. rewrite memory_ok by done.
  pose proof (mf_ok_size _ Hok). do 3 btrue. eauto.
Qed.
End methods.

(** ** Loading does not run out of fuel *)

Lemma slice_ends {A} (l : list A) lo hi : slice l lo hi ≠ NoFuel.
Proof. unfold slice. by destruct (_ && _). Qed.

Lemma bind_ends {S A B} (c : M S A) (k : A → M S B) s :
  (c s).1 ≠ NoFuel → (∀ a s', (k a s').1 ≠ NoFuel) → ((c ≫= k) s).1 ≠ NoFuel.
Proof. intros Hc Hk. unfold mbind, M_bind. destruct (c s) as [[a| | |] s']; [apply Hk|done..]. Qed.

Lemma decrypt_ends a ct iv : Decrypt a ct iv ≠ NoFuel.
Proof. unfold Decrypt. by destruct (_ <? _). Qed.

Lemma parseDict_ends plain : parseDict plain ≠ NoFuel.
Proof. pose proof (parseDict_spec plain) as Hp. by destruct (parseDict plain). Qed.

Lemma decodeRegion_ends a crc m : (decodeRegion a crc m).1 ≠ NoFuel.
Proof.
  unfold decodeRegion. rewrite bind_get. apply bind_ends; [apply slice_ends|]. intros region m1.
  apply bind_ends; [destruct (crypt m); [apply decrypt_ends|done]|]. intros plain m2.
  apply bind_ends; [apply parseDict_ends|done].
Qed.

Lemma acceptable_ends m a crc : acceptable m a crc ≠ NoFuel.
Proof.
  unfold acceptable, crcValid, regionOf. destruct (_ && _); [|done].
  pose proof (slice_ends (memory (data m)) 4 (u32 (4 + a))). by destruct (slice _ _ _).
Qed.

Lemma loadData_ends m : (loadData m).1 ≠ NoFuel.
Proof.
  unfold loadData. rewrite bind_get. apply bind_ends.
  { cbn. unfold parseMeta. by destruct (_ <? _). }
  intros mi m1. rewrite bind_modify. destruct (_ <? _); [done|]. rewrite bind_modify, bind_get. cbv zeta.
  apply bind_ends; [apply acceptable_ends|]. intros good m2. destruct good; [apply decodeRegion_ends|].
  apply bind_ends; [apply acceptable_ends|]. intros rollback m3. destruct rollback.
  { rewrite bind_modify. apply decodeRegion_ends. }
  destruct (recover _); [|done]. unfold salvage. rewrite bind_get. cbv zeta.
  apply bind_ends; [apply slice_ends|done].
Qed.
