(* ===== verification/Import.v ===== *)
(** * Importing from another instance (mmkv_io.go, ImportFrom)

    The live pairs of the source are copied under its shared lock; then they are
    set in the destination, under its exclusive lock and by its own policy.  The
    two instances are two states; no lock is held on both at once. *)

From S2P Require Import Prelude GoInt Wire Crc32 Meta Dict Crypt MemFile Flock Store StoreOps.
From S2P Require Import StoreInv StoreWrite StoreRun Handlers Recovery Api ApiSpec Refine.

(** The order in which a [range] statement visits the keys of a map: any. *)
Class MapOrder := {
  range : kmap gslice → list gostring;
  range_perm d : range d ≡ₚ (map_to_list d).*1;
}.

(** What the caller passes: nil, the instance itself, or another one. *)
Inductive instanceRef := Nil | Self | Other.

Section code.
Context `{Platform} `{MapOrder}.

(** The loop of the export: the live values of the keys, copied. *)
Fixpoint liveCopies (m : MMKV) (nowUnix : Z) (keys : list gostring)
    : outcome (list (gostring * bytes)) :=
  match keys with
  | [] => Ok []
  | k :: keys =>
      v ← value m nowUnix k;
      kv ← (match v with None => Ok [] | Some s => b ← deref (data m) s; Ok [(k, b)] end);
      rest ← liveCopies m nowUnix keys;
      Ok (kv ++ rest)
  end.

(** The first half, on the source; [None] when it is closed. *)
Definition exportLive : M St (option (list (gostring * bytes))) :=
  _ ← lockShared;
  m ← this;
  if closed m then _ ← unlockShared; mret None
  else
    _ ← checkLoadData;
    s ← get;
    kv ← lift (liveCopies (st s) (now (env s)) (range (dict (st s))));
    _ ← unlockShared;
    mret (Some kv).

(** The loop of the second half: the number of pairs set, and the error that
    stopped it. *)
Fixpoint importLoop (kv : list (gostring * bytes)) (n : Z) : M St (Z * option error) :=
  match kv with
  | [] => mret (n, None)
  | (k, v) :: kv => fun s =>
      match setValueLocked k v s with
      | (Ok _, s') => importLoop kv (n + 1) s'
      | (Err e, s') => (Ok (n, Some e), s')
      | (Panic, s') => (Panic, s')
      | (NoFuel, s') => (NoFuel, s')
      end
  end.

(** [m.ImportFrom(src)], on the pair of the two instances. *)
Definition onDst {A} (c : M St A) : M (St * St) A := zoom fst (fun d p => (d, p.2)) c.
Definition onSrc {A} (c : M St A) : M (St * St) A := zoom snd (fun s p => (p.1, s)) c.

Definition ImportFrom (src : instanceRef) : M (St * St) (Z * option error) :=
  match src with
  | Nil | Self => mret (0, None)
  | Other =>
      kv ← onSrc exportLive;
      match kv with
      | None => mret (0, Some ErrClosed)
      | Some kv =>
          onDst (writingElse (mret (0, Some ErrClosed)) (mret (0, Some ErrReadOnly)) (importLoop kv 0))
      end
  end.

(** ** The export *)

(** The live pairs of a map, in some order. *)
Definition lists (b : bdict) (kv : list (gostring * bytes)) : Prop := kv ≡ₚ map_to_list b.

Lemma liveCopies_ok s b m keys :
  store_ok m b → enableExpire m = enableExpire (st s) →
  liveCopies m (now (env s)) keys
  = Ok (omap (fun k => (fun v => (k, v)) <$> seen s b !! k) keys).
Proof.
  intros Hs Hx. induction keys as [|k keys IH]; [done|]. cbn [liveCopies]. rewrite IH.
  pose proof (seen_value s b k m Hs Hx) as Hv. cbn [omap list_omap].
  destruct (seen s b !! k) as [v|]; [|by rewrite Hv].
  destruct Hv as (x&->&Hd). cbn [mbind outcome_bind]. by rewrite Hd.
Qed.

(** Looking the keys of a map up in a smaller one lists the smaller one. *)
Lemma omap_keys {A} (d : kmap A) (c : bdict) keys :
  keys ≡ₚ (map_to_list d).*1 → (∀ k, is_Some (c !! k) → is_Some (d !! k)) →
  lists c (omap (fun k => (fun v => (k, v)) <$> c !! k) keys).
Proof.
  intros Hp Hsub. apply NoDup_Permutation.
  - assert (NoDup keys) as Hn by (rewrite Hp; apply NoDup_fst_map_to_list). clear Hp.
    induction Hn as [|k keys Hk Hn IH]; [constructor|]. cbn.
    destruct (c !! k) as [v|]; cbn; [|done]. constructor; [|done].
    intros (j&Hj&E)%list_elem_of_omap. destruct (c !! j); [|done]. by injection E as -> _.
  - apply NoDup_map_to_list.
  - intros [k v]. rewrite elem_of_map_to_list, list_elem_of_omap. split.
    + intros (j&_&E). destruct (c !! j) eqn:Ej; [|done]. by injection E as <- <-.
    + intros Hk. exists k. rewrite Hk. split; [|done]. rewrite Hp.
      destruct (Hsub k) as [x Hx]; [eauto|]. apply list_elem_of_fmap. exists (k, x).
      by rewrite elem_of_map_to_list.
Qed.

Lemma unlockShared_no_err s e : (unlockShared s).1 ≠ Err e.
Proof.
  unfold unlockShared, whenMulti. erewrite bind_ok by reflexivity.
  destruct (multiProcess (st s)); [|done]. unfold ignore. by destruct (onLock _ s) as [[]].
Qed.

(** On an open instance the export is a reading method. *)
Lemma exportLive_reading s kv s' :
  closed (st s) = false →
  reading [] (fun m t => liveCopies m t (range (dict m))) s = (Ok kv, s') →
  exportLive s = (Ok (Some kv), s').
Proof.
  intros Hc. unfold reading, sharedly, exportLive.
  intros ([]&s1&Hl&Hrest)%bind_inv_ok. erewrite bind_ok by exact Hl.
  assert (closed (st s1) = false) as Hc1.
  { revert Hl. unfold lockShared, whenMulti. erewrite bind_ok by reflexivity.
    destruct (multiProcess (st s)); [|by intros [= <-]].
    unfold ignore, onLock, zoom. destruct (lock _ _) as [[]]; intros [= <-]; done. }
  unfold deferring in Hrest. revert Hrest. rewrite !(bind_ok this _ s1 (st s1) s1 eq_refl), Hc1.
  destruct ((_ ← checkLoadData; s ← get; lift _) s1) as [[l| | |] s2] eqn:E; try done.
  2: by destruct (unlockShared s2) as [[]].
  apply bind_inv_ok in E as ([]&s3&Hck&E). erewrite bind_ok by exact Hck.
  apply bind_inv_ok in E as (s4&s5&Hg&E). injection Hg as <- <-. erewrite bind_ok by reflexivity.
  unfold lift in E |- *. injection E as E <-. erewrite bind_ok by (rewrite E; reflexivity).
  pose proof (unlockShared_no_err s3) as Hne. unfold mbind, M_bind.
  destruct (unlockShared s3) as [[[]|e| |] s4]; [by intros [= <- <-]| |done..].
  by destruct (Hne e).
Qed.

Lemma exportLive_ok s b :
  running s b →
  ∃ kv s', exportLive s = (Ok (Some kv), s') ∧ lists (seen s b) kv ∧ running s' b
    ∧ same_config (st s) (st s') ∧ quiet (env s) (env s').
Proof.
  intros Hr.
  destruct (reading_gen (lists (seen s b)) [] (fun m t => liveCopies m t (range (dict m))) s b Hr)
    as (kv&s'&Hrd&Hkv&Hr'&Hcfg&Hq&_).
  { intros m Hs Hx _. eexists. split; [by apply liveCopies_ok|].
    apply (omap_keys (dict m)); [apply range_perm|]. intros k [v Hv].
    rewrite (dict_shows_dom (data m) (dict m) b k (di_shows _ _ (so_dict _ _ Hs))).
    unfold seen in Hv. rewrite lookup_omap in Hv. by destruct (b !! k). }
  exists kv, s'. split; [|done]. apply exportLive_reading; [apply Hr|done].
Qed.

(** ** The import *)

(** The pairs as the destination stores them, and how long they are. *)
Definition asStored (s : St) (kv : list (gostring * bytes)) : list (gostring * bytes) :=
  (fun e => (e.1, stored s e.2)) <$> kv.

Lemma stored_same s s' v :
  same_config (st s) (st s') → now (env s') = now (env s) → stored s' v = stored s v.
Proof. intros Hc Hn. unfold stored. by rewrite (sc_expire _ _ Hc), (sc_seconds _ _ Hc), Hn. Qed.

Lemma stored_nonempty s v : v ≠ [] → stored s v ≠ [].
Proof. unfold stored, appendExpire. destruct (enableExpire (st s)); [by destruct v|done]. Qed.

Lemma expire_flags s s' :
  same_config (st s) (st s') → enableExpire (st s) = expireEnabled (info (st s)) →
  enableExpire (st s') = expireEnabled (info (st s')).
Proof.
  intros Hc Hx. rewrite (sc_expire _ _ Hc), Hx. unfold expireEnabled. by rewrite (sc_flags _ _ Hc).
Qed.

(** A set inside a write: what the loop needs of each round. *)
Lemma set_round s b k v w :
  store_ok (st s) b → healthy (env s) → enableExpire (st s) = expireEnabled (info (st s)) →
  k ≠ [] → v ≠ [] →
  4 + Z.max (actualSize (st s)) (len (packed b) + w) + w < 2 ^ 32 →
  len (pair_bytes (k, stored s v)) ≤ w →
  ∃ s', setValueLocked k v s = (Ok tt, s') ∧ store_ok (st s') (<[k := stored s v]> b)
    ∧ same_config (st s) (st s') ∧ quiet (env s) (env s') ∧ (settled (st s) → settled (st s'))
    ∧ actualSize (st s') ≤ Z.max (actualSize (st s)) (len (packed b) + w) + len (pair_bytes (k, stored s v)).
Proof.
  intros Hs He Hx Hk Hv Hb Hw. pose proof (packed_insert b k (stored s v)) as Hi.
  destruct (setValueLocked_ok s b k v Hs) as (s'&?&?&?&?&?&Hg); [|done|].
  - split; [apply pair_entry_ok; [done|lia]|by apply stored_nonempty|lia|lia|done].
  - exists s'. pose proof (gr_size _ _ _ _ Hg). split_and!; try done. lia.
Qed.

Lemma importLoop_ok kv n s b :
  store_ok (st s) b → healthy (env s) → enableExpire (st s) = expireEnabled (info (st s)) →
  Forall (fun e => e.1 ≠ [] ∧ e.2 ≠ []) kv → NoDup kv.*1 →
  let w := len (log_bytes (asStored s kv)) in
  4 + Z.max (actualSize (st s)) (len (packed b) + w) + w < 2 ^ 32 →
  ∃ s', importLoop kv n s = (Ok (n + len kv, None), s')
    ∧ store_ok (st s') (list_to_map (asStored s kv) ∪ b)
    ∧ same_config (st s) (st s') ∧ quiet (env s) (env s') ∧ (settled (st s) → settled (st s'))
    ∧ actualSize (st s') ≤ Z.max (actualSize (st s)) (len (packed b) + w) + w.
Proof.
  intros Hs He Hx Hkv. revert n s b Hs He Hx.
  induction Hkv as [|[k v] kv [Hk Hv] _ IH]; intros n s b Hs He Hx Hnd w Hb.
  { exists s. rewrite Z.add_0_r. change (list_to_map (asStored s [])) with (∅ : bdict).
    rewrite (left_id_L ∅ (∪) b). split_and!; try done. lia. }
  cbn [importLoop fst snd] in *. apply NoDup_cons in Hnd as [Hki Hnd].
  assert (w = len (pair_bytes (k, stored s v)) + len (log_bytes (asStored s kv))) as Ew
    by (unfold w; change (asStored s ((k, v) :: kv)) with ((k, stored s v) :: asStored s kv);
        rewrite log_bytes_cons, length_app; lia).
  pose proof (packed_insert b k (stored s v)) as Hi.
  destruct (set_round s b k v w Hs He Hx Hk Hv Hb) as (s1&->&Hs1&Hc1&Hq1&Hset1&Ha1); [lia|].
  assert (now (env s1) = now (env s)) as En by (by destruct Hq1 as (_&->&_)).
  assert (asStored s1 kv = asStored s kv) as Es.
  { unfold asStored. apply list_fmap_ext. intros _ e _. by rewrite (stored_same s s1). }
  destruct (IH (n + 1) s1 (<[k := stored s v]> b) Hs1) as (s2&->&Hs2&Hc2&Hq2&Hset2&Ha2);
    [by eapply quiet_healthy|by eapply expire_flags|done|rewrite Es; lia|].
  rewrite Es in Hs2, Ha2. exists s2. split; [do 2 f_equal; cbn [length]; f_equal; lia|].
  split; [|split; [by etransitivity|split; [by etransitivity|split; [auto|lia]]]].
  change (asStored s ((k, v) :: kv)) with ((k, stored s v) :: asStored s kv).
  rewrite list_to_map_cons, <-insert_union_l, insert_union_r; [done|]. apply not_elem_of_list_to_map_1.
  unfold asStored. rewrite <-list_fmap_compose. exact Hki.
Qed.

(** The model of an import: the live values, set now by the destination's policy. *)
Definition merge (t : Z) (live : gmap gostring bytes) (d : model) : model :=
  mkModel (((fun v => (v, expiryAt t (md_expire d))) <$> live) ∪ md_map d) (md_expire d).

(** What the source gives. *)
Definition liveMap (t : Z) (d : model) : gmap gostring bytes := omap (liveAt t) (md_map d).

(** The bytes the import may add. *)
Definition importWeight (t : Z) (live : gmap gostring bytes) (d : model) : Z :=
  len (log_bytes (map_to_list
    ((fun v => rep (md_expire d) (v, expiryAt t (md_expire d))) <$> live : bdict))).

Lemma seen_live s d : represents s d → seen s (repMap d) = liveMap (now (env s)) d.
Proof. intros Hr. apply map_eq. intros k. rewrite (seen_repMap s d k Hr). unfold liveMap. by rewrite lookup_omap. Qed.

Lemma asStored_perm s kv live :
  lists live kv → asStored s kv ≡ₚ map_to_list (stored s <$> live).
Proof.
  intros Hp. unfold asStored. rewrite map_to_list_fmap, Hp. apply reflexive_eq, list_fmap_ext. by intros _ [k v] _.
Qed.

Lemma live_nonempty s d k v :
  represents s d → liveMap (now (env s)) d !! k = Some v → k ≠ [] ∧ v ≠ [].
Proof.
  intros Hr Hk. unfold liveMap in Hk. rewrite lookup_omap in Hk.
  destruct (md_map d !! k) as [e|] eqn:Ek; [|done]. cbn [mbind option_bind] in Hk.
  destruct (rp_ok _ _ Hr k e Ek) as (Hne&_). unfold liveAt in Hk. destruct (_ && _); [done|].
  injection Hk as <-. split; [|done].
  pose proof (di_ok _ _ (so_dict _ _ (ru_store _ _ (rp_running _ _ Hr)))) as Hd.
  apply (Hd k (rep (md_expire d) e)). unfold repMap. by rewrite lookup_fmap, Ek.
Qed.

(** The destination's half. *)
Lemma import_into s d kv live :
  represents s d → lists live kv → (∀ k v, live !! k = Some v → k ≠ [] ∧ v ≠ []) →
  let w := importWeight (now (env s)) live d in
  4 + Z.max (actualSize (st s)) (len (packed (repMap d)) + w) + w < 2 ^ 32 →
  ∃ s', writingElse (mret (0, Some ErrClosed)) (mret (0, Some ErrReadOnly)) (importLoop kv 0) s
      = (Ok (Z.of_nat (size live), None), s')
    ∧ represents s' (merge (now (env s)) live d) ∧ quiet (env s) (env s').
Proof.
  intros Hr Hkv Hne w Hb.
  assert (∀ v, stored s v = rep (md_expire d) (v, expiryAt (now (env s)) (md_expire d))) as Hst
    by (intros v; by apply stored_rep).
  pose proof (asStored_perm s kv live Hkv) as Hp.
  assert (len (log_bytes (asStored s kv)) = w) as Hw.
  { unfold w, importWeight. rewrite (log_bytes_perm _ _ Hp). do 4 f_equal. by apply map_fmap_ext. }
  assert (NoDup kv.*1) as Hnd by (rewrite Hkv; apply NoDup_fst_map_to_list).
  assert (list_to_map (asStored s kv) = stored s <$> live) as Em.
  { rewrite <-(list_to_map_to_list (stored s <$> live)). apply list_to_map_proper; [|exact Hp].
    unfold asStored. by rewrite <-list_fmap_compose. }
  destruct (writingElse_ok (fun _ _ => True) (mret (0, Some ErrClosed)) (mret (0, Some ErrReadOnly)) (importLoop kv 0)
    s (repMap d) (repMap (merge (now (env s)) live d))
    (Z.of_nat (size live), None)) as (s'&Hrun&Hr'&Hcfg&Hq&_).
  1, 2: done.
  - exact (rp_running _ _ Hr).
  - intros s1 [Hs1 He1 Hn1 [l Hcfg1] [Ha1 Hi1 _ _ _ _]].
    assert (∀ v, stored s1 v = stored s v) as Hst1.
    { intros v. unfold stored. by rewrite (sc_expire _ _ Hcfg1), (sc_seconds _ _ Hcfg1), Hn1. }
    assert (asStored s1 kv = asStored s kv) as Es
      by (apply list_fmap_ext; intros _ e _; by rewrite Hst1).
    destruct (importLoop_ok kv 0 s1 (repMap d) Hs1 He1) as (s2&Hl&Hs2&Hc2&Hq2&Hset&Ha2).
    + rewrite (sc_expire _ _ Hcfg1), Hi1. exact (rp_flags _ _ Hr).
    + rewrite Hkv. apply Forall_forall. intros [k v] Hk%elem_of_map_to_list. by apply Hne in Hk.
    + done.
    + rewrite Es, Hw, Ha1. done.
    + rewrite Es, Hw in *. exists s2. split; [rewrite Hl; do 2 f_equal; by rewrite Hkv, length_map_to_list|].
      split; [|done].
      enough (repMap (merge (now (env s)) live d) = list_to_map (asStored s kv) ∪ repMap d) as -> by done.
      rewrite Em. unfold repMap, merge. cbn [md_map md_expire]. rewrite map_fmap_union, <-map_fmap_compose.
      f_equal. apply map_fmap_ext. intros k v _. by rewrite Hst.
  - exists s'. split; [exact Hrun|]. split; [|done].
    eapply represents_config; [exact Hr|exact Hr'| |exact Hcfg].
    intros k e Hk. cbn [md_map merge md_expire] in *. rewrite lookup_union_Some_raw in Hk.
    destruct Hk as [Hk|[_ Hk]]; [|by apply (rp_ok _ _ Hr k)].
    rewrite lookup_fmap in Hk. destruct (live !! k) as [v|] eqn:Ev; [|done]. injection Hk as <-.
    cbn. split_and!; [by apply Hne in Ev as []|apply expiryAt_u32|by intros ->].
Qed.

(** An import from a live instance: the count, the merged map, and the source as
    it was. *)
Lemma ImportFrom_ok d s dd sd :
  represents d dd → represents s sd →
  let live := liveMap (now (env s)) sd in
  let w := importWeight (now (env d)) live dd in
  4 + Z.max (actualSize (st d)) (len (packed (repMap dd)) + w) + w < 2 ^ 32 →
  ∃ d' s', ImportFrom Other (d, s) = (Ok (Z.of_nat (size live), None), (d', s'))
    ∧ represents d' (merge (now (env d)) live dd) ∧ represents s' sd.
Proof.
  intros Hd Hs live w Hb.
  destruct (exportLive_ok s (repMap sd) (rp_running _ _ Hs)) as (kv&s'&He&Hkv&Hrs&Hcs&Hqs).
  rewrite (seen_live s sd Hs) in Hkv.
  destruct (import_into d dd kv live Hd Hkv) as (d'&Hi&Hrd&_); [|done|].
  { intros k v. by apply (live_nonempty s sd). }
  exists d', s'. split; [|split; [done|]].
  - unfold ImportFrom. erewrite bind_ok by (unfold onSrc, zoom; cbn [snd]; rewrite He; reflexivity).
    unfold onDst, zoom. cbn [fst snd]. by rewrite Hi.
  - destruct sd as [mp x]. by apply (represents_config s s' (mkModel mp x)); [..|apply Hs|].
Qed.

(** Nothing is imported from nil or from the instance itself; a closed source or
    destination, and a read-only destination, are refused and left as they are. *)
Lemma ImportFrom_refuses d s b :
  lock_ok (fl (st d), env d) → healthy (env d) → running s b →
  (closed (st d) = true → ∃ s', ImportFrom Other (d, s) = (Ok (0, Some ErrClosed), (d, s')) ∧ running s' b)
  ∧ (closed (st d) = false → readOnly (st d) = true →
     ∃ s', ImportFrom Other (d, s) = (Ok (0, Some ErrReadOnly), (d, s')) ∧ running s' b).
Proof.
  intros Hl He Hr. destruct (exportLive_ok s b Hr) as (kv&s'&Hex&_&Hr'&_).
  assert (∀ o, writingElse (mret (0, Some ErrClosed)) (mret (0, Some ErrReadOnly)) (importLoop kv 0) d = (o, d) →
    ImportFrom Other (d, s) = (o, (d, s'))) as Hrun.
  { intros o Ho. unfold ImportFrom.
    erewrite bind_ok by (unfold onSrc, zoom; cbn [snd]; rewrite Hex; reflexivity).
    unfold onDst, zoom. cbn [fst snd]. by rewrite Ho. }
  split; [intros Hc|intros Hc Hro]; exists s'; (split; [|done]); apply Hrun.
  - apply writingElse_refuses; [done..|]. by left.
  - apply writingElse_refuses; [done..|]. by right.
Qed.

End code.
