(* ===== verification/Registry.v ===== *)
(** * The process: instances, their registry, and the files they share
    (mmkv.go, namespace.go, mmkv_ns.go, mmkv_backup.go)

    A [proc] is a process: the file system, every instance that was made (its
    number is the pointer), and the map of the open ones by absolute data path.
    An instance refers to its files by inode; its methods run on the bytes the
    inodes have at the time, and leave theirs there, since the mappings are
    shared.  Each instance has its own descriptor, and so its own flock. *)

From S2P Require Import Prelude GoInt Wire Crc32 Meta Dict Crypt Path MemFile Files Flock Store StoreOps.

Record instance := mkInstance {
  i_m : MMKV;
  i_held : lmode;           (* what the kernel holds for its descriptor *)
  i_changes : nat;          (* calls of its handler *)
  i_data : nat;             (* the inodes of its two files *)
  i_meta : nat;
}.

Record proc := mkProc {
  p_fs : fs;
  p_env : sys;
  p_wd : option gostring;          (* the working directory, if it is known *)
  p_insts : gmap nat instance;
  p_registry : kmap nat;           (* gInstances *)
  p_next : nat;
}.

Definition set_p_fs (f : fs) (p : proc) : proc :=
  mkProc f (p_env p) (p_wd p) (p_insts p) (p_registry p) (p_next p).
Definition set_p_env (e : sys) (p : proc) : proc :=
  mkProc (p_fs p) e (p_wd p) (p_insts p) (p_registry p) (p_next p).
Definition set_p_insts (m : gmap nat instance) (p : proc) : proc :=
  mkProc (p_fs p) (p_env p) (p_wd p) m (p_registry p) (p_next p).
Definition set_p_registry (r : kmap nat) (p : proc) : proc :=
  mkProc (p_fs p) (p_env p) (p_wd p) (p_insts p) r (p_next p).

(** ** Running a method *)

(** What the instance sees: the bytes of its inodes under its mappings, and the
    process's environment with its own lock. *)
Definition attach (i : instance) (p : proc) : St :=
  let file n := default [] (inodes (p_fs p) !! n) in
  let m := i_m i in
  mkSt (set_meta (set_mf_file (file (i_meta i)) (meta m)) (set_data (set_mf_file (file (i_data i)) (data m)) m))
    (set_changes (i_changes i) (set_held (i_held i) (p_env p))).

(** What it leaves. *)
Definition own_env (e : sys) (p : proc) : sys :=
  set_changes (changes (p_env p)) (set_held (held (p_env p)) e).
Definition detach (k : nat) (i : instance) (s : St) (p : proc) : proc :=
  let m := st s in
  let i' := mkInstance m (held (env s)) (changes (env s)) (i_data i) (i_meta i) in
  mkProc (set_inode (i_data i) (mf_file (data m)) (set_inode (i_meta i) (mf_file (meta m)) (p_fs p)))
    (own_env (env s) p) (p_wd p) (<[k := i']> (p_insts p)) (p_registry p) (p_next p).

(** A call through a pointer; a nil pointer panics. *)
Definition call {A} (k : nat) (c : M St A) : M proc A := fun p =>
  match p_insts p !! k with
  | None => (Panic, p)
  | Some i => let '(o, s) := c (attach i p) in (o, detach k i s p)
  end.

Definition onFs {A} (c : FS A) : M proc A :=
  zoom (fun p => (p_fs p, p_env p)) (fun q p => set_p_fs q.1 (set_p_env q.2 p)) c.

(** ** Options *)

Record mmkvConfig := mkConfig {
  cf_multiProcess : bool;
  cf_readOnly : bool;
  cf_cryptKey : bytes;
  cf_onContentChanged : bool;    (* a handler that is not nil *)
  cf_recover : bool;
}.

Inductive MMKVOption :=
  | WithMultiProcess
  | WithReadOnly
  | WithCryptKey (key : bytes)
  | WithContentChangedHandler (fn : bool)
  | WithRecoverOnError.

Definition applyOption (c : mmkvConfig) (o : MMKVOption) : mmkvConfig :=
  match o with
  | WithMultiProcess => mkConfig true (cf_readOnly c) (cf_cryptKey c) (cf_onContentChanged c) (cf_recover c)
  | WithReadOnly => mkConfig (cf_multiProcess c) true (cf_cryptKey c) (cf_onContentChanged c) (cf_recover c)
  | WithCryptKey key => mkConfig (cf_multiProcess c) (cf_readOnly c) key (cf_onContentChanged c) (cf_recover c)
  | WithContentChangedHandler fn => mkConfig (cf_multiProcess c) (cf_readOnly c) (cf_cryptKey c) fn (cf_recover c)
  | WithRecoverOnError => mkConfig (cf_multiProcess c) (cf_readOnly c) (cf_cryptKey c) (cf_onContentChanged c) true
  end.
Definition configOf (opts : list MMKVOption) : mmkvConfig := foldl applyOption (mkConfig false false [] false false) opts.

Definition instanceFor (rootDir mmapID key : gostring) (c : mmkvConfig) : MMKV :=
  newMMKV rootDir mmapID key (cf_multiProcess c) (cf_readOnly c) (cf_cryptKey c) (cf_onContentChanged c)
    (cf_recover c).

Section registry.
Context `{Platform}.

(** ** MMKVWithID *)

(** A file that was opened has the bytes [b] now. *)
Definition keep (p : gostring) (b : option bytes) (f : fs) : fs :=
  match b with Some b => written p b f | None => f end.

(** [m.open()] of a new instance: the contents of its paths, and what they hold
    afterwards, whether or not it succeeds. *)
Definition openInstance (m : MMKV) (p : proc) : outcome instance * proc :=
  let dp := dataPathFor (rootDir m) (mmapID m) in
  let mp := dp ++ crcSuffix in
  let '(r, o) := openFiles (mkOpening (mkSt m (set_changes 0 (set_held Unheld (p_env p))))
                              (content (p_fs p) dp) (content (p_fs p) mp)) in
  let s := op_st o in
  let now_at (mf : memoryFile) (b : option bytes) := if mf_open mf then Some (mf_file mf) else b in
  let f := keep mp (now_at (meta (st s)) (op_meta o)) (keep dp (now_at (data (st s)) (op_data o)) (p_fs p)) in
  let ino q := default 0%nat (names f !! q) in
  (_ ← r; Ok (mkInstance (st s) (held (env s)) (changes (env s)) (ino dp) (ino mp)),
   set_p_fs f (set_p_env (own_env (env s) p) p)).

(** The registered instance of a key, if it is open. *)
Definition registered (key : gostring) (p : proc) : option nat :=
  match p_registry p !! key with
  | None => None
  | Some k =>
      match p_insts p !! k with
      | Some i => if closed (i_m i) then None else Some k
      | None => None
      end
  end.

(** The whole function runs under gInstanceMu. *)
Definition MMKVWithID (rootDir mmapID : gostring) (opts : list MMKVOption) : M proc nat := fun p =>
  let cfg := configOf opts in
  let key := registryKey (p_wd p) rootDir mmapID in
  match registered key p with
  | Some k => (Ok k, p)
  | None =>
      match openInstance (instanceFor rootDir mmapID key cfg) p with
      | (Ok i, p') =>
          let k := p_next p' in
          (Ok k, mkProc (p_fs p') (p_env p') (p_wd p') (<[k := i]> (p_insts p'))
                   (<[key := k]> (p_registry p')) (S k))
      | (Err e, p') => (Err e, p')
      | (Panic, p') => (Panic, p')
      | (NoFuel, p') => (NoFuel, p')
      end
  end.

(** ** Close *)

(** The half under gInstanceMu: the instance leaves the registry, if it is there. *)
Definition unregister (k : nat) : M proc unit := fun p =>
  match p_insts p !! k with
  | None => (Panic, p)
  | Some i =>
      let key := key (i_m i) in
      (Ok tt, if decide (p_registry p !! key = Some k) then set_p_registry (delete key (p_registry p)) p else p)
  end.

(** The half under the instance's own lock. *)
Definition release (k : nat) : M proc unit := call k Close.

Definition CloseInstance (k : nat) : M proc unit := _ ← unregister k; release k.

(** ** Removing, backing up, restoring *)

Definition cached (rootDir mmapID : gostring) (p : proc) : option nat :=
  p_registry p !! registryKey (p_wd p) rootDir mmapID.

Definition RemoveStorage (rootDir mmapID : gostring) : M proc unit :=
  p ← get;
  _ ← (match cached rootDir mmapID p with Some k => ignore (CloseInstance k) | None => mret tt end);
  onFs (removeFiles rootDir mmapID).

Definition RestoreOneFromDirectory (rootDir mmapID srcDir : gostring) : M proc unit :=
  _ ← onFs (restoreFiles rootDir mmapID srcDir);
  p ← get;
  match cached rootDir mmapID p with
  | Some k => call k (upd (set_needLoad true))
  | None => mret tt
  end.

(** ** Namespaces *)

Definition ns_MMKVWithID (ns : NameSpace) (mmapID : gostring) (opts : list MMKVOption) : M proc nat :=
  MMKVWithID (ns_rootDir ns) mmapID opts.
Definition ns_BackupOne (ns : NameSpace) (mmapID dstDir : gostring) : M proc unit :=
  onFs (BackupOne (ns_rootDir ns) mmapID dstDir).
Definition ns_RestoreOne (ns : NameSpace) (mmapID srcDir : gostring) : M proc unit :=
  RestoreOneFromDirectory (ns_rootDir ns) mmapID srcDir.

End registry.
