(* ===== verification/RegistrySpec.v ===== *)
(** * One instance per file

    The registry's invariant over every interleaving of openings, methods,
    closings and changes of the file system: an open instance that no Close call
    has reached is the registered one of its data path. *)

From S2P Require Import Prelude GoInt Wire Crc32 Meta Dict Crypt Path MemFile Files Flock Store StoreOps.
From S2P Require Import Api Refine Registry.

(** ** What no method changes *)

(** The identity of an instance: its registry key, whether it was closed, and
    whether it takes the lock of the file. *)
Definition identityM (m : MMKV) : gostring * bool * bool := (key m, closed m, multiProcess m).
Definition identity (s : St) : gostring * bool * bool := identityM (st s).
Abbreviation keeps c := (preserves identity c).

Lemma keeps_onStore {A} (c : M MMKV A) : preserves identityM c → keeps (onStore c).
Proof.
  intros Hc s. unfold onStore, zoom. match goal with |- context [c ?m] => specialize (Hc m); destruct (c m) end.
  exact Hc.
Qed.
Lemma keeps_onSys {A} (c : M sys A) : keeps (onSys c).
Proof. by apply preserves_zoom. Qed.
Lemma keeps_onLock {A} (c : FL A) : keeps (onLock c).
Proof. by apply preserves_zoom. Qed.
Lemma keeps_onData {A} (c : MF A) : keeps (onData c).
Proof. by apply preserves_zoom. Qed.
Lemma keeps_onMeta {A} (c : MF A) : keeps (onMeta c).
Proof. by apply preserves_zoom. Qed.
Lemma keeps_this : keeps this.
Proof. done. Qed.
Lemma keeps_upd f : (∀ m, identityM (f m) = identityM m) → keeps (upd f).
Proof. intros Hf s. exact (Hf (st s)). Qed.
#[export] Hint Resolve keeps_onStore keeps_onSys keeps_onLock keeps_onData keeps_onMeta keeps_this
  keeps_upd : preserves.

Lemma keeps_whenMulti c : keeps (whenMulti c).
Proof. unfold whenMulti. preserves. Qed.

Lemma decodeRegion_identity a c : preserves identityM (decodeRegion a c).
Proof. unfold decodeRegion. preserves. Qed.
#[export] Hint Resolve keeps_whenMulti decodeRegion_identity : preserves.

Lemma salvage_identity : preserves identityM salvage.
Proof. unfold salvage. preserves. Qed.
#[export] Hint Resolve salvage_identity : preserves.
Lemma loadData_identity : preserves identityM loadData.
Proof. unfold loadData. preserves. Qed.
#[export] Hint Resolve loadData_identity : preserves.

Lemma keeps_recordErr c : keeps c → keeps (recordErr c).
Proof. intros Hc s. specialize (Hc s). unfold recordErr. by destruct (c s) as [[]]. Qed.
Lemma keeps_reload r : keeps (reloadBestEffort r).
Proof. apply keeps_recordErr. preserves. Qed.
#[export] Hint Resolve keeps_reload : preserves.
Lemma keeps_checkLoadData : keeps checkLoadData.
Proof. unfold checkLoadData, notifyChanged. preserves. Qed.
#[export] Hint Resolve keeps_checkLoadData : preserves.

Section spec.
Context `{Platform}.

Lemma keeps_writing {A} (c : M St A) : keeps c → keeps (writing c).
Proof.
  intros Hc. unfold writing, writingElse, exclusively, lockExclusive, unlockExclusive. preserves.
Qed.
Lemma keeps_sharedly {A} (c : M St A) : keeps c → keeps (sharedly c).
Proof. intros Hc. unfold sharedly, lockShared, unlockShared. preserves. Qed.
Lemma keeps_reading {A} (zero : A) f : keeps (reading zero f).
Proof. apply keeps_sharedly. preserves. Qed.

Lemma appendRaw_identity pair : preserves identityM (appendRaw pair).
Proof. unfold appendRaw, writeMetaWords. preserves. Qed.
Lemma overrideRaw_identity k pair n : preserves identityM (overrideRaw k pair n).
Proof. unfold overrideRaw, writeMetaWords. preserves. Qed.
Lemma writeRegion_identity r p : preserves identityM (writeRegion r p).
Proof. unfold writeRegion. preserves. Qed.
Hint Resolve appendRaw_identity overrideRaw_identity writeRegion_identity : preserves.

Lemma keeps_fullWritebackGrow b n : keeps (fullWritebackGrow b n).
Proof. unfold fullWritebackGrow, makePayload, ensureRoom. preserves. Qed.
Hint Resolve keeps_fullWritebackGrow : preserves.
Lemma keeps_clearAllLocked : keeps clearAllLocked.
Proof. unfold clearAllLocked. preserves. Qed.
Lemma keeps_setBlob k v : keeps (setBlob k v).
Proof. unfold setBlob. preserves. Qed.
Hint Resolve keeps_clearAllLocked keeps_setBlob : preserves.
Lemma keeps_setValueLocked k v : keeps (setValueLocked k v).
Proof. unfold setValueLocked. preserves. Qed.
Hint Resolve keeps_setValueLocked : preserves.
Lemma keeps_onErr {A} undo (c : M St A) :
  (∀ m, identityM (undo m) = identityM m) → keeps c → keeps (onErr undo c).
Proof.
  intros Hu Hc s. specialize (Hc s). unfold onErr. destruct (c s) as [[] s']; cbn [snd] in *; try done.
  rewrite <-Hc. exact (Hu (st s')).
Qed.

(** No operation, however it ends, changes the identity of its instance. *)
Lemma run_keeps o : keeps (run o).
Proof.
  destruct o; cbn [run]; apply keeps_writing; unfold shrink, fullWriteback; preserves.
  apply keeps_onErr; [done|]. preserves.
Qed.

(** ** Opening *)

Lemma keeps_repair : keeps repair.
Proof. unfold repair, fullWriteback. preserves. Qed.
Hint Resolve keeps_repair : preserves.

Definition identityO (o : Opening) : gostring * bool * bool := identity (op_st o).

Lemma keeps_onSt {A} (c : M St A) : keeps c → preserves identityO (onSt c).
Proof.
  intros Hc o. unfold onSt, zoom. match goal with |- context [c ?s] => specialize (Hc s); destruct (c s) end.
  exact Hc.
Qed.
Lemma keeps_openData c : preserves identityO (openData c).
Proof. intros o. unfold openData. by destruct (c _) as [? []]. Qed.
Lemma keeps_openMeta c : preserves identityO (openMeta c).
Proof. intros o. unfold openMeta. by destruct (c _) as [? []]. Qed.
Hint Resolve keeps_onSt keeps_openData keeps_openMeta : preserves.
Lemma keeps_closeFile d : keeps (closeFile d).
Proof. intros s. unfold closeFile. by destruct (mf_close _) as [? []]. Qed.
Hint Resolve keeps_closeFile : preserves.
Lemma keeps_openSecond d c : preserves identityO c → preserves identityO (openSecond d c).
Proof.
  intros Hc o. specialize (Hc o). unfold openSecond. destruct (c o) as [[a|e| |] o']; cbn [snd] in *; try done.
  rewrite <-Hc. assert (preserves identityO (_ ← onSt (closeFile d); fail (A := memoryFile) e)) as Hf by preserves.
  apply Hf.
Qed.
Hint Resolve keeps_openSecond : preserves.
Lemma keeps_openFiles : preserves identityO openFiles.
Proof. unfold openFiles, adopt. preserves. Qed.

Lemma openInstance_identity m p i p' :
  openInstance m p = (Ok i, p') → key (i_m i) = key m ∧ closed (i_m i) = closed m.
Proof.
  unfold openInstance. set (o0 := mkOpening _ _ _). pose proof (keeps_openFiles o0) as Hk.
  destruct (openFiles o0) as [r o]. cbn [snd] in Hk. destruct r as [[]| | |]; try done.
  intros [= <- <-]. unfold identityO, identity, identityM in Hk. cbn in *. by simplify_eq.
Qed.

Lemma openInstance_proc m p :
  p_insts (openInstance m p).2 = p_insts p ∧ p_registry (openInstance m p).2 = p_registry p
  ∧ p_next (openInstance m p).2 = p_next p ∧ p_wd (openInstance m p).2 = p_wd p.
Proof. unfold openInstance. by destruct (openFiles _). Qed.

(** ** Interleavings *)

(** A step of the process: what some goroutine does under gInstanceMu or under
    the lock of an instance, or what anyone does to the files.  The set holds the
    instances that a Close call has taken out of the registry, or found out of
    it; the second half of such a call comes at any later time. *)
Inductive pstep : proc * gset nat → proc * gset nat → Prop :=
  | step_open rootDir mmapID opts o p p' z :
      MMKVWithID rootDir mmapID opts p = (o, p') → pstep (p, z) (p', z)
  | step_call {A} k (c : M St A) o p p' z :
      keeps c → call k c p = (o, p') → pstep (p, z) (p', z)
  | step_unregister k p p' z :
      unregister k p = (Ok tt, p') → pstep (p, z) (p', {[k]} ∪ z)
  | step_release k o p p' z :
      (k ∈ z) → release k p = (o, p') → pstep (p, z) (p', z)
  | step_files f e p z : pstep (p, z) (set_p_fs f (set_p_env e p), z).

(** A process that has opened nothing yet. *)
Definition started (p : proc) : Prop := p_insts p = ∅ ∧ p_registry p = ∅.

Record registry_ok (p : proc) (z : gset nat) : Prop := {
  rg_insts k i : p_insts p !! k = Some i → (k < p_next p)%nat;
  rg_open k i : p_insts p !! k = Some i → closed (i_m i) = false → k ∉ z →
    p_registry p !! key (i_m i) = Some k;
  rg_entry q k : p_registry p !! q = Some k →
    (k ∉ z) ∧ ∃ i, p_insts p !! k = Some i ∧ key (i_m i) = q ∧ closed (i_m i) = false;
  rg_closing k : k ∈ z → is_Some (p_insts p !! k);
}.

Lemma registered_entry p z q : registry_ok p z → registered q p = p_registry p !! q.
Proof.
  intros Hg. unfold registered. destruct (p_registry p !! q) as [k|] eqn:E; [|done].
  destruct (rg_entry _ _ Hg q k E) as (_&i&Hi&_&Hc). by rewrite Hi, Hc.
Qed.

(** One instance changed, and kept its identity unless it is being closed. *)
Lemma registry_ok_update p z k i i' f e :
  registry_ok p z → p_insts p !! k = Some i → key (i_m i') = key (i_m i) →
  (closed (i_m i') = closed (i_m i) ∨ k ∈ z) →
  registry_ok (mkProc f e (p_wd p) (<[k := i']> (p_insts p)) (p_registry p) (p_next p)) z.
Proof.
  intros [Hi Ho He Hz] Hk Hkey Hc.
  split; cbn [p_insts p_registry p_next].
  - intros j x Hj. destruct (decide (k = j)) as [<-|]; [by eapply Hi|].
    rewrite lookup_insert_ne in Hj by done. by eapply Hi.
  - intros j x Hj Hx Hnz. destruct (decide (k = j)) as [<-|].
    + rewrite lookup_insert_eq in Hj. injection Hj as <-. rewrite Hkey. apply Ho; [done| |done].
      destruct Hc as [<-|]; done.
    + rewrite lookup_insert_ne in Hj by done. by apply Ho.
  - intros q j Hq. destruct (He q j Hq) as (Hnz&x&Hx&Hxk&Hxc). split; [done|].
    destruct (decide (k = j)) as [<-|].
    + exists i'. rewrite lookup_insert_eq. split; [done|].
      assert (x = i) as -> by congruence. destruct Hc as [->|]; [|done]. split; congruence.
    + exists x. by rewrite lookup_insert_ne.
  - intros j Hj%Hz. destruct (decide (k = j)) as [<-|]; [by rewrite lookup_insert_eq|].
    by rewrite lookup_insert_ne.
Qed.

Lemma call_ok {A} k (c : M St A) o p p' z :
  registry_ok p z → (∀ s, key (st (c s).2) = key (st s)) →
  ((∀ s, closed (st (c s).2) = closed (st s)) ∨ k ∈ z) →
  call k c p = (o, p') → registry_ok p' z.
Proof.
  intros Hg Hk Hc Hcall. unfold call in Hcall. destruct (p_insts p !! k) as [i|] eqn:Ei; [|by injection Hcall as _ <-].
  specialize (Hk (attach i p)).
  assert (closed (st (c (attach i p)).2) = closed (i_m i) ∨ k ∈ z) as Hc'
    by (destruct Hc as [Hc|]; [left; by rewrite Hc|by right]).
  destruct (c (attach i p)) as [r s]. cbn [snd] in *. injection Hcall as _ <-.
  eapply registry_ok_update; [exact Hg|exact Ei|exact Hk|exact Hc'].
Qed.

Lemma preserves_firstErr {T} (pr : St → T) c d :
  preserves pr c → preserves pr d → preserves pr (firstErr c d).
Proof.
  intros Hc Hd s. specialize (Hc s). unfold firstErr. destruct (c s) as [[a|e| |] s1]; cbn [snd] in *; rewrite <-Hc.
  all: specialize (Hd s1); by destruct (d s1).
Qed.

Lemma Close_key s : key (st (Close s).2) = key (st s).
Proof.
  revert s. change (preserves (fun s => key (st s)) Close). unfold Close, onData.
  apply preserves_bind; [done|]. intros m. destruct (closed m); [done|].
  apply preserves_bind; [done|]. intros _. apply preserves_firstErr; [by apply preserves_zoom|].
  intros s. unfold closeMeta, onMeta, zoom. destruct (mf_close _) as [o q]. by destruct (mf_open _).
Qed.

Lemma fresh_proc p k z : registry_ok p z → p_next p = k → (k ∉ z) ∧ p_insts p !! k = None.
Proof.
  intros Hg <-. assert (p_insts p !! p_next p = None) as Hn.
  { destruct (p_insts p !! p_next p) as [i|] eqn:E; [|done]. apply (rg_insts _ _ Hg) in E. lia. }
  split; [|done]. intros [i Hi]%(rg_closing _ _ Hg). congruence.
Qed.

Lemma MMKVWithID_ok rootDir mmapID opts o p p' z :
  registry_ok p z → MMKVWithID rootDir mmapID opts p = (o, p') → registry_ok p' z.
Proof.
  intros Hg Ho. unfold MMKVWithID in Ho. set (q := registryKey _ _ _) in *.
  rewrite (registered_entry p z q Hg) in Ho.
  destruct (p_registry p !! q) as [k|] eqn:Eq; [by injection Ho as _ <-|].
  set (m := instanceFor _ _ _ _) in *.
  pose proof (openInstance_proc m p) as (E1&E2&E3&E4).
  destruct (openInstance m p) as [r p1] eqn:Er. cbn [snd] in *.
  assert (registry_ok p1 z) as Hg1.
  { destruct Hg as [Hi Hop He Hz]. split; rewrite ?E1, ?E2, ?E3; done. }
  destruct r as [i|e| |]; [|by injection Ho as _ <-..]. injection Ho as _ <-.
  destruct (openInstance_identity m p i p1 Er) as [Hk Hc].
  destruct (fresh_proc p1 (p_next p1) z Hg1 eq_refl) as [Hnz Hnone].
  destruct Hg1 as [Hi Hop He Hz]. split; cbn [p_insts p_registry p_next].
  - intros j x Hj. destruct (decide (p_next p1 = j)) as [<-|]; [lia|].
    rewrite lookup_insert_ne in Hj by done. apply Hi in Hj. lia.
  - intros j x Hj Hx Hjz. destruct (decide (p_next p1 = j)) as [<-|].
    + rewrite lookup_insert_eq in Hj. injection Hj as <-. rewrite Hk. apply lookup_insert_eq.
    + rewrite lookup_insert_ne in Hj by done. specialize (Hop j x Hj Hx Hjz).
      rewrite lookup_insert_ne; [done|]. intros E. rewrite <-E in Hop. congruence.
  - intros j x Hj. destruct (decide (q = j)) as [<-|].
    + rewrite lookup_insert_eq in Hj. injection Hj as <-. split; [done|]. exists i.
      rewrite lookup_insert_eq. split; [done|]. by rewrite Hk, Hc.
    + rewrite lookup_insert_ne in Hj by done. destruct (He j x Hj) as (?&y&Hy&?). split; [done|].
      exists y. split; [|done]. rewrite lookup_insert_ne; [done|]. intros <-. congruence.
  - intros j Hj. destruct (decide (p_next p1 = j)) as [<-|]; [by rewrite lookup_insert_eq|].
    rewrite lookup_insert_ne by done. by apply Hz.
Qed.

Lemma unregister_ok k p p' z :
  registry_ok p z → unregister k p = (Ok tt, p') → registry_ok p' ({[k]} ∪ z).
Proof.
  intros [Hi Hop He Hz] Hu. unfold unregister in Hu. destruct (p_insts p !! k) as [i|] eqn:Ei; [|done].
  injection Hu as <-. case_decide as Hr.
  - split; cbn [p_insts p_registry p_next set_p_registry].
    + done.
    + intros j x Hj Hx Hjz. rewrite not_elem_of_union, not_elem_of_singleton in Hjz. destruct Hjz as [Hjk Hjz].
      specialize (Hop j x Hj Hx Hjz). rewrite lookup_delete_ne; [done|]. intros E. rewrite <-E in Hop. congruence.
    + intros q j Hq. apply lookup_delete_Some in Hq as [Hne Hq]. destruct (He q j Hq) as (Hjz&x&Hx&Hk&Hc).
      split; [|by exists x]. rewrite not_elem_of_union, not_elem_of_singleton. split; [|done].
      intros ->. apply Hne. by replace x with i in Hk by congruence.
    + intros j Hj. apply elem_of_union in Hj as [->%elem_of_singleton|Hj]; [by eauto|by apply Hz].
  - split; [done| | |].
    + intros j x Hj Hx Hjz. apply (Hop j x Hj Hx). intros Hz'. apply Hjz, elem_of_union. by right.
    + intros q j Hq. destruct (He q j Hq) as (Hjz&x&Hx&Hk&Hc).
      split; [|by exists x]. rewrite not_elem_of_union, not_elem_of_singleton. split; [|done].
      intros ->. apply Hr. replace i with x by congruence. by rewrite Hk.
    + intros j Hj. apply elem_of_union in Hj as [->%elem_of_singleton|Hj]; [by eauto|by apply Hz].
Qed.

Lemma pstep_ok p z p' z' : pstep (p, z) (p', z') → registry_ok p z → registry_ok p' z'.
Proof.
  inversion 1 as [? ? ? ? ? ? ? Ho|? ? c ? ? ? ? Hk Hc|? ? ? ? Hu|? ? ? ? ? Hz Hr|]; subst; intros Hg.
  - by eapply MMKVWithID_ok.
  - eapply call_ok; [exact Hg| |left|exact Hc]; intros s; specialize (Hk s); unfold identity, identityM in Hk; congruence.
  - by eapply unregister_ok.
  - eapply call_ok; [exact Hg|exact Close_key|by right|exact Hr].
  - destruct Hg. by split.
Qed.

Lemma reachable_ok p0 p z : started p0 → rtc pstep (p0, ∅) (p, z) → registry_ok p z.
Proof.
  intros [E1 E2] Hrtc. remember (p0, ∅) as x eqn:Ex. remember (p, z) as y eqn:Ey.
  assert (registry_ok p0 ∅) as Hg0.
  { split; rewrite ?E1, ?E2; done. }
  assert (registry_ok x.1 x.2) as Hg by (by subst). clear Ex Hg0. revert p z Ey.
  induction Hrtc as [x|[p1 z1] [p2 z2] w Hs _ IH]; intros p z ->; [done|].
  apply (IH (pstep_ok _ _ _ _ Hs Hg) p z eq_refl).
Qed.

End spec.
