(* ===== verification/BackupSpec.v ===== *)
(** * Validity, backup and restore, across the parts

    What IsFileValid says is what a load will do; a backup is a store of the same
    map; a restore brings that map back to an instance that stays open. *)

From S2P Require Import Prelude GoInt Wire Crc32 Meta Dict Crypt Path MemFile Files Flock Store StoreOps.
From S2P Require Import StoreInv StoreWrite StoreRun Handlers Recovery Api ApiSpec Registry RegistrySpec.

(** ** Validity *)

(** On a mapped data file, the check IsFileValid makes is the first one a load
    makes. *)
Lemma dataValid_acceptable m :
  mf_ok (data m) →
  dataValid (info m) (mf_file (data m)) = acceptable m (readActualSize m) (mi_crcDigest (info m)).
Proof.
  intros Hok. unfold dataValid, acceptable, readActualSize, crcValid, regionOf. rewrite memory_ok by done.
  set (a := if versionActualSize <=? _ then _ else _).
  destruct (len (mf_file (data m)) <? a + 4) eqn:E; bsplit.
  - assert ((a + 4 <=? len (mf_file (data m))) = false) as -> by lia. by rewrite andb_false_r.
  - assert ((a + 4 <=? len (mf_file (data m))) = true) as -> by lia.
    assert ((a <? len (mf_file (data m))) = true) as -> by lia. done.
Qed.

(** The files of a settled store are valid. *)
Lemma settled_valid `{Platform} m b :
  store_ok m b → settled m → mi_version (info m) ≤ maxSupportedVersion →
  fileValid (Some (mf_file (data m))) (Some (mf_file (meta m))) = Ok true.
Proof.
  intros Hs [Hm Hv Ha Hc] Hmax. unfold fileValid, metaUsable. cbn [mbind option_bind]. rewrite Hm. bfalse.
  rewrite dataValid_acceptable by apply Hs.
  assert (readActualSize m = actualSize m) as -> by (unfold readActualSize; by btrue).
  rewrite Hc. apply acceptable_true; [apply Hs..|]. apply Hs.
Qed.

(** ** Restoring under an open instance *)

(** An open instance whose two files are those at a data path, the meta file
    mapped as a whole. *)
Record serving (p : proc) (k : nat) (i : instance) (dp : gostring) (metaLen : Z) : Prop := {
  sv_inst : p_insts p !! k = Some i;
  sv_data : names (p_fs p) !! dp = Some (i_data i);
  sv_meta : names (p_fs p) !! (dp ++ crcSuffix) = Some (i_meta i);
  sv_open : closed (i_m i) = false;
  sv_data_rw : mf_readOnly (data (i_m i)) = false;
  sv_meta_rw : mf_readOnly (meta (i_m i)) = false;
  sv_mapped : mapped_once (data (i_m i));
  sv_meta_mapped : mapped_once (meta (i_m i));
  sv_meta_size : mf_size (meta (i_m i)) = metaLen;
  sv_lock : 0 ≤ shared (fl (i_m i)) ∧ 0 ≤ exclusive (fl (i_m i)) ∧ i_held i = wanted (fl (i_m i));
}.

(** The instance after it was told to load. *)
Definition told (i : instance) (p : proc) : instance :=
  let s := attach i p in
  mkInstance (set_needLoad true (st s)) (i_held i) (i_changes i) (i_data i) (i_meta i).

Lemma call_told k i p :
  p_insts p !! k = Some i →
  call k (upd (set_needLoad true)) p
  = (Ok tt, detach k i (mkSt (set_needLoad true (st (attach i p))) (env (attach i p))) p).
Proof. intros Hk. unfold call. by rewrite Hk. Qed.

Lemma content_inode f p i b : content f p = Some b → names f !! p = Some i → inodes f !! i = Some b.
Proof. unfold content. intros Hc Hn. by rewrite Hn in Hc. Qed.

Lemma dp_meta_inodes f dp i j :
  fs_ok f → names f !! dp = Some i → names f !! (dp ++ crcSuffix) = Some j → i ≠ j.
Proof.
  intros Hf Hi Hj ->. pose proof (fs_single _ Hf _ _ _ Hi Hj) as E. apply (f_equal length) in E.
  rewrite length_app in E. cbn in E. lia.
Qed.

Section restore.
Context `{Platform}.

(** What the told instance sees: the restored files under its old mappings. *)
Lemma told_other_files p k i dp (m2 : MMKV) t :
  serving p k i dp (len (mf_file (meta m2))) → healthy (p_env p) → fs_ok (p_fs p) →
  content (p_fs p) dp = Some (mf_file (data m2)) →
  content (p_fs p) (dp ++ crcSuffix) = Some (mf_file (meta m2)) →
  crypt (i_m i) = crypt m2 →
  let s := attach (told i p) (detach k i (mkSt (set_needLoad true (st (attach i p))) (env (attach i p))) p) in
  other_files (underLock t s) m2 ∧ needLoad (st (underLock t s)) = true ∧ lock_ok (fl (st s), env s)
  ∧ healthy (env s) ∧ closed (st s) = false ∧ now (env s) = now (p_env p).
Proof.
  intros Hs He Hf Hd Hm Hc s. destruct Hs.
  pose proof (content_inode _ _ _ _ Hd sv_data0) as Hid. pose proof (content_inode _ _ _ _ Hm sv_meta0) as Him.
  pose proof (dp_meta_inodes _ _ _ _ Hf sv_data0 sv_meta0) as Hne.
  assert (mf_file (data (st s)) = mf_file (data m2)) as Ed.
  { cbn [s attach told st i_m i_data data set_meta set_data set_mf_file mf_file p_fs detach inodes set_inode].
    rewrite lookup_insert_eq. cbn. by rewrite Hid. }
  assert (mf_file (meta (st s)) = mf_file (meta m2)) as Em.
  { cbn [s attach told st i_m i_meta meta set_meta set_data set_mf_file mf_file p_fs detach inodes set_inode].
    rewrite lookup_insert_ne, lookup_insert_eq by done. cbn. by rewrite Him. }
  assert (other_files s m2) as Ho.
  { split; [exact He|exact Hc|exact Ed|exact Em|exact sv_data_rw0|exact sv_meta_rw0| |exact sv_mapped0].
    split; [exact sv_meta_mapped0|]. rewrite Em. exact sv_meta_size0. }
  split; [|split; [|split_and!; try done; by destruct sv_lock0 as (?&?&?)]].
  - unfold underLock. destruct (multiProcess (st s)); [|done]. destruct Ho. by split.
  - unfold underLock. by destruct (multiProcess (st s)).
Qed.

Lemma checked_told t s m2 b :
  other_files (underLock t s) m2 → needLoad (st (underLock t s)) = true → store_ok m2 b →
  ∃ s1, checked t s s1 b ∧ enableExpire (st s1) = enableExpire m2.
Proof.
  intros Ho Hn Hs. destruct (checkLoadData_told _ m2 b Ho Hn Hs) as (m'&Hrun&Hr).
  exists (mkSt m' (env (underLock t s))). split; [|apply Hr]. split; try done; [apply Hr|].
  by apply reloaded_frame in Hr as [].
Qed.

(** A getter of an instance told to load answers from the files it finds. *)
Lemma getter_told {A} (c : codec A) set get `{!Accessors c set get} s m2 b k :
  other_files (underLock sharedLock s) m2 → needLoad (st (underLock sharedLock s)) = true → store_ok m2 b →
  lock_ok (fl (st s), env s) → healthy (env s) → closed (st s) = false →
  ∃ o s', get k s = (Ok o, s') ∧ decodes (c_dec c) (seen (mkSt m2 (env s)) b !! k) = Ok o.
Proof.
  intros Ho Hn Hs Hl He Hc. destruct (checked_told _ _ m2 b Ho Hn Hs) as (s1&Hck&Hx).
  destruct (acc_get k) as (f&->&Hf).
  destruct (decodes_total (c_dec c) (seen (mkSt m2 (env s)) b !! k) acc_total) as [o Ho'].
  exists o. eexists. split; [|exact Ho']. eapply (reading_checked None f s s1 b); [done..|].
  rewrite <-Ho'. exact (Hf (mkSt m2 (env s)) b (st s1) (ck_store _ _ _ _ Hck) Hx).
Qed.

Lemma updated_serving ps f p k i dp n e :
  serving p k i dp n → updated ps (p_fs p) f → serving (set_p_fs f (set_p_env e p)) k i dp n.
Proof. intros [] Hu. split; try done; cbn; by apply (up_names _ _ _ Hu). Qed.

(** A restore succeeds, leaves the backup's bytes at the instance's paths, and
    the next getter of the open instance answers from the backup's map. *)
Lemma restore_ok {A} (c : codec A) set get `{!Accessors c set get} rootDir mmapID srcDir p k i m2 b x :
  let src := dataPathFor srcDir mmapID in
  let dst := dataPathFor rootDir mmapID in
  usable mmapID → src ≠ dst → healthy (p_env p) → fs_ok (p_fs p) →
  content (p_fs p) src = Some (mf_file (data m2)) →
  content (p_fs p) (src ++ crcSuffix) = Some (mf_file (meta m2)) → store_ok m2 b →
  cached rootDir mmapID p = Some k → serving p k i dst (len (mf_file (meta m2))) → crypt (i_m i) = crypt m2 →
  ∃ p1 p2 o, RestoreOneFromDirectory rootDir mmapID srcDir p = (Ok tt, p1)
    ∧ content (p_fs p1) dst = Some (mf_file (data m2))
    ∧ content (p_fs p1) (dst ++ crcSuffix) = Some (mf_file (meta m2))
    ∧ call k (get x) p1 = (Ok o, p2)
    ∧ decodes (c_dec c) (seen (mkSt m2 (p_env p)) b !! x) = Ok o.
Proof.
  intros src dst Hu Hne He Hf Hb Hc Hs Hk Hsv Hcr.
  destruct (restoreFiles_ok rootDir mmapID srcDir (p_fs p) (p_env p) _ _ Hu He Hf Hne Hb Hc)
    as (f'&Hr&Hup&Hd&Hm).
  fold dst in Hup, Hd, Hm. set (p' := set_p_fs f' (set_p_env (p_env p) p)).
  pose proof (updated_serving _ f' p k i dst _ (p_env p) Hsv Hup) as Hsv'. fold p' in Hsv'.
  pose proof (up_ok _ _ _ Hup) as Hf'.
  set (p1 := detach k i (mkSt (set_needLoad true (st (attach i p'))) (env (attach i p'))) p').
  destruct (told_other_files p' k i dst m2 sharedLock Hsv' He Hf' Hd Hm Hcr) as (Hof&Hn&Hl&Hh&Hcl&Hnow).
  fold p1 in Hof, Hn, Hl, Hh, Hcl, Hnow.
  destruct (getter_told c set get (attach (told i p') p1) m2 b x Hof Hn Hs Hl Hh Hcl) as (o&s'&Hget&Ho).
  pose proof (content_inode _ _ _ _ Hd (sv_data _ _ _ _ _ Hsv')) as Hid.
  pose proof (content_inode _ _ _ _ Hm (sv_meta _ _ _ _ _ Hsv')) as Him.
  pose proof (dp_meta_inodes _ _ _ _ Hf' (sv_data _ _ _ _ _ Hsv') (sv_meta _ _ _ _ _ Hsv')) as Hino.
  assert (p_fs p1 = set_inode (i_data i) (mf_file (data m2)) (set_inode (i_meta i) (mf_file (meta m2)) f')) as Efs.
  { unfold p1, detach. cbn [p_fs st data meta attach set_needLoad set_meta set_data set_mf_file mf_file p' set_p_fs set_p_env].
    by rewrite Hid, Him. }
  exists p1, (detach k (told i p') s' p1), o. split; [|split; [|split; [|split]]].
  - unfold RestoreOneFromDirectory. erewrite bind_ok by (unfold onFs, zoom; rewrite Hr; reflexivity).
    cbn [fst snd]. fold p'. erewrite bind_ok by reflexivity.
    change (cached rootDir mmapID p') with (cached rootDir mmapID p). rewrite Hk.
    apply call_told, Hsv'.
  - rewrite Efs. unfold content, set_inode. cbn [names inodes].
    assert (names f' !! dst = Some (i_data i)) as -> by exact (sv_data _ _ _ _ _ Hsv'). by rewrite lookup_insert_eq.
  - rewrite Efs. unfold content, set_inode. cbn [names inodes].
    assert (names f' !! (dst ++ crcSuffix) = Some (i_meta i)) as -> by exact (sv_meta _ _ _ _ _ Hsv').
    rewrite lookup_insert_ne by done. by rewrite lookup_insert_eq.
  - unfold call. assert (p_insts p1 !! k = Some (told i p')) as -> by apply lookup_insert_eq.
    rewrite Hget. done.
  - exact Ho.
Qed.

End restore.

(** ** Loading what is valid *)

(** The struct a load works on, once the meta file is parsed. *)
Definition parsed (mi : metaInfo) (m : MMKV) : MMKV :=
  set_enableExpire ((versionFlag <=? mi_version mi) && expireEnabled mi) (set_info mi m).

(** The answer of IsFileValid decides whether the load takes its first way. *)
Lemma fileValid_load m mi :
  mf_ok (data m) → mf_ok (meta m) → parseMeta (mf_file (meta m)) = Ok mi →
  len (mf_file (data m)) < 2 ^ 32 →
  ∃ v, fileValid (Some (mf_file (data m))) (Some (mf_file (meta m))) = Ok v
    ∧ (v = true ↔ mi_version mi ≤ maxSupportedVersion
         ∧ acceptable (parsed mi m) (readActualSize (parsed mi m)) (mi_crcDigest mi) = Ok true)
    ∧ (v = true →
       loadData m = decodeRegion (readActualSize (parsed mi m)) (mi_crcDigest mi) (parsed mi m)).
Proof.
  intros Hd Hm Hp Hl. unfold fileValid, metaUsable. cbn [mbind option_bind]. rewrite Hp.
  unfold loadData. erewrite bind_ok by reflexivity. rewrite (memory_ok (meta m)), Hp by done.
  do 2 (erewrite bind_ok by reflexivity). destruct (maxSupportedVersion <? mi_version mi) eqn:E; bsplit.
  { exists false. split; [done|]. split; [|done]. split; [done|]. intros [? _]. lia. }
  do 2 (erewrite bind_ok by reflexivity). cbv zeta. fold (parsed mi m).
  assert (dataValid mi (mf_file (data m)) = acceptable (parsed mi m) (readActualSize (parsed mi m)) (mi_crcDigest mi))
    as Ea by exact (dataValid_acceptable (parsed mi m) Hd).
  destruct (dataValid_returns mi (mf_file (data m)) Hl) as [v Hv];
    [apply (wf_actual _ (parseMeta_wf _ _ Hp))|].
  rewrite Hv in *. exists v. split; [done|]. rewrite <-Ea. split.
  - split; [by intros ->|]. by intros [_ [= ->]].
  - intros ->. by erewrite bind_ok by reflexivity.
Qed.

(** ** RemoveStorage *)

Lemma mf_close_ok mf s :
  healthy s → mf_close (mf, s) = (Ok tt, (set_mf_open false (set_mf_data None mf), s)).
Proof.
  intros Hs. unfold mf_close, mbind, M_bind, get, mret, M_ret, mfSys, zoom. cbn [fst snd].
  destruct mf as [op f [d|] sz ro g]; destruct op; cbn [mf_data mf_open fst snd set_mf_data set_mf_open].
  all: rewrite ?syscall_healthy by done; cbn [fst snd]; rewrite ?syscall_healthy by done; done.
Qed.

Definition released (m : MMKV) : MMKV :=
  let rel mf := set_mf_open false (set_mf_data None mf) in
  set_meta (rel (meta m)) (set_data (rel (data m)) (set_closed true m)).

Lemma Close_ok s :
  healthy (env s) → closed (st s) = false →
  Close s = (Ok tt, mkSt (released (st s)) (if mf_open (meta (st s)) then set_held Unheld (env s) else env s)).
Proof.
  intros He Hc. unfold Close. erewrite bind_ok by reflexivity. rewrite Hc. erewrite bind_ok by reflexivity.
  unfold firstErr, closeMeta, onData, onMeta, zoom. cbn [set_st st env].
  rewrite mf_close_ok by exact He. cbn [fst snd st env]. rewrite mf_close_ok by exact He.
  cbn [meta set_data set_closed]. by destruct (mf_open _).
Qed.

(** The files of an instance, which a removal leaves without a name. *)
Definition on_disk (f : fs) (i : instance) : Prop :=
  is_Some (inodes f !! i_data i) ∧ is_Some (inodes f !! i_meta i).

Lemma set_inode_same f n b : inodes f !! n = Some b → set_inode n b f = f.
Proof. intros Hn. unfold set_inode. rewrite insert_id by done. by destruct f. Qed.

(** Closing through the process leaves its files and its environment alone. *)
Lemma release_ok k i p :
  p_insts p !! k = Some i → healthy (p_env p) → closed (i_m i) = false → on_disk (p_fs p) i →
  ∃ i', release k p = (Ok tt, set_p_insts (<[k := i']> (p_insts p)) p) ∧ closed (i_m i') = true.
Proof.
  intros Hi He Hc [[b Hb] [c Hm]]. unfold release, call. rewrite Hi, Close_ok by done.
  exists (mkInstance (released (st (attach i p))) (if mf_open (meta (st (attach i p))) then Unheld else i_held i) (i_changes i) (i_data i) (i_meta i)).
  split; [f_equal; unfold detach|reflexivity].
  cbn [attach st env released data meta set_meta set_data set_closed set_mf_open set_mf_data set_mf_file mf_file].
  rewrite Hb, Hm. cbn [default id].
  rewrite (set_inode_same _ (i_meta i)) by done. rewrite set_inode_same by done.
  unfold own_env, set_p_insts. destruct p as [f [] ????]. by destruct (mf_open _).
Qed.

(** The cached instance of a path is closed and forgotten, both files are gone,
    and no other file is touched. *)
Lemma RemoveStorage_ok rootDir mmapID p z :
  registry_ok p z → healthy (p_env p) → fs_ok (p_fs p) →
  (∀ k i, cached rootDir mmapID p = Some k → p_insts p !! k = Some i → on_disk (p_fs p) i) →
  ∃ p', RemoveStorage rootDir mmapID p = (Ok tt, p')
    ∧ cached rootDir mmapID p' = None
    ∧ (∀ k, cached rootDir mmapID p = Some k → ∃ i, p_insts p' !! k = Some i ∧ closed (i_m i) = true)
    ∧ content (p_fs p') (dataPathFor rootDir mmapID) = None
    ∧ content (p_fs p') (metaPathFor rootDir mmapID) = None
    ∧ (∀ q, q ≠ dataPathFor rootDir mmapID → q ≠ metaPathFor rootDir mmapID →
         content (p_fs p') q = content (p_fs p) q)
    ∧ inodes (p_fs p') = inodes (p_fs p) ∧ p_env p' = p_env p ∧ fs_ok (p_fs p').
Proof.
  intros Hg He Hf Hd. destruct (removeFiles_ok rootDir mmapID (p_fs p) (p_env p) He Hf)
    as (f'&Hr&Hf'&H1&H2&H3&H4).
  unfold RemoveStorage. erewrite bind_ok by reflexivity. unfold cached in *.
  destruct (p_registry p !! registryKey (p_wd p) rootDir mmapID) as [k|] eqn:E.
  - destruct (rg_entry _ _ Hg _ k E) as (_&i&Hi&Hk&Hc). specialize (Hd k i eq_refl Hi).
    set (p1 := set_p_registry (delete (key (i_m i)) (p_registry p)) p).
    destruct (release_ok k i p1 Hi He Hc Hd) as (i'&Hrel&Hc').
    eexists. split.
    { erewrite bind_ok.
      2:{ unfold ignore, CloseInstance, unregister, mbind at 1, M_bind at 1. rewrite Hi, decide_True by (by rewrite Hk).
          fold p1. rewrite Hrel. reflexivity. }
      unfold onFs, zoom. cbn [p_fs p_env set_p_insts p1 set_p_registry]. rewrite Hr. reflexivity. }
    cbn. rewrite Hk. split; [by rewrite lookup_delete_eq|].
    split; [|by split_and!]. intros j [= <-]. exists i'. by rewrite lookup_insert_eq.
  - eexists. split; [erewrite bind_ok by reflexivity; unfold onFs, zoom; rewrite Hr; reflexivity|].
    cbn. by split_and!.
Qed.

(** ** The file system stays well formed *)

Lemma set_inode_fs_ok n b f : fs_ok f → is_Some (inodes f !! n) → fs_ok (set_inode n b f).
Proof.
  intros [Hn Hs Hf] Hi. split; cbn [names inodes set_inode nextIno]; [|done|].
  - intros q j Hq. destruct (Hn q j Hq) as [H1 H2]. split; [|done].
    destruct (decide (n = j)) as [->|Hij]; [by rewrite lookup_insert_eq|by rewrite lookup_insert_ne].
  - intros j Hj. rewrite lookup_insert_ne; [by apply Hf|]. intros <-. rewrite Hf in Hi by done. by destruct Hi.
Qed.

Lemma call_fs_ok {A} k (c : M St A) p :
  fs_ok (p_fs p) → (∀ i, p_insts p !! k = Some i → on_disk (p_fs p) i) → fs_ok (p_fs (call k c p).2).
Proof.
  intros Hf Hd. unfold call. destruct (p_insts p !! k) as [i|] eqn:Hi; [|done].
  destruct (Hd i eq_refl) as [H1 H2]. destruct (c (attach i p)) as [o s]. cbn [snd detach p_fs].
  apply set_inode_fs_ok; [by apply set_inode_fs_ok|]. cbn [inodes set_inode].
  destruct (decide (i_meta i = i_data i)) as [->|?]; [by rewrite lookup_insert_eq|by rewrite lookup_insert_ne].
Qed.

Section openings.
Context `{Platform}.

Lemma keep_fs_ok q b f : fs_ok f → fs_ok (keep q b f).
Proof. destruct b as [b|]; [|done]. intros Hf. apply (up_ok [q] f), written_updated, Hf. Qed.

(** Opening keeps the file system well formed. *)
Lemma MMKVWithID_fs_ok rootDir mmapID opts p :
  fs_ok (p_fs p) → fs_ok (p_fs (MMKVWithID rootDir mmapID opts p).2).
Proof.
  intros Hf. unfold MMKVWithID. destruct (registered _ _); [done|].
  assert (∀ m, fs_ok (p_fs (openInstance m p).2)) as Ho.
  { intros m. unfold openInstance. destruct (openFiles _). apply keep_fs_ok, keep_fs_ok, Hf. }
  specialize (Ho (instanceFor rootDir mmapID (registryKey (p_wd p) rootDir mmapID) (configOf opts))).
  destruct (openInstance _ _) as [[] p']; exact Ho.
Qed.

End openings.
