(* ===== verification/ProcessSpec.v ===== *)
(** * The stores of a process

    A method called through the process does to its instance what it does to the
    store alone, and nothing to another instance; what a session leaves in the
    files is what the next session finds. *)

From S2P Require Import Prelude GoInt Wire Crc32 Meta Dict Crypt Path MemFile Files Flock Store StoreOps.
From S2P Require Import StoreInv StoreWrite StoreRun Handlers Open Refine Registry RegistrySpec BackupSpec.

(** The two files of a data path. *)
Definition pathsOf (dp : gostring) : list gostring := [dp; dp ++ crcSuffix].

Lemma pathsOf_apart dp q : q ≠ dp → q ≠ dp ++ crcSuffix → q ∉ pathsOf dp.
Proof. intros H1 H2 [|[|[]%not_elem_of_nil]%elem_of_cons]%elem_of_cons; done. Qed.

(** The instance as a method left it. *)
Definition left (i : instance) (s : St) : instance :=
  mkInstance (st s) (held (env s)) (changes (env s)) (i_data i) (i_meta i).

Lemma set_mf_file_same mf : set_mf_file (mf_file mf) mf = mf.
Proof. by destruct mf. Qed.

(** What a method leaves is what the next one finds. *)
Lemma attach_detach k i s p : i_data i ≠ i_meta i → attach (left i s) (detach k i s p) = s.
Proof.
  intros Hne. unfold attach, detach, left. cbn [i_m i_held i_changes i_data i_meta p_fs p_env].
  cbn [inodes set_inode]. rewrite lookup_insert_eq, lookup_insert_ne, lookup_insert_eq by done.
  cbn [default id]. rewrite !set_mf_file_same. by destruct s as [[] []].
Qed.

(** An instance whose bytes did not change. *)
Lemma attach_same j p p' :
  inodes (p_fs p') !! i_data j = inodes (p_fs p) !! i_data j →
  inodes (p_fs p') !! i_meta j = inodes (p_fs p) !! i_meta j →
  attach j p' = mkSt (st (attach j p)) (set_changes (i_changes j) (set_held (i_held j) (p_env p'))).
Proof. intros E1 E2. unfold attach. cbn [st]. by rewrite E1, E2. Qed.

(** A method changes the files of its instance only. *)
Lemma detach_updated k i s p dp :
  fs_ok (p_fs p) → names (p_fs p) !! dp = Some (i_data i) →
  names (p_fs p) !! (dp ++ crcSuffix) = Some (i_meta i) →
  updated (pathsOf dp) (p_fs p) (p_fs (detach k i s p)).
Proof.
  intros Hf Hd Hm. split; cbn [detach p_fs names set_inode]; [|done|done|].
  - apply set_inode_fs_ok; [apply set_inode_fs_ok; [done|apply (fs_named _ Hf _ _ Hm)]|].
    cbn [inodes set_inode]. rewrite lookup_insert_ne; [apply (fs_named _ Hf _ _ Hd)|].
    apply not_eq_sym. by eapply dp_meta_inodes.
  - intros n Hn. cbn [inodes set_inode]. rewrite !lookup_insert_ne; [done| |]; intros <-.
    + by apply (Hn (dp ++ crcSuffix)); [apply list_elem_of_further, list_elem_of_here|].
    + by apply (Hn dp); [apply list_elem_of_here|].
Qed.

Section stores.
Context `{Platform}.

(** The instance [k] of the process is open on the files of the data path and
    represents a model. *)
Record serves (p : proc) (k : nat) (i : instance) (dp : gostring) (d : model) : Prop := {
  se_inst : p_insts p !! k = Some i;
  se_data : names (p_fs p) !! dp = Some (i_data i);
  se_meta_file : names (p_fs p) !! (dp ++ crcSuffix) = Some (i_meta i);
  se_model : represents (attach i p) d;
}.
Definition stores (p : proc) (k : nat) (dp : gostring) (d : model) : Prop := ∃ i, serves p k i dp d.

(** A store only needs its environment to be healthy, and its own lock. *)
Lemma represents_env m e e' d :
  represents (mkSt m e) d → healthy e' → held e' = held e → represents (mkSt m e') d.
Proof.
  intros [[Hs He Hl Hc Hr] Hok Hp Hsec Hfl] He' Hh. split; try done. split; try done.
  destruct Hl as (H0&H1&Hw). split; [exact H0|]. split; [exact H1|]. exact (eq_trans Hh Hw).
Qed.

(** What happens at a data path: its files and the instances from [n] on may
    change. *)
Record happens (dp : gostring) (n : nat) (p p' : proc) : Prop := {
  ha_files : updated (pathsOf dp) (p_fs p) (p_fs p');
  ha_insts j : (j < n)%nat → p_insts p' !! j = p_insts p !! j;
  ha_env : quiet (p_env p) (p_env p');
  ha_wd : p_wd p' = p_wd p;
}.

Lemma happens_trans dp n n' p1 p2 p3 :
  (n ≤ n')%nat → happens dp n p1 p2 → happens dp n' p2 p3 → happens dp n p1 p3.
Proof.
  intros Hn [U1 I1 E1 W1] [U2 I2 E2 W2].
  split; [by eapply updated_trans| |by etransitivity|exact (eq_trans W2 W1)].
  intros j Hj. by rewrite I2, I1 by lia.
Qed.

(** It leaves the other stores alone. *)
Lemma stores_other dp n p p' j q d :
  stores p j q d → happens dp n p p' → (j < n)%nat → q ∉ pathsOf dp → q ++ crcSuffix ∉ pathsOf dp →
  healthy (p_env p) → stores p' j q d.
Proof.
  intros (i&[Hi Hd Hm Hr]) [Hu Hins Hq0 _] Hj Hq Hq' He.
  assert (∀ r n, r ∉ pathsOf dp → names (p_fs p) !! r = Some n →
    inodes (p_fs p') !! n = inodes (p_fs p) !! n) as Hsame.
  { intros r x Hrn Hn. apply (up_inodes _ _ _ Hu). intros r' Hr' Hn'.
    by rewrite (fs_single _ (up_ok _ _ _ Hu) _ _ _ Hn' (up_names _ _ _ Hu _ _ Hn)) in Hr'. }
  exists i. split; [by rewrite Hins|by apply (up_names _ _ _ Hu)..|].
  rewrite (attach_same i p p' (Hsame _ _ Hq Hd) (Hsame _ _ Hq' Hm)).
  apply (represents_env (st (attach i p)) (env (attach i p))); [exact Hr| |done].
  exact (quiet_healthy _ _ Hq0 He).
Qed.

Lemma exec_keeps os : keeps (exec os).
Proof.
  induction os as [|o os IH]; intros s; cbn [exec]; [done|].
  pose proof (run_keeps o s) as Ho. destruct (run o s) as [[[]| | |] s']; cbn [snd] in *; try done.
  by rewrite (IH s').
Qed.

(** A sequence of operations, through the process. *)
Lemma call_refines os p k i dp d :
  fs_ok (p_fs p) → serves p k i dp d →
  feasible (now (p_env p)) os d (actualSize (i_m i)) (encrypted (i_m i)) →
  ∃ i' p', call k (exec os) p = (Ok tt, p')
    ∧ serves p' k i' dp (steps (now (p_env p)) os d) ∧ happens dp k p p'
    ∧ p_registry p' = p_registry p ∧ p_next p' = p_next p
    ∧ key (i_m i') = key (i_m i) ∧ crypt (i_m i') = rekeys os (crypt (i_m i)).
Proof.
  intros Hf [Hi Hd Hm Hr] Hfe.
  destruct (exec_refines os (attach i p) d (actualSize (i_m i)) Hr (Z.le_refl _) Hfe) as (s&Hrun&Hrs&Hq&Hc).
  pose proof (exec_keeps os (attach i p)) as Hk. rewrite Hrun in Hk. unfold identity, identityM in Hk. cbn [snd] in Hk.
  exists (left i s), (detach k i s p). split; [unfold call; by rewrite Hi, Hrun|].
  split; [|split; [|split; [done|split; [done|split; [|exact Hc]]]]].
  - split; [apply lookup_insert_eq|done|done|]. rewrite attach_detach; [done|by eapply dp_meta_inodes].
  - split; [by apply detach_updated| |by destruct Hq as (Hq1&Hq2&_)|done].
    intros j Hj. cbn [detach p_insts]. rewrite lookup_insert_ne; [done|lia].
  - by injection Hk.
Qed.

(** Closing leaves the files as they are. *)
Lemma CloseInstance_serves p k i dp d :
  fs_ok (p_fs p) → healthy (p_env p) → serves p k i dp d → p_registry p !! key (i_m i) = Some k →
  ∃ p', CloseInstance k p = (Ok tt, p') ∧ p_registry p' = delete (key (i_m i)) (p_registry p)
    ∧ p_fs p' = p_fs p ∧ p_next p' = p_next p ∧ happens dp k p p'.
Proof.
  intros Hf He [Hi Hd Hm Hr] Hreg. set (p1 := set_p_registry (delete (key (i_m i)) (p_registry p)) p).
  destruct (release_ok k i p1 Hi He (ru_open _ _ (rp_running _ _ Hr))) as (i'&Hrel&_).
  { split; [apply (fs_named _ Hf _ _ Hd)|apply (fs_named _ Hf _ _ Hm)]. }
  eexists. split.
  { unfold CloseInstance. erewrite bind_ok; [exact Hrel|]. unfold unregister. by rewrite Hi, decide_True by done. }
  split; [done|]. split; [done|]. split; [done|]. split; [by apply updated_refl| |done|done].
  intros j Hj. cbn [set_p_insts p1 set_p_registry p_insts]. rewrite lookup_insert_ne; [done|lia].
Qed.

(** ** Opening *)

(** The model after its files are opened again: the default lifetime is not
    stored. *)
Definition reopened (d : model) : model := mkModel (md_map d) ((fun _ => 0) <$> md_expire d).

(** The files of a data path, under a key: none, or those of a store. *)
Inductive disk (f : fs) (dp : gostring) (c : option aesCFB) : model → Prop :=
  | disk_none :
      content f dp = None → content f (dp ++ crcSuffix) = None → disk f dp c (mkModel ∅ None)
  | disk_store m d :
      content f dp = Some (mf_file (data m)) → content f (dp ++ crcSuffix) = Some (mf_file (meta m)) →
      store_ok m (repMap d) → model_ok d → enableExpire m = bool_decide (is_Some (md_expire d)) →
      enableExpire m = expireEnabled (info m) → crypt m = c → disk f dp c d.

Lemma repMap_reopened d : repMap (reopened d) = repMap d.
Proof. unfold repMap, reopened. cbn [md_map md_expire]. by destruct (md_expire d). Qed.

(** Opening the files of a store serves its model. *)
Lemma reopens_model m d m0 e :
  store_ok m (repMap d) → model_ok d → enableExpire m = bool_decide (is_Some (md_expire d)) →
  enableExpire m = expireEnabled (info m) → brand_new m0 → crypt m0 = crypt m → expiredSeconds m0 = 0 →
  healthy e → held e = Unheld →
  ∃ s, opened m0 e (Some (mf_file (data m))) (Some (mf_file (meta m))) s ∧ represents s (reopened d).
Proof.
  intros Hs Hok Hp Hfl Hn Hc Hsec He Hh.
  destruct (reopen_ok m (repMap d) m0 e Hs Hn Hc He Hh) as (s&Ho&Hr&Hx&Hi&_).
  exists s. split; [done|]. split.
  - by rewrite repMap_reopened.
  - intros k v Hv. destruct (Hok k v Hv) as (?&?&H0). split_and!; try done.
    intros Hx'. apply H0. unfold reopened in Hx'. cbn in Hx'. by destruct (md_expire d).
  - rewrite Hx, Hp. unfold reopened. cbn. by destruct (md_expire d).
  - intros n Hx'. rewrite (od_seconds _ _ _ _ _ Ho), Hsec. unfold reopened in Hx'. cbn in Hx'.
    by destruct (md_expire d); simplify_eq/=.
  - by rewrite Hx, Hi.
Qed.

Lemma disk_opens f dp d m0 e :
  disk f dp (crypt m0) d → brand_new m0 → dict m0 = ∅ → expiredSeconds m0 = 0 → healthy e → held e = Unheld →
  ∃ s, opened m0 e (content f dp) (content f (dp ++ crcSuffix)) s ∧ represents s (reopened d).
Proof.
  intros Hdisk Hn Hd Hsec He Hh. inversion Hdisk as [E1 E2|m d' E1 E2 Hs Hok Hp Hfl Hc]; subst; rewrite E1, E2.
  - destruct (open_fresh m0 e Hn Hd He Hh) as (s&Ho&Hr&Hx&Hi&_).
    exists s. split; [done|]. split; try done. by rewrite Hx, Hi.
  - by apply reopens_model.
Qed.

(** Files that were opened have a name and their bytes. *)
Lemma names_written q b f : fs_ok f → is_Some (names (Files.written q b f) !! q).
Proof.
  intros Hf. pose proof (content_written q b f Hf) as Hc. unfold content in Hc.
  by destruct (names (Files.written q b f) !! q).
Qed.

(** An instance whose opening succeeds is left as its opening made it, on the
    files of its data path. *)
Lemma openInstance_opens m p s :
  let dp := dataPathFor (rootDir m) (mmapID m) in
  fs_ok (p_fs p) →
  opened m (set_changes 0 (set_held Unheld (p_env p)))
    (content (p_fs p) dp) (content (p_fs p) (dp ++ crcSuffix)) s →
  ∃ i p', openInstance m p = (Ok i, p')
    ∧ updated (pathsOf dp) (p_fs p) (p_fs p') ∧ p_env p' = p_env p
    ∧ names (p_fs p') !! dp = Some (i_data i) ∧ names (p_fs p') !! (dp ++ crcSuffix) = Some (i_meta i)
    ∧ content (p_fs p') dp = Some (mf_file (data (st s)))
    ∧ content (p_fs p') (dp ++ crcSuffix) = Some (mf_file (meta (st s)))
    ∧ attach i p' = s ∧ i_m i = st s ∧ i_held i = Unheld.
Proof.
  intros dp Hf [Ho Hck _ Ee _ _]. unfold openInstance. fold dp. rewrite Ho. cbn [op_st op_data op_meta].
  set (b := mf_file (data (st s))). set (c := mf_file (meta (st s))).
  assert (∀ x : bool, (if x then Some b else Some b) = Some b) as Eb by (by intros []).
  assert (∀ x : bool, (if x then Some c else Some c) = Some c) as Ec by (by intros []).
  fold b c. rewrite Eb, Ec. cbn [keep].
  pose proof (written_updated dp b (p_fs p) Hf) as Hu1. set (f1 := Files.written dp b (p_fs p)) in *.
  pose proof (written_updated (dp ++ crcSuffix) c f1 (up_ok _ _ _ Hu1)) as Hu2.
  set (f2 := Files.written (dp ++ crcSuffix) c f1) in *.
  assert (dp ≠ dp ++ crcSuffix) as Hne.
  { intros E. apply (f_equal length) in E. rewrite length_app in E. cbn in E. lia. }
  assert (content f2 (dp ++ crcSuffix) = Some c) as Hc2 by apply content_written, Hu1.
  assert (content f2 dp = Some b) as Hb2.
  { rewrite (updated_content _ _ _ _ Hu2); [by apply content_written|]. by intros ?%list_elem_of_singleton. }
  destruct (names f2 !! dp) as [nd|] eqn:End; [|unfold content in Hb2; by rewrite End in Hb2].
  destruct (names f2 !! (dp ++ crcSuffix)) as [nm|] eqn:Enm; [|unfold content in Hc2; by rewrite Enm in Hc2].
  eexists _, _. split; [reflexivity|]. cbn [p_fs set_p_fs p_env set_p_env i_data i_meta i_m i_held default id].
  split; [|split; [by rewrite Ee; unfold own_env; destruct (p_env p)|]].
  { eapply updated_trans; eapply updated_weaken; [|exact Hu1| |exact Hu2].
    - intros r ->%list_elem_of_singleton. apply list_elem_of_here.
    - intros r ->%list_elem_of_singleton. apply list_elem_of_further, list_elem_of_here. }
  do 4 (split; [done|]). split; [|split; [done|by rewrite Ee]].
  unfold attach. cbn [i_m i_held i_changes i_data i_meta p_fs p_env set_p_fs set_p_env].
  rewrite (content_inode _ _ _ _ Hb2 End), (content_inode _ _ _ _ Hc2 Enm). cbn [default id].
  unfold b, c. rewrite !set_mf_file_same. by destruct s as [[] []].
Qed.

(** ** A session *)

Definition keyOf (opts : list MMKVOption) : option aesCFB := keyed (cf_cryptKey (configOf opts)).

(** What opening a store that is not in the registry makes of the process: one
    more instance, registered, on the files of its data path. *)
Record joins (rootDir mmapID : gostring) (p p' : proc) (i : instance) (s : St) : Prop := {
  jn_inst : p_insts p' !! p_next p = Some i;
  jn_attach : attach i p' = s;
  jn_struct : i_m i = st s;
  jn_held : i_held i = Unheld;
  jn_data : names (p_fs p') !! dataPathFor rootDir mmapID = Some (i_data i);
  jn_meta : names (p_fs p') !! (dataPathFor rootDir mmapID ++ crcSuffix) = Some (i_meta i);
  jn_content : content (p_fs p') (dataPathFor rootDir mmapID) = Some (mf_file (data (st s)));
  jn_content_meta :
    content (p_fs p') (dataPathFor rootDir mmapID ++ crcSuffix) = Some (mf_file (meta (st s)));
  jn_happens : happens (dataPathFor rootDir mmapID) (p_next p) p p';
  jn_others : ∀ j, j ≠ p_next p → p_insts p' !! j = p_insts p !! j;
  jn_registry : p_registry p' = <[registryKey (p_wd p) rootDir mmapID := p_next p]> (p_registry p);
  jn_next : p_next p' = S (p_next p);
  jn_key : key (i_m i) = registryKey (p_wd p) rootDir mmapID;
}.

Lemma MMKVWithID_opens rootDir mmapID opts p s :
  let dp := dataPathFor rootDir mmapID in
  fs_ok (p_fs p) → cached rootDir mmapID p = None →
  opened (instanceFor rootDir mmapID (registryKey (p_wd p) rootDir mmapID) (configOf opts))
    (set_changes 0 (set_held Unheld (p_env p)))
    (content (p_fs p) dp) (content (p_fs p) (dp ++ crcSuffix)) s →
  ∃ i p', MMKVWithID rootDir mmapID opts p = (Ok (p_next p), p') ∧ joins rootDir mmapID p p' i s.
Proof.
  intros dp Hf Hca Hop. set (q := registryKey (p_wd p) rootDir mmapID) in *.
  set (m := instanceFor rootDir mmapID q (configOf opts)) in *.
  destruct (openInstance_opens m p s Hf Hop) as (i&p1&Ho&Hu&Ee&Hd&Hm&Hcd&Hcm&Hat&Hst&Hh).
  pose proof (openInstance_proc m p) as (E1&E2&E3&E4). rewrite Ho in E1, E2, E3, E4. cbn [snd] in E1, E2, E3, E4.
  destruct (openInstance_identity m p i p1 Ho) as [Hk _].
  assert (registered q p = None) as Hreg by (unfold registered; unfold cached in Hca; fold q in Hca; by rewrite Hca).
  eexists i, _. split.
  { unfold MMKVWithID. fold q m. rewrite Hreg, Ho, E1, E2, E3, E4. reflexivity. }
  split; cbn [p_insts p_fs p_registry p_next]; try done; [apply lookup_insert_eq| |].
  - split; cbn [p_fs p_insts p_env p_wd]; [done| |by rewrite Ee|done]. intros j Hj. rewrite lookup_insert_ne; [done|lia].
  - intros j Hj. by rewrite lookup_insert_ne.
Qed.

Lemma instanceFor_brand_new rootDir mmapID q opts :
  cf_readOnly (configOf opts) = false → brand_new (instanceFor rootDir mmapID q (configOf opts)).
Proof. intros Hro. unfold instanceFor. rewrite Hro. apply newMMKV_brand_new. Qed.

Lemma MMKVWithID_serves rootDir mmapID opts p d :
  let dp := dataPathFor rootDir mmapID in
  let k := p_next p in
  fs_ok (p_fs p) → healthy (p_env p) → cached rootDir mmapID p = None → cf_readOnly (configOf opts) = false →
  disk (p_fs p) dp (keyOf opts) d →
  ∃ i p', MMKVWithID rootDir mmapID opts p = (Ok k, p') ∧ serves p' k i dp (reopened d)
    ∧ happens dp k p p' ∧ cached rootDir mmapID p' = Some k ∧ p_next p' = S k
    ∧ key (i_m i) = registryKey (p_wd p) rootDir mmapID ∧ crypt (i_m i) = keyOf opts.
Proof.
  intros dp k Hf He Hca Hro Hdisk. set (m := instanceFor rootDir mmapID (registryKey (p_wd p) rootDir mmapID) (configOf opts)).
  destruct (disk_opens (p_fs p) dp d m (set_changes 0 (set_held Unheld (p_env p)))) as (s&Hop&Hr);
    [done|by apply instanceFor_brand_new|done..|].
  destruct (MMKVWithID_opens rootDir mmapID opts p s Hf Hca Hop) as (i&p'&Ho&[]).
  exists i, p'. split; [exact Ho|]. split; [|split; [done|split; [|split; [done|split; [done|]]]]].
  - split; try done. by rewrite jn_attach0.
  - unfold cached. rewrite (ha_wd _ _ _ _ jn_happens0), jn_registry0. apply lookup_insert_eq.
  - rewrite jn_struct0. apply (od_crypt _ _ _ _ _ Hop).
Qed.

(** The files an open store stands on are those of its model. *)
Lemma serves_disk p k i dp d :
  fs_ok (p_fs p) → serves p k i dp d → disk (p_fs p) dp (crypt (i_m i)) d.
Proof.
  intros Hf [_ Hd Hm [Hrun Hok Hp _ Hfl]].
  destruct (fs_named _ Hf _ _ Hd) as [[b Hb] _]. destruct (fs_named _ Hf _ _ Hm) as [[c Hc] _].
  apply (disk_store _ _ _ (st (attach i p))); try done; [| |apply Hrun].
  all: unfold content, attach; rewrite ?Hd, ?Hm, ?Hb, ?Hc; done.
Qed.

(** Closing and opening again. *)
Lemma reopens p k i rootDir mmapID opts d :
  let dp := dataPathFor rootDir mmapID in
  fs_ok (p_fs p) → healthy (p_env p) → serves p k i dp d → cached rootDir mmapID p = Some k →
  key (i_m i) = registryKey (p_wd p) rootDir mmapID → cf_readOnly (configOf opts) = false →
  keyOf opts = crypt (i_m i) → (k ≤ p_next p)%nat →
  ∃ p1 k' p2, CloseInstance k p = (Ok tt, p1) ∧ MMKVWithID rootDir mmapID opts p1 = (Ok k', p2)
    ∧ stores p2 k' dp (reopened d) ∧ happens dp k p p2.
Proof.
  intros dp Hf He Hs Hca Hk Hro Hkey Hle.
  destruct (CloseInstance_serves p k i dp d Hf He Hs) as (p1&Hc&Ereg&Efs&En&Hha).
  { rewrite Hk. exact Hca. }
  destruct (MMKVWithID_serves rootDir mmapID opts p1 d) as (i'&p2&Ho&Hs'&Hha'&_).
  - by rewrite Efs.
  - exact (quiet_healthy _ _ (ha_env _ _ _ _ Hha) He).
  - unfold cached. rewrite Ereg, (ha_wd _ _ _ _ Hha), Hk. apply lookup_delete_eq.
  - done.
  - rewrite Efs, Hkey. by eapply serves_disk.
  - exists p1, (p_next p1), p2. split; [done|]. split; [done|]. split; [by exists i'|].
    rewrite En in Hha'. by eapply happens_trans.
Qed.

End stores.
