(* ===== verification/ReaderSpec.v ===== *)
(** * What the reader sees, and what the writer leaves

    The reader's snapshot of a store's files is the map the store stands for;
    a failed reload keeps the last snapshot; the files [Flush] leaves are those
    of a fresh store with the writer's pairs. *)

From S2P Require Import Prelude GoInt Wire Crc32 Meta Dict Crypt MemFile Flock Store StoreOps.
From S2P Require Import StoreInv StoreWrite StoreRun Handlers Open Recovery Api ApiSpec Refine Reader Writer.

(** ** Snapshots *)

Lemma snapshotOf_ok (dec : option Decryptor) meta data plain vd :
  let a := sizeOf meta data in
  0 ≤ a → a + 4 ≤ len data → 4 + a < 2 ^ 32 →
  crc32_ChecksumIEEE (sub data 4 (Z.to_nat a)) = mi_crcDigest meta →
  match dec with None => Ok (sub data 4 (Z.to_nat a))
               | Some d => d (sub data 4 (Z.to_nat a)) (mi_iv meta) end = Ok plain →
  parseDict plain = Ok vd →
  snapshotOf dec meta data
  = Ok (mkSnap meta data (show plain vd) ((versionFlag <=? mi_version meta) && expireEnabled meta)).
Proof.
  intros a H0 Hl Hw Hc Hd Hp. unfold snapshotOf. fold (sizeOf meta data). fold a. bfalse.
  rewrite u32_small by (unfold is_u32; lia). rewrite slice_ok by lia. cbn [mbind outcome_bind].
  replace (Z.to_nat (4 + a - 4)) with (Z.to_nat a) by lia. change (Z.to_nat 4) with 4%nat.
  rewrite Hc, Z.eqb_refl. cbn [negb]. rewrite Hd. cbn [mbind outcome_bind]. by rewrite Hp.
Qed.

Lemma snapshotOf_meta dec meta dfile sn : snapshotOf dec meta dfile = Ok sn → sn_meta sn = meta.
Proof.
  unfold snapshotOf. fold (sizeOf meta dfile). destruct (len dfile <? _); [done|].
  destruct (slice _ _ _) as [region| | |]; try done. cbn [mbind outcome_bind].
  destruct (negb _); [done|].
  destruct (match dec with None => Ok region | Some d => d region (mi_iv meta) end) as [plain| | |];
    try done.
  cbn [mbind outcome_bind]. destruct (parseDict plain); try done. by intros [= <-].
Qed.

(** A decryptor that returns on every region and every 16-byte IV. *)
Definition dec_total (dec : option Decryptor) : Prop :=
  ∀ d ct iv, dec = Some d → length iv = 16%nat → returns (d ct iv).

Lemma aes_total k : dec_total (Decrypt <$> k).
Proof.
  intros d ct iv Hd Hiv. destruct k as [a|]; [|done]. injection Hd as <-.
  by destruct (Decrypt_ok a ct iv Hiv) as (p&->&_).
Qed.

(** Building a snapshot never panics, whatever the files hold. *)
Lemma snapshotOf_returns dec meta data :
  dec_total dec → meta_wf meta → len data < 2 ^ 32 → returns (snapshotOf dec meta data).
Proof.
  intros Ht Hm Hlen. unfold snapshotOf. fold (sizeOf meta data).
  pose proof (sizeOf_u32 meta data Hm) as Hu. unfold is_u32 in Hu.
  destruct (len data <? sizeOf meta data + 4) eqn:E; bsplit; [done|].
  rewrite u32_small by (unfold is_u32; lia). rewrite slice_ok by lia. cbn [mbind outcome_bind].
  destruct (negb _); [done|]. set (region := sub data _ _).
  assert (returns (match dec with None => Ok region | Some d => d region (mi_iv meta) end)) as Hd.
  { destruct dec as [d|]; [|done]. by apply Ht; [|apply Hm]. }
  destruct (match dec with None => _ | Some _ => _ end) as [plain| | |]; try done. cbn [mbind outcome_bind]. pose proof (parseDict_spec plain) as Hp. by destruct (parseDict plain).
Qed.

(** The snapshot of a store's files is the map it stands for. *)
Lemma store_snapshot `{Platform} m b live :
  store_ok m b → published m live →
  ∃ sn, snapshotOf (Decrypt <$> crypt m) live (mf_file (data m)) = Ok sn ∧ sn_m sn = b ∧ sn_meta sn = live
    ∧ sn_expire sn = enableExpire m.
Proof.
  intros Hs [Hlive Hacc]. destruct (so_meta _ _ Hs) as (live'&Hlive'&Hl).
  assert (live' = live) as -> by congruence.
  destruct Hl as [(_&Ha&Hc&Hi)|(Hno&_)]; [|congruence].
  destruct (so_plain _ _ Hs) as (plain&vd&Hd&Hp&Hb). pose proof (so_files _ _ Hs) as Hf.
  pose proof (sizeOf_readActualSize m live (fo_data _ Hf)) as Esz. rewrite <-Ha in Esz.
  eexists. split; [apply (snapshotOf_ok _ _ _ plain vd)|]; rewrite ?Esz; try apply Hs.
  - pose proof (so_fits _ _ Hs). lia.
  - rewrite <-Hc, (so_crc _ _ Hs). done.
  - unfold decrypts in Hd. rewrite Hi in Hd. destruct (crypt m); [done|by subst plain].
  - done.
  - split; [done|]. split; [done|]. cbn. rewrite <-Hi. symmetry. apply Hs.
Qed.

(** A store that was rolled back on load: the reader does not roll back. *)
Lemma rolled_back_snapshot `{Platform} m b live :
  store_ok m b → parseMeta (mf_file (meta m)) = Ok live →
  acceptable m (readActualSize (set_info live m)) (mi_crcDigest live) = Ok false →
  len (mf_file (data m)) < 2 ^ 32 →
  snapshotOf (Decrypt <$> crypt m) live (mf_file (data m)) = Err ErrActualSize
  ∨ snapshotOf (Decrypt <$> crypt m) live (mf_file (data m)) = Err ErrCRCMismatch.
Proof.
  intros Hs Hlive Hacc Hlen. pose proof (so_files _ _ Hs) as Hf.
  rewrite <-sizeOf_readActualSize in Hacc by apply Hf.
  pose proof (sizeOf_u32 live (mf_file (data m)) (parseMeta_wf _ _ Hlive)) as Hu. unfold is_u32 in Hu.
  unfold snapshotOf. fold (sizeOf live (mf_file (data m))).
  destruct (_ <? _) eqn:E; bsplit; [by left|right].
  revert Hacc. unfold acceptable, crcValid. rewrite memory_ok by apply Hf. do 2 btrue. cbn [andb].
  rewrite regionOf_ok by (apply Hf || lia). cbn [mbind outcome_bind]. intros [= Hne].
  rewrite u32_small by (unfold is_u32; lia). rewrite slice_ok by lia. cbn [mbind outcome_bind].
  replace (Z.to_nat (4 + sizeOf live (mf_file (data m)) - 4))
    with (Z.to_nat (sizeOf live (mf_file (data m)))) by lia.
  change (Z.to_nat 4) with 4%nat. by rewrite Hne.
Qed.

(** ** The reader over a store's files *)

(** The reader has the store's files open, with the store's key. *)
Record views (s : RSt) (m : MMKV) : Prop := {
  vw_data : dk_data (disk s) = Some (mf_file (data m));
  vw_meta : dk_meta (disk s) = Some (mf_file (meta m));
  vw_gone : dk_gone (disk s) = None;
  vw_map : rd_crcMmap (rdr s) = Some (len (mf_file (meta m)));
  vw_dec : rd_dec (rdr s) = Decrypt <$> crypt m;
  vw_env : healthy (dk_env (disk s));
}.

Lemma views_crcBytes s m live :
  views s m → parseMeta (mf_file (meta m)) = Ok live → crcBytes s = Ok (mf_file (meta m)).
Proof.
  intros [_ Hm Hg Hl _ _] Hp. unfold crcBytes, mappedFile. rewrite Hl, Hm, Hg. cbn [default id].
  rewrite decide_False by (by intros E; rewrite E in Hp). by rewrite Nat2Z.id, take_app_length.
Qed.

Lemma metaTuple_ok s m live :
  views s m → parseMeta (mf_file (meta m)) = Ok live →
  metaTuple s = Ok (mi_crcDigest live, mi_actualSize live, mi_sequence live).
Proof.
  intros Hv Hp. unfold metaTuple. rewrite (views_crcBytes s m live Hv Hp). cbn [mbind outcome_bind].
  unfold parseMeta in Hp. destruct (len (mf_file (meta m)) <? Z.of_nat metaSize) eqn:E; [done|].
  injection Hp as <-. bsplit. unfold metaSize in E.
  unfold offCRC, offActualSize, offSequence.
  rewrite !slice_ok by lia. done.
Qed.

(** The environment after a shared lock was taken and given back. *)
Definition relocked (e : sys) : sys := set_held Unheld (set_held HeldShared e).

Lemma flock_healthy op e : healthy e → flock op e = (Ok tt, set_held (mode_of op) e).
Proof. intros He. unfold flock. by rewrite Flock_healthy. Qed.

Lemma reloadLocked_spec s m live :
  views s m → parseMeta (mf_file (meta m)) = Ok live → mi_version live ≤ maxSupportedVersion →
  let s' := set_dk_env (relocked (dk_env (disk s))) s in
  match snapshotOf (Decrypt <$> crypt m) live (mf_file (data m)) with
  | Ok sn => reloadLocked s = (Ok tt, set_rdr (publish sn (rdr s)) s')
  | Err e => reloadLocked s = (Err e, s')
  | _ => True
  end.
Proof.
  intros Hv Hp Hver s'. pose proof (vw_env _ _ Hv) as He.
  assert (flockShared s = (Ok tt, set_dk_env (set_held HeldShared (dk_env (disk s))) s)) as Hlk.
  { unfold flockShared, rdSys, zoom. by rewrite flock_healthy. }
  set (s1 := set_dk_env (set_held HeldShared (dk_env (disk s))) s) in *.
  assert (crcBytes s1 = Ok (mf_file (meta m))) as Hb by exact (views_crcBytes s m live Hv Hp).
  assert (∀ s2, dk_env (disk s2) = set_held HeldShared (dk_env (disk s)) →
    flockUnlock s2 = (Ok tt, set_dk_env (relocked (dk_env (disk s))) s2)) as Hun.
  { intros s2 E2. unfold flockUnlock, ignore, rdSys, zoom. rewrite E2.
    by rewrite flock_healthy by done. }
  unfold reloadLocked. erewrite bind_ok by exact Hlk.
  assert (buildSnapshot (mf_file (meta m)) s1 = (snapshotOf (Decrypt <$> crypt m) live (mf_file (data m)), s1)) as Hbs.
  { unfold buildSnapshot. erewrite bind_ok by (unfold lift; rewrite Hp; reflexivity). bfalse.
    erewrite bind_ok.
    2: { unfold readDataFile. erewrite bind_ok by (unfold rdSys, zoom; rewrite syscall_healthy by done; reflexivity).
      erewrite bind_ok by reflexivity. cbn [disk set_dk_env dk_data].
      change (dk_data (disk s1)) with (dk_data (disk s)). rewrite (vw_data _ _ Hv). reflexivity. }
    erewrite bind_ok by reflexivity.
    change (rdr (set_dk_env (dk_env (disk s1)) s1)) with (rdr s). rewrite (vw_dec _ _ Hv). done. }
  assert ((s0 ← get; buf ← lift (crcBytes s0); reloadFrom buf) s1 = match snapshotOf (Decrypt <$> crypt m) live (mf_file (data m)) with
    | Ok sn => (Ok tt, set_rdr (publish sn (rdr s)) s1) | Err e => (Err e, s1)
    | Panic => (Panic, s1) | NoFuel => (NoFuel, s1) end) as Hrl.
  { erewrite bind_ok by reflexivity. rewrite Hb. erewrite bind_ok by reflexivity. unfold reloadFrom, mbind, M_bind. rewrite Hbs.
    by destruct (snapshotOf _ _ _). }
  unfold deferring. rewrite Hrl. destruct (snapshotOf _ _ _) as [sn|e| |]; [| |done..]; by rewrite Hun.
Qed.

(** The three words of a meta struct. *)
Definition words (live : metaInfo) : Z * Z * Z := (mi_crcDigest live, mi_actualSize live, mi_sequence live).

(** What a Reader keeps: the key, the mapping of the meta file, and the snapshot
    with the words it was built for. *)
Record holding (r : Reader) (c : option aesCFB) (n : Z) (t : Z * Z * Z) (sn : snapshot) : Prop := {
  ho_dec : rd_dec r = Decrypt <$> c;
  ho_map : rd_crcMmap r = Some n;
  ho_snap : rd_snap r = Some sn;
  ho_words : (rd_loadedCRC r, rd_loadedActual r, rd_loadedSeq r) = t;
}.

Lemma holding_fresh r c n t sn t' : holding r c n t sn → tupleFresh r t' = bool_decide (t' = t).
Proof.
  intros [_ _ _ <-]. unfold tupleFresh. destruct t' as [[x y] z]. cbn [fst snd]. apply eq_true_iff_eq.
  rewrite !andb_true_iff, !Z.eqb_eq, bool_decide_eq_true. split; [by intros [[-> ->] ->]|by intros [= -> -> ->]].
Qed.

(** A reload of the files of a published store installs its map. *)
Lemma reload_published `{Platform} s m b live :
  views s m → store_ok m b → published m live →
  ∃ s' sn, reloadLocked s = (Ok tt, s') ∧ sn_m sn = b ∧ sn_expire sn = enableExpire m
    ∧ holding (rdr s') (crypt m) (len (mf_file (meta m))) (words live) sn
    ∧ now (dk_env (disk s')) = now (dk_env (disk s)).
Proof.
  intros Hv Hs Hpub. destruct (store_snapshot m b live Hs Hpub) as (sn&Hsn&Hb&Hm&Hx).
  assert (mi_version live ≤ maxSupportedVersion) as Hver.
  { destruct (so_meta _ _ Hs) as (live'&Hl'&Hlp). destruct Hpub as [Hl _].
    assert (live' = live) as -> by congruence. pose proof (so_version _ _ Hs).
    destruct Hlp as [(_&_&_&<-)|(_&_&_&_&Hi)]; [done|]. by rewrite Hi in *. }
  pose proof (reloadLocked_spec s m live Hv (proj1 Hpub) Hver) as Hr. rewrite Hsn in Hr.
  eexists _, sn. split; [exact Hr|]. split; [done|]. split; [done|]. split; [|done].
  destruct Hv. split; try done. cbn. by rewrite Hm.
Qed.

(** The three words of the meta file the reader watches. *)
Definition canary (m : MMKV) : Z * Z * Z := words (info m).

(** ** A corrupted byte *)

Lemma sub_insert (f : bytes) off i n x :
  (i < n)%nat → sub (<[(off + i)%nat := x]> f) off n = <[i := x]> (sub f off n).
Proof.
  intros Hi. unfold sub. rewrite drop_insert_ge by lia. rewrite take_insert_lt by lia.
  f_equal. lia.
Qed.

(** Neither a load nor a snapshot accepts a region with one byte changed. *)
Lemma corrupted_byte `{Platform} m b i x y :
  store_ok m b → settled m → len (mf_file (data m)) < 2 ^ 32 →
  region m !! i = Some y → x ≠ y →
  let f := <[(4 + i)%nat := x]> (mf_file (data m)) in
  acceptable (set_data (set_mf_file f (data m)) m) (actualSize m) (crcDigest m) = Ok false
  ∧ snapshotOf (Decrypt <$> crypt m) (info m) f = Err ErrCRCMismatch.
Proof.
  intros Hs Hse Hl Hy Hne f. pose proof (so_files _ _ Hs) as Hf.
  pose proof (so_actual _ _ Hs) as H0. pose proof (so_fits _ _ Hs) as Hfit.
  assert (length f = length (mf_file (data m))) as Hlf by apply length_insert.
  assert (i < Z.to_nat (actualSize m))%nat as Hi.
  { apply lookup_lt_Some in Hy. unfold region in Hy. rewrite length_sub in Hy by lia. done. }
  assert (crc32_ChecksumIEEE (sub f 4 (Z.to_nat (actualSize m))) ≠ crcDigest m) as Hcrc.
  { unfold f. rewrite sub_insert by done. rewrite (so_crc _ _ Hs). by eapply crc32_insert. }
  split.
  - assert (mf_ok (set_mf_file f (data m))) as Hok by (apply mf_ok_set_file; [apply Hf|done]).
    rewrite acceptable_cases; cbn [data set_data mf_file set_mf_file]; [|done|by rewrite Hlf|done].
    by rewrite (proj2 (Z.eqb_neq _ _) Hcrc), andb_false_r.
  - unfold snapshotOf. pose proof (se_version _ Hse). btrue. rewrite (se_actual _ Hse), (se_crc _ Hse), Hlf.
    bfalse. rewrite u32_small by (unfold is_u32; lia). rewrite slice_ok by lia. cbn [mbind outcome_bind].
    replace (Z.to_nat (4 + actualSize m - 4)) with (Z.to_nat (actualSize m)) by lia.
    change (Z.to_nat 4) with 4%nat. by rewrite (proj2 (Z.eqb_neq _ _) Hcrc).
Qed.

(** ** Reads *)

(** With the canary unchanged, a read uses the snapshot it has, without a
    system call. *)
Lemma current_stable s m live sn :
  views s m → parseMeta (mf_file (meta m)) = Ok live →
  tupleFresh (rdr s) (mi_crcDigest live, mi_actualSize live, mi_sequence live) = true →
  rd_snap (rdr s) = Some sn → current s = (Ok sn, s).
Proof.
  intros Hv Hp Hf Hsn. unfold current, ensureFresh.
  erewrite bind_ok.
  2: { erewrite bind_ok by reflexivity.
    erewrite bind_ok by (unfold lift; rewrite (metaTuple_ok s m live) by done; reflexivity).
    rewrite Hf. reflexivity. }
  erewrite bind_ok by reflexivity. unfold lift. by rewrite Hsn.
Qed.

(** With the canary changed, a read reloads. *)
Lemma current_changed s m live :
  views s m → parseMeta (mf_file (meta m)) = Ok live →
  tupleFresh (rdr s) (mi_crcDigest live, mi_actualSize live, mi_sequence live) = false →
  current s = (_ ← reloadRecording; s' ← get;
               lift (match rd_snap (rdr s') with Some sn => Ok sn | None => Panic end)) s.
Proof.
  intros Hv Hp Hf.
  assert (ensureFresh s = reloadRecording s) as He.
  { unfold ensureFresh. erewrite bind_ok by reflexivity.
    erewrite bind_ok by (unfold lift; rewrite (metaTuple_ok s m live) by done; reflexivity).
    rewrite Hf. erewrite bind_ok by reflexivity.
    erewrite bind_ok by (unfold lift; rewrite (metaTuple_ok s m live) by done; reflexivity).
    by rewrite Hf. }
  unfold current, mbind, M_bind. by rewrite He.
Qed.

(** After a write to the files, the next read sees the new map. *)
Lemma current_fresh `{Platform} s m b live :
  views s m → store_ok m b → published m live →
  tupleFresh (rdr s) (mi_crcDigest live, mi_actualSize live, mi_sequence live) = false →
  ∃ s' sn, current s = (Ok sn, s') ∧ sn_m sn = b ∧ sn_expire sn = enableExpire m
    ∧ holding (rdr s') (crypt m) (len (mf_file (meta m))) (words live) sn
    ∧ now (dk_env (disk s')) = now (dk_env (disk s)).
Proof.
  intros Hv Hs Hpub Hf. rewrite (current_changed s m live Hv (proj1 Hpub) Hf).
  destruct (reload_published s m b live Hv Hs Hpub) as (s'&sn&Hr&Hb&Hx&Hho&Hn).
  exists s', sn. split_and!; try done.
  erewrite bind_ok by (unfold reloadRecording; rewrite Hr; reflexivity).
  erewrite bind_ok by reflexivity. unfold lift. by rewrite (ho_snap _ _ _ _ _ Hho).
Qed.

(** A reload that fails keeps the snapshot, and records the error. *)
Lemma current_keeps s m live sn e :
  views s m → parseMeta (mf_file (meta m)) = Ok live → mi_version live ≤ maxSupportedVersion →
  tupleFresh (rdr s) (mi_crcDigest live, mi_actualSize live, mi_sequence live) = false →
  rd_snap (rdr s) = Some sn → snapshotOf (Decrypt <$> crypt m) live (mf_file (data m)) = Err e →
  ∃ s', current s = (Ok sn, s') ∧ rd_lastErr (rdr s') = Some e ∧ rd_snap (rdr s') = Some sn.
Proof.
  intros Hv Hp Hver Hf Hsn He. rewrite (current_changed s m live Hv Hp Hf).
  pose proof (reloadLocked_spec s m live Hv Hp Hver) as Hr. rewrite He in Hr.
  cbv zeta in Hr. set (s1 := set_dk_env _ s) in Hr.
  exists (set_rdr (set_rd_lastErr e (rdr s1)) s1). split; [|split; [done|exact Hsn]].
  erewrite bind_ok by (unfold reloadRecording; rewrite Hr; reflexivity).
  erewrite bind_ok by reflexivity. unfold lift. cbn. by rewrite Hsn.
Qed.

(** The value of a key in a snapshot is what a reader of the store sees. *)
Lemma snapshot_value_ok sn nowUnix k :
  snapshot_value sn nowUnix k
  = sn_m sn !! k ≫= (fun v => if sn_expire sn then strip nowUnix v else Some v).
Proof.
  unfold snapshot_value, strip. destruct (sn_m sn !! k) as [v|]; [|done]. cbn [mbind option_bind].
  by destruct (sn_expire sn); cbn [andb].
Qed.

(** ** The reader and the live store agree *)

Lemma reader_getter {A} (dec : M codedInput A) s k sn s' :
  total_dec dec → current s = (Ok sn, s') →
  ∃ o, snapshotAs dec k s = (Ok o, s')
    ∧ decodes dec (snapshot_value sn (now (dk_env (disk s'))) k) = Ok o.
Proof.
  intros Ht Hc. destruct (decodes_total dec (snapshot_value sn (now (dk_env (disk s'))) k) Ht) as [o Ho].
  exists o. split; [|done]. unfold snapshotAs, withValue. erewrite bind_ok by exact Hc.
  erewrite bind_ok by reflexivity. unfold lift. f_equal. exact Ho.
Qed.

(** A reader and the live store give the same answers, key by key and as lists
    of keys. *)
Lemma snapshot_seen s b m sn k :
  enableExpire m = enableExpire (st s) → sn_m sn = b → sn_expire sn = enableExpire m →
  snapshot_value sn (now (env s)) k = seen s b !! k.
Proof.
  intros Hm Hb Hx. rewrite snapshot_value_ok, Hb, Hx, Hm. unfold seen, visible. by rewrite lookup_omap.
Qed.

Lemma reader_agrees `{Platform} `{Platform} {A} (c : codec A) set get `{!Accessors c set get} s b r :
  running s b → settled (st s) → views r (st s) → now (dk_env (disk r)) = now (env s) →
  tupleFresh (rdr r) (canary (st s)) = false →
  ∀ k, ∃ o s' r', get k s = (Ok o, s') ∧ snapshotAs (c_dec c) k r = (Ok o, r').
Proof.
  intros Hr Hse Hv Hn Hf k.
  destruct (current_fresh r (st s) b (info (st s)) Hv (ru_store _ _ Hr)) as (r'&sn&Hc&Hb&Hx&_&Hn');
    [by apply (settled_published _ b), Hse; apply Hr|done|].
  destruct (reader_getter (c_dec c) r k sn r' acc_total Hc) as (o&Ho&Hd).
  destruct (getter_ok c set get s b k Hr) as (o'&s'&Hg&Hd'&_).
  rewrite Hn', Hn, (snapshot_seen s b (st s)) in Hd by done.
  exists o, s', r'. split; [|done]. rewrite Hg. do 2 f_equal. congruence.
Qed.

(** The list of keys: those with a value, in order. *)
Lemma Reader_Keys_ok r sn r' :
  current r = (Ok sn, r') →
  ∃ ks, Reader_Keys r = (Ok ks, r') ∧ Sorted bytes_le ks ∧ NoDup ks
    ∧ ∀ k, k ∈ ks ↔ is_Some (snapshot_value sn (now (dk_env (disk r'))) k).
Proof.
  intros Hc. eexists. split.
  { unfold Reader_Keys. erewrite bind_ok by exact Hc. erewrite bind_ok by reflexivity. reflexivity. }
  split; [apply Sorted_merge_sort, _|]. rewrite merge_sort_Permutation. split.
  - apply NoDup_ListNoDup, List.NoDup_filter, NoDup_ListNoDup, NoDup_fst_map_to_list.
  - intros k. rewrite merge_sort_Permutation, list_elem_of_In, filter_In, <-list_elem_of_In, list_elem_of_fmap. split.
    + intros [_ Hk]. by destruct (snapshot_value sn _ k).
    + intros [w Hw]. rewrite Hw. split; [|done].
      rewrite snapshot_value_ok in Hw. destruct (sn_m sn !! k) as [v|] eqn:Hbk; [|done].
      exists (k, v). split; [done|]. by apply elem_of_map_to_list.
Qed.

Lemma reader_keys_agree `{Platform} `{Platform} s b r :
  running s b → settled (st s) → views r (st s) → now (dk_env (disk r)) = now (env s) →
  tupleFresh (rdr r) (canary (st s)) = false →
  ∃ ks s' r', AllKeys s = (Ok ks, s') ∧ Reader_Keys r = (Ok ks, r').
Proof.
  intros Hr Hse Hv Hn Hf.
  destruct (current_fresh r (st s) b (info (st s)) Hv (ru_store _ _ Hr)) as (r'&sn&Hc&Hb&Hx&_&Hn');
    [by apply (settled_published _ b), Hse; apply Hr|done|].
  destruct (AllKeys_ok s b Hr) as (ks&s'&Ha&_&Hs&Hnd&Hin).
  destruct (Reader_Keys_ok r sn r' Hc) as (ks'&Hk&Hs'&Hnd'&Hin'). exists ks, s', r'. split; [done|].
  rewrite Hk. do 2 f_equal. apply (Sorted_unique bytes_le); [done..|].
  apply NoDup_Permutation; [done..|]. intros k. rewrite Hin, Hin', Hn', Hn.
  by rewrite (snapshot_seen s b (st s)).
Qed.

(** ** The offline writer *)

(** The order lists the keys of the map. *)
Definition writer_ok (w : Writer) : Prop :=
  ∀ k, k ∈ wr_order w ↔ is_Some (wr_blob w !! k).

Lemma NewWriter_ok : writer_ok NewWriter.
Proof.
  intros k. change (k ∈ ([] : list gostring) ↔ is_Some ((∅ : bdict) !! k)). rewrite lookup_empty.
  split; [by intros ?%elem_of_nil|by intros []].
Qed.

Lemma wr_set_ok w k v : writer_ok w → writer_ok (wr_set k v w).
Proof.
  unfold writer_ok. intros Hw j. unfold wr_set. cbn [wr_order wr_blob]. destruct (decide (j = k)) as [->|Hj].
  - rewrite lookup_insert_eq. split; [eauto|intros _]. destruct (wr_blob w !! k) as [x|] eqn:E.
    + apply Hw. eauto.
    + apply elem_of_app. right. by apply list_elem_of_singleton.
  - rewrite lookup_insert_ne by done. rewrite <-Hw.
    destruct (wr_blob w !! k); [done|]. rewrite elem_of_app, list_elem_of_singleton.
    split; [by intros [?| ->]|by left].
Qed.

Lemma closing_healthy mf d : healthy (dk_env d) → closing mf d = (Ok tt, d).
Proof.
  intros He. destruct d as [x y g e]. unfold closing, onEnv, zoom. cbn [dk_env] in *.
  assert ((mf_close (mf, e)).2.2 = e) as Hc.
  { unfold mf_close, mbind, M_bind, get, mret, M_ret. cbn [fst snd].
    destruct (mf_data mf), (mf_open mf); unfold mfSys, zoom; cbn [fst snd];
      repeat (rewrite syscall_healthy by done; cbn [fst snd]); done. }
  destruct (mf_close (mf, e)) as [o [mf' e']]. cbn [snd] in Hc. by subst e'.
Qed.

Section flush.
Context `{Platform}.

(** What [Flush] leaves on disk. *)
Record flushed (w : Writer) (d : Disk) : Prop := {
  fd_data : ∃ file, dk_data d = Some file
    ∧ 4 + len (encodeRegion (wr_order w) (wr_blob w)) ≤ len file ∧ pageRoundUp 0 ≤ len file
    ∧ sub file 4 (length (encodeRegion (wr_order w) (wr_blob w))) = encodeRegion (wr_order w) (wr_blob w);
  fd_meta : ∃ file, dk_meta d = Some file ∧ pageRoundUp (Z.of_nat metaSize) ≤ len file
    ∧ parseMeta file = Ok (freshMeta (crc32_ChecksumIEEE (encodeRegion (wr_order w) (wr_blob w)))
        (len (encodeRegion (wr_order w) (wr_blob w))));
}.

Lemma freshMeta_wf crc actual : is_u32 crc → is_u32 actual → meta_wf (freshMeta crc actual).
Proof. intros Hc Ha. by split. Qed.

Lemma Flush_ok w d :
  4 + len (encodeRegion (wr_order w) (wr_blob w)) < 2 ^ 32 → healthy (dk_env d) →
  ∃ d', Flush w d = (Ok tt, d') ∧ flushed w d' ∧ dk_env d' = dk_env d.
Proof.
  intros Hw He. destruct d as [x y g e]. cbn [dk_env] in He. unfold Flush.
  set (region := encodeRegion _ _) in *. cbv zeta. rewrite u32_small by (unfold is_u32; lia).
  erewrite bind_ok by (unfold onEnv, zoom; cbn [dk_env]; rewrite syscall_healthy by done; reflexivity).
  cbn [dk_data dk_meta dk_env].
  destruct (openMemoryFile_ok (len region + 4) x e He) as (df&Hdf&Hdok&Hdfile&Hdr).
  destruct (openMemoryFile_ok (Z.of_nat metaSize) y e He) as (mt&Hmt&Hmok&Hmfile&Hmr).
  erewrite bind_ok by (unfold onDataFile, zoom; cbn [dk_env dk_data dk_meta]; rewrite Hdf; reflexivity).
  cbn [fst snd dk_data dk_meta dk_env].
  pose proof (padded_len (len region + 4) (default [] x)) as Hpl. rewrite <-Hdfile in Hpl.
  pose proof (pageRoundUp_ge (len region + 4)) as Hge.
  pose proof (padded_len (Z.of_nat metaSize) (default [] y)) as Hpm. rewrite <-Hmfile in Hpm.
  pose proof (pageRoundUp_ge (Z.of_nat metaSize)) as Hgm.
  set (df1 := set_mf_file (splice (mf_file df) (Z.to_nat 0) (zeros 4)) df).
  assert (mf_ok df1) as Hok1 by (apply poke_mf_ok; [done|lia|rewrite length_zeros; lia]).
  assert (length (mf_file df1) = length (mf_file df)) as L1
    by (apply length_splice; rewrite length_zeros; lia).
  set (df2 := set_mf_file (splice (mf_file df1) (Z.to_nat 4) region) df1).
  assert (length (mf_file df2) = length (mf_file df)) as L2
    by (cbn [df2 set_mf_file mf_file]; rewrite length_splice; lia).
  assert (meta_wf (freshMeta (crc32_ChecksumIEEE region) (len region))) as Hwf
    by (apply freshMeta_wf; [auto with mmkv|unfold is_u32; lia]).
  set (mt1 := set_mf_file (splice (mf_file mt) 0
    (marshal (freshMeta (crc32_ChecksumIEEE region) (len region)))) mt).
  exists (mkDisk (Some (mf_file df2)) (Some (mf_file mt1)) g e). split; [|split; [split|done]].
  - apply (deferring_ok _ _ _ _ (mkDisk (Some (mf_file df2)) (Some (mf_file mt1)) g e)); [|by apply closing_healthy].
    erewrite bind_ok by (unfold lift; rewrite poke_ok by (done || (rewrite ?length_zeros; lia)); reflexivity).
    fold df1. rewrite u32_small by (unfold is_u32; lia).
    erewrite bind_ok by (unfold lift; rewrite memory_ok, slice_ok by (done || lia); reflexivity).
    rewrite length_sub by lia.
    replace (Z.to_nat (4 + len region - 4)) with (length region) by lia. rewrite firstn_all.
    erewrite bind_ok by (unfold lift; rewrite poke_ok by (done || lia); reflexivity). fold df2.
    erewrite bind_ok by reflexivity.
    erewrite bind_ok by (unfold onEnv, zoom; cbn [dk_env fst snd]; rewrite syscall_healthy by done; reflexivity).
    cbn [fst snd dk_data dk_meta dk_env].
    erewrite bind_ok by (unfold onMetaFile, zoom; cbn [dk_env dk_data dk_meta fst snd]; rewrite Hmt; reflexivity).
    cbn [fst snd dk_data dk_meta dk_env].
    apply (deferring_ok _ _ _ _ (mkDisk (Some (mf_file df2)) (Some (mf_file mt1)) g e)); [|by apply closing_healthy].
    erewrite bind_ok by (unfold lift; rewrite copyAt_ok by
      (done || (rewrite ?length_marshal by apply Hwf; lia)); reflexivity).
    erewrite bind_ok by reflexivity. unfold onEnv, zoom. cbn [dk_env fst snd].
    by rewrite syscall_healthy.
  - fold region. exists (mf_file df2). split; [done|]. split; [lia|].
    pose proof (pageRoundUp_mono 0 (len region + 4)). split; [lia|].
    change (mf_file df2) with (splice (mf_file df1) 4 region).
    rewrite sub_splice_same; [done|done|lia].
  - fold region. exists (mf_file mt1). split; [done|]. split.
    { cbn [mt1 set_mf_file mf_file]. rewrite length_splice; [lia|]. rewrite length_marshal by apply Hwf. lia. }
    cbn [mt1 set_mf_file mf_file]. unfold splice. cbn [take app].
    by apply parseMeta_marshal_app.
Qed.

(** What [Open] loads from flushed files: the writer's pairs. *)
Lemma flushed_snapshot w d :
  writer_ok w → bdict_ok (wr_blob w) → sizes_ok (wr_blob w) →
  4 + len (encodeRegion (wr_order w) (wr_blob w)) < 2 ^ 32 → flushed w d →
  ∃ data meta live sn, dk_data d = Some data ∧ dk_meta d = Some meta ∧ parseMeta meta = Ok live
    ∧ mi_version live = versionFlag
    ∧ snapshotOf None live data = Ok sn ∧ sn_m sn = wr_blob w ∧ sn_expire sn = false.
Proof.
  intros Hw Hok Hsz Hlen [(data&Hd&Hl&_&Hr) (meta&Hm&_&Hp)].
  destruct (parseDict_encodeRegion (wr_order w) (wr_blob w) Hw Hok Hsz) as (vd&Hvd&Hsh).
  set (region := encodeRegion _ _) in *.
  exists data, meta, (freshMeta (crc32_ChecksumIEEE region) (len region)). eexists.
  do 4 (split; [done|]). split.
  - set (live := freshMeta _ _). assert (sizeOf live data = len region) as Esz by done.
    apply (snapshotOf_ok _ _ _ region vd); rewrite ?Esz, ?Nat2Z.id, ?Hr; done || lia.
  - done.
Qed.

(** What MMKVWithID makes of flushed files: a store of the writer's pairs, none
    of which expires. *)
Definition pairsModel (b : bdict) : model := mkModel ((λ v, (v, 0)) <$> b) None.

Lemma repMap_pairs b : repMap (pairsModel b) = b.
Proof.
  unfold repMap, pairsModel. cbn [md_map md_expire]. rewrite <-map_fmap_compose. apply map_fmap_id.
Qed.

Lemma pairsModel_ok b : bdict_ok b → model_ok (pairsModel b).
Proof.
  intros Hb k e Hk. unfold pairsModel in Hk. cbn [md_map] in Hk. apply lookup_fmap_Some in Hk as (v&<-&Hv).
  split; [apply (Hb k v Hv)|]. by split.
Qed.

Lemma flushed_opens w d m0 e :
  writer_ok w → bdict_ok (wr_blob w) → sizes_ok (wr_blob w) →
  4 + len (encodeRegion (wr_order w) (wr_blob w)) < 2 ^ 32 → flushed w d →
  brand_new m0 → crypt m0 = None → healthy e → held e = Unheld →
  ∃ s, open (dk_data d) (dk_meta d) (mkSt m0 e) = (Ok tt, s) ∧ represents s (pairsModel (wr_blob w)).
Proof.
  intros Hw Hok Hsz Hlen [(data&Hd&Hl&Hpg&Hr) (meta&Hm&Hpm&Hp)] Hn Hc He Hh.
  destruct (parseDict_encodeRegion (wr_order w) (wr_blob w) Hw Hok Hsz) as (vd&Hvd&Hsh).
  set (region := encodeRegion _ _) in *. rewrite Hd, Hm.
  destruct (opens_region m0 e (Some data) (Some meta) (freshMeta (crc32_ChecksumIEEE region) (len region))
    region vd (len region)) as (s&Ho&Hrun&Hx&Hi&_); try done; cbn [default id]; rewrite ?padded_id by done;
    rewrite ?Nat2Z.id, ?Hr; try done; try lia.
  - unfold decrypts. cbn [crypt set_info]. by rewrite Hc.
  - by rewrite Hsh.
  - exists s. split; [by eapply opened_open|]. rewrite Hsh in Hrun. split.
    + by rewrite repMap_pairs.
    + by apply pairsModel_ok.
    + by rewrite Hx.
    + done.
    + by rewrite Hx, Hi.
Qed.

(** [Open] on the files of a disk whose snapshot builds: the reader serves it. *)
Lemma openLive_ok k opts d mfile dfile live sn :
  rd_dec (newReader opts) = Decrypt <$> k →
  healthy (dk_env d) → dk_meta d = Some mfile → dk_data d = Some dfile → parseMeta mfile = Ok live →
  mi_version live ≤ maxSupportedVersion → snapshotOf (Decrypt <$> k) live dfile = Ok sn →
  ∃ s', openLive (mkRSt (newReader opts) d) = (Ok tt, s') ∧ current s' = (Ok sn, s')
    ∧ holding (rdr s') k (len mfile) (words live) sn ∧ now (dk_env (disk s')) = now (dk_env d).
Proof.
  intros Hk He Hm Hd Hp Hv Hsn.
  set (m := mkMMKV [] [] [] false false newFileLock (mkMemFile true dfile None 0 false 0)
    (mkMemFile true mfile None 0 false 0) k live ∅ 0 0 false false None false false 0 false false false).
  set (s1 := set_mapped (len mfile) (mkRSt (newReader opts) d)).
  assert (views s1 m) as Hvw by (by split).
  pose proof (reloadLocked_spec s1 m live Hvw Hp Hv) as Hr.
  change (snapshotOf (Decrypt <$> crypt m) live (mf_file (data m))) with (snapshotOf (Decrypt <$> k) live dfile) in Hr.
  rewrite Hsn in Hr. cbv zeta in Hr.
  assert ((len mfile <? Z.of_nat metaSize) = false) as Hlen.
  { unfold parseMeta in Hp. by destruct (len mfile <? Z.of_nat metaSize). }
  eexists. split.
  { assert (∀ r, rdSys syscall (mkRSt r d) = (Ok tt, mkRSt r d)) as Hsys.
    { intros r. unfold rdSys, zoom. cbn [disk rdr]. rewrite syscall_healthy by done.
      unfold set_dk_env. cbn [disk rdr]. by destruct d. }
    unfold openLive. erewrite bind_ok by apply Hsys.
    erewrite bind_ok by reflexivity. cbn [disk]. rewrite Hm.
    assert (orClose (_ ← rdSys syscall; mmapReadonly (len mfile)) (mkRSt (newReader opts) d)
      = (Ok tt, mkRSt (newReader opts) d)) as Hmap.
    { unfold orClose. erewrite bind_ok by apply Hsys. unfold mmapReadonly. by rewrite Hlen, Hsys. }
    erewrite bind_ok by exact Hmap. erewrite bind_ok by reflexivity. exact Hr. }
  pose proof (snapshotOf_meta _ _ _ _ Hsn) as Em.
  split; [|split; [split; try done; cbn; by rewrite Em|done]].
  apply (current_stable _ m live); [by destruct Hvw|done| |done].
  unfold tupleFresh. cbn. by rewrite Em, !Z.eqb_refl.
Qed.

End flush.

(** ** A writer's pairs *)

(** The writer after a list of sets, and the map they make. *)
Definition writes (es : list (gostring * bytes)) : Writer :=
  foldl (fun w e => wr_set e.1 e.2 w) NewWriter es.
Definition writes_map (es : list (gostring * bytes)) : bdict := foldl (fun m e => <[e.1 := e.2]> m) ∅ es.

Lemma writes_ok es :
  Forall (fun e => entry_ok e ∧ e.2 ≠ []) es →
  writer_ok (writes es) ∧ wr_blob (writes es) = writes_map es
  ∧ bdict_ok (writes_map es) ∧ sizes_ok (writes_map es).
Proof.
  unfold writes, writes_map. induction es as [|[k v] es IH] using rev_ind; intros Hes.
  { split; [apply NewWriter_ok|]. split; [done|]. split; apply map_Forall_empty. }
  apply Forall_app in Hes as [Hes He]. apply Forall_inv in He as [(Hk&Lk&Lv) Hv].
  destruct (IH Hes) as (Hw&Hb&Hok&Hsz). rewrite !foldl_app. cbn [foldl fst snd] in *.
  split; [by apply wr_set_ok|]. split; [cbn [wr_set wr_blob]; by rewrite Hb|].
  split; by apply map_Forall_insert_2.
Qed.
