(* ===== verification/SharedSpec.v ===== *)
(** * A store shared by processes

    Instances of several processes, opened with WithMultiProcess on the same
    files, take turns: each finds what the others left, by the sequence number
    and the size in the meta file, and so all of them work on one map.  Between
    Lock and Unlock an instance has the turns to itself. *)

From S2P Require Import Prelude GoInt Wire Crc32 Meta Dict Crypt Path MemFile Files Flock Store StoreOps.
From S2P Require Import StoreInv StoreWrite StoreRun Handlers Open Recovery Api ApiSpec Refine.
From S2P Require Import Registry RegistrySpec BackupSpec ProcessSpec Reader ReaderSpec.

Section shared.
Context `{Platform}.

(** ** A store other processes can follow *)

(** The meta file holds the words in memory, and they describe the region: a
    settled store, or one no write was made to yet. *)
Record tracked (m : MMKV) : Prop := {
  tr_meta : parseMeta (mf_file (meta m)) = Ok (info m);
  tr_actual : mi_actualSize (info m) = actualSize m;
  tr_crc : mi_crcDigest (info m) = crcDigest m;
}.

Lemma settled_tracked m : settled m → tracked m.
Proof. intros []. by split. Qed.

Lemma tracked_ext m m' :
  info m' = info m → mf_file (meta m') = mf_file (meta m) → actualSize m' = actualSize m →
  crcDigest m' = crcDigest m → tracked m → tracked m'.
Proof. intros Ei Em Ea Ec []. split; congruence. Qed.

Lemma tracked_advances m m' : advances m m' → tracked m → tracked m'.
Proof. by intros []; [apply tracked_ext|intros _; apply settled_tracked..]. Qed.

(** What the files say does not depend on how they are mapped. *)
Lemma published_same m m' :
  mf_ok (data m) → mf_ok (data m') → info m' = info m → mf_file (meta m') = mf_file (meta m) →
  mf_file (data m') = mf_file (data m) → published m (info m) → published m' (info m').
Proof.
  intros Hok Hok' Ei Em Ed [Hp Ha]. rewrite Ei. split; [by rewrite Em|].
  rewrite <-sizeOf_readActualSize in Ha |- * by done. rewrite Ed. rewrite <-Ha.
  unfold acceptable, crcValid, regionOf. by rewrite !memory_ok, Ed by done.
Qed.

Lemma published_advances m m' b b' :
  store_ok m b → store_ok m' b' → advances m m' → published m (info m) → published m' (info m').
Proof.
  intros Hs Hs' [Ai Ad Am _ _|? ? Hset _ _ _|Hset _|Hset _] Hp; [|by eapply settled_published..].
  apply (published_same m); try done; [apply Hs|apply Hs'].
Qed.

(** The digest is a function of the words and the bytes. *)
Lemma store_crc_same m m' b b' :
  store_ok m b → store_ok m' b' → mf_file (data m') = mf_file (data m) → actualSize m' = actualSize m →
  crcDigest m' = crcDigest m.
Proof.
  intros Hs Hs' Ed Ea. rewrite (so_crc _ _ Hs), (so_crc _ _ Hs'). unfold region. by rewrite Ed, Ea.
Qed.

(** So is the map. *)
Lemma store_map_same m m' b b' :
  store_ok m b → store_ok m' b' → mf_file (data m') = mf_file (data m) → actualSize m' = actualSize m →
  info m' = info m → crypt m' = crypt m → b' = b.
Proof.
  intros Hs Hs' Ed Ea Ei Ec. destruct (so_plain _ _ Hs) as (plain&vd&Hd&Hp&<-).
  destruct (so_plain _ _ Hs') as (plain'&vd'&Hd'&Hp'&<-).
  assert (region m' = region m) as Er by (unfold region; by rewrite Ed, Ea).
  assert (plain' = plain) as ->.
  { unfold decrypts in *. rewrite Er, Ei, Ec in Hd'. destruct (crypt m); congruence. }
  congruence.
Qed.

(** ** Falling behind *)

(** [m1] has the words and the bytes of [m]. *)
Record abreast (m1 m : MMKV) : Prop := {
  ab_info : info m1 = info m;
  ab_actual : actualSize m1 = actualSize m;
  ab_data : mf_file (data m1) = mf_file (data m);
  ab_meta : mf_file (meta m1) = mf_file (meta m);
}.

(** How what an instance last saw, [m0], may differ from what the files hold now:
    the store was packed since, or only appended to, or not changed. *)
Inductive behind (m0 m : MMKV) : Prop :=
  | behind_pack :
      mi_sequence (info m0) < mi_sequence (info m) → behind m0 m
  | behind_append :
      mi_sequence (info m0) = mi_sequence (info m) → actualSize m0 < actualSize m →
      length (mf_file (data m0)) = length (mf_file (data m)) → behind m0 m
  | behind_not : abreast m0 m → behind m0 m.

(** A write by an instance that was up to date leaves the others behind. *)
Lemma behind_advances m0 m m1 m2 :
  behind m0 m → abreast m1 m → advances m1 m2 → multiProcess m1 = true →
  meta_wf (info m) → mi_sequence (info m) + 1 < 2 ^ 32 → behind m0 m2.
Proof.
  intros Hb [Ei Ea Ed Em] Ha Hm Hw Hq. pose proof (wf_sequence _ Hw) as Hs. unfold is_u32 in Hs.
  destruct Ha as [Ai Ad Am Aa _|c a Hset Ai Aa Ad|_ Ai|_ Ax]; [| | |congruence]; rewrite Ei in Ai.
  - destruct Hb as [Hb|Hb Hba Hbl|[]].
    + apply behind_pack. by rewrite Ai.
    + apply behind_append; [by rewrite Ai|by rewrite Aa, Ea|by rewrite Ad, Ed].
    + apply behind_not. split; congruence.
  - assert (mi_sequence (info m2) = mi_sequence (info m)) as Eq by (by rewrite Ai).
    assert (actualSize m2 = a) as E2 by (by rewrite <-(se_actual _ Hset), Ai).
    destruct Hb as [Hb|Hb Hba Hbl|[]].
    + apply behind_pack. by rewrite Eq.
    + apply behind_append; [by rewrite Eq|lia|by rewrite Ad, Ed].
    + apply behind_append; [by rewrite Eq; congruence|lia|by rewrite Ad, Ed; congruence].
  - rewrite u32_small in Ai by (unfold is_u32; lia). apply behind_pack. rewrite Ai.
    destruct Hb as [Hb|Hb _ _|[Hb _ _ _]]; [lia|lia|rewrite Hb; lia].
Qed.

(** What the files are after a turn, for whoever saw them before. *)
Record onward (m m' : MMKV) : Prop := {
  on_behind m0 : behind m0 m → behind m0 m';
  on_meta_len : length (mf_file (meta m')) = length (mf_file (meta m));
  on_crypt : crypt m' = crypt m;
}.
#[export] Instance onward_refl : Reflexive onward.
Proof. by split. Qed.

(** ** Catching up *)

(** The check under the lock makes of [s] what it makes of [s1], and finds
    nothing more to do there. *)
Record caught (t : lockType) (s s1 : St) : Prop := {
  ct_check : checkLoadData (underLock t s) = (Ok tt, underLock t s1);
  ct_again : checkLoadData (underLock t s1) = (Ok tt, underLock t s1);
  ct_frame : same_frame (st s) (st s1);
  ct_quiet : quiet (env s) (env s1);
}.

Lemma whenMulti_lock t s :
  lock_ok (fl (st s), env s) → healthy (env s) → whenMulti (lock t) s = (Ok tt, underLock t s).
Proof.
  intros Hl He. destruct s as [m e]. unfold whenMulti. erewrite bind_ok by reflexivity. unfold underLock.
  cbn [st env] in *. destruct (multiProcess m); [|done].
  unfold ignore, onLock, zoom. cbn [st env]. by rewrite lock_healthy.
Qed.

Lemma underLock_frame t s : closed (st (underLock t s)) = closed (st s) ∧ readOnly (st (underLock t s)) = readOnly (st s).
Proof. unfold underLock. by destruct (multiProcess (st s)). Qed.

(** So a method cannot tell the two apart. *)
Lemma bracket_caught {A} t (body body' : M St A) s s1 :
  lock_ok (fl (st s), env s) → healthy (env s) → caught t s s1 →
  body (underLock t s) = body' (underLock t s1) →
  (_ ← whenMulti (lock t); deferring (whenMulti (unlock t)) body) s
  = (_ ← whenMulti (lock t); deferring (whenMulti (unlock t)) body') s1.
Proof.
  intros (H0&H1&Hw) He [_ _ Hfr Hq] Hb.
  assert (lock_ok (fl (st s1), env s1)) as Hl1.
  { destruct Hq as (_&_&Hh). unfold lock_ok. cbn [fst snd] in *. rewrite (sf_fl _ _ Hfr), Hh. done. }
  do 2 (erewrite bind_ok; [|apply whenMulti_lock; [done|by eapply quiet_healthy || done]]).
  unfold deferring. by rewrite Hb.
Qed.

Lemma writing_caught {A} (c : M St A) s s1 :
  lock_ok (fl (st s), env s) → healthy (env s) → closed (st s) = false → readOnly (st s) = false →
  caught exclusiveLock s s1 → writing c s = writing c s1.
Proof.
  intros Hl He Hc Hr Hct. apply bracket_caught; [done..|]. destruct Hct as [Hck Hag Hfr _].
  destruct (underLock_frame exclusiveLock s) as [Ec Er]. destruct (underLock_frame exclusiveLock s1) as [Ec1 Er1].
  do 2 (erewrite bind_ok by reflexivity). rewrite Ec, Er, Ec1, Er1, (sf_closed _ _ Hfr), (sf_ro _ _ Hfr), Hc, Hr.
  by rewrite (bind_ok _ _ _ _ _ Hck), (bind_ok _ _ _ _ _ Hag).
Qed.

Lemma reading_caught {A} (z : A) f s s1 :
  lock_ok (fl (st s), env s) → healthy (env s) → closed (st s) = false →
  caught sharedLock s s1 → reading z f s = reading z f s1.
Proof.
  intros Hl He Hc Hct. apply bracket_caught; [done..|]. destruct Hct as [Hck Hag Hfr _].
  destruct (underLock_frame sharedLock s) as [Ec Er]. destruct (underLock_frame sharedLock s1) as [Ec1 Er1].
  do 2 (erewrite bind_ok by reflexivity). rewrite Ec, Ec1, (sf_closed _ _ Hfr), Hc.
  by rewrite (bind_ok _ _ _ _ _ Hck), (bind_ok _ _ _ _ _ Hag).
Qed.

(** On a store that is up to date the check does nothing. *)
Lemma tracked_check m e :
  mf_ok (meta m) → needLoad m = false → tracked m → checkLoadData (mkSt m e) = (Ok tt, mkSt m e).
Proof.
  intros Hm Hn [Hp Ha Hc]. unfold checkLoadData. erewrite bind_ok by reflexivity. cbn [st]. rewrite Hn.
  destruct (multiProcess m); [|done]. cbn [negb]. rewrite memory_ok, Hp by done.
  by rewrite Ha, Hc, !Z.eqb_refl.
Qed.

(** The instance [m0] with the files of [m]. *)
Definition facing (m0 m : MMKV) : MMKV :=
  set_meta (set_mf_file (mf_file (meta m)) (meta m0)) (set_data (set_mf_file (mf_file (data m)) (data m0)) m0).

Lemma facing_facing m0 m m' : facing (facing m0 m) m' = facing m0 m'.
Proof. done. Qed.

Lemma facing_abreast m0 m : abreast m0 m → facing m0 m = m0.
Proof.
  intros [_ _ Ed Em]. unfold facing. rewrite <-Ed, <-Em. destruct m0 as []. cbn. by rewrite !set_mf_file_same.
Qed.

(** An instance that takes part: what it last saw was a store, and the files
    have moved on since. *)
Record partaker (m : MMKV) (m0 : MMKV) : Prop := {
  pk_store : ∃ b0, store_ok m0 b0;
  pk_behind : behind m0 m;
  pk_multi : multiProcess m0 = true;
  pk_open : closed m0 = false;
  pk_rw : readOnly m0 = false;
  pk_crypt : crypt m0 = crypt m;
  pk_meta_len : length (mf_file (meta m0)) = length (mf_file (meta m));
}.

(** The result of catching up: the files' own store. *)
Record uptodate (m0 m m1 : MMKV) (b : bdict) : Prop := {
  cu_store : store_ok m1 b;
  cu_abreast : abreast m1 m;
  cu_tracked : tracked m1;
  cu_frame : same_frame m0 m1;
  cu_crypt : crypt m1 = crypt m;
  cu_seconds : expiredSeconds m1 = expiredSeconds m0;
}.

Lemma mapped_set_file f mf : mf_ok mf → mapped_once (set_mf_file f mf).
Proof. by intros [[g Hd] _]; exists g. Qed.

Lemma partaker_foreign m m0 e b t :
  partaker m m0 → store_ok m b → tracked m → ¬ abreast m0 m → healthy e →
  foreign (underLock t (mkSt (facing m0 m) e)) m (info m).
Proof.
  intros [[b0 Hs0] Hb Hmu _ _ Hc Hl] Hs Ht Hn He. pose proof (so_files _ _ Hs0) as [Fd Fm Rd Rm _ _ _].
  unfold underLock. cbn [st]. change (multiProcess (facing m0 m)) with (multiProcess m0). rewrite Hmu.
  split; [split|..]; cbn [st env]; try done.
  - by apply mf_ok_set_file.
  - by apply mapped_set_file.
  - apply (so_loaded _ _ Hs0).
  - apply Ht.
  - destruct Hb as [Hb|Hb Ha Hbl|Hb]; [left; cbn; lia| |done].
    right. split; [by apply mf_ok_set_file|]. right. rewrite (tr_actual _ Ht). cbn. lia.
Qed.

Lemma behind_or m0 m : behind m0 m → abreast m0 m ∨ ¬ abreast m0 m.
Proof. intros [Hb|Hb Ha _|]; [right|right|by left]; intros [Ei Ea _ _]; rewrite ?Ei, ?Ea in *; lia. Qed.

Lemma underLock_multi t m e :
  multiProcess m = true →
  underLock t (mkSt m e)
  = mkSt (set_fl (spec_lock t (fl m)) m) (set_held (wanted (spec_lock t (fl m))) e).
Proof. intros Hm. unfold underLock. cbn [st env]. by rewrite Hm. Qed.

Lemma set_held_same e h : held e = h → set_held h e = e.
Proof. intros <-. by destruct e. Qed.

(** A state of the lock that is taken is that of a state before. *)
Lemma underLock_back t m e l h :
  multiProcess m = true → fl m = spec_lock t l → held e = wanted (spec_lock t l) →
  underLock t (mkSt (set_fl l m) (set_held h e)) = mkSt m e.
Proof.
  intros Hm Hf Hh. rewrite underLock_multi by done. cbn [fl set_fl].
  change (mkSt (set_fl (spec_lock t l) m) (set_held (wanted (spec_lock t l)) e) = mkSt m e).
  by rewrite <-Hf, set_held_same by (by rewrite Hf).
Qed.

Lemma catch_up t m0 m e b :
  partaker m m0 → store_ok m b → tracked m → healthy e →
  ∃ s1, caught t (mkSt (facing m0 m) e) s1 ∧ uptodate m0 m (st s1) b.
Proof.
  intros Hp Hs Ht He. pose proof Hp as [[b0 Hs0] Hb Hmu _ _ Hc Hml].
  destruct (behind_or _ _ Hb) as [Hab|Hn].
  - rewrite (facing_abreast _ _ Hab). exists (mkSt m0 e).
    assert (tracked m0) as Ht0.
    { destruct Hab as [Ei Ea Ed Em]. apply (tracked_ext m); try done.
      by apply (store_crc_same m m0 b b0). }
    assert (store_ok m0 b) as Hs0'.
    { destruct Hab as [Ei Ea Ed Em]. by rewrite <-(store_map_same m m0 b b0). }
    assert (checkLoadData (underLock t (mkSt m0 e)) = (Ok tt, underLock t (mkSt m0 e))) as Hck.
    { rewrite underLock_multi by done. apply tracked_check; [apply Hs0|apply Hs0|].
      by apply (tracked_ext m0). }
    split; [by split|]. by split.
  - pose proof (partaker_foreign m m0 e b t Hp Hs Ht Hn He) as Hf.
    destruct (checkLoadData_foreign _ m (info m) b Hf Hs) as (m'&Hck&Hr).
    rewrite underLock_multi in Hck, Hr by done. cbn [st] in Hr.
    set (s0 := mkSt _ _) in Hck. set (l := spec_lock t (fl (facing m0 m))) in *.
    pose proof (reloaded_frame _ _ _ _ Hr) as Hfr.
    assert (quiet (env s0) (notified s0)) as Hq.
    { unfold notified, quiet. by destruct (onContentChanged (st s0)). }
    assert (abreast m' m) as Hab.
    { split; [apply Hr|apply Hr|apply Hr|]. by rewrite (rl_meta _ _ _ _ Hr). }
    assert (tracked m') as Ht'.
    { destruct Hab as [Ei Ea Ed Em]. apply (tracked_ext m); try done.
      apply (store_crc_same m m' b b); try done. apply Hr. }
    set (s1 := mkSt (set_fl (fl m0) m') (set_held (held e) (notified s0))).
    assert (underLock t s1 = mkSt m' (notified s0)) as E1.
    { apply underLock_back; [by rewrite (sf_multi _ _ Hfr)|by rewrite (sf_fl _ _ Hfr)|].
      destruct Hq as (_&_&->). done. }
    exists s1. split.
    + split; rewrite ?E1.
      * by rewrite underLock_multi.
      * apply tracked_check; [|apply (so_loaded _ _ (rl_store _ _ _ _ Hr))|done].
        apply (fo_meta _ (so_files _ _ (rl_store _ _ _ _ Hr))).
      * destruct Hfr. by split.
      * destruct Hq as (Hq1&Hq2&_). unfold quiet, s1. cbn. by split_and!.
    + split; try done.
      * apply store_ok_set_fl, Hr.
      * by destruct Hab.
      * by apply (tracked_ext m').
      * destruct Hfr. by split.
      * cbn. transitivity (crypt m0); [apply (sc_crypt _ _ (rl_config _ _ _ _ Hr))|done].
      * apply (sc_seconds _ _ (rl_config _ _ _ _ Hr)).
Qed.

(** ** What a turn does to the others *)

Lemma advances_sequence m1 m2 :
  advances m1 m2 → multiProcess m1 = true → meta_wf (info m1) → mi_sequence (info m1) + 1 < 2 ^ 32 →
  mi_sequence (info m2) ≤ mi_sequence (info m1) + 1.
Proof.
  intros Ha Hm Hw Hq. pose proof (wf_sequence _ Hw) as Hs. unfold is_u32 in Hs.
  destruct Ha as [Ai _ _ _ _|c a _ Ai _ _|_ Ai|_ Ax]; [| | |congruence]; rewrite Ai.
  - lia.
  - cbn. lia.
  - by rewrite u32_small by (unfold is_u32; lia).
Qed.

Lemma onward_grows m m1 m2 b n :
  abreast m1 m → grows m1 m2 b n → multiProcess m1 = true → crypt m2 = crypt m →
  meta_wf (info m) → mi_sequence (info m) + 1 < 2 ^ 32 → onward m m2.
Proof.
  intros Hab [_ Ha Hl] Hm Hc Hw Hq. split; [|by rewrite Hl, (ab_meta _ _ Hab)|done].
  intros m0 Hb. by eapply behind_advances.
Qed.

Lemma partaker_onward m0 m m' : partaker m m0 → onward m m' → partaker m' m0.
Proof. intros [] []. split; try done; [by auto|congruence|congruence]. Qed.

(** An instance that just had its turn is up to date. *)
Lemma partaker_current m0 m m1 b : partaker m m0 → uptodate m0 m m1 b → partaker m m1.
Proof.
  intros [] [Hs Hab _ [] ? _]. split; try congruence; [by exists b|by apply behind_not|].
  by rewrite (ab_meta _ _ Hab).
Qed.

Lemma partaker_self m b :
  store_ok m b → multiProcess m = true → closed m = false → readOnly m = false → partaker m m.
Proof. intros. split; try done; [by exists b|by apply behind_not]. Qed.

(** The caught-up store represents the model that its instance has of it. *)
Lemma current_represents m0 m b d e s1 t :
  partaker m m0 → uptodate m0 m (st s1) b → caught t (mkSt (facing m0 m) e) s1 → healthy e → lock_ok (fl m0, e) →
  b = repMap d → model_ok d → enableExpire m = bool_decide (is_Some (md_expire d)) →
  enableExpire m = expireEnabled (info m) → enableExpire (st s1) = enableExpire m →
  (∀ n, md_expire d = Some n → expiredSeconds m0 = n) → represents s1 d.
Proof.
  intros Hp [Hs Hab _ Hfr _ Hsec] Hct He Hl -> Hok Hpo Hfl Hx Hn.
  pose proof (ct_quiet _ _ _ Hct) as Hq. cbn [env] in Hq. destruct Hq as (Hq1&_&Hq3).
  split; [|done|congruence| |].
  - split; [done|unfold healthy in *; congruence| |by rewrite (sf_closed _ _ Hfr), (pk_open _ _ Hp)
      |by rewrite (sf_ro _ _ Hfr), (pk_rw _ _ Hp)].
    unfold lock_ok in *. cbn [fst snd] in *. by rewrite (sf_fl _ _ Hfr), Hq3.
  - intros n En. rewrite Hsec. by apply Hn.
  - by rewrite Hx, (ab_info _ _ Hab).
Qed.

Lemma current_expire m0 m m1 b b' :
  store_ok m b → uptodate m0 m m1 b' → enableExpire m1 = enableExpire m.
Proof.
  intros Hs [Hs1 Hab _ _ _ _]. by rewrite (so_expire _ _ Hs), (so_expire _ _ Hs1), (ab_info _ _ Hab).
Qed.

Lemma run_caught o s s1 :
  lock_ok (fl (st s), env s) → healthy (env s) → closed (st s) = false → readOnly (st s) = false →
  caught exclusiveLock s s1 → run o s = run o s1.
Proof. intros. destruct o; by apply writing_caught. Qed.

End shared.

(** ** The shared map *)

(** What the processes share, and what each instance keeps for itself: its
    default lifetime, which is not stored.  One of them may hold the lock that
    Lock takes, some number of times. *)
Record share := mkShare {
  sa_map : gmap gostring (bytes * Z);
  sa_on : bool;                    (* expiration is on *)
  sa_seconds : gmap nat Z;         (* the instances that take part *)
  sa_next : nat;
  sa_lock : option (nat * positive);
}.
Definition set_sa_lock (o : option (nat * positive)) (S : share) : share :=
  mkShare (sa_map S) (sa_on S) (sa_seconds S) (sa_next S) o.

(** The store as the instance [j] has it. *)
Definition viewOf (S : share) (j : nat) : model :=
  mkModel (sa_map S) (if sa_on S then Some (default 0 (sa_seconds S !! j)) else None).

(** The counters of the lock of the instance [j], between its methods. *)
Definition owned (o : option (nat * positive)) (j : nat) : Z :=
  match o with Some (i, n) => if decide (i = j) then Z.pos n else 0 | None => 0 end.
Definition counter (o : option (nat * positive)) (j : nat) : fileLock := mkFileLock 0 (owned o j).

Lemma owned_count o j : 0 ≤ owned o j.
Proof. unfold owned. destruct o as [[i n]|]; [case_decide|]; lia. Qed.

(** The methods of [j] are granted the lock, and not kept waiting. *)
Definition grants (o : option (nat * positive)) (j : nat) : Prop :=
  match o with Some (i, _) => i = j | None => True end.

(** The owner after [j] has taken the lock, and after [j] has given it back:
    by counting; an Unlock of another instance than the owner does nothing. *)
Definition taken (j : nat) (o : option (nat * positive)) : option (nat * positive) :=
  Some (j, match o with Some (_, n) => Pos.succ n | None => 1%positive end).
Definition givenBack (j : nat) (o : option (nat * positive)) : option (nat * positive) :=
  match o with
  | Some (i, n) => if decide (i = j) then if decide (n = 1%positive) then None else Some (i, Pos.pred n) else o
  | None => None
  end.

(** A process opens the store, an instance writes, reads, takes the lock and
    gives it back. *)
Inductive event :=
  | Enters (opts : list MMKVOption)
  | Writes (j : nat) (o : op)
  | Reads (j : nat) (k : gostring)
  | Locks (j : nat)
  | Unlocks (j : nat).

Definition turn (t : Z) (e : event) (S : share) : share :=
  match e with
  | Enters _ =>
      mkShare (sa_map S) (sa_on S) (<[sa_next S := 0]> (sa_seconds S)) (Datatypes.S (sa_next S)) (sa_lock S)
  | Writes j o =>
      let d := step t o (viewOf S j) in
      mkShare (md_map d) (bool_decide (is_Some (md_expire d)))
        (<[j := lasts o (sa_on S) (default 0 (sa_seconds S !! j))]> (sa_seconds S)) (sa_next S) (sa_lock S)
  | Reads _ _ => S
  | Locks j => set_sa_lock (taken j (sa_lock S)) S
  | Unlocks j => set_sa_lock (givenBack j (sa_lock S)) S
  end.
Definition turns (t : Z) (es : list event) (S : share) : share := foldl (fun S e => turn t e S) S es.

(** No process has opened the store yet. *)
Definition unshared (n : nat) : share := mkShare ∅ false ∅ n None.

(** The options of every opening are those of a store that is shared: with
    WithMultiProcess, for writing, under one key.  The key is not changed, and
    an operation stays within the sizes of the format.  A method is called when
    the lock is granted: until then the kernel keeps the caller waiting. *)
Definition sharedOpts (cryptKey : bytes) (opts : list MMKVOption) : Prop :=
  cf_multiProcess (configOf opts) = true ∧ cf_readOnly (configOf opts) = false
  ∧ cf_cryptKey (configOf opts) = cryptKey.
Definition isReKey (o : op) : bool := match o with OReKey _ => true | _ => false end.

Definition reached (t : Z) (e : event) (S : share) (a : Z) : Z :=
  match e with Writes j o => reach t o (viewOf S j) a | _ => a end.

Fixpoint reaches (t : Z) (es : list event) (S : share) (a : Z) : Z :=
  match es with
  | [] => a
  | e :: es => reaches t es (turn t e S) (reached t e S a)
  end.

Definition fits (t : Z) (cryptKey : bytes) (e : event) (S : share) (a : Z) : Prop :=
  match e with
  | Enters opts => sharedOpts cryptKey opts
  | Writes j o =>
      is_Some (sa_seconds S !! j) ∧ grants (sa_lock S) j ∧ admissible (0 <? len cryptKey) o ∧ isReKey o = false
      ∧ 4 + reached t e S a < 2 ^ 32
  | Reads j _ | Locks j => is_Some (sa_seconds S !! j) ∧ grants (sa_lock S) j
  | Unlocks j => is_Some (sa_seconds S !! j)
  end.

Fixpoint fitting (t : Z) (cryptKey : bytes) (es : list event) (S : share) (a : Z) : Prop :=
  match es with
  | [] => True
  | e :: es => fits t cryptKey e S a ∧ fitting t cryptKey es (turn t e S) (reached t e S a)
  end.

#[global] Instance sharedOpts_dec cryptKey opts : Decision (sharedOpts cryptKey opts).
Proof. unfold sharedOpts. apply _. Defined.
#[global] Instance grants_dec o j : Decision (grants o j).
Proof. unfold grants. destruct o as [[]|]; apply _. Defined.
#[global] Instance fits_dec t cryptKey e S a : Decision (fits t cryptKey e S a).
Proof. destruct e; cbn [fits]; apply _. Defined.
#[global] Instance fit_dec t cryptKey es S a : Decision (fitting t cryptKey es S a).
Proof. revert S a. induction es; intros; cbn [fitting]; apply _. Defined.

(** Every instance has the same bytes. *)
Definition repShare (S : share) : bdict := repMap (mkModel (sa_map S) (if sa_on S then Some 0 else None)).

Lemma repMap_view S j : repMap (viewOf S j) = repShare S.
Proof. unfold repMap, repShare, viewOf. cbn [md_map md_expire]. by destruct (sa_on S). Qed.

Lemma view_written t j o S i :
  repMap (viewOf (turn t (Writes j o) S) i) = repMap (step t o (viewOf S j))
  ∧ (model_ok (step t o (viewOf S j)) → model_ok (viewOf (turn t (Writes j o) S) i)).
Proof.
  cbn [turn]. destruct (step t o (viewOf S j)) as [mp [n|]]; unfold viewOf; cbn [md_map md_expire sa_map sa_on].
  - rewrite bool_decide_eq_true_2 by eauto. split; [done|]. intros Hok k e Hk.
    destruct (Hok k e Hk) as (?&?&_). by split_and!.
  - by rewrite bool_decide_eq_false_2 by (by intros []).
Qed.

(** ** The turns of the processes *)

(** A call made in a process that has its own registry: the files and the
    instances are those of the system. *)
Definition inAnotherProcess {A} (c : M proc A) : M proc A := fun p =>
  let '(o, p') := c (set_p_registry ∅ p) in (o, set_p_registry (p_registry p) p').

Section turns.
Context `{Platform}.
Variables rootDir mmapID : gostring.

Definition perform (e : event) : M proc unit :=
  match e with
  | Enters opts => _ ← inAnotherProcess (MMKVWithID rootDir mmapID opts); mret tt
  | Writes j o => call j (run o)
  | Reads j k => _ ← call j (GetBytesCopy k); mret tt
  | Locks j => call j Lock
  | Unlocks j => call j Unlock
  end.

Fixpoint performs (es : list event) : M proc unit :=
  match es with
  | [] => mret tt
  | e :: es => _ ← perform e; performs es
  end.

Let dp : gostring := dataPathFor rootDir mmapID.

(** The instance [j] is open on the files, with the lock [l], and takes part: it
    last saw the store [m0], though its mappings show the files as they were
    when it was last called, Lock and Unlock included. *)
Record takes_part (p : proc) (m : MMKV) (j : nat) (sec : Z) (l : fileLock) (i : instance) (m0 : MMKV) : Prop := {
  tp_inst : p_insts p !! j = Some i;
  tp_data : names (p_fs p) !! dp = Some (i_data i);
  tp_meta : names (p_fs p) !! (dp ++ crcSuffix) = Some (i_meta i);
  tp_held : i_held i = wanted l;
  tp_lock : fl m0 = l;
  tp_seen : facing (i_m i) m0 = m0;
  tp_partaker : partaker m m0;
  tp_seconds : expiredSeconds m0 = sec;
}.

(** The files are those of the store [m], which stands for what is shared. *)
Record sharing (p : proc) (cryptKey : bytes) (S : share) (a q : Z) (m : MMKV) : Prop := {
  sg_fs : fs_ok (p_fs p);
  sg_env : healthy (p_env p);
  sg_next : p_next p = sa_next S;
  sg_data : content (p_fs p) dp = Some (mf_file (data m));
  sg_meta : content (p_fs p) (dp ++ crcSuffix) = Some (mf_file (meta m));
  sg_store : store_ok m (repShare S);
  sg_tracked : tracked m;
  sg_published : published m (info m);
  sg_ok j : model_ok (viewOf S j);
  sg_policy : enableExpire m = sa_on S;
  sg_flags : enableExpire m = expireEnabled (info m);
  sg_crypt : crypt m = keyed cryptKey;
  sg_size : actualSize m ≤ a;
  sg_sequence : mi_sequence (info m) ≤ q;
  sg_below j : is_Some (sa_seconds S !! j) → (j < sa_next S)%nat;
  sg_owner j n : sa_lock S = Some (j, n) → is_Some (sa_seconds S !! j);
  sg_parts j sec : sa_seconds S !! j = Some sec → ∃ i m0, takes_part p m j sec (counter (sa_lock S) j) i m0;
}.

(** Before any process has opened the store. *)
Record unopened (p : proc) (S : share) : Prop := {
  uo_fs : fs_ok (p_fs p);
  uo_env : healthy (p_env p);
  uo_data : content (p_fs p) dp = None;
  uo_meta : content (p_fs p) (dp ++ crcSuffix) = None;
  uo_share : S = unshared (p_next p);
}.


Lemma attach_facing p i m :
  names (p_fs p) !! dp = Some (i_data i) → names (p_fs p) !! (dp ++ crcSuffix) = Some (i_meta i) →
  content (p_fs p) dp = Some (mf_file (data m)) → content (p_fs p) (dp ++ crcSuffix) = Some (mf_file (meta m)) →
  attach i p = mkSt (facing (i_m i) m) (set_changes (i_changes i) (set_held (i_held i) (p_env p))).
Proof.
  intros Hd Hm Hcd Hcm. unfold attach, facing.
  by rewrite (content_inode _ _ _ _ Hcd Hd), (content_inode _ _ _ _ Hcm Hm).
Qed.

(** The files after a call. *)
Lemma content_detach k i s p :
  fs_ok (p_fs p) → names (p_fs p) !! dp = Some (i_data i) →
  names (p_fs p) !! (dp ++ crcSuffix) = Some (i_meta i) →
  content (p_fs (detach k i s p)) dp = Some (mf_file (data (st s)))
  ∧ content (p_fs (detach k i s p)) (dp ++ crcSuffix) = Some (mf_file (meta (st s))).
Proof.
  intros Hf Hd Hm. pose proof (dp_meta_inodes _ _ _ _ Hf Hd Hm) as Hne.
  unfold content, detach. cbn [p_fs names inodes set_inode]. rewrite Hd, Hm.
  by rewrite lookup_insert_eq, lookup_insert_ne, lookup_insert_eq by done.
Qed.

(** The other instances do not notice the call; the caller is left as the
    method left it. *)
Lemma takes_part_detach p k i s m m' j sec l i' m0 :
  takes_part p m j sec l i' m0 → names (p_fs p) !! dp = Some (i_data i) →
  names (p_fs p) !! (dp ++ crcSuffix) = Some (i_meta i) → j ≠ k → partaker m' m0 →
  takes_part (detach k i s p) m' j sec l i' m0.
Proof.
  intros [] Hd Hm Hj Hp. split; try done. cbn [detach p_insts]. by rewrite lookup_insert_ne.
Qed.

Lemma takes_part_left p k i s m' sec l :
  names (p_fs p) !! dp = Some (i_data i) → names (p_fs p) !! (dp ++ crcSuffix) = Some (i_meta i) →
  held (env s) = wanted l → fl (st s) = l → partaker m' (st s) → expiredSeconds (st s) = sec →
  takes_part (detach k i s p) m' k sec l (left i s) (st s).
Proof. intros. split; try done. apply lookup_insert_eq. Qed.

(** After a call of [j] the others take part as before, if [j] does. *)
Lemma parts_after p j i s (S S' : share) m m' sec m1 :
  names (p_fs p) !! dp = Some (i_data i) → names (p_fs p) !! (dp ++ crcSuffix) = Some (i_meta i) →
  (∀ k sk, sa_seconds S !! k = Some sk → ∃ i' m0, takes_part p m k sk (counter (sa_lock S) k) i' m0) →
  (∀ k, k ≠ j → sa_seconds S' !! k = sa_seconds S !! k ∧ owned (sa_lock S') k = owned (sa_lock S) k) →
  (∀ m0, partaker m m0 → partaker m' m0) →
  sa_seconds S' !! j = Some sec → takes_part (detach j i s p) m' j sec (counter (sa_lock S') j) (left i s) m1 →
  ∀ k sk, sa_seconds S' !! k = Some sk →
  ∃ i' m0, takes_part (detach j i s p) m' k sk (counter (sa_lock S') k) i' m0.
Proof.
  intros Hd Hm Hparts Hoth Hp Hj Htp k sk Hk. destruct (decide (k = j)) as [->|Hkj].
  - assert (sk = sec) as -> by congruence. eauto.
  - destruct (Hoth k Hkj) as [Es Eo]. rewrite Es in Hk. destruct (Hparts k sk Hk) as (i'&m0&Hk').
    exists i', m0. unfold counter. rewrite Eo. apply (takes_part_detach p j i s m); try done. apply Hp, Hk'.
Qed.

(** The instance whose turn it is, under its lock: what it catches up to
    represents the model it has of what is shared. *)
Record ready (t : lockType) (p : proc) (S : share) (m : MMKV) (j : nat) (sec : Z)
    (i : instance) (m0 : MMKV) (s1 : St) : Prop := {
  rd_part : takes_part p m j sec (counter (sa_lock S) j) i m0;
  rd_caught : caught t (attach i p) s1;
  rd_current : uptodate m0 m (st s1) (repShare S);
  rd_represents : represents s1 (viewOf S j);
  rd_lock : lock_ok (fl (st (attach i p)), env (attach i p));
  rd_env : healthy (env s1);
  rd_now : now (env s1) = now (p_env p);
  rd_fl : fl (st s1) = counter (sa_lock S) j;
}.

(** What a call of the instance starts from. *)
Lemma takes_part_attach p m j sec l i m0 :
  takes_part p m j sec l i m0 →
  content (p_fs p) dp = Some (mf_file (data m)) → content (p_fs p) (dp ++ crcSuffix) = Some (mf_file (meta m)) →
  attach i p = mkSt (facing m0 m) (set_changes (i_changes i) (set_held (wanted l) (p_env p))).
Proof.
  intros [Hi Hd Hm Hh Hl Hsn _ _] Hcd Hcm.
  by rewrite (attach_facing p i m Hd Hm Hcd Hcm), Hh, <-Hsn, facing_facing.
Qed.

Lemma turn_ready t p cryptKey S a q m j :
  sharing p cryptKey S a q m → is_Some (sa_seconds S !! j) →
  ∃ sec i m0 s1, sa_seconds S !! j = Some sec ∧ ready t p S m j sec i m0 s1.
Proof.
  intros [Hf He Hnx Hcd Hcm Hs Ht Hpb Hok Hpo Hfl Hck Ha Hsq Hbl How Hparts] [sec Hsec].
  destruct (Hparts j sec Hsec) as (i&m0&Htp). pose proof Htp as [Hi Hd Hm Hh Hl Hsn Hp Hse].
  pose proof (takes_part_attach _ _ _ _ _ _ _ Htp Hcd Hcm) as Eat.
  set (e := set_changes (i_changes i) (set_held (wanted (counter (sa_lock S) j)) (p_env p))) in Eat.
  assert (lock_ok (fl m0, e)) as Hlk.
  { split; [cbn; by rewrite Hl|]. split; [cbn; rewrite Hl; apply owned_count|]. cbn. by rewrite Hl. }
  destruct (catch_up t m0 m e (repShare S) Hp Hs Ht He) as (s1&Hct&Hcu).
  pose proof (ct_quiet _ _ _ Hct) as Hq. cbn [env] in Hq. destruct Hq as (Hq1&Hq2&Hq3).
  exists sec, i, m0, s1. split; [done|]. split; try done; try rewrite Eat; try done.
  - eapply (current_represents m0 m (repShare S)); try done.
    + by rewrite repMap_view.
    + rewrite Hpo. unfold viewOf. cbn [md_expire]. by destruct (sa_on S).
    + by eapply current_expire.
    + intros n. unfold viewOf. cbn [md_expire]. rewrite Hsec. destruct (sa_on S); [|done]. intros [= <-]. done.
  - unfold healthy. by rewrite Hq1.
  - by rewrite (sf_fl _ _ (cu_frame _ _ _ _ Hcu)).
Qed.

(** A write in turn. *)
Lemma sharing_writes p cryptKey S a q m j o :
  sharing p cryptKey S a q m → fits (now (p_env p)) cryptKey (Writes j o) S a → q + 1 < 2 ^ 32 →
  ∃ p' m', perform (Writes j o) p = (Ok tt, p')
    ∧ sharing p' cryptKey (turn (now (p_env p)) (Writes j o) S) (reached (now (p_env p)) (Writes j o) S a) (q + 1) m'
    ∧ now (p_env p') = now (p_env p) ∧ onward m m'.
Proof.
  intros Hsg (Hj&_&Had&Hrk&Hb) Hq.
  destruct (turn_ready exclusiveLock _ _ _ _ _ _ _ Hsg Hj) as (sec&i&m0&s1&Hsec&Hrd).
  destruct Hsg as [Hf He Hnx Hcd Hcm Hs Ht Hpb Hok Hpo Hfl Hck Ha Hsq Hbl How Hparts].
  destruct Hrd as [Htp Hct Hcu Hr Hl He1 Hnow Hfl1].
  pose proof (takes_part_attach _ _ _ _ _ _ _ Htp Hcd Hcm) as Eat. destruct Htp as [Hi Hd Hm Hh Hlk Hsn Hp Hse].
  pose proof Hcu as [Hs1 Hab Ht1 Hfr1 Hck1 Hsec1].
  assert (multiProcess (st s1) = true) as Hmu by (rewrite (sf_multi _ _ Hfr1); apply Hp).
  destruct (run_refines s1 (viewOf S j) o Hr) as (s2&Hrun&[Hr2 Hq2 Hg2 Hck2 Hfr2 Hsec2]).
  { apply (admissible_allowed _ _ _ a); [done|by rewrite (ab_actual _ _ Hab)| |by rewrite Hnow].
    assert (encrypted (st s1) = (0 <? len cryptKey)) as ->; [|done].
    unfold encrypted. rewrite Hck1, Hck. unfold keyed. by destruct (0 <? len cryptKey). }
  rewrite Hnow in *. destruct (content_detach j i s2 p Hf Hd Hm) as [Hcd' Hcm'].
  assert (crypt (st s2) = crypt m) as Hckm by (rewrite Hck2; destruct o; done).
  assert (meta_wf (info m)) as Hwf by apply Hs.
  assert (onward m (st s2)) as Hon.
  { eapply (onward_grows m (st s1)); try done. lia. }
  exists (detach j i s2 p), (st s2). split; [|split; [split|split]]; try done.
  - cbn [perform]. unfold call. rewrite Hi, (run_caught o _ s1), Hrun; [done|done|exact He|by rewrite Eat; apply Hp|by rewrite Eat; apply Hp|done].
  - apply (detach_updated j i s2 p dp Hf Hd Hm).
  - exact (quiet_healthy _ _ Hq2 He1).
  - rewrite <-(repMap_view _ j). destruct (view_written (now (p_env p)) j o S j) as [-> _].
    apply (ru_store _ _ (rp_running _ _ Hr2)).
  - by eapply tracked_advances; [apply Hg2|].
  - apply (published_advances (st s1) _ _ _ Hs1 (ru_store _ _ (rp_running _ _ Hr2))); [apply Hg2|].
    destruct Hab. apply (published_same m); try done; [apply Hs|apply Hs1].
  - intros i'. apply view_written, Hr2.
  - apply (rp_policy _ _ Hr2).
  - apply (rp_flags _ _ Hr2).
  - congruence.
  - etransitivity; [apply (gr_size _ _ _ _ Hg2)|]. rewrite (ab_actual _ _ Hab). by apply reach_mono.
  - pose proof (advances_sequence _ _ (gr_adv _ _ _ _ Hg2) Hmu) as Hle. rewrite (ab_info _ _ Hab) in Hle.
    specialize (Hle Hwf). lia.
  - intros k Hk. apply Hbl. destruct (decide (k = j)) as [->|Hkj]; [done|].
    cbn [turn sa_seconds] in Hk. by rewrite lookup_insert_ne in Hk.
  - intros k n Hk. cbn [turn sa_seconds]. destruct (decide (k = j)) as [->|Hkj];
      [rewrite lookup_insert_eq; by eexists|rewrite lookup_insert_ne by done; by eapply How].
  - apply (parts_after p j i s2 S _ m (st s2) (lasts o (sa_on S) sec) (st s2)); try done.
    + intros k Hk. cbn [turn sa_seconds]. by rewrite lookup_insert_ne.
    + intros m0' Hp'. by eapply partaker_onward.
    + cbn [turn sa_seconds]. by rewrite lookup_insert_eq, Hsec.
    + assert (fl (st s2) = counter (sa_lock S) j) as Hfl2 by (by rewrite (sf_fl _ _ Hfr2)).
      destruct (rp_running _ _ Hr2) as [Hs2 _ (_&_&Hh2) Hc2 Hro2].
      apply takes_part_left; try done; [exact (eq_trans Hh2 (f_equal wanted Hfl2))| |].
      * apply (partaker_self _ _ Hs2); [|done|done]. by rewrite (sf_multi _ _ Hfr2).
      * by rewrite Hsec2, Hsec1, (current_expire _ _ _ _ _ Hs Hcu), Hpo, Hse.
  - destruct Hq2 as (_&Hn2&_). cbn. by rewrite Hn2.
Qed.

(** Giving the lock back leaves it as it was. *)
Lemma underLock_restored t m e :
  mkSt (set_fl (fl m) (st (underLock t (mkSt m e)))) (set_held (held e) (env (underLock t (mkSt m e)))) = mkSt m e.
Proof. unfold underLock. cbn [st env]. destruct (multiProcess m); by destruct e. Qed.

(** A getter on a store that has caught up answers, and leaves it alone. *)
Lemma getter_current {A} (c : codec A) set get `{!Accessors c set get} s s1 d x f :
  caught sharedLock s s1 → represents s1 d →
  (∀ s b m, store_ok m b → enableExpire m = enableExpire (st s) →
     f m (now (env s)) = decodes (c_dec c) (seen s b !! x)) →
  ∃ o, reading None f s1 = (Ok o, s1) ∧ decodes (c_dec c) (ask (now (env s1)) d x) = Ok o.
Proof.
  intros [_ Hag _ _] Hr Hget. pose proof (rp_running _ _ Hr) as [Hs He Hl Hc _].
  destruct (decodes_total (c_dec c) (ask (now (env s1)) d x) acc_total) as [o Ho].
  destruct (underLock_fields sharedLock s1) as ([l El]&Ef&En).
  exists o. split; [|done].
  rewrite (reading_checked None f s1 (underLock sharedLock s1) (repMap d) o); try done.
  - f_equal. destruct s1 as [m1 e1]. apply underLock_restored.
  - split; [exact Hag| |by split|by apply quiet_refl]. rewrite El. by apply store_ok_set_fl.
  - rewrite (Hget s1 (repMap d)); [by rewrite (seen_repMap s1 d)| |by rewrite El].
    rewrite El. by apply store_ok_set_fl.
Qed.

(** A getter in turn answers from what is shared. *)
Lemma getter_shared {A} (c : codec A) set get `{!Accessors c set get} p cryptKey S a q m j x :
  sharing p cryptKey S a q m → is_Some (sa_seconds S !! j) →
  ∃ o p', call j (get x) p = (Ok o, p') ∧ decodes (c_dec c) (ask (now (p_env p)) (viewOf S j) x) = Ok o
    ∧ sharing p' cryptKey S a q m ∧ now (p_env p') = now (p_env p).
Proof.
  intros Hsg Hj. destruct (turn_ready sharedLock _ _ _ _ _ _ _ Hsg Hj) as (sec&i&m0&s1&Hsec&Hrd).
  destruct Hsg as [Hf He Hnx Hcd Hcm Hs Ht Hpb Hok Hpo Hfl Hck Ha Hsq Hbl How Hparts].
  destruct Hrd as [Htp Hct Hcu Hr Hl He1 Hnow Hfl1].
  pose proof (takes_part_attach _ _ _ _ _ _ _ Htp Hcd Hcm) as Eat. destruct Htp as [Hi Hd Hm Hh Hlk Hsn Hp Hse].
  pose proof Hcu as [Hs1 Hab Ht1 Hfr1 Hck1 Hsec1].
  destruct (acc_get x) as (f&Eget&Hget).
  destruct (getter_current c set get (attach i p) s1 (viewOf S j) x f Hct Hr) as (o&Hread&Ho); [done|].
  rewrite Hnow in Ho. exists o, (detach j i s1 p). split; [|split; [done|split; [|exact Hnow]]].
  - unfold call. rewrite Hi, Eget, (reading_caught None f _ s1) by (done || by rewrite Eat; apply Hp).
    by rewrite Hread.
  - destruct (content_detach j i s1 p Hf Hd Hm) as [Hcd' Hcm']. split; try done.
    + apply (detach_updated j i s1 p dp Hf Hd Hm).
    + by rewrite Hcd', (ab_data _ _ Hab).
    + by rewrite Hcm', (ab_meta _ _ Hab).
    + apply (parts_after p j i s1 S S m m sec (st s1)); try done.
      apply takes_part_left; try done; [|by eapply partaker_current|congruence].
      destruct (rp_running _ _ Hr) as [_ _ (_&_&Hh1) _ _]. exact (eq_trans Hh1 (f_equal wanted Hfl1)).
Qed.
(** ** Locking in turn *)

(** A method that changes the counters of the lock, and what the kernel holds
    with them. *)
Definition relocks (c : M St unit) (l l' : fileLock) : Prop := ∀ m e,
  multiProcess m = true → fl m = l → healthy e → held e = wanted l →
  c (mkSt m e) = (Ok tt, mkSt (set_fl l' m) (set_held (wanted l') e)).

Lemma whenMulti_fl c m e l h :
  multiProcess m = true → (c (fl m, e)).2 = (l, set_held h e) → (∃ a, (c (fl m, e)).1 = a ∧ a ≠ Panic ∧ a ≠ NoFuel) →
  whenMulti c (mkSt m e) = (Ok tt, mkSt (set_fl l m) (set_held h e)).
Proof.
  intros Hm H2 (a&H1&Hp&Hn). unfold whenMulti. erewrite bind_ok by reflexivity. cbn [st]. rewrite Hm.
  unfold ignore, onLock, zoom. cbn [st env]. destruct (c (fl m, e)) as [o q]. cbn in H1, H2. subst. by destruct a.
Qed.

(** The counters follow the owner. *)
Lemma counter_taken o j : grants o j → counter (taken j o) j = spec_lock exclusiveLock (counter o j).
Proof.
  intros Ho. unfold counter, spec_lock, addExclusive. cbn [shared exclusive taken owned].
  rewrite decide_True by done. destruct o as [[i n]|]; [|done]. cbn [grants] in Ho. subst i.
  cbn [owned]. rewrite decide_True by done. f_equal. lia.
Qed.

Lemma counter_givenBack o j :
  counter o j = spec_lock exclusiveLock (counter (givenBack j o) j) ∨ givenBack j o = o ∧ owned o j = 0.
Proof.
  destruct o as [[i n]|]; [|by right]. cbn [givenBack]. case_decide as Hi; [left; subst i|right].
  - unfold counter, spec_lock, addExclusive. cbn [shared exclusive]. f_equal.
    case_decide; cbn [owned]; rewrite !decide_True by done; lia.
  - by cbn [owned]; rewrite decide_False.
Qed.

Lemma counter_ok o j e : held e = wanted (counter o j) → lock_ok (counter o j, e).
Proof. intros Hh. split; [done|]. split; [apply owned_count|exact Hh]. Qed.

Lemma Lock_relocks j o : grants o j → relocks Lock (counter o j) (counter (taken j o) j).
Proof.
  intros Ho m e Hm Hf He Hh. pose proof (counter_ok _ _ _ Hh) as Hl.
  rewrite counter_taken by done. rewrite <-Hf in Hl |- *.
  etransitivity; [apply whenMulti_lock; [exact Hl|done]|by rewrite underLock_multi].
Qed.

Lemma Unlock_relocks j o : relocks Unlock (counter o j) (counter (givenBack j o) j).
Proof.
  intros m e Hm Hf He Hh. destruct (counter_givenBack o j) as [E|[-> E]].
  - set (l := counter (givenBack j o) j) in *.
    pose proof (unlock_healthy exclusiveLock l (set_held (wanted l) e)) as Hu. rewrite <-E in Hu.
    specialize (Hu (counter_ok (givenBack j o) j (set_held (wanted l) e) eq_refl) He e Hh eq_refl).
    apply whenMulti_fl; [done|by rewrite Hf, Hu|rewrite Hf, Hu; by eexists].
  - assert (unlock exclusiveLock (counter o j, e) = (Err ErrUnlockExclusive, (counter o j, e))) as Hu.
    { unfold unlock, mbind, M_bind, get. cbn. by rewrite E. }
    apply whenMulti_fl; [done|by rewrite Hf, Hu, set_held_same|rewrite Hf, Hu; by eexists].
Qed.
Lemma partaker_set_fl m m0 l : partaker m m0 → partaker m (set_fl l m0).
Proof.
  intros [[b Hs] Hb]. split; try done; [exists b; by apply store_ok_set_fl|].
  destruct Hb as [|?? |[]]; [by apply behind_pack|by apply behind_append|by apply behind_not].
Qed.

(** Lock and Unlock leave what is shared, and pass the lock on. *)
Lemma sharing_relocks p cryptKey S a q m j c o :
  sharing p cryptKey S a q m → is_Some (sa_seconds S !! j) →
  relocks c (counter (sa_lock S) j) (counter o j) →
  (∀ k, k ≠ j → owned o k = owned (sa_lock S) k) → (∀ k n, o = Some (k, n) → is_Some (sa_seconds S !! k)) →
  ∃ p', call j c p = (Ok tt, p') ∧ sharing p' cryptKey (set_sa_lock o S) a q m ∧ now (p_env p') = now (p_env p).
Proof.
  intros [Hf He Hnx Hcd Hcm Hs Ht Hpb Hok Hpo Hfl Hck Ha Hsq Hbl How Hparts] [sec Hsec] Hc Ho Hown.
  destruct (Hparts j sec Hsec) as (i&m0&Htp).
  pose proof (takes_part_attach _ _ _ _ _ _ _ Htp Hcd Hcm) as Eat. destruct Htp as [Hi Hd Hm Hh Hlk Hsn Hp Hse].
  set (l := counter o j) in *. set (e := set_changes (i_changes i) _) in Eat.
  set (s' := mkSt (set_fl l (facing m0 m)) (set_held (wanted l) e)).
  assert (c (attach i p) = (Ok tt, s')) as Hrun by (rewrite Eat; apply Hc; [apply Hp|done..]).
  destruct (content_detach j i s' p Hf Hd Hm) as [Hcd' Hcm'].
  exists (detach j i s' p). split; [unfold call; by rewrite Hi, Hrun|]. split; [|done].
  split; try done.
  - apply (detach_updated j i s' p dp Hf Hd Hm).
  - apply (parts_after p j i s' S (set_sa_lock o S) m m sec (set_fl l m0)); try done.
    + intros k Hk. split; [done|by apply Ho].
    + split; try done; [apply lookup_insert_eq|by apply partaker_set_fl].
Qed.

Lemma sharing_locks p cryptKey S a q m j :
  sharing p cryptKey S a q m → is_Some (sa_seconds S !! j) → grants (sa_lock S) j →
  ∃ p', call j Lock p = (Ok tt, p') ∧ sharing p' cryptKey (set_sa_lock (taken j (sa_lock S)) S) a q m
    ∧ now (p_env p') = now (p_env p).
Proof.
  intros Hsg Hj Hg. apply sharing_relocks; [done..|by apply Lock_relocks| |by intros k n [= <- <-]].
  intros k Hk. cbn [taken owned]. rewrite decide_False by done.
  destruct (sa_lock S) as [[i n]|]; [|done]. cbn [owned grants] in *. by rewrite decide_False by congruence.
Qed.

Lemma sharing_unlocks p cryptKey S a q m j :
  sharing p cryptKey S a q m → is_Some (sa_seconds S !! j) →
  ∃ p', call j Unlock p = (Ok tt, p') ∧ sharing p' cryptKey (set_sa_lock (givenBack j (sa_lock S)) S) a q m
    ∧ now (p_env p') = now (p_env p).
Proof.
  intros Hsg Hj. pose proof (sg_owner _ _ _ _ _ _ Hsg) as How.
  apply sharing_relocks; [done..|apply Unlock_relocks| |]; destruct (sa_lock S) as [[i n]|]; try done;
    cbn [givenBack]; case_decide as Hi; try done.
  - intros k Hk. case_decide; cbn [owned]; rewrite ?decide_False by congruence; done.
  - intros k n'. case_decide; [done|]. intros [= <- _]. by subst.
Qed.

(** ** Opening in turn *)

Definition storeFor (opts : list MMKVOption) (p : proc) : MMKV :=
  instanceFor rootDir mmapID (registryKey (p_wd p) rootDir mmapID) (configOf opts).

(** Another process opens what is there. *)
Lemma enters_opened p opts s :
  fs_ok (p_fs p) →
  opened (storeFor opts p) (set_changes 0 (set_held Unheld (p_env p)))
    (content (p_fs p) dp) (content (p_fs p) (dp ++ crcSuffix)) s →
  ∃ p1 i, perform (Enters opts) p = (Ok tt, set_p_registry (p_registry p) p1)
    ∧ joins rootDir mmapID (set_p_registry ∅ p) p1 i s.
Proof.
  intros Hf Ho. destruct (MMKVWithID_opens rootDir mmapID opts (set_p_registry ∅ p) s Hf) as (i&p1&Hrun&Hj);
    [apply lookup_empty|exact Ho|].
  exists p1, i. split; [|done]. cbn [perform]. unfold mbind, M_bind, inAnotherProcess. by rewrite Hrun.
Qed.

(** The new instance takes part; those that did still do. *)
Lemma takes_part_joins p p1 r r' i s m j sec l i' m0 :
  joins rootDir mmapID (set_p_registry r p) p1 i s →
  takes_part p m j sec l i' m0 → j ≠ p_next p → takes_part (set_p_registry r' p1) m j sec l i' m0.
Proof.
  intros [_ _ _ _ _ _ _ _ [Hu _ _ _] Ho _ _ _] [Hi Hd Hm ? ? ? ? ?] Hj. split; try done.
  - rewrite <-Hi. exact (Ho j Hj).
  - by apply (up_names _ _ _ Hu).
  - by apply (up_names _ _ _ Hu).
Qed.

Lemma takes_part_new p p1 r r' i s m opts b :
  joins rootDir mmapID (set_p_registry r p) p1 i s →
  opened (storeFor opts p) (set_changes 0 (set_held Unheld (p_env p)))
    (content (p_fs p) dp) (content (p_fs p) (dp ++ crcSuffix)) s →
  cf_multiProcess (configOf opts) = true → running s b → abreast (st s) m → crypt (st s) = crypt m →
  takes_part (set_p_registry r' p1) m (p_next p) 0 newFileLock i (st s).
Proof.
  intros [Hi _ Est Hh Hd Hm _ _ _ _ _ _ _] [_ _ Hsec _ Hmu Hl] Hopt [Hs _ _ Hc Hr] Hab Hck.
  split; try done; [by rewrite Est|].
  split; try done; [by exists b|by apply behind_not|exact (eq_trans Hmu Hopt)|by rewrite (ab_meta _ _ Hab)].
Qed.

Lemma model_ok_unshared n j : model_ok (viewOf (unshared n) j).
Proof. apply map_Forall_empty. Qed.

(** The first opening makes the store. *)
Lemma enters_first p cryptKey S opts :
  unopened p S → sharedOpts cryptKey opts →
  ∃ p' m, perform (Enters opts) p = (Ok tt, p')
    ∧ sharing p' cryptKey (turn (now (p_env p)) (Enters opts) S) 0 0 m ∧ now (p_env p') = now (p_env p).
Proof.
  intros [Hf He Hd Hm ->] (Hmu&Hro&Hk).
  destruct (open_fresh (storeFor opts p) (set_changes 0 (set_held Unheld (p_env p)))) as (s&Ho&Hr&Hx&Hi&Ha&Hc&Hp);
    [by apply instanceFor_brand_new|done|exact He|done|].
  destruct (enters_opened p opts s Hf) as (p1&i&Hrun&Hj); [by rewrite Hd, Hm|].
  eexists _, (st s). split; [done|].
  pose proof Hj as [_ _ _ _ _ _ Hcd Hcm [Hu _ [Hq1 [Hq2 _]] _] _ _ Hn _].
  split; [|exact Hq2]. split; try done.
  - apply (up_ok _ _ _ Hu).
  - unfold healthy in *. exact (eq_trans Hq1 He).
  - assert (repShare (turn (now (p_env p)) (Enters opts) (unshared (p_next p))) = ∅) as ->; [|apply Hr].
    apply fmap_empty.
  - split; [by rewrite (proj1 Hp), Hi|by rewrite Hi, Ha|by rewrite Hi, Hc].
  - by rewrite Hi.
  - by rewrite Hx, Hi.
  - rewrite (od_crypt _ _ _ _ _ Ho), <-Hk. done.
  - by rewrite Ha.
  - by rewrite Hi.
  - intros j [sec Hjs]. cbn [turn unshared sa_seconds sa_next] in *.
    destruct (decide (j = p_next p)) as [->|Hne]; [lia|by rewrite lookup_insert_ne in Hjs].
  - intros j sec Hjs. cbn [turn unshared sa_seconds sa_next] in Hjs.
    destruct (decide (j = p_next p)) as [->|Hne].
    + rewrite lookup_insert_eq in Hjs. injection Hjs as <-. exists i, (st s).
      eapply takes_part_new; try done. by rewrite Hd, Hm.
    + by rewrite lookup_insert_ne in Hjs.
Qed.

(** A later one finds it. *)
Lemma enters_later p cryptKey S a q m opts :
  sharing p cryptKey S a q m → sharedOpts cryptKey opts →
  ∃ p', perform (Enters opts) p = (Ok tt, p')
    ∧ sharing p' cryptKey (turn (now (p_env p)) (Enters opts) S) a q m ∧ now (p_env p') = now (p_env p).
Proof.
  intros [Hf He Hnx Hcd Hcm Hs Ht Hpb Hok Hpo Hfl Hck Ha Hsq Hbl How Hparts] (Hmu&Hro&Hk).
  assert (crypt (storeFor opts p) = crypt m) as Ek by (rewrite Hck, <-Hk; done).
  destruct (reopen_ok m (repShare S) (storeFor opts p) (set_changes 0 (set_held Unheld (p_env p))) Hs)
    as (s&Ho&Hr&Hx&Hi&Hac&Hfd&Hfm); [by apply instanceFor_brand_new|done|exact He|done|].
  rewrite <-Hcd, <-Hcm in Ho.
  destruct (enters_opened p opts s Hf Ho) as (p1&i&Hrun&Hj).
  eexists. split; [done|]. pose proof Hj as [_ _ _ _ _ _ Hcd' Hcm' [Hu _ [Hq1 [Hq2 _]] _] _ _ Hn _].
  split; [|exact Hq2]. split; try done.
  - apply (up_ok _ _ _ Hu).
  - unfold healthy in *. exact (eq_trans Hq1 He).
  - cbn [turn sa_next]. rewrite <-Hnx. exact Hn.
  - rewrite <-Hfd. exact Hcd'.
  - rewrite <-Hfm. exact Hcm'.
  - intros j. specialize (Hok j). intros x v Hv. destruct (Hok x v Hv) as (?&?&H0). split_and!; try done.
    unfold viewOf in *. cbn [turn sa_on md_expire] in *. by destruct (sa_on S).
  - intros j Hin. cbn [turn sa_seconds sa_next] in *. destruct (decide (j = sa_next S)) as [->|Hne]; [lia|].
    rewrite lookup_insert_ne in Hin by done. apply Hbl in Hin. lia.
  - intros j n Hin. pose proof (How j n Hin) as Hown. pose proof (Hbl _ Hown). cbn [turn sa_seconds].
    by rewrite lookup_insert_ne by lia.
  - intros j sec Hjs. cbn [turn sa_seconds] in Hjs. rewrite <-Hnx in Hjs.
    change (sa_lock (turn _ _ _)) with (sa_lock S).
    destruct (decide (j = p_next p)) as [->|Hne].
    + rewrite lookup_insert_eq in Hjs. injection Hjs as <-. exists i, (st s).
      assert (counter (sa_lock S) (p_next p) = newFileLock) as ->.
      { unfold counter. destruct (sa_lock S) as [[j n]|]; [|done]. pose proof (Hbl _ (How j n eq_refl)).
        cbn [owned]. by rewrite decide_False by lia. }
      eapply takes_part_new; try done. by rewrite (od_crypt _ _ _ _ _ Ho).
    + rewrite lookup_insert_ne in Hjs by done. destruct (Hparts j sec Hjs) as (i'&m0'&Hp').
      exists i', m0'. by eapply takes_part_joins.
Qed.


(** ** Any number of turns *)

Lemma sharing_later p cryptKey S a q q' m :
  sharing p cryptKey S a q m → q ≤ q' → sharing p cryptKey S a q' m.
Proof. intros [] Hq. split; try done. lia. Qed.

Lemma turn_ok p cryptKey S a q m e :
  sharing p cryptKey S a q m → fits (now (p_env p)) cryptKey e S a → q + 1 < 2 ^ 32 →
  ∃ p' m', perform e p = (Ok tt, p')
    ∧ sharing p' cryptKey (turn (now (p_env p)) e S) (reached (now (p_env p)) e S a) (q + 1) m'
    ∧ now (p_env p') = now (p_env p) ∧ onward m m'.
Proof.
  intros Hsg Hfit Hq. destruct e as [opts|j o|j k|j|j].
  - destruct (enters_later p cryptKey S a q m opts Hsg Hfit) as (p'&Hrun&Hsg'&Hn).
    exists p', m. split; [done|]. split; [|done]. apply (sharing_later _ _ _ _ q); [done|lia].
  - by apply (sharing_writes p cryptKey S a q m j o).
  - destruct (getter_shared bytes_codec SetBytes GetBytesCopy p cryptKey S a q m j k Hsg (proj1 Hfit))
      as (o&p'&Hget&_&Hsg'&Hn).
    exists p', m. split; [cbn [perform]; by erewrite bind_ok by exact Hget|]. split; [|done].
    apply (sharing_later _ _ _ _ q); [done|lia].
  - destruct Hfit as [Hj Hg]. destruct (sharing_locks p cryptKey S a q m j Hsg Hj Hg) as (p'&Hrun&Hsg'&Hn).
    exists p', m. split; [done|]. split; [|done]. apply (sharing_later _ _ _ _ q); [done|lia].
  - destruct (sharing_unlocks p cryptKey S a q m j Hsg Hfit) as (p'&Hrun&Hsg'&Hn).
    exists p', m. split; [done|]. split; [|done]. apply (sharing_later _ _ _ _ q); [done|lia].
Qed.

Lemma turns_ok es p cryptKey S a q m :
  sharing p cryptKey S a q m → fitting (now (p_env p)) cryptKey es S a → q + len es < 2 ^ 32 →
  ∃ p' m', performs es p = (Ok tt, p')
    ∧ sharing p' cryptKey (turns (now (p_env p)) es S) (reaches (now (p_env p)) es S a) (q + len es) m'
    ∧ now (p_env p') = now (p_env p).
Proof.
  revert p S a q m. induction es as [|e es IH]; intros p S a q m Hsg Hfit Hq; cbn [performs turns reaches foldl].
  - exists p, m. split; [done|]. split; [|done]. by rewrite Z.add_0_r.
  - destruct Hfit as [Hf Hfit]. cbn [length] in Hq.
    destruct (turn_ok p cryptKey S a q m e Hsg Hf) as (p1&m1&Hrun&Hsg1&Hn1&_); [lia|].
    destruct (IH p1 _ _ _ m1 Hsg1) as (p2&m2&Hrun2&Hsg2&Hn2); [by rewrite Hn1|lia|].
    exists p2, m2. split; [by erewrite bind_ok by exact Hrun|]. split; [|congruence].
    rewrite Hn1 in Hsg2. apply (sharing_later _ _ _ _ _ _ _ Hsg2). cbn [length]. lia.
Qed.

(** From the first opening on. *)
Lemma turns_from_nothing es p cryptKey :
  let t := now (p_env p) in
  let S := turns t es (unshared (p_next p)) in
  fs_ok (p_fs p) → healthy (p_env p) →
  content (p_fs p) dp = None → content (p_fs p) (dp ++ crcSuffix) = None →
  fitting t cryptKey es (unshared (p_next p)) 0 → len es < 2 ^ 32 → es ≠ [] →
  ∃ p' m, performs es p = (Ok tt, p')
    ∧ sharing p' cryptKey S (reaches t es (unshared (p_next p)) 0) (len es) m ∧ now (p_env p') = t.
Proof.
  intros t S Hf He Hd Hm Hfit Hl Hne. destruct es as [|e es]; [done|]. destruct Hfit as [Hfe Hfit].
  destruct e as [opts|j o|j k|j|j];
    [|by destruct Hfe as [[? ?] _]|by destruct Hfe as [[? ?] _]|by destruct Hfe as [[? ?] _]|by destruct Hfe as [? ?]].
  destruct (enters_first p cryptKey (unshared (p_next p)) opts) as (p1&m&Hrun&Hsg&Hn); [by split|done|].
  cbn [length] in Hl. destruct (turns_ok es p1 cryptKey _ 0 0 m Hsg) as (p2&m2&Hrun2&Hsg2&Hn2);
    [by rewrite Hn|lia|].
  exists p2, m2. split; [cbn [performs]; by erewrite bind_ok by exact Hrun|]. split; [|by rewrite Hn2, Hn].
  rewrite Hn in Hsg2. apply (sharing_later _ _ _ _ _ _ _ Hsg2). cbn [length]. lia.
Qed.

(** The getters of all the instances answer from one map. *)
Lemma shared_map {A} (c : codec A) set get `{!Accessors c set get} es p cryptKey j x :
  let t := now (p_env p) in
  let S := turns t es (unshared (p_next p)) in
  fs_ok (p_fs p) → healthy (p_env p) →
  content (p_fs p) dp = None → content (p_fs p) (dp ++ crcSuffix) = None →
  fitting t cryptKey es (unshared (p_next p)) 0 → len es < 2 ^ 32 →
  is_Some (sa_seconds S !! j) → grants (sa_lock S) j →
  ∃ p1 o p2, performs es p = (Ok tt, p1) ∧ call j (get x) p1 = (Ok o, p2)
    ∧ decodes (c_dec c) (sa_map S !! x ≫= liveAt t) = Ok o.
Proof.
  intros t S Hf He Hd Hm Hfit Hl Hj _.
  destruct (turns_from_nothing es p cryptKey Hf He Hd Hm Hfit Hl) as (p1&m&Hrun&Hsg&Hn).
  { intros ->. by destruct Hj. }
  destruct (getter_shared c set get p1 cryptKey _ _ _ m j x Hsg Hj) as (o&p2&Hget&Ho&_).
  exists p1, o, p2. split; [done|]. split; [done|]. rewrite Hn in Ho. exact Ho.
Qed.

End turns.
