(* ===== verification/SharedReader.v ===== *)
(** * A Reader beside the processes that write (reader.go)

    A Reader that was opened on the files of a path follows the instances that
    share them: whatever turns they take, each of its reads finds the map as it
    is then.  The words it watches tell the versions apart, as [behind] does. *)

From S2P Require Import Prelude GoInt Wire Dict Meta Crypt Path MemFile Files Flock Store StoreOps.
From S2P Require Import StoreInv StoreWrite StoreRun Handlers Open Api ApiSpec Refine.
From S2P Require Import Registry RegistrySpec BackupSpec ProcessSpec Reader ReaderSpec SharedSpec.

Section follow.
Context `{Platform}.
Variables rootDir mmapID : gostring.

Let dp : gostring := dataPathFor rootDir mmapID.

(** A call of the Reader, which is in a process of its own: the files are those of
    the system, and its descriptor of the meta file holds no lock. *)
Definition looking {A} (c : M RSt A) (p : proc) : M Reader A := fun r =>
  let '(o, s) := c (mkRSt r (diskAt rootDir mmapID (p_fs p) (set_held Unheld (p_env p)))) in (o, rdr s).

(** The processes take a turn, or the Reader reads. *)
Inductive action :=
  | Turn (e : event)
  | Look (x : gostring).

Definition acting (a : action) : M (proc * Reader) unit := fun q =>
  match a with
  | Turn e => let '(o, p) := perform rootDir mmapID e q.1 in (o, (p, q.2))
  | Look x => let '(o, r) := looking (Reader_GetBytesCopy x) q.1 q.2 in ((λ _, tt) <$> o, (q.1, r))
  end.

Fixpoint acts (l : list action) : M (proc * Reader) unit :=
  match l with
  | [] => mret tt
  | a :: l => _ ← acting a; acts l
  end.

(** What is shared after the actions, how far the region may reach, and when they
    fit: the Reader takes the lock too, and is kept waiting while it is owned. *)
Definition acted (t : Z) (l : list action) (S : share) : share :=
  foldl (λ S a, match a with Turn e => turn t e S | Look _ => S end) S l.

Fixpoint suits (t : Z) (cryptKey : bytes) (l : list action) (S : share) (a : Z) : Prop :=
  match l with
  | [] => True
  | Turn e :: l => fits t cryptKey e S a ∧ suits t cryptKey l (turn t e S) (reached t e S a)
  | Look _ :: l => sa_lock S = None ∧ suits t cryptKey l S a
  end.
#[global] Instance suits_dec t cryptKey l S a : Decision (suits t cryptKey l S a).
Proof. revert S a. induction l as [|[] l]; intros; cbn [suits]; apply _. Defined.

(** The Reader holds the snapshot of a store the files have moved on from. *)
Record follows (r : Reader) (m m0 : MMKV) (sn : snapshot) (b0 : bdict) : Prop := {
  fw_holding : holding r (crypt m) (len (mf_file (meta m))) (canary m0) sn;
  fw_store : store_ok m0 b0;
  fw_tracked : tracked m0;
  fw_key : crypt m0 = crypt m;
  fw_behind : behind m0 m;
  fw_map : sn_m sn = b0;
  fw_expire : sn_expire sn = enableExpire m0;
}.
Definition following (r : Reader) (m : MMKV) : Prop := ∃ m0 sn b0, follows r m m0 sn b0.

Lemma following_onward r m m' : following r m → onward m m' → following r m'.
Proof.
  intros (m0&sn&b0&[Hh ? ? ? ? ? ?]) [Hb Hl Hc]. exists m0, sn, b0. split; try done; [|congruence|by apply Hb].
  by rewrite Hc, Hl.
Qed.

(** The words tell an older version from the present one. *)
Lemma canary_behind m0 m : behind m0 m → tracked m0 → tracked m → abreast m0 m ∨ canary m ≠ canary m0.
Proof.
  intros [Hb|Hb Ha _|Hb] [_ Ha0 _] [_ Hm _]; [right|right|by left]; unfold canary, words; intros [= _ E1 E2]; lia.
Qed.

(** ** Reading *)

(** The state of the Reader on the files of [m]. *)
Definition onFiles (r : Reader) (p : proc) : RSt :=
  mkRSt r (diskAt rootDir mmapID (p_fs p) (set_held Unheld (p_env p))).

Lemma follower_views r m m0 sn b0 p :
  follows r m m0 sn b0 → healthy (p_env p) →
  content (p_fs p) dp = Some (mf_file (data m)) → content (p_fs p) (dp ++ crcSuffix) = Some (mf_file (meta m)) →
  views (onFiles r p) m.
Proof. intros [[Hd Hm _ _] _ _ _ _ _ _] He Hcd Hcm. by split. Qed.

(** Whatever version it has, the snapshot it reads is of the present one. *)
Lemma follower_current r p cryptKey S a q m :
  sharing rootDir mmapID p cryptKey S a q m → following r m →
  ∃ s sn, current (onFiles r p) = (Ok sn, s) ∧ sn_m sn = repShare S ∧ sn_expire sn = sa_on S
    ∧ now (dk_env (disk s)) = now (p_env p) ∧ following (rdr s) m.
Proof.
  intros Hsg (m0&sn&b0&Hfo). pose proof Hsg as [Hf He Hnx Hcd Hcm Hs Ht Hpb Hok Hpo Hfl Hck Ha Hsq Hbl How Hparts].
  pose proof (follower_views r m m0 sn b0 p Hfo He Hcd Hcm) as Hv.
  destruct Hfo as [Hho Hs0 Ht0 Hc Hb Hm Hx].
  pose proof (holding_fresh _ _ _ _ _ (canary m) Hho) as Hfr.
  destruct (canary_behind m0 m Hb Ht0 Ht) as [Hab|Hne].
  - destruct Hab as [Ei Ea Ed Em].
    assert (repShare S = b0) as Eb by (symmetry; by apply (store_map_same m m0)).
    exists (onFiles r p), sn. split; [|split; [congruence|split; [|split; [done|by exists m0, sn, b0]]]].
    + apply (current_stable _ m (info m) sn Hv (proj1 Hpb)); [|apply Hho].
      change (tupleFresh r (canary m) = true). rewrite Hfr. apply bool_decide_eq_true_2.
      unfold canary. by rewrite Ei.
    + rewrite Hx, <-Hpo, (so_expire _ _ Hs), (so_expire _ _ Hs0). by rewrite Ei.
  - destruct (current_fresh (onFiles r p) m (repShare S) (info m) Hv Hs Hpb) as (s&sn'&Hcu&Hb'&Hx'&Hho'&Hn').
    { change (tupleFresh r (canary m) = false). rewrite Hfr. by apply bool_decide_eq_false_2. }
    exists s, sn'. split; [done|]. split; [done|]. split; [by rewrite Hx'|]. split; [by rewrite Hn'|].
    exists m, sn', (repShare S). split; try done. apply behind_not. by split.
Qed.

(** What the snapshot shows. *)
Lemma snapshot_shared sn t S j x :
  model_ok (viewOf S j) → sn_m sn = repShare S → sn_expire sn = sa_on S →
  snapshot_value sn t x = sa_map S !! x ≫= liveAt t.
Proof.
  intros Hok Hm Hx. change (snapshot_value sn t x = ask t (viewOf S j) x).
  rewrite <-(repMap_live _ _ _ Hok), repMap_view, snapshot_value_ok, Hm, Hx. unfold viewOf. cbn [md_expire].
  by destruct (sa_on S).
Qed.

Lemma follower_reads {A} (dec : M codedInput A) r p cryptKey S a q m x :
  total_dec dec → sharing rootDir mmapID p cryptKey S a q m → following r m →
  ∃ o r', looking (snapshotAs dec x) p r = (Ok o, r')
    ∧ decodes dec (sa_map S !! x ≫= liveAt (now (p_env p))) = Ok o ∧ following r' m.
Proof.
  intros Hd Hsg Hfo. destruct (follower_current _ _ _ _ _ _ _ Hsg Hfo) as (s&sn&Hc&Hm&Hx&Hn&Hfo').
  destruct (reader_getter dec (onFiles r p) x sn s Hd Hc) as (o&Hr&Ho).
  exists o, (rdr s). split; [|split; [|done]].
  - unfold looking. change (mkRSt r _) with (onFiles r p). by rewrite Hr.
  - by rewrite (snapshot_shared _ _ S 0%nat) in Ho by (done || apply Hsg); rewrite Hn in Ho.
Qed.

Lemma follower_lists r p cryptKey S a q m :
  sharing rootDir mmapID p cryptKey S a q m → following r m →
  ∃ ks r', looking Reader_Keys p r = (Ok ks, r') ∧ Sorted bytes_le ks ∧ NoDup ks
    ∧ ∀ k, k ∈ ks ↔ is_Some (sa_map S !! k ≫= liveAt (now (p_env p))).
Proof.
  intros Hsg Hfo. destruct (follower_current _ _ _ _ _ _ _ Hsg Hfo) as (s&sn&Hc&Hm&Hx&Hn&Hfo').
  destruct (Reader_Keys_ok (onFiles r p) sn s Hc) as (ks&Hk&Hs&Hnd&Hin).
  exists ks, (rdr s). split; [|split; [done|split; [done|]]].
  - unfold looking. change (mkRSt r _) with (onFiles r p). by rewrite Hk.
  - intros k. rewrite Hin, (snapshot_shared _ _ S 0%nat) by (done || apply Hsg). by rewrite Hn.
Qed.

(** ** Opening *)

Lemma reader_opens p cryptKey S a q m opts :
  sharing rootDir mmapID p cryptKey S a q m → rd_dec (newReader opts) = Decrypt <$> keyed cryptKey →
  ∃ r q', OpenReader rootDir mmapID opts (p_fs p, set_held Unheld (p_env p)) = (Ok r, q') ∧ following (rdr r) m.
Proof.
  intros Hsg Hk. pose proof Hsg as [Hf He Hnx Hcd Hcm Hs Ht Hpb Hok Hpo Hfl Hck Ha Hsq Hbl How Hparts].
  rewrite <-Hck in Hk. destruct (store_snapshot m (repShare S) (info m) Hs Hpb) as (sn&Hsn&Hm&_&Hx).
  destruct (openLive_ok (crypt m) opts (diskAt rootDir mmapID (p_fs p) (set_held Unheld (p_env p)))
    (mf_file (meta m)) (mf_file (data m)) (info m) sn Hk) as (s&Ho&_&Hho&_); try done;
    [apply Hpb|apply (so_version _ _ Hs)|].
  exists s. eexists. split; [unfold OpenReader; cbn [fst snd]; by rewrite Ho|].
  exists m, sn, (repShare S). split; try done. apply behind_not. by split.
Qed.

(** ** Any actions *)

Lemma action_ok a r p cryptKey S n q m l :
  sharing rootDir mmapID p cryptKey S n q m → following r m →
  suits (now (p_env p)) cryptKey (a :: l) S n → q + 1 < 2 ^ 32 →
  ∃ p' r' S' n' m', acting a (p, r) = (Ok tt, (p', r')) ∧ sharing rootDir mmapID p' cryptKey S' n' (q + 1) m'
    ∧ following r' m' ∧ now (p_env p') = now (p_env p)
    ∧ S' = acted (now (p_env p)) [a] S ∧ suits (now (p_env p)) cryptKey l S' n'.
Proof.
  intros Hsg Hfo Hs Hq. destruct a as [e|x]; destruct Hs as [He Hs].
  - destruct (turn_ok rootDir mmapID p cryptKey S n q m e Hsg He Hq) as (p'&m'&Hrun&Hsg'&Hn&Hon).
    eexists p', r, _, _, m'. split; [cbn [acting fst snd]; by rewrite Hrun|]. split; [done|].
    split; [by eapply following_onward|]. by split.
  - destruct (follower_reads readData r p cryptKey S n q m x total_data Hsg Hfo) as (o&r'&Hr&_&Hfo').
    exists p, r', S, n, m. split.
    { cbn [acting fst snd]. unfold Reader_GetBytesCopy, snapshot_bytesValue. by rewrite Hr. }
    split; [apply (sharing_later _ _ _ _ _ _ q); [done|lia]|by split_and!].
Qed.

Lemma actions_ok l r p cryptKey S n q m :
  sharing rootDir mmapID p cryptKey S n q m → following r m →
  suits (now (p_env p)) cryptKey l S n → q + len l < 2 ^ 32 →
  ∃ p' r' n' m', acts l (p, r) = (Ok tt, (p', r'))
    ∧ sharing rootDir mmapID p' cryptKey (acted (now (p_env p)) l S) n' (q + len l) m'
    ∧ following r' m' ∧ now (p_env p') = now (p_env p).
Proof.
  revert r p S n q m. induction l as [|a l IH]; intros r p S n q m Hsg Hfo Hs Hq; cbn [acts].
  - exists p, r, n, m. split; [done|]. split; [|done]. by rewrite Z.add_0_r.
  - cbn [length] in Hq.
    destruct (action_ok a r p cryptKey S n q m l Hsg Hfo Hs) as (p1&r1&S1&n1&m1&Hrun&Hsg1&Hfo1&Hn1&ES&Hs1); [lia|].
    rewrite <-Hn1 in Hs1. destruct (IH r1 p1 S1 n1 (q + 1) m1 Hsg1 Hfo1 Hs1) as (p2&r2&n2&m2&Hrun2&Hsg2&Hfo2&Hn2); [lia|].
    exists p2, r2, n2, m2. split; [by erewrite bind_ok by exact Hrun|]. split; [|split; [done|congruence]].
    rewrite Hn1, ES in Hsg2. apply (sharing_later _ _ _ _ _ _ _ _ _ Hsg2). cbn [length]. lia.
Qed.

End follow.
