(* ===== verification/LockedUpdate.v ===== *)
(** * Changing a value under the lock (mmkv_lock.go)

    What Lock and Unlock are for: instances of several processes read a value,
    compute the next one from it and store it, each between its Lock and its
    Unlock.  The calls of all of them are interleaved in every way the kernel's
    lock permits, with calls of others on other keys; no change is lost. *)

From S2P Require Import Prelude GoInt Wire Dict Meta Path MemFile Files Flock LockWorld Store StoreOps.
From S2P Require Import StoreInv StoreWrite StoreRun Handlers Open Api ApiSpec Refine.
From S2P Require Import Registry RegistrySpec BackupSpec ProcessSpec SharedSpec.

(** ** Operations that leave a key alone *)

Definition elsewhere (x : gostring) (o : op) : Prop :=
  match o with
  | OSet k _ | ORemove k => k ≠ x
  | ORemoveMany ks => x ∉ ks
  | OTrim => True
  | _ => False
  end.
#[global] Instance elsewhere_dec x o : Decision (elsewhere x o).
Proof. destruct o; cbn [elsewhere]; apply _. Defined.

Lemma without_other ks x {B} (b : kmap B) : x ∉ ks → without ks b !! x = b !! x.
Proof.
  unfold without. revert b. induction ks as [|k ks IH]; intros b Hx; cbn; [done|].
  apply not_elem_of_cons in Hx as [Hk Hx]. rewrite IH by done. by rewrite lookup_delete_ne.
Qed.

Lemma step_elsewhere t x o d :
  elsewhere x o → md_map (step t o d) !! x = md_map d !! x ∧ md_expire (step t o d) = md_expire d
    ∧ ∀ on n, lasts o on n = n.
Proof.
  destruct o; cbn [elsewhere step md_map md_expire]; try done; intros Hx; split_and!; try done.
  - by rewrite lookup_insert_ne.
  - by rewrite lookup_delete_ne.
  - by apply without_other.
Qed.

(** ** What an operation costs *)

(** At most this many bytes are added to the region, and to the packed one. *)
Definition cost (o : op) : Z :=
  match o with OSet k v => 14 + len k + len v | ORemove k => 10 + len k | _ => 0 end.

Definition modest (o : op) : Prop :=
  match o with OSet _ _ | ORemove _ | ORemoveMany _ | OTrim => True | _ => False end.

Lemma elsewhere_modest x o : elsewhere x o → modest o.
Proof. by destruct o. Qed.

Lemma pair_bytes_bound k v : len (pair_bytes (k, v)) ≤ 10 + len k + len v.
Proof.
  unfold pair_bytes, field. rewrite !length_app. cbn [fst snd].
  pose proof (varint_length_le5 (u32 (len k)) (u32_range _)).
  pose proof (varint_length_le5 (u32 (len v)) (u32_range _)). lia.
Qed.

Lemma rep_bound p v e : len (rep p (v, e)) ≤ len v + 4.
Proof. destruct p; cbn [rep fst snd]; [rewrite length_app, length_le_bytes|]; lia. Qed.

Lemma packed_without ks p mp :
  len (packed (repMap (mkModel (without ks mp) p))) ≤ len (packed (repMap (mkModel mp p))).
Proof.
  unfold without. revert mp. induction ks as [|k ks IH]; intros mp; cbn [foldl]; [lia|].
  etransitivity; [apply IH|]. pose proof (repMap_delete (mkModel mp p) k) as E. cbn [md_map md_expire] in E.
  rewrite E. apply packed_delete.
Qed.

Lemma reach_bound t o d a :
  modest o → len (packed (repMap d)) ≤ a →
  len (packed (repMap (step t o d))) ≤ reach t o d a ≤ a + 2 * cost o ∧ a ≤ reach t o d a.
Proof.
  intros Hm Ha. unfold reach. enough (len (packed (repMap (step t o d))) ≤ a + cost o ∧ 0 ≤ weight t o d ≤ cost o) by lia.
  destruct o; try done; cbn [step weight cost].
  - rewrite repMap_insert. set (r := rep _ _).
    pose proof (packed_insert (repMap d) k r). pose proof (pair_bytes_bound k r).
    pose proof (rep_bound (md_expire d) v (expiryAt t (md_expire d))). fold r in H1. lia.
  - rewrite repMap_delete. pose proof (packed_delete (repMap d) k). pose proof (pair_bytes_bound k []).
    cbn [length] in *. lia.
  - destruct d as [mp p]. cbn [md_map md_expire] in *. pose proof (packed_without ks p mp). lia.
  - lia.
Qed.

(** A lifetime under which what is set now is seen. *)
Definition lasting (t n : Z) : Prop := n = 0 ∨ t < u32 (t + n).
#[global] Instance lasting_dec t n : Decision (lasting t n).
Proof. unfold lasting. apply _. Defined.

Lemma lasting_live t n v on : lasting t n → liveAt t (v, expiryAt t (if on : bool then Some n else None)) = Some v.
Proof.
  intros Hn. destruct on; [|done]. cbn [expiryAt]. unfold liveAt. destruct (n =? 0) eqn:E; [done|].
  bsplit. destruct Hn as [->|Hn]; [done|]. cbn [fst snd].
  rewrite (proj2 (Z.leb_gt _ _) Hn). by rewrite andb_false_r.
Qed.

(** ** The processes *)

(** Where an instance is in its program, Lock; get; set; Unlock. *)
Inductive phase (A : Type) :=
  | Idle
  | Owning
  | Saw (o : option A)
  | Stored.
Arguments Idle {A}.
Arguments Owning {A}.
Arguments Saw {A} o.
Arguments Stored {A}.

(** Who may be inside the program: the owner of the lock, which took it once. *)
Definition owners {A} (o : option (nat * positive)) (w : gmap nat (phase A)) : Prop :=
  match o with
  | None => map_Forall (fun _ ph => ph = Idle) w
  | Some (j, n) =>
      n = 1%positive ∧ (∃ ph, w !! j = Some ph ∧ ph ≠ Idle) ∧ ∀ k ph, k ≠ j → w !! k = Some ph → ph = Idle
  end.

Lemma owners_take {A} j (ph : phase A) w : owners None w → ph ≠ Idle → owners (Some (j, 1%positive)) (<[j:=ph]> w).
Proof.
  intros Hw Hph. split; [done|]. split; [exists ph; by rewrite lookup_insert_eq|].
  intros k ph' Hk Hl. rewrite lookup_insert_ne in Hl by done. by eapply Hw.
Qed.
Lemma owners_go_on {A} j n (ph : phase A) w :
  owners (Some (j, n)) w → ph ≠ Idle → owners (Some (j, n)) (<[j:=ph]> w).
Proof.
  intros (Hn&_&Hw) Hph. split; [done|]. split; [exists ph; by rewrite lookup_insert_eq|].
  intros k ph' Hk Hl. rewrite lookup_insert_ne in Hl by done. by eapply Hw.
Qed.
Lemma owners_give {A} j n (w : gmap nat (phase A)) : owners (Some (j, n)) w → owners None (<[j:=Idle]> w).
Proof.
  intros (_&_&Hw) k ph Hk. destruct (decide (k = j)) as [->|Hne].
  - rewrite lookup_insert_eq in Hk. by injection Hk as <-.
  - rewrite lookup_insert_ne in Hk by done. by eapply Hw.
Qed.
Lemma owners_idle {A} j o (w : gmap nat (phase A)) : owners o w → (∀ n, o ≠ Some (j, n)) → owners o (<[j:=Idle]> w).
Proof.
  destruct o as [[i n]|].
  - intros (Hn&(ph&Hi&Hph)&Hw) Hj. assert (i ≠ j) as Hij by (intros ->; by eapply Hj).
    split; [done|]. split; [exists ph; by rewrite lookup_insert_ne|]. intros k ph' Hk Hl.
    destruct (decide (k = j)) as [->|Hne]; [rewrite lookup_insert_eq in Hl; by injection Hl as <-|].
    rewrite lookup_insert_ne in Hl by done. by eapply Hw.
  - intros Hw _. by apply map_Forall_insert_2.
Qed.
Lemma owners_inside {A} j o (w : gmap nat (phase A)) ph :
  owners o w → w !! j = Some ph → ph ≠ Idle → o = Some (j, 1%positive).
Proof.
  destruct o as [[i n]|]; [|by intros Hw Hj; apply Hw in Hj]. intros (->&_&Hw) Hj Hph.
  destruct (decide (j = i)) as [->|Hne]; [done|]. by apply Hw in Hj.
Qed.
Lemma owners_outside {A} j o (w : gmap nat (phase A)) n : owners o w → w !! j = Some Idle → o ≠ Some (j, n).
Proof. intros Hw Hj ->. destruct Hw as (_&(ph&Hi&Hph)&_). congruence. Qed.

(** The system, the instances with their places in the program, and how many
    values were stored. *)
Record updaters (A : Type) := mkUpdaters {
  ur_proc : proc;
  ur_phase : gmap nat (phase A);
  ur_count : nat;
}.

Arguments mkUpdaters {A}.
Arguments ur_proc {A}.
Arguments ur_phase {A}.
Arguments ur_count {A}.

Section updates.
Context `{Platform}.
Variables (rootDir mmapID : gostring) (cryptKey : bytes).
Context {A : Type} (c : codec A) (set : gostring → A → M St unit) (get : gostring → M St (option A)).
Context `{!Accessors c set get}.
Variables (x : gostring) (f : option A → A) (W : Z).

(** The kernel lets [j] have the lock: the others hold nothing that is in the
    way. *)
Definition granted (want : lmode) (j : nat) (u : updaters A) : Prop := ∀ k ph i,
  ur_phase u !! k = Some ph → k ≠ j → p_insts (ur_proc u) !! k = Some i → compatible want (i_held i) = true.

Definition moves (j : nat) (ph : phase A) (p : proc) (u : updaters A) : updaters A :=
  mkUpdaters p (<[j := ph]> (ur_phase u)) (ur_count u).

(** A call of [j].  The methods that get and set take the lock too; one that is
    not granted is kept waiting.  Instances that are not changing the value use
    the store, other keys, and another process may open it. *)
Inductive ustep (j : nat) (u : updaters A) : updaters A → Prop :=
  | us_lock r p' :
      ur_phase u !! j = Some Idle → granted HeldExclusive j u → call j Lock (ur_proc u) = (r, p') →
      ustep j u (moves j Owning p' u)
  | us_get o p' :
      ur_phase u !! j = Some Owning → granted HeldShared j u → call j (get x) (ur_proc u) = (Ok o, p') →
      ustep j u (moves j (Saw o) p' u)
  | us_set o r p' :
      ur_phase u !! j = Some (Saw o) → granted HeldExclusive j u → call j (set x (f o)) (ur_proc u) = (r, p') →
      ustep j u (mkUpdaters p' (<[j := Stored]> (ur_phase u)) (S (ur_count u)))
  | us_unlock r p' :
      ur_phase u !! j = Some Stored → call j Unlock (ur_proc u) = (r, p') →
      ustep j u (moves j Idle p' u)
  | us_read k r p' :
      ur_phase u !! j = Some Idle → granted HeldShared j u → call j (GetBytesCopy k) (ur_proc u) = (r, p') →
      ustep j u (moves j Idle p' u)
  | us_write o r p' :
      ur_phase u !! j = Some Idle → granted HeldExclusive j u → call j (run o) (ur_proc u) = (r, p') →
      elsewhere x o → admissible (0 <? len cryptKey) o → cost o ≤ W →
      ustep j u (moves j Idle p' u)
  | us_enter opts r p' :
      j = p_next (ur_proc u) → sharedOpts cryptKey opts →
      perform rootDir mmapID (Enters opts) (ur_proc u) = (r, p') →
      ustep j u (moves j Idle p' u).

Definition anystep : relation (updaters A) := fun u u' => ∃ j, ustep j u u'.

(** ** The invariant *)

Variable t : Z.
Variable o0 : option A.

(** The value after [n] changes. *)
Definition after (n : nat) : option A := Nat.iter n (fun o => Some (f o)) o0.

(** Only the owner of the lock is inside its program; what it has seen is the
    value there is. *)
Record updating (u : updaters A) (S : share) (a q : Z) (m : MMKV) : Prop := {
  up_sharing : sharing rootDir mmapID (ur_proc u) cryptKey S a q m;
  up_now : now (p_env (ur_proc u)) = t;
  up_parts j : is_Some (ur_phase u !! j) ↔ is_Some (sa_seconds S !! j);
  up_owner : owners (sa_lock S) (ur_phase u);
  up_value : decodes (c_dec c) (sa_map S !! x ≫= liveAt t) = Ok (after (ur_count u));
  up_saw j o : ur_phase u !! j = Some (Saw o) → o = after (ur_count u);
  up_lasting j n : sa_seconds S !! j = Some n → lasting t n;
  up_packed : len (packed (repShare S)) ≤ a;
}.

Lemma granted_grants u S a q m want j :
  updating u S a q m → granted want j u → want ≠ Unheld → grants (sa_lock S) j.
Proof.
  intros [Hsg _ Hpt How _ _ _ _] Hg Hw. destruct (sa_lock S) as [[k n]|] eqn:El; [|done].
  cbn [grants]. destruct (decide (k = j)) as [|Hne]; [done|]. exfalso.
  destruct How as (_&(ph&Hk&_)&_). destruct (proj1 (Hpt k) ltac:(eauto)) as [sec Hsec].
  destruct (sg_parts _ _ _ _ _ _ _ _ Hsg k sec Hsec) as (i&m0&Htp).
  specialize (Hg k ph i Hk Hne (tp_inst _ _ _ _ _ _ _ _ _ Htp)).
  rewrite (tp_held _ _ _ _ _ _ _ _ _ Htp), El in Hg. unfold counter in Hg. cbn [owned] in Hg.
  rewrite decide_True in Hg by done. by destruct want.
Qed.

Lemma grants_granted u S a q m want j :
  updating u S a q m → grants (sa_lock S) j → granted want j u.
Proof.
  intros [Hsg _ Hpt How _ _ _ _] Hg k ph i Hk Hne Hi. destruct (proj1 (Hpt k) ltac:(eauto)) as [sec Hsec].
  destruct (sg_parts _ _ _ _ _ _ _ _ Hsg k sec Hsec) as (i'&m0&Htp).
  pose proof (tp_inst _ _ _ _ _ _ _ _ _ Htp) as Hi'. assert (i' = i) as -> by congruence.
  rewrite (tp_held _ _ _ _ _ _ _ _ _ Htp). unfold counter.
  destruct (sa_lock S) as [[k' n]|]; [|by destruct want]. cbn [owned grants] in *. subst k'.
  rewrite decide_False by done. by destruct want.
Qed.

(** What a call of [j] has to keep. *)
Lemma updating_moves u S a q m j ph p' S' a' q' m' n :
  updating u S a q m → sharing rootDir mmapID p' cryptKey S' a' q' m' → now (p_env p') = t →
  (∀ k, is_Some (sa_seconds S' !! k) ↔ k = j ∨ is_Some (sa_seconds S !! k)) →
  owners (sa_lock S') (<[j:=ph]> (ur_phase u)) →
  decodes (c_dec c) (sa_map S' !! x ≫= liveAt t) = Ok (after n) →
  (∀ o, ph = Saw o → o = after n) →
  (n = ur_count u ∨ ∀ k ph', k ≠ j → ur_phase u !! k = Some ph' → ph' = Idle) →
  (∀ k s, sa_seconds S' !! k = Some s → lasting t s) → len (packed (repShare S')) ≤ a' →
  updating (mkUpdaters p' (<[j:=ph]> (ur_phase u)) n) S' a' q' m'.
Proof.
  intros [_ _ Hpt _ _ Hsaw _ _] Hsg Hnow Hk How Hv Hph Hn Hl Hp. split; try done; cbn [ur_phase ur_count].
  - intros k. rewrite Hk, <-Hpt. destruct (decide (k = j)) as [->|Hne].
    + rewrite lookup_insert_eq. split; [by left|by eexists].
    + rewrite lookup_insert_ne by done. split; [by right|by intros [|]].
  - intros k o Hko. destruct (decide (k = j)) as [->|Hne].
    + rewrite lookup_insert_eq in Hko. apply Hph. by injection Hko.
    + rewrite lookup_insert_ne in Hko by done. destruct Hn as [->|Hn]; [by eapply Hsaw|].
      by specialize (Hn _ _ Hne Hko).
Qed.

Lemma insert_known {V} (w : gmap nat V) j v k :
  is_Some (w !! j) → is_Some (<[j:=v]> w !! k) ↔ k = j ∨ is_Some (w !! k).
Proof.
  intros Hj. destruct (decide (k = j)) as [->|Hne].
  - rewrite lookup_insert_eq. split; [by left|by eexists].
  - rewrite lookup_insert_ne by done. split; [by right|by intros [|]].
Qed.
Lemma known {V} (w : gmap nat V) j k : is_Some (w !! j) → is_Some (w !! k) ↔ k = j ∨ is_Some (w !! k).
Proof. intros Hj. split; [by right|]. by intros [->|]. Qed.

(** Calls that write nothing. *)
Lemma keeps_updating u S a q m j ph p' o :
  updating u S a q m → is_Some (sa_seconds S !! j) →
  sharing rootDir mmapID p' cryptKey (set_sa_lock o S) a q m → now (p_env p') = now (p_env (ur_proc u)) →
  owners o (<[j:=ph]> (ur_phase u)) → (∀ v, ph = Saw v → v = after (ur_count u)) →
  updating (moves j ph p' u) (set_sa_lock o S) a q m.
Proof.
  intros Hu Hj Hsg Hnow How Hph. pose proof Hu as [_ Ht _ _ Hv _ Hl Hp].
  eapply updating_moves; try done; [by rewrite Hnow|intros k; by apply known|by left].
Qed.

(** A write keeps the lifetimes, and adds what it costs. *)
Lemma written_share j o S a :
  is_Some (sa_seconds S !! j) → modest o → len (packed (repShare S)) ≤ a →
  let S' := turn t (Writes j o) S in
  sa_seconds S' = sa_seconds S ∧ reached t (Writes j o) S a ≤ a + 2 * cost o
  ∧ len (packed (repShare S')) ≤ reached t (Writes j o) S a.
Proof.
  intros [n Hn] Hm Ha. cbn [reached]. pose proof (reach_bound t o (viewOf S j) a Hm) as Hb.
  rewrite repMap_view in Hb. specialize (Hb Ha). destruct (view_written t j o S j) as [Hr _].
  rewrite repMap_view in Hr. split; [|rewrite Hr; lia]. cbn [turn sa_seconds]. rewrite Hn. cbn [default].
  rewrite insert_id; [done|]. rewrite Hn. by destruct o.
Qed.

Hypothesis ok_f : ∀ o, c_ok c (f o).
Hypothesis cost_f : ∀ o, cost (OSet x (c_enc c (f o))) ≤ W.
Hypothesis nonempty_x : x ≠ [].

Lemma updating_later u S a a' q q' m :
  updating u S a q m → a ≤ a' → q ≤ q' → updating u S a' q' m.
Proof. intros [[] ?] ? ?. split; [split|..]; try done; lia. Qed.

(** [j] takes part, and is granted the lock when it is inside its program. *)
Lemma phase_known u S a q m j ph : updating u S a q m → ur_phase u !! j = Some ph → is_Some (sa_seconds S !! j).
Proof. intros Hu Hj. apply (up_parts _ _ _ _ _ Hu). by eexists. Qed.

Lemma inside_owns u S a q m j ph :
  updating u S a q m → ur_phase u !! j = Some ph → ph ≠ Idle → sa_lock S = Some (j, 1%positive).
Proof. intros Hu. apply owners_inside, (up_owner _ _ _ _ _ Hu). Qed.

Lemma idle_granted u S a q m j want :
  updating u S a q m → ur_phase u !! j = Some Idle → granted want j u → want ≠ Unheld → sa_lock S = None.
Proof.
  intros Hu Hj Hg Hw. pose proof (granted_grants _ _ _ _ _ _ _ Hu Hg Hw) as Hgr.
  pose proof (owners_outside j _ _ 1%positive (up_owner _ _ _ _ _ Hu) Hj) as Hno.
  destruct (sa_lock S) as [[k n]|] eqn:El; [|done]. cbn [grants] in Hgr. subst k.
  by destruct (owners_outside j _ _ n (up_owner _ _ _ _ _ Hu) Hj).
Qed.

(** *** Each call of the program succeeds *)

Lemma locks_ok u S a q m j :
  updating u S a q m → ur_phase u !! j = Some Idle → sa_lock S = None →
  ∃ p' S', call j Lock (ur_proc u) = (Ok tt, p') ∧ updating (moves j Owning p' u) S' a q m.
Proof.
  intros Hu Hj El. pose proof (phase_known _ _ _ _ _ _ _ Hu Hj) as Hs.
  destruct (sharing_locks rootDir mmapID (ur_proc u) cryptKey S a q m j) as (p'&Hrun&Hsg&Hn);
    [apply Hu|done|by rewrite El|].
  exists p', (set_sa_lock (taken j (sa_lock S)) S). split; [done|]. apply keeps_updating; try done.
  rewrite El. apply owners_take; [|done]. rewrite <-El. apply Hu.
Qed.

Lemma get_ok u S a q m j :
  updating u S a q m → ur_phase u !! j = Some Owning →
  ∃ p', call j (get x) (ur_proc u) = (Ok (after (ur_count u)), p')
    ∧ updating (moves j (Saw (after (ur_count u))) p' u) S a q m.
Proof.
  intros Hu Hj. pose proof (phase_known _ _ _ _ _ _ _ Hu Hj) as Hs.
  pose proof (inside_owns _ _ _ _ _ _ _ Hu Hj ltac:(done)) as El. pose proof Hu as [Hsg0 Ht _ How Hv _ _ _].
  destruct (getter_shared rootDir mmapID c set get (ur_proc u) cryptKey S a q m j x Hsg0 Hs) as (o&p'&Hrun&Ho&Hsg&Hn).
  rewrite Ht in Ho. change (ask t (viewOf S j) x) with (sa_map S !! x ≫= liveAt t) in Ho.
  rewrite Hv in Ho. injection Ho as <-. exists p'. split; [done|].
  assert (S = set_sa_lock (sa_lock S) S) as ES by (by destruct S). rewrite ES in Hsg |- *.
  apply keeps_updating; try done.
  - rewrite El. apply owners_go_on; [|done]. by rewrite <-El.
  - by intros v [= <-].
Qed.

Lemma set_ok u S a q m j o :
  updating u S a q m → ur_phase u !! j = Some (Saw o) → 4 + (a + 2 * W) < 2 ^ 32 → q + 1 < 2 ^ 32 →
  ∃ p' S' m', call j (set x (f o)) (ur_proc u) = (Ok tt, p')
    ∧ updating (mkUpdaters p' (<[j := Stored]> (ur_phase u)) (Datatypes.S (ur_count u))) S' (a + 2 * W) (q + 1) m'.
Proof.
  intros Hu Hj Ha Hq. pose proof (phase_known _ _ _ _ _ _ _ Hu Hj) as Hs.
  pose proof (inside_owns _ _ _ _ _ _ _ Hu Hj ltac:(done)) as El. pose proof Hu as [Hsg0 Ht _ How _ Hsaw Hl Hp].
  assert (o = after (ur_count u)) as Eo by (by eapply Hsaw).
  set (w := OSet x (c_enc c (f o))). destruct (written_share j w S a Hs I Hp) as (Es&Hr&Hp').
  pose proof (cost_f o) as Hc. fold w in Hc.
  destruct (sharing_writes rootDir mmapID (ur_proc u) cryptKey S a q m j w Hsg0) as (p'&m'&Hrun&Hsg&Hn&_).
  { rewrite Ht. split; [done|]. split; [by rewrite El|]. split; [split; [done|apply codec_nonempty]|]. split; [done|lia]. }
  { done. }
  rewrite Ht in Hsg. exists p', (turn t (Writes j w) S), m'. split; [by rewrite acc_set|].
  eapply updating_later with (a := reached t (Writes j w) S a) (q := q + 1); [|lia|lia].
  eapply updating_moves; try done; try congruence.
  - intros k. rewrite Es. by apply known.
  - change (sa_lock (turn t (Writes j w) S)) with (sa_lock S). rewrite El. apply owners_go_on; [|done]. by rewrite <-El.
  - cbn [turn sa_map]. cbn [w step md_map]. rewrite lookup_insert_eq. cbn [mbind option_bind].
    destruct Hs as [n Hs]. unfold viewOf. cbn [md_expire]. rewrite Hs. cbn [default].
    rewrite lasting_live by (by eapply Hl). cbn [decodes]. rewrite (decode_codec c _ (ok_f o)). by rewrite Eo.
  - right. intros k ph' Hne Hk. rewrite El in How. destruct How as (_&_&How). by eapply How.
  - intros k s. rewrite Es. apply Hl.
Qed.

Lemma unlocks_ok u S a q m j :
  updating u S a q m → ur_phase u !! j = Some Stored →
  ∃ p' S', call j Unlock (ur_proc u) = (Ok tt, p') ∧ updating (moves j Idle p' u) S' a q m.
Proof.
  intros Hu Hj. pose proof (phase_known _ _ _ _ _ _ _ Hu Hj) as Hs.
  pose proof (inside_owns _ _ _ _ _ _ _ Hu Hj ltac:(done)) as El.
  destruct (sharing_unlocks rootDir mmapID (ur_proc u) cryptKey S a q m j) as (p'&Hrun&Hsg&Hn); [apply Hu|done|].
  exists p', (set_sa_lock (givenBack j (sa_lock S)) S). split; [done|]. apply keeps_updating; try done.
  rewrite El. cbn [givenBack]. rewrite !decide_True by done. apply (owners_give j 1%positive). rewrite <-El. apply Hu.
Qed.

(** *** The calls of the others *)

Lemma read_ok u S a q m j k :
  updating u S a q m → ur_phase u !! j = Some Idle → sa_lock S = None →
  ∃ r p', call j (GetBytesCopy k) (ur_proc u) = (r, p') ∧ updating (moves j Idle p' u) S a q m.
Proof.
  intros Hu Hj El. pose proof (phase_known _ _ _ _ _ _ _ Hu Hj) as Hs.
  destruct (getter_shared rootDir mmapID bytes_codec SetBytes GetBytesCopy (ur_proc u) cryptKey S a q m j k)
    as (o&p'&Hrun&_&Hsg&Hn); [apply Hu|done|].
  exists (Ok o), p'. split; [done|].
  assert (S = set_sa_lock (sa_lock S) S) as ES by (by destruct S). rewrite ES in Hsg |- *.
  apply keeps_updating; try done. apply owners_idle; [apply Hu|by rewrite El].
Qed.

Lemma write_ok u S a q m j o :
  updating u S a q m → ur_phase u !! j = Some Idle → sa_lock S = None →
  elsewhere x o → admissible (0 <? len cryptKey) o → cost o ≤ W → 4 + (a + 2 * W) < 2 ^ 32 → q + 1 < 2 ^ 32 →
  ∃ p' S' m', call j (run o) (ur_proc u) = (Ok tt, p') ∧ updating (moves j Idle p' u) S' (a + 2 * W) (q + 1) m'.
Proof.
  intros Hu Hj El Hx Hadm Hc Ha Hq. pose proof (phase_known _ _ _ _ _ _ _ Hu Hj) as Hs.
  pose proof Hu as [Hsg0 Ht _ How Hv _ Hl Hp].
  destruct (written_share j o S a Hs (elsewhere_modest _ _ Hx) Hp) as (Es&Hr&Hp').
  destruct (sharing_writes rootDir mmapID (ur_proc u) cryptKey S a q m j o Hsg0) as (p'&m'&Hrun&Hsg&Hn&_).
  { rewrite Ht. split; [done|]. split; [by rewrite El|]. split; [done|]. split; [by destruct o|lia]. }
  { done. }
  rewrite Ht in Hsg. exists p', (turn t (Writes j o) S), m'. split; [done|].
  eapply updating_later with (a := reached t (Writes j o) S a) (q := q + 1); [|lia|lia].
  eapply updating_moves; try done; try congruence.
  - intros k. rewrite Es. by apply known.
  - apply owners_idle; [done|]. cbn [turn sa_lock]. by rewrite El.
  - cbn [turn sa_map]. by rewrite (proj1 (step_elsewhere t x o (viewOf S j) Hx)).
  - by left.
  - intros k s. rewrite Es. apply Hl.
Qed.

Lemma enter_ok u S a q m opts :
  updating u S a q m → sharedOpts cryptKey opts →
  ∃ p' S', perform rootDir mmapID (Enters opts) (ur_proc u) = (Ok tt, p')
    ∧ updating (moves (p_next (ur_proc u)) Idle p' u) S' a q m.
Proof.
  intros Hu Ho. pose proof Hu as [Hsg0 Ht _ How Hv _ Hl Hp].
  destruct (enters_later rootDir mmapID (ur_proc u) cryptKey S a q m opts Hsg0 Ho) as (p'&Hrun&Hsg&Hn).
  rewrite Ht in Hsg. exists p', (turn t (Enters opts) S). split; [done|].
  rewrite (sg_next _ _ _ _ _ _ _ _ Hsg0).
  eapply updating_moves; try done; try congruence.
  - intros k. cbn [turn sa_seconds]. destruct (decide (k = sa_next S)) as [->|Hne].
    + rewrite lookup_insert_eq. split; [by left|by eexists].
    + rewrite lookup_insert_ne by done. split; [by right|by intros [|]].
  - apply owners_idle; [done|]. cbn [turn sa_lock]. intros n Hn'.
    pose proof (sg_below _ _ _ _ _ _ _ _ Hsg0 _ (sg_owner _ _ _ _ _ _ _ _ Hsg0 _ _ Hn')). lia.
  - by left.
  - intros k s. cbn [turn sa_seconds]. destruct (decide (k = sa_next S)) as [->|Hne].
    + rewrite lookup_insert_eq. intros [= <-]. by left.
    + rewrite lookup_insert_ne by done. apply Hl.
Qed.

(** ** Every interleaving *)

Lemma ustep_updating u S a q m j u' :
  updating u S a q m → ustep j u u' → 0 ≤ W → 4 + (a + 2 * W) < 2 ^ 32 → q + 1 < 2 ^ 32 →
  ∃ S' m', updating u' S' (a + 2 * W) (q + 1) m'.
Proof.
  intros Hu Hstep HW Ha Hq.
  assert (∀ u S m, updating u S a q m → ∃ S' m', updating u S' (a + 2 * W) (q + 1) m') as Hlater.
  { intros u1 S1 m1 Hu1. exists S1, m1. eapply updating_later; [done|lia..]. }
  destruct Hstep as [r p' Hj Hg Hrun|o p' Hj Hg Hrun|o r p' Hj Hg Hrun|r p' Hj Hrun|k r p' Hj Hg Hrun
    |o r p' Hj Hg Hrun Hx Hadm Hc|opts r p' -> Ho Hrun].
  - destruct (locks_ok _ _ _ _ _ _ Hu Hj) as (p1&S1&Hrun1&Hu1); [by eapply idle_granted|].
    rewrite Hrun in Hrun1. simplify_eq. by eapply Hlater.
  - destruct (get_ok _ _ _ _ _ _ Hu Hj) as (p1&Hrun1&Hu1). rewrite Hrun in Hrun1. simplify_eq. by eapply Hlater.
  - destruct (set_ok _ _ _ _ _ _ _ Hu Hj Ha Hq) as (p1&S1&m1&Hrun1&Hu1). rewrite Hrun in Hrun1. simplify_eq. eauto.
  - destruct (unlocks_ok _ _ _ _ _ _ Hu Hj) as (p1&S1&Hrun1&Hu1). rewrite Hrun in Hrun1. simplify_eq. by eapply Hlater.
  - destruct (read_ok _ _ _ _ _ _ k Hu Hj) as (r1&p1&Hrun1&Hu1); [by eapply idle_granted|].
    rewrite Hrun in Hrun1. simplify_eq. by eapply Hlater.
  - destruct (write_ok u S a q m j o Hu Hj) as (p1&S1&m1&Hrun1&Hu1); try done; [by eapply idle_granted|].
    rewrite Hrun in Hrun1. simplify_eq. eauto.
  - destruct (enter_ok _ _ _ _ _ _ Hu Ho) as (p1&S1&Hrun1&Hu1). rewrite Hrun in Hrun1. simplify_eq. by eapply Hlater.
Qed.

Lemma usteps_updating n u S a q m u' :
  updating u S a q m → nsteps anystep n u u' → 0 ≤ W →
  4 + (a + Z.of_nat n * (2 * W)) < 2 ^ 32 → q + Z.of_nat n < 2 ^ 32 →
  ∃ S' m', updating u' S' (a + Z.of_nat n * (2 * W)) (q + Z.of_nat n) m'.
Proof.
  intros Hu Hn HW. revert S a q m Hu. induction Hn as [u|n u u1 u2 [j Hs] _ IH]; intros S a q m Hu Ha Hq.
  - exists S, m. eapply updating_later; [done|lia..].
  - destruct (ustep_updating _ _ _ _ _ _ _ Hu Hs HW) as (S1&m1&Hu1); [nia|lia|].
    destruct (IH S1 (a + 2 * W) (q + 1) m1 Hu1) as (S2&m2&Hu2); [nia|lia|].
    exists S2, m2. eapply updating_later; [done|nia|lia].
Qed.

(** [j] can make its next call, which brings it on in its program. *)
Definition goes_on (j : nat) (u : updaters A) : Prop :=
  ∃ u', ustep j u u' ∧ ur_phase u' !! j ≠ ur_phase u !! j.

Lemma goes_on_by j ph ph' u u' :
  ustep j u u' → ur_phase u !! j = Some ph → ur_phase u' = <[j:=ph']> (ur_phase u) → ph' ≠ ph → goes_on j u.
Proof. intros Hs Hj Hu' Hne. exists u'. split; [done|]. rewrite Hu', Hj, lookup_insert_eq. congruence. Qed.

(** An instance goes on, or waits for the one that has the lock, which goes on. *)
Lemma updating_progress u S a q m j ph :
  updating u S a q m → ur_phase u !! j = Some ph → 4 + (a + 2 * W) < 2 ^ 32 → q + 1 < 2 ^ 32 →
  goes_on j u ∨ ∃ k ph', k ≠ j ∧ ur_phase u !! k = Some ph' ∧ ph' ≠ Idle ∧ goes_on k u.
Proof.
  intros Hu Hj Ha Hq.
  assert (∀ k ph', ur_phase u !! k = Some ph' → ph' ≠ Idle → goes_on k u) as Hin.
  { intros k ph' Hk Hph. pose proof (inside_owns _ _ _ _ _ _ _ Hu Hk Hph) as El.
    assert (∀ want, granted want k u) as Hg.
    { intros want. eapply grants_granted; [exact Hu|]. by rewrite El. }
    destruct ph' as [| |o|]; [done|..].
    - destruct (get_ok _ _ _ _ _ _ Hu Hk) as (p'&Hrun&_). by eapply goes_on_by; [by eapply us_get|..].
    - destruct (set_ok _ _ _ _ _ _ _ Hu Hk Ha Hq) as (p'&S'&m'&Hrun&_). by eapply goes_on_by; [by eapply us_set|..].
    - destruct (unlocks_ok _ _ _ _ _ _ Hu Hk) as (p'&S'&Hrun&_). by eapply goes_on_by; [by eapply us_unlock|..]. }
  destruct (sa_lock S) as [[k n]|] eqn:El.
  - pose proof (up_owner _ _ _ _ _ Hu) as How. rewrite El in How. destruct How as (_&(ph'&Hk&Hph)&_).
    pose proof (Hin k ph' Hk Hph). destruct (decide (k = j)) as [->|Hne]; [by left|].
    right. by exists k, ph'.
  - left. assert (ph = Idle) as ->.
    { pose proof (up_owner _ _ _ _ _ Hu) as How. rewrite El in How. by apply How in Hj. }
    destruct (locks_ok _ _ _ _ _ _ Hu Hj El) as (p'&S'&Hrun&_).
    eapply goes_on_by; [eapply us_lock; [done| |done]|done..]. eapply grants_granted; [exact Hu|]. by rewrite El.
Qed.

(** Whoever may read the value finds the changes that were made. *)
Lemma updating_value u S a q m j :
  updating u S a q m → is_Some (ur_phase u !! j) →
  ∃ p', call j (get x) (ur_proc u) = (Ok (after (ur_count u)), p').
Proof.
  intros Hu [ph Hj]. pose proof Hu as [Hsg Ht _ _ Hv _ _ _].
  destruct (getter_shared rootDir mmapID c set get (ur_proc u) cryptKey S a q m j x Hsg) as (o&p'&Hrun&Ho&_);
    [by eapply phase_known|].
  rewrite Ht in Ho. change (ask t (viewOf S j) x) with (sa_map S !! x ≫= liveAt t) in Ho.
  rewrite Hv in Ho. injection Ho as <-. by exists p'.
Qed.

(** ** The start *)

(** After the turns [es], all that take part are outside of their programs. *)
Definition starts (S : share) (p : proc) : updaters A := mkUpdaters p ((λ _, Idle) <$> sa_seconds S) 0.

Lemma starts_updating S p a q m :
  sharing rootDir mmapID p cryptKey S a q m → now (p_env p) = t → sa_lock S = None →
  map_Forall (λ _, lasting t) (sa_seconds S) → decodes (c_dec c) (sa_map S !! x ≫= liveAt t) = Ok o0 →
  updating (starts S p) S (Z.max a (len (packed (repShare S)))) q m.
Proof.
  intros Hsg Hn Hl Hs Hv.
  assert (∀ j ph, ur_phase (starts S p) !! j = Some ph → ph = Idle) as Hidle.
  { intros j ph. cbn. rewrite lookup_fmap. destruct (sa_seconds S !! j); [|done]. by intros [= <-]. }
  split; try done.
  - destruct Hsg. split; try done; lia.
  - intros j. cbn. rewrite lookup_fmap. by rewrite fmap_is_Some.
  - rewrite Hl. exact Hidle.
  - intros j o Hj. by apply Hidle in Hj.
  - lia.
Qed.

End updates.


(** The grants can be checked. *)
Definition grantedb {A} (want : lmode) (j : nat) (u : updaters A) : Prop :=
  map_Forall (fun k _ => k = j ∨ match p_insts (ur_proc u) !! k with
                                 | Some i => compatible want (i_held i) = true
                                 | None => True
                                 end) (ur_phase u).
#[global] Instance grantedb_dec {A} want j (u : updaters A) : Decision (grantedb want j u).
Proof.
  unfold grantedb. apply map_Forall_dec. intros k ph. apply or_dec; [apply _|].
  destruct (p_insts (ur_proc u) !! k); apply _.
Defined.

Lemma grantedb_ok {A} want j (u : updaters A) : grantedb want j u → granted want j u.
Proof. intros Hg k ph i Hk Hne Hi. destruct (Hg k ph Hk) as [|Hc]; [done|]. by rewrite Hi in Hc. Qed.
