(* ===== verification/FaultSpec.v ===== *)
(** * Writes that fail

    A method under any failures of its system calls does, call by call, what it
    does when none fails, until one does: [heal] takes the failures out of a state,
    and [resilient] compares the two runs.  So what a failed method leaves in the
    files is found at the few places where a call can fail: before the region is
    touched, or after the meta is written. *)

From S2P Require Import Prelude GoInt Wire Crc32 Meta Dict Crypt MemFile Flock Store StoreOps.
From S2P Require Import StoreInv StoreWrite StoreRun Handlers Open Api Refine RegistrySpec BackupSpec ProcessSpec SharedSpec.

(** ** Failing runs and healthy runs *)

(** A state without the failures to come. *)
Class Healing (S : Type) := heal : S → S.
#[global] Instance sys_heal : Healing sys := set_faults [].
#[global] Instance mf_heal : Healing (memoryFile * sys) := fun p => (p.1, heal p.2).
#[global] Instance St_heal : Healing St := fun s => mkSt (st s) (heal (env s)).

Lemma healthy_heal s : healthy (env (heal s)).
Proof. done. Qed.

(** A system call failed. *)
Definition refusal {A} (r : outcome A) : Prop := ∃ errno, r = Err (ErrSys errno).

(** A call of [c] from [s] fails in a state where [K] holds, or behaves as when
    nothing can fail. *)
Definition resilient {S A} `{Healing S} (K : S → Prop) (c : M S A) (s : S) : Prop :=
  ∀ r s', c s = (r, s') → (refusal r ∧ K s') ∨ c (heal s) = (r, heal s').

Section resilient.
Context {S : Type} `{Healing S}.
Implicit Types (K : S → Prop) (s : S).

(** What makes no system call. *)
Lemma resilient_pure {A} K (c : M S A) s :
  (∀ s, c (heal s) = ((c s).1, heal (c s).2)) → resilient K c s.
Proof. intros Hc r s' Hr. right. by rewrite Hc, Hr. Qed.

Lemma resilient_bind {A B} K (c : M S B) (k : B → M S A) s :
  resilient K c s → (∀ a s1, c s = (Ok a, s1) → c (heal s) = (Ok a, heal s1) → resilient K (k a) s1) →
  resilient K (c ≫= k) s.
Proof.
  intros Hc Hk r s' Hr. unfold mbind, M_bind in Hr. destruct (c s) as [o s1] eqn:E.
  destruct (Hc _ _ E) as [[[x ->] HK]|Hh].
  - injection Hr as <- <-. left. split; [by exists x|done].
  - unfold mbind, M_bind. rewrite Hh. destruct o as [a| | |]; [|injection Hr as <- <-; by right..].
    by apply (Hk a s1).
Qed.

(** A step that cannot fail, and whose effect is known. *)
Lemma resilient_step {A B} K (c : M S B) (k : B → M S A) s a s1 :
  c s = (Ok a, s1) → c (heal s) = (Ok a, heal s1) → resilient K (k a) s1 → resilient K (c ≫= k) s.
Proof.
  intros E Eh Hk. apply resilient_bind; [intros r s'; rewrite E; intros [= <- <-]; by right|].
  intros a' s1'. rewrite E. by intros [= <- <-].
Qed.

Lemma resilient_get {A} K (k : S → M S A) s :
  k (heal s) = k s → resilient K (k s) s → resilient K (get ≫= k) s.
Proof.
  intros Hk Hs r s' Hr. destruct (Hs r s' Hr) as [|Hh]; [by left|right].
  unfold mbind, M_bind, get. by rewrite Hk.
Qed.
Lemma resilient_lift {A B} K (o : outcome B) (k : B → M S A) s :
  (∀ a, o = Ok a → resilient K (k a) s) → resilient K (lift o ≫= k) s.
Proof.
  intros Hk. apply resilient_bind; [by apply resilient_pure|].
  intros a s1 [= E <-] _. by apply Hk.
Qed.

(** A call of a component. *)
Lemma resilient_zoom {T A} `{Healing T} (pr : S → T) (upd : T → S → S) (K : S → Prop) (c : M T A) s :
  pr (heal s) = heal (pr s) → (∀ t, upd (heal t) (heal s) = heal (upd t s)) →
  resilient (fun t => K (upd t s)) c (pr s) → resilient K (zoom pr upd c) s.
Proof.
  intros Hp Hu Hc r s' Hr. unfold zoom in *. rewrite Hp. destruct (c (pr s)) as [o t] eqn:E.
  injection Hr as <- <-. destruct (Hc _ _ E) as [Hx|Hh]; [by left|right]. by rewrite Hh, Hu.
Qed.

End resilient.

Lemma syscall_resilient (K : sys → Prop) e :
  (∀ e', heal e' = heal e → K e') → resilient K syscall e.
Proof.
  intros HK r e' Hr. unfold syscall in Hr. destruct (faults e) as [|[x|] fs]; injection Hr as <- <-; [by right| |by right].
  left. split; [by exists x|by apply HK].
Qed.

Section steps.
Implicit Types (K : St → Prop) (s : St).

Lemma resilient_this {A} K (k : MMKV → M St A) s : resilient K (k (st s)) s → resilient K (this ≫= k) s.
Proof. by apply resilient_step. Qed.
Lemma resilient_upd {A} K f (k : unit → M St A) s :
  resilient K (k tt) (mkSt (f (st s)) (env s)) → resilient K (upd f ≫= k) s.
Proof. by apply resilient_step. Qed.
Lemma resilient_onStore {A} K (c : M MMKV A) s : resilient K (onStore c) s.
Proof. apply resilient_pure. intros [m e]. unfold onStore, zoom. cbn. by destruct (c m). Qed.
Lemma resilient_onData {A} K (c : MF A) s :
  resilient (fun p => K (mkSt (set_data p.1 (st s)) p.2)) c (data (st s), env s) → resilient K (onData c) s.
Proof. intros Hc. by apply resilient_zoom. Qed.
Lemma resilient_onMeta {A} K (c : MF A) s :
  resilient (fun p => K (mkSt (set_meta p.1 (st s)) p.2)) c (meta (st s), env s) → resilient K (onMeta c) s.
Proof. intros Hc. by apply resilient_zoom. Qed.
Lemma resilient_onSys {A} K (c : M sys A) s :
  resilient (fun e => K (mkSt (st s) e)) c (env s) → resilient K (onSys c) s.
Proof. intros Hc. by apply resilient_zoom. Qed.

End steps.

Lemma mfSys_resilient (K : memoryFile * sys → Prop) p : (∀ e, K (p.1, e)) → resilient K (mfSys syscall) p.
Proof. intros HK. apply resilient_zoom; [done..|]. apply syscall_resilient. intros e _. apply HK. Qed.

Section faults.
Context `{Platform}.

(** ** Files that still hold a store *)

(** The files under [m'] hold what [m] stands for: its meta file, and a data file
    with its header and its region. *)
Record retains (m m' : MMKV) : Prop := {
  rt_meta : mf_file (meta m') = mf_file (meta m);
  rt_page : pageRoundUp 0 ≤ len (mf_file (data m'));
  rt_fits : 4 + actualSize m ≤ len (mf_file (data m'));
  rt_region : take (Z.to_nat (4 + actualSize m)) (mf_file (data m'))
    = take (Z.to_nat (4 + actualSize m)) (mf_file (data m));
}.

Lemma retains_same m m' b :
  store_ok m b → mf_file (data m') = mf_file (data m) → mf_file (meta m') = mf_file (meta m) → retains m m'.
Proof. intros Hs Ed Em. split; rewrite ?Ed; try done; apply Hs. Qed.

Lemma retains_files m m1 m2 :
  retains m m1 → mf_file (data m2) = mf_file (data m1) → mf_file (meta m2) = mf_file (meta m1) → retains m m2.
Proof. intros [] Ed Em. split; rewrite ?Ed, ?Em; done. Qed.

Lemma take_resize k n l : (k ≤ n)%nat → (k ≤ length l)%nat → take k (resize n l) = take k l.
Proof.
  intros Hn Hl. unfold resize. rewrite take_app_le by (rewrite length_take; lia).
  rewrite take_take. f_equal. lia.
Qed.

(** A file that was cut or extended behind the region. *)
Lemma retains_resize m m1 m2 b n :
  store_ok m b → retains m m1 → mf_file (data m2) = resize n (mf_file (data m1)) →
  mf_file (meta m2) = mf_file (meta m1) → pageRoundUp 0 ≤ Z.of_nat n → 4 + actualSize m ≤ Z.of_nat n → retains m m2.
Proof.
  intros Hs [Hm Hp Hf Hr] Ed Em Hn Ha. pose proof (so_actual _ _ Hs).
  split; rewrite ?Ed, ?length_resize; try done; [congruence|]. rewrite take_resize by lia. done.
Qed.

(** The size a load will read is the one in memory, and so is the digest: it is
    so for a store that was not rolled back. *)
Record level (m : MMKV) : Prop := {
  lv_tracked : tracked m;
  lv_read : readActualSize m = actualSize m;
}.

Lemma settled_level m : settled m → level m.
Proof.
  intros Hs. split; [by apply settled_tracked|]. destruct Hs as [_ Hv Ha _].
  unfold readActualSize. by btrue.
Qed.

Lemma readActualSize_ext m m' :
  mf_ok (data m) → mf_ok (data m') → info m' = info m → 4 ≤ len (mf_file (data m)) →
  4 ≤ len (mf_file (data m')) → take 4 (mf_file (data m')) = take 4 (mf_file (data m)) →
  readActualSize m' = readActualSize m.
Proof.
  intros Hok Hok' Ei Hl Hl' Ht. unfold readActualSize. rewrite Ei, !memory_ok by done.
  destruct (_ <=? _); [done|]. cbv zeta. do 2 btrue. unfold sub. by rewrite !drop_0, Ht.
Qed.

Lemma level_advances m m' b b' : store_ok m b → store_ok m' b' → advances m m' → level m → level m'.
Proof.
  intros Hs Hs' Ha [Ht Hr]. pose proof (tracked_advances m m' Ha Ht) as Ht'.
  destruct Ha as [Ei Ed Em Ea Ec| | |]; [|by apply settled_level..].
  split; [done|]. rewrite Ea, <-Hr. pose proof (fo_data_len _ (so_files _ _ Hs)) as Hl.
  apply readActualSize_ext; [apply Hs|apply Hs'|done|done|by rewrite Ed|by rewrite Ed].
Qed.

(** The store over another data file. *)
Definition refiled (f : bytes) (m : MMKV) : MMKV :=
  set_data (mkMemFile (mf_open (data m)) f (Some (mkMapping (dataGen m) (len f))) (len f) false (mf_gen (data m))) m.

Lemma sub_prefix_same k (l l' : bytes) off n :
  take k l' = take k l → (off + n ≤ k)%nat → sub l' off n = sub l off n.
Proof. intros Ht Hk. by rewrite <-(sub_take l' k), Ht, sub_take. Qed.

Lemma refiled_deref f m n s :
  mf_ok (data m) → n ≤ len f → n ≤ len (mf_file (data m)) →
  take (Z.to_nat n) f = take (Z.to_nat n) (mf_file (data m)) →
  slice_in n s → deref (data (refiled f m)) s = deref (data m) s.
Proof.
  intros Hok Hl Hl' Ht Hs. destruct s as [|g o k]; [done|]. cbn [slice_in] in Hs.
  assert (mf_ok (data (refiled f m))) as Hok' by (split; cbn; eauto).
  pose proof Hok as [[g' Hg] _]. unfold deref. rewrite !memory_ok by done.
  change (mf_data (data (refiled f m))) with (Some (mkMapping (dataGen m) (len f))). unfold dataGen.
  rewrite Hg. cbn [map_gen]. destruct (g =? g')%nat; [|done].
  change (mf_file (data (refiled f m))) with f. rewrite !slice_ok by lia. f_equal. eapply sub_prefix_same; [exact Ht|lia].
Qed.

(** It stands for the same map, when the header and the region are the same. *)
Lemma refiled_store m m' b :
  store_ok m b → level m → retains m m' → store_ok (refiled (mf_file (data m')) m) b.
Proof.
  intros Hs [Ht Hlv] [_ Hp Hf Hr]. pose proof (so_actual _ _ Hs) as Ha. pose proof (so_fits _ _ Hs) as Hfit.
  set (f := mf_file (data m')) in *. pose proof (so_files _ _ Hs) as [F1 F2 F3 F4 F5 F6 F7].
  assert (mf_ok (data (refiled f m))) as Hok by (split; cbn; eauto).
  assert (region (refiled f m) = region m) as Hreg by (eapply sub_prefix_same; [exact Hr|lia]).
  destruct Hs as [_ [Hd Hb] _ _ Hw Hc Hv Hpl Hver Hx Hm Hn]. split; try done.
  - split; [|done]. eapply dict_shows_change; [exact Hd|]. intros k s Hk.
    apply (refiled_deref f m (4 + actualSize m)); try done. by apply (Hv k).
  - by rewrite Hreg.
  - destruct Hpl as (plain&vd&Hdec&Hparse&Hshow). exists plain, vd. by rewrite Hreg.
  - exists (info m). split; [apply Ht|]. left.
    assert (readActualSize (set_info (info m) (refiled f m)) = actualSize m) as ->.
    { rewrite <-Hlv. apply readActualSize_ext; try done; [lia|cbn; lia|].
      cbn [refiled data set_info set_data mf_file].
      apply (f_equal (take 4)) in Hr. by rewrite !take_take, !Nat.min_l in Hr by lia. }
    cbn [refiled set_data actualSize crcDigest info set_info]. rewrite (tr_crc _ Ht). split_and!; try done.
    apply acceptable_true; try done. rewrite Hc, <-Hreg. done.
Qed.

(** ** The calls of a write-back *)

Lemma mfSys_file p o q : mfSys syscall p = (o, q) → q.1 = p.1.
Proof. unfold mfSys, zoom. destruct (syscall p.2). by intros [= _ <-]. Qed.

(** A truncation that fails left the file as it was, or cut or extended it. *)
Lemma truncate_resilient (K : memoryFile * sys → Prop) n p :
  (∀ q, mf_file q.1 = mf_file p.1 ∨ mf_file q.1 = resize (Z.to_nat (pageRoundUp n)) (mf_file p.1) → K q) →
  resilient K (truncate n) p.
Proof.
  intros HK. apply resilient_get; [by destruct p|]. cbv beta zeta. destruct (_ =? _); [by apply resilient_pure|].
  apply resilient_bind; [apply mfSys_resilient; intros e; apply HK; by left|].
  intros [] q E _. apply mfSys_file in E.
  eapply resilient_step; [done..|]. set (q1 := (set_mf_file (resize (Z.to_nat (pageRoundUp n)) (mf_file q.1)) q.1, q.2)).
  assert (∀ q2, mf_file q2.1 = mf_file q1.1 → K q2) as HK1.
  { intros q2 Eq. apply HK. right. rewrite Eq. cbn. by rewrite E. }
  apply resilient_bind.
  - destruct (mf_data p.1); [|by apply resilient_pure].
    apply resilient_bind; [apply mfSys_resilient; intros e; by apply HK1|]. intros _ q2 _ _. by apply resilient_pure.
  - intros [] q2 E2 _. assert (mf_file q2.1 = mf_file q1.1) as Eq2.
    { destruct (mf_data p.1); [|by injection E2 as <-].
      apply bind_inv_ok in E2 as ([]&q3&E3&[= <-]). apply mfSys_file in E3. exact (f_equal mf_file E3). }
    apply resilient_bind; [apply mfSys_resilient; intros e; by apply HK1|].
    intros _ q3 _ _. by apply resilient_pure.
Qed.

Lemma msync_resilient (K : memoryFile * sys → Prop) b p : (∀ e, K (p.1, e)) → resilient K (msync b) p.
Proof. apply mfSys_resilient. Qed.

(** Neither changes the struct or the files. *)
Lemma sync_resilient (K : St → Prop) b1 b2 s :
  (∀ e, K (mkSt (st s) e)) → resilient K (_ ← onData (msync b1); onMeta (msync b2)) s.
Proof.
  intros HK. destruct s as [m e]. apply resilient_bind.
  { apply resilient_onData, msync_resilient. intros e1. destruct m. apply HK. }
  intros [] s1 E1 _. assert (st s1 = m) as Es1.
  { unfold onData, zoom, msync, mfSys, zoom in E1. cbn [st env fst snd] in E1. destruct (syscall e). injection E1 as _ <-.
    by destruct m. }
  apply resilient_onMeta, msync_resilient. intros e1. rewrite Es1. destruct m. apply HK.
Qed.

(** The IV comes from a call; what it goes into is in memory. *)
Lemma makePayload_resilient (K : St → Prop) region s :
  (∀ e, K (mkSt (st s) e)) → resilient K (makePayload region) s.
Proof.
  intros HK. unfold makePayload. apply resilient_this. destruct (crypt (st s)) as [a|]; [|by apply resilient_pure].
  apply resilient_bind; [|intros iv s1 _ _; apply resilient_lift; intros ct _; by apply resilient_pure].
  apply resilient_onSys. unfold randomIV.
  apply resilient_bind; [by apply syscall_resilient; intros e _; apply HK|].
  intros _ e _ _. apply resilient_get; [done|]. by apply resilient_pure.
Qed.

Lemma growLoop_le fuel target n r : 0 ≤ n → growLoop fuel target n = Ok r → n ≤ r.
Proof.
  revert n. induction fuel as [|fuel IH]; intros n Hn; cbn [growLoop]; destruct (n <=? target); try done.
  - by intros [= ->].
  - intros Hr%IH; lia.
  - by intros [= ->].
Qed.

(** The file only grows. *)
Lemma ensureRoom_resilient (K : St → Prop) needSync incoming p s :
  (∀ mf e, mf_file mf = mf_file (data (st s)) ∨
     (∃ n, (length (mf_file (data (st s))) ≤ n)%nat ∧ mf_file mf = resize n (mf_file (data (st s)))) →
     K (mkSt (set_data mf (st s)) e)) →
  mf_ok (data (st s)) → resilient K (ensureRoom needSync incoming p) s.
Proof.
  intros HK Hok. unfold ensureRoom. apply resilient_this. cbv zeta.
  destruct (snd _); [|by apply resilient_pure]. apply resilient_lift. intros r Hr.
  apply resilient_onData, truncate_resilient. intros q [E|E]; apply HK; [by left|right].
  eexists. split; [|exact E]. unfold fileSize in Hr. rewrite (mf_ok_size _ Hok) in Hr.
  apply growLoop_le in Hr; [|destruct (_ <? 1) eqn:?; lia]. pose proof (pageRoundUp_ge r).
  destruct (_ <? 1) eqn:?; bsplit; lia.
Qed.

(** The files of [m], the data file extended or not. *)
Definition grown (m m' : MMKV) : Prop :=
  mf_file (meta m') = mf_file (meta m)
  ∧ ∃ n, (length (mf_file (data m)) ≤ n)%nat ∧ mf_file (data m') = resize n (mf_file (data m)).

Lemma grown_same m m' :
  mf_file (data m') = mf_file (data m) → mf_file (meta m') = mf_file (meta m) → grown m m'.
Proof. intros Ed Em. split; [done|]. exists (length (mf_file (data m))). by rewrite resize_same. Qed.

(** A full write-back that fails has not touched the region, or has written all
    of it. *)
Lemma fullWritebackGrow_resilient (K : St → Prop) s b needSync incoming :
  packable (st s) b incoming → (∀ s', grown (st s) (st s') → K s') →
  (∀ s', packed_store (st s) (st s') b incoming → K s') →
  resilient K (fullWritebackGrow needSync incoming) s.
Proof.
  intros Hp Hold Hnew.
  destruct (fullWritebackGrow_ok (St_heal s) b needSync incoming Hp (healthy_heal s)) as (s2&Hrun&Hps&_).
  unfold fullWritebackGrow in *. erewrite bind_ok in Hrun by reflexivity.
  apply resilient_this, resilient_lift. intros blobs Hb.
  erewrite bind_ok in Hrun by (unfold lift; change (st (St_heal s)) with (st s); rewrite Hb; reflexivity).
  apply resilient_bind; [apply makePayload_resilient; intros e; by apply Hold, grown_same|].
  intros payload s1 _ E1. erewrite bind_ok in Hrun by exact E1.
  destruct (makePayload_ok (St_heal s) (encodeRegion (sortedKeys (dict (st s))) blobs)) as (p1&iv&e1&E1'&_);
    [apply (pk_files _ _ _ Hp)|done|]. pose proof (f_equal (fun x => st x.2) (eq_trans (eq_sym E1) E1')) as Es1. cbn [snd] in Es1.
  assert (data (st s1) = data (st s) ∧ meta (st s1) = meta (st s)) as [Ed Em]
    by (change (st (heal s1)) with (st s1) in Es1; by rewrite Es1).
  apply resilient_bind.
  { apply ensureRoom_resilient; [|rewrite Ed; apply (pk_files _ _ _ Hp)].
    intros mf e Hf. apply Hold. rewrite Ed in Hf. destruct Hf as [Hf|Hf]; [by apply grown_same; [|cbn; rewrite Em]|].
    split; [by cbn; rewrite Em|exact Hf]. }
  intros [] s3 _ E3. erewrite bind_ok in Hrun by exact E3.
  apply resilient_bind; [apply resilient_onStore|]. intros [] s4 _ E4. erewrite bind_ok in Hrun by exact E4.
  assert (st s2 = st s4) as Es.
  { destruct needSync; cbn [negb] in Hrun; [|by injection Hrun as <-].
    erewrite bind_ok in Hrun by (by apply onData_msync). rewrite onMeta_msync in Hrun by done. by injection Hrun as <-. }
  assert (∀ e, K (mkSt (st s4) e)) as HK by (intros e; apply Hnew; by rewrite <-Es).
  destruct needSync; cbn [negb]; [by apply sync_resilient|by apply resilient_pure].
Qed.

(** ** What the files hold *)

(** Whoever opens the files under [m'] with the key [c] finds the model [d]. *)
Inductive holds (m' : MMKV) (c : option aesCFB) (d : model) : Prop :=
  | holds_store m :
      store_ok m (repMap d) → model_ok d → enableExpire m = bool_decide (is_Some (md_expire d)) →
      enableExpire m = expireEnabled (info m) → crypt m = c → level m → retains m m' → holds m' c d.

Lemma holds_opens m' d m0 e :
  holds m' (crypt m0) d → brand_new m0 → expiredSeconds m0 = 0 → healthy e → held e = Unheld →
  ∃ s, opened m0 e (Some (mf_file (data m'))) (Some (mf_file (meta m'))) s ∧ represents s (reopened d).
Proof.
  intros [m Hs Hok Hp Hfl Hc Hlv Hr] Hn Hsec He Hh.
  rewrite (rt_meta _ _ Hr). by apply (reopens_model (refiled (mf_file (data m')) m) d m0 e); [apply refiled_store|..].
Qed.

(** A store that no other process shares, under any failures to come. *)
Record sole (s : St) (d : model) : Prop := {
  sl_represents : represents (heal s) d;
  sl_level : level (st s);
  sl_alone : multiProcess (st s) = false;
}.

Lemma sole_store s d : sole s d → store_ok (st s) (repMap d).
Proof. intros Hs. apply (ru_store _ _ (rp_running _ _ (sl_represents _ _ Hs))). Qed.

(** Before the region is touched, the files hold the old model. *)
Lemma old_holds s d m' :
  sole s d → retains (st s) m' → holds m' (crypt (st s)) d.
Proof.
  intros Hs Hr. destruct (sl_represents _ _ Hs) as [Hrun Hok Hp _ Hfl].
  apply (holds_store _ _ _ (st s)); try done; apply Hs || apply Hrun.
Qed.

Lemma grown_holds s d m' : sole s d → grown (st s) m' → holds m' (crypt (st s)) d.
Proof.
  intros Hs [Em (n&Hn&Ed)]. apply (old_holds s); [done|]. pose proof (sole_store s d Hs) as Hst.
  pose proof (fo_data_page _ (so_files _ _ Hst)). pose proof (so_fits _ _ Hst).
  eapply (retains_resize (st s) (st s)); [done|by eapply retains_same|done..|lia|lia].
Qed.

(** After it was written, the new one. *)
Lemma store_holds m d :
  store_ok m (repMap d) → model_ok d → enableExpire m = bool_decide (is_Some (md_expire d)) →
  enableExpire m = expireEnabled (info m) → settled m → holds m (crypt m) d.
Proof.
  intros Hs Hok Hp Hfl Hse. apply (holds_store _ _ _ m); try done; [by apply settled_level|by eapply retains_same].
Qed.

Lemma packed_holds m m' d inc :
  packed_store m m' (repMap d) inc → model_ok d → enableExpire m = bool_decide (is_Some (md_expire d)) →
  holds m' (crypt m) d.
Proof.
  intros Hps Hok Hp. pose proof (ps_config _ _ _ _ Hps) as Hc. rewrite <-(sc_crypt _ _ Hc).
  apply store_holds; [apply Hps|done|by rewrite (sc_expire _ _ Hc)|by eapply packed_flags|by eapply packed_settled].
Qed.

(** ** Each operation *)

(** What the files hold when [o] failed: the model it started from, or the one it
    leads to, under the key that goes with it. *)
Definition before_or_after (o : op) (s : St) (d : model) (s' : St) : Prop :=
  holds (st s') (crypt (st s)) d ∨ holds (st s') (rekeyed o (crypt (st s))) (step (now (env s)) o d).

#[local] Hint Resolve keeps_setValueLocked keeps_fullWritebackGrow keeps_clearAllLocked appendRaw_identity : preserves.

(** Without a lock to take or files to look at, a method is its body. *)
Lemma writing_alone {A} (c : M St A) s :
  keeps c → multiProcess (st s) = false → needLoad (st s) = false → closed (st s) = false →
  readOnly (st s) = false → writing c s = c s.
Proof.
  intros Hk Hm Hn Hc Hr. unfold writing, writingElse, exclusively.
  assert (∀ s, multiProcess (st s) = false → unlockExclusive s = (Ok tt, s)) as Hun.
  { intros s' Hs'. unfold unlockExclusive, whenMulti. erewrite bind_ok by reflexivity. by rewrite Hs'. }
  erewrite bind_ok by (unfold lockExclusive, whenMulti; erewrite bind_ok by reflexivity; rewrite Hm; reflexivity).
  unfold deferring. erewrite bind_ok by reflexivity. rewrite Hc, Hr.
  erewrite bind_ok by (unfold checkLoadData; erewrite bind_ok by reflexivity; rewrite Hn, Hm; reflexivity).
  specialize (Hk s). destruct (c s) as [o s'] eqn:E. cbn [snd] in Hk. unfold identity, identityM in Hk.
  destruct o; rewrite ?Hun by congruence; done.
Qed.

Lemma writing_resilient {A} (K : St → Prop) (c : M St A) s d :
  keeps c → sole s d → resilient K c s → resilient K (writing c) s.
Proof.
  intros Hk Hs Hc r s' Hr. pose proof (sole_store s d Hs) as Hst.
  pose proof (rp_running _ _ (sl_represents _ _ Hs)) as [_ _ _ Hcl Hro]. pose proof (sl_alone _ _ Hs) as Hm.
  pose proof (so_loaded _ _ Hst) as Hn.
  rewrite writing_alone in Hr by done. rewrite writing_alone by done. by apply Hc.
Qed.

(** A method that puts another dictionary in the store's place and writes it back. *)
Lemma pack_resilient o s d m1 needSync incoming :
  sole s d → allowed (heal s) d o →
  mf_file (data m1) = mf_file (data (st s)) → mf_file (meta m1) = mf_file (meta (st s)) →
  crypt m1 = rekeyed o (crypt (st s)) → packable m1 (repMap (step (now (env s)) o d)) incoming →
  enableExpire m1 = bool_decide (is_Some (md_expire (step (now (env s)) o d))) →
  resilient (before_or_after o s d) (fullWritebackGrow needSync incoming) (mkSt m1 (env s)).
Proof.
  intros Hs Ha Ed Em Ec Hp Hx. eapply fullWritebackGrow_resilient; [exact Hp|..].
  - intros s' [Hm (n&Hn&Hd)]. left. apply (grown_holds s); [done|]. cbn [st] in *.
    split; [congruence|]. exists n. rewrite <-Ed. by split.
  - intros s' Hps. right. rewrite <-Ec. apply (packed_holds _ _ _ incoming); [exact Hps| |done].
    destruct (run_refines (heal s) d o (sl_represents _ _ Hs) Ha) as (s2&_&[Hr2 _ _ _ _ _]). apply Hr2.
Qed.

Lemma set_resilient s d k v :
  sole s d → allowed (heal s) d (OSet k v) → resilient (before_or_after (OSet k v) s d) (run (OSet k v)) s.
Proof.
  intros Hs Ha. pose proof Ha as [_ Hcan]. pose proof (sl_represents _ _ Hs) as Hr.
  cbn [run]. unfold setValue. apply (writing_resilient _ _ _ d); [preserves|done|].
  unfold setValueLocked. apply resilient_this, resilient_lift. intros same _.
  destruct same; [by apply resilient_pure|]. apply resilient_get; [done|].
  change (resilient (before_or_after (OSet k v) s d) (setBlob k (stored (heal s) v)) s).
  unfold setBlob. apply resilient_this. cbv zeta. rewrite setBlob_pair.
  destruct (_ && (_ || _)); [apply resilient_onStore|]. destruct (_ && negb _).
  - apply resilient_bind; [apply resilient_onStore|]. intros [] s1 _ _.
    apply resilient_this, resilient_lift. intros x _. by apply resilient_pure.
  - apply resilient_upd; eapply (pack_resilient (OSet k v)); [done|exact Ha|reflexivity..| |exact (rp_policy _ _ Hr)].
    change (now (env s)) with (now (env (heal s))). cbn [step].
    rewrite repMap_insert, <-(stored_rep (heal s) d v) by done. apply set_packable; [by apply sole_store|done].
Qed.

Lemma remove_resilient s d k :
  sole s d → allowed (heal s) d (ORemove k) → resilient (before_or_after (ORemove k) s d) (run (ORemove k)) s.
Proof.
  intros Hs Ha. pose proof Ha as [_ _ Hpk Hx]. pose proof (sole_store s d Hs) as Hst.
  pose proof (rp_policy _ _ (sl_represents _ _ Hs)) as Hpo.
  cbn [run]. unfold RemoveValueForKey. apply (writing_resilient _ _ _ d); [unfold fullWriteback; preserves|done|].
  apply resilient_this. destruct (dict (st s) !! k); [|by apply resilient_pure].
  apply resilient_upd. cbv zeta. destruct (_ && negb _); [apply resilient_onStore|].
  unfold fullWriteback. eapply (pack_resilient (ORemove k)); [done|exact Ha|reflexivity..| |exact Hpo]. cbn [step]. rewrite repMap_delete.
  eapply store_packable; [exact Hst|apply dict_shows_delete, Hst|apply map_Forall_delete, Hst|done|done].
Qed.

Lemma removeMany_resilient s d ks :
  sole s d → allowed (heal s) d (ORemoveMany ks) →
  resilient (before_or_after (ORemoveMany ks) s d) (run (ORemoveMany ks)) s.
Proof.
  intros Hs Ha. pose proof (sole_store s d Hs) as Hst. pose proof (sl_represents _ _ Hs) as Hr.
  cbn [run]. unfold RemoveValuesForKeys. apply (writing_resilient _ _ _ d); [unfold fullWriteback; preserves|done|].
  apply resilient_this, resilient_upd. destruct (negb _); [by apply resilient_pure|].
  assert (repMap (step (now (env s)) (ORemoveMany ks) d) = without ks (repMap d)) as E
    by (unfold repMap; cbn [step md_map md_expire]; by rewrite fmap_without).
  unfold fullWriteback. eapply (pack_resilient (ORemoveMany ks)); [done|exact Ha|reflexivity..| |exact (rp_policy _ _ Hr)].
  cbn [allowed] in Ha. change (now (env (heal s))) with (now (env s)) in Ha. rewrite E in *.
  rewrite deleteKeys_spec. cbn [snd].
  eapply store_packable; [exact Hst|apply dict_shows_without, Hst|apply without_Forall, Hst|done|exact (rp_flags _ _ Hr)].
Qed.

Lemma holds_files m1 m2 c d :
  holds m1 c d → mf_file (data m2) = mf_file (data m1) → mf_file (meta m2) = mf_file (meta m1) → holds m2 c d.
Proof. intros [m] Ed Em. apply (holds_store _ _ _ m); try done. by eapply retains_files. Qed.

Lemma resilient_onErr {A} (K : St → Prop) undo (c : M St A) s :
  (∀ s', K s' → K (set_st (undo (st s')) s')) → resilient K c s → resilient K (onErr undo c) s.
Proof.
  intros HK Hc r s' Hr. unfold onErr in *. destruct (c s) as [o s1] eqn:E.
  destruct (Hc _ _ E) as [[[x ->] H1]|Hh].
  - injection Hr as <- <-. left. split; [by exists x|by apply HK].
  - right. rewrite Hh. destruct o; by injection Hr as <- <-.
Qed.

Lemma rekey_resilient s d newKey :
  sole s d → allowed (heal s) d (OReKey newKey) →
  resilient (before_or_after (OReKey newKey) s d) (run (OReKey newKey)) s.
Proof.
  intros Hs Ha. pose proof (sole_store s d Hs) as Hst. pose proof (sl_represents _ _ Hs) as Hr.
  cbn [run]. unfold ReKey.
  apply (writing_resilient _ _ _ d); [unfold fullWriteback; preserves; apply keeps_onErr; [done|preserves]|done|].
  apply resilient_this, resilient_upd, resilient_onErr.
  { intros s' [Ho|Hn]; [left|right]; by eapply holds_files. }
  unfold fullWriteback. eapply (pack_resilient (OReKey newKey)); [done|exact Ha|reflexivity..| |exact (rp_policy _ _ Hr)].
  destruct (so_files _ _ Hst), (so_dict _ _ Hst). cbn [allowed step] in Ha.
  split; [by split|by split|done|cbn [step]; lia|exact (rp_flags _ _ Hr)|apply Hst].
Qed.

Lemma enable_resilient s d seconds :
  sole s d → allowed (heal s) d (OEnableExpire seconds) →
  resilient (before_or_after (OEnableExpire seconds) s d) (run (OEnableExpire seconds)) s.
Proof.
  intros Hs Ha. pose proof (sole_store s d Hs) as Hst. pose proof (sl_represents _ _ Hs) as Hr.
  cbn [run]. unfold EnableAutoKeyExpire.
  apply (writing_resilient _ _ _ d); [unfold fullWriteback; preserves|done|].
  apply resilient_this. do 4 apply resilient_upd. cbn [st env].
  change (set_info _ _) with (expiring seconds (st s)).
  destruct (stamps_ok (st s) (expiring seconds (st s)) (repMap d) (di_shows _ _ (so_dict _ _ Hst)) eq_refl)
    as (d'&Hstep&Hd').
  eapply resilient_step; [exact (Hstep _)|exact (Hstep _)|].
  unfold fullWriteback. eapply (pack_resilient (OEnableExpire seconds)); [done|exact Ha|reflexivity..| |done].
  cbn [allowed] in Ha. change (now (env (heal s))) with (now (env s)) in Ha.
  rewrite (enable_repMap (heal s) d _ seconds Hr) in *.
  change (enableExpire (st (heal s))) with (enableExpire (st s)) in *.
  eapply expiring_packable; [exact Hst|exact Hd'| |done].
  destruct (enableExpire (st s)); [apply Hst|apply stamped_ok, Hst].
Qed.

Lemma disable_resilient s d :
  sole s d → allowed (heal s) d ODisableExpire →
  resilient (before_or_after ODisableExpire s d) (run ODisableExpire) s.
Proof.
  intros Hs Ha. pose proof (sole_store s d Hs) as Hst. pose proof (sl_represents _ _ Hs) as Hr.
  cbn [run]. unfold DisableAutoKeyExpire.
  apply (writing_resilient _ _ _ d); [unfold fullWriteback; preserves|done|].
  apply resilient_this. destruct (enableExpire (st s)) eqn:Hx; cbn [negb]; [|by apply resilient_pure].
  apply resilient_get; [done|]. cbv beta.
  destruct (stripAll_ok (st s) (repMap d) (now (env s)) (di_shows _ _ (so_dict _ _ Hst)) Hx) as (d'&Hstrip&Hd').
  apply resilient_lift. intros d1 Hd1. rewrite Hstrip in Hd1. injection Hd1 as <-.
  do 4 apply resilient_upd. cbn [st env]. change (set_info _ _) with (permanent d' (st s)).
  unfold fullWriteback. eapply (pack_resilient ODisableExpire); [done|exact Ha|reflexivity..| |by rewrite disable_expire].
  pose proof (disable_bdict_ok (heal s) d (now (env s)) Hr) as Hok. cbn [allowed] in Ha.
  change (now (env (heal s))) with (now (env s)) in Ha. rewrite (disable_repMap (heal s) d _ Hr) in *. change (enableExpire (st (heal s))) with (enableExpire (st s)) in *.
  rewrite Hx in *. by eapply permanent_packable.
Qed.

Lemma clearAllLocked_resilient (K : St → Prop) s :
  files_ok (st s) → enableExpire (st s) = expireEnabled (info (st s)) → needLoad (st s) = false →
  (∀ s', mf_file (meta (st s')) = mf_file (meta (st s)) →
     mf_file (data (st s')) = mf_file (data (st s))
     ∨ mf_file (data (st s')) = resize (Z.to_nat (pageRoundUp 0)) (mf_file (data (st s))) → K s') →
  (∀ s', store_ok (st s') ∅ → same_config (st s) (st s') → settled (st s') → K s') →
  resilient K clearAllLocked s.
Proof.
  intros Hf Hx Hn Hold Hnew.
  destruct (clearAllLocked_ok (St_heal s) Hf (healthy_heal s) Hx Hn) as (s2&Hrun&Hs2&Hc&_&_&_&_&_&_&Hse).
  unfold clearAllLocked in *. apply resilient_bind.
  { apply resilient_onData, truncate_resilient. intros q Hq. by apply Hold. }
  intros [] s1 _ E1. erewrite bind_ok in Hrun by exact E1.
  erewrite bind_ok in Hrun by reflexivity. apply resilient_this, resilient_lift. intros dm Hdm.
  erewrite bind_ok in Hrun by (unfold lift; change (st (heal s1)) with (st s1); rewrite Hdm; reflexivity).
  do 5 apply resilient_upd. do 6 erewrite bind_ok in Hrun by reflexivity. apply resilient_this, resilient_lift.
  intros mm Hmm. erewrite bind_ok in Hrun by exact (f_equal (fun o => (o, _)) Hmm).
  do 2 apply resilient_upd. do 2 erewrite bind_ok in Hrun by reflexivity.
  erewrite bind_ok in Hrun by (by apply onData_msync). rewrite onMeta_msync in Hrun by done.
  injection Hrun as <-. apply sync_resilient. intros e. by apply Hnew.
Qed.

(** The region is not touched by a cut behind it. *)
Lemma shrink_resilient (K : St → Prop) m0 s b :
  packed_store m0 (st s) b 0 → (∀ s', retains (st s) (st s') → K s') →
  (∀ s', store_ok (st s') b → same_config (st s) (st s') → settled (st s') → K s') →
  resilient K shrink s.
Proof.
  intros Hps Hold Hnew. pose proof (ps_store _ _ _ _ Hps) as Hs. pose proof (so_actual _ _ Hs) as Ha.
  pose proof (so_fits _ _ Hs) as Hfit. pose proof (fo_data (st s) (so_files _ _ Hs)) as Hok.
  destruct (shrink_ok m0 (st s) (heal (env s)) b Hps) as (m'&Hrun&Hs'&Hc&_&_&_&_&Hse); [done|].
  unfold shrink in *. erewrite bind_ok in Hrun by reflexivity. apply resilient_this. cbn [st] in Hrun.
  apply resilient_lift. intros r Hr. erewrite bind_ok in Hrun by exact (f_equal (fun o => (o, _)) Hr). cbv zeta in *.
  set (target := if r <? pageRoundUp 0 then _ else r) in *.
  destruct (_ <=? target); [by apply resilient_pure|]. apply resilient_bind.
  { apply resilient_onData, truncate_resilient. intros q Hq. apply Hold.
    destruct Hq as [Hq|Hq]; [by eapply retains_same|].
    destruct (trimLoop_spec (S (Z.to_nat (Z.log2 (fileSize (data (st s)))))) (actualSize (st s) + 4)
      (fileSize (data (st s)))) as (r'&Hr'&Hb&_); unfold fileSize in *; rewrite ?(mf_ok_size _ Hok) in *; [lia|lia| |].
    { pose proof (Z.log2_nonneg (len (mf_file (data (st s))))).
      rewrite Nat2Z.inj_succ, Z2Nat.id by done. apply Z.log2_spec. lia. }
    rewrite Hr in Hr'. injection Hr' as <-. pose proof (pageRoundUp_ge target) as Hpt.
    assert (r ≤ target ∧ pageRoundUp 0 ≤ target) as [? ?]
      by (unfold target; destruct (r <? pageRoundUp 0) eqn:?; bsplit; lia).
    eapply (retains_resize (st s) (st s)); [exact Hs|by eapply retains_same|exact Hq|done|lia|lia]. }
  intros [] s1 _ E1. erewrite bind_ok in Hrun by exact E1. erewrite bind_ok in Hrun by reflexivity.
  apply resilient_this, resilient_bind; [apply resilient_onStore|]. intros [] s2 _ E2.
  erewrite bind_ok in Hrun by exact E2. rewrite onMeta_msync in Hrun by done. apply resilient_onMeta, msync_resilient.
  intros e. injection Hrun as <-. apply Hnew; destruct s2 as [[] ?]; done.
Qed.

Lemma trim_resilient s d :
  sole s d → allowed (heal s) d OTrim → resilient (before_or_after OTrim s d) (run OTrim) s.
Proof.
  intros Hs Ha. pose proof (sole_store s d Hs) as Hst. pose proof (sl_represents _ _ Hs) as Hr.
  pose proof (rp_flags _ _ Hr) as Hfl. pose proof (rp_policy _ _ Hr) as Hpo. pose proof (rp_ok _ _ Hr) as Hmo.
  assert (∀ m1 s', enableExpire m1 = enableExpire (st s) → expireEnabled (info m1) = enableExpire (st s) →
    crypt m1 = crypt (st s) → store_ok (st s') (repMap d) → same_config m1 (st s') → settled (st s') →
    before_or_after OTrim s d s') as Hdone.
  { intros m1 s' Ex Ei Ec Hs' Hc Hse. right. cbn [rekeyed step]. rewrite <-Ec, <-(sc_crypt _ _ Hc).
    apply store_holds; [done|done|rewrite (sc_expire _ _ Hc), Ex; exact Hpo| |done].
    rewrite (sc_expire _ _ Hc), Ex, <-Ei. unfold expireEnabled. by rewrite (sc_flags _ _ Hc). }
  cbn [run]. unfold Trim.
  apply (writing_resilient _ _ _ d); [unfold shrink, fullWriteback; preserves|done|].
  apply resilient_this. destruct (actualSize (st s) =? 0) eqn:E0; bsplit.
  - pose proof (store_actual_zero _ _ Hst E0) as Eb. pose proof pagesize_ge. pose proof (pageRoundUp_min 0).
    apply clearAllLocked_resilient; [apply Hst|exact Hfl|apply Hst| |].
    + intros s' Em Ed. left. apply (old_holds s); [done|]. destruct Ed as [Ed|Ed]; [by eapply retains_same|].
      eapply (retains_resize (st s) (st s)); [exact Hst|by eapply retains_same|exact Ed|exact Em|lia|lia].
    + rewrite <-Eb. intros s' Hs' Hc Hse. by apply (Hdone (st s)).
  - apply resilient_bind.
    { unfold fullWriteback. eapply (pack_resilient OTrim _ _ (st s)); [done|exact Ha|reflexivity..| |exact Hpo].
      cbn [allowed step] in Ha. by split; [apply Hst|apply Hst|done|cbn [step]; lia|exact Hfl|apply Hst]. }
    intros [] s1 _ E1. destruct (fullWriteback_ok (St_heal s) (repMap d)) as (s2&E2&Hps&_); [|done|].
    { cbn [allowed step] in Ha. by split; [apply Hst|apply Hst|done|lia|exact Hfl|apply Hst]. }
    pose proof (f_equal (fun x => st x.2) (eq_trans (eq_sym E1) E2)) as Es. cbn [snd] in Es.
    change (st (heal s1)) with (st s1) in Es. rewrite <-Es in Hps. pose proof (ps_config _ _ _ _ Hps) as Hc.
    apply (shrink_resilient _ (st s) _ (repMap d)); [exact Hps| |].
    + intros s' Hrt. right. eapply (holds_store _ _ _ (st s1)); [apply Hps|done|by rewrite (sc_expire _ _ Hc)
        |by eapply packed_flags|apply (sc_crypt _ _ Hc)|by eapply settled_level, packed_settled|done].
    + intros s' Hs' Hc' Hse. apply (Hdone (st s1)); try done; [apply (sc_expire _ _ Hc)| |apply (sc_crypt _ _ Hc)].
      rewrite <-(packed_flags _ _ _ _ Hps). apply (sc_expire _ _ Hc).
Qed.

Lemma clear_resilient s d :
  sole s d → 4 + actualSize (st s) ≤ pagesize → resilient (before_or_after OClear s d) (run OClear) s.
Proof.
  intros Hs Hsz. pose proof (sole_store s d Hs) as Hst. pose proof (sl_represents _ _ Hs) as Hr.
  pose proof (rp_flags _ _ Hr) as Hfl. pose proof (rp_policy _ _ Hr) as Hpo. pose proof (pageRoundUp_min 0).
  cbn [run]. unfold ClearAll. apply (writing_resilient _ _ _ d); [preserves|done|].
  apply clearAllLocked_resilient; [apply Hst|exact Hfl|apply Hst| |].
  - intros s' Em Ed. left. apply (old_holds s); [done|]. destruct Ed as [Ed|Ed]; [by eapply retains_same|].
    pose proof pagesize_ge.
    eapply (retains_resize (st s) (st s)); [exact Hst|by eapply retains_same|exact Ed|exact Em|lia|lia].
  - intros s' Hs' Hc Hse. right. cbn [rekeyed step]. rewrite <-(sc_crypt _ _ Hc).
    apply store_holds; [|apply map_Forall_empty|by rewrite (sc_expire _ _ Hc)| |done].
    + by unfold repMap; cbn [md_map md_expire]; rewrite fmap_empty.
    + rewrite (sc_expire _ _ Hc). unfold expireEnabled. rewrite (sc_flags _ _ Hc). exact Hfl.
Qed.

(** ** Runs *)

(** A failed operation leaves the old model or the new one; only a ClearAll of a
    region that does not fit in a page, which cuts the file before it writes the
    meta, may lose both. *)
Definition after_failure (o : op) (s : St) (d : model) (s' : St) : Prop :=
  before_or_after o s d s' ∨ (o = OClear ∧ pagesize < 4 + actualSize (st s)).

Lemma resilient_mono {A} (K K' : St → Prop) (c : M St A) s :
  (∀ s', K s' → K' s') → resilient K c s → resilient K' c s.
Proof. intros HK Hc r s' Hr. destruct (Hc r s' Hr) as [[? ?]|]; auto. Qed.

Lemma run_resilient o s d :
  sole s d → allowed (heal s) d o → resilient (after_failure o s d) (run o) s.
Proof.
  intros Hs Ha. assert (∀ s', before_or_after o s d s' → after_failure o s d s') as Hin by (by left).
  destruct o; [apply (resilient_mono _ _ _ _ Hin)|apply (resilient_mono _ _ _ _ Hin)|apply (resilient_mono _ _ _ _ Hin)| |apply (resilient_mono _ _ _ _ Hin)|apply (resilient_mono _ _ _ _ Hin)|apply (resilient_mono _ _ _ _ Hin)|apply (resilient_mono _ _ _ _ Hin)].
  - by apply set_resilient.
  - by apply remove_resilient.
  - by apply removeMany_resilient.
  - destruct (decide (4 + actualSize (st s) ≤ pagesize)) as [Hle|Hgt].
    { apply (resilient_mono _ _ _ _ Hin). by apply clear_resilient. }
    pose proof (sole_store s d Hs) as Hst. apply (writing_resilient _ _ _ d); [preserves|done|].
    pose proof (rp_flags _ _ (sl_represents _ _ Hs)) as Hfl.
    apply clearAllLocked_resilient; [apply Hst|exact Hfl|apply Hst|..]; intros; right; (split; [done|lia]).
  - by apply trim_resilient.
  - by apply rekey_resilient.
  - by apply enable_resilient.
  - by apply disable_resilient.
Qed.

(** One operation succeeds, or stops at a call that failed. *)
Lemma run_cases o s d r s' :
  sole s d → allowed (heal s) d o → run o s = (r, s') →
  (r = Ok tt ∧ sole s' (step (now (env s)) o d) ∧ refined (heal s) (heal s') o d)
  ∨ (refusal r ∧ after_failure o s d s').
Proof.
  intros Hs Ha Hr. destruct (run_resilient o s d Hs Ha r s' Hr) as [|Hh]; [by right|left].
  destruct (run_refines (heal s) d o (sl_represents _ _ Hs) Ha) as (s2&E2&Href).
  rewrite Hh in E2. injection E2 as -> E2. rewrite <-E2 in Href. split; [done|]. split; [|done].
  pose proof Href as [Hr2 _ [_ Hadv _] _ Hfr _]. split; [exact Hr2| |].
  - eapply (level_advances (st s)); [by apply sole_store|apply (ru_store _ _ (rp_running _ _ Hr2))|exact Hadv|apply Hs].
  - exact (eq_trans (sf_multi _ _ Hfr) (sl_alone _ _ Hs)).
Qed.

(** A run gets to its end, or to an operation that failed. *)
Lemma exec_cases os s d a r s' :
  sole s d → actualSize (st s) ≤ a → feasible (now (env s)) os d a (encrypted (st s)) → exec os s = (r, s') →
  ∃ os1 os2 s1, os = os1 ++ os2 ∧ exec os1 s = (Ok tt, s1) ∧ sole s1 (steps (now (env s)) os1 d)
    ∧ now (env s1) = now (env s) ∧ crypt (st s1) = rekeys os1 (crypt (st s))
    ∧ ((r = Ok tt ∧ os2 = [] ∧ s' = s1)
       ∨ ∃ o rest, os2 = o :: rest ∧ run o s1 = (r, s') ∧ refusal r
           ∧ after_failure o s1 (steps (now (env s)) os1 d) s').
Proof.
  revert s d a. induction os as [|o os IH]; intros s d a Hs Ha Hf He; cbn [exec] in He.
  - injection He as <- <-. exists [], [], s. split_and!; try done. by left.
  - destruct Hf as [[Had Hb] Hf].
    assert (allowed (heal s) d o) as Hal by (by apply (admissible_allowed (heal s) d o a); [apply Hs|..]).
    destruct (run o s) as [r1 s1] eqn:Er. destruct (run_cases o s d r1 s1 Hs Hal Er) as [(->&Hs1&Href)|[Hx Haf]].
    + destruct Href as [_ (_&En&_) [Hsz _ _] Hc _ _]. change (now (env s1) = now (env s)) in En.
      change (crypt (st s1) = rekeyed o (crypt (st s))) in Hc.
      change (now (env (heal s))) with (now (env s)) in Hsz.
      destruct (IH s1 _ (reach (now (env s)) o d a) Hs1) as (os1&os2&s2&->&Hex&Hs2&En2&Hc2&Hres); [| |done|].
      { etransitivity; [exact Hsz|]. by apply reach_mono. }
      { rewrite En. by rewrite (encrypted_rekeyed _ _ _ Hc). }
      rewrite En in *. exists (o :: os1), os2, s2. split; [done|].
      split; [cbn [exec]; by rewrite Er|]. split; [done|]. split; [done|]. split; [|done].
      rewrite Hc2, Hc. done.
    + exists [], (o :: os), s. split_and!; try done. right. exists o, os.
      assert ((r, s') = (r1, s1)) as [= -> ->] by (rewrite <-He; by destruct Hx as [? ->]). done.
Qed.

(** An instance that opens the files under [m'] with the key [c] serves [d]. *)
Definition finds (m' : MMKV) (c : option aesCFB) (d : model) : Prop :=
  ∀ m0 e, brand_new m0 → crypt m0 = c → expiredSeconds m0 = 0 → healthy e → held e = Unheld →
  ∃ s, opened m0 e (Some (mf_file (data m'))) (Some (mf_file (meta m'))) s ∧ represents s (reopened d).

Lemma holds_finds m' c d : holds m' c d → finds m' c d.
Proof. intros Hh m0 e Hn <- Hsec He Hu. by apply holds_opens. Qed.

(** The files of a store in use hold its model. *)
Lemma sole_holds s d : sole s d → holds (st s) (crypt (st s)) d.
Proof. intros Hs. apply (old_holds s); [done|]. by eapply retains_same; [by apply sole_store|..]. Qed.

Lemma run_finds os s d r s' :
  sole s d → feasible (now (env s)) os d (actualSize (st s)) (encrypted (st s)) → exec os s = (r, s') →
  (r = Ok tt ∨ refusal r)
  ∧ ∃ os1 os2 s1, os = os1 ++ os2 ∧ exec os1 s = (Ok tt, s1) ∧ (r = Ok tt → os2 = [])
    ∧ ((∃ n, (n ≤ 1)%nat ∧ finds (st s') (rekeys (os1 ++ take n os2) (crypt (st s))) (steps (now (env s)) (os1 ++ take n os2) d))
       ∨ (head os2 = Some OClear ∧ pagesize < 4 + actualSize (st s1))).
Proof.
  intros Hs Hf He. destruct (exec_cases os s d _ r s' Hs (Z.le_refl _) Hf He)
    as (os1&os2&s1&->&Hex&Hs1&En&Hc&[(->&->&->)|(o&rest&->&Hrun&Hx&Haf)]).
  - split; [by left|]. exists os1, [], s1. split_and!; try done. left. exists 0%nat. split; [lia|].
    cbn [take]. rewrite app_nil_r, <-Hc. by apply holds_finds, sole_holds.
  - split; [by right|]. exists os1, (o :: rest), s1. split; [done|]. split; [done|].
    split; [by intros ->; destruct Hx|]. destruct Haf as [[Ho|Hn]|[-> Hsz]]; [left..|by right].
    + exists 0%nat. split; [lia|]. cbn [take]. rewrite app_nil_r, <-Hc. by apply holds_finds.
    + exists 1%nat. split; [lia|]. unfold rekeys, steps in *. rewrite !foldl_app. cbn [take foldl].
      rewrite <-Hc. rewrite En in Hn. by apply holds_finds.
Qed.

End faults.
