(* ===== verification/ReaderSafe.v ===== *)
(** * A Reader never panics

    Whatever the two files hold and whichever system calls fail, opening a
    Reader returns; once it is open every read returns an answer. *)

From S2P Require Import Prelude GoInt Wire Crc32 Meta Dict Crypt Path LockCalls MemFile Files Flock Store StoreOps.
From S2P Require Import StoreInv StoreRun Recovery Api ApiSpec Reader ReaderSpec.

(** The data file, if any, is below 4 GiB: sizes in the format are uint32. *)
Definition small_data (s : RSt) : Prop := ∀ d, dk_data (disk s) = Some d → len d < 2 ^ 32.

(** An open Reader: it has a snapshot, its mapping of the meta file covers the
    struct, and its decryptor returns. *)
Record open_reader (r : Reader) : Prop := {
  or_snap : is_Some (rd_snap r);
  or_map : ∃ n, rd_crcMmap r = Some n ∧ Z.of_nat metaSize ≤ n;
  or_dec : dec_total (rd_dec r);
}.

(** With files it can read: the one it has mapped was not cut to nothing. *)
Record reader_wf (s : RSt) : Prop := {
  rw_open : open_reader (rdr s);
  rw_data : small_data s;
  rw_mapped : mappedFile s ≠ [];
}.

Lemma crcBytes_returns s : reader_wf s → ∃ buf, crcBytes s = Ok buf ∧ Z.of_nat metaSize ≤ len buf.
Proof.
  intros [[_ (n&Hn&Hl) _] _ Hm]. unfold crcBytes. rewrite Hn, decide_False by done. eexists. split; [done|].
  rewrite length_take, length_app, length_zeros. lia.
Qed.

Lemma set_dk_env_id s : set_dk_env (dk_env (disk s)) s = s.
Proof. by destruct s as [r []]. Qed.

(** ** System calls *)

Lemma rdSys_syscall s :
  ∃ e', rdSys syscall s = (Ok tt, set_dk_env e' s) ∨ ∃ err, rdSys syscall s = (Err err, set_dk_env e' s).
Proof.
  unfold rdSys, zoom. destruct (syscall_returns (dk_env (disk s))) as (e'&[->|[err ->]]); eauto.
Qed.

Lemma rdSys_flock op s :
  ∃ e', rdSys (flock op) s = (Ok tt, set_dk_env e' s) ∨ ∃ err, rdSys (flock op) s = (Err err, set_dk_env e' s).
Proof.
  unfold rdSys, zoom, flock.
  destruct (Flock_returns op false (newFileLock, dk_env (disk s))) as ([l e']&[->|[err ->]]); eauto.
Qed.

Lemma flockUnlock_returns s : ∃ e', flockUnlock s = (Ok tt, set_dk_env e' s).
Proof.
  unfold flockUnlock, ignore. destruct (rdSys_flock LOCK_UN s) as (e'&[->|[err ->]]); eauto.
Qed.

(** ** Loading *)

Lemma readDataFile_returns s :
  ∃ e', (∃ d, dk_data (disk s) = Some d ∧ readDataFile s = (Ok d, set_dk_env e' s))
    ∨ ∃ err, readDataFile s = (Err err, set_dk_env e' s).
Proof.
  unfold readDataFile. destruct (rdSys_syscall s) as (e'&[H|[err H]]); exists e'.
  - erewrite bind_ok by exact H. erewrite bind_ok by reflexivity.
    change (dk_data (disk (set_dk_env e' s))) with (dk_data (disk s)).
    destruct (dk_data (disk s)) as [d|]; [left; by exists d|right; by exists ErrNotExist].
  - right. exists err. by apply bind_err.
Qed.

Lemma buildSnapshot_returns buf s :
  small_data s → dec_total (rd_dec (rdr s)) → ∃ o e', buildSnapshot buf s = (o, set_dk_env e' s) ∧ returns o.
Proof.
  intros Hd Ht. unfold buildSnapshot.
  destruct (parseMeta buf) as [mi|err| |] eqn:Hp.
  2: { exists (Err err), (dk_env (disk s)). rewrite set_dk_env_id. split; [by apply bind_err|done]. }
  2, 3: unfold parseMeta in Hp; by destruct (len buf <? _).
  erewrite bind_ok by reflexivity. destruct (maxSupportedVersion <? mi_version mi).
  { exists (Err ErrUnsupportedVersion), (dk_env (disk s)). by rewrite set_dk_env_id. }
  destruct (readDataFile_returns s) as (e'&[(d&Hf&Hr)|[err Hr]]).
  - exists (snapshotOf (rd_dec (rdr s)) mi d), e'. split.
    + erewrite bind_ok by exact Hr. erewrite bind_ok by reflexivity. done.
    + apply snapshotOf_returns; [done|by apply (parseMeta_wf buf)|by apply Hd].
  - exists (Err err), e'. split; [by apply bind_err|done].
Qed.

(** A reload publishes a snapshot or changes nothing of the reader. *)
Lemma reloadLocked_returns s buf :
  small_data s → dec_total (rd_dec (rdr s)) → crcBytes s = Ok buf →
  ∃ e', (∃ sn, reloadLocked s = (Ok tt, set_rdr (publish sn (rdr s)) (set_dk_env e' s)))
    ∨ ∃ err, reloadLocked s = (Err err, set_dk_env e' s).
Proof.
  intros Hd Ht Hbuf. unfold reloadLocked. cbn [LockCalls.takeShared LockCalls.giveBack unixReaderLocks].
  destruct (rdSys_flock LOCK_SH s) as (e1&[H1|[err H1]]).
  2: { exists e1. right. exists err. by apply bind_err. }
  destruct (buildSnapshot_returns buf (set_dk_env e1 s) Hd Ht) as (o&e2&Hb&Ho).
  change (set_dk_env e2 (set_dk_env e1 s)) with (set_dk_env e2 s) in Hb.
  unfold flockShared. erewrite bind_ok by exact H1. unfold deferring.
  assert ((s0 ← get; buf ← lift (crcBytes s0); reloadFrom buf) (set_dk_env e1 s) = match o with
    | Ok sn => (Ok tt, set_rdr (publish sn (rdr s)) (set_dk_env e2 s)) | Err e => (Err e, set_dk_env e2 s)
    | Panic => (Panic, set_dk_env e2 s) | NoFuel => (NoFuel, set_dk_env e2 s) end) as ->.
  { erewrite bind_ok by reflexivity. change (crcBytes (set_dk_env e1 s)) with (crcBytes s). rewrite Hbuf.
    erewrite bind_ok by reflexivity. unfold reloadFrom, mbind, M_bind. rewrite Hb. by destruct o. }
  destruct o as [sn|err| |]; [| |done..].
  - destruct (flockUnlock_returns (set_rdr (publish sn (rdr s)) (set_dk_env e2 s))) as (e3&->).
    exists e3. left. by exists sn.
  - destruct (flockUnlock_returns (set_dk_env e2 s)) as (e3&->). exists e3. right. by exists err.
Qed.

Lemma reader_wf_env e s : reader_wf s → reader_wf (set_dk_env e s).
Proof. by intros [? ? ?]. Qed.
Lemma reader_wf_publish sn s : reader_wf s → reader_wf (set_rdr (publish sn (rdr s)) s).
Proof. intros [[? ? ?] ? ?]. split; [|done..]. split; [by eexists|done..]. Qed.
Lemma reader_wf_lastErr e s : reader_wf s → reader_wf (set_rdr (set_rd_lastErr e (rdr s)) s).
Proof. by intros [[? ? ?] ? ?]. Qed.

(** Stat and mapping the meta file: the file is closed on an error. *)
Lemma mapsMeta_returns n s :
  ∃ e', (Z.of_nat metaSize ≤ n ∧ orClose (_ ← rdSys syscall; mmapReadonly n) s = (Ok tt, set_dk_env e' s))
    ∨ ∃ err, orClose (_ ← rdSys syscall; mmapReadonly n) s = (Err err, set_dk_env e' s).
Proof.
  assert (∀ c e err, c s = (Err err, set_dk_env e s) → ∃ e', orClose c s = (Err err, set_dk_env e' s)) as Hcl.
  { intros c e err Hc. unfold orClose. rewrite Hc. unfold ignore, mbind, M_bind.
    destruct (rdSys_syscall (set_dk_env e s)) as (e'&[->|[x ->]]); by exists e'. }
  destruct (rdSys_syscall s) as (e1&[H1|[err H1]]).
  2: { destruct (Hcl (_ ← rdSys syscall; mmapReadonly n) e1 err) as [e' He]; [by apply bind_err|]. exists e'. right. by exists err. }
  destruct (n <? Z.of_nat metaSize) eqn:E; bsplit.
  { destruct (Hcl (_ ← rdSys syscall; mmapReadonly n) e1 ErrCRCTooSmall) as [e' He]; [|exists e'; right; by eexists].
    erewrite bind_ok by exact H1. unfold mmapReadonly. by btrue. }
  destruct (rdSys_syscall (set_dk_env e1 s)) as (e2&[H2|[err H2]]).
  - exists e2. left. split; [done|]. unfold orClose. erewrite bind_ok by exact H1. unfold mmapReadonly. bfalse. by rewrite H2.
  - destruct (Hcl (_ ← rdSys syscall; mmapReadonly n) e2 err) as [e' He]; [|exists e'; right; by exists err].
    erewrite bind_ok by exact H1. unfold mmapReadonly. bfalse. by rewrite H2.
Qed.

(** Opening returns, and an open reader is well formed. *)
Lemma openLive_returns opts d :
  dec_total (rd_dec (newReader opts)) →
  (∀ f, dk_data d = Some f → len f < 2 ^ 32) →
  ∃ o s', openLive (mkRSt (newReader opts) d) = (o, s') ∧ returns o ∧ (o = Ok tt → open_reader (rdr s')).
Proof.
  intros Ht Hd. set (s := mkRSt (newReader opts) d). unfold openLive.
  destruct (rdSys_syscall s) as (e1&[H1|[err H1]]).
  2: { exists (Err err). eexists. split; [by apply bind_err|done]. }
  erewrite bind_ok by exact H1. erewrite bind_ok by reflexivity.
  change (dk_meta (disk (set_dk_env e1 s))) with (dk_meta d).
  destruct (dk_meta d) as [meta|] eqn:Hm; [|by do 2 eexists].
  destruct (mapsMeta_returns (len meta) (set_dk_env e1 s)) as (e3&[(E&H3)|[err H3]]).
  2: { exists (Err err). eexists. split; [by apply bind_err|done]. }
  erewrite bind_ok by exact H3. erewrite bind_ok by reflexivity.
  match goal with |- context [reloadLocked ?x] => set (s4 := x) end.
  destruct (crcBytes_returns (set_rdr (publish (mkSnap zeroMeta [] ∅ false) (rdr s4)) s4)) as (buf&Hbuf&_).
  { split; [split; [by eexists|exists (len meta); by split|done]|done|]. unfold s4, mappedFile. cbn.
    rewrite Hm. intros Em. cbn in Em. subst. cbn in E. unfold metaSize in E. lia. }
  destruct (reloadLocked_returns s4 buf Hd Ht Hbuf) as (e5&[[sn H5]|[err H5]]); rewrite H5; do 2 eexists;
    split; [done|split; [done|]| done|done].
  intros _. split; [by eexists|by exists (len meta)|done].
Qed.

(** ** Reading *)

Lemma metaTuple_returns s : reader_wf s → ∃ t, metaTuple s = Ok t.
Proof.
  intros Hw. destruct (crcBytes_returns s Hw) as (buf&Hb&Hl). unfold metaTuple, metaSize in *. rewrite Hb.
  cbn [mbind outcome_bind]. unfold offCRC, offActualSize, offSequence. rewrite !slice_ok by lia. by eexists.
Qed.

Lemma current_returns s : reader_wf s → ∃ sn s', current s = (Ok sn, s') ∧ reader_wf s'.
Proof.
  intros Hw. destruct (metaTuple_returns s Hw) as [t Ht]. unfold current.
  assert (∃ s1, ensureFresh s = (Ok tt, s1) ∧ reader_wf s1) as (s1&He&Hw1).
  { unfold ensureFresh. erewrite bind_ok by reflexivity.
    erewrite bind_ok by (unfold lift; rewrite Ht; reflexivity).
    destruct (tupleFresh (rdr s) t) eqn:Hf; [by exists s|].
    erewrite bind_ok by reflexivity. erewrite bind_ok by (unfold lift; rewrite Ht; reflexivity).
    rewrite Hf. unfold reloadRecording.
    destruct (crcBytes_returns s Hw) as (buf&Hb&_).
    destruct (reloadLocked_returns s buf (rw_data _ Hw) (or_dec _ (rw_open _ Hw)) Hb) as (e&[[sn ->]|[err ->]]); eexists; (split; [done|]).
    - by apply (reader_wf_env e), (reader_wf_publish sn) in Hw.
    - by apply (reader_wf_env e), (reader_wf_lastErr err) in Hw. }
  erewrite bind_ok by exact He. erewrite bind_ok by reflexivity.
  destruct (or_snap _ (rw_open _ Hw1)) as [sn Hsn]. exists sn, s1. unfold lift. by rewrite Hsn.
Qed.

(** Every read answers. *)
Lemma snapshotAs_returns {A} (dec : M codedInput A) k s :
  total_dec dec → reader_wf s → ∃ o s', snapshotAs dec k s = (Ok o, s') ∧ reader_wf s'.
Proof.
  intros Ht Hw. destruct (current_returns s Hw) as (sn&s'&Hc&Hw').
  destruct (reader_getter dec s k sn s' Ht Hc) as (o&Ho&_). by exists o, s'.
Qed.

(** The words are in a page that is gone when the mapped file was cut to nothing. *)
Lemma snapshotAs_faults {A} (dec : M codedInput A) k s :
  open_reader (rdr s) → mappedFile s = [] → snapshotAs dec k s = (Panic, s).
Proof.
  intros [_ (n&Hn&_) _] Hm. assert (metaTuple s = Panic) as Ht.
  { unfold metaTuple, crcBytes. by rewrite Hn, decide_True. }
  unfold snapshotAs, withValue, current, ensureFresh, mbind, M_bind, get, lift. by rewrite Ht.
Qed.

(** ** Closing *)

(** A closed Reader has no snapshot, no mapping and no file. *)
Definition shut (r : Reader) : Prop := rd_snap r = None ∧ rd_crcMmap r = None ∧ rd_crcFile r = false.

Lemma munmap_returns n s : ∃ e', ignore (munmap n) s = (Ok tt, set_dk_env e' s).
Proof.
  unfold ignore, munmap. destruct (n =? 0); [exists (dk_env (disk s)); by rewrite set_dk_env_id|].
  destruct (rdSys_syscall s) as (e'&[->|[err ->]]); by exists e'.
Qed.

(** Close releases everything even when a call fails, and leaves the files alone. *)
Lemma Reader_Close_shuts s :
  ∃ o s', Reader_Close s = (o, s') ∧ returns o ∧ shut (rdr s')
    ∧ dk_data (disk s') = dk_data (disk s) ∧ dk_meta (disk s') = dk_meta (disk s).
Proof.
  destruct s as [[dec sn mm file x y z er] d]. unfold Reader_Close. erewrite bind_ok by reflexivity.
  erewrite bind_ok by reflexivity. cbn [rdr set_rdr rd_crcMmap rd_crcFile].
  set (s1 := set_rdr _ _).
  set (unmapping := match mm with Some _ => _ | None => _ end).
  assert (∃ e, unmapping s1 = (Ok tt, set_dk_env e (set_rdr (set_crc None file (rdr s1)) s1))) as [e He].
  { subst unmapping. destruct mm as [n|]; [|exists (dk_env d); by destruct d].
    destruct (munmap_returns n s1) as [e H1]. exists e. by erewrite bind_ok by exact H1. }
  erewrite bind_ok by exact He. destruct file; [|by do 2 eexists].
  unfold closeCrcFile. match goal with |- context [rdSys syscall ?s] => destruct (rdSys_syscall s) as (e'&[->|[err ->]]) end;
    by do 2 eexists.
Qed.

(** A second Close does nothing; a read indexes a nil mapping. *)
Lemma Reader_Close_again s : shut (rdr s) → Reader_Close s = (Ok tt, s).
Proof. destruct s as [[] d]. intros (Hs&Hm&Hf). cbn in Hs, Hm, Hf. by subst. Qed.

Lemma shut_reads {A} (dec : M codedInput A) k s : shut (rdr s) → snapshotAs dec k s = (Panic, s).
Proof. destruct s as [[] d]. intros (Hs&Hm&Hf). cbn in Hs, Hm, Hf. by subst. Qed.

(** ** Without flock and mmap *)

(** Elsewhere than on POSIX (lock_other.go) Open returns an error: the one of
    mmapReadonly, when the meta file is there and nothing else fails. *)
Lemma other_openLive opts d :
  ∃ err e', openLive (PL := otherLocks) (PM := otherMaps) (mkRSt (newReader opts) d)
    = (Err err, mkRSt (newReader opts) (mkDisk (dk_data d) (dk_meta d) (dk_gone d) e'))
    ∧ (healthy (dk_env d) → err = if dk_meta d is Some _ then ErrNeedsMmap else ErrNotExist).
Proof.
  set (s := mkRSt _ d). unfold openLive. destruct (rdSys_syscall s) as (e1&[H1|[err H1]]).
  2: { exists err, e1. split; [by apply bind_err|]. intros He.
    unfold rdSys, zoom in H1. by rewrite syscall_healthy in H1. }
  assert (healthy (dk_env d) → healthy e1) as Hh.
  { intros He. unfold rdSys, zoom in H1. rewrite syscall_healthy in H1 by done. by injection H1 as <-. }
  erewrite bind_ok by exact H1. erewrite bind_ok by reflexivity. set (s1 := set_dk_env e1 s).
  change (dk_meta (disk s1)) with (dk_meta d). destruct (dk_meta d) as [mf|] eqn:Em.
  2: { exists ErrNotExist, e1. unfold s1, set_dk_env. cbn. by rewrite Em. }
  assert (∃ err e', orClose (_ ← rdSys syscall; LockCalls.mapReadonly (FileMaps := otherMaps) (len mf)) s1
    = (Err err, set_dk_env e' s1) ∧ (healthy e1 → err = ErrNeedsMmap)) as (err&e'&Ho&Hx).
  { destruct (rdSys_syscall s1) as (e2&[H2|[err H2]]).
    - unfold orClose. erewrite bind_ok by exact H2. cbn. unfold ignore, mbind, M_bind.
      destruct (rdSys_syscall (set_dk_env e2 s1)) as (e3&[->|[x ->]]); by exists ErrNeedsMmap, e3.
    - unfold orClose. erewrite bind_err by exact H2. unfold ignore, mbind, M_bind.
      destruct (rdSys_syscall (set_dk_env e2 s1)) as (e3&[->|[x ->]]); exists err, e3; (split; [done|]);
        intros He; unfold rdSys, zoom in H2; by rewrite syscall_healthy in H2. }
  exists err, e'. split; [|by intros He; apply Hx, Hh].
  erewrite bind_err by exact Ho. unfold s1, set_dk_env. cbn. by rewrite Em.
Qed.

(** So does BackupOne, before it made a directory or a file. *)
Lemma fsCall_returns (q : fs * sys) :
  ∃ e', fsCall q = (Ok tt, (q.1, e')) ∨ ∃ err, fsCall q = (Err err, (q.1, e')).
Proof. unfold fsCall, zoom. destruct (syscall_returns q.2) as (e'&[->|[err ->]]); eauto. Qed.

Lemma Open_returns p (q : fs * sys) :
  ∃ e', (∃ i, Open p q = (Ok i, (q.1, e'))) ∨ ∃ err, Open p q = (Err err, (q.1, e')).
Proof.
  unfold Open. destruct (fsCall_returns q) as (e'&[H|[err H]]); exists e'.
  - erewrite bind_ok by exact H. erewrite bind_ok by reflexivity. cbn [fst].
    destruct (names q.1 !! p) as [i|]; [left; by exists i|right; by eexists].
  - right. exists err. by apply bind_err.
Qed.

Lemma other_BackupOne rootDir mmapID dstDir q :
  ∃ err e', BackupOne (H := otherLocks) rootDir mmapID dstDir q = (Err err, (q.1, e')).
Proof.
  unfold BackupOne. destruct (Open_returns (dataPathFor rootDir mmapID ++ crcSuffix) q) as (e1&[[i H1]|[err H1]]).
  2: { exists err, e1. by apply bind_err. }
  erewrite bind_ok by exact H1. unfold deferring at 1.
  erewrite (bind_err (takeShared (FileLocks := otherLocks))) by reflexivity. unfold closeQuiet, ignore.
  destruct (fsCall_returns (q.1, e1)) as (e2&[->|[x ->]]); by do 2 eexists.
Qed.
