(* ===== verification/ReaderWorld.v ===== *)
(** * Goroutines at one Reader, and a writer (reader.go)

    [current] as the steps of a goroutine: a load or a store of one word or
    pointer, a lock, a flock call, the building of a snapshot.  Any number of
    goroutines interleave their steps with each other and with a writer of
    another process, which changes the files under the exclusive flock and shows
    the words of the meta file one at a time, in any order. *)

From S2P Require Import Prelude GoInt Wire Crc32 Meta Dict Crypt MemFile Flock Store StoreOps.
From S2P Require Import StoreInv StoreWrite StoreRun Api Reader ReaderSpec.

(** ** The files *)

(** What a writer commits: the meta struct and the data file. *)
Record version := mkVersion { vn_meta : metaInfo; vn_data : bytes }.

(** [buildSnapshot], when the data file can be read. *)
Definition built (dec : option Decryptor) (v : version) : outcome snapshot :=
  if maxSupportedVersion <? mi_version (vn_meta v) then Err ErrUnsupportedVersion
  else snapshotOf dec (vn_meta v) (vn_data v).

(** A writer inside its exclusive lock: what it will commit, and which words of
    the mapped meta file show it already. *)
Record update := mkUpdate { ud_next : version; ud_crc : bool; ud_actual : bool; ud_seq : bool }.

(** The later version is packed again, or appended to. *)
Definition later (v v' : version) : Prop :=
  mi_sequence (vn_meta v) < mi_sequence (vn_meta v')
  ∨ (mi_sequence (vn_meta v) = mi_sequence (vn_meta v') ∧ mi_actualSize (vn_meta v) < mi_actualSize (vn_meta v')).

(** ** The goroutines *)

(** Where a goroutine is in [current]: each constructor is the next step, with the
    values it has loaded.  [second] tells the probe under [reloadMu] from the one
    before it; the error of a failed reload is carried to the end. *)
Inductive pc :=
  | P_crc (second : bool)
  | P_actual (second : bool) (crc : Z)
  | P_seq (second : bool) (crc actual : Z)
  | P_lcrc (second : bool) (crc actual seq : Z)
  | P_lactual (second : bool) (actual seq : Z)
  | P_lseq (second : bool) (actual seq : Z)
  | P_lock
  | P_flock
  | P_build
  | P_snap (sn : snapshot)
  | P_scrc (sn : snapshot)
  | P_sactual (sn : snapshot)
  | P_sseq (sn : snapshot)
  | P_funlock (r : option error)
  | P_err (e : error)
  | P_unlock (r : option error)
  | P_load (r : option error)
  | P_done (sn : snapshot) (r : option error).

(** A probe that found the tuple unchanged, or changed. *)
Definition unchanged (second : bool) : pc := if second then P_unlock None else P_load None.
Definition changed (second : bool) : pc := if second then P_flock else P_lock.

(** A goroutine, with the number of versions there were when its read began. *)
Record thread := mkThread { th_start : nat; th_pc : pc }.

(** The four stores of [reloadFrom]. *)
Definition store_snap (sn : snapshot) (r : Reader) : Reader :=
  mkReader (rd_dec r) (Some sn) (rd_crcMmap r) (rd_crcFile r) (rd_loadedCRC r) (rd_loadedActual r) (rd_loadedSeq r) (rd_lastErr r).
Definition store_crc (c : Z) (r : Reader) : Reader :=
  mkReader (rd_dec r) (rd_snap r) (rd_crcMmap r) (rd_crcFile r) c (rd_loadedActual r) (rd_loadedSeq r) (rd_lastErr r).
Definition store_actual (a : Z) (r : Reader) : Reader :=
  mkReader (rd_dec r) (rd_snap r) (rd_crcMmap r) (rd_crcFile r) (rd_loadedCRC r) a (rd_loadedSeq r) (rd_lastErr r).
Definition store_seq (q : Z) (r : Reader) : Reader :=
  mkReader (rd_dec r) (rd_snap r) (rd_crcMmap r) (rd_crcFile r) (rd_loadedCRC r) (rd_loadedActual r) q (rd_lastErr r).

(** ** The world *)

Record rworld := mkRworld {
  rw_past : list version;            (* committed before, the oldest first *)
  rw_now : version;                  (* the files' last committed version *)
  rw_update : option update;         (* the writer that holds the exclusive lock *)
  rw_locked : bool;                  (* the Reader's descriptor holds the shared lock *)
  rw_mu : option nat;                (* the goroutine that holds reloadMu *)
  rw_rdr : Reader;
  rw_from : nat;                     (* the version its snapshot was built from *)
  rw_threads : gmap nat thread;
}.

(** The versions so far; the last may be under way. *)
Definition committed (w : rworld) : list version := rw_past w ++ [rw_now w].
Definition versions (w : rworld) : list version :=
  committed w ++ match rw_update w with Some u => [ud_next u] | None => [] end.
Definition newest (w : rworld) : nat := length (rw_past w).

(** A word of the mapped meta file. *)
Definition word (w : rworld) (flag : update → bool) (f : metaInfo → Z) : Z :=
  match rw_update w with
  | Some u => if flag u then f (vn_meta (ud_next u)) else f (vn_meta (rw_now w))
  | None => f (vn_meta (rw_now w))
  end.

Definition set_threads (x : gmap nat thread) (w : rworld) : rworld :=
  mkRworld (rw_past w) (rw_now w) (rw_update w) (rw_locked w) (rw_mu w) (rw_rdr w) (rw_from w) x.
Definition set_update (u : option update) (w : rworld) : rworld :=
  mkRworld (rw_past w) (rw_now w) u (rw_locked w) (rw_mu w) (rw_rdr w) (rw_from w) (rw_threads w).
Definition set_locked (b : bool) (w : rworld) : rworld :=
  mkRworld (rw_past w) (rw_now w) (rw_update w) b (rw_mu w) (rw_rdr w) (rw_from w) (rw_threads w).
Definition set_mu (m : option nat) (w : rworld) : rworld :=
  mkRworld (rw_past w) (rw_now w) (rw_update w) (rw_locked w) m (rw_rdr w) (rw_from w) (rw_threads w).
Definition set_reader (r : Reader) (w : rworld) : rworld :=
  mkRworld (rw_past w) (rw_now w) (rw_update w) (rw_locked w) (rw_mu w) r (rw_from w) (rw_threads w).
Definition set_from (n : nat) (w : rworld) : rworld :=
  mkRworld (rw_past w) (rw_now w) (rw_update w) (rw_locked w) (rw_mu w) (rw_rdr w) n (rw_threads w).
Definition commit (w : rworld) (v : version) : rworld :=
  mkRworld (rw_past w ++ [rw_now w]) v None (rw_locked w) (rw_mu w) (rw_rdr w) (rw_from w) (rw_threads w).

(** The goroutine [t], in a read that began at version [i], goes to [p]. *)
Definition goto (t i : nat) (p : pc) (w : rworld) : rworld := set_threads (<[t := mkThread i p]> (rw_threads w)) w.

(** A step of the goroutine [t]: where it is, and what that step does to the
    shared state and where it leads. *)
Inductive gstep (t : nat) (w : rworld) : pc → pc → rworld → Prop :=
  | g_crc x : gstep t w (P_crc x) (P_actual x (word w ud_crc mi_crcDigest)) w
  | g_actual x c : gstep t w (P_actual x c) (P_seq x c (word w ud_actual mi_actualSize)) w
  | g_seq x c a : gstep t w (P_seq x c a) (P_lcrc x c a (word w ud_seq mi_sequence)) w
  | g_lcrc x c a q :
      gstep t w (P_lcrc x c a q) (if c =? rd_loadedCRC (rw_rdr w) then P_lactual x a q else changed x) w
  | g_lactual x a q :
      gstep t w (P_lactual x a q) (if a =? rd_loadedActual (rw_rdr w) then P_lseq x a q else changed x) w
  | g_lseq x a q :
      gstep t w (P_lseq x a q) (if q =? rd_loadedSeq (rw_rdr w) then unchanged x else changed x) w
  | g_lock : rw_mu w = None → gstep t w P_lock (P_crc true) (set_mu (Some t) w)
  | g_flock : rw_update w = None → gstep t w P_flock P_build (set_locked true w)
  | g_flock_fails e : gstep t w P_flock (P_err e) w
  | g_build sn : built (rd_dec (rw_rdr w)) (rw_now w) = Ok sn → gstep t w P_build (P_snap sn) w
  | g_build_fails e : gstep t w P_build (P_funlock (Some e)) w
  | g_snap sn :
      gstep t w (P_snap sn) (P_scrc sn) (set_from (newest w) (set_reader (store_snap sn (rw_rdr w)) w))
  | g_scrc sn :
      gstep t w (P_scrc sn) (P_sactual sn) (set_reader (store_crc (mi_crcDigest (sn_meta sn)) (rw_rdr w)) w)
  | g_sactual sn :
      gstep t w (P_sactual sn) (P_sseq sn) (set_reader (store_actual (mi_actualSize (sn_meta sn)) (rw_rdr w)) w)
  | g_sseq sn :
      gstep t w (P_sseq sn) (P_funlock None) (set_reader (store_seq (mi_sequence (sn_meta sn)) (rw_rdr w)) w)
  | g_funlock r :
      gstep t w (P_funlock r) (match r with None => P_unlock None | Some e => P_err e end) (set_locked false w)
  | g_err e : gstep t w (P_err e) (P_unlock (Some e)) (set_reader (set_rd_lastErr e (rw_rdr w)) w)
  | g_unlock r : gstep t w (P_unlock r) (P_load r) (set_mu None w)
  | g_load sn r : rd_snap (rw_rdr w) = Some sn → gstep t w (P_load r) (P_done sn r) w.

(** A goroutine that is not reading. *)
Definition between_reads (w : rworld) (t : nat) : bool :=
  match rw_threads w !! t with
  | None => true
  | Some th => match th_pc th with P_done _ _ => true | _ => false end
  end.

Inductive rstep (w : rworld) : rworld → Prop :=
  | r_begin t : between_reads w t = true → rstep w (goto t (newest w) (P_crc false) w)
  | r_go t i p p' w' :
      rw_threads w !! t = Some (mkThread i p) → gstep t w p p' w' → rstep w (goto t i p' w')
  | w_begin v :
      rw_update w = None → rw_locked w = false → later (rw_now w) v →
      rstep w (set_update (Some (mkUpdate v false false false)) w)
  | w_crc v c a q : rw_update w = Some (mkUpdate v c a q) → rstep w (set_update (Some (mkUpdate v true a q)) w)
  | w_actual v c a q : rw_update w = Some (mkUpdate v c a q) → rstep w (set_update (Some (mkUpdate v c true q)) w)
  | w_seq v c a q : rw_update w = Some (mkUpdate v c a q) → rstep w (set_update (Some (mkUpdate v c a true)) w)
  | w_commit v : rw_update w = Some (mkUpdate v true true true) → rstep w (commit w v).

Definition rsteps : relation rworld := rtc rstep.

(** ** The invariant *)

(** The goroutine holds reloadMu, or the shared flock besides. *)
Definition holds_mu (p : pc) : bool :=
  match p with
  | P_crc x | P_actual x _ | P_seq x _ _ | P_lcrc x _ _ _ | P_lactual x _ _ | P_lseq x _ _ => x
  | P_lock | P_load _ | P_done _ _ => false
  | _ => true
  end.
Definition holds_flock (p : pc) : bool :=
  match p with
  | P_build | P_snap _ | P_scrc _ | P_sactual _ | P_sseq _ | P_funlock _ => true
  | _ => false
  end.
Definition publishing (p : pc) : bool :=
  match p with P_scrc _ | P_sactual _ | P_sseq _ => true | _ => false end.

(** The size [a] was that of a version not older than [i]; with the sequence
    number [q], of one at most one older than that. *)
Definition saw_size (w : rworld) (i : nat) (a : Z) : Prop :=
  ∃ x v, (i ≤ x)%nat ∧ versions w !! x = Some v ∧ mi_actualSize (vn_meta v) = a.
Definition saw (w : rworld) (i : nat) (a q : Z) : Prop :=
  ∃ x v y u, (i ≤ x ≤ S y)%nat ∧ (i ≤ y)%nat ∧ versions w !! x = Some v ∧ versions w !! y = Some u
    ∧ mi_actualSize (vn_meta v) = a ∧ mi_sequence (vn_meta u) = q.

(** Since the read began, a write-back that was the first after [v] made a region
    of the very size of [v]: the one case where a probe can miss a write. *)
Definition recalled (w : rworld) (i : nat) (v : version) : Prop :=
  ∃ y u u', (i ≤ y)%nat ∧ versions w !! y = Some u ∧ versions w !! S y = Some u'
    ∧ mi_sequence (vn_meta u) = mi_sequence (vn_meta v) ∧ mi_sequence (vn_meta v) < mi_sequence (vn_meta u')
    ∧ mi_actualSize (vn_meta u') = mi_actualSize (vn_meta v).

(** The snapshot of version [j] may be returned by a read that began at [i]. *)
Definition recent (w : rworld) (i j : nat) : Prop :=
  (i ≤ j)%nat ∨ ∃ v, committed w !! j = Some v ∧ recalled w i v.

Definition thread_ok (w : rworld) (i : nat) (p : pc) : Prop :=
  match p with
  | P_seq _ _ a => saw_size w i a
  | P_lcrc _ _ a q | P_lactual _ a q => saw w i a q
  | P_lseq _ a q => (i ≤ rw_from w)%nat ∨ (saw w i a q ∧ a = rd_loadedActual (rw_rdr w))
  | P_snap sn => built (rd_dec (rw_rdr w)) (rw_now w) = Ok sn
  | P_scrc sn | P_sactual sn => rw_from w = newest w ∧ sn_meta sn = vn_meta (rw_now w)
  | P_sseq sn => rw_from w = newest w ∧ sn_meta sn = vn_meta (rw_now w)
      ∧ rd_loadedActual (rw_rdr w) = mi_actualSize (vn_meta (rw_now w))
  | P_funlock None | P_unlock None | P_load None => recent w i (rw_from w)
  | P_unlock (Some _) | P_load (Some _) => rd_lastErr (rw_rdr w) ≠ None
  | P_done sn r => ∃ j v, committed w !! j = Some v ∧ built (rd_dec (rw_rdr w)) v = Ok sn
      ∧ match r with None => recent w i j | Some _ => rd_lastErr (rw_rdr w) ≠ None end
  | _ => True
  end.

Record rworld_ok (w : rworld) : Prop := {
  ro_later j k v v' : (j < k)%nat → versions w !! j = Some v → versions w !! k = Some v' → later v v';
  ro_excl : rw_locked w = true → rw_update w = None;
  ro_mu t i p : rw_threads w !! t = Some (mkThread i p) → holds_mu p = true → rw_mu w = Some t;
  ro_flock t i p : rw_threads w !! t = Some (mkThread i p) → holds_flock p = true → rw_locked w = true;
  ro_start t i p : rw_threads w !! t = Some (mkThread i p) → (i ≤ newest w)%nat;
  ro_snap : ∃ sn v, rd_snap (rw_rdr w) = Some sn ∧ committed w !! rw_from w = Some v
    ∧ built (rd_dec (rw_rdr w)) v = Ok sn;
  ro_words :
    (∃ t i p, rw_threads w !! t = Some (mkThread i p) ∧ publishing p = true ∧ rw_from w = newest w)
    ∨ ∃ v, committed w !! rw_from w = Some v ∧ rd_loadedActual (rw_rdr w) = mi_actualSize (vn_meta v)
        ∧ rd_loadedSeq (rw_rdr w) = mi_sequence (vn_meta v);
  ro_threads t i p : rw_threads w !! t = Some (mkThread i p) → thread_ok w i p;
}.

(** ** What the steps of others leave true *)

Record evolves (w w' : rworld) : Prop := {
  ev_versions x v : versions w !! x = Some v → versions w' !! x = Some v;
  ev_committed x v : committed w !! x = Some v → committed w' !! x = Some v;
  ev_newest : (newest w ≤ newest w')%nat;
  ev_from : rw_from w' = rw_from w ∨ (newest w ≤ rw_from w')%nat;
  ev_actual : rd_loadedActual (rw_rdr w') = rd_loadedActual (rw_rdr w) ∨ (newest w ≤ rw_from w')%nat;
  ev_err : rd_lastErr (rw_rdr w) ≠ None → rd_lastErr (rw_rdr w') ≠ None;
  ev_dec : rd_dec (rw_rdr w') = rd_dec (rw_rdr w);
}.

(** What a goroutine under the flock relies on. *)
Definition frozen (w w' : rworld) : Prop :=
  rw_now w' = rw_now w ∧ newest w' = newest w ∧ rw_from w' = rw_from w
  ∧ rd_loadedActual (rw_rdr w') = rd_loadedActual (rw_rdr w).

Lemma recalled_evolves w w' i v : evolves w w' → recalled w i v → recalled w' i v.
Proof.
  intros He (y&u&u'&?&?&?&?&?&?). exists y, u, u'. split_and!; try done; by apply (ev_versions _ _ He).
Qed.

Lemma recent_evolves w w' i j : evolves w w' → recent w i j → recent w' i j.
Proof.
  intros He [Hj|(v&Hv&Hr)]; [by left|right]. exists v.
  split; [by apply (ev_committed _ _ He)|by eapply recalled_evolves].
Qed.

Lemma recent_from w w' i :
  evolves w w' → (i ≤ newest w)%nat → recent w i (rw_from w) → recent w' i (rw_from w').
Proof.
  intros He Hi Hr. destruct (ev_from _ _ He) as [->|Hf]; [by eapply recent_evolves|left; lia].
Qed.

Lemma saw_evolves w w' i a q : evolves w w' → saw w i a q → saw w' i a q.
Proof.
  intros He (x&v&y&u&?&?&?&?&?&?). exists x, v, y, u. split_and!; try done; try lia; by apply (ev_versions _ _ He).
Qed.

Lemma thread_ok_evolves w w' i p :
  evolves w w' → (i ≤ newest w)%nat → (holds_flock p = true → frozen w w') →
  thread_ok w i p → thread_ok w' i p.
Proof.
  intros He Hi Hfr. destruct p as [| | x c a|x c a q|x a q|x a q| | | |sn|sn|sn|sn|[e|]|e|[e|]|[e|]|sn r];
    cbn [thread_ok holds_flock] in *; try done.
  - intros (y&v&?&?&?). exists y, v. split_and!; try done. by apply (ev_versions _ _ He).
  - by apply saw_evolves.
  - by apply saw_evolves.
  - intros [Hf|[Hs Ha]].
    + left. destruct (ev_from _ _ He) as [->|]; lia.
    + destruct (ev_actual _ _ He) as [->|]; [right|left; lia]. split; [by eapply saw_evolves|done].
  - destruct (Hfr eq_refl) as (->&_&_&_). by rewrite (ev_dec _ _ He).
  - destruct (Hfr eq_refl) as (->&->&->&_). done.
  - destruct (Hfr eq_refl) as (->&->&->&_). done.
  - destruct (Hfr eq_refl) as (->&->&->&->). done.
  - by apply recent_from.
  - by apply ev_err.
  - by apply recent_from.
  - by apply ev_err.
  - by apply recent_from.
  - intros (j&v&Hj&Hb&Hr). exists j, v. split; [by apply (ev_committed _ _ He)|].
    rewrite (ev_dec _ _ He). split; [done|]. destruct r; [by eapply ev_err|by eapply recent_evolves].
Qed.

Lemma publishing_flock p : publishing p = true → holds_flock p = true.
Proof. by destruct p. Qed.
Lemma flock_mu p : holds_flock p = true → holds_mu p = true.
Proof. by destruct p. Qed.

Lemma committed_newest w : committed w !! newest w = Some (rw_now w).
Proof. unfold committed, newest. apply list_lookup_middle. done. Qed.

Lemma committed_versions w x v : committed w !! x = Some v → versions w !! x = Some v.
Proof. intros Hx. unfold versions. by apply lookup_app_l_Some. Qed.

Lemma versions_length w : (length (versions w) ≤ S (S (newest w)))%nat.
Proof.
  unfold versions, committed, newest. rewrite !length_app. cbn [length]. destruct (rw_update w); cbn [length]; lia.
Qed.

(** A word on the mapping is that of the last committed version or of the one
    under way. *)
Lemma word_version w flag f :
  ∃ y v, (newest w ≤ y)%nat ∧ versions w !! y = Some v ∧ word w flag f = f (vn_meta v).
Proof.
  assert (versions w !! newest w = Some (rw_now w)) as Hn by apply committed_versions, committed_newest.
  unfold word. destruct (rw_update w) as [u|] eqn:E; [|by exists (newest w), (rw_now w)].
  destruct (flag u); [|by exists (newest w), (rw_now w)].
  exists (S (newest w)), (ud_next u). split; [lia|]. split; [|done].
  unfold versions. rewrite E. apply list_lookup_middle. unfold committed, newest. rewrite length_app. cbn. lia.
Qed.

Lemma built_meta dec v sn : built dec v = Ok sn → sn_meta sn = vn_meta v.
Proof. unfold built. destruct (_ <? _); [done|]. apply snapshotOf_meta. Qed.

(** A probe that finds the tuple unchanged has missed nothing, but for one case. *)
Lemma unchanged_recent w i a q :
  rworld_ok w → (i ≤ newest w)%nat → saw w i a q →
  a = rd_loadedActual (rw_rdr w) → q = rd_loadedSeq (rw_rdr w) → recent w i (rw_from w).
Proof.
  intros Hw Hi (x&vx&y&vy&[Hix Hxy]&Hiy&Hx&Hy&Ea&Eq) Ha Hq.
  destruct (le_lt_dec i (rw_from w)) as [|Hf]; [by left|].
  destruct (ro_words _ Hw) as [(t&i'&p&_&_&Hn)|(v&Hv&Hva&Hvq)]; [lia|].
  pose proof (committed_versions _ _ _ Hv) as Hv'. right. exists v. split; [done|].
  destruct (ro_later _ Hw (rw_from w) x v vx) as [Hs|[Hs Hl]]; try done; [lia| |lia].
  exists y, vy, vx. split; [done|]. split; [done|].
  assert (x = S y) as ->; [|split_and!; try done; congruence].
  destruct (Nat.eq_dec x (S y)) as [|Hne]; [done|]. exfalso.
  destruct (Nat.eq_dec x y) as [->|Hxy']; [simplify_eq; lia|].
  destruct (ro_later _ Hw x y vx vy) as [|[]]; try done; lia.
Qed.

Lemma gstep_thread w t i p p' w' :
  rworld_ok w → rw_threads w !! t = Some (mkThread i p) → gstep t w p p' w' → thread_ok w' i p'.
Proof.
  intros Hw Hp Hs. pose proof (ro_threads _ Hw _ _ _ Hp) as Hok. pose proof (ro_start _ Hw _ _ _ Hp) as Hi.
  destruct Hs as [x|x c|x c a|x c a q|x a q|x a q|Hm|Hu|e|sn Hb|e|sn|sn|sn|sn|[e|]|e|[e|]|sn r Hsn];
    cbn [thread_ok] in *; try done.
  - destruct (word_version w ud_actual mi_actualSize) as (y&v&Hy&Hv&Hw').
    exists y, v. split; [lia|]. split; [done|]. symmetry. exact Hw'.
  - destruct Hok as (x0&v0&Hx0&Hv0&Ha). destruct (word_version w ud_seq mi_sequence) as (y&v&Hy&Hv&Hw').
    exists x0, v0, y, v. pose proof (versions_length w). apply lookup_lt_Some in Hv0 as Hlt.
    split_and!; try done; try lia.
  - destruct (c =? _); [done|by destruct x].
  - destruct (a =? _) eqn:E; [|by destruct x]. bsplit. by right.
  - destruct (q =? _) eqn:E; [|by destruct x]. bsplit.
    assert (recent w i (rw_from w)) as Hr; [|by destruct x].
    destruct Hok as [Hf|[Hsaw Ha]]; [by left|]. by eapply unchanged_recent.
  - split; [done|]. by eapply built_meta.
  - destruct Hok as [Hf Hme]. split; [done|]. split; [done|]. cbn. by rewrite Hme.
  - left. destruct Hok as [Hf _]. cbn. lia.
  - destruct (ro_snap _ Hw) as (sn'&v&Hsn'&Hv&Hb). assert (sn' = sn) as -> by congruence.
    exists (rw_from w), v. split; [done|]. split; [done|]. by destruct r.
Qed.

Lemma gstep_frame w t p p' w' :
  gstep t w p p' w' →
  rw_past w' = rw_past w ∧ rw_now w' = rw_now w ∧ rw_update w' = rw_update w ∧ rw_threads w' = rw_threads w.
Proof. by intros []. Qed.

Lemma gstep_evolves w t i p p' w' q :
  rworld_ok w → rw_threads w !! t = Some (mkThread i p) → gstep t w p p' w' → evolves w (goto t i q w').
Proof.
  intros Hw Hp Hs. pose proof (ro_threads _ Hw _ _ _ Hp) as Hok.
  destruct (gstep_frame _ _ _ _ _ Hs) as (E1&E2&E3&_).
  assert (versions (goto t i q w') = versions w ∧ committed (goto t i q w') = committed w
    ∧ newest (goto t i q w') = newest w) as (Ev&Ec&En).
  { unfold versions, committed, newest. cbn. by rewrite E1, E2, E3. }
  split; rewrite ?Ev, ?Ec, ?En; try done; destruct Hs; cbn in *; auto.
  right. by destruct Hok as [-> _].
Qed.

(** The goroutines after a step of [t]. *)
Lemma goto_threads w t i p p' w' u j q :
  gstep t w p p' w' → rw_threads (goto t i p' w') !! u = Some (mkThread j q) →
  (u = t ∧ j = i ∧ q = p') ∨ (u ≠ t ∧ rw_threads w !! u = Some (mkThread j q)).
Proof.
  intros Hs Hu. destruct (gstep_frame _ _ _ _ _ Hs) as (_&_&_&E4). cbn in Hu. rewrite E4 in Hu.
  destruct (decide (u = t)) as [->|Hne].
  - rewrite lookup_insert_eq in Hu. injection Hu as <- <-. by left.
  - rewrite lookup_insert_ne in Hu by done. by right.
Qed.

(** Only one goroutine holds reloadMu, and the flock. *)
Lemma gstep_mu w t i p p' w' u j q :
  rworld_ok w → rw_threads w !! t = Some (mkThread i p) → gstep t w p p' w' →
  rw_threads (goto t i p' w') !! u = Some (mkThread j q) → holds_mu q = true → rw_mu w' = Some u.
Proof.
  intros Hw Hp Hs Hu Hq. pose proof (ro_mu _ Hw _ _ _ Hp) as Hmu.
  destruct (goto_threads _ _ _ _ _ _ _ _ _ Hs Hu) as [(->&->&->)|[Hne Hu']].
  - destruct Hs as [x|x c|x c a|x c a k|x a k|x a k| | | | | | | | | |[]| | |]; cbn in *; auto; try done;
      destruct (_ =? _); try done; destruct x; cbn in *; auto; done.
  - pose proof (ro_mu _ Hw _ _ _ Hu' Hq) as Hm. destruct Hs; cbn in *; try done; [congruence|].
    rewrite (Hmu eq_refl) in Hm. congruence.
Qed.

(** While another goroutine is under the flock, [t] does not change what it
    relies on. *)
Lemma gstep_frozen w t i p p' w' u j q :
  rworld_ok w → rw_threads w !! t = Some (mkThread i p) → gstep t w p p' w' → u ≠ t →
  rw_threads w !! u = Some (mkThread j q) → holds_flock q = true →
  frozen w (goto t i p' w') ∧ rw_locked w' = rw_locked w.
Proof.
  intros Hw Hp Hs Hne Hu Hq. pose proof (ro_mu _ Hw _ _ _ Hu (flock_mu _ Hq)) as Hm.
  pose proof (ro_mu _ Hw _ _ _ Hp) as Hmu. destruct (holds_mu p) eqn:E.
  - rewrite (Hmu eq_refl) in Hm. congruence.
  - destruct Hs; by cbn in *.
Qed.

Lemma gstep_flock w t i p p' w' u j q :
  rworld_ok w → rw_threads w !! t = Some (mkThread i p) → gstep t w p p' w' →
  rw_threads (goto t i p' w') !! u = Some (mkThread j q) → holds_flock q = true → rw_locked w' = true.
Proof.
  intros Hw Hp Hs Hu Hq. pose proof (ro_flock _ Hw _ _ _ Hp) as Hfl.
  destruct (goto_threads _ _ _ _ _ _ _ _ _ Hs Hu) as [(->&->&->)|[Hne Hu']].
  - destruct Hs as [x|x c|x c a|x c a k|x a k|x a k| | | | | | | | | |[]| | |]; cbn in *; auto; try done;
      destruct (_ =? _); try done; by destruct x.
  - destruct (gstep_frozen _ _ _ _ _ _ _ _ _ Hw Hp Hs Hne Hu' Hq) as [_ ->]. by eapply ro_flock.
Qed.

(** The loaded words are those of the snapshot's version, but while a goroutine
    publishes. *)
Lemma gstep_words w t i p p' w' :
  rworld_ok w → rw_threads w !! t = Some (mkThread i p) → gstep t w p p' w' →
  let w1 := goto t i p' w' in
  (∃ u j q, rw_threads w1 !! u = Some (mkThread j q) ∧ publishing q = true ∧ rw_from w1 = newest w1)
  ∨ ∃ v, committed w1 !! rw_from w1 = Some v ∧ rd_loadedActual (rw_rdr w1) = mi_actualSize (vn_meta v)
      ∧ rd_loadedSeq (rw_rdr w1) = mi_sequence (vn_meta v).
Proof.
  intros Hw Hp Hs w1. pose proof (ro_threads _ Hw _ _ _ Hp) as Hok.
  destruct (gstep_frame _ _ _ _ _ Hs) as (E1&E2&E3&E4).
  destruct (publishing p') eqn:Hpub.
  { left. exists t, i, p'. cbn. rewrite lookup_insert_eq. split; [done|]. split; [done|].
    destruct Hs as [x|x c|x c a|x c a k|x a k|x a k| | | | | | | | | |[]| | |]; cbn in *; try done;
      try (by destruct Hok as [-> _]); destruct (_ =? _); try done; by destruct x. }
  destruct (publishing p) eqn:Hold.
  { right. exists (rw_now w). destruct Hs; cbn in *; try done. destruct Hok as (Hf&Hme&Ha).
    unfold w1, committed, newest in *. cbn. rewrite Hf. rewrite Hme. split; [apply committed_newest|done]. }
  assert (rw_from w1 = rw_from w ∧ rw_rdr w1 = rw_rdr w ∨ ∃ e, rw_from w1 = rw_from w ∧ rw_rdr w1 = set_rd_lastErr e (rw_rdr w))
    as Hsame by (destruct Hs; cbn in *; try done; eauto).
  destruct (ro_words _ Hw) as [(u&j&q&Hu&Hq&Hf)|(v&Hv&Ha&Hq)].
  - left. exists u, j, q. assert (u ≠ t) as Hne by congruence.
    split; [unfold w1; cbn; by rewrite E4, lookup_insert_ne by done|]. split; [done|].
    assert (rw_from w1 = rw_from w) as -> by (by destruct Hsame as [[]|(?&?&?)]).
    unfold w1, newest. cbn. by rewrite E1.
  - right. exists v. assert (committed w1 = committed w) as -> by (unfold committed; cbn; by rewrite E1, E2).
    destruct Hsame as [[-> ->]|(e&->&->)]; done.
Qed.

Lemma gstep_ok w t i p p' w' :
  rworld_ok w → rw_threads w !! t = Some (mkThread i p) → gstep t w p p' w' → rworld_ok (goto t i p' w').
Proof.
  intros Hw Hp Hs. pose proof (gstep_evolves _ _ _ _ _ _ p' Hw Hp Hs) as He.
  destruct (gstep_frame _ _ _ _ _ Hs) as (E1&E2&E3&E4).
  assert (versions (goto t i p' w') = versions w) as Ev by (unfold versions, committed; cbn; by rewrite E1, E2, E3).
  assert (newest (goto t i p' w') = newest w) as En by (unfold newest; cbn; by rewrite E1).
  split.
  - rewrite Ev. apply Hw.
  - pose proof (ro_excl _ Hw) as Hx. destruct Hs; cbn in *; auto; done.
  - intros u j q Hu Hq. by apply (gstep_mu w t i p p' w' u j q).
  - intros u j q Hu Hq. by apply (gstep_flock w t i p p' w' u j q).
  - intros u j q Hu. rewrite En. destruct (goto_threads _ _ _ _ _ _ _ _ _ Hs Hu) as [(->&->&->)|[Hne Hu']]; by eapply ro_start.
  - pose proof (ro_snap _ Hw) as Hsn. pose proof (ro_threads _ Hw _ _ _ Hp) as Hok. destruct Hs; cbn in *; try exact Hsn.
    exists sn, (rw_now w). split; [done|]. split; [apply committed_newest|exact Hok].
  - exact (gstep_words _ _ _ _ _ _ Hw Hp Hs).
  - intros u j q Hu. destruct (goto_threads _ _ _ _ _ _ _ _ _ Hs Hu) as [(->&->&->)|[Hne Hu']].
    + exact (gstep_thread _ _ _ _ _ _ Hw Hp Hs).
    + apply (thread_ok_evolves w); [done|by eapply ro_start| |by eapply ro_threads].
      intros Hq. exact (proj1 (gstep_frozen _ _ _ _ _ _ _ _ _ Hw Hp Hs Hne Hu' Hq)).
Qed.

(** ** The steps of the writer, and of goroutines that begin *)

Lemma rworld_ok_begin w t : rworld_ok w → between_reads w t = true → rworld_ok (goto t (newest w) (P_crc false) w).
Proof.
  intros Hw Ht. set (w1 := goto _ _ _ _).
  assert (∀ u j q, rw_threads w1 !! u = Some (mkThread j q) →
    (u = t ∧ j = newest w ∧ q = P_crc false) ∨ (u ≠ t ∧ rw_threads w !! u = Some (mkThread j q))) as Hth.
  { intros u j q Hu. cbn in Hu. destruct (decide (u = t)) as [->|Hne].
    - rewrite lookup_insert_eq in Hu. injection Hu as <- <-. by left.
    - rewrite lookup_insert_ne in Hu by done. by right. }
  pose proof Hw as [].
  split; try done.
  - intros u j q Hu Hq. destruct (Hth _ _ _ Hu) as [(->&->&->)|[_ Hu']]; [done|by eapply ro_mu0].
  - intros u j q Hu Hq. destruct (Hth _ _ _ Hu) as [(->&->&->)|[_ Hu']]; [done|by eapply ro_flock0].
  - intros u j q Hu. destruct (Hth _ _ _ Hu) as [(->&->&->)|[_ Hu']]; [done|by eapply ro_start0].
  - destruct ro_words0 as [(u&j&q&Hu&Hq&Hf)|Hv]; [left|by right]. exists u, j, q. split; [|done].
    cbn. rewrite lookup_insert_ne; [done|]. intros ->. unfold between_reads in Ht. rewrite Hu in Ht. by destruct q.
  - intros u j q Hu. destruct (Hth _ _ _ Hu) as [(->&->&->)|[_ Hu']]; [done|by eapply ro_threads0].
Qed.

Lemma later_trans v1 v2 v3 : later v1 v2 → later v2 v3 → later v1 v3.
Proof. unfold later. lia. Qed.

(** The versions do not change, and the Reader is not touched. *)
Lemma rworld_ok_update w u u' :
  rworld_ok w → rw_update w = Some u → ud_next u' = ud_next u → rworld_ok (set_update (Some u') w).
Proof.
  intros Hw Hu Hn. set (w1 := set_update _ _).
  assert (versions w1 = versions w) as Ev by (unfold versions; cbn; by rewrite Hu, Hn).
  assert (rw_locked w = false) as Hl.
  { destruct (rw_locked w) eqn:E; [|done]. by rewrite (ro_excl _ Hw E) in Hu. }
  assert (evolves w w1) as He by (split; try done; [by rewrite Ev|by left|by left]).
  pose proof Hw as []. split; try done; [by rewrite Ev|cbn; congruence|].
  intros t i p Hp. apply (thread_ok_evolves w); [done|by eapply ro_start0|done|by eapply ro_threads0].
Qed.

Lemma rworld_ok_write w v :
  rworld_ok w → rw_update w = None → rw_locked w = false → later (rw_now w) v →
  rworld_ok (set_update (Some (mkUpdate v false false false)) w).
Proof.
  intros Hw Hu Hl Hv. set (w1 := set_update _ _).
  assert (versions w = committed w) as Ew by (unfold versions; by rewrite Hu, app_nil_r).
  assert (versions w1 = versions w ++ [v]) as Ev by (by rewrite Ew).
  assert (evolves w w1) as He.
  { split; try done; [|by left|by left]. intros x u Hx. rewrite Ev. by apply lookup_app_l_Some. }
  pose proof Hw as []. split; try done; [|cbn; congruence|].
  - intros j k x y Hjk Hx Hy. rewrite Ev in Hx, Hy. apply lookup_app_Some in Hy as [Hy|[Hk Hy]].
    + apply (ro_later0 j k); try done. rewrite lookup_app_l in Hx; [done|]. apply lookup_lt_Some in Hy. lia.
    + assert (k = length (versions w) ∧ y = v) as [-> ->].
      { apply list_lookup_singleton_Some in Hy as [E ->]. split; [lia|done]. }
      rewrite lookup_app_l in Hx by lia.
      assert (versions w !! newest w = Some (rw_now w)) as Hn by apply committed_versions, committed_newest.
      assert (length (versions w) = S (newest w)) as El by (rewrite Ew; unfold committed; rewrite length_app; cbn; unfold newest; lia).
      destruct (decide (j = newest w)) as [->|Hne]; [congruence|].
      apply (later_trans _ (rw_now w)); [|done]. apply (ro_later0 j (newest w)); try done. lia.
  - intros t i p Hp. apply (thread_ok_evolves w); [done|by eapply ro_start0|done|by eapply ro_threads0].
Qed.

Lemma rworld_ok_commit w v :
  rworld_ok w → rw_update w = Some (mkUpdate v true true true) → rworld_ok (commit w v).
Proof.
  intros Hw Hu. set (w1 := commit w v).
  assert (versions w1 = versions w) as Ev by (unfold versions, committed; cbn; rewrite Hu; by rewrite app_nil_r).
  assert (rw_locked w = false) as Hl.
  { destruct (rw_locked w) eqn:E; [|done]. by rewrite (ro_excl _ Hw E) in Hu. }
  assert (newest w1 = S (newest w)) as En by (unfold newest; cbn; rewrite length_app; cbn; lia).
  assert (∀ x u, committed w !! x = Some u → committed w1 !! x = Some u) as Hc.
  { intros x u Hx. unfold committed in *. cbn. by apply lookup_app_l_Some. }
  assert (∀ t i p, rw_threads w !! t = Some (mkThread i p) → holds_flock p = false) as Hno.
  { intros t i p Hp. destruct (holds_flock p) eqn:E; [|done]. by rewrite (ro_flock _ Hw _ _ _ Hp E) in Hl. }
  assert (evolves w w1) as He by (split; try done; [by rewrite Ev|lia|by left|by left]).
  pose proof Hw as []. split; try done.
  - by rewrite Ev.
  - intros t i p Hp. rewrite En. pose proof (ro_start0 _ _ _ Hp). lia.
  - destruct ro_snap0 as (sn&x&?&Hx&?). exists sn, x. split_and!; try done. by apply Hc.
  - destruct ro_words0 as [(t&i&p&Hp&Hpub&_)|(x&Hx&Hrest)]; [|right; exists x; split; [by apply Hc|done]].
    pose proof (Hno _ _ _ Hp) as Hf. by rewrite (publishing_flock _ Hpub) in Hf.
  - intros t i p Hp. apply (thread_ok_evolves w); [done|by eapply ro_start0| |by eapply ro_threads0].
    intros Hf. by rewrite (Hno _ _ _ Hp) in Hf.
Qed.

Lemma rstep_ok w w' : rstep w w' → rworld_ok w → rworld_ok w'.
Proof.
  intros [t Ht|t i p p' w1 Hp Hs|v Hu Hl Hv|v c a q Hu|v c a q Hu|v c a q Hu|v Hu] Hw.
  - by apply rworld_ok_begin.
  - by eapply gstep_ok.
  - by apply rworld_ok_write.
  - by eapply rworld_ok_update.
  - by eapply rworld_ok_update.
  - by eapply rworld_ok_update.
  - by apply rworld_ok_commit.
Qed.

(** A Reader that was just opened. *)
Record rworld_new (w : rworld) : Prop := {
  rn_past : rw_past w = [];
  rn_update : rw_update w = None;
  rn_locked : rw_locked w = false;
  rn_mu : rw_mu w = None;
  rn_threads : rw_threads w = ∅;
  rn_from : rw_from w = 0%nat;
  rn_snap : ∃ sn, rd_snap (rw_rdr w) = Some sn ∧ built (rd_dec (rw_rdr w)) (rw_now w) = Ok sn;
  rn_actual : rd_loadedActual (rw_rdr w) = mi_actualSize (vn_meta (rw_now w));
  rn_seq : rd_loadedSeq (rw_rdr w) = mi_sequence (vn_meta (rw_now w));
}.

Lemma rworld_new_ok w : rworld_new w → rworld_ok w.
Proof.
  intros [Hp Hu Hl Hm Ht Hf (sn&Hsn&Hb) Ha Hq].
  assert (∀ t th, rw_threads w !! t = Some th → False) as Hno by (intros t th; rewrite Ht; done).
  assert (committed w !! rw_from w = Some (rw_now w)) as Hc by (unfold committed; by rewrite Hp, Hf).
  assert (versions w = [rw_now w]) as Ev by (unfold versions, committed; by rewrite Hp, Hu).
  split; try (intros t i p Hth; by destruct (Hno _ _ Hth)).
  - intros j k v v' Hjk Hj Hk. rewrite Ev in Hk. apply list_lookup_singleton_Some in Hk as [-> _]. lia.
  - done.
  - by exists sn, (rw_now w).
  - right. by exists (rw_now w).
Qed.

Lemma rsteps_ok w w' : rsteps w w' → rworld_ok w → rworld_ok w'.
Proof. induction 1 as [|w w1 w2 Hs _ IH]; [done|]. intros Hw. apply IH. by eapply rstep_ok. Qed.

(** ** What a read returns *)

Definition versionOf (m : MMKV) : version := mkVersion (info m) (mf_file (data m)).

(** The snapshot of a version that a store left is the map of that store. *)
Lemma built_store `{Platform} dec m b sn :
  store_ok m b → settled m → dec = Decrypt <$> crypt m → built dec (versionOf m) = Ok sn → sn_m sn = b.
Proof.
  intros Hs Hse -> Hb. unfold built in Hb. destruct (_ <? _); [done|].
  destruct (store_snapshot m b (info m) Hs (settled_published m b Hs Hse)) as (sn'&Hsn&Hm&_).
  cbn [versionOf vn_meta vn_data] in Hb. congruence.
Qed.

(** What one process writes under its lock, in WithMultiProcess mode, is a later
    version of the files, unless it changes nothing. *)
Lemma advances_later m m' :
  advances m m' → settled m → multiProcess m = true → meta_wf (info m) → mi_sequence (info m) + 1 < 2 ^ 32 →
  later (versionOf m) (versionOf m') ∨ versionOf m' = versionOf m.
Proof.
  intros Ha Hs Hm Hw Hq. pose proof (wf_sequence _ Hw) as Hu. unfold is_u32 in Hu.
  destruct Ha as [Ei Ed _ _ _|c a _ Ei Hlt _|_ Ei|_ Hno]; [right|left|left|congruence].
  - unfold versionOf. by rewrite Ei, Ed.
  - right. cbn [versionOf vn_meta]. rewrite Ei. split; [done|]. cbn. by rewrite (se_actual _ Hs).
  - left. cbn [versionOf vn_meta]. rewrite Ei, u32_small by (unfold is_u32; lia). lia.
Qed.

(** The steps a goroutine has left: a read takes at most nineteen of its own. *)
Definition rank (p : pc) : nat :=
  match p with
  | P_crc false => 25 | P_actual false _ => 24 | P_seq false _ _ => 23
  | P_lcrc false _ _ _ => 22 | P_lactual false _ _ => 21 | P_lseq false _ _ => 20
  | P_lock => 19
  | P_crc true => 18 | P_actual true _ => 17 | P_seq true _ _ => 16
  | P_lcrc true _ _ _ => 15 | P_lactual true _ _ => 14 | P_lseq true _ _ => 13
  | P_flock => 11 | P_build => 10 | P_snap _ => 9 | P_scrc _ => 8 | P_sactual _ => 7 | P_sseq _ => 6
  | P_funlock _ => 4 | P_err _ => 3 | P_unlock _ => 2 | P_load _ => 1 | P_done _ _ => 0
  end.

Lemma gstep_rank t w p p' w' : gstep t w p p' w' → (rank p' < rank p)%nat.
Proof.
  intros [x|x c|x c a|x c a k|x a k|x a k| | | | | | | | | |[]| | |]; try destruct x;
    try (case_match); cbn; lia.
Qed.

(** ** Playing the steps *)

(** The next step of a goroutine that meets no failure. *)
Definition gnext (t : nat) (w : rworld) (p : pc) : option (pc * rworld) :=
  match p with
  | P_crc x => Some (P_actual x (word w ud_crc mi_crcDigest), w)
  | P_actual x c => Some (P_seq x c (word w ud_actual mi_actualSize), w)
  | P_seq x c a => Some (P_lcrc x c a (word w ud_seq mi_sequence), w)
  | P_lcrc x c a q => Some (if c =? rd_loadedCRC (rw_rdr w) then P_lactual x a q else changed x, w)
  | P_lactual x a q => Some (if a =? rd_loadedActual (rw_rdr w) then P_lseq x a q else changed x, w)
  | P_lseq x a q => Some (if q =? rd_loadedSeq (rw_rdr w) then unchanged x else changed x, w)
  | P_lock => match rw_mu w with None => Some (P_crc true, set_mu (Some t) w) | Some _ => None end
  | P_flock => match rw_update w with None => Some (P_build, set_locked true w) | Some _ => None end
  | P_build =>
      match built (rd_dec (rw_rdr w)) (rw_now w) with
      | Ok sn => Some (P_snap sn, w)
      | Err e => Some (P_funlock (Some e), w)
      | _ => None
      end
  | P_snap sn => Some (P_scrc sn, set_from (newest w) (set_reader (store_snap sn (rw_rdr w)) w))
  | P_scrc sn => Some (P_sactual sn, set_reader (store_crc (mi_crcDigest (sn_meta sn)) (rw_rdr w)) w)
  | P_sactual sn => Some (P_sseq sn, set_reader (store_actual (mi_actualSize (sn_meta sn)) (rw_rdr w)) w)
  | P_sseq sn => Some (P_funlock None, set_reader (store_seq (mi_sequence (sn_meta sn)) (rw_rdr w)) w)
  | P_funlock r => Some (match r with None => P_unlock None | Some e => P_err e end, set_locked false w)
  | P_err e => Some (P_unlock (Some e), set_reader (set_rd_lastErr e (rw_rdr w)) w)
  | P_unlock r => Some (P_load r, set_mu None w)
  | P_load r => match rd_snap (rw_rdr w) with Some sn => Some (P_done sn r, w) | None => None end
  | P_done _ _ => None
  end.

Lemma gnext_gstep t w p p' w' : gnext t w p = Some (p', w') → gstep t w p p' w'.
Proof.
  destruct p; cbn [gnext]; try (intros [= <- <-]; by constructor).
  - destruct (rw_mu w) eqn:E; [done|]. intros [= <- <-]. by constructor.
  - destruct (rw_update w) eqn:E; [done|]. intros [= <- <-]. by constructor.
  - destruct (built _ _) eqn:E; try done; intros [= <- <-]; [by constructor|by apply g_build_fails].
  - destruct (rd_snap _) eqn:E; [|done]. intros [= <- <-]. by constructor.
Qed.

(** A goroutine that does not go on waits for the one that holds reloadMu, or for
    the writer. *)
Lemma gnext_enabled w t i p :
  rworld_ok w → dec_total (rd_dec (rw_rdr w)) → meta_wf (vn_meta (rw_now w)) → len (vn_data (rw_now w)) < 2 ^ 32 →
  rw_threads w !! t = Some (mkThread i p) →
  is_Some (gnext t w p) ∨ (p = P_lock ∧ rw_mu w ≠ None) ∨ (p = P_flock ∧ rw_update w ≠ None)
  ∨ ∃ sn r, p = P_done sn r.
Proof.
  intros Hw Hd Hm Hl Hp. destruct p; cbn [gnext]; try (left; by eexists).
  - destruct (rw_mu w); [by right; left|by left; eexists].
  - destruct (rw_update w); [by right; right; left|by left; eexists].
  - left. assert (returns (built (rd_dec (rw_rdr w)) (rw_now w))) as Hr.
    { unfold built. destruct (_ <? _); [done|]. by apply snapshotOf_returns. }
    destruct (built _ _); try done; by eexists.
  - left. destruct (ro_snap _ Hw) as (sn&v&->&_). by eexists.
  - right; right; right. eauto.
Qed.

(** A schedule: a goroutine begins a read, or goes on; the writer begins, shows
    its words, and commits. *)
Inductive play := Begin (t : nat) | Go (t : nat) | WBegin (v : version) | WCrc | WActual | WSeq | WCommit.

#[global] Instance later_dec v v' : Decision (later v v').
Proof. unfold later. apply _. Defined.

Definition plays (a : play) (w : rworld) : option rworld :=
  match a with
  | Begin t => if between_reads w t then Some (goto t (newest w) (P_crc false) w) else None
  | Go t =>
      th ← rw_threads w !! t;
      r ← gnext t w (th_pc th);
      Some (goto t (th_start th) r.1 r.2)
  | WBegin v =>
      match rw_update w with
      | Some _ => None
      | None =>
          if rw_locked w then None
          else if decide (later (rw_now w) v) then Some (set_update (Some (mkUpdate v false false false)) w) else None
      end
  | WCrc => u ← rw_update w; Some (set_update (Some (mkUpdate (ud_next u) true (ud_actual u) (ud_seq u))) w)
  | WActual => u ← rw_update w; Some (set_update (Some (mkUpdate (ud_next u) (ud_crc u) true (ud_seq u))) w)
  | WSeq => u ← rw_update w; Some (set_update (Some (mkUpdate (ud_next u) (ud_crc u) (ud_actual u) true)) w)
  | WCommit =>
      u ← rw_update w;
      if ud_crc u && ud_actual u && ud_seq u then Some (commit w (ud_next u)) else None
  end.

Fixpoint playAll (l : list play) (w : rworld) : option rworld :=
  match l with
  | [] => Some w
  | a :: l => plays a w ≫= playAll l
  end.

Lemma plays_rstep a w w' : plays a w = Some w' → rstep w w'.
Proof.
  destruct a as [t|t|v| | | |]; cbn [plays].
  - destruct (between_reads w t) eqn:E; [|done]. intros [= <-]. by constructor.
  - destruct (rw_threads w !! t) as [[i p]|] eqn:E; [|done]. cbn [mbind option_bind th_pc th_start].
    destruct (gnext t w p) as [[p' w1]|] eqn:En; [|done]. intros [= <-].
    by eapply r_go, gnext_gstep.
  - destruct (rw_update w) eqn:E; [done|]. destruct (rw_locked w) eqn:El; [done|].
    case_decide; [|done]. intros [= <-]. by constructor.
  - destruct (rw_update w) as [[v c a q]|] eqn:E; [|done]. intros [= <-]. by eapply w_crc.
  - destruct (rw_update w) as [[v c a q]|] eqn:E; [|done]. intros [= <-]. by eapply w_actual.
  - destruct (rw_update w) as [[v c a q]|] eqn:E; [|done]. intros [= <-]. by eapply w_seq.
  - destruct (rw_update w) as [[v [] [] []]|] eqn:E; try done. intros [= <-]. by constructor.
Qed.

Lemma playAll_rsteps l w w' : playAll l w = Some w' → rsteps w w'.
Proof.
  revert w. induction l as [|a l IH]; intros w; cbn [playAll]; [by intros [= <-]|].
  destruct (plays a w) as [w1|] eqn:E; [|done]. cbn [mbind option_bind]. intros Hl.
  eapply rtc_l; [by eapply plays_rstep|by apply IH].
Qed.

(** ** A goroutine alone *)

(** The steps of a goroutine that nobody interrupts. *)
Fixpoint alone (n : nat) (t : nat) (w : rworld) (p : pc) : pc * rworld :=
  match n with
  | O => (p, w)
  | S n => match gnext t w p with Some (p', w') => alone n t w' p' | None => (p, w) end
  end.

(** A probe is the comparison of the tuple. *)
Lemma alone_probe n t w x :
  (6 ≤ n)%nat →
  ∃ n', (n - 6 ≤ n')%nat ∧ alone n t w (P_crc x)
    = alone n' t w (if tupleFresh (rw_rdr w) (word w ud_crc mi_crcDigest, word w ud_actual mi_actualSize, word w ud_seq mi_sequence)
                    then unchanged x else changed x).
Proof.
  intros Hn. do 6 (destruct n as [|n]; [lia|]). unfold tupleFresh. cbn [fst snd].
  cbn [alone gnext]. destruct (word w ud_crc mi_crcDigest =? _); cbn [andb alone gnext].
  2: { exists (S (S n)). split; [lia|]. by destruct x. }
  destruct (word w ud_actual mi_actualSize =? _); cbn [andb alone gnext].
  2: { exists (S n). split; [lia|]. by destruct x. }
  exists n. split; [lia|]. done.
Qed.

Lemma alone_done n t w sn r : alone n t w (P_done sn r) = (P_done sn r, w).
Proof. by destruct n. Qed.

Lemma alone_step n t w p p' w' : gnext t w p = Some (p', w') → alone (S n) t w p = alone n t w' p'.
Proof. intros Hg. cbn [alone]. by rewrite Hg. Qed.

Lemma alone_lock n t w : rw_mu w = None → alone (S n) t w P_lock = alone n t (set_mu (Some t) w) (P_crc true).
Proof. intros Hm. cbn [alone gnext]. by rewrite Hm. Qed.

(** Alone, the steps are [current]. *)
Lemma alone_current s m live w t sn0 :
  views s m → parseMeta (mf_file (meta m)) = Ok live → mi_version live ≤ maxSupportedVersion →
  rd_snap (rdr s) = Some sn0 → returns (snapshotOf (Decrypt <$> crypt m) live (mf_file (data m))) →
  rw_update w = None → rw_mu w = None → rw_rdr w = rdr s → rw_now w = mkVersion live (mf_file (data m)) →
  ∃ sn r s' w', current s = (Ok sn, s') ∧ alone 25 t w (P_crc false) = (P_done sn r, w')
    ∧ rw_rdr w' = rdr s' ∧ rw_mu w' = None.
Proof.
  intros Hv Hp Hver Hsn Hret Hu Hmu Hr Hnow.
  assert (∀ flag f, word w flag f = f live) as Hw by (intros flag f; unfold word; by rewrite Hu, Hnow).
  destruct (alone_probe 25 t w false) as (n&Hn&->); [lia|]. rewrite !Hw, Hr.
  destruct n as [|n]; [lia|].
  destruct (tupleFresh (rdr s) (mi_crcDigest live, mi_actualSize live, mi_sequence live)) eqn:Hf.
  { exists sn0, None, s, w. split; [by eapply current_stable|]. split; [|done].
    cbn [unchanged alone gnext]. rewrite Hr, Hsn. apply alone_done. }
  cbn [changed]. rewrite alone_lock by done. set (w1 := set_mu (Some t) w).
  destruct (alone_probe n t w1 true) as (n1&Hn1&->); [lia|].
  change (word w1 ud_crc mi_crcDigest) with (word w ud_crc mi_crcDigest).
  change (word w1 ud_actual mi_actualSize) with (word w ud_actual mi_actualSize).
  change (word w1 ud_seq mi_sequence) with (word w ud_seq mi_sequence).
  change (rw_rdr w1) with (rw_rdr w). rewrite !Hw, Hr, Hf. do 9 (destruct n1 as [|n1]; [lia|]).
  assert (built (rd_dec (rw_rdr w)) (rw_now w) = snapshotOf (Decrypt <$> crypt m) live (mf_file (data m))) as Hb.
  { unfold built. rewrite Hnow, Hr, (vw_dec _ _ Hv). cbn [vn_meta vn_data]. by bfalse. }
  pose proof (reloadLocked_spec s m live Hv Hp Hver) as Hrl. cbv zeta in Hrl.
  rewrite (current_changed s m live Hv Hp Hf).
  cbn [changed].
  erewrite alone_step by (cbn [gnext]; change (rw_update w1) with (rw_update w); rewrite Hu; reflexivity).
  destruct (snapshotOf (Decrypt <$> crypt m) live (mf_file (data m))) as [sn|e| |] eqn:Hs; try done.
  - pose proof (snapshotOf_meta _ _ _ _ Hs) as Hme.
    erewrite alone_step by (cbn [gnext]; change (built _ _) with (built (rd_dec (rw_rdr w)) (rw_now w)); rewrite Hb; reflexivity).
    do 6 (erewrite alone_step by reflexivity). erewrite alone_step by reflexivity.
    eexists sn, None, _, _. split; [|split; [apply alone_done|]].
    { erewrite bind_ok by (unfold reloadRecording; rewrite Hrl; reflexivity).
      erewrite bind_ok by reflexivity. reflexivity. }
    cbn. by rewrite Hr.
  - erewrite alone_step by (cbn [gnext]; change (built _ _) with (built (rd_dec (rw_rdr w)) (rw_now w)); rewrite Hb; reflexivity).
    do 3 (erewrite alone_step by reflexivity).
    erewrite alone_step by (cbn; rewrite Hr, Hsn; reflexivity).
    eexists sn0, (Some e), _, _. split; [|split; [apply alone_done|]].
    { erewrite bind_ok by (unfold reloadRecording; rewrite Hrl; reflexivity).
      erewrite bind_ok by reflexivity. unfold lift. cbn. rewrite Hsn. reflexivity. }
    done.
Qed.
