(* ===== verification/Samples.v ===== *)
(** * Concrete stores

    Small stores on a platform with small pages, opened and written by the model,
    at which the theorems are instantiated. *)

From S2P Require Import Prelude GoInt Wire Crc32 Meta Dict Crypt MemFile Flock Store StoreOps.
From S2P Require Import StoreInv StoreWrite StoreRun Handlers Open Recovery Api ApiSpec Refine.

#[global] Instance p128 : Platform := { pagesize := 128; pagesize_ge := ltac:(lia) }.

(** A closed arithmetic or boolean fact, by computation. *)
Ltac calc :=
  repeat match goal with |- _ ∧ _ => split end;
  vm_compute; first [reflexivity | discriminate | repeat split; (reflexivity || discriminate)].

Definition env0 : sys := mkSys [] 1000 [] Unheld 0.
Definition kA : gostring := [Byte.x61].
Definition kB : gostring := [Byte.x62].
Definition vA : bytes := uint32Blob 300.
Definition vB : bytes := stringBlob [Byte.x68; Byte.x69].
Definition secret : bytes := [Byte.x6b; Byte.x65; Byte.x79].

(** The instances MMKVWithID makes: plaintext, encrypted, multi-process, and
    with recovery. *)
Definition inst (multi : bool) (cryptKey : bytes) (handler recov : bool) : MMKV :=
  newMMKV [] [] [] multi false cryptKey handler recov.

(** A fresh plaintext store, and one with a key. *)
Definition demo0 : St := (open None None (mkSt (inst false [] false false) env0)).2.
Definition demo1 : St := (setValue kA vA demo0).2.

(** A fresh encrypted multi-process store. *)
Definition demoE : St := (open None None (mkSt (inst true secret true false) env0)).2.
Definition demoE1 : St := (setValue kA vA demoE).2.

Lemma inst_new multi cryptKey handler recov : brand_new (inst multi cryptKey handler recov).
Proof. apply newMMKV_brand_new. Qed.

Lemma fresh_represents m0 :
  brand_new m0 → dict m0 = ∅ →
  represents (open None None (mkSt m0 env0)).2 (mkModel ∅ None).
Proof.
  intros Hn Hd. destruct (open_fresh m0 env0 Hn Hd) as (s'&Ho&Hr&Hx&Hi&_); [done..|].
  rewrite (opened_open _ _ _ _ _ Ho). cbn [snd]. split; try done.
  by rewrite Hx, Hi.
Qed.

Lemma demo0_represents : represents demo0 (mkModel ∅ None).
Proof. apply fresh_represents; [apply inst_new|done]. Qed.

Lemma demoE_represents : represents demoE (mkModel ∅ None).
Proof. apply fresh_represents; [apply inst_new|done]. Qed.

Lemma demo0_running : running demo0 ∅.
Proof. exact (rp_running _ _ demo0_represents). Qed.

Lemma demoE_running : running demoE ∅.
Proof. exact (rp_running _ _ demoE_represents). Qed.

Lemma demo0_can_set : can_set (st demo0) ∅ kA vA.
Proof. split; calc. Qed.

Lemma demoE_can_set : can_set (st demoE) ∅ kA vA.
Proof. split; calc. Qed.

(** A set on a store without expiration. *)
Lemma set_step s b k v :
  running s b → enableExpire (st s) = false → can_set (st s) b k v →
  setValue k v s = (Ok tt, (setValue k v s).2) ∧ running (setValue k v s).2 (<[k:=v]> b)
  ∧ same_config (st s) (st (setValue k v s).2).
Proof.
  intros Hr Hx Hc. assert (stored s v = v) as E by (unfold stored; by rewrite Hx).
  destruct (setValue_ok s b k v Hr) as (s'&Hs&Hr'&Hcfg&_); [by rewrite E|].
  rewrite Hs. cbn [snd]. by rewrite E in Hr'.
Qed.

Lemma demo1_running : running demo1 {[kA := vA]}.
Proof. apply (set_step demo0 ∅ kA vA); [apply demo0_running|calc|apply demo0_can_set]. Qed.

Lemma demoE1_running : running demoE1 {[kA := vA]}.
Proof. apply (set_step demoE ∅ kA vA); [apply demoE_running|calc|apply demoE_can_set]. Qed.

(** An expiring store, a comparing one and a closed one. *)
Definition demoX : St := (run (OEnableExpire 60) demo0).2.
Definition demoC : St := mkSt (set_compareBeforeSet true (st demo1)) (env demo1).
Definition demoClosed : St := mkSt (set_closed true (st demo1)) (env demo1).

Lemma demoX_represents : represents demoX (mkModel ∅ (Some 60)).
Proof.
  destruct (run_refines demo0 (mkModel ∅ None) (OEnableExpire 60) demo0_represents) as (s'&Hs&[Hr _ _ _]).
  { apply (admissible_allowed _ _ _ (actualSize (st demo0)) demo0_represents);
      [apply Z.le_refl|exact I|calc]. }
  unfold demoX. by rewrite Hs.
Qed.

Lemma running_compare s b x :
  running s b → running (mkSt (set_compareBeforeSet x (st s)) (env s)) b.
Proof. intros [Hs He Hl Hc Hr]. split; try done. by apply (store_ok_ext (st s)). Qed.

Lemma demoC_running : running demoC {[kA := vA]}.
Proof. apply running_compare, demo1_running. Qed.

Lemma demo1_settled : settled (st demo1).
Proof. split; calc. Qed.
Lemma demo1_confirmed : confirmed (st demo1).
Proof. split; calc. Qed.

Lemma demo1_packs : can_pack (st demo1) {[kA := vA]}.
Proof. split; calc. Qed.
