(* ===== verification/StoreTheorems.v ===== *)
(** * The theorems of the live store

    The store refines a map with expiry times; what it wrote it reads back, after
    a reopen, a crash, a corruption or the writes of another process. *)

From S2P Require Import Prelude GoInt Wire Crc32 Meta Dict Crypt MemFile Flock Store StoreOps.
From S2P Require Import StoreInv StoreWrite StoreRun Handlers Open Recovery Api ApiSpec Refine.
From S2P Require Import BackupSpec ProcessSpec SharedSpec FaultSpec Samples.

Section theorems.
Context `{Platform}.

(** C1. The store refines its specification: every feasible sequence of sets,
    removals, clears, trims, key changes and changes of the expiration policy, run
    on a store that represents a model (a map from keys to values with expiry
    times, and a policy), with no system call failing, returns without an error or
    a panic and leaves a store that represents the model the specification
    computes, whichever of the in-place, append and write-back paths each operation
    took.  Feasible sequences set no empty key and no empty value, call
    RemoveValueForKey only while the store has no key (C40 shows what it does to an
    encrypted store; RemoveValuesForKeys is free), and stay below 4 GiB: conditions
    that are computed from the operations, the model and the size to begin with. *)
Theorem store_refines_model os s d :
  represents s d → feasible (now (env s)) os d (actualSize (st s)) (encrypted (st s)) →
  ∃ s', exec os s = (Ok tt, s') ∧ represents s' (steps (now (env s)) os d).
Proof.
  intros Hr Hf. destruct (exec_refines os s d _ Hr (Z.le_refl _) Hf) as (s'&?&?&_). by exists s'.
Qed.

(** C2. Every typed getter answers from the model: it decodes the value the model
    holds for the key at the current time, never panics, and leaves a store that
    represents the same model. *)
Theorem get_answers_model {A} (c : codec A) set get `{!Accessors c set get} s d k :
  represents s d →
  ∃ o s', get k s = (Ok o, s') ∧ decodes (c_dec c) (ask (now (env s)) d k) = Ok o ∧ represents s' d.
Proof.
  intros Hr. destruct (getter_ok c set get s (repMap d) k (rp_running _ _ Hr)) as (o&s'&Hg&Ho&Hrun&Hcfg&_).
  exists o, s'. split; [done|]. split; [by rewrite <-(seen_repMap s d)|]. destruct d as [mp x].
  by apply (represents_config s s' (mkModel mp x)); [..|apply Hr|].
Qed.

(** A value set under a key is read back by the getter of its type: booleans,
    32- and 64-bit integers of either sign, floats, strings, byte slices and
    string slices, in plaintext and encrypted stores, with and without
    expiration, in single- and multi-process mode. *)
Theorem set_then_get {A} (c : codec A) set get `{!Accessors c set get} s b k v :
  running s b → c_ok c v → can_set (st s) b k (stored s (c_enc c v)) → unexpired s →
  ∃ s1 s2, set k v s = (Ok tt, s1) ∧ get k s1 = (Ok (Some v), s2).
Proof.
  intros Hr Hv Hc Hu. destruct (set_get_ok c set get s b k v Hr Hv Hc Hu) as (s1&s2&?&?&_). eauto.
Qed.

(** C6. Durability: opening the files of a running store again, under its key,
    gives a running store that stands for the same map. *)
Theorem reopen_keeps_map s b m0 e :
  running s b → brand_new m0 → crypt m0 = crypt (st s) → healthy e → held e = Unheld →
  ∃ s', open (Some (mf_file (data (st s)))) (Some (mf_file (meta (st s)))) (mkSt m0 e) = (Ok tt, s')
    ∧ running s' b.
Proof.
  intros Hr Hn Hk He Hh.
  destruct (reopen_ok (st s) b m0 e (ru_store _ _ Hr) Hn Hk He Hh) as (s'&Ho&?&_).
  exists s'. split; [by apply opened_open|done].
Qed.

(** C9. Crash consistency of the incremental writes: after a confirmed write-back,
    whatever bytes a crash leaves behind the confirmed region and whatever size
    and digest it leaves in the meta words, if those do not describe the file
    then opening it rolls back to the confirmed map. *)
Theorem torn_append_rolls_back s b f c a m0 e :
  running s b → settled (st s) → confirmed (st s) → is_u32 c → is_u32 a →
  length f = length (mf_file (data (st s))) →
  take (Z.to_nat (4 + actualSize (st s))) f
  = take (Z.to_nat (4 + actualSize (st s))) (mf_file (data (st s))) →
  acceptable (torn f c a (st s)) a c = Ok false →
  brand_new m0 → crypt m0 = crypt (st s) → healthy e → held e = Unheld →
  ∃ s', open (Some f) (Some (mf_file (metaWords (meta (st s)) c a))) (mkSt m0 e) = (Ok tt, s')
    ∧ running s' b.
Proof.
  intros Hr Hse Hco Hc Ha Hl Hp Hno Hn Hk He Hh. pose proof (ru_store _ _ Hr) as Hs.
  destruct (reopen_ok (torn f c a (st s)) b m0 e) as (s'&Ho&?&_); try done; [by apply torn_store|].
  exists s'. split; [by apply opened_open|done].
Qed.

(** C8. Failures are atomic: whichever system calls fail during a run of
    operations on a store that is not shared, the run ends or stops at an operation
    that returns a system call's error, never in a panic; and whoever opens the
    files then, under the key that goes with it, finds the model that the
    operations before the failed one made, or that one with the failed one
    included, as a whole.  The exception is a ClearAll of a region of more than a
    page, which cuts the data file before it writes the meta.  The operations are
    feasible, as in C1: no empty key or value is set, RemoveValueForKey is called
    only while the store has no key, and the sizes stay below 4 GiB. *)
Theorem failures_are_atomic os s d r s' :
  sole s d → feasible (now (env s)) os d (actualSize (st s)) (encrypted (st s)) → exec os s = (r, s') →
  (r = Ok tt ∨ refusal r)
  ∧ ∃ os1 os2 s1, os = os1 ++ os2 ∧ exec os1 s = (Ok tt, s1) ∧ (r = Ok tt → os2 = [])
    ∧ ((∃ n, (n ≤ 1)%nat ∧ finds (st s') (rekeys (os1 ++ take n os2) (crypt (st s)))
                              (steps (now (env s)) (os1 ++ take n os2) d))
       ∨ (head os2 = Some OClear ∧ pagesize < 4 + actualSize (st s1))).
Proof. apply run_finds. Qed.

(** C10. Recovery: an instance opened with WithRecoverOnError on files of the
    current version, neither of whose sizes and digests describes the data file,
    salvages the dictionary of the longest prefix of the plaintext that parses (no
    longer prefix does), and writes it back at once: when it fits the format, the
    instance is a running store of that map, and its meta describes it.  The
    plaintext is the data file's region of the recorded size, cut to the file, and
    decrypted under the instance's key. *)
Theorem corrupt_store_recovers m0 e dfile mfile mi :
  brand_new m0 → recover m0 = true → healthy e → held e = Unheld →
  pageRoundUp 0 ≤ len dfile < 2 ^ 32 → pageRoundUp (Z.of_nat metaSize) ≤ len mfile →
  parseMeta mfile = Ok mi → versionFlag ≤ mi_version mi ≤ maxSupportedVersion →
  (∀ m, mf_ok (data m) → mf_file (data m) = dfile →
    acceptable m (mi_actualSize mi) (mi_crcDigest mi) = Ok false
    ∧ acceptable m (mi_lastActualSize mi) (mi_lastCRCDigest mi) = Ok false) →
  ∃ m1 q vd, mf_file (data m1) = dfile ∧ info m1 = mi ∧ crypt m1 = crypt m0
    ∧ (q ≤ length (salvagePlain m1))%nat ∧ parseDict (take q (salvagePlain m1)) = Ok vd
    ∧ (∀ q', (q < q' ≤ length (salvagePlain m1))%nat → ¬ parses (take q' (salvagePlain m1)))
    ∧ (4 + len (packed (show (salvagePlain m1) vd)) < 2 ^ 32 →
       ∃ s', open (Some dfile) (Some mfile) (mkSt m0 e) = (Ok tt, s')
         ∧ running s' (show (salvagePlain m1) vd) ∧ settled (st s')).
Proof.
  intros. destruct (open_recovers m0 e dfile mfile mi) as (m1&?&?&?&Ho); try done.
  destruct (parseDictGreedy_longest (salvagePlain m1)) as (q&Hq&Hp&Hmax).
  exists m1, q, (parseDictGreedy (salvagePlain m1)). split_and!; try done.
  intros Hl. destruct (Ho Hl) as (s'&?&?&?&_). by exists s'.
Qed.

(** C14. Loading never panics, whatever bytes the two files hold: a mapped data
    file of at least four bytes and below 4 GiB, and any mapped meta file, give a
    dictionary or an error. *)
Theorem load_never_panics m :
  mf_ok (data m) → mf_ok (meta m) → 4 ≤ len (mf_file (data m)) < 2 ^ 32 → returns (loadData m).1.
Proof. apply loadData_total. Qed.

(** C15. A full write-back makes a consistent store of any readable dictionary,
    whatever the files held: the region is the packed dictionary, encrypted when
    there is a key, the digest and the last-confirmed point describe it, the
    sequence is bumped, and the file has room for the pair that triggered it. *)
Theorem write_back_rebuilds s b needSync incoming :
  packable (st s) b incoming → healthy (env s) →
  ∃ s', fullWritebackGrow needSync incoming s = (Ok tt, s')
    ∧ store_ok (st s') b ∧ decrypts (st s') (region (st s')) (packed b)
    ∧ confirmed (st s') ∧ mi_sequence (info (st s')) = u32 (mi_sequence (info (st s)) + 1)
    ∧ 4 + actualSize (st s') + incoming < len (mf_file (data (st s'))).
Proof.
  intros Hp He. destruct (fullWritebackGrow_ok s b needSync incoming Hp He) as (s'&?&Hps&_).
  exists s'. destruct Hps. by split_and!.
Qed.

(** Freshness: when another process has written the files, the check that
    precedes every operation loads what it wrote, remapping a file that was
    resized, and calls the content-changed handler exactly once. *)
Theorem foreign_write_is_seen s m2 live b :
  foreign s m2 live → store_ok m2 b →
  ∃ s', checkLoadData s = (Ok tt, s') ∧ store_ok (st s') b
    ∧ changes (env s') = (changes (env s) + if onContentChanged (st s) then 1 else 0)%nat.
Proof.
  intros Hf Hs. destruct (checkLoadData_foreign s m2 live b Hf Hs) as (m'&Hc&Hr).
  exists (mkSt m' (notified s)). split; [done|]. split; [apply Hr|]. unfold notified. cbn [env].
  destruct (onContentChanged (st s)); cbn; lia.
Qed.

(** C16. The fast paths agree with the full write-back: setting a pair through
    [setBlob], on whichever path it takes, and setting it by packing the whole
    dictionary leave stores of the same map.  The key and the value are not empty,
    and the result stays below 4 GiB. *)
Theorem fast_paths_agree s b k v needSync :
  store_ok (st s) b → can_set (st s) b k v → healthy (env s) →
  ∃ s1 s2 b', setBlob k v s = (Ok tt, s1)
    ∧ (_ ← upd (fun m => set_dict (<[k:=Heap v]> (dict m)) m);
       fullWritebackGrow needSync (len (pair_bytes (k, v)))) s = (Ok tt, s2)
    ∧ store_ok (st s1) b' ∧ store_ok (st s2) b' ∧ b' = <[k:=v]> b.
Proof.
  intros Hs Hc He. destruct (setBlob_ok s b k v Hs Hc He) as (s1&?&?&_). destruct s as [m e].
  destruct (setBlob_pack m e b k v needSync Hs Hc He) as (s2&?&?&_). by exists s1, s2, (<[k:=v]> b).
Qed.

(** ReKey writes everything again under the new key, or in plaintext when it
    is empty: the store stands for the same map, and its region decrypts under
    the new key. *)
Theorem rekey_keeps_map s b newKey :
  running s b → can_pack (st s) b →
  ∃ s' plain vd, ReKey newKey s = (Ok tt, s') ∧ running s' b ∧ crypt (st s') = newCrypt newKey
    ∧ decrypts (st s') (region (st s')) plain ∧ parseDict plain = Ok vd ∧ show plain vd = b.
Proof.
  intros Hr Hp. destruct (ReKey_ok s b newKey Hr Hp) as (s'&?&Hr'&?&_).
  destruct (so_plain _ _ (ru_store _ _ Hr')) as (plain&vd&?&?&?). by exists s', plain, vd.
Qed.

(** C23. Trim keeps the map and leaves a file of at most twice the live size,
    rounded up to whole pages. *)
Theorem trim_shrinks s b :
  running s b → can_pack (st s) b →
  ∃ s', Trim s = (Ok tt, s') ∧ running s' b
    ∧ len (mf_file (data (st s'))) ≤ pageRoundUp ((actualSize (st s') + 4) * 2).
Proof. intros Hr Hp. destruct (Trim_ok s b Hr Hp) as (s'&?&?&_&_&?&_). by exists s'. Qed.

(** ClearAll empties the store and gives back all but one page of the file. *)
Theorem clear_empties s b :
  running s b → enableExpire (st s) = expireEnabled (info (st s)) →
  ∃ s', ClearAll s = (Ok tt, s') ∧ running s' ∅ ∧ actualSize (st s') = 0
    ∧ len (mf_file (data (st s'))) = pagesize.
Proof. intros Hr Hx. destruct (ClearAll_ok s b Hr Hx) as (s'&?&?&_&_&?&?&_). by exists s'. Qed.

(** A key removed from a plaintext store is absent for every later getter, and
    the map has no other change. *)
Theorem removed_key_is_absent {A} (c : codec A) set get `{!Accessors c set get} s b k :
  running s b → can_remove (st s) b k →
  ∃ s1 s2, RemoveValueForKey k s = (Ok tt, s1) ∧ running s1 (delete k b) ∧ get k s1 = (Ok None, s2).
Proof.
  intros Hr Hc. destruct (RemoveValueForKey_ok s b k Hr Hc) as (s1&?&Hr1&_).
  destruct (getter_ok c set get s1 (delete k b) k Hr1) as (o&s2&Hg&Ho&_).
  exists s1, s2. split; [done|]. split; [done|]. rewrite Hg. unfold seen in Ho.
  rewrite lookup_omap, lookup_delete_eq in Ho. by injection Ho as <-.
Qed.

(** C21. With expiration on, a value is read until its lifetime is over and not
    after: set with the setter of its type at [t0], under a lifetime of [n]
    seconds, the getter of the type finds it at [t] exactly when [t < t0 + n], and
    Contains says the same; a lifetime of 0 never ends.  The set is one that the
    format can carry, and [t0 + n] is a uint32. *)
Theorem value_expires_on_time {A} (c : codec A) set get `{!Accessors c set get} s d k a n :
  represents s d → c_ok c a → allowed s d (OSet k (c_enc c a)) → md_expire d = Some n →
  0 ≤ now (env s) → 0 ≤ n → now (env s) + n < 2 ^ 32 →
  ∃ s1, set k a s = (Ok tt, s1) ∧ ∀ t,
    let alive := (n =? 0) || (t <? now (env s) + n) in
    (∃ s2, get k (at_time t s1) = (Ok (if alive then Some a else None), s2))
    ∧ ∃ s2, Contains k (at_time t s1) = (Ok alive, s2).
Proof.
  intros Hr Hc Ha Hx H0 Hn Hw. destruct (set_refines s d k (c_enc c a) Hr Ha) as (s1&Hs&[Hr1 _ _ _]).
  exists s1. split; [by rewrite acc_set|]. intros t alive.
  pose proof (represents_at t _ _ Hr1) as Hr2.
  pose proof (ask_set (now (env s)) t k (c_enc c a) d n Hx H0 Hn Hw) as Hask. fold alive in Hask.
  pose proof (seen_repMap (at_time t s1) _ k Hr2) as Hseen. change (now (env (at_time t s1))) with t in Hseen.
  rewrite Hask in Hseen. split.
  - destruct (getter_ok c set get (at_time t s1) _ k (rp_running _ _ Hr2)) as (o&s2&Hg&Ho&_).
    exists s2. rewrite Hg. do 2 f_equal. rewrite Hseen in Ho. destruct alive; cbn [decodes] in Ho; [|congruence].
    rewrite (decode_codec c) in Ho by done. congruence.
  - destruct (Contains_ok (at_time t s1) _ k (rp_running _ _ Hr2)) as (s2&Hg&_). exists s2. rewrite Hg.
    do 2 f_equal. destruct alive; [apply bool_decide_eq_true_2|apply bool_decide_eq_false_2];
      unfold shown; rewrite Hseen; [by eexists|by intros []].
Qed.

(** A closed store refuses every operation with ErrClosed, and a read-only one
    with ErrReadOnly; memory, files and lock stay exactly as they were. *)
Theorem refused_operation_changes_nothing o s err :
  lock_ok (fl (st s), env s) → healthy (env s) →
  (closed (st s) = true ∧ err = ErrClosed)
  ∨ (closed (st s) = false ∧ readOnly (st s) = true ∧ err = ErrReadOnly) →
  run o s = (Err err, s).
Proof. intros Hl He Hc. destruct o; by apply writing_refuses. Qed.

(** With compare-before-set on, setting the value a key already has writes
    nothing: the state of the instance and of both files is the same. *)
Theorem same_value_is_not_written s b k blob :
  running s b → multiProcess (st s) = false → compareBeforeSet (st s) = true →
  enableExpire (st s) = false → b !! k = Some blob → setValue k blob s = (Ok tt, s).
Proof. apply setValue_same. Qed.

(** A store opened without files is empty, unencrypted stores and encrypted
    ones alike, and ready for every operation. *)
Theorem fresh_store_is_empty m0 e :
  brand_new m0 → dict m0 = ∅ → healthy e → held e = Unheld →
  ∃ s', open None None (mkSt m0 e) = (Ok tt, s') ∧ represents s' (mkModel ∅ None).
Proof.
  intros Hn Hd He Hh. destruct (open_fresh m0 e Hn Hd He Hh) as (s'&Ho&Hr&Hx&Hi&_).
  exists s'. split; [by apply opened_open|]. split; try done. by rewrite Hx, Hi.
Qed.

(** C22. AllKeys lists, in byte order and without repetition, exactly the keys the
    model has a live value for; Count is their number and Contains membership. *)
Theorem listing_matches_model s d :
  represents s d →
  ∃ ks s1 s2, AllKeys s = (Ok ks, s1) ∧ Count s = (Ok (len ks), s2)
    ∧ Sorted bytes_le ks ∧ NoDup ks ∧ (∀ k, k ∈ ks ↔ is_Some (ask (now (env s)) d k))
    ∧ ∀ k, ∃ s3, Contains k s = (Ok (bool_decide (k ∈ ks)), s3).
Proof.
  intros Hr. destruct (listing_ok s (repMap d) (rp_running _ _ Hr)) as (ks&s1&s2&?&?&?&?&Hin&?).
  exists ks, s1, s2. split_and!; [done..| |done]. intros k. rewrite <-(seen_repMap s d k Hr). apply Hin.
Qed.

End theorems.

(** ** Instances *)

Definition demo_ops : list op :=
  [OSet kA vA; OSet kB vB; OSet kB vA; ORemove kA; OEnableExpire 60; OSet kA vB; OTrim; ODisableExpire;
   OReKey []; ORemoveMany [kA; kB]; OClear].

Lemma store_refines_model_witness :
  ∃ s', exec demo_ops demo0 = (Ok tt, s')
    ∧ represents s' (steps (now (env demo0)) demo_ops (mkModel ∅ None)).
Proof.
  apply (store_refines_model demo_ops demo0 (mkModel ∅ None) demo0_represents).
  apply (bool_decide_unpack _). vm_compute. exact I.
Defined.

Lemma get_answers_model_witness :
  ∃ o s', GetUInt32 kA demo0 = (Ok o, s')
    ∧ decodes (c_dec uint32_codec) (ask (now (env demo0)) (mkModel ∅ None) kA) = Ok o
    ∧ represents s' (mkModel ∅ None).
Proof. apply (get_answers_model uint32_codec SetUInt32 GetUInt32). exact demo0_represents. Defined.

Lemma set_then_get_witness :
  ∃ s1 s2, SetInt32 kB (-5) demo1 = (Ok tt, s1) ∧ GetInt32 kB s1 = (Ok (Some (-5)), s2).
Proof.
  apply (set_then_get int32_codec SetInt32 GetInt32 demo1 {[kA := vA]}).
  - exact demo1_running.
  - calc.
  - apply (bool_decide_unpack _). vm_compute. exact I.
  - intros Hx. vm_compute in Hx. discriminate.
Defined.

Lemma reopen_keeps_map_witness :
  ∃ s', open (Some (mf_file (data (st demo1)))) (Some (mf_file (meta (st demo1))))
      (mkSt (inst false [] false false) env0) = (Ok tt, s')
    ∧ running s' {[kA := vA]}.
Proof.
  apply (reopen_keeps_map demo1 {[kA := vA]} (inst false [] false false) env0);
    [exact demo1_running|apply inst_new|calc..].
Defined.

(** A crash tore the append of two bytes: the bytes and the words of the meta
    file do not agree. *)
Definition tornFile : bytes := splice (mf_file (data (st demo1))) (Z.to_nat (4 + actualSize (st demo1)))
  [Byte.x01; Byte.x62].

Lemma torn_append_rolls_back_witness :
  ∃ s', open (Some tornFile) (Some (mf_file (metaWords (meta (st demo1)) 77 (actualSize (st demo1) + 5))))
      (mkSt (inst false [] false false) env0) = (Ok tt, s')
    ∧ running s' {[kA := vA]}.
Proof.
  apply (torn_append_rolls_back demo1 {[kA := vA]} tornFile 77 (actualSize (st demo1) + 5)
    (inst false [] false false) env0);
    [exact demo1_running|exact demo1_settled|exact demo1_confirmed|calc..|apply inst_new|calc|calc|calc].
Defined.

(** Two sets, and a ReKey whose second msync fails: the files are written under
    the new key already. *)
Definition failing0 : St := mkSt (st demo0) (set_faults [None; None; Some 5] (env demo0)).
Definition failing_ops : list op := [OSet kA vA; OSet kB vB; OReKey secret; OTrim].

Lemma failing0_sole : sole failing0 (mkModel ∅ None).
Proof.
  split; [|split; [split|]; calc|calc].
  apply (represents_env (st demo0) (env demo0)); [exact demo0_represents|done|done].
Qed.

Lemma failures_are_atomic_witness :
  (exec failing_ops failing0).1 = Err (ErrSys 5)
  ∧ ∃ os1 os2 s1, failing_ops = os1 ++ os2 ∧ exec os1 failing0 = (Ok tt, s1)
    ∧ ((∃ n, (n ≤ 1)%nat ∧ finds (st (exec failing_ops failing0).2) (rekeys (os1 ++ take n os2) (crypt (st failing0)))
                              (steps (now (env failing0)) (os1 ++ take n os2) (mkModel ∅ None)))
       ∨ (head os2 = Some OClear ∧ pagesize < 4 + actualSize (st s1))).
Proof.
  split; [calc|].
  destruct (failures_are_atomic failing_ops failing0 (mkModel ∅ None) _ _ failing0_sole
    ltac:(apply (bool_decide_unpack _); vm_compute; exact I) (surjective_pairing _)) as [_ (os1&os2&s1&?&?&_&?)].
  by exists os1, os2, s1.
Defined.

(** Both pairs of size and digest in the meta file are wrong. *)
Definition badMeta : metaInfo := mkMeta 7 4 1 (zeros 16) (actualSize (st demo1)) 9 9 0.

Lemma corrupt_store_recovers_witness :
  ∃ m1 q vd, mf_file (data m1) = mf_file (data (st demo1)) ∧ info m1 = badMeta ∧ crypt m1 = None
    ∧ (q ≤ length (salvagePlain m1))%nat ∧ parseDict (take q (salvagePlain m1)) = Ok vd
    ∧ (∀ q', (q < q' ≤ length (salvagePlain m1))%nat → ¬ parses (take q' (salvagePlain m1)))
    ∧ (4 + len (packed (show (salvagePlain m1) vd)) < 2 ^ 32 →
       ∃ s', open (Some (mf_file (data (st demo1)))) (Some (marshal badMeta ++ zeros 3984))
           (mkSt (inst true [] false true) env0) = (Ok tt, s')
         ∧ running s' (show (salvagePlain m1) vd) ∧ settled (st s')).
Proof.
  apply (corrupt_store_recovers (inst true [] false true) env0 (mf_file (data (st demo1)))
    (marshal badMeta ++ zeros 3984) badMeta); [apply inst_new|calc..|].
  intros m Hok Hf. assert (len (mf_file (data m)) < 2 ^ 32) as Hl by (rewrite Hf; calc).
  split; (rewrite (acceptable_cases m _ _ Hok Hl); [rewrite Hf; calc|calc]).
Defined.

Lemma load_never_panics_witness : returns (loadData (st demo1)).1.
Proof. apply (load_never_panics (st demo1)); [exact (fo_data _ (so_files _ _ (ru_store _ _ demo1_running)))|exact (fo_meta _ (so_files _ _ (ru_store _ _ demo1_running)))|calc]. Defined.

Lemma write_back_rebuilds_witness :
  ∃ s', fullWritebackGrow true 0 demo1 = (Ok tt, s')
    ∧ store_ok (st s') {[kA := vA]} ∧ decrypts (st s') (region (st s')) (packed {[kA := vA]})
    ∧ confirmed (st s') ∧ mi_sequence (info (st s')) = u32 (mi_sequence (info (st demo1)) + 1)
    ∧ 4 + actualSize (st s') + 0 < len (mf_file (data (st s'))).
Proof.
  apply (write_back_rebuilds demo1 {[kA := vA]} true 0); [|calc].
  split; [apply (so_files _ _ (ru_store _ _ demo1_running))|apply (so_dict _ _ (ru_store _ _ demo1_running))|calc..].
Defined.

(** [demoE] before it noticed that another process made it [demoE1]. *)
Definition demoStale : St := mkSt (set_meta (meta (st demoE1)) (set_data (data (st demoE1)) (st demoE))) (env demoE).
Definition liveE : metaInfo := info (st demoE1).

Lemma foreign_write_is_seen_witness :
  ∃ s', checkLoadData demoStale = (Ok tt, s') ∧ store_ok (st s') {[kA := vA]} ∧ changes (env s') = 1%nat.
Proof.
  apply (foreign_write_is_seen demoStale (st demoE1) liveE {[kA := vA]}); [|exact (ru_store _ _ demoE1_running)].
  split; [|calc|calc|calc|left; calc].
  split; [calc|calc|calc|calc|calc|calc|exact (fo_meta _ (so_files _ _ (ru_store _ _ demoE1_running)))|].
  exists 0%nat. calc.
Defined.

Lemma fast_paths_agree_witness :
  ∃ s1 s2 b', setBlob kB vB demo1 = (Ok tt, s1)
    ∧ (_ ← upd (fun m => set_dict (<[kB:=Heap vB]> (dict m)) m);
       fullWritebackGrow true (len (pair_bytes (kB, vB)))) demo1 = (Ok tt, s2)
    ∧ store_ok (st s1) b' ∧ store_ok (st s2) b' ∧ b' = <[kB:=vB]> {[kA := vA]}.
Proof.
  apply (fast_paths_agree demo1 {[kA := vA]} kB vB true); [exact (ru_store _ _ demo1_running)| |calc].
  apply (bool_decide_unpack _). vm_compute. exact I.
Defined.

Lemma rekey_keeps_map_witness :
  ∃ s' plain vd, ReKey secret demo1 = (Ok tt, s') ∧ running s' {[kA := vA]}
    ∧ crypt (st s') = newCrypt secret ∧ decrypts (st s') (region (st s')) plain
    ∧ parseDict plain = Ok vd ∧ show plain vd = {[kA := vA]}.
Proof. apply (rekey_keeps_map demo1 {[kA := vA]} secret); [exact demo1_running|exact demo1_packs]. Defined.

Lemma trim_shrinks_witness :
  ∃ s', Trim demo1 = (Ok tt, s') ∧ running s' {[kA := vA]}
    ∧ len (mf_file (data (st s'))) ≤ pageRoundUp ((actualSize (st s') + 4) * 2).
Proof. apply (trim_shrinks demo1 {[kA := vA]}); [exact demo1_running|exact demo1_packs]. Defined.

Lemma clear_empties_witness :
  ∃ s', ClearAll demo1 = (Ok tt, s') ∧ running s' ∅ ∧ actualSize (st s') = 0
    ∧ len (mf_file (data (st s'))) = pagesize.
Proof. apply (clear_empties demo1 {[kA := vA]}); [exact demo1_running|calc]. Defined.

Lemma removed_key_is_absent_witness :
  ∃ s1 s2, RemoveValueForKey kA demo1 = (Ok tt, s1) ∧ running s1 (delete kA {[kA := vA]})
    ∧ GetUInt32 kA s1 = (Ok None, s2).
Proof.
  apply (removed_key_is_absent uint32_codec SetUInt32 GetUInt32 demo1 {[kA := vA]}); [exact demo1_running|].
  apply (bool_decide_unpack _). vm_compute. exact I.
Defined.

Lemma value_expires_on_time_witness :
  ∃ s1, SetUInt32 kA 7 demoX = (Ok tt, s1)
    ∧ (∃ s2, GetUInt32 kA (at_time 1059 s1) = (Ok (Some 7), s2))
    ∧ ∃ s2, GetUInt32 kA (at_time 1060 s1) = (Ok None, s2).
Proof.
  destruct (value_expires_on_time uint32_codec SetUInt32 GetUInt32 demoX (mkModel ∅ (Some 60)) kA 7 60)
    as (s1&Hs&Hg); [exact demoX_represents|calc| |reflexivity|calc..|].
  - apply (bool_decide_unpack _). vm_compute. exact I.
  - exists s1. split; [exact Hs|]. split; [apply (proj1 (Hg 1059))|apply (proj1 (Hg 1060))].
Defined.

Lemma refused_operation_changes_nothing_witness :
  run (OSet kA vB) demoClosed = (Err ErrClosed, demoClosed).
Proof.
  apply (refused_operation_changes_nothing (OSet kA vB) demoClosed ErrClosed); [calc|calc|].
  left. calc.
Defined.

Lemma same_value_is_not_written_witness : setValue kA vA demoC = (Ok tt, demoC).
Proof.
  apply (same_value_is_not_written demoC {[kA := vA]} kA vA); [exact demoC_running|calc..].
Defined.

Lemma fresh_store_is_empty_witness :
  ∃ s', open None None (mkSt (inst true secret false false) env0) = (Ok tt, s')
    ∧ represents s' (mkModel ∅ None).
Proof. apply (fresh_store_is_empty (inst true secret false false) env0); [apply inst_new|calc..]. Defined.

Lemma listing_matches_model_witness :
  ∃ ks s1 s2, AllKeys demo0 = (Ok ks, s1) ∧ Count demo0 = (Ok (len ks), s2)
    ∧ Sorted bytes_le ks ∧ NoDup ks ∧ (∀ k, k ∈ ks ↔ is_Some (ask (now (env demo0)) (mkModel ∅ None) k))
    ∧ ∀ k, ∃ s3, Contains k demo0 = (Ok (bool_decide (k ∈ ks)), s3).
Proof. apply (listing_matches_model demo0 (mkModel ∅ None)). exact demo0_represents. Defined.
