(* ===== verification/FormatTheorems.v ===== *)
(** * The theorems of the file format

    What the encoders write the decoders read back; no input makes a decoder
    panic; what is salvaged from a torn log; what the checksum detects. *)

From S2P Require Import Prelude GoInt Wire Crc32 Meta Dict Crypt MemFile Flock Store StoreOps.
From S2P Require Import StoreInv StoreRun Reader ReaderSpec Samples.

Section theorems.
Context `{Platform}.

(** C27. Every value type round-trips, on its whole range: booleans, 32 and 64 bit
    integers with and without sign, the bits of floats, byte strings and strings
    below 4 GiB, and lists of strings whose encoding is below 4 GiB.  The decoder
    of its getter reads the blob of its setter back, wherever it lies in a buffer,
    and stops at its end; and no blob is empty, since an empty value marks a
    deletion. *)
Theorem value_round_trips :
  (∀ b, round_trips readBool boolBlob b)
  ∧ (∀ v, is_i32 v → round_trips readInt32 int32Blob v)
  ∧ (∀ v, is_i64 v → round_trips (x ← readVarint64; mret (i64 x)) int64Blob v)
  ∧ (∀ v, is_u32 v → round_trips readUInt32 uint32Blob v)
  ∧ (∀ v, is_u64 v → round_trips readVarint64 uint64Blob v)
  ∧ (∀ v, is_u32 v → round_trips readFixed32 float32Blob v)
  ∧ (∀ v, is_u64 v → round_trips readFixed64 float64Blob v)
  ∧ (∀ b, is_u32 (len b) → round_trips readData bytesBlob b)
  ∧ (∀ l, is_u32 (len (mjoin (field <$> l))) →
       round_trips (items ← readData; mret (decodeStringSlice items)) stringSliceBlob l).
Proof.
  split; [|split; [|split; [|split; [|split; [|split; [|split; [|split]]]]]]].
  - intros b. by apply (laws_round_trip bool_codec).
  - intros v. apply (laws_round_trip int32_codec).
  - intros v. apply (laws_round_trip int64_codec).
  - intros v. apply (laws_round_trip uint32_codec).
  - intros v. apply (laws_round_trip uint64_codec).
  - intros v. apply (laws_round_trip float32_codec).
  - intros v. apply (laws_round_trip float64_codec).
  - intros b. apply (laws_round_trip bytes_codec).
  - intros l. apply (laws_round_trip stringSlice_codec).
Qed.

(** A varint takes at most ten bytes, five for a 32-bit value, and at least
    one; appending it to any output and reading it there gives it back. *)
Theorem varint_round_trips o v :
  is_u64 v →
  ∃ enc, obuf (writeRawVarint64 o v) = obuf o ++ enc ∧ (1 ≤ length enc ≤ 10)%nat
    ∧ (is_u32 v → obuf (writeRawVarint32 o v) = obuf o ++ enc ∧ (length enc ≤ 5)%nat)
    ∧ readVarint64 (mkInput (obuf (writeRawVarint64 o v)) (length (obuf o)))
      = (Ok v, mkInput (obuf (writeRawVarint64 o v)) (length (obuf (writeRawVarint64 o v)))).
Proof.
  intros Hv. exists (varint v). rewrite obuf_writeRawVarint64. split; [done|].
  pose proof (varint_length_pos v). pose proof (varint_length_le10 v).
  split; [lia|]. split.
  - intros Hu. rewrite obuf_writeRawVarint32. split; [done|]. by apply varint_length_le5.
  - pose proof (varint_reads v Hv (obuf o) []) as Hr. rewrite app_nil_r in Hr.
    by rewrite Hr, length_app.
Qed.

(** C28. parseDict is total and safe: on any bytes it returns, without panicking,
    a dictionary or an error, within as many rounds as there are bytes; the keys of
    a dictionary are not empty and its values are non-empty views inside the
    region. *)
Theorem parseDict_is_safe plain :
  match parseDict plain with
  | Ok m => vdict_ok plain m
  | Err _ => True
  | Panic | NoFuel => False
  end.
Proof. pose proof (parseDict_spec plain) as Hs. by destruct (parseDict plain). Qed.

(** C29. The region of a dictionary, in whatever order its keys are written, reads
    back as the dictionary; and pairs appended to it apply one after the other:
    the last pair of a key wins and an empty value deletes it.  Keys are not empty,
    and lengths are uint32. *)
Theorem region_replays order blob es :
  (∀ k, k ∈ order ↔ is_Some (blob !! k)) → bdict_ok blob → sizes_ok blob → Forall entry_ok es →
  ∃ m, parseDict (encodeRegion order blob ++ log_bytes es) = Ok m
    ∧ show (encodeRegion order blob ++ log_bytes es) m = foldl apply_entry blob es.
Proof.
  intros Hdom Hok Hsz Hes. destruct (parseDict_encodeRegion order blob Hdom Hok Hsz) as (m&Hm&Hsh).
  destruct (parseDict_append_log (encodeRegion order blob) m es) as (m'&Hm'&Hs'); [|done..|].
  - apply encodeRegion_nonempty.
  - exists m'. by rewrite Hs', Hsh.
Qed.

(** C30. The tolerant parser salvages everything before a tear: when the last pair
    of a log is cut anywhere, it returns the dictionary of the pairs before it (the
    keys are not empty, as in C29). *)
Theorem greedy_salvages_torn_log order blob es k v t rest :
  (∀ k, k ∈ order ↔ is_Some (blob !! k)) → bdict_ok blob → sizes_ok blob → Forall entry_ok es →
  entry_ok (k, v) → pair_bytes (k, v) = t ++ rest → rest ≠ [] →
  let torn := encodeRegion order blob ++ log_bytes es ++ t in
  show torn (parseDictGreedy torn) = foldl apply_entry blob es.
Proof.
  intros Hdom Hok Hsz Hes He Hp Hr. cbv zeta.
  destruct (parseDict_encodeRegion order blob Hdom Hok Hsz) as (m&Hm&Hsh).
  pose proof (encodeRegion_nonempty order blob) as Hne.
  destruct (parseDict_append_log _ m es Hne Hm Hes) as (m'&Hm'&Hsh').
  rewrite app_assoc, (parseDictGreedy_torn _ m' k v t rest); try done.
  - rewrite show_app by by apply parseDict_ok. by rewrite Hsh', Hsh.
  - by intros [? _]%app_nil.
Qed.

(** On a region parseDict accepts, the tolerant parser returns the same
    dictionary; on any other, that of the longest prefix parseDict accepts. *)
Theorem greedy_agrees_with_parseDict plain :
  (∀ m, parseDict plain = Ok m → parseDictGreedy plain = m)
  ∧ ∃ q, (q ≤ length plain)%nat ∧ parseDict (take q plain) = Ok (parseDictGreedy plain)
      ∧ ∀ q', (q < q' ≤ length plain)%nat → ¬ parses (take q' plain).
Proof. split; [apply parseDictGreedy_agrees|apply parseDictGreedy_longest]. Qed.

(** C31. The meta struct round-trips through its 112 bytes, whatever follows them in
    the file, and the in-place update of an append changes the digest and the
    size and nothing else. *)
Theorem meta_round_trips mi rest c a :
  meta_wf mi → is_u32 c → is_u32 a →
  length (marshal mi) = metaSize ∧ parseMeta (marshal mi ++ rest) = Ok mi
  ∧ parseMeta (splice (splice (marshal mi ++ rest) offCRC (le_bytes 4 c)) offActualSize (le_bytes 4 a))
    = Ok (mkMeta c (mi_version mi) (mi_sequence mi) (mi_iv mi) a (mi_lastActualSize mi)
            (mi_lastCRCDigest mi) (mi_flags mi)).
Proof.
  intros Hm Hc Ha. split; [apply length_marshal, Hm|].
  pose proof (parseMeta_marshal_app mi rest Hm) as Hp. split; [done|]. by apply (parseMeta_update _ mi).
Qed.

(** C32. AES-CFB round-trips under every key, at every length, and a decryption of a
    prefix is the prefix of the decryption; an IV below 16 bytes is refused. *)
Theorem cfb_round_trips key pt iv :
  (16 ≤ len iv →
   ∃ ct, Encrypt (newAESCFB key) pt iv = Ok ct ∧ length ct = length pt
     ∧ Decrypt (newAESCFB key) ct iv = Ok pt
     ∧ ∀ n, Decrypt (newAESCFB key) (take n ct) iv = Ok (take n pt))
  ∧ (len iv < 16 → Encrypt (newAESCFB key) pt iv = Err ErrShortIV
       ∧ Decrypt (newAESCFB key) pt iv = Err ErrShortIV).
Proof.
  unfold Encrypt, Decrypt. split; intros Hiv; [|by btrue]. bfalse.
  eexists. split; [done|]. split; [apply length_cfb_encrypt|]. split; [by rewrite cfb_decrypt_encrypt|].
  intros n. f_equal. set (ct := cfb_encrypt _ _ _ _ _).
  pose proof (cfb_decrypt_app (newAESCFB key) (take 16 iv) (zeros 16) 0 (take n ct) (drop n ct)) as Hp.
  rewrite take_drop in Hp. unfold ct at 2 in Hp. rewrite cfb_decrypt_encrypt in Hp. rewrite <-Hp.
  rewrite length_take. unfold ct. rewrite length_cfb_encrypt.
  destruct (decide (n ≤ length pt)%nat); [by rewrite Nat.min_l|].
  rewrite Nat.min_r by lia. by rewrite !take_ge by lia.
Qed.

(** C33. The checksum detects every corrupted byte: when one byte of the region of a
    settled store is changed in the data file, neither a load nor a Reader
    accepts the size and digest of the meta file any more. *)
Theorem corrupted_byte_is_detected m b i x y :
  store_ok m b → settled m → len (mf_file (data m)) < 2 ^ 32 →
  region m !! i = Some y → x ≠ y →
  let f := <[(4 + i)%nat := x]> (mf_file (data m)) in
  acceptable (set_data (set_mf_file f (data m)) m) (actualSize m) (crcDigest m) = Ok false
  ∧ snapshotOf (Decrypt <$> crypt m) (info m) f = Err ErrCRCMismatch.
Proof. apply corrupted_byte. Qed.

End theorems.

(** ** Instances *)

Lemma value_round_trips_witness :
  round_trips readInt32 int32Blob (-7)
  ∧ round_trips (items ← readData; mret (decodeStringSlice items)) stringSliceBlob [kA; []; kB].
Proof.
  destruct value_round_trips as (_&H32&_&_&_&_&_&_&Hss). split; [apply H32|apply Hss]; calc.
Defined.

Lemma varint_round_trips_witness :
  ∃ enc, obuf (writeRawVarint64 (mkOutput vB) 300) = vB ++ enc ∧ (1 ≤ length enc ≤ 10)%nat
    ∧ (is_u32 300 → obuf (writeRawVarint32 (mkOutput vB) 300) = vB ++ enc ∧ (length enc ≤ 5)%nat)
    ∧ readVarint64 (mkInput (obuf (writeRawVarint64 (mkOutput vB) 300)) (length vB))
      = (Ok 300, mkInput (obuf (writeRawVarint64 (mkOutput vB) 300))
                   (length (obuf (writeRawVarint64 (mkOutput vB) 300)))).
Proof. apply (varint_round_trips (mkOutput vB) 300). calc. Defined.

Definition ab : bdict := {[kA := vA; kB := vB]}.

Lemma ab_order k : k ∈ [kB; kA] ↔ is_Some (ab !! k).
Proof.
  unfold ab. rewrite lookup_insert_is_Some', lookup_singleton_is_Some, !elem_of_cons, elem_of_nil.
  split; [intros [->|[->|[]]]; auto|intros [<-|<-]; auto].
Qed.

Lemma region_replays_witness :
  ∃ m, parseDict (encodeRegion [kB; kA] ab ++ log_bytes [(kB, []); (kA, vB)]) = Ok m
    ∧ show (encodeRegion [kB; kA] ab ++ log_bytes [(kB, []); (kA, vB)]) m
      = foldl apply_entry ab [(kB, []); (kA, vB)].
Proof.
  apply (region_replays [kB; kA] ab [(kB, []); (kA, vB)] ab_order);
    apply (bool_decide_unpack _); vm_compute; exact I.
Defined.

Lemma greedy_salvages_torn_log_witness :
  let torn := encodeRegion [kB; kA] ab ++ log_bytes [(kB, [])] ++ take 3 (pair_bytes (kA, vB)) in
  show torn (parseDictGreedy torn) = foldl apply_entry ab [(kB, [])].
Proof.
  apply (greedy_salvages_torn_log [kB; kA] ab [(kB, [])] kA vB (take 3 (pair_bytes (kA, vB)))
    (drop 3 (pair_bytes (kA, vB))) ab_order).
  1-4: apply (bool_decide_unpack _); vm_compute; exact I.
  - calc.
  - calc.
Defined.

Lemma greedy_agrees_with_parseDict_witness :
  (∀ m, parseDict vB = Ok m → parseDictGreedy vB = m)
  ∧ ∃ q, (q ≤ length vB)%nat ∧ parseDict (take q vB) = Ok (parseDictGreedy vB)
      ∧ ∀ q', (q < q' ≤ length vB)%nat → ¬ parses (take q' vB).
Proof. exact (greedy_agrees_with_parseDict vB). Defined.

Lemma meta_round_trips_witness :
  length (marshal zeroMeta) = metaSize ∧ parseMeta (marshal zeroMeta ++ [Byte.x01]) = Ok zeroMeta
  ∧ parseMeta (splice (splice (marshal zeroMeta ++ [Byte.x01]) offCRC (le_bytes 4 9)) offActualSize (le_bytes 4 5))
    = Ok (mkMeta 9 0 0 (zeros 16) 5 0 0 0).
Proof. apply (meta_round_trips zeroMeta [Byte.x01] 9 5); [split; calc|calc..]. Defined.

Lemma cfb_round_trips_witness :
  ∃ ct, Encrypt (newAESCFB secret) vB nist_iv = Ok ct ∧ length ct = length vB
    ∧ Decrypt (newAESCFB secret) ct nist_iv = Ok vB
    ∧ ∀ n, Decrypt (newAESCFB secret) (take n ct) nist_iv = Ok (take n vB).
Proof. apply (proj1 (cfb_round_trips secret vB nist_iv)). calc. Defined.

Lemma corrupted_byte_is_detected_witness :
  let f := <[5%nat := Byte.xff]> (mf_file (data (st demo1))) in
  acceptable (set_data (set_mf_file f (data (st demo1))) (st demo1)) (actualSize (st demo1)) (crcDigest (st demo1))
  = Ok false
  ∧ snapshotOf (Decrypt <$> crypt (st demo1)) (info (st demo1)) f = Err ErrCRCMismatch.
Proof.
  apply (corrupted_byte_is_detected (st demo1) {[kA := vA]} 1 Byte.xff Byte.x80);
    [exact (ru_store _ _ demo1_running)|exact demo1_settled|calc..].
Defined.
