(* ===== verification/SystemTheorems.v ===== *)
(** * The theorems of the file lock and the mapped file

    The reference counts and what the kernel holds; the sizes of mapped files. *)

From S2P Require Import Prelude GoInt MemFile Flock Samples.

(** C34. The counted lock refines its specification under every outcome of the
    system calls, and never panics.  lock: without an error the counter of its
    kind went up by one and the kernel holds what the counters say (the exclusive
    lock when there is an exclusive reference, else the shared one), and when it
    fails the counters are as before.  tryLock: the same, and a lock another
    process holds is reported as not acquired, not as an error.  unlock gives
    back one reference: it fails, changing nothing, when there is none;
    otherwise the kernel then holds what the remaining references ask for, so
    the last exclusive reference downgrades to shared when a shared one is
    left. *)
Theorem lock_refines_counting t q :
  lock_ok q →
  match lock t q with
  | (Ok _, q') => q'.1 = spec_lock t q.1 ∧ lock_ok q'
  | (Err _, q') => q'.1 = q.1
  | _ => False
  end
  ∧ match tryLock t q with
    | (Ok true, q') => q'.1 = spec_lock t q.1 ∧ lock_ok q'
    | (Ok false, q') => q'.1 = q.1
    | (Err e, q') => q'.1 = q.1 ∧ e ≠ ErrSys EWOULDBLOCK
    | _ => False
    end
  ∧ match unlock t q with
    | (Ok _, q') => 0 < count t q.1 ∧ q'.1 = spec_unlock t q.1 ∧ lock_ok q'
    | (Err _, q') => q'.1 = q.1 ∧ (count t q.1 = 0 → q' = q)
    | _ => False
    end.
Proof.
  intros Hq. split; [by apply lock_refines|]. split; [|by apply unlock_refines].
  pose proof (tryLock_refines t q Hq) as Hr. pose proof (tryLock_reports t q) as He.
  destruct (tryLock t q) as [[[]|e| |] q']; try done.
  split; [done|]. by eapply He.
Qed.

(** A lock and its unlock, nested in whatever was held, restore the counters
    and what the kernel holds. *)
Theorem lock_unlock_restores t q :
  lock_ok q → healthy q.2 →
  ∃ q1, lock t q = (Ok tt, q1) ∧ lock_ok q1 ∧ unlock t q1 = (Ok tt, q).
Proof. apply lock_then_unlock. Qed.

Section memfile.
Context `{Platform}.

(** truncate makes the file the least whole number of pages that holds the
    size asked for, keeps its bytes up to there, extends it with zeros, and maps
    all of it. *)
Theorem truncate_pads_to_pages mf s n :
  mf_ok mf → healthy s →
  ∃ mf', truncate n (mf, s) = (Ok tt, (mf', s)) ∧ memory mf' = mf_file mf'
    ∧ (pagesize | len (mf_file mf')) ∧ n ≤ len (mf_file mf')
    ∧ (∀ k, 0 < k → n ≤ k * pagesize → len (mf_file mf') ≤ k * pagesize)
    ∧ (∀ i, (i < length (mf_file mf'))%nat →
         mf_file mf' !! i = Some (default Byte.x00 (mf_file mf !! i))).
Proof.
  intros Hok Hs. destruct (truncate_ok mf s n Hok Hs) as (mf'&Ht&Hok'&Hf&_).
  pose proof (pageRoundUp_min n). pose proof pagesize_ge.
  assert (len (mf_file mf') = pageRoundUp n) as Hl by (rewrite Hf, length_resize; lia).
  exists mf'. rewrite Hl. split; [done|]. split; [by apply memory_ok|].
  split; [apply pageRoundUp_divide|]. split; [apply pageRoundUp_ge|]. split; [apply pageRoundUp_least|].
  intros i Hi. rewrite Hf in *. rewrite length_resize in Hi. by apply lookup_resize.
Qed.

(** close releases both the mapping and the descriptor, whichever of the two
    system calls fails, and reports a failure. *)
Theorem close_releases_everything mf s :
  ∃ o mf' s', mf_close (mf, s) = (o, (mf', s')) ∧ mf_data mf' = None ∧ mf_open mf' = false
    ∧ (o = Ok tt ∨ ∃ e, o = Err (ErrSys e)) ∧ (healthy s → o = Ok tt).
Proof. apply mf_close_releases. Qed.

End memfile.

(** ** Instances *)

(** One shared reference, held. *)
Definition one : fileLock * sys := (mkFileLock 1 0, set_held HeldShared env0).

Lemma one_ok : lock_ok one.
Proof. split_and!; calc. Qed.

(** The upgrade fails, because another process holds the lock: the process
    lets go of its shared lock, waits, is interrupted and takes it back. *)
Definition busy : fileLock * sys := (mkFileLock 1 0, set_faults [Some 11; None; Some 4] (set_held HeldShared env0)).

Lemma lock_refines_counting_witness :
  match lock exclusiveLock busy with
  | (Ok _, q') => q'.1 = spec_lock exclusiveLock busy.1 ∧ lock_ok q'
  | (Err _, q') => q'.1 = busy.1
  | _ => False
  end
  ∧ match tryLock exclusiveLock busy with
    | (Ok true, q') => q'.1 = spec_lock exclusiveLock busy.1 ∧ lock_ok q'
    | (Ok false, q') => q'.1 = busy.1
    | (Err e, q') => q'.1 = busy.1 ∧ e ≠ ErrSys EWOULDBLOCK
    | _ => False
    end
  ∧ match unlock exclusiveLock busy with
    | (Ok _, q') => 0 < count exclusiveLock busy.1 ∧ q'.1 = spec_unlock exclusiveLock busy.1 ∧ lock_ok q'
    | (Err _, q') => q'.1 = busy.1 ∧ (count exclusiveLock busy.1 = 0 → q' = busy)
    | _ => False
    end.
Proof. apply (lock_refines_counting exclusiveLock busy). split_and!; calc. Defined.

Lemma lock_unlock_restores_witness :
  ∃ q1, lock exclusiveLock one = (Ok tt, q1) ∧ lock_ok q1 ∧ unlock exclusiveLock q1 = (Ok tt, one).
Proof. apply (lock_unlock_restores exclusiveLock one); [exact one_ok|reflexivity]. Defined.

Definition page : memoryFile := mkMemFile true (zeros 4096) (Some (mkMapping 0 4096)) 4096 false 1.

Lemma truncate_pads_to_pages_witness :
  ∃ mf', truncate 5000 (page, env0) = (Ok tt, (mf', env0)) ∧ memory mf' = mf_file mf'
    ∧ (pagesize | len (mf_file mf')) ∧ 5000 ≤ len (mf_file mf')
    ∧ (∀ k, 0 < k → 5000 ≤ k * pagesize → len (mf_file mf') ≤ k * pagesize)
    ∧ (∀ i, (i < length (mf_file mf'))%nat →
         mf_file mf' !! i = Some (default Byte.x00 (mf_file page !! i))).
Proof.
  apply (truncate_pads_to_pages page env0 5000); [|calc]. split; [exists 0%nat; calc|calc].
Defined.

Lemma close_releases_everything_witness :
  ∃ o mf' s', mf_close (page, env0) = (o, (mf', s')) ∧ mf_data mf' = None ∧ mf_open mf' = false
    ∧ (o = Ok tt ∨ ∃ e, o = Err (ErrSys e)) ∧ (healthy env0 → o = Ok tt).
Proof. exact (close_releases_everything page env0). Defined.
