(* ===== verification/ReaderTheorems.v ===== *)
(** * The theorems of the Reader and the Writer

    A Reader of a live store's files answers as the store does; bad files never
    take its last snapshot away; what a Writer flushed it reads. *)

From S2P Require Import Prelude GoInt Wire Crc32 Meta Dict Crypt LockCalls MemFile Files Flock Store StoreOps.
From S2P Require Import StoreInv StoreRun Recovery Api ApiSpec Refine Registry RegistrySpec ProcessSpec.
From S2P Require Import Reader Writer ReaderSpec ReaderSafe ReaderWorld Samples.

Section theorems.
Context `{Platform}.

(** C35. A Reader on the files of a settled live store, whose snapshot is out of
    date, gives the same answer as the store for every key and every value type,
    and lists the same keys. *)
Theorem reader_agrees_with_store {A} (c : codec A) set get `{!Accessors c set get} s b r :
  running s b → settled (st s) → views r (st s) → now (dk_env (disk r)) = now (env s) →
  tupleFresh (rdr r) (canary (st s)) = false →
  (∀ k, ∃ o s' r', get k s = (Ok o, s') ∧ snapshotAs (c_dec c) k r = (Ok o, r'))
  ∧ ∃ ks s' r', AllKeys s = (Ok ks, s') ∧ Reader_Keys r = (Ok ks, r').
Proof.
  intros Hr Hse Hv Hn Hf. split; [by apply (reader_agrees c set get s b r)|by apply (reader_keys_agree s b)].
Qed.

(** C37. When the files describe no consistent store, a Reader goes on answering
    from the snapshot it has and records why; and while the three words of the
    meta file are those of its snapshot, it answers without touching the files
    or its state. *)
Theorem reader_keeps_last_snapshot {A} (dec : M codedInput A) r m live sn k :
  total_dec dec → views r m → parseMeta (mf_file (meta m)) = Ok live →
  mi_version live ≤ maxSupportedVersion → rd_snap (rdr r) = Some sn →
  let t := (mi_crcDigest live, mi_actualSize live, mi_sequence live) in
  (∀ e, tupleFresh (rdr r) t = false → snapshotOf (Decrypt <$> crypt m) live (mf_file (data m)) = Err e →
     ∃ o r', snapshotAs dec k r = (Ok o, r')
       ∧ decodes dec (snapshot_value sn (now (dk_env (disk r'))) k) = Ok o
       ∧ rd_snap (rdr r') = Some sn ∧ rd_lastErr (rdr r') = Some e)
  ∧ (tupleFresh (rdr r) t = true →
     ∃ o, snapshotAs dec k r = (Ok o, r) ∧ decodes dec (snapshot_value sn (now (dk_env (disk r))) k) = Ok o).
Proof.
  intros Ht Hv Hp Hver Hsn t. split.
  - intros e Hf He. destruct (current_keeps r m live sn e Hv Hp Hver Hf Hsn He) as (r'&Hc&Hle&Hs').
    destruct (reader_getter dec r k sn r' Ht Hc) as (o&?&?). by exists o, r'.
  - intros Hf. apply (reader_getter dec r k sn r Ht). by apply (current_stable r m live).
Qed.

(** C38. A Reader never panics while it is open and its mapped file is not empty.
    Whatever the two files hold, the data file below 4 GiB, and whichever system
    calls fail, with no decryptor or one that returns, Open returns an open Reader
    or an error.  An open Reader, whatever has become of the files since (other
    bytes, other sizes, removed, replaced), answers every read and stays open,
    unless the meta file it has mapped was cut to nothing: then a read faults.
    Close releases the snapshot, the mapping and the descriptor even when it
    returns an error, and touches no file; a second Close does nothing, and a read
    after Close panics. *)
Theorem reader_never_panics {A} (dec : M codedInput A) opts d r k :
  total_dec dec →
  (dec_total (rd_dec (newReader opts)) → (∀ f, dk_data d = Some f → len f < 2 ^ 32) →
     ∃ o r', openLive (mkRSt (newReader opts) d) = (o, r') ∧ returns o ∧ (o = Ok tt → open_reader (rdr r')))
  ∧ (open_reader (rdr r) → (∀ f, dk_data (disk r) = Some f → len f < 2 ^ 32) →
       (mappedFile r ≠ [] → ∃ o r', snapshotAs dec k r = (Ok o, r') ∧ open_reader (rdr r'))
       ∧ (mappedFile r = [] → snapshotAs dec k r = (Panic, r)))
  ∧ ∃ o r', Reader_Close r = (o, r') ∧ returns o ∧ shut (rdr r')
      ∧ dk_data (disk r') = dk_data (disk r) ∧ dk_meta (disk r') = dk_meta (disk r)
      ∧ Reader_Close r' = (Ok tt, r') ∧ snapshotAs dec k r' = (Panic, r').
Proof.
  intros Ht. split; [apply openLive_returns|]. split.
  - intros Ho Hd. split; [|by apply snapshotAs_faults].
    intros Hm. destruct (snapshotAs_returns dec k r Ht) as (o&r'&?&[? _ _]); [by split|by exists o, r'].
  - destruct (Reader_Close_shuts r) as (o&r'&Hc&Ho&Hs&Hd&Hm). exists o, r'. split_and!; try done.
    + by apply Reader_Close_again.
    + by apply shut_reads.
Qed.

(** Built for a system without flock and mmap, the package opens no Reader and
    backs nothing up: Open and BackupOne return an error, the stub's when nothing
    else fails, and no file has changed. *)
Theorem other_platforms_refuse opts d rootDir mmapID dstDir q :
  (∃ err e', openLive (PL := otherLocks) (PM := otherMaps) (mkRSt (newReader opts) d)
     = (Err err, mkRSt (newReader opts) (mkDisk (dk_data d) (dk_meta d) (dk_gone d) e'))
     ∧ (healthy (dk_env d) → err = if dk_meta d is Some _ then ErrNeedsMmap else ErrNotExist))
  ∧ ∃ err e', BackupOne (H := otherLocks) rootDir mmapID dstDir q = (Err err, (q.1, e')).
Proof. split; [apply other_openLive|apply other_BackupOne]. Qed.

(** C39. What a Writer was given and flushed, a Reader opened on the files reads:
    for every key the value set last, whatever was in the files before; the keys
    and values are not empty, the region stays below 4 GiB and no system call
    fails.  And an instance that MMKVWithID opens on them, for writing and without a key, is a
    running store of those pairs, none of which expires. *)
Theorem flushed_pairs_are_read es d :
  Forall (fun e => entry_ok e ∧ e.2 ≠ []) es →
  4 + len (encodeRegion (wr_order (writes es)) (wr_blob (writes es))) < 2 ^ 32 → healthy (dk_env d) →
  ∃ d' r, Flush (writes es) d = (Ok tt, d') ∧ openLive (mkRSt (newReader []) d') = (Ok tt, r)
    ∧ (∀ A (dec : M codedInput A) k, total_dec dec →
        ∃ o, snapshotAs dec k r = (Ok o, r) ∧ decodes dec (writes_map es !! k) = Ok o)
    ∧ ∀ rootDir mmapID q opts e,
        cf_readOnly (configOf opts) = false → cf_cryptKey (configOf opts) = [] → healthy e → held e = Unheld →
        ∃ s, open (dk_data d') (dk_meta d') (mkSt (instanceFor rootDir mmapID q (configOf opts)) e) = (Ok tt, s)
          ∧ represents s (pairsModel (writes_map es)).
Proof.
  intros Hes Hl He. destruct (writes_ok es Hes) as (Hw&Hb&Hok&Hsz).
  destruct (Flush_ok (writes es) d Hl He) as (d'&Hfl&Hd'&Henv). rewrite <-Hb in Hok, Hsz.
  destruct (flushed_snapshot (writes es) d' Hw Hok Hsz Hl Hd') as (dfile&mfile&live&sn&Hd&Hm&Hp&Hv&Hsn&Hmap&Hx).
  destruct (openLive_ok None [] d' mfile dfile live sn) as (r&Ho&Hc&_); [done|by rewrite Henv|done..| |done|].
  { by rewrite Hv. }
  exists d', r. split; [done|]. split; [done|]. split.
  - intros A dec k Ht. destruct (reader_getter dec r k sn r Ht Hc) as (o&Hr&Hde). exists o. split; [done|].
    rewrite snapshot_value_ok, Hmap, Hx, Hb in Hde. by destruct (writes_map es !! k).
  - intros rootDir mmapID q opts e Hro Hk Heh Hh. rewrite <-Hb.
    apply flushed_opens; try done. unfold instanceFor. cbn [newMMKV crypt]. by rewrite Hk.
Qed.

(** C36. Any number of goroutines may use one Reader while another process
    writes: in every interleaving of their loads, stores and locks with the
    writer's, a read that returns has a snapshot that was built from a version
    some writer committed, and it is the map of that version's store; either a
    reload failed, and the error is there for Err, or the version is not older
    than the one the read began at, but for one case, a full write-back during
    the read that makes a region of exactly the old size ([recalled]).  A
    goroutine that cannot go on waits for the one that holds reloadMu, or for
    the writer, and a read takes at most 25 steps of its own. *)
Theorem concurrent_reads_are_recent w0 w t i p :
  rworld_new w0 → rsteps w0 w → rw_threads w !! t = Some (mkThread i p) →
  (∀ sn r, p = P_done sn r →
     ∃ j v, committed w !! j = Some v ∧ built (rd_dec (rw_rdr w)) v = Ok sn
       ∧ match r with Some _ => rd_lastErr (rw_rdr w) ≠ None | None => recent w i j end
       ∧ ∀ m b, store_ok m b → settled m → rd_dec (rw_rdr w) = Decrypt <$> crypt m → v = versionOf m → sn_m sn = b)
  ∧ (∀ p' w', gstep t w p p' w' → (rank p' < rank p ≤ 25)%nat)
  ∧ (dec_total (rd_dec (rw_rdr w)) → meta_wf (vn_meta (rw_now w)) → len (vn_data (rw_now w)) < 2 ^ 32 →
     is_Some (gnext t w p) ∨ (p = P_lock ∧ rw_mu w ≠ None) ∨ (p = P_flock ∧ rw_update w ≠ None)
     ∨ ∃ sn r, p = P_done sn r).
Proof.
  intros H0 Hs Hp. pose proof (rsteps_ok _ _ Hs (rworld_new_ok _ H0)) as Hw. split; [|split].
  - intros sn r ->. destruct (ro_threads _ Hw _ _ _ Hp) as (j&v&Hj&Hb&Hr). exists j, v.
    split; [done|]. split; [done|]. split; [by destruct r|].
    intros m b Hm Hse Hd ->. by apply (built_store (rd_dec (rw_rdr w)) m).
  - intros p' w' Hg. split; [by eapply gstep_rank|]. destruct p as [[]|[]|[]|[]|[]|[]| | | | | | | | | | | |]; cbn; lia.
  - intros Hd Hm Hl. by eapply gnext_enabled.
Qed.

End theorems.

(** ** Instances *)

(** A reader of the files of [demo1] that has read nothing yet, or an empty
    store. *)
Definition diskOf (m : MMKV) : Disk := mkDisk (Some (mf_file (data m))) (Some (mf_file (meta m))) None env0.
Definition readerOn (sn : option snapshot) (m : MMKV) : RSt :=
  mkRSt (mkReader None sn (Some (len (mf_file (meta m)))) true 0 0 0 None) (diskOf m).

Definition emptySnap : snapshot := mkSnap zeroMeta [] ∅ false.

Lemma readerOn_views sn m : crypt m = None → views (readerOn sn m) m.
Proof. intros Hc. split; try done. cbn. by rewrite Hc. Qed.

Lemma reader_agrees_with_store_witness :
  (∀ k, ∃ o s' r', GetUInt32 k demo1 = (Ok o, s') ∧ snapshotAs readUInt32 k (readerOn None (st demo1)) = (Ok o, r'))
  ∧ ∃ ks s' r', AllKeys demo1 = (Ok ks, s') ∧ Reader_Keys (readerOn None (st demo1)) = (Ok ks, r').
Proof.
  apply (reader_agrees_with_store uint32_codec SetUInt32 GetUInt32 demo1 {[kA := vA]});
    [exact demo1_running|exact demo1_settled|apply readerOn_views; calc|calc|calc].
Defined.

(** The data file was truncated under the reader. *)
Definition demoCut : MMKV := set_data (set_mf_file [] (data (st demo1))) (st demo1).

Lemma reader_keeps_last_snapshot_witness :
  ∃ o r', snapshotAs readUInt32 kA (readerOn (Some emptySnap) demoCut) = (Ok o, r')
    ∧ decodes readUInt32 (snapshot_value emptySnap (now (dk_env (disk r'))) kA) = Ok o
    ∧ rd_snap (rdr r') = Some emptySnap ∧ rd_lastErr (rdr r') = Some ErrActualSize.
Proof.
  destruct (reader_keeps_last_snapshot readUInt32 (readerOn (Some emptySnap) demoCut) demoCut
    (info (st demo1)) emptySnap kA (total_map readVarint64 u32 total_varint)) as [Hk _];
    [apply readerOn_views; calc|calc|calc|reflexivity|].
  apply Hk; calc.
Defined.

(** An open Reader whose files were removed, its mapped file with them. *)
Definition bereft (f : bytes) : RSt :=
  mkRSt (rdr (readerOn (Some emptySnap) (st demo1))) (mkDisk None None (Some f) env0).

Lemma bereft_open f : open_reader (rdr (bereft f)).
Proof. split; [by eexists|eexists; split; [reflexivity|calc]|done]. Qed.

Lemma reader_never_panics_witness :
  (∃ o r', openLive (mkRSt (newReader [WithEncryption secret]) (diskOf demoCut)) = (o, r') ∧ returns o
    ∧ (o = Ok tt → open_reader (rdr r')))
  ∧ (∃ o r', snapshotAs readUInt32 kA (bereft vB) = (Ok o, r') ∧ open_reader (rdr r'))
  ∧ snapshotAs readUInt32 kA (bereft []) = (Panic, bereft []).
Proof.
  split; [|split].
  - apply (proj1 (reader_never_panics readUInt32 [WithEncryption secret] (diskOf demoCut)
      (readerOn None demoCut) kA (total_map readVarint64 u32 total_varint))).
    + exact (aes_total (Some (newAESCFB secret))).
    + intros f [= <-]. calc.
  - apply (proj1 (proj2 (reader_never_panics readUInt32 [] (diskOf demoCut) (bereft vB) kA
      (total_map readVarint64 u32 total_varint))) (bereft_open vB)); [intros ? [=]|calc].
  - apply (proj1 (proj2 (reader_never_panics readUInt32 [] (diskOf demoCut) (bereft []) kA
      (total_map readVarint64 u32 total_varint))) (bereft_open [])); [intros ? [=]|reflexivity].
Defined.

Definition pairsAB : list (gostring * bytes) := [(kB, vA); (kA, vA); (kB, vB)].

Lemma flushed_pairs_are_read_witness :
  ∃ d' r s, Flush (writes pairsAB) (mkDisk None None None env0) = (Ok tt, d')
    ∧ openLive (mkRSt (newReader []) d') = (Ok tt, r)
    ∧ (∀ A (dec : M codedInput A) k, total_dec dec →
        ∃ o, snapshotAs dec k r = (Ok o, r) ∧ decodes dec (writes_map pairsAB !! k) = Ok o)
    ∧ open (dk_data d') (dk_meta d') (mkSt (instanceFor [] kA kA (configOf [])) env0) = (Ok tt, s)
    ∧ represents s (pairsModel (writes_map pairsAB)).
Proof.
  destruct (flushed_pairs_are_read pairsAB (mkDisk None None None env0)) as (d'&r&Hf&Ho&Hr&Hs); [|calc|calc|].
  { apply (bool_decide_unpack _). vm_compute. exact I. }
  destruct (Hs [] kA kA [] env0) as (s&Hs1&Hs2); [done..|]. exists d', r, s. by split_and!.
Defined.

(** Two goroutines at a Reader of [demo1], and a writer that sets a second key.
    The first probes while the writer shows its words, waits for it, and builds a
    new snapshot; the second, which began later, finds the words of the old one,
    and waits for the first. *)
Definition demo2 : St := (setValue kB vB demo1).2.
Definition opened1 : RSt := (openLive (mkRSt (newReader []) (diskOf (st demo1)))).2.
Definition world1 : rworld := mkRworld [] (versionOf (st demo1)) None false None (rdr opened1) 0 ∅.
Definition interleaved : list play :=
  [Begin 1; Go 1; WBegin (versionOf (st demo2)); WActual] ++ replicate 10 (Go 1) ++ [WCrc; WSeq; WCommit]
  ++ replicate 3 (Go 1) ++ [Begin 2] ++ replicate 4 (Go 2) ++ replicate 6 (Go 1) ++ replicate 9 (Go 2).
Definition world2 : rworld := default world1 (playAll interleaved world1).
Definition snapshot2 : snapshot := default emptySnap (rd_snap (rw_rdr world2)).

Lemma world1_new : rworld_new world1.
Proof.
  split; try calc. exists (default emptySnap (rd_snap (rdr opened1))). calc.
Qed.

Lemma concurrent_reads_are_recent_witness :
  ∃ j v, committed world2 !! j = Some v ∧ built (rd_dec (rw_rdr world2)) v = Ok snapshot2 ∧ recent world2 1 j.
Proof.
  destruct (concurrent_reads_are_recent world1 world2 2 1 (P_done snapshot2 None)) as [Hdone _];
    [exact world1_new|apply (playAll_rsteps interleaved); calc|calc|].
  destruct (Hdone snapshot2 None eq_refl) as (j&v&Hj&Hb&Hr&_). exists j, v. split; [exact Hj|split; [exact Hb|exact Hr]].
Defined.
