(* ===== verification/ProcessTheorems.v ===== *)
(** * The theorems of the process

    Sessions, the types of the struct, the ends of the loops, paths, the registry,
    imports, backups, and several processes at one lock. *)

From S2P Require Import Prelude GoInt Wire Crc32 Meta Dict Crypt Md5 Path MemFile Files Flock LockWorld.
From S2P Require Import Store StoreOps StoreInv StoreWrite StoreRun Handlers Recovery Api ApiSpec Refine Typed.
From S2P Require Import Open Reader ReaderSpec Import Registry RegistrySpec BackupSpec ProcessSpec.
From S2P Require Import SharedSpec SharedReader LockedUpdate Samples.

Section theorems.
Context `{Platform}.

(** C11. The struct keeps its types on every path: whatever the files hold,
    whichever system calls fail, and also when an operation ends in an error or a
    panic, the sizes and digests stay 32-bit words, the meta struct stays well
    formed, and every value of the dictionary is a buffer of its own or a slice of
    a mapping that was made, and lies inside the mapping when that is the
    current one. *)
Theorem store_keeps_its_types {A} (zero : A) f o s :
  typed (st s) → op_typed o →
  typed (st (run o s).2) ∧ typed (st (reading zero f s).2) ∧ typed (st (syncFlush true s).2)
  ∧ typed (st (ClearMemoryCache s).2) ∧ typed (st (Close s).2)
  ∧ ∀ root id q multi ro cryptKey handler recov e dfile mfile,
      typed (st (open dfile mfile (mkSt (newMMKV root id q multi ro cryptKey handler recov) e)).2).
Proof.
  intros Hs Ho. split; [by apply run_typed|]. split; [by apply reading_typed|].
  split; [by apply syncFlush_typed|]. split; [by apply ClearMemoryCache_typed|].
  split; [by apply Close_typed|]. intros. apply open_typed; [apply newMMKV_typed|done].
Qed.

(** C20. The loops end: loading never runs out of fuel, whatever the files hold;
    the doubling of a file that grows reaches its aim, for every size below 2^58,
    within the 64 steps it is given, and the halving of a file that shrinks
    stops between the live size and twice the live size. *)
Theorem loading_and_resizing_end m needSync incoming payload :
  typed m → 0 ≤ incoming → 0 ≤ payload → 4 + payload + incoming ≤ 2 ^ 58 →
  Z.of_nat (size (dict m)) ≤ 2 ^ 58 →
  let fs := fileSize (data m) in
  let live := actualSize m + 4 in
  (loadData m).1 ≠ NoFuel
  ∧ (∃ n, growLoop 64 (growth needSync incoming payload (Z.of_nat (size (dict m))) fs).1 (if fs <? 1 then 1 else fs) = Ok n
      ∧ 4 + payload + incoming < n)
  ∧ (live ≤ fs → ∃ n, trimLoop (S (Z.to_nat (Z.log2 fs))) (live * 2) fs = Ok n ∧ live ≤ n ≤ live * 2).
Proof.
  intros Hm Hi Hp Hsz Hd fs live. split; [apply loadData_ends|]. split.
  - destruct (growth_ok needSync incoming payload (Z.of_nat (size (dict m))) fs) as [Hg _]; [lia..|].
    destruct (growLoop_ok (growth needSync incoming payload (Z.of_nat (size (dict m))) fs).1
      (if fs <? 1 then 1 else fs)) as (n&Hn&Ht&_); [destruct (fs <? 1) eqn:E; bsplit; lia|lia|].
    exists n. split; [exact Hn|lia].
  - intros Hl. pose proof (ty_actual _ Hm) as Ha. unfold is_u32 in Ha.
    destruct (trimLoop_spec (S (Z.to_nat (Z.log2 fs))) live fs) as (n&Hn&?&?); [lia|done| |].
    { rewrite Nat2Z.inj_succ, Z2Nat.id by apply Z.log2_nonneg. apply Z.log2_spec. lia. }
    exists n. split; [exact Hn|lia].
Qed.

(** C3. Processes that open a store with WithMultiProcess share one map: from a
    path without files, whatever openings, writes, reads, Locks and Unlocks that
    fit follow one another in whatever instances, no system call failing, every
    one of them succeeds, and after any of them every getter of every instance
    that is not locked out answers from the same map, the one the writes have
    made so far, each value with the expiry its writer's default lifetime gave
    it.  A turn fits when no other instance holds the lock, an opening is under
    the one key and no write changes it, no key or value that is set is empty,
    RemoveValueForKey is called only when the store is not encrypted (see C40),
    and the sizes stay below 4 GiB.  Fewer than 2^32 turns are taken, so that the
    sequence number does not wrap. *)
Theorem processes_share_one_map {A} (c : codec A) set get `{!Accessors c set get}
    rootDir mmapID cryptKey p es j x :
  let dp := dataPathFor rootDir mmapID in
  let t := now (p_env p) in
  let S := turns t es (unshared (p_next p)) in
  fs_ok (p_fs p) → healthy (p_env p) →
  content (p_fs p) dp = None → content (p_fs p) (dp ++ crcSuffix) = None →
  fitting t cryptKey es (unshared (p_next p)) 0 → len es < 2 ^ 32 →
  is_Some (sa_seconds S !! j) → grants (sa_lock S) j →
  ∃ p1 o p2, performs rootDir mmapID es p = (Ok tt, p1) ∧ call j (get x) p1 = (Ok o, p2)
    ∧ decodes (c_dec c) (sa_map S !! x ≫= liveAt t) = Ok o.
Proof. intros dp t S. apply (shared_map rootDir mmapID c set get). Qed.

(** C4. An update under the lock is atomic: instances of several processes that
    each, again and again, call Lock, get a value, set what [f] makes of it and
    call Unlock lose no update.  In every interleaving of these calls that the
    kernel's lock permits, with reads, with writes to other keys and with
    openings by further processes, whoever may read the value finds what as many
    applications of [f] make of the first as values were set; and an instance can
    make its next call, or waits for the owner of the lock, which can.  The turns
    before fit (as in C3), and leave the lock free and no default lifetime that
    has already ended.  The writes to other keys fit likewise: no ReKey, no empty
    key or value, and no RemoveValueForKey when the store is encrypted (see C40).
    No system call fails; [W] bounds what one write costs, and the sizes stay
    below 4 GiB. *)
Theorem locked_updates_are_atomic {A} (c : codec A) set get `{!Accessors c set get} (f : option A → A) x W
    rootDir mmapID cryptKey p es p0 n u :
  let dp := dataPathFor rootDir mmapID in
  let t := now (p_env p) in
  let S := turns t es (unshared (p_next p)) in
  let a := Z.max (reaches t es (unshared (p_next p)) 0) (len (packed (repShare S))) in
  let steps := Z.of_nat n + 1 in
  fs_ok (p_fs p) → healthy (p_env p) →
  content (p_fs p) dp = None → content (p_fs p) (dp ++ crcSuffix) = None →
  fitting t cryptKey es (unshared (p_next p)) 0 → es ≠ [] → performs rootDir mmapID es p = (Ok tt, p0) →
  sa_lock S = None → map_Forall (fun _ => lasting t) (sa_seconds S) →
  x ≠ [] → (∀ o, c_ok c (f o)) → (∀ o, cost (OSet x (c_enc c (f o))) ≤ W) →
  len es + steps < 2 ^ 32 → 4 + (a + steps * (2 * W)) < 2 ^ 32 →
  nsteps (anystep rootDir mmapID cryptKey set get x f W) n (starts S p0) u →
  ∃ o0, decodes (c_dec c) (sa_map S !! x ≫= liveAt t) = Ok o0
    ∧ ∀ j ph, ur_phase u !! j = Some ph →
        (granted HeldShared j u → ∃ p', call j (get x) (ur_proc u) = (Ok (after f o0 (ur_count u)), p'))
        ∧ (goes_on rootDir mmapID cryptKey set get x f W j u
           ∨ ∃ k ph', k ≠ j ∧ ur_phase u !! k = Some ph' ∧ ph' ≠ Idle
               ∧ goes_on rootDir mmapID cryptKey set get x f W k u).
Proof.
  intros dp t S a steps Hf He Hd Hm Hfit Hne Hrun Hfree Hlast Hx Hok Hc Hl Ha Hn.
  destruct (turns_from_nothing rootDir mmapID es p cryptKey Hf He Hd Hm Hfit) as (p1&m&Hrun1&Hsg&Hnow); [lia|done|].
  rewrite Hrun in Hrun1. simplify_eq.
  destruct (decodes_total (c_dec c) (sa_map S !! x ≫= liveAt t) acc_total) as [o0 Ho]. exists o0. split; [done|].
  assert (0 ≤ W) as HW by (specialize (Hc None); cbn [cost] in Hc; lia).
  pose proof (starts_updating rootDir mmapID cryptKey c x f t o0 S p1 _ _ m Hsg Hnow Hfree Hlast Ho) as Hu.
  destruct (usteps_updating rootDir mmapID cryptKey c set get x f W t o0 Hok Hc Hx n _ S _ _ m u Hu Hn HW)
    as (S'&m'&Hu'); [fold t S a; lia|lia|].
  intros j ph Hj. split.
  - intros _. by eapply updating_value.
  - eapply updating_progress; [done..| |]; fold t S a; lia.
Qed.

(** C5. A Reader follows the processes: opened, under their key, on the files of a
    path that processes share, it finds at each of its reads the map as the writes
    have made it by then, and lists its keys in byte order; whatever turns the
    processes take in between and however often it reads, every action succeeds.
    The turns, before and in between, fit as in C3: one key that no write changes,
    no empty key or value, RemoveValueForKey only when the store is not encrypted
    (see C40), sizes below 4 GiB; no system call fails, and fewer than 2^32
    actions are taken.  It was opened, and reads, while nobody holds the lock of
    Lock. *)
Theorem reader_follows_processes {A} (dec : M codedInput A) rootDir mmapID cryptKey opts p es l x :
  let dp := dataPathFor rootDir mmapID in
  let t := now (p_env p) in
  let S0 := turns t es (unshared (p_next p)) in
  let S := acted t l S0 in
  total_dec dec → rd_dec (newReader opts) = Decrypt <$> keyed cryptKey →
  fs_ok (p_fs p) → healthy (p_env p) →
  content (p_fs p) dp = None → content (p_fs p) (dp ++ crcSuffix) = None →
  fitting t cryptKey es (unshared (p_next p)) 0 → es ≠ [] → sa_lock S0 = None →
  suits t cryptKey l S0 (reaches t es (unshared (p_next p)) 0) → len es + len l < 2 ^ 32 → sa_lock S = None →
  ∃ p1 r q p2 r2, performs rootDir mmapID es p = (Ok tt, p1)
    ∧ OpenReader rootDir mmapID opts (p_fs p1, set_held Unheld (p_env p1)) = (Ok r, q)
    ∧ acts rootDir mmapID l (p1, rdr r) = (Ok tt, (p2, r2))
    ∧ (∃ o r3, looking rootDir mmapID (snapshotAs dec x) p2 r2 = (Ok o, r3)
         ∧ decodes dec (sa_map S !! x ≫= liveAt t) = Ok o)
    ∧ ∃ ks r3, looking rootDir mmapID Reader_Keys p2 r2 = (Ok ks, r3) ∧ Sorted bytes_le ks ∧ NoDup ks
         ∧ ∀ k, k ∈ ks ↔ is_Some (sa_map S !! k ≫= liveAt t).
Proof.
  intros dp t S0 S Hdec Hk Hf He Hd Hm Hfit Hne _ Hsu Hl _.
  destruct (turns_from_nothing rootDir mmapID es p cryptKey Hf He Hd Hm Hfit) as (p1&m&Hrun&Hsg&Hn); [lia|done|].
  destruct (reader_opens rootDir mmapID p1 cryptKey S0 _ _ m opts Hsg Hk) as (r&q&Ho&Hfo).
  pose proof (actions_ok rootDir mmapID l (rdr r) p1 cryptKey S0 _ _ m Hsg Hfo) as Hact. rewrite Hn in Hact.
  destruct (Hact Hsu Hl) as (p2&r2&n2&m2&Hrun2&Hsg2&Hfo2&Hn2).
  destruct (follower_reads rootDir mmapID dec r2 p2 cryptKey _ _ _ m2 x Hdec Hsg2 Hfo2) as (o&r3&Hr&Hv&_).
  destruct (follower_lists rootDir mmapID r2 p2 cryptKey _ _ _ m2 Hsg2 Hfo2) as (ks&r4&Hks&Hs&Hnd&Hin).
  rewrite Hn2 in Hv, Hin. exists p1, r, q, p2, r2. do 3 (split; [done|]). split; [by exists o, r3|by exists ks, r4].
Qed.

(** C24. Paths identify files: two identifiers of a directory, neither empty nor
    "." or "..", have the same data path, or the same file name, only when they
    are equal or MD5 collides on them, and two calls for the same directory, however it is written, share a
    registry key exactly when they share the file. *)
Theorem paths_identify_files wd root1 root2 id1 id2 :
  IsAbs wd = true → usable id1 → usable id2 →
  (dataPathFor root1 id1 = dataPathFor root1 id2 → id1 = id2 ∨ md5_collision id1 id2)
  ∧ (encodeFilePath id1 = encodeFilePath id2 → id1 = id2 ∨ md5_collision id1 id2)
  ∧ (Abs (Some wd) root1 = Abs (Some wd) root2 →
     registryKey (Some wd) root1 id1 = registryKey (Some wd) root2 id2
     ↔ encodeFilePath id1 = encodeFilePath id2).
Proof.
  intros Hw H1 H2. split; [by apply dataPathFor_inj|]. split; [by apply encodeFilePath_inj|].
  by apply registryKey_same.
Qed.

(** C12. One instance per file: in every interleaving of openings, methods,
    closings and changes of the files, two open instances of the same path that
    no Close call has reached are the same, and opening the path again returns
    it without changing anything. *)
Theorem one_instance_per_file p0 p z k k' i i' :
  started p0 → rtc pstep (p0, ∅) (p, z) →
  p_insts p !! k = Some i → closed (i_m i) = false → k ∉ z →
  p_insts p !! k' = Some i' → closed (i_m i') = false → k' ∉ z →
  key (i_m i) = key (i_m i') →
  k = k' ∧ ∀ rootDir mmapID opts, registryKey (p_wd p) rootDir mmapID = key (i_m i) →
    MMKVWithID rootDir mmapID opts p = (Ok k, p).
Proof.
  intros H0 Hr Hi Hc Hz Hi' Hc' Hz' Hk. pose proof (reachable_ok _ _ _ H0 Hr) as Hg.
  pose proof (rg_open _ _ Hg k i Hi Hc Hz) as E. pose proof (rg_open _ _ Hg k' i' Hi' Hc' Hz') as E'.
  split; [congruence|]. intros rootDir mmapID opts Hq. unfold MMKVWithID.
  by rewrite Hq, (registered_entry p z _ Hg), E.
Qed.

(** C7. A session is kept: in a process reached by any interleaving, opening a
    path that has no files, or those of a store with the same key, serves its
    model; any feasible operations (as in C1), a Close and another opening, under
    the key the operations leave, serve the model they lead to, with the default lifetime
    forgotten; and every other open store, and every other file, is as it was. *)
Theorem sessions_are_kept rootDir mmapID opts opts' p0 p z d :
  let dp := dataPathFor rootDir mmapID in
  started p0 → rtc pstep (p0, ∅) (p, z) → healthy (p_env p) → fs_ok (p_fs p) →
  cached rootDir mmapID p = None → cf_readOnly (configOf opts) = false → cf_readOnly (configOf opts') = false →
  disk (p_fs p) dp (keyOf opts) d →
  ∃ k i p1, MMKVWithID rootDir mmapID opts p = (Ok k, p1) ∧ serves p1 k i dp (reopened d)
    ∧ ∀ os, feasible (now (p_env p)) os (reopened d) (actualSize (i_m i)) (encrypted (i_m i)) →
        keyOf opts' = rekeys os (keyOf opts) →
        ∃ p2 p3 k' p4, call k (exec os) p1 = (Ok tt, p2) ∧ CloseInstance k p2 = (Ok tt, p3)
          ∧ MMKVWithID rootDir mmapID opts' p3 = (Ok k', p4)
          ∧ stores p4 k' dp (reopened (steps (now (p_env p)) os (reopened d)))
          ∧ (∀ j q dj, stores p j q dj → q ∉ pathsOf dp → q ++ crcSuffix ∉ pathsOf dp → stores p4 j q dj)
          ∧ ∀ q, q ∉ pathsOf dp → content (p_fs p4) q = content (p_fs p) q.
Proof.
  intros dp H0 Hr He Hf Hca Hro Hro' Hdisk. pose proof (reachable_ok _ _ _ H0 Hr) as Hg.
  destruct (MMKVWithID_serves rootDir mmapID opts p d Hf He Hca Hro Hdisk)
    as (i&p1&Ho&Hs&Hha&Hca1&Hn1&Hk&Hc).
  exists (p_next p), i, p1. split; [done|]. split; [done|]. intros os Hfe Hkey.
  pose proof (up_ok _ _ _ (ha_files _ _ _ _ Hha)) as Hf1.
  assert (now (p_env p1) = now (p_env p)) as Et by apply (ha_env _ _ _ _ Hha). rewrite <-Et in *.
  destruct (call_refines os p1 (p_next p) i dp _ Hf1 Hs Hfe) as (i2&p2&Hcall&Hs2&Hha2&Er&En&Hk2&Hc2).
  pose proof (happens_trans _ _ _ _ _ _ (le_n _) Hha Hha2) as Hha02.
  destruct (reopens p2 (p_next p) i2 rootDir mmapID opts' (steps (now (p_env p1)) os (reopened d)))
    as (p3&k'&p4&Hcl&Ho4&Hs4&Hha4); try done.
  - exact (up_ok _ _ _ (ha_files _ _ _ _ Hha02)).
  - exact (quiet_healthy _ _ (ha_env _ _ _ _ Hha02) He).
  - unfold cached in *. by rewrite Er, (ha_wd _ _ _ _ Hha2).
  - by rewrite Hk2, Hk, (ha_wd _ _ _ _ Hha02).
  - by rewrite Hc2, Hc.
  - rewrite En, Hn1. lia.
  - exists p2, p3, k', p4. split; [done|]. split; [done|]. split; [done|]. split; [done|].
    pose proof (happens_trans _ _ _ _ _ _ (le_n _) Hha02 Hha4) as Hall. split.
    + intros j q dj Hj Hq Hq'. eapply stores_other; try done.
      destruct Hj as (ij&[Hij _ _ _]). by eapply rg_insts.
    + intros q Hq. by apply (updated_content _ _ _ _ (ha_files _ _ _ _ Hall)).
Qed.

(** C17. ImportFrom merges: from an instance that represents one model into one
    that represents another, whatever the order of the source's keys, it sets
    exactly the live pairs of the source, counts them, gives them the
    destination's default lifetime, keeps every other pair, and leaves the
    source as it was.  What it makes stays below 4 GiB. *)
Theorem import_merges `{MapOrder} d s dd sd :
  represents d dd → represents s sd →
  let live := liveMap (now (env s)) sd in
  let w := importWeight (now (env d)) live dd in
  4 + Z.max (actualSize (st d)) (len (packed (repMap dd)) + w) + w < 2 ^ 32 →
  ∃ d' s', ImportFrom Other (d, s) = (Ok (Z.of_nat (size live), None), (d', s'))
    ∧ represents d' (merge (now (env d)) live dd) ∧ represents s' sd.
Proof. apply ImportFrom_ok. Qed.

(** C18. A backup restores: BackupOne copies both files of a store byte for byte;
    restoring them later, whatever was done to the instance's own files, brings
    the bytes back, and the next typed getter of the instance that stayed open
    answers from the map that was backed up. *)
Theorem backup_restores {A} (c : codec A) set get `{!Accessors c set get} rootDir mmapID dir f e m2 b :
  let own := dataPathFor rootDir mmapID in
  let bak := dataPathFor dir mmapID in
  usable mmapID → own ≠ bak → healthy e → fs_ok f →
  content f own = Some (mf_file (data m2)) → content f (own ++ crcSuffix) = Some (mf_file (meta m2)) →
  store_ok m2 b →
  ∃ f', BackupOne rootDir mmapID dir (f, e) = (Ok tt, (f', e))
    ∧ content f' own = Some (mf_file (data m2))
    ∧ ∀ p k i x,
        healthy (p_env p) → fs_ok (p_fs p) → content (p_fs p) bak = content f' bak →
        content (p_fs p) (bak ++ crcSuffix) = content f' (bak ++ crcSuffix) →
        cached rootDir mmapID p = Some k → serving p k i own (len (mf_file (meta m2))) →
        crypt (i_m i) = crypt m2 →
        ∃ p1 p2 o, RestoreOneFromDirectory rootDir mmapID dir p = (Ok tt, p1)
          ∧ content (p_fs p1) own = Some (mf_file (data m2))
          ∧ content (p_fs p1) (own ++ crcSuffix) = Some (mf_file (meta m2))
          ∧ call k (get x) p1 = (Ok o, p2)
          ∧ decodes (c_dec c) (seen (mkSt m2 (p_env p)) b !! x) = Ok o.
Proof.
  intros own bak Hu Hne He Hf Hd Hm Hs.
  destruct (BackupOne_ok rootDir mmapID dir f e _ _ Hu He Hf Hne Hd Hm) as (f'&Hb&Hup&Hd'&Hm').
  fold bak in Hup, Hd', Hm'. exists f'. split; [exact Hb|]. split.
  - rewrite (updated_content _ _ _ own Hup); [exact Hd|].
    intros [E|E%list_elem_of_singleton]%elem_of_cons; [by apply Hne|]. by apply (paths_differ rootDir dir mmapID) in E.
  - intros p k i x Hpe Hpf Ep Ec Hk Hsv Hcr. rewrite Hd' in Ep. rewrite Hm' in Ec.
    apply (restore_ok c set get rootDir mmapID dir p k i m2 b x); try done.
Qed.

(** C25. IsFileValid says what a load will do: on files below 4 GiB it does not
    panic, it answers true exactly when the version is supported and the digest
    of the recorded region matches, and then the load of the same bytes decodes
    that region, without rollback or salvaging. *)
Theorem valid_files_are_loaded rootDir mmapID f e m mi :
  healthy e → fs_ok f → mf_ok (data m) → mf_ok (meta m) → len (mf_file (data m)) < 2 ^ 32 →
  content f (dataPathFor rootDir mmapID) = Some (mf_file (data m)) →
  content f (metaPathFor rootDir mmapID) = Some (mf_file (meta m)) →
  parseMeta (mf_file (meta m)) = Ok mi →
  ∃ v, IsFileValid rootDir mmapID (f, e) = (Ok v, (f, e))
    ∧ (v = true ↔ mi_version mi ≤ maxSupportedVersion
         ∧ acceptable (parsed mi m) (readActualSize (parsed mi m)) (mi_crcDigest mi) = Ok true)
    ∧ (v = true →
       loadData m = decodeRegion (readActualSize (parsed mi m)) (mi_crcDigest mi) (parsed mi m)).
Proof.
  intros He Hf Hd Hm Hl Ed Em Hp. rewrite IsFileValid_ok, Ed, Em by done.
  destruct (fileValid_load m mi Hd Hm Hp Hl) as (v&Hv&Hiff&Hload). exists v. by rewrite Hv.
Qed.

(** C26. RemoveStorage removes: the cached instance of the path is closed and
    leaves the registry, both files are gone, so that CheckExist says false, and
    no other file is touched. *)
Theorem remove_storage_removes rootDir mmapID p0 p z :
  started p0 → rtc pstep (p0, ∅) (p, z) → healthy (p_env p) → fs_ok (p_fs p) →
  (∀ k i, cached rootDir mmapID p = Some k → p_insts p !! k = Some i → on_disk (p_fs p) i) →
  ∃ p', RemoveStorage rootDir mmapID p = (Ok tt, p')
    ∧ cached rootDir mmapID p' = None
    ∧ (∀ k, cached rootDir mmapID p = Some k → ∃ i, p_insts p' !! k = Some i ∧ closed (i_m i) = true)
    ∧ (CheckExist rootDir mmapID (p_fs p', p_env p')).1 = Ok false
    ∧ ∀ q, q ≠ dataPathFor rootDir mmapID → q ≠ metaPathFor rootDir mmapID →
        content (p_fs p') q = content (p_fs p) q.
Proof.
  intros H0 Hr He Hf Hd.
  destruct (RemoveStorage_ok rootDir mmapID p z (reachable_ok _ _ _ H0 Hr) He Hf Hd)
    as (p'&Hrun&Hc&Hk&H1&H2&Ho&_&Ee&Hf').
  exists p'. split; [done|]. split; [done|]. split; [done|]. split; [|done].
  rewrite CheckExist_ok, H1 by (done || by rewrite Ee). cbn [fst].
  rewrite bool_decide_eq_false_2; [done|]. by intros [[] _].
Qed.

End theorems.

(** ** Several processes at one lock *)

(** C13. The lock excludes: however the calls of the methods of several
    descriptors are interleaved, and whichever requests the kernel refuses, while
    a descriptor has an exclusive reference, no other one holds the lock, inside
    a method or not, and none that is between methods has a reference. *)
Theorem exclusive_lock_excludes w0 w p q l h s :
  world_new w0 → wsteps w0 w →
  w !! p = Some (mkPeer l h None) → 0 < exclusive l → w !! q = Some s → p ≠ q →
  pe_held s = Unheld
  ∧ (pe_act s = None → shared (pe_lock s) = 0 ∧ exclusive (pe_lock s) = 0).
Proof. intros Hn Hs. by apply exclusion, (wsteps_ok w0). Qed.

(** C19. Locking makes progress: a descriptor inside a method can take a step, or
    it waits for another one that holds the lock and is between methods or can
    take a step itself, so that no set of waiting calls blocks itself; each of
    its steps leaves it fewer calls to make, and no method makes more than five. *)
Theorem locking_makes_progress w0 w p l h a :
  world_new w0 → wsteps w0 w → w !! p = Some (mkPeer l h (Some a)) →
  ((∃ w', wstep w p w')
   ∨ ∃ q s, w !! q = Some s ∧ q ≠ p ∧ pe_held s ≠ Unheld ∧ (pe_act s = None ∨ ∃ w', wstep w q w'))
  ∧ (∀ w', wstep w p w' → ∃ s', w' !! p = Some s' ∧ (left_to_do s' < calls a)%nat)
  ∧ ∀ t k, (calls (lockA t k) ≤ 5 ∧ calls (tryLockA t k) ≤ 5 ∧ calls (unlockA t k) ≤ 5)%nat.
Proof.
  intros Hn Hs Hp. split; [by eapply progress; [eapply wsteps_ok|]|].
  split; [intros w' Hw; by eapply wstep_calls|apply calls_bound].
Qed.

(** ** Instances *)

Lemma store_keeps_its_types_witness :
  let s := demo0 in
  typed (st (run (OEnableExpire 60) s).2) ∧ typed (st (reading 0 (fun m _ => Ok (actualSize m)) s).2)
  ∧ typed (st (syncFlush true s).2) ∧ typed (st (ClearMemoryCache s).2) ∧ typed (st (Close s).2)
  ∧ ∀ root id q multi ro cryptKey handler recov e dfile mfile,
      typed (st (open dfile mfile (mkSt (newMMKV root id q multi ro cryptKey handler recov) e)).2).
Proof.
  apply (store_keeps_its_types 0 (fun m _ => Ok (actualSize m)) (OEnableExpire 60) demo0); [|calc].
  apply (open_typed (inst false [] false false) env0 None None); [apply newMMKV_typed|reflexivity].
Defined.

Lemma loading_and_resizing_end_witness :
  let m := st (run (OSet kA vA) demo0).2 in
  let fs := fileSize (data m) in
  let live := actualSize m + 4 in
  (loadData m).1 ≠ NoFuel
  ∧ (∃ n, growLoop 64 (growth true 10 1000 (Z.of_nat (size (dict m))) fs).1 (if fs <? 1 then 1 else fs) = Ok n
      ∧ 4 + 1000 + 10 < n)
  ∧ (live ≤ fs → ∃ n, trimLoop (S (Z.to_nat (Z.log2 fs))) (live * 2) fs = Ok n ∧ live ≤ n ≤ live * 2)
  ∧ live ≤ fs.
Proof.
  intros m fs live.
  assert (typed m) as Ht.
  { apply run_typed; [calc|].
    apply (open_typed (inst false [] false false) env0 None None); [apply newMMKV_typed|reflexivity]. }
  destruct (loading_and_resizing_end m true 10 1000 Ht) as (?&?&?); [calc|calc|calc|calc|].
  split; [done|]. split; [done|]. split; [done|calc].
Defined.

Lemma paths_identify_files_witness :
  let wd := lit "/home" in let r1 := lit "/home/d" in let r2 := lit "d" in
  let a := lit "a" in let b := lit "b" in
  (dataPathFor r1 a = dataPathFor r1 b → a = b ∨ md5_collision a b)
  ∧ (encodeFilePath a = encodeFilePath b → a = b ∨ md5_collision a b)
  ∧ (Abs (Some wd) r1 = Abs (Some wd) r2 →
     registryKey (Some wd) r1 a = registryKey (Some wd) r2 b ↔ encodeFilePath a = encodeFilePath b).
Proof. apply paths_identify_files; [calc|split; calc|split; calc]. Defined.

(** A process at the root directory, without files, and one that opened a store. *)
Definition proc0 : proc := mkProc (mkFs ∅ ∅ 0) env0 (Some (lit "/")) ∅ ∅ 0.
Definition idA : gostring := lit "a".
Definition dirD : gostring := lit "d".
Definition dirB : gostring := lit "b".
Definition opening : outcome nat * proc := MMKVWithID dirD idA [] proc0.
Definition proc1 : proc := opening.2.
Definition noInstance : instance := mkInstance (inst false [] false false) Unheld 0 0 0.
Definition inst1 : instance := default noInstance (p_insts proc1 !! 0%nat).

Lemma proc0_started : started proc0.
Proof. done. Qed.
Lemma proc0_fs_ok : fs_ok (p_fs proc0).
Proof. by split. Qed.
Lemma proc1_reached : rtc pstep (proc0, ∅) (proc1, ∅).
Proof. apply rtc_once. apply (step_open dirD idA [] opening.1). apply surjective_pairing. Qed.
Lemma proc1_inst : p_insts proc1 !! 0%nat = Some inst1.
Proof. calc. Qed.
Lemma proc1_open : closed (i_m inst1) = false.
Proof. calc. Qed.
Lemma proc1_on_disk k i :
  cached dirD idA proc1 = Some k → p_insts proc1 !! k = Some i → on_disk (p_fs proc1) i.
Proof.
  assert (cached dirD idA proc1 = Some 0%nat) as -> by calc. intros <-%(inj Some). rewrite proc1_inst. intros <-%(inj Some).
  unfold on_disk. split; [exists (default [] (inodes (p_fs proc1) !! i_data inst1))|exists (default [] (inodes (p_fs proc1) !! i_meta inst1))];
    vm_compute; reflexivity.
Qed.

Lemma one_instance_per_file_witness :
  0%nat = 0%nat ∧ ∀ rootDir mmapID opts, registryKey (p_wd proc1) rootDir mmapID = key (i_m inst1) →
    MMKVWithID rootDir mmapID opts proc1 = (Ok 0%nat, proc1).
Proof.
  apply (one_instance_per_file proc0 proc1 ∅ 0 0 inst1 inst1);
    [exact proc0_started|exact proc1_reached|exact proc1_inst|exact proc1_open|apply not_elem_of_empty
    |exact proc1_inst|exact proc1_open|apply not_elem_of_empty|reflexivity].
Defined.

(** Beside that store, a session with another one, under a key that is changed. *)
Definition idB : gostring := lit "b".
Definition pathA : gostring := dataPathFor dirD idA.
Definition pathB : gostring := dataPathFor dirD idB.
Definition sessionB : list op := [OSet kA vA; OEnableExpire 60; OReKey secret; OSet kB vA].
Definition opening2 : outcome nat * proc := MMKVWithID dirD idB [] proc1.
Definition procB : proc := opening2.2.
Definition instB : instance := default noInstance (p_insts procB !! 1%nat).

Lemma proc1_env : healthy (p_env proc1).
Proof. calc. Qed.
Lemma proc1_serves : stores proc1 0 pathA (mkModel ∅ None).
Proof.
  destruct (MMKVWithID_serves dirD idA [] proc0 (mkModel ∅ None)) as (i&p'&Ho&Hs&_);
    [exact proc0_fs_ok|calc|calc|calc|apply disk_none; calc|].
  exists i. apply (f_equal snd) in Ho. cbn [snd] in Ho. fold opening in Ho. unfold proc1. rewrite Ho. exact Hs.
Qed.
Lemma procB_opened : MMKVWithID dirD idB [] proc1 = (Ok 1%nat, procB).
Proof. unfold procB, opening2. rewrite (surjective_pairing (MMKVWithID _ _ _ _)) at 1. f_equal. Qed.
Lemma procB_inst : p_insts procB !! 1%nat = Some instB.
Proof. calc. Qed.

Lemma sessions_are_kept_witness :
  ∃ p2 p3 k' p4, call 1 (exec sessionB) procB = (Ok tt, p2) ∧ CloseInstance 1 p2 = (Ok tt, p3)
    ∧ MMKVWithID dirD idB [WithCryptKey secret] p3 = (Ok k', p4)
    ∧ stores p4 k' pathB (mkModel {[kA := (vA, 0); kB := (vA, 1060)]} (Some 0))
    ∧ stores p4 0 pathA (mkModel ∅ None).
Proof.
  destruct (sessions_are_kept dirD idB [] [WithCryptKey secret] proc0 proc1 ∅ (mkModel ∅ None))
    as (k&i&p1&Ho&Hs&Hrest);
    [exact proc0_started|exact proc1_reached|exact proc1_env|apply MMKVWithID_fs_ok; exact proc0_fs_ok
    |calc|calc|calc|apply disk_none; calc|].
  pose proof (eq_trans (eq_sym procB_opened) Ho) as E.
  assert (Ok k = Ok 1%nat) as Ek by exact (eq_sym (f_equal fst E)). injection Ek as ->.
  assert (p1 = procB) as -> by exact (eq_sym (f_equal snd E)). clear E.
  pose proof (eq_trans (eq_sym procB_inst) (se_inst _ _ _ _ _ Hs)) as Ei. apply (inj Some) in Ei. subst i.
  destruct (Hrest sessionB) as (p2&p3&k'&p4&H1&H2&H3&H4&H5&_);
    [apply (bool_decide_unpack _); vm_compute; exact I|calc|].
  exists p2, p3, k', p4. split; [exact H1|]. split; [exact H2|]. split; [exact H3|]. split.
  - assert (reopened (steps (now (p_env proc1)) sessionB (reopened (mkModel ∅ None)))
      = mkModel {[kA := (vA, 0); kB := (vA, 1060)]} (Some 0)) as <- by calc. exact H4.
  - apply (H5 0%nat pathA); [exact proc1_serves|apply pathsOf_apart; calc|apply pathsOf_apart; calc].
Defined.

(** Two processes at one store: the second finds what the first set, turns
    expiration on and sets another key, which the first then reads, and sets
    again, for ever, as its own default lifetime is zero.  Each takes the lock
    for a while, the first of them twice. *)
Definition together : list MMKVOption := [WithMultiProcess; WithCryptKey secret].
Definition sharedRun : list event :=
  [Enters together; Writes 0 (OSet kA vA); Locks 0; Locks 0; Unlocks 0; Enters together; Unlocks 0; Locks 1;
   Reads 1 kA; Writes 1 (OEnableExpire 60); Writes 1 (OSet kB (bytesBlob vB)); Unlocks 1; Unlocks 0;
   Writes 0 OTrim; Writes 0 (OSet kA (bytesBlob vA)); Writes 1 (ORemoveMany [kA])].

Lemma processes_share_one_map_witness :
  ∃ p1 p2, performs dirD idA sharedRun proc0 = (Ok tt, p1) ∧ call 0 (GetBytesCopy kB) p1 = (Ok (Some vB), p2).
Proof.
  destruct (processes_share_one_map bytes_codec SetBytes GetBytesCopy dirD idA secret proc0 sharedRun 0 kB)
    as (p1&o&p2&Hrun&Hget&Ho); [exact proc0_fs_ok|calc|calc|calc|apply (bool_decide_unpack _); vm_compute; exact I
    |calc|apply (bool_decide_unpack _); vm_compute; exact I|calc|].
  exists p1, p2. split; [exact Hrun|]. rewrite Hget. f_equal.
  assert (Ok (Some vB) = Ok o) as <-; [|reflexivity].
  rewrite <-Ho. calc.
Defined.

(** A Reader of the encrypted store of [sharedRun] reads now and then, and misses
    an append, a removal, a full write-back and an opening. *)
Definition beforeReader : list event := [Enters together; Writes 0 (OSet kA vA)].
Definition besideReader : list action :=
  [Look kA; Turn (Enters together); Turn (Writes 1 (OSet kB (bytesBlob vA))); Look kB; Turn (Writes 0 (OEnableExpire 60));
   Turn (Writes 1 (ORemoveMany [kA])); Turn (Locks 1); Turn (Writes 1 (OSet kB (bytesBlob vB))); Turn (Unlocks 1)].

Lemma reader_follows_processes_witness :
  ∃ p1 r q p2 r2 r3, performs dirD idA beforeReader proc0 = (Ok tt, p1)
    ∧ OpenReader dirD idA [WithEncryption secret] (p_fs p1, set_held Unheld (p_env p1)) = (Ok r, q)
    ∧ acts dirD idA besideReader (p1, rdr r) = (Ok tt, (p2, r2))
    ∧ looking dirD idA (Reader_GetBytesCopy kB) p2 r2 = (Ok (Some vB), r3).
Proof.
  destruct (reader_follows_processes readData dirD idA secret [WithEncryption secret] proc0 beforeReader besideReader kB)
    as (p1&r&q&p2&r2&Hrun&Ho&Ha&(o&r3&Hr&Hv)&_);
    [exact total_data|done|exact proc0_fs_ok|calc|calc|calc|apply (bool_decide_unpack _); vm_compute; exact I
    |done|calc|apply (bool_decide_unpack _); vm_compute; exact I|calc|calc|].
  exists p1, r, q, p2, r2, r3. do 3 (split; [done|]).
  assert (Ok (Some vB) = Ok o) as E; [|injection E as <-; exact Hr].
  rewrite <-Hv. calc.
Defined.

(** Two processes count: the first takes the lock, counts and gives the lock back,
    then sets another key; the second takes the lock and counts too. *)
Definition counting : list event := [Enters [WithMultiProcess]; Enters [WithMultiProcess]; Writes 0 (OSet kA vA)].
Definition sharedCount : share := Eval vm_compute in turns (now (p_env proc0)) counting (unshared (p_next proc0)).
Definition increment (o : option Z) : Z := i32 (default 0 o + 1).
Definition procCount : proc := Eval vm_compute in (performs dirD idA counting proc0).2.

Definition atStart : updaters Z := starts sharedCount procCount.
Definition locked0 : updaters Z := moves 0 Owning (call 0 Lock (ur_proc atStart)).2 atStart.
Definition saw0 : updaters Z := moves 0 (Saw None) (call 0 (GetInt32 kB) (ur_proc locked0)).2 locked0.
Definition stored0 : updaters Z :=
  mkUpdaters (call 0 (SetInt32 kB (increment None)) (ur_proc saw0)).2 (<[0%nat:=Stored]> (ur_phase saw0)) 1.
Definition unlocked0 : updaters Z := moves 0 Idle (call 0 Unlock (ur_proc stored0)).2 stored0.
Definition elsewhere0 : updaters Z := moves 0 Idle (call 0 (run (OSet kA vB)) (ur_proc unlocked0)).2 unlocked0.
Definition locked1 : updaters Z := moves 1 Owning (call 1 Lock (ur_proc elsewhere0)).2 elsewhere0.
Definition saw1 : updaters Z := moves 1 (Saw (Some 1)) (call 1 (GetInt32 kB) (ur_proc locked1)).2 locked1.
Definition stored1 : updaters Z :=
  mkUpdaters (call 1 (SetInt32 kB (increment (Some 1))) (ur_proc saw1)).2 (<[1%nat:=Stored]> (ur_phase saw1)) 2.

(** What a call gives is its outcome and the state it leaves. *)
Lemma gives {B C : Type} (r : B * C) b : r.1 = b → r = (b, r.2).
Proof. by destruct r; cbn; intros ->. Qed.

(** The calls follow one another as the kernel grants the lock. *)
Ltac counted := intros; apply grantedb_ok, (bool_decide_unpack _); vm_compute; exact I.
Lemma counts_reached : nsteps (anystep dirD idA [] SetInt32 GetInt32 kB increment 40) 8 atStart stored1.
Proof.
  eapply nsteps_l; [exists 0%nat; eapply (us_lock _ _ _ _ _ _ _ _ 0%nat atStart); [calc|counted|apply surjective_pairing]|].
  fold locked0.
  eapply nsteps_l; [exists 0%nat; eapply (us_get _ _ _ _ _ _ _ _ 0%nat locked0); [calc|counted|apply gives; calc]|].
  fold saw0.
  eapply nsteps_l; [exists 0%nat; eapply (us_set _ _ _ _ _ _ _ _ 0%nat saw0); [calc|counted|apply surjective_pairing]|].
  fold stored0.
  eapply nsteps_l; [exists 0%nat; eapply (us_unlock _ _ _ _ _ _ _ _ 0%nat stored0); [calc|apply surjective_pairing]|].
  fold unlocked0.
  eapply nsteps_l; [exists 0%nat; eapply (us_write _ _ _ _ _ _ _ _ 0%nat unlocked0 (OSet kA vB));
    [calc|counted|apply surjective_pairing|done|done|calc]|].
  fold elsewhere0.
  eapply nsteps_l; [exists 1%nat; eapply (us_lock _ _ _ _ _ _ _ _ 1%nat elsewhere0); [calc|counted|apply surjective_pairing]|].
  fold locked1.
  eapply nsteps_l; [exists 1%nat; eapply (us_get _ _ _ _ _ _ _ _ 1%nat locked1); [calc|counted|apply gives; calc]|].
  fold saw1.
  eapply nsteps_l; [exists 1%nat; eapply (us_set _ _ _ _ _ _ _ _ 1%nat saw1); [calc|counted|apply surjective_pairing]|].
  fold stored1. apply nsteps_O.
Qed.

Lemma increment_i32 o : is_i32 (increment o).
Proof. unfold is_i32, increment, i32. pose proof (Z.mod_pos_bound (default 0 o + 1 + 2 ^ 31) (2 ^ 32)). lia. Qed.
Lemma increment_cost o : cost (OSet kB (c_enc int32_codec (increment o))) ≤ 40.
Proof.
  cbn [cost c_enc int32_codec]. rewrite int32Blob_varint by apply increment_i32.
  pose proof (varint_length_le10 (u64 (increment o))). change (len kB) with 1. lia.
Qed.

Lemma locked_updates_are_atomic_witness : ∃ p', call 1 (GetInt32 kB) (ur_proc stored1) = (Ok (Some 2), p').
Proof.
  destruct (locked_updates_are_atomic int32_codec SetInt32 GetInt32 increment kB 40 dirD idA [] proc0 counting
    procCount 8 stored1) as (o0&Ho&Hu);
    [exact proc0_fs_ok|calc|calc|calc|apply (bool_decide_unpack _); vm_compute; exact I|done|calc
    |calc|apply (bool_decide_unpack _); vm_compute; exact I|done|exact increment_i32|exact increment_cost
    |calc|apply (bool_decide_unpack _); vm_compute; exact I|exact counts_reached|].
  assert (Ok None = Ok o0) as E by (rewrite <-Ho; calc). injection E as <-.
  destruct (Hu 1%nat Stored) as [[p' Hp'] _]; [calc|counted|]. exists p'. exact Hp'.
Defined.

(** The order in which stdpp lists a map is one of the orders of a range. *)
#[local] Instance listed : MapOrder := {
  range d := (map_to_list d).*1;
  range_perm d := Permutation_refl _;
}.

Definition modelA : model := mkModel {[kA := (vA, 0)]} None.
Lemma demo1_represents : represents demo1 modelA.
Proof.
  destruct (set_refines demo0 (mkModel ∅ None) kA vA demo0_represents) as (s'&Hs&[Hr _ _ _]).
  { split; [done|]. exact demo0_can_set. }
  unfold demo1. cbn [run] in Hs. rewrite Hs. exact Hr.
Qed.

Lemma import_merges_witness :
  ∃ d' s', ImportFrom Other (demo0, demo1) = (Ok (1, None), (d', s'))
    ∧ represents d' (merge 1000 (liveMap 1000 modelA) (mkModel ∅ None)) ∧ represents s' modelA.
Proof.
  destruct (import_merges demo0 demo1 (mkModel ∅ None) modelA demo0_represents demo1_represents)
    as (d'&s'&Hi&Hd&Hs); [calc|].
  exists d', s'. split; [exact Hi|]. split; [exact Hd|exact Hs].
Defined.

(** The files of a store with one pair, at the paths of its identifier. *)
Definition filesA : fs :=
  Files.written (metaPathFor dirD idA) (mf_file (meta (st demo1)))
    (Files.written (dataPathFor dirD idA) (mf_file (data (st demo1))) (mkFs ∅ ∅ 0)).

Lemma filesA_ok : fs_ok filesA.
Proof. apply keep_fs_ok with (b := Some _). apply keep_fs_ok with (b := Some _). exact proc0_fs_ok. Qed.
Lemma idA_usable : usable idA.
Proof. split_and!; calc. Qed.
Lemma filesA_data : content filesA (dataPathFor dirD idA) = Some (mf_file (data (st demo1))).
Proof. calc. Qed.
Lemma filesA_meta : content filesA (metaPathFor dirD idA) = Some (mf_file (meta (st demo1))).
Proof. calc. Qed.
Lemma demo1_meta_ok : mf_ok (meta (st demo1)).
Proof. exact (fo_meta _ (so_files _ _ (ru_store _ _ demo1_running))). Qed.
Lemma demo1_data_ok : mf_ok (data (st demo1)).
Proof. exact (fo_data _ (so_files _ _ (ru_store _ _ demo1_running))). Qed.
Lemma demo1_parses : parseMeta (mf_file (meta (st demo1))) = Ok (info (st demo1)).
Proof. calc. Qed.

Lemma valid_files_are_loaded_witness :
  IsFileValid dirD idA (filesA, env0) = (Ok true, (filesA, env0))
  ∧ ∃ v, IsFileValid dirD idA (filesA, env0) = (Ok v, (filesA, env0))
    ∧ (v = true ↔ mi_version (info (st demo1)) ≤ maxSupportedVersion
         ∧ acceptable (parsed (info (st demo1)) (st demo1)) (readActualSize (parsed (info (st demo1)) (st demo1)))
             (mi_crcDigest (info (st demo1))) = Ok true)
    ∧ (v = true → loadData (st demo1)
         = decodeRegion (readActualSize (parsed (info (st demo1)) (st demo1))) (mi_crcDigest (info (st demo1)))
             (parsed (info (st demo1)) (st demo1))).
Proof.
  split; [calc|].
  apply (valid_files_are_loaded dirD idA filesA env0 (st demo1) (info (st demo1)));
    [reflexivity|exact filesA_ok|exact demo1_data_ok|exact demo1_meta_ok|calc|exact filesA_data
    |exact filesA_meta|exact demo1_parses].
Defined.

(** The store of the process is written, backed up and written again. *)
Definition proc2 : proc := (call 0 (SetUInt32 kA 300) proc1).2.
Definition proc3 : proc := (onFs (BackupOne dirD idA dirB) proc2).2.
Definition proc4 : proc := (call 0 (SetUInt32 kA 7) proc3).2.
Definition inst4 : instance := default noInstance (p_insts proc4 !! 0%nat).

Lemma proc1_fs_ok : fs_ok (p_fs proc1).
Proof. apply MMKVWithID_fs_ok. exact proc0_fs_ok. Qed.
Lemma proc2_fs_ok : fs_ok (p_fs proc2).
Proof.
  apply call_fs_ok; [exact proc1_fs_ok|]. intros i Hi. apply (proc1_on_disk 0%nat); [vm_compute; reflexivity|exact Hi].
Qed.
Lemma proc2_data : content (p_fs proc2) (dataPathFor dirD idA) = Some (mf_file (data (st demo1))).
Proof. calc. Qed.
Lemma proc2_meta : content (p_fs proc2) (metaPathFor dirD idA) = Some (mf_file (meta (st demo1))).
Proof. calc. Qed.
Lemma proc4_inst : p_insts proc4 !! 0%nat = Some inst4.
Proof. calc. Qed.
Lemma proc4_serves : serving proc4 0 inst4 (dataPathFor dirD idA) (len (mf_file (meta (st demo1)))).
Proof.
  split; [exact proc4_inst|calc|calc|calc|calc|calc|exists 0%nat; calc|exists 0%nat; calc|calc|calc].
Qed.
Lemma proc3_copied : content (p_fs proc4) (dataPathFor dirB idA) = content (p_fs proc3) (dataPathFor dirB idA)
  ∧ content (p_fs proc4) (metaPathFor dirB idA) = content (p_fs proc3) (metaPathFor dirB idA).
Proof. calc. Qed.

Lemma onFs_fs {A} (c : FS A) p o f e : c (p_fs p, p_env p) = (o, (f, e)) → p_fs (onFs c p).2 = f.
Proof. unfold onFs, zoom. by intros ->. Qed.
Lemma proc3_on_disk i : p_insts proc3 !! 0%nat = Some i → on_disk (p_fs proc3) i.
Proof.
  intros Hi. assert (p_insts proc3 !! 0%nat = Some (default noInstance (p_insts proc3 !! 0%nat))) as E by calc.
  rewrite E in Hi. apply (inj Some) in Hi as <-. split.
  - exists (default [] (inodes (p_fs proc3) !! i_data (default noInstance (p_insts proc3 !! 0%nat)))). calc.
  - exists (default [] (inodes (p_fs proc3) !! i_meta (default noInstance (p_insts proc3 !! 0%nat)))). calc.
Qed.
Lemma proc4_fs_ok : fs_ok (p_fs proc3) → fs_ok (p_fs proc4).
Proof. intros Hf. apply call_fs_ok; [exact Hf|exact proc3_on_disk]. Qed.
Lemma proc3_fs_ok : fs_ok (p_fs proc3).
Proof.
  destruct (BackupOne_ok dirD idA dirB (p_fs proc2) (p_env proc2) _ _ idA_usable eq_refl proc2_fs_ok
    ltac:(calc) proc2_data proc2_meta) as (f'&Hb&Hup&_).
  unfold proc3. rewrite (onFs_fs _ _ _ _ _ Hb). exact (up_ok _ _ _ Hup).
Qed.
Lemma proc4_cached : cached dirD idA proc4 = Some 0%nat.
Proof. calc. Qed.
Lemma proc4_healthy : healthy (p_env proc4).
Proof. calc. Qed.
Lemma proc4_plain : crypt (i_m inst4) = crypt (st demo1).
Proof. calc. Qed.
Lemma sees300 o :
  decodes readUInt32 (seen (mkSt (st demo1) (p_env proc4)) {[kA := vA]} !! kA) = Ok o → o = Some 300.
Proof. intros Ho. vm_compute in Ho. by injection Ho as <-. Qed.

Lemma backup_restores_witness :
  ∃ p1 p2, RestoreOneFromDirectory dirD idA dirB proc4 = (Ok tt, p1)
    ∧ content (p_fs p1) (dataPathFor dirD idA) = Some (mf_file (data (st demo1)))
    ∧ call 0 (GetUInt32 kA) p1 = (Ok (Some 300), p2).
Proof.
  destruct (backup_restores uint32_codec SetUInt32 GetUInt32 dirD idA dirB (p_fs proc2) (p_env proc2) (st demo1)
    {[kA := vA]}) as (f'&Hb&_&Hrest);
    [exact idA_usable|calc|calc|exact proc2_fs_ok|exact proc2_data|exact proc2_meta|exact (ru_store _ _ demo1_running)|].
  pose proof (onFs_fs _ proc2 _ _ _ Hb) as Ef. subst f'.
  destruct (Hrest proc4 0%nat inst4 kA proc4_healthy (proc4_fs_ok proc3_fs_ok) (proj1 proc3_copied)
    (proj2 proc3_copied) proc4_cached proc4_serves proc4_plain) as (p1&p2&o&Hr&Hd&_&Hg&Ho).
  exists p1, p2. split; [exact Hr|]. split; [exact Hd|]. apply sees300 in Ho. subst o. exact Hg.
Defined.

Lemma remove_storage_removes_witness :
  ∃ p', RemoveStorage dirD idA proc1 = (Ok tt, p')
    ∧ cached dirD idA p' = None
    ∧ (∀ k, cached dirD idA proc1 = Some k → ∃ i, p_insts p' !! k = Some i ∧ closed (i_m i) = true)
    ∧ (CheckExist dirD idA (p_fs p', p_env p')).1 = Ok false
    ∧ ∀ q, q ≠ dataPathFor dirD idA → q ≠ metaPathFor dirD idA → content (p_fs p') q = content (p_fs proc1) q.
Proof.
  apply (remove_storage_removes dirD idA proc0 proc1 ∅);
    [exact proc0_started|exact proc1_reached|calc|apply MMKVWithID_fs_ok; exact proc0_fs_ok|exact proc1_on_disk].
Defined.

(** Two descriptors; the first locks exclusively. *)
Definition idle : peer := mkPeer newFileLock Unheld None.
Definition world0 : world := <[0%nat := idle]> {[1%nat := idle]}.
Definition asking : world := <[0%nat := mkPeer newFileLock Unheld (Some (lockA exclusiveLock newFileLock))]> world0.
Definition granted1 : world :=
  <[0%nat := mkPeer newFileLock HeldExclusive (Some (counted (addExclusive 1) newFileLock None))]> asking.
Definition locked : world := <[0%nat := mkPeer (mkFileLock 0 1) HeldExclusive None]> granted1.

Lemma world0_new : world_new world0.
Proof. apply map_Forall_insert_2; [done|]. by apply map_Forall_singleton. Qed.
Lemma asking_reached : wsteps world0 asking.
Proof. apply rtc_once. exists 0%nat. by apply (ws_lock world0 0 newFileLock Unheld exclusiveLock). Qed.
Lemma asking_grantable : grantable asking 0 LOCK_EX.
Proof.
  intros q s Hq Hne. unfold asking, world0 in Hq. rewrite !lookup_insert_ne in Hq by done.
  by apply lookup_singleton_Some in Hq as [_ <-].
Qed.
Lemma locked_reached : wsteps world0 locked.
Proof.
  eapply rtc_r; [eapply rtc_r; [exact asking_reached|]|]; exists 0%nat.
  - exact (ws_grant asking 0 newFileLock Unheld LOCK_EX false _ eq_refl asking_grantable).
  - exact (ws_return granted1 0 newFileLock HeldExclusive (mkFileLock 0 1) (Ok true) eq_refl).
Qed.

Lemma exclusive_lock_excludes_witness :
  Unheld = Unheld ∧ (@None act = None → 0 = 0 ∧ 0 = 0).
Proof.
  apply (exclusive_lock_excludes world0 locked 0 1 (mkFileLock 0 1) HeldExclusive idle);
    [exact world0_new|exact locked_reached|reflexivity|calc|reflexivity|calc].
Defined.

Lemma locking_makes_progress_witness :
  ((∃ w', wstep asking 0 w')
   ∨ ∃ q s, asking !! q = Some s ∧ q ≠ 0%nat ∧ pe_held s ≠ Unheld
       ∧ (pe_act s = None ∨ ∃ w', wstep asking q w'))
  ∧ (∀ w', wstep asking 0 w' → ∃ s', w' !! 0%nat = Some s' ∧ (left_to_do s' < calls (lockA exclusiveLock newFileLock))%nat)
  ∧ ∀ t k, (calls (lockA t k) ≤ 5 ∧ calls (tryLockA t k) ≤ 5 ∧ calls (unlockA t k) ≤ 5)%nat.
Proof.
  apply (locking_makes_progress world0 asking 0 newFileLock Unheld (lockA exclusiveLock newFileLock));
    [exact world0_new|exact asking_reached|reflexivity].
Defined.
