(* ===== verification/Divergences.v ===== *)
(** * Where the code does not do what it means to

    What a RemoveValueForKey does to every encrypted store it appends to, and
    concrete runs that end in a corrupt store, a panic, or an error that did not
    leave things as they were.  They mark the edges of the theorems: a single
    removal is for plaintext stores, keys are not empty, the system calls of a
    write succeed. *)

From S2P Require Import Prelude GoInt Wire Crc32 Meta Dict Crypt MemFile Flock Store StoreOps.
From S2P Require Import StoreInv StoreRun Open EncryptedRemove Path Files Registry Api Samples.

(** Opening the files of a store again with a new instance. *)
Definition reopened (s : St) (m0 : MMKV) : outcome unit * St :=
  open (Some (mf_file (data (st s)))) (Some (mf_file (meta (st s)))) (mkSt m0 env0).

(** ** RemoveValueForKey on an encrypted store

    The tombstone is appended in plaintext behind the ciphertext, and the digest
    covers it: the removal succeeds, and the next load decrypts it to garbage. *)

Section encrypted.
Context `{Platform}.

(** C40. RemoveValueForKey corrupts every encrypted store it appends to.  The
    removal succeeds, and the instance shows the map without the key; but the
    region of the file now ends in the plaintext tombstone.  An instance that opens
    the files under the key, for writing, accepts the region by its digest and
    decrypts the tombstone to its exclusive or with the key stream, which is the
    tombstone only if that piece of the key stream is zero: it finds the map that
    these bytes make behind the old log, or fails with the error they give. *)
Theorem encrypted_remove_corrupts s b k a m0 e :
  running s b → crypt (st s) = Some a → can_append (st s) b k →
  brand_new m0 → crypt m0 = Some a → healthy e → held e = Unheld →
  let iv := mi_iv (info (st s)) in
  let tomb := pair_bytes (k, []) in
  let keyStream := streamAfter a iv (region (st s)) tomb in
  ∃ s' plain, RemoveValueForKey k s = (Ok tt, s') ∧ dict_is (st s') (delete k b)
    ∧ region (st s') = region (st s) ++ tomb
    ∧ Decrypt a (region (st s)) iv = Ok plain ∧ (∃ vd, parseDict plain = Ok vd ∧ show plain vd = b)
    ∧ (zip_with bxor tomb keyStream = tomb ↔ keyStream = zeros (length tomb))
    ∧ let found := plain ++ zip_with bxor tomb keyStream in
      let opening := open (Some (mf_file (data (st s')))) (Some (mf_file (meta (st s')))) (mkSt m0 e) in
      match parseDict found with
      | Ok vd => ∃ s2, opening = (Ok tt, s2) ∧ running s2 (show found vd)
      | Err err => opening.1 = Err err
      | _ => False
      end.
Proof.
  intros Hr Hk Hc Hn0 Hk0 He Hh iv tomb keyStream.
  destruct (remove_appends s b k Hr Hc) as (s'&Hrun&Ht&_).
  destruct (so_plain _ _ (ru_store _ _ Hr)) as (plain&vd&Hdec&Hp&Hb).
  pose proof (tombstoned_opens _ _ _ _ a plain m0 e Ht Hk Hdec (so_version _ _ (ru_store _ _ Hr)) Hn0 Hk0 He Hh) as Ho.
  exists s', plain. split; [done|]. split; [apply Ht|]. split; [apply Ht|]. unfold decrypts in Hdec. rewrite Hk in Hdec.
  split; [done|]. split; [by exists vd|]. split; [apply garbled_same|exact Ho].
Qed.

End encrypted.

(** One value under a key: after the removal, which succeeds, the files can not be
    opened any more. *)
Lemma encrypted_remove_corrupts_witness :
  ∃ s' plain, RemoveValueForKey kA demoE1 = (Ok tt, s') ∧ dict_is (st s') (delete kA {[kA := vA]})
    ∧ region (st s') = region (st demoE1) ++ pair_bytes (kA, [])
    ∧ Decrypt (newAESCFB secret) (region (st demoE1)) (mi_iv (info (st demoE1))) = Ok plain
    ∧ (reopened s' (inst false secret false false)).1 = Err ErrUnexpectedEOF.
Proof.
  destruct (encrypted_remove_corrupts demoE1 {[kA := vA]} kA (newAESCFB secret) (inst false secret false false) env0)
    as (s'&plain&Hr&Hd&Hreg&Hdec&_&_&Ho); [exact demoE1_running|calc| |apply inst_new|calc..|].
  - split; [eexists; reflexivity|calc..].
  - exists s', plain. split; [exact Hr|]. split; [exact Hd|]. split; [exact Hreg|]. split; [exact Hdec|].
    assert (s' = (RemoveValueForKey kA demoE1).2) as -> by (by rewrite Hr). calc.
Defined.

(** ** The empty key

    It is stored like any other, but the readers skip a pair with an empty key
    without its value: the log can not be parsed any more. *)

Definition emptyKeySet : outcome unit * St := SetString [] [Byte.x68; Byte.x69] demo1.

(** A pair with an empty key makes any log unreadable: appended with a value
    to a region that parses, it leaves one that does not. *)
Theorem empty_key_unreadable plain m v :
  plain ≠ [] → parseDict plain = Ok m → v ≠ [] → is_u32 (len v) →
  parseDict (plain ++ pair_bytes ([], v)) = Err ErrUnexpectedEOF.
Proof. apply parseDict_empty_key. Qed.

Lemma empty_key_unreadable_witness :
  parseDict (itemSizeHolderBytes ++ pair_bytes ([], vA)) = Err ErrUnexpectedEOF.
Proof. apply (empty_key_unreadable itemSizeHolderBytes ∅ vA); calc. Defined.

(** The set succeeds, and the value is read until the files are loaded again. *)
Lemma empty_key_corrupts :
  emptyKeySet.1 = Ok tt ∧ (GetStringCopy [] emptyKeySet.2).1 = Ok (Some [Byte.x68; Byte.x69])
  ∧ (reopened emptyKeySet.2 (inst false [] false false)).1 = Err ErrUnexpectedEOF.
Proof. calc. Qed.

(** ** Salvaging a data file below four bytes

    Only a read-only open maps such a file; with recovery on, the slice from 4 to
    4 is out of its range. *)

Definition tinyMeta : bytes := marshal (mkMeta 1 4 1 (zeros 16) 5 5 1 0).

Lemma salvage_of_tiny_file_panics :
  (open (Some [Byte.x01; Byte.x02]) (Some tinyMeta) (mkSt (newMMKV [] [] [] false true [] false true) env0)).1
  = Panic.
Proof. calc. Qed.

(** ** A set that fails

    No space for the grown file: the set returns the error, but the value is in
    the dictionary, and readers of the instance see it until the next load. *)

Definition bigValue : bytes := replicate 5000 Byte.x61.
Definition failedSet : outcome unit * St :=
  SetBytes kB bigValue (mkSt (st demo1) (set_faults [Some 28] (env demo1))).

Lemma failed_set_leaves_value :
  failedSet.1 = Err (ErrSys 28) ∧ (GetBytesCopy kB failedSet.2).1 = Ok (Some bigValue)
  ∧ (reopened failedSet.2 (inst false [] false false)).1 = Ok tt
  ∧ (GetBytesCopy kB (reopened failedSet.2 (inst false [] false false)).2).1 = Ok None.
Proof. calc. Qed.

(** ** A mapping that is lost

    truncate unmaps before it maps anew.  When the new mmap fails, the error is
    returned, but the struct is left without a mapping and with its old size: the
    next write finds space and indexes a nil slice. *)

Definition lostMapping : outcome unit * St :=
  SetBytes kB bigValue (mkSt (st demo1) (set_faults [None; None; Some 12] (env demo1))).

Lemma lost_mapping_panics :
  lostMapping.1 = Err (ErrSys 12) ∧ mf_data (data (st lostMapping.2)) = None
  ∧ (SetUInt32 kA 7 lostMapping.2).1 = Panic ∧ (GetUInt32 kA lostMapping.2).1 = Panic.
Proof. calc. Qed.

(** ** A backup onto itself

    copyFile opens the destination with os.Create, which truncates it, before it
    reads the source; the lock BackupOne takes on the meta file does not help
    when the two are one file. *)

(** A backup into the instance's own directory destroys the store: BackupOne
    reports success, and both files are empty. *)
Theorem backup_onto_itself_empties rootDir mmapID f e b c :
  healthy e → fs_ok f → content f (dataPathFor rootDir mmapID) = Some b →
  content f (metaPathFor rootDir mmapID) = Some c →
  ∃ f', BackupOne rootDir mmapID rootDir (f, e) = (Ok tt, (f', e))
    ∧ content f' (dataPathFor rootDir mmapID) = Some [] ∧ content f' (metaPathFor rootDir mmapID) = Some [].
Proof. apply BackupOne_self. Qed.

Definition pairOfFiles : fs :=
  Files.written (metaPathFor [] [Byte.x61]) [Byte.x02]
    (Files.written (dataPathFor [] [Byte.x61]) [Byte.x01] (mkFs ∅ ∅ 0)).

Lemma backup_onto_itself_empties_witness :
  ∃ f', BackupOne [] [Byte.x61] [] (pairOfFiles, env0) = (Ok tt, (f', env0))
    ∧ content f' (dataPathFor [] [Byte.x61]) = Some [] ∧ content f' (metaPathFor [] [Byte.x61]) = Some [].
Proof.
  apply (backup_onto_itself_empties [] [Byte.x61] pairOfFiles env0 [Byte.x01] [Byte.x02]);
    [reflexivity| |calc|calc].
  apply (up_ok [metaPathFor [] [Byte.x61]] _ _ (written_updated _ _ _
    (up_ok [dataPathFor [] [Byte.x61]] _ _ (written_updated _ _ (mkFs ∅ ∅ 0) ltac:(by split))))).
Defined.

(** ** An identifier that ends in .crc

    The data file of one instance is the meta file of another. *)
Lemma crc_identifier_collides root id :
  usable id → special id = false → dataPathFor root (id ++ crcSuffix) = metaPathFor root id.
Proof. apply metaPath_is_dataPath. Qed.

(** ** Closing while another goroutine opens

    Close takes the instance out of the registry first and closes its files
    later: an opening in between makes a second instance of the same files while
    the first still works. *)
Definition closeRace : M proc (nat * nat * bool) :=
  k ← MMKVWithID [] [Byte.x61] [];
  _ ← unregister k;
  k' ← MMKVWithID [] [Byte.x61] [];
  p ← get;
  mret (k, k', match p_insts p !! k with Some i => closed (i_m i) | None => true end).

Lemma close_race_opens_twice :
  (closeRace (mkProc (mkFs ∅ ∅ 0) env0 (Some [Byte.x2f]) ∅ ∅ 0)).1 = Ok (0%nat, 1%nat, false).
Proof. calc. Qed.

(** ** An open that fails

    MMKVWithID and Open drop the instance, and the Reader, whose first load
    failed, without closing what they mapped. *)
Definition encRemoved : outcome unit * St := RemoveValueForKey kA demoE1.

Lemma failed_open_leaks :
  (reopened encRemoved.2 (inst false secret false false)).1 = Err ErrUnexpectedEOF
  ∧ mf_open (data (st (reopened encRemoved.2 (inst false secret false false)).2)) = true
  ∧ mf_open (meta (st (reopened encRemoved.2 (inst false secret false false)).2)) = true.
Proof. calc. Qed.

(** ** A ReKey that fails after the files were written

    The write-back returns the error of an msync when the region and the meta are
    written under the new key; ReKey then goes back to the old key in memory.  The
    files can only be opened with the new one, and so the instance itself can not
    load them again. *)
Definition failedReKey : outcome unit * St :=
  ReKey secret (mkSt (st demo1) (set_faults [None; Some 5] (env demo1))).

Lemma failed_rekey_splits :
  failedReKey.1 = Err (ErrSys 5) ∧ crypt (st failedReKey.2) = None
  ∧ (GetUInt32 kA (reopened failedReKey.2 (inst false secret false false)).2).1 = Ok (Some 300)
  ∧ (reopened failedReKey.2 (inst false [] false false)).1 = Err ErrUnexpectedEOF
  ∧ (GetUInt32 kA (ClearMemoryCache failedReKey.2).2).1 = Ok None.
Proof. calc. Qed.

(** ** Expiration that is on in memory only

    EnableAutoKeyExpire sets the flag before the write-back that stores it.  When
    the file can not grow, it returns the error and the flag stays; the next set is
    appended with a timestamp, but not the flag: whoever opens the files takes the
    timestamp for a part of the value, and the value does not expire. *)
Definition sixteen : list Byte.byte :=
  [Byte.x01; Byte.x02; Byte.x03; Byte.x04; Byte.x05; Byte.x06; Byte.x07; Byte.x08;
   Byte.x11; Byte.x12; Byte.x13; Byte.x14; Byte.x15; Byte.x16; Byte.x17; Byte.x18].
Definition demo16 : St := foldl (fun s k => (SetUInt32 [k] 1 s).2) demo0 sixteen.
Definition failedEnable : outcome unit * St :=
  EnableAutoKeyExpire 60 (mkSt (st demo16) (set_faults [Some 28] (env demo16))).
Definition afterEnable : outcome unit * St := SetUInt32 kA 300 failedEnable.2.
Definition afterAMinute (s : St) : St := mkSt (st s) (mkSys [] 2000 [] Unheld 0).

Lemma failed_enable_loses_expiry :
  failedEnable.1 = Err (ErrSys 28) ∧ afterEnable.1 = Ok tt
  ∧ (GetUInt32 kA (afterAMinute afterEnable.2)).1 = Ok None
  ∧ (GetUInt32 kA (afterAMinute (reopened afterEnable.2 (inst false [] false false)).2)).1 = Ok (Some 300)
  ∧ (GetValueSize kA afterEnable.2).1 = Ok 2
  ∧ (GetValueSize kA (reopened afterEnable.2 (inst false [] false false)).2).1 = Ok 6.
Proof. calc. Qed.

(** ** A ClearAll that fails

    The data file is cut to a page before the meta is written.  When the mmap
    fails in between, the meta still describes a longer region; the next load rolls
    back to the last confirmed one, and a key removed since is there again. *)
Definition grownStore : St :=
  (RemoveValueForKey kA (SetBytes kB (replicate 200 Byte.x61)
    (RemoveValuesForKeys [kB] (SetBytes kB bigValue demo1).2).2).2).2.
Definition failedClear : outcome unit * St :=
  ClearAll (mkSt (st grownStore) (set_faults [None; None; Some 12] (env grownStore))).

Lemma failed_clear_brings_back_keys :
  (GetUInt32 kA grownStore).1 = Ok None ∧ failedClear.1 = Err (ErrSys 12)
  ∧ (GetUInt32 kA (reopened failedClear.2 (inst false [] false false)).2).1 = Ok (Some 300)
  ∧ (GetBytesCopy kB (reopened failedClear.2 (inst false [] false false)).2).1 = Ok None.
Proof. calc. Qed.

(** ** A repair that overwrites newer data

    open loads without the lock.  An opening with recovery that loads while another
    process is between the region and the meta of a write-back finds neither digest
    right, salvages what it sees, waits for the lock to write that back, and does
    not look again once it has the lock. *)
Definition kC : gostring := [Byte.x63].
Definition writer1 : St := (SetUInt32 kB 7 (SetUInt32 kA 300 (open None None (mkSt (inst true [] false false) env0)).2).2).2.
Definition writer2 : St := (RemoveValuesForKeys [kA] writer1).2.
Definition writer3 : St := (SetUInt32 kC 9 writer2).2.

(** The region of [writer2] under the meta of [writer1], then both of [writer3]. *)
Definition loadedBetween : outcome unit * MMKV :=
  loadData (set_meta (meta (st writer1)) (set_data (data (st writer2)) (inst true [] false true))).
Definition repairedLater : outcome unit * St :=
  repair (mkSt (set_meta (set_mf_file (mf_file (meta (st writer3))) (meta (st writer1)))
    (set_data (set_mf_file (mf_file (data (st writer3))) (data (st writer2))) loadedBetween.2)) env0).

Lemma repair_overwrites_newer :
  loadedBetween.1 = Ok tt ∧ needFullWriteback loadedBetween.2 = true
  ∧ (GetUInt32 kC (reopened writer3 (inst true [] false false)).2).1 = Ok (Some 9)
  ∧ repairedLater.1 = Ok tt
  ∧ (GetUInt32 kC (reopened repairedLater.2 (inst true [] false false)).2).1 = Ok None
  ∧ mi_sequence (info (st repairedLater.2)) = mi_sequence (info (st writer3)).
Proof. calc. Qed.
